(* ===== verification/_CoqProject ===== *)
-Q . S2P
Prelude.v
Text.v
Address.v
Coordination.v
Routing.v
Ownership.v
Lease.v
Fencing.v
Takeover.v
S3Store.v
Stores.v
S3Cluster.v
TestCluster.v
LeaseStores.v
S3Leases.v
Placement.v
Transport.v
Session.v
Runtime.v
RuntimeInv.v
RuntimeActor.v
RuntimeWorld.v
RuntimeTrace.v
RuntimeProps.v
RuntimeOrder.v
Activation.v
Hosting.v
HostingRun.v
Accept.v
RuntimeActions.v
AcceptTrace.v
Client.v
ClientStep.v
ClientOpen.v
ClientEnds.v
ClientErrors.v
ClientProps.v
ClientRace.v
ClientWorld.v
ClientTrace.v
ClientEvents.v
ClientLoops.v
Strategy.v
System.v
SystemEvents.v
Inmem.v
Grpc.v
Events.v
Endpoint.v
EndpointProps.v
Config.v
Actor.v
Chat.v
ChatClient.v
Start.v
Builder.v
Harness.v
Counter.v
