(* ===== verification/Prelude.v ===== *)
(** * CoActor: verification development (root file)

    CoActor is a distributed virtual-actor runtime.  A Server runs Actors, each
    named by an address (Actor Type and Actor ID) and owned by one Server at a
    time; a Client opens Sessions to Actors, directly on the Server that owns
    them.  Servers and Clients meet in a Coordination Store, which holds a Node
    Lease per Server and an owner record per Actor.

    ** The parts, and where they are

    - addresses, errors and their wire codes ([src/coactor/src/actor.rs],
      [proto/transport.proto]): [Address]; byte and string operations of the
      Rust standard library: [Text];
    - the Coordination Store ([cluster/authority.rs], [test_support.rs]):
      [Coordination] has the records, the contract of a store as a
      compare-and-swap register over histories ([Register]), and the in-memory
      store, which is proved to implement it;
    - the S3 backend ([cluster/s3.rs]): [S3Store], proved to implement the same
      contract over a service that keeps S3's documented promises;
    - ownership ([cluster/routing.rs]): [Routing] has [resolve], [claim] and
      [release_local_owner]; [Ownership] runs any number of Servers against one
      store and proves what the history of an owner record can be;
    - the routers over a store: [Stores] is the interface between the two, as type
      classes, and runs the routers over any lawful backend; [S3Cluster] is the
      S3 backend, request by request, and [TestCluster] the in-memory store; in the
      same way [LeaseStores] runs the lease tasks over a backend, and [S3Leases]
      over S3;
    - node authority ([cluster/node.rs], the lease part of
      [cluster/authority.rs]): [Lease]; a node, its store and the observers of
      its record under one clock each: [Fencing]; the routers and the leases of
      all nodes in one world: [Takeover];
    - Placement ([cluster/placement.rs]): [Placement] has the pick and its
      accounting, [Strategy] the trait as a type class, and the Client with the
      default strategy in it;
    - envelopes and the transport interface ([transport/mod.rs] and the envelope
      functions of both sides): [Transport]; the in-memory transport
      ([transport/inmem.rs]): [Inmem]; the gRPC transport ([transport/grpc.rs])
      over tonic and tokio's channels: [Grpc];
    - Sessions ([runtime/session.rs], [client/session.rs]): [Session];
    - the Server runtime ([runtime/core.rs], [route.rs], [message.rs],
      [lifecycle.rs], [shutdown.rs]): [Runtime] has the state, the critical
      sections and the procedures; [RuntimeInv] the state invariant;
      [RuntimeActor] the actor task against its environment (rely-guarantee);
      [RuntimeWorld] the concurrent executions; [RuntimeProps] the theorems;
      [RuntimeTrace] executions with a trace of what was accepted and handled,
      and [RuntimeOrder] what the sender of a message can rely on;
      [Activation] where routes come from, and what an open and a passivation
      hold; [Hosting] any number of Servers, their router calls, the store and
      the leases in one world, and [HostingRun] executions of it;
      [Accept] the accept task, the connection tasks and the handles of both
      ([cluster/node.rs], [runtime/core.rs]) in one world with the Server, and
      [AcceptTrace] that world as an execution of [RuntimeTrace];
      [Events] what the clients of an Actor are told ([runtime/actor.rs],
      [message.rs]) over any transport, with an instance for gRPC;
    - the Client ([client/mod.rs], [client/session.rs]): [Client] has the
      procedures, [ClientStep] the state and the concurrent executions,
      [ClientOpen], [ClientEnds], [ClientErrors] and [ClientProps] the theorems about one call,
      [ClientWorld] those about the concurrent Client, [ClientRace] two
      executions, [ClientTrace] executions with a trace of what was sent,
      received and acknowledged, [ClientEvents] the Events in it, [ClientLoops]
      the receive loops in it;
    - all of it: [System] runs a Client, its Servers with their accept tasks, and
      the queues of the connections between them, beside other Clients that may
      connect and send anything;
      [RuntimeActions] follows the Actions of one connection through a Server,
      and [SystemEvents] the Events of a Session back to the application;
    - endpoints ([cluster/authority.rs], [runtime.rs], over [std::net]):
      [Endpoint], with [EndpointProps];
    - configuration and the life of a Server ([runtime.rs],
      [cluster/authority.rs], [cluster/node.rs]): [Config] has the builder,
      [Start] the whole of [serve]: start, wait and shutdown; [Builder] the App
      State that the phases of the builders promise;
    - the test harness ([test_support.rs]): [Harness], a Server and a Client over
      the in-memory transport, with a directory of one node;
    - Actors ([runtime/actor.rs], [message.rs], the expansion of [#[actor]] in
      [coactor-macros]): [Actor] has the trait as a type class, its erasure to
      [dyn Any] and back, and the actor task with the handlers of an Actor in it;
    - two examples: the chat room and its Server ([examples/chat_server.rs],
      [chat/protocol.rs]) in [Chat], its client ([examples/chat_client.rs],
      [chat/storage.rs]) in [ChatClient]; the counter
      ([examples/counter_server.rs]) in [Actor], its programs
      ([counter_server.rs], [counter_client.rs]) in [Counter].

    Calls go from the Client ([Client.open]) over an envelope
    ([Transport.envelope_session_open]) to the Server's
    [Runtime.dispatch_inbound], which resolves the owner ([Routing.resolve], an
    effect of [Runtime] with an arbitrary reply) and hands the message to the
    actor task ([Runtime.actor_task]); the answer comes back as
    [Transport.envelope_opened_ack] to [Client.handle_envelope].

    ** How code is modelled

    A critical section of a lock, or an access of an atomic, is a function on a
    state record.  An [async] procedure is a [proc]: a tree of calls of effects,
    one effect per critical section, atomic access or call of code outside the
    component; so a step of a concurrent execution is one call of one procedure
    ([Runtime.exec_effect], [RuntimeWorld.world_step], [ClientStep.client_act],
    [Ownership]'s cluster).  Replies of the Coordination Store, of S3, of the
    transport, of application handlers and of the clock are arbitrary wherever a
    theorem does not say otherwise.  A [monitor] states a discipline: what a
    procedure may call after what it has seen; [wp] proves it for every reply.
    Machine integers are in [Z] with their saturation or wrap-around written out;
    durations and instants are nanoseconds in [Z]; load ratios are binary64.

    ** What is proved

    - ownership: an ownership epoch has one owner and epochs order the history of
      an address ([Ownership]); a live owner is not displaced, permits and locks
      are accounted for, resolution is bounded ([Routing]);
    - stores: both stores implement the contract; keys are injective and
      listings complete ([Coordination], [S3Store]); routers whose operations are
      interleaved S3 requests do what the cluster over the contract does
      ([S3Cluster], an instance of [Stores]), and lease tasks over S3 exclude each
      other ([S3Leases], an instance of [LeaseStores]);
    - leases: local authority never outlives what the store confirmed, and a
      renewal replaces only the revision it confirmed last ([Lease]); a Session
      that nobody may list any more is fenced, and two Sessions of a node never
      hold authority together, within the assumed clock skew ([Fencing]); a
      takeover between nodes rests on a read of the Node Directory, made after
      the displaced record and before its successor, that fences the sessions it named ([Takeover]);
    - single activation: when two Servers host an Actor of one address, the record
      of one of them was taken over, by a later session of its node or as above.
      [HostingRun.single_activation] is about the executions in which no release
      lands after its call has ended and no Action starts an Actor; two
      executions show that it needs both ([late_release_shares_actor],
      [late_action_shares_actor]);
    - the Server: one Actor per address handles messages outside shutdown
      hand-overs, passivation loses no message, capacity is conserved, inbound
      messages are answered and leave no registration behind, the status only
      advances ([RuntimeProps]); three executions show races the code admits; an
      Actor handles the messages it accepted in order, none twice and none
      skipped, and an acknowledged open was handled ([RuntimeOrder]);
      every envelope the Server dispatches was received by a connection task, one
      at a time and in order ([AcceptTrace]), and a connection closes the Sessions
      it opened ([Accept]); the Sessions of an Actor are told of an
      event or of its end ([Events]);
    - the Client: an open goes only where the store and the Strategy allow, cleans
      up, ends, and reports the error that its last reply explains
      ([ClientErrors]); placements are fresh and eligible; receive loops and shutdown
      end every Session; pools stay bounded, the load counters are exact and no
      interleaving deadlocks ([ClientWorld]); one execution shows an open that
      returns an unregistered Session; the placements in flight are those of
      the opens in progress or succeeded, each counted for the Server its open
      went to ([Strategy]);
    - the whole: a Session that [Client::open] returns has been opened by its
      Actor, on the Server at the other end of its connection, and the Actions
      of a Session are handled in the order they were sent ([System], over
      [RuntimeActions]); its Events reach the application in the order they were
      sent, none twice ([SystemEvents], over [ClientEvents]);
    - Actors: the generated code never meets an Actor of another type, and in the
      task with an Actor's handlers in it, amid the other tasks of the Server, each
      reply that [Runtime] leaves open comes from the handler that is meant for it,
      in the order of an Actor's life ([Actor]); a chat room announces exactly who is in it
      ([Chat]), and one execution shows a client that takes a namesake's arrival
      for its own ([ChatClient]);
    - the life of a Server: it never serves without a confirmed lease, and ends
      what it started, for any replies; where nothing fails every valid
      configuration serves ([Start]); no builder unwraps an App State that is
      missing ([Builder]); the Client of the harness only reaches its own Server
      ([Harness]);
    - data: envelopes, errors, addresses and session ids survive the wire; the
      registry is a map; the builder accepts exactly the valid configurations; an
      endpoint has one text; the transports forward in order.

    ** Fuel and bounds

    The loops of [resolve], of the read-backs and of the release are bounded in
    the source and bounded the same way here.  [Client.open_loop] and
    [Runtime.actor_loop], [Client.receive_loop], [Lease.renewal_loop] take fuel
    for loops that the source leaves unbounded: [ClientEnds] proves how much is
    enough for an open; the others run as long as the Server or the connection
    does, and their theorems hold for every fuel.  [Start.WAIT_ROUNDS] bounds the
    loop of [wait], which is proved to end within it.

    ** What is not modelled

    [tonic] and [tokio] are effects with arbitrary replies, or steps where a
    theorem is about a whole connection ([Grpc]); the parsing of the macro,
    logging and cancellation of a caller's future are left out.  In [Runtime] the
    application handlers are replies, in a step each; in [Actor] they are
    procedures over the runtime and an arbitrary world outside.

    Panics.  Those of handlers are modelled, and those of [Start]: a limit of
    Actors beyond a semaphore, a lease beyond an [Instant] (the sum of an
    [Instant] and a duration is [instant_add] in [Lease], [Fencing] and [Start]).
    Not modelled are a panic of an Actor's [new] and of [mpsc::channel] for a
    mailbox capacity beyond its permits, in [Runtime.spawn_actor], and the
    overflow of the deadline of [Client.open] for an [open_timeout] that an
    [Instant] cannot hold: theorems about these assume that they do not happen.

    Aborts.  A task that is aborted runs what dropping its body runs
    ([Runtime.drop_task]); that a task aborted before its first poll has no guard
    to drop, and leaves its route to the [ClearActors] of a fence, is not
    distinguished.  An aborted connection task stops where it is
    ([Accept.abort_inbound_tasks]); what dropping the dispatch it was in gives
    back (a capacity permit, a oneshot) stays taken in the model.

    [Lease.jittered] computes in integers what the source computes in binary64.
    The lock of a resolution is a part of [Hosting.lock_step], per Server and
    address; that the table of locks of a Server provides it is
    [Routing.resolution_lock_per_address]. *)

From Stdlib Require Export Ascii String.
From stdpp Require Export base tactics option list strings gmap relations sorting.
From Stdlib Require Export ZArith Lia.

#[export] Set Warnings "-clear-no-such-hyp".

Declare Scope coactor_scope.
Delimit Scope coactor_scope with coactor.
#[global] Open Scope coactor_scope.

Create HintDb coactor.

(** ** Fallible results

    Rust's [Result<A, E>], with the [?] operator as a bind. *)
Inductive result (E A : Type) : Type :=
| Ok (a : A)
| Err (e : E).
Arguments Ok {E A} a.
Arguments Err {E A} e.

Definition result_bind {E A B} (r : result E A) (k : A -> result E B) : result E B :=
  match r with
  | Ok a => k a
  | Err e => Err e
  end.

Definition result_map {E A B} (f : A -> B) (r : result E A) : result E B :=
  match r with
  | Ok a => Ok (f a)
  | Err e => Err e
  end.

Definition map_err {E F A} (f : E -> F) (r : result E A) : result F A :=
  match r with
  | Ok a => Ok a
  | Err e => Err (f e)
  end.

Definition ok_or {E A} (e : E) (o : option A) : result E A :=
  match o with
  | Some a => Ok a
  | None => Err e
  end.

Definition is_ok {E A} (r : result E A) : bool :=
  match r with
  | Ok _ => true
  | Err _ => false
  end.

Notation "'try!' x := r ; k" := (result_bind r (fun x => k))
  (at level 10, x pattern, r at level 100, k at level 200) : coactor_scope.

#[global] Instance result_eq_dec {E A} `{EqDecision E, EqDecision A} : EqDecision (result E A).
Proof. solve_decision. Defined.

(** ** Machine integers

    [u64], [usize] and the like are integers in [Z]; the operations the source
    uses on them are written with their saturation.  The target is 64-bit. *)
Definition U64_MAX : Z := 18446744073709551615.
Definition U32_MAX : Z := 4294967295.
Definition U16_MAX : Z := 65535.

Definition u64 (x : Z) : Prop := (0 <= x <= U64_MAX)%Z.

(** The last [Instant] that [std] can hold on a 64-bit Unix: a signed 64-bit number
    of seconds.  [Instant + Duration] panics beyond it: [None]. *)
Definition INSTANT_MAX : Z := 9223372036854775808 * 1000000000 - 1.
Definition instant_add (t d : Z) : option Z := if (t + d <=? INSTANT_MAX)%Z then Some (t + d)%Z else None.

Definition saturating_add (x y : Z) : Z := Z.min (x + y) U64_MAX.
Definition saturating_sub (x y : Z) : Z := Z.max (x - y) 0.

(** ** Effectful procedures

    An [async fn] of the source that talks to the outside (the Coordination
    Store, the object store, a semaphore, the clock) is a finite tree of calls:
    [Call e k] performs the operation [e] and continues with its reply.  The
    loops of the source that use it are bounded, so the tree is inductive. *)
Inductive proc (E : Type -> Type) (A : Type) : Type :=
| Ret (a : A)
| Call {X : Type} (e : E X) (k : X -> proc E A).
Arguments Ret {E A} a.
Arguments Call {E A X} e k.

Fixpoint proc_bind {E A B} (p : proc E A) (f : A -> proc E B) : proc E B :=
  match p with
  | Ret a => f a
  | Call e k => Call e (fun x => proc_bind (k x) f)
  end.

Definition call {E X} (e : E X) : proc E X := Call e (fun x => Ret x).

Notation "'bind!' x := p ; q" := (proc_bind p (fun x => q))
  (at level 10, x pattern, p at level 100, q at level 200) : coactor_scope.
Notation "'call!' x := e ; q" := (Call e (fun x => q))
  (at level 10, x pattern, e at level 100, q at level 200) : coactor_scope.
Notation "'exec!' e ; q" := (Call e (fun _ => q))
  (at level 10, e at level 100, q at level 200) : coactor_scope.

(** A procedure over the effects of a component, called from one whose effects
    include them. *)
Fixpoint lift {E F : Type -> Type} {A} (f : forall X, E X -> F X) (p : proc E A) : proc F A :=
  match p with
  | Ret a => Ret a
  | Call e k => Call (f _ e) (fun x => lift f (k x))
  end.

(** [timeout]: the reply of an operation raced against a timer. *)
Inductive timed (A : Type) : Type :=
| Elapsed
| Ready (a : A).
Arguments Elapsed {A}.
Arguments Ready {A} a.

(** *** Running a procedure against a state and a handler *)
Fixpoint run {E S A} (h : forall X, E X -> S -> X * S) (p : proc E A) (s : S) : A * S :=
  match p with
  | Ret a => (a, s)
  | Call e k => let '(x, s') := h _ e s in run h (k x) s'
  end.

(** *** Monitors

    A monitor watches the calls of a procedure with a ghost state: [allowed] is
    what it demands of a call, [observe] how a call and its reply change the
    ghost state (a relation, so that replies can be arbitrary). *)
Record monitor (E : Type -> Type) (S : Type) : Type := Monitor {
  allowed : forall X, S -> E X -> Prop;
  observe : forall X, S -> E X -> X -> S -> Prop
}.
Arguments allowed {E S} m {X}.
Arguments observe {E S} m {X}.

(** [wp m s p Q]: every call of [p] started in ghost state [s] is allowed, and
    [p] ends in a result and a ghost state that satisfy [Q]. *)
Fixpoint wp {E S A} (m : monitor E S) (s : S) (p : proc E A) (Q : A -> S -> Prop) : Prop :=
  match p with
  | Ret a => Q a s
  | Call e k => allowed m s e /\ forall x s', observe m s e x s' -> wp m s' (k x) Q
  end.

(** Every call of [p] satisfies [P], whatever the replies. *)
Fixpoint calls {E A} (P : forall X, E X -> Prop) (p : proc E A) : Prop :=
  match p with
  | Ret _ => True
  | Call e k => P _ e /\ forall x, calls P (k x)
  end.

(** [execs m s p a s']: the relational semantics of the same monitor. *)
Inductive execs {E S A} (m : monitor E S) : S -> proc E A -> A -> S -> Prop :=
| execs_ret s a : execs m s (Ret a) a s
| execs_call s s1 s2 a X (e : E X) (k : X -> proc E A) x :
    observe m s e x s1 ->
    execs m s1 (k x) a s2 ->
    execs m s (Call e k) a s2.

(** ** Invariants of step relations *)
Definition preserved {S : Type} (step : relation S) (I : S -> Prop) : Prop :=
  forall s s', I s -> step s s' -> I s'.

(** ** Tactics *)

(** Splits every [match]/[if] the goal or a hypothesis is stuck on. *)
Ltac split_matches :=
  repeat (case_match || case_decide); simplify_eq/=.

(** One step of symbolic execution of a [wp] goal. *)
Ltac wp_step :=
  lazymatch goal with
  | |- wp _ _ (Ret _) _ => cbn [wp]
  | |- wp _ _ (Call _ _) _ =>
      cbn [wp]; split; [| let x := fresh "x" in let s := fresh "s" in
                          let H := fresh "Hobs" in intros x s H]
  end.

(** ** Lemmas about results *)
Lemma result_bind_ok {E A B} (r : result E A) (k : A -> result E B) b :
  result_bind r k = Ok b -> exists a, r = Ok a /\ k a = Ok b.
Proof. destruct r; cbn; naive_solver. Qed.

Lemma result_bind_err {E A B} (r : result E A) (k : A -> result E B) e :
  result_bind r k = Err e -> r = Err e \/ exists a, r = Ok a /\ k a = Err e.
Proof. destruct r; cbn; naive_solver. Qed.

Lemma ok_or_ok {E A} (e : E) (o : option A) a : ok_or e o = Ok a <-> o = Some a.
Proof. destruct o; cbn; naive_solver. Qed.

(** ** Lemmas about saturating arithmetic *)
Lemma saturating_add_u64 x y : u64 x -> (0 <= y)%Z -> u64 (saturating_add x y).
Proof. unfold u64, saturating_add, U64_MAX. lia. Qed.

Lemma saturating_add_mono x y : (x <= U64_MAX)%Z -> (0 <= y)%Z -> (x <= saturating_add x y)%Z.
Proof. unfold saturating_add. lia. Qed.

Lemma saturating_succ_strict x : (x < U64_MAX)%Z -> saturating_add x 1 = (x + 1)%Z.
Proof. unfold saturating_add. lia. Qed.

Lemma saturating_sub_u64 x y : u64 x -> (0 <= y)%Z -> u64 (saturating_sub x y).
Proof. unfold u64, saturating_sub, U64_MAX. lia. Qed.

#[export] Hint Resolve saturating_add_u64 saturating_sub_u64 saturating_add_mono : coactor.

(** ** Lemmas about procedures *)
Section proc_lemmas.
Context {E : Type -> Type} {S A B : Type} (m : monitor E S).

Lemma wp_mono (p : proc E A) s (Q Q' : A -> S -> Prop) :
  (forall a s', Q a s' -> Q' a s') -> wp m s p Q -> wp m s p Q'.
Proof.
  intros HQ. revert s. induction p as [a | X e k IH]; cbn; [eauto |].
  intros s [Hal Hk]. split; [done |]. intros x s' Ho. eauto.
Qed.

Lemma wp_bind (p : proc E A) (f : A -> proc E B) s (Q : B -> S -> Prop) :
  wp m s p (fun a s' => wp m s' (f a) Q) -> wp m s (proc_bind p f) Q.
Proof.
  revert s. induction p as [a | X e k IH]; cbn; [done |].
  intros s [Hal Hk]. split; [done |]. eauto.
Qed.

Lemma wp_conj (p : proc E A) s (Q Q' : A -> S -> Prop) :
  wp m s p Q -> wp m s p Q' -> wp m s p (fun a s' => Q a s' /\ Q' a s').
Proof.
  revert s. induction p as [a | X e k IH]; cbn; [done |].
  intros s [Hal Hk] [_ Hk']. split; [done |]. eauto.
Qed.

(** The logic is sound for the relational semantics. *)
Lemma wp_execs (p : proc E A) s a s' (Q : A -> S -> Prop) :
  wp m s p Q -> execs m s p a s' -> Q a s'.
Proof.
  intros Hwp Hex. induction Hex as [| s s1 s2 a X e k x Ho Hex IH]; cbn in *; [done |].
  destruct Hwp as [_ Hk]. eauto.
Qed.

Lemma execs_inv (p : proc E A) s a s' :
  execs m s p a s' ->
  match p with
  | Ret b => a = b /\ s' = s
  | Call e k => exists x s1, observe m s e x s1 /\ execs m s1 (k x) a s'
  end.
Proof. intros Hex. destruct Hex; eauto. Qed.
End proc_lemmas.

Lemma execs_bind {E S A B} (m : monitor E S) (p : proc E A) (f : A -> proc E B) s b s' :
  execs m s (proc_bind p f) b s' ->
  exists a s1, execs m s p a s1 /\ execs m s1 (f a) b s'.
Proof.
  revert s. induction p as [a | X e k IH]; cbn; intros s Hex.
  - exists a, s. split; [constructor | done].
  - apply execs_inv in Hex as (x & s1 & Ho & Hex).
    apply IH in Hex as (a & s2 & Hp & Hf). exists a, s2. split; [| done].
    econstructor; eauto.
Qed.

Lemma run_bind {E S A B} (h : forall X, E X -> S -> X * S) (p : proc E A) (f : A -> proc E B) s :
  run h (proc_bind p f) s = let '(a, s') := run h p s in run h (f a) s'.
Proof.
  revert s. induction p as [a | X e k IH]; cbn; intros s; [done |].
  destruct (h X e s) as [x s']. apply IH.
Qed.

(** A deterministic monitor: a call that is allowed moves the account on. *)
Lemma call_wp {E T A X} (al : forall X, T -> E X -> Prop) (next : forall X, T -> E X -> X -> T)
    (e : E X) (k : X -> proc E A) st (Q : A -> T -> Prop) :
  al X st e -> (forall x, wp (Monitor E T al (fun X st e x st' => st' = next X st e x)) (next X st e x) (k x) Q) ->
  wp (Monitor E T al (fun X st e x st' => st' = next X st e x)) st (Call e k) Q.
Proof. intros Hal Hk. split; [exact Hal |]. by intros x st' ->. Qed.

(** A procedure all of whose calls a monitor lets pass without noticing. *)
Lemma calls_bind {E A B} (P : forall X, E X -> Prop) (p : proc E A) (f : A -> proc E B) :
  calls P p -> (forall a, calls P (f a)) -> calls P (proc_bind p f).
Proof.
  intros Hp Hf. induction p as [a | X e k IH]; [apply Hf |]. destruct Hp as [He Hk]. split; [done |].
  intros x. by apply IH.
Qed.

Lemma calls_mono {E A} (P Q : forall X, E X -> Prop) (p : proc E A) :
  (forall X (e : E X), P X e -> Q X e) -> calls P p -> calls Q p.
Proof. intros HPQ. induction p as [a | X e k IH]; [done |]. intros [He Hk]. split; [by apply HPQ | intros x; by apply IH]. Qed.

Lemma calls_wp {E S A} (m : monitor E S) (P : forall X, E X -> Prop) (p : proc E A) s :
  (forall X (e : E X), P X e -> allowed m s e /\ forall x s', observe m s e x s' -> s' = s) ->
  calls P p -> wp m s p (fun _ s' => s' = s).
Proof.
  intros HP. induction p as [a | X e k IH]; [done |]. intros [He Hk]. destruct (HP _ _ He) as [Hal Ho].
  split; [done |]. intros x s' ->%Ho. by apply IH.
Qed.

(** Every result of [p] satisfies [Q]. *)
Fixpoint yields {E A} (Q : A -> Prop) (p : proc E A) : Prop :=
  match p with
  | Ret a => Q a
  | Call e k => forall x, yields Q (k x)
  end.

Lemma yields_bind {E A B} (R : A -> Prop) (Q : B -> Prop) (p : proc E A) (f : A -> proc E B) :
  yields R p -> (forall a, R a -> yields Q (f a)) -> yields Q (proc_bind p f).
Proof. intros Hp Hf. induction p as [a | X e k IH]; [by apply Hf |]. intros x. by apply IH. Qed.

Lemma yields_any {E A} (p : proc E A) : yields (fun _ => True) p.
Proof. induction p as [a | X e k IH]; [done |]. exact IH. Qed.

Lemma yields_wp {E S A} (m : monitor E S) (Q : A -> Prop) (P : A -> S -> Prop) (p : proc E A) s :
  yields Q p -> wp m s p P -> wp m s p (fun a s' => Q a /\ P a s').
Proof.
  revert s. induction p as [a | X e k IH]; intros s; [done |]. intros Hy [Hal Hk]. split; [done |].
  intros x s' Ho. apply IH; [apply Hy | by apply Hk].
Qed.

Lemma omap_sublist {A B} (f : A -> option B) (l k : list A) : l `sublist_of` k -> omap f l `sublist_of` omap f k.
Proof.
  induction 1 as [| x l k _ IH | x l k _ IH]; [done | |]; cbn.
  - destruct (f x); [by apply sublist_skip | exact IH].
  - destruct (f x); [by apply sublist_cons | exact IH].
Qed.

(** A handler whose every step is an observation of the monitor executes the
    relational semantics: [wp] speaks about the executable [run]. *)
Lemma wp_run {E S A} (h : forall X, E X -> S -> X * S) (m : monitor E S) (p : proc E A) s
    (Q : A -> S -> Prop) :
  (forall X (e : E X) s1, let '(x, s2) := h X e s1 in observe m s1 e x s2) ->
  wp m s p Q ->
  let '(a, s') := run h p s in Q a s'.
Proof.
  intros Hh. revert s. induction p as [a | X e k IH]; cbn; intros s Hwp; [done |].
  destruct Hwp as [_ Hk]. specialize (Hh X e s).
  destruct (h X e s) as [x s']. by apply IH, Hk.
Qed.

(** A monitor of the component whose state is a part of the caller's: what it
    proves of a procedure holds of the lifted one, with what the component's
    calls leave alone ([I]). *)
Lemma wp_lift {E F S T A} (f : forall X, E X -> F X) (m : monitor E S) (n : monitor F T)
    (part : T -> S) (I : T -> Prop) (p : proc E A) t (Q : A -> S -> Prop) :
  (forall X (e : E X) t, I t -> allowed m (part t) e -> allowed n t (f X e)) ->
  (forall X (e : E X) t x t', I t -> observe n t (f X e) x t' -> observe m (part t) e x (part t') /\ I t') ->
  I t -> wp m (part t) p Q -> wp n t (lift f p) (fun a t' => I t' /\ Q a (part t')).
Proof.
  intros Hal Hob. revert t. induction p as [a | X e k IH]; cbn; intros t HI Hwp; [done |].
  destruct Hwp as [Ha Hk]. split; [by apply Hal |]. intros x t' Ho.
  destruct (Hob _ _ _ _ _ HI Ho). by apply IH; [| apply Hk].
Qed.

(** ** Lemmas about traces *)
Lemma elem_of_snoc {A} (x y : A) l : x ∈ l ++ [y] <-> x ∈ l \/ x = y.
Proof. by rewrite elem_of_app, list_elem_of_singleton. Qed.

Lemma in_snoc {A} (x : A) l y : x ∈ l -> x ∈ l ++ [y].
Proof. intros. apply elem_of_app. by left. Qed.

Lemma elem_of_insert_inv {A} (l : list A) i x y : y ∈ <[i := x]> l -> y = x \/ y ∈ l.
Proof.
  intros [j Hj]%list_elem_of_lookup.
  apply list_lookup_insert_Some in Hj as [(_ & <- & _) | [_ Hj]]; [by left | right; by eapply list_elem_of_lookup_2].
Qed.

(** ** Lemmas about step relations *)
Lemma rtc_preserved {S : Type} (step : relation S) (I : S -> Prop) s s' :
  preserved step I -> I s -> rtc step s s' -> I s'.
Proof. intros Hp HI Hr. induction Hr; eauto. Qed.

(** *** Equivalence of procedures

    The same calls and, after the same replies, the same result. *)
Fixpoint proc_equiv {E A} (p q : proc E A) : Prop :=
  match p with
  | Ret a => q = Ret a
  | Call e k => exists k', q = Call e k' /\ forall x, proc_equiv (k x) (k' x)
  end.

#[export] Instance proc_Equiv {E A} : Equiv (proc E A) := proc_equiv.

#[export] Instance proc_Equivalence {E A} : Equivalence (≡@{proc E A}).
Proof.
  split.
  - intros p. induction p as [| X e k IH]; [done |]. by exists k.
  - intros p. induction p as [| X e k IH]; intros q; [by intros -> |].
    intros (k' & -> & Hk). exists k. split; [done |]. intros x. apply IH, Hk.
  - intros p. induction p as [| X e k IH]; intros q r; [by intros -> |].
    intros (k' & -> & Hk) (k'' & -> & Hk'). exists k''. split; [done |]. intros x. eapply IH; [apply Hk | apply Hk'].
Qed.

Lemma call_equiv {E A X} (e : E X) (k k' : X -> proc E A) : (forall x, k x ≡ k' x) -> Call e k ≡ Call e k'.
Proof. intros Hk. by exists k'. Qed.

#[export] Instance proc_bind_Proper {E A B} :
  Proper ((≡) ==> pointwise_relation A (≡) ==> (≡)) (@proc_bind E A B).
Proof.
  intros p. induction p as [a | X e k IH]; intros q Hq f g Hf.
  - rewrite Hq. apply Hf.
  - destruct Hq as (k' & -> & Hk). apply call_equiv. intros x. by apply IH; [apply Hk |].
Qed.

Lemma bind_assoc {E A B C} (p : proc E A) (f : A -> proc E B) (g : B -> proc E C) :
  proc_bind (proc_bind p f) g ≡ proc_bind p (fun a => proc_bind (f a) g).
Proof. induction p as [a | X e k IH]; cbn; [done | by apply call_equiv]. Qed.

#[export] Instance wp_Proper {E S A} (m : monitor E S) (s : S) :
  Proper ((≡) ==> pointwise_relation A (pointwise_relation S iff) ==> iff) (wp m s).
Proof.
  intros p. revert s. induction p as [a | X e k IH]; intros s q Hq P Q HP.
  - rewrite Hq. apply HP.
  - destruct Hq as (k' & -> & Hk). cbn. split; (intros [Ha Hw]; split; [done |]); intros x s' Ho.
    + apply (IH x s' _ (Hk x) _ _ HP). by apply Hw.
    + apply (IH x s' _ (Hk x) _ _ HP). by apply Hw.
Qed.

Lemma execs_equiv {E S A} (m : monitor E S) (p q : proc E A) s a s' :
  p ≡ q -> execs m s p a s' -> execs m s q a s'.
Proof.
  intros Hq Hx. revert q Hq. induction Hx as [s a | s s1 s2 a X e k x Ho Hx IH]; intros q Hq.
  - rewrite Hq. constructor.
  - destruct Hq as (k' & -> & Hk). econstructor; [done | apply IH, Hk].
Qed.

Lemma lift_bind {E F A B} (f : forall X, E X -> F X) (p : proc E A) (g : A -> proc E B) :
  lift f (proc_bind p g) ≡ proc_bind (lift f p) (fun a => lift f (g a)).
Proof. induction p as [a | X e k IH]; cbn; [done | by apply call_equiv]. Qed.
