(* ===== verification/Text.v ===== *)
(** * Bytes and strings

    The [str] operations of the Rust standard library that the program uses, on
    strings of UTF-8 bytes, with the lemmas the components share. *)

From S2P Require Import Prelude.

(** ** Bytes and strings

    A Rust [str] is a [string] of bytes. *)
Definition byte_code (c : ascii) : N := N_of_ascii c.

Definition is_ascii_lowercase (c : ascii) : bool :=
  (97 <=? byte_code c)%N && (byte_code c <=? 122)%N.
Definition is_ascii_uppercase (c : ascii) : bool :=
  (65 <=? byte_code c)%N && (byte_code c <=? 90)%N.
Definition is_ascii_digit (c : ascii) : bool :=
  (48 <=? byte_code c)%N && (byte_code c <=? 57)%N.
Definition is_ascii_alphanumeric (c : ascii) : bool :=
  is_ascii_lowercase c || is_ascii_uppercase c || is_ascii_digit c.

Definition as_bytes (s : string) : list ascii := list_ascii_of_string s.

Fixpoint contains_char (c : ascii) (s : string) : bool :=
  match s with
  | EmptyString => false
  | String d s => bool_decide (c = d) || contains_char c s
  end.

(** [str::split(c)]: always at least one piece. *)
Fixpoint split_on (c : ascii) (s : string) : list string :=
  match s with
  | EmptyString => [""]
  | String d s =>
      if bool_decide (c = d) then "" :: split_on c s
      else match split_on c s with
           | piece :: rest => String d piece :: rest
           | [] => [String d ""]
           end
  end.

(** [str::strip_prefix], [str::starts_with] *)
Fixpoint strip_prefix (p s : string) : option string :=
  match p, s with
  | EmptyString, _ => Some s
  | String c p, String d s => if bool_decide (c = d) then strip_prefix p s else None
  | String _ _, EmptyString => None
  end.

Definition starts_with (p s : string) : bool := bool_decide (is_Some (strip_prefix p s)).

(** [str::contains] of a string *)
Fixpoint contains_str (p s : string) : bool :=
  starts_with p s || match s with EmptyString => false | String _ s => contains_str p s end.

(** [str::strip_suffix], [str::ends_with] *)
Fixpoint strip_suffix (p s : string) : option string :=
  if bool_decide (s = p) then Some ""
  else match s with
       | EmptyString => None
       | String c s => String c <$> strip_suffix p s
       end.

Definition ends_with (p s : string) : bool := bool_decide (is_Some (strip_suffix p s)).

(** The UTF-8 encodings of the characters of [char::is_whitespace]. *)
Fixpoint whitespace_only (bytes : list N) : bool :=
  match bytes with
  | [] => true
  | (9 | 10 | 11 | 12 | 13 | 32)%N :: rest => whitespace_only rest
  | 194%N :: (133 | 160)%N :: rest => whitespace_only rest
  | 225%N :: 154%N :: 128%N :: rest => whitespace_only rest
  | 226%N :: 128%N :: b :: rest =>
      ((128 <=? b)%N && (b <=? 138)%N || (b =? 168)%N || (b =? 169)%N || (b =? 175)%N)
      && whitespace_only rest
  | 226%N :: 129%N :: 159%N :: rest => whitespace_only rest
  | 227%N :: 128%N :: 128%N :: rest => whitespace_only rest
  | _ => false
  end.

(** [s.trim().is_empty()] *)
Definition trim_is_empty (s : string) : bool := whitespace_only (byte_code <$> as_bytes s).

(** [str::chars], as the encodings: a byte and the continuation bytes after it. *)
Definition is_continuation (b : N) : bool := (128 <=? b)%N && (b <=? 191)%N.

Fixpoint chars_of (bytes : list N) : list (list N) :=
  match bytes with
  | [] => []
  | b :: rest =>
      match chars_of rest with
      | (c :: cs) :: gs => if is_continuation c then (b :: c :: cs) :: gs else [b] :: (c :: cs) :: gs
      | gs => [b] :: gs
      end
  end.

Definition chars (s : string) : list (list N) := chars_of (byte_code <$> as_bytes s).
Definition of_chars (gs : list (list N)) : string := string_of_list_ascii (ascii_of_N <$> concat gs).

(** [char::is_control]: U+0000 to U+001F and U+007F to U+009F. *)
Definition is_control (c : list N) : bool :=
  match c with
  | [b] => (b <? 32)%N || (b =? 127)%N
  | [194%N; b] => (128 <=? b)%N && (b <=? 159)%N
  | _ => false
  end.

Fixpoint drop_while {A} (f : A -> bool) (l : list A) : list A :=
  match l with
  | [] => []
  | x :: l' => if f x then drop_while f l' else l
  end.

(** [str::trim] *)
Definition trim_chars (gs : list (list N)) : list (list N) :=
  rev (drop_while whitespace_only (rev (drop_while whitespace_only gs))).
Definition trim (s : string) : string := of_chars (trim_chars (chars s)).

(** [String::from_utf8]: the well-formed UTF-8 byte sequences. *)
Fixpoint utf8_valid (bytes : list N) : bool :=
  let cont b := (128 <=? b)%N && (b <=? 191)%N in
  let within lo hi b := (lo <=? b)%N && (b <=? hi)%N in
  match bytes with
  | [] => true
  | b :: rest =>
      if (b <? 128)%N then utf8_valid rest
      else match rest with
           | [] => false
           | b1 :: rest1 =>
               if within 194 223 b then cont b1 && utf8_valid rest1
               else match rest1 with
                    | [] => false
                    | b2 :: rest2 =>
                        if within 224 239 b then
                          within (if (b =? 224)%N then 160 else 128) (if (b =? 237)%N then 159 else 191) b1
                          && cont b2 && utf8_valid rest2
                        else match rest2 with
                             | [] => false
                             | b3 :: rest3 =>
                                 within 240 244 b
                                 && within (if (b =? 240)%N then 144 else 128) (if (b =? 244)%N then 143 else 191) b1
                                 && cont b2 && cont b3 && utf8_valid rest3
                             end
                    end
           end
  end%N.

Definition from_utf8 (bytes : string) : option string :=
  if utf8_valid (byte_code <$> as_bytes bytes) then Some bytes else None.

(** [str::cmp]: lexicographic on the bytes. *)
Definition str_le (s t : string) : Prop := String.leb s t = true.
#[export] Instance str_le_dec s t : Decision (str_le s t) := decide (String.leb s t = true).

(** ** Lemmas on strings *)
Lemma string_app_cons d (s t : string) : String d s +:+ t = String d (s +:+ t).
Proof. done. Qed.

Lemma string_app_nil (t : string) : "" +:+ t = t.
Proof. done. Qed.

Lemma contains_char_app c s t :
  contains_char c (s +:+ t) = contains_char c s || contains_char c t.
Proof.
  induction s as [| d s IH]; [done |].
  rewrite string_app_cons. cbn. rewrite IH. by destruct (bool_decide _).
Qed.

(** A string is cut at the first occurrence of a separator in only one way. *)
Lemma cut_at_separator c s1 s2 r1 r2 :
  contains_char c s1 = false ->
  contains_char c s2 = false ->
  s1 +:+ String c r1 = s2 +:+ String c r2 ->
  s1 = s2 /\ r1 = r2.
Proof.
  revert s2. induction s1 as [| d s1 IH]; intros [| d' s2];
    rewrite ?string_app_cons, ?string_app_nil; cbn [contains_char]; intros H1 H2 Heq; simplify_eq.
  - done.
  - rewrite bool_decide_eq_true_2 in H2; done.
  - rewrite bool_decide_eq_true_2 in H1; done.
  - apply orb_false_iff in H1 as [_ H1]. apply orb_false_iff in H2 as [_ H2].
    destruct (IH s2) as [-> ->]; done.
Qed.

Lemma contains_char_In c s : contains_char c s = true <-> In c (as_bytes s).
Proof.
  induction s as [| d s IH]; cbn; [done |].
  rewrite orb_true_iff, IH, bool_decide_eq_true. naive_solver.
Qed.

Lemma string_app_inv_l (p s1 s2 : string) : p +:+ s1 = p +:+ s2 -> s1 = s2.
Proof. induction p; [done |]. rewrite !string_app_cons. intros; simplify_eq; auto. Qed.

(** A string that contains no [c] is its own only piece. *)
Lemma split_on_none c s : contains_char c s = false -> split_on c s = [s].
Proof.
  induction s as [| d s IH]; cbn; [done |]. intros [Hd Hs]%orb_false_iff.
  rewrite Hd, (IH Hs). done.
Qed.

Lemma string_app_empty_r (s : string) : s +:+ "" = s.
Proof. induction s as [| c s IH]; [done |]. by rewrite string_app_cons, IH. Qed.

Lemma string_app_assoc (s t u : string) : (s +:+ t) +:+ u = s +:+ (t +:+ u).
Proof. induction s as [| c s IH]; [done |]. by rewrite !string_app_cons, IH. Qed.

Lemma strip_prefix_Some p s rest : strip_prefix p s = Some rest <-> s = p +:+ rest.
Proof.
  revert s. induction p as [| c p IH]; intros s; cbn [strip_prefix].
  - rewrite string_app_nil. naive_solver.
  - rewrite string_app_cons. destruct s as [| d s]; [done |].
    case_bool_decide as Hc; [subst d; rewrite IH; naive_solver | naive_solver].
Qed.

Lemma string_length_app (s t : string) : String.length (s +:+ t) = String.length s + String.length t.
Proof. induction s as [| c s IH]; [done |]. rewrite string_app_cons. cbn. by rewrite IH. Qed.

Lemma strip_suffix_Some p s rest : strip_suffix p s = Some rest <-> s = rest +:+ p.
Proof.
  revert rest. induction s as [| c s IH]; intros rest; cbn [strip_suffix]; case_bool_decide as Hs.
  - subst p. rewrite string_app_empty_r. naive_solver.
  - split; [done |]. destruct rest; [| done]. by rewrite string_app_nil.
  - subst p. split; [naive_solver |]. intros H. f_equal.
    apply (f_equal String.length) in H. rewrite string_length_app in H.
    destruct rest; [done |]. cbn in H. lia.
  - rewrite fmap_Some. split.
    + intros (r & Hr & ->). apply IH in Hr as ->. by rewrite string_app_cons.
    + destruct rest as [| d r]; [rewrite string_app_nil; naive_solver |].
      rewrite string_app_cons. intros [= -> ->]. exists r. by rewrite IH.
Qed.

#[export] Instance str_le_total : Total str_le.
Proof.
  intros s t. unfold str_le, String.leb. rewrite (String.compare_antisym s t).
  destruct (String.compare t s); cbn; auto.
Qed.

(** ASCII is UTF-8. *)
Lemma utf8_valid_ascii bytes : Forall (fun b => (b < 128)%N) bytes -> utf8_valid bytes = true.
Proof.
  induction 1 as [| b bytes Hb _ IH]; [done |]. cbn [utf8_valid].
  by rewrite (proj2 (N.ltb_lt _ _) Hb).
Qed.

(** *** Characters *)

(** Encodings of one character each, the first perhaps without its first byte. *)
Fixpoint encodings (gs : list (list N)) : Prop :=
  match gs with
  | [] => True
  | g :: gs =>
      match g with [] => False | _ :: cs => Forall (fun b => is_continuation b = true) cs end /\
      match gs with (c :: _) :: _ => is_continuation c = false | _ => True end /\ encodings gs
  end.

Lemma chars_of_encodings bytes : encodings (chars_of bytes).
Proof.
  induction bytes as [| b rest IH]; [done |]. cbn. destruct (chars_of rest) as [| [| c cs] gs]; [done | by destruct IH |].
  destruct IH as (Hcs & Hg & IH). destruct (is_continuation c) eqn:Hc; cbn; split_and!; try done. by constructor.
Qed.

Lemma chars_of_concat gs : encodings gs -> chars_of (concat gs) = gs.
Proof.
  induction gs as [| [| b cs] gs IH]; [done | by intros [] |]. intros (Hcs & Hg & He). specialize (IH He).
  cbn [concat]. rewrite <- app_comm_cons. revert b. induction Hcs as [| c cs Hc _ IHcs]; intros b.
  - cbn. rewrite IH. destruct gs as [| [| c cs] gs]; [done | by destruct He |]. by rewrite Hg.
  - cbn [chars_of app]. specialize (IHcs c). cbn [chars_of app] in IHcs. rewrite IHcs. by rewrite Hc.
Qed.

Lemma concat_chars_of bytes : concat (chars_of bytes) = bytes.
Proof.
  induction bytes as [| b rest IH]; [done |]. cbn. destruct (chars_of rest) as [| [| c cs] gs]; cbn in *; [by rewrite <- IH.. |].
  destruct (is_continuation c); cbn; by rewrite <- IH.
Qed.

Lemma encodings_app gs1 gs2 : encodings (gs1 ++ gs2) -> encodings gs1 /\ encodings gs2.
Proof.
  induction gs1 as [| g gs1 IH]; [done |]. cbn. intros (Hg & Hn & [H1 H2]%IH). split; [| done].
  split_and!; [done | | done]. by destruct gs1.
Qed.

Lemma drop_while_suffix {A} (f : A -> bool) l : exists k, l = k ++ drop_while f l.
Proof.
  induction l as [| x l [k IH]]; [by exists [] |]. cbn. destruct (f x); [| by exists []]. exists (x :: k). cbn. by rewrite <- IH.
Qed.

Lemma drop_while_head {A} (f : A -> bool) l : match drop_while f l with [] => True | x :: _ => f x = false end.
Proof. induction l as [| x l IH]; [done |]. cbn. by destruct (f x) eqn:Hf. Qed.

Lemma drop_while_id {A} (f : A -> bool) l : match l with [] => True | x :: _ => f x = false end -> drop_while f l = l.
Proof. destruct l as [| x l]; [done |]. cbn. by intros ->. Qed.

Lemma trim_chars_sub gs : exists k1 k2, gs = k1 ++ trim_chars gs ++ k2.
Proof.
  unfold trim_chars. destruct (drop_while_suffix whitespace_only gs) as [k1 H1].
  destruct (drop_while_suffix whitespace_only (rev (drop_while whitespace_only gs))) as [k2 H2].
  exists k1, (rev k2). rewrite <- rev_app_distr, <- H2, rev_involutive. exact H1.
Qed.

Lemma trim_chars_idem gs : trim_chars (trim_chars gs) = trim_chars gs.
Proof.
  unfold trim_chars at 1. rewrite (drop_while_id whitespace_only (trim_chars gs)).
  - unfold trim_chars. rewrite rev_involutive. rewrite drop_while_id; [done |]. apply drop_while_head.
  - unfold trim_chars. pose proof (drop_while_head whitespace_only gs) as Hh.
    destruct (drop_while whitespace_only gs) as [| g l]; [done |].
    destruct (drop_while_suffix whitespace_only (rev (g :: l))) as [k Hk].
    destruct (rev (drop_while whitespace_only (rev (g :: l)))) as [| g' l'] eqn:Hr; [done |].
    apply (f_equal (@rev _)) in Hk. rewrite rev_involutive, rev_app_distr, Hr in Hk. by injection Hk as <- _.
Qed.

Lemma byte_codes_back bytes : Forall (fun b => (b < 256)%N) bytes ->
  byte_code <$> as_bytes (string_of_list_ascii (ascii_of_N <$> bytes)) = bytes.
Proof.
  intros Hb. unfold as_bytes. rewrite list_ascii_of_string_of_list_ascii. induction Hb as [| b bytes Hb _ IH]; [done |].
  cbn. rewrite IH. unfold byte_code. by rewrite N_ascii_embedding.
Qed.

Lemma bytes_bounded s : Forall (fun b => (b < 256)%N) (byte_code <$> as_bytes s).
Proof. apply Forall_fmap, Forall_forall. intros c _. apply N_ascii_bounded. Qed.

(** What is left is a string of the same characters. *)
Lemma chars_trim s : chars (trim s) = trim_chars (chars s).
Proof.
  unfold trim, of_chars. unfold chars at 1. destruct (trim_chars_sub (chars s)) as (k1 & k2 & Hk).
  rewrite byte_codes_back.
  - apply chars_of_concat. pose proof (chars_of_encodings (byte_code <$> as_bytes s)) as He. fold (chars s) in He.
    rewrite Hk in He. apply encodings_app in He as [_ He]. by apply encodings_app in He as [He _].
  - pose proof (bytes_bounded s) as Hb. rewrite <- (concat_chars_of (byte_code <$> as_bytes s)) in Hb.
    fold (chars s) in Hb. rewrite Hk, !concat_app in Hb. apply Forall_app in Hb as [_ Hb]. by apply Forall_app in Hb as [Hb _].
Qed.

Lemma trim_idem s : trim (trim s) = trim s.
Proof. unfold trim at 1. rewrite chars_trim, trim_chars_idem. done. Qed.
