(* ===== verification/Address.v ===== *)
(** * Actor addresses and the error vocabulary

    Models [coactor/src/actor.rs] (addresses, send and open errors and their
    wire codes), the [RuntimeFailure] enumeration of
    [coactor/proto/transport.proto], and proves that labels and addresses are
    what they claim to be and how errors survive the wire. *)

From S2P Require Import Prelude Text.

(** [is_dns_label] *)
Definition is_dns_label (value : string) : bool :=
  let bytes := as_bytes value in
  (1 <=? length bytes)%nat && (length bytes <=? 63)%nat
  && (if head bytes is Some b then is_ascii_alphanumeric b else false)
  && (if last bytes is Some b then is_ascii_alphanumeric b else false)
  && forallb (fun b => is_ascii_lowercase b || is_ascii_digit b || bool_decide (b = "-"%char)) bytes.

(** ** Addresses *)
Record ActorAddress := MkActorAddress {
  actor_type : string;
  actor_id : string
}.

Inductive ActorAddressError := InvalidActorType | InvalidActorId.

(** [ActorAddress::new] *)
Definition actor_address_new (actor_type actor_id : string) : result ActorAddressError ActorAddress :=
  if negb (is_dns_label actor_type) then Err InvalidActorType
  else if negb (is_dns_label actor_id) then Err InvalidActorId
  else Ok (MkActorAddress actor_type actor_id).

(** [impl Display for ActorAddress] *)
Definition display_address (a : ActorAddress) : string :=
  actor_type a +:+ "/" +:+ actor_id a.

(** The addresses the constructor can build: the fields are private, so every
    address of the program is one of these. *)
Definition address_wf (a : ActorAddress) : Prop :=
  is_dns_label (actor_type a) = true /\ is_dns_label (actor_id a) = true.

#[export] Instance ActorAddress_eq_dec : EqDecision ActorAddress.
Proof. solve_decision. Defined.
#[export] Program Instance ActorAddress_countable : Countable ActorAddress :=
  inj_countable' (fun a => (actor_type a, actor_id a)) (fun p => MkActorAddress p.1 p.2) _.
Next Obligation. by intros []. Qed.
#[export] Instance ActorAddressError_eq_dec : EqDecision ActorAddressError.
Proof. solve_decision. Defined.

(** ** Errors *)
Inductive RemoteProtocolError :=
| VersionMismatch
| ProtocolActorTypeNotRegistered
| MalformedMessage.

Inductive SendError :=
| ActorTypeNotRegistered (actor_type : string)
| NotOwner
| MailboxFull
| ActivationFailed
| ActorDeactivating
| RuntimeAtCapacity
| RuntimeShuttingDown
| ActorStopped
| RuntimeStopped
| NodeFenced
| RemoteUnavailable
| DirectoryUnavailable
| OwnershipUnavailable
| RemoteProtocol (error : RemoteProtocolError).

Inductive OpenError :=
| OpenRuntimeStopped
| OpenDirectoryUnavailable
| AttemptsExhausted
| OpenRemoteUnavailable
| OpenActorTypeNotRegistered
| OpenRuntimeAtCapacity
| OpenOwnershipUnavailable
| OpenRemoteProtocol.

(** [impl From<SendError> for OpenError] *)
Definition open_error_from (error : SendError) : OpenError :=
  match error with
  | RuntimeStopped | RuntimeShuttingDown => OpenRuntimeStopped
  | DirectoryUnavailable => OpenDirectoryUnavailable
  | ActorTypeNotRegistered _ => OpenActorTypeNotRegistered
  | RuntimeAtCapacity => OpenRuntimeAtCapacity
  | OwnershipUnavailable => OpenOwnershipUnavailable
  | RemoteProtocol _ => OpenRemoteProtocol
  | _ => OpenRemoteUnavailable
  end.

(** [enum RuntimeFailure] of the transport protocol, with its numbers. *)
Inductive RuntimeFailure :=
| FUnspecified
| FMailboxFull
| FActivationFailed
| FActorDeactivating
| FRuntimeAtCapacity
| FRuntimeShuttingDown
| FActorStopped
| FRuntimeStopped
| FProtocolMismatch
| FActorTypeNotRegistered
| FMalformedPayload
| FRemoteUnavailable
| FNodeFenced
| FOwnershipUnavailable
| FNotOwner.

Definition runtime_failure_number (f : RuntimeFailure) : Z :=
  match f with
  | FUnspecified => 0
  | FMailboxFull => 1
  | FActivationFailed => 2
  | FActorDeactivating => 3
  | FRuntimeAtCapacity => 4
  | FRuntimeShuttingDown => 5
  | FActorStopped => 6
  | FRuntimeStopped => 7
  | FProtocolMismatch => 8
  | FActorTypeNotRegistered => 9
  | FMalformedPayload => 10
  | FRemoteUnavailable => 11
  | FNodeFenced => 12
  | FOwnershipUnavailable => 13
  | FNotOwner => 14
  end.

Definition runtime_failures : list RuntimeFailure :=
  [FUnspecified; FMailboxFull; FActivationFailed; FActorDeactivating; FRuntimeAtCapacity;
   FRuntimeShuttingDown; FActorStopped; FRuntimeStopped; FProtocolMismatch;
   FActorTypeNotRegistered; FMalformedPayload; FRemoteUnavailable; FNodeFenced;
   FOwnershipUnavailable; FNotOwner].

(** [RuntimeFailure::try_from(i32)]: the numbers of the enumeration, nothing else. *)
Definition runtime_failure_try_from (value : Z) : option RuntimeFailure :=
  List.find (fun f => (runtime_failure_number f =? value)%Z) runtime_failures.

(** [SendError::to_wire] *)
Definition to_wire (error : SendError) : Z :=
  runtime_failure_number
    match error with
    | ActorTypeNotRegistered _ => FActorTypeNotRegistered
    | NotOwner => FNotOwner
    | MailboxFull => FMailboxFull
    | ActivationFailed => FActivationFailed
    | ActorDeactivating => FActorDeactivating
    | RuntimeAtCapacity => FRuntimeAtCapacity
    | RuntimeShuttingDown => FRuntimeShuttingDown
    | ActorStopped => FActorStopped
    | RuntimeStopped => FRuntimeStopped
    | NodeFenced => FNodeFenced
    | RemoteUnavailable => FRemoteUnavailable
    | DirectoryUnavailable => FRemoteUnavailable
    | OwnershipUnavailable => FOwnershipUnavailable
    | RemoteProtocol _ => FProtocolMismatch
    end.

(** [SendError::from_wire] *)
Definition from_wire (value : Z) : SendError :=
  match default FUnspecified (runtime_failure_try_from value) with
  | FActorTypeNotRegistered => ActorTypeNotRegistered ""
  | FNotOwner => NotOwner
  | FMailboxFull => MailboxFull
  | FActivationFailed => ActivationFailed
  | FActorDeactivating => ActorDeactivating
  | FRuntimeAtCapacity => RuntimeAtCapacity
  | FRuntimeShuttingDown => RuntimeShuttingDown
  | FActorStopped => ActorStopped
  | FRuntimeStopped => RuntimeStopped
  | FNodeFenced => NodeFenced
  | FRemoteUnavailable => RemoteUnavailable
  | FOwnershipUnavailable => OwnershipUnavailable
  | _ => RemoteProtocol VersionMismatch
  end.

(** What a peer can learn of an error: the payloads the protocol has no field
    for are erased, and a directory failure is a remote failure to the peer. *)
Definition wire_view (error : SendError) : SendError :=
  match error with
  | ActorTypeNotRegistered _ => ActorTypeNotRegistered ""
  | DirectoryUnavailable => RemoteUnavailable
  | RemoteProtocol _ => RemoteProtocol VersionMismatch
  | e => e
  end.

#[export] Instance RemoteProtocolError_eq_dec : EqDecision RemoteProtocolError.
Proof. solve_decision. Defined.
#[export] Instance SendError_eq_dec : EqDecision SendError.
Proof. solve_decision. Defined.
#[export] Instance OpenError_eq_dec : EqDecision OpenError.
Proof. solve_decision. Defined.

(** ** Lemmas on labels *)
Lemma is_dns_label_bytes value b :
  is_dns_label value = true -> In b (as_bytes value) ->
  is_ascii_lowercase b = true \/ is_ascii_digit b = true \/ b = "-"%char.
Proof.
  unfold is_dns_label. rewrite !andb_true_iff, forallb_forall. intros [_ Hall] Hb.
  specialize (Hall b Hb). rewrite !orb_true_iff, bool_decide_eq_true in Hall. tauto.
Qed.

Lemma is_dns_label_excludes c value :
  is_dns_label value = true ->
  is_ascii_lowercase c = false -> is_ascii_digit c = false -> c <> "-"%char ->
  contains_char c value = false.
Proof.
  intros Hl H1 H2 H3. destruct (contains_char c value) eqn:Hc; [| done].
  apply contains_char_In, (is_dns_label_bytes _ _ Hl) in Hc. naive_solver congruence.
Qed.

Lemma is_dns_label_no_slash value :
  is_dns_label value = true -> contains_char "/"%char value = false.
Proof. intros H. by apply is_dns_label_excludes. Qed.

Lemma is_dns_label_nonempty value : is_dns_label value = true -> value <> "".
Proof. intros H ->. done. Qed.

#[export] Hint Resolve is_dns_label_no_slash is_dns_label_nonempty : coactor.

Lemma actor_address_new_ok t i a :
  actor_address_new t i = Ok a <-> a = MkActorAddress t i /\ address_wf a.
Proof.
  unfold actor_address_new, address_wf.
  destruct (is_dns_label t) eqn:Ht, (is_dns_label i) eqn:Hi; cbn;
    (split; [intros [= <-] | intros [-> Hwf]]; cbn in *; intuition congruence).
Qed.

Lemma runtime_failure_try_from_number f :
  runtime_failure_try_from (runtime_failure_number f) = Some f.
Proof. by destruct f. Qed.

Lemma from_to_wire error : from_wire (to_wire error) = wire_view error.
Proof.
  unfold from_wire, to_wire. rewrite runtime_failure_try_from_number. by destruct error.
Qed.

Lemma wire_view_idem error : wire_view (wire_view error) = wire_view error.
Proof. by destruct error. Qed.

(** ** Properties *)

(** An address is built exactly from two DNS labels, the first offending
    component decides the error, and the printed form of a built address
    determines the address. *)
Theorem address_validated (t i : string) :
  match actor_address_new t i with
  | Ok a => actor_type a = t /\ actor_id a = i /\ address_wf a /\
            (forall a', address_wf a' -> display_address a' = display_address a -> a' = a)
  | Err InvalidActorType => is_dns_label t = false
  | Err InvalidActorId => is_dns_label t = true /\ is_dns_label i = false
  end.
Proof.
  unfold actor_address_new.
  destruct (is_dns_label t) eqn:Ht; cbn; [| done].
  destruct (is_dns_label i) eqn:Hi; cbn; [| done].
  do 3 (split; [done |]). intros [t' i'] [Ht' Hi'] Heq. unfold display_address in Heq. cbn in *.
  apply cut_at_separator in Heq as [-> ->]; auto with coactor.
Qed.

(** An error sent over the wire arrives as its wire view (payloads the
    protocol does not carry are erased), one more trip changes nothing, an
    unassigned code is reported as a protocol mismatch, and opening reports the
    same class of failure for an error and for its wire view, but for a
    directory failure. *)
Theorem wire_roundtrip :
  (forall error, from_wire (to_wire error) = wire_view error) /\
  (forall value, from_wire (to_wire (from_wire value)) = from_wire value) /\
  (forall value, (value < 0 \/ 14 < value)%Z -> from_wire value = RemoteProtocol VersionMismatch) /\
  (forall error, error <> DirectoryUnavailable ->
                 open_error_from (wire_view error) = open_error_from error).
Proof.
  split; [exact from_to_wire |]. split; [| split].
  - intros value. rewrite from_to_wire. unfold from_wire.
    by destruct (default _ (runtime_failure_try_from value)).
  - intros value Hv. unfold from_wire.
    destruct (runtime_failure_try_from value) as [f |] eqn:Hf; [| done].
    apply List.find_some in Hf as [_ Hn%Z.eqb_eq]. destruct f; cbn in Hn; lia.
  - by intros [].
Qed.
