(* ===== verification/Coordination.v ===== *)
(** * The Coordination Store: records, contract, and the in-memory store

    Models the record types and the store traits of
    [coactor/src/cluster/authority.rs] and the in-memory
    [TestCoordinationStore] of [coactor/src/test_support.rs].  The contract of
    the traits is a compare-and-swap register per key ([Register]): what the
    rest of the cluster code relies on, and what a backend has to implement. *)

From S2P Require Import Prelude Text Address.
From stdpp Require Import pretty.

Abbreviation NodeSessionId := string (only parsing).
Abbreviation Revision := string (only parsing).

(** ** Records of [authority.rs] *)
Record NodeRecord := MkNodeRecord {
  node_id : string;
  session_id : NodeSessionId;
  advertised_endpoint : string;
  protocol_version : Z;
  lease_generation : Z;
  sampled_at_unix_ms : Z;
  active_actor_count : Z;
  max_actor_count : Z;
  pressured : bool;
  draining : bool
}.

Record ActorOwner := MkActorOwner {
  owner_node_id : string;
  owner_session_id : NodeSessionId
}.

Record ActorOwnerRecord := MkActorOwnerRecord {
  owner : option ActorOwner;
  ownership_epoch : Z
}.

(** [ActorOwnerRecord::unowned] *)
Definition unowned (ownership_epoch : Z) : ActorOwnerRecord :=
  MkActorOwnerRecord None ownership_epoch.

Inductive CoordinationErrorKind := Unavailable | PermissionDenied | InvalidData.

(** The boxed source of an error is opaque to the program and left out. *)
Record CoordinationError := MkCoordinationError { kind : CoordinationErrorKind }.

(** [impl Display for CoordinationError] *)
Definition coordination_error_text (e : CoordinationError) : string :=
  match kind e with
  | Unavailable => "coordination store is unavailable"
  | PermissionDenied => "coordination store permission denied"
  | InvalidData => "coordination store returned invalid data"
  end.

(** [CoordinationStores]: the three views a Server has of its store, which
    [CoordinationStores::new] makes views of one. *)
Record CoordinationStores (T : Type) := MkCoordinationStores {
  directory : T;
  node_leases : T;
  actor_owners : T
}.
Arguments MkCoordinationStores {T} directory node_leases actor_owners.
Definition coordination_stores_new {T} (store : T) : CoordinationStores T := MkCoordinationStores store store store.

Inductive MutationOutcome (T : Type) :=
| Applied (value : T)
| Conflict
| Indeterminate (error : CoordinationError).
Arguments Applied {T} value.
Arguments Conflict {T}.
Arguments Indeterminate {T} error.

(** A stored value with its revision: [VersionedActorOwnerRecord] for owner
    records, [(NodeRecord, Revision)] with the expiry for node leases. *)
Record Versioned (V : Type) := MkVersioned {
  record : V;
  revision : Revision
}.
Arguments MkVersioned {V} record revision.
Arguments record {V} v.
Arguments revision {V} v.

Abbreviation VersionedActorOwnerRecord := (Versioned ActorOwnerRecord).

#[export] Instance NodeRecord_eq_dec : EqDecision NodeRecord.
Proof. solve_decision. Defined.
#[export] Instance ActorOwner_eq_dec : EqDecision ActorOwner.
Proof. solve_decision. Defined.
#[export] Instance ActorOwnerRecord_eq_dec : EqDecision ActorOwnerRecord.
Proof. solve_decision. Defined.
#[export] Instance CoordinationErrorKind_eq_dec : EqDecision CoordinationErrorKind.
Proof. solve_decision. Defined.
#[export] Instance CoordinationError_eq_dec : EqDecision CoordinationError.
Proof. solve_decision. Defined.
#[export] Instance MutationOutcome_eq_dec `{EqDecision T} : EqDecision (MutationOutcome T).
Proof. solve_decision. Defined.
#[export] Instance Versioned_eq_dec `{EqDecision V} : EqDecision (Versioned V).
Proof. solve_decision. Defined.

(** ** The contract: a compare-and-swap register

    The history of one key, newest first; [None] is a deletion.  A revision is
    an opaque token: the contract only asks that it names one value among those
    the key ever held, so that counters and content hashes both qualify. *)
Module Register.

Abbreviation history V := (list (option (Versioned V))).

Definition current {V} (h : history V) : option (Versioned V) :=
  match h with
  | v :: _ => v
  | [] => None
  end.

(** The precondition of a conditional write: no value expected, or the value
    with this revision. *)
Definition matches {V} (cur : option (Versioned V)) (expected : option Revision) : bool :=
  match cur, expected with
  | None, None => true
  | Some cur, Some expected => bool_decide (revision cur = expected)
  | _, _ => false
  end.

Definition names {V} (h : history V) (r : Revision) (v : V) : Prop :=
  forall w, Some w ∈ h -> revision w = r -> record w = v.

Definition writes {V} (h : history V) (v : V) (expected : option Revision) (r : Revision)
    (h' : history V) : Prop :=
  matches (current h) expected = true /\ names h r v /\ h' = Some (MkVersioned v r) :: h.

Definition deletes {V} (h : history V) (expected : Revision) (h' : history V) : Prop :=
  matches (current h) (Some expected) = true /\ h' = None :: h.

(** What a reply to a conditional write says.  [Applied] is the only reply that
    confirms; every other reply may hide a write that took place (a lost
    response, a retry that met its own first attempt). *)
Definition cas_replies {V} (h : history V) (v : V) (expected : option Revision)
    (reply : result CoordinationError (MutationOutcome Revision)) (h' : history V) : Prop :=
  match reply with
  | Ok (Applied r) => writes h v expected r h'
  | _ => h' = h \/ exists r, writes h v expected r h'
  end.

Definition delete_replies {V} (h : history V) (expected : Revision)
    (reply : result CoordinationError (MutationOutcome unit)) (h' : history V) : Prop :=
  match reply with
  | Ok (Applied _) => deletes h expected h'
  | _ => h' = h \/ deletes h expected h'
  end.

(** A read returns the current value or fails. *)
Definition read_replies {V} (h : history V)
    (reply : result CoordinationError (option (Versioned V))) : Prop :=
  match reply with
  | Ok v => v = current h
  | Err _ => True
  end.

(** Node leases are registers of a node record and its expiry (unix
    milliseconds).  A lease is acquired over nothing or over an expired lease;
    it is renewed over the revision last confirmed.  [t] is the clock when the
    store looked, [t'] when it wrote. *)
Definition vacant (h : history (NodeRecord * Z)) (t : Z) : Prop :=
  forall v, current h = Some v -> ((record v).2 <= t)%Z.

Definition acquires (h : history (NodeRecord * Z)) (n : NodeRecord) (ttl : Z) (t t' : Z)
    (r : Revision) (h' : history (NodeRecord * Z)) : Prop :=
  vacant h t /\ writes h (n, (t' + ttl)%Z) (revision <$> current h) r h'.

Definition acquire_replies (h : history (NodeRecord * Z)) (n : NodeRecord) (ttl : Z) (t t' : Z)
    (reply : result CoordinationError (MutationOutcome Revision)) (h' : history (NodeRecord * Z)) : Prop :=
  match reply with
  | Ok (Applied r) => acquires h n ttl t t' r h'
  | _ => h' = h \/ exists r, acquires h n ttl t t' r h'
  end.

(** A directory or lease read returns the lease that has not expired. *)
Definition live_replies (h : history (NodeRecord * Z)) (t : Z)
    (reply : result CoordinationError (option (NodeRecord * Revision))) : Prop :=
  match reply with
  | Ok None => vacant h t
  | Ok (Some (n, r)) =>
      exists e, current h = Some (MkVersioned (n, e) r) /\ (t < e)%Z
  | Err _ => True
  end.

(** Revisions of a history name values. *)
Definition coherent {V} (h : history V) : Prop :=
  forall v w, Some v ∈ h -> Some w ∈ h -> revision v = revision w -> record v = record w.

End Register.

(** ** The in-memory store of [test_support.rs] *)
Module TestStore.

Record TestNodeLease := MkTestNodeLease {
  node : NodeRecord;
  lease_revision : Revision;
  expires_at_unix_ms : Z
}.

Record TestCoordinationStore := MkStore {
  leases : gmap string TestNodeLease;
  owners : gmap ActorAddress VersionedActorOwnerRecord;
  next_revision : N;
  panic_on_renewal : bool
}.

Definition empty_store : TestCoordinationStore := MkStore ∅ ∅ 0 false.

Definition with_leases (s : TestCoordinationStore) l :=
  MkStore l (owners s) (next_revision s) (panic_on_renewal s).
Definition with_owners (s : TestCoordinationStore) o :=
  MkStore (leases s) o (next_revision s) (panic_on_renewal s).

(** [next]: counts up and formats the counter. *)
Definition revision_of (n : N) : Revision := "test-revision-" +:+ pretty n.
Definition next (s : TestCoordinationStore) : Revision * TestCoordinationStore :=
  let n := (next_revision s + 1)%N in
  (revision_of n, MkStore (leases s) (owners s) n (panic_on_renewal s)).

Definition live (now : Z) (l : TestNodeLease) : bool := (now <? expires_at_unix_ms l)%Z.
Definition live_lease (s : TestCoordinationStore) (now : Z) (id : string) : option TestNodeLease :=
  match leases s !! id with
  | Some l => if live now l then Some l else None
  | None => None
  end.

(** [expire_node], [remove_node] *)
Definition expire_node (s : TestCoordinationStore) (id : string) : TestCoordinationStore :=
  with_leases s (alter (fun l => MkTestNodeLease (node l) (lease_revision l) 0) id (leases s)).
Definition remove_node (s : TestCoordinationStore) (id : string) : TestCoordinationStore :=
  with_leases s (delete id (leases s)).

(** [impl NodeDirectory] *)
Definition read_node (s : TestCoordinationStore) (now : Z) (id : string)
    : result CoordinationError (option NodeRecord) :=
  Ok (node <$> live_lease s now id).
Definition list_nodes (s : TestCoordinationStore) (now : Z)
    : result CoordinationError (list NodeRecord) :=
  Ok (node <$> filter (fun l => live now l = true) (map_to_list (leases s)).*2).

(** [impl NodeLeaseStore] *)
Definition read_node_lease (s : TestCoordinationStore) (now : Z) (id : string)
    : result CoordinationError (option (NodeRecord * Revision)) :=
  Ok ((fun l => (node l, lease_revision l)) <$> live_lease s now id).

(** [ttl] is in milliseconds, [ttl.as_millis()]; the clock is read for the check
    ([now]) and again for the new expiry ([now']). *)
Definition acquire_node (s : TestCoordinationStore) (now now' : Z) (n : NodeRecord) (ttl : Z)
    : result CoordinationError (MutationOutcome Revision) * TestCoordinationStore :=
  match live_lease s now (node_id n) with
  | Some _ => (Ok Conflict, s)
  | None =>
      let '(rev, s) := next s in
      (Ok (Applied rev),
       with_leases s (<[node_id n := MkTestNodeLease n rev (now' + ttl)]> (leases s)))
  end.

(** [None] is the injected panic. *)
Definition renew_node (s : TestCoordinationStore) (now : Z) (n : NodeRecord) (ttl : Z) (rev : Revision)
    : option (result CoordinationError (MutationOutcome Revision) * TestCoordinationStore) :=
  if panic_on_renewal s then None
  else Some
    match leases s !! node_id n with
    | Some l =>
        if bool_decide (lease_revision l = rev) then
          let '(next_rev, s) := next s in
          (Ok (Applied next_rev),
           with_leases s (<[node_id n := MkTestNodeLease n next_rev (now + ttl)]> (leases s)))
        else (Ok Conflict, s)
    | None => (Ok Conflict, s)
    end.

Definition release_node (s : TestCoordinationStore) (id : string) (rev : Revision)
    : result CoordinationError (MutationOutcome unit) * TestCoordinationStore :=
  match leases s !! id with
  | Some l =>
      if bool_decide (lease_revision l = rev) then (Ok (Applied ()), with_leases s (delete id (leases s)))
      else (Ok Conflict, s)
  | None => (Ok Conflict, s)
  end.

(** [impl ActorOwnerReader], [impl ActorOwnerStore] *)
Definition read_actor_owner (s : TestCoordinationStore) (a : ActorAddress)
    : result CoordinationError (option VersionedActorOwnerRecord) :=
  Ok (owners s !! a).

Definition compare_exchange_actor_owner (s : TestCoordinationStore) (a : ActorAddress)
    (rec : ActorOwnerRecord) (rev : option Revision)
    : result CoordinationError (MutationOutcome Revision) * TestCoordinationStore :=
  if Register.matches (owners s !! a) rev then
    let '(next_rev, s) := next s in
    (Ok (Applied next_rev), with_owners s (<[a := MkVersioned rec next_rev]> (owners s)))
  else (Ok Conflict, s).

(** The store implements the contract: the register of each key agrees with
    the maps, and every revision in a history was handed out by the counter. *)
Definition issued (s : TestCoordinationStore) (r : Revision) : Prop :=
  exists n, (n <= next_revision s)%N /\ r = revision_of n.

Definition issued_all {V} (s : TestCoordinationStore) (h : Register.history V) : Prop :=
  forall v, Some v ∈ h -> issued s (revision v).

Definition implements_owner (s : TestCoordinationStore) (a : ActorAddress)
    (h : Register.history ActorOwnerRecord) : Prop :=
  owners s !! a = Register.current h /\ issued_all s h.

Definition lease_version (l : TestNodeLease) : Versioned (NodeRecord * Z) :=
  MkVersioned (node l, expires_at_unix_ms l) (lease_revision l).

Definition implements_lease (s : TestCoordinationStore) (id : string)
    (h : Register.history (NodeRecord * Z)) : Prop :=
  lease_version <$> leases s !! id = Register.current h /\ issued_all s h.

End TestStore.

(** ** Lemmas on registers *)
Lemma register_writes_coherent {V} (h h' : Register.history V) v e r :
  Register.coherent h -> Register.writes h v e r h' -> Register.coherent h'.
Proof.
  intros Hc (_ & Hn & ->) w1 w2. rewrite !elem_of_cons.
  intros [[= ->] | H1] [[= ->] | H2] Hr; cbn in *; auto.
  - symmetry. by apply Hn.
Qed.

Lemma register_deletes_coherent {V} (h h' : Register.history V) e :
  Register.coherent h -> Register.deletes h e h' -> Register.coherent h'.
Proof.
  intros Hc (_ & ->) w1 w2. rewrite !elem_of_cons. intros [? | H1] [? | H2]; try done. auto.
Qed.

Lemma register_matches_current {V} (cur : option (Versioned V)) e :
  Register.matches cur (Some e) = true -> exists v, cur = Some v /\ revision v = e.
Proof. destruct cur as [v |]; cbn; [| done]. rewrite bool_decide_eq_true. eauto. Qed.

Lemma register_matches_absent {V} (cur : option (Versioned V)) :
  Register.matches cur None = true -> cur = None.
Proof. by destruct cur. Qed.

Lemma register_current_elem {V} (h : Register.history V) v :
  Register.current h = Some v -> Some v ∈ h.
Proof. destruct h as [| w h]; cbn; [done |]. intros ->. constructor. Qed.

#[export] Hint Resolve register_current_elem : coactor.

(** ** Lemmas on the in-memory store *)
Section test_store.
Import TestStore.

Lemma revision_of_inj n m : revision_of n = revision_of m -> n = m.
Proof. unfold revision_of. intros H%string_app_inv_l. by apply (inj pretty) in H. Qed.

Lemma issued_mono s s' r : (next_revision s <= next_revision s')%N -> issued s r -> issued s' r.
Proof. intros Hle (n & Hn & ->). exists n. split; [lia | done]. Qed.

Lemma issued_all_mono {V} s s' (h : Register.history V) :
  (next_revision s <= next_revision s')%N -> issued_all s h -> issued_all s' h.
Proof. intros Hle Hi v Hv. eauto using issued_mono. Qed.

(** The next revision is new to every history of issued revisions, and the
    extended history is issued by the advanced counter. *)
Lemma next_names {V} s (h : Register.history V) v :
  issued_all s h -> Register.names h (revision_of (next_revision s + 1)) v.
Proof.
  intros Hi w Hw Hr. destruct (Hi w Hw) as (n & Hn & Hrev).
  rewrite Hrev in Hr. apply revision_of_inj in Hr. lia.
Qed.

Lemma issued_all_next {V} s s' (h : Register.history V) v :
  next_revision s' = (next_revision s + 1)%N ->
  issued_all s h ->
  issued_all s' (Some (MkVersioned v (revision_of (next_revision s + 1))) :: h).
Proof.
  intros Hn Hi w. rewrite elem_of_cons. intros [[= ->] | Hw]; cbn.
  - exists (next_revision s + 1)%N. split; [lia | done].
  - eapply issued_mono, Hi; [lia | done].
Qed.

Lemma issued_all_delete {V} s (h : Register.history V) : issued_all s h -> issued_all s (None :: h).
Proof. intros Hi w. rewrite elem_of_cons. intros [? | Hw]; [done |]. by apply Hi. Qed.

Lemma test_cas_applied s a rec rev reply s' h :
  implements_owner s a h ->
  compare_exchange_actor_owner s a rec rev = (reply, s') ->
  exists h', Register.cas_replies h rec rev reply h' /\ implements_owner s' a h'.
Proof.
  intros [Hcur Hi]. unfold compare_exchange_actor_owner. rewrite Hcur.
  destruct (Register.matches (Register.current h) rev) eqn:Hm; cbn; intros [= <- <-].
  - eexists. split; [split_and!; [done | by apply next_names | done] |].
    split; [apply lookup_insert_eq | by apply issued_all_next].
  - exists h. split; [by left | done].
Qed.

Lemma test_cas_frame s a rec rev reply s' a' h :
  a' <> a ->
  compare_exchange_actor_owner s a rec rev = (reply, s') ->
  implements_owner s a' h -> implements_owner s' a' h.
Proof.
  intros Hne. unfold compare_exchange_actor_owner.
  destruct (Register.matches _ _); cbn; intros [= <- <-]; [| done].
  intros [Hcur Hi]. split; cbn.
  - by rewrite lookup_insert_ne.
  - eapply issued_all_mono, Hi. cbn. lia.
Qed.

Lemma live_lease_vacant s now id h :
  implements_lease s id h ->
  live_lease s now id = None <-> Register.vacant h now.
Proof.
  intros [Hcur _]. unfold live_lease, Register.vacant, live. rewrite <- Hcur.
  destruct (leases s !! id) as [l |]; cbn; [| naive_solver].
  destruct (Z.ltb_spec now (expires_at_unix_ms l)).
  - split; [done |]. intros Hv. specialize (Hv _ eq_refl). cbn in Hv. lia.
  - split; [| done]. intros _ v [= <-]. cbn. lia.
Qed.

Lemma test_acquire s now now' n ttl reply s' h :
  implements_lease s (node_id n) h ->
  acquire_node s now now' n ttl = (reply, s') ->
  exists h', Register.acquire_replies h n ttl now now' reply h' /\ implements_lease s' (node_id n) h'.
Proof.
  intros Himp. pose proof (live_lease_vacant s now (node_id n) h Himp) as Hv.
  unfold acquire_node. destruct (live_lease s now (node_id n)) as [l |]; cbn; intros [= <- <-].
  - exists h. split; [by left | done].
  - destruct Himp as [Hcur Hi]. eexists. split.
    + split; [by apply Hv |]. split_and!; [| by apply next_names | done].
      destruct (Register.current h); cbn; [by apply bool_decide_eq_true | done].
    + split; cbn; [by rewrite lookup_insert_eq | by apply issued_all_next].
Qed.

Lemma test_renew s now n ttl rev reply s' h :
  implements_lease s (node_id n) h ->
  renew_node s now n ttl rev = Some (reply, s') ->
  exists h', Register.cas_replies h (n, (now + ttl)%Z) (Some rev) reply h' /\
             implements_lease s' (node_id n) h'.
Proof.
  intros [Hcur Hi]. unfold renew_node. destruct (panic_on_renewal s); [done |].
  destruct (leases s !! node_id n) as [l |] eqn:Hl; [case_bool_decide as Hr |]; cbn; intros [= <- <-].
  - eexists. split; [split_and!; [| by apply next_names | done] |].
    + rewrite <- Hcur. cbn. by apply bool_decide_eq_true.
    + split; cbn; [by rewrite lookup_insert_eq | by apply issued_all_next].
  - exists h. split; [by left |]. by split; [rewrite Hl |].
  - exists h. split; [by left |]. by split; [rewrite Hl |].
Qed.

Lemma test_release s id rev reply s' h :
  implements_lease s id h ->
  release_node s id rev = (reply, s') ->
  exists h', Register.delete_replies h rev reply h' /\ implements_lease s' id h'.
Proof.
  intros [Hcur Hi]. unfold release_node.
  destruct (leases s !! id) as [l |] eqn:Hl; [case_bool_decide as Hr |]; cbn; intros [= <- <-].
  - eexists. split; [split; [| done] |].
    + rewrite <- Hcur. cbn. by apply bool_decide_eq_true.
    + split; cbn; [by rewrite lookup_delete_eq | by apply issued_all_delete].
  - exists h. split; [by left |]. by split; [rewrite Hl |].
  - exists h. split; [by left |]. by split; [rewrite Hl |].
Qed.

Lemma test_read_lease s now id h :
  implements_lease s id h -> Register.live_replies h now (read_node_lease s now id).
Proof.
  intros Himp. pose proof (live_lease_vacant s now id h Himp) as Hv.
  unfold read_node_lease, Register.live_replies.
  destruct (live_lease s now id) as [l |] eqn:Hl; cbn; [| by apply Hv].
  unfold live_lease in Hl. destruct Himp as [Hcur _].
  destruct (leases s !! id) as [l' |]; [| done].
  destruct (live now l') eqn:Hlive; [| done]. injection Hl as ->.
  exists (expires_at_unix_ms l). rewrite <- Hcur. split; [done |].
  by apply Z.ltb_lt.
Qed.
End test_store.

(** ** Properties *)

(** The in-memory store implements the contract of the Coordination Store:
    with histories that agree with its maps, every operation answers as the
    compare-and-swap register of its key may answer and leaves histories that
    agree again; owner writes do not touch other addresses. *)
Theorem test_store_implements_contract (s : TestStore.TestCoordinationStore) :
  (forall a h rec rev reply s',
     TestStore.implements_owner s a h ->
     TestStore.compare_exchange_actor_owner s a rec rev = (reply, s') ->
     Register.read_replies h (TestStore.read_actor_owner s a) /\
     (exists h', Register.cas_replies h rec rev reply h' /\ TestStore.implements_owner s' a h') /\
     (forall a' h2, a' <> a -> TestStore.implements_owner s a' h2 -> TestStore.implements_owner s' a' h2)) /\
  (forall h now now' n ttl reply s',
     TestStore.implements_lease s (node_id n) h ->
     TestStore.acquire_node s now now' n ttl = (reply, s') ->
     Register.live_replies h now (TestStore.read_node_lease s now (node_id n)) /\
     exists h', Register.acquire_replies h n ttl now now' reply h' /\
                TestStore.implements_lease s' (node_id n) h') /\
  (forall h now n ttl rev reply s',
     TestStore.implements_lease s (node_id n) h ->
     TestStore.renew_node s now n ttl rev = Some (reply, s') ->
     exists h', Register.cas_replies h (n, (now + ttl)%Z) (Some rev) reply h' /\
                TestStore.implements_lease s' (node_id n) h') /\
  (forall h id rev reply s',
     TestStore.implements_lease s id h ->
     TestStore.release_node s id rev = (reply, s') ->
     exists h', Register.delete_replies h rev reply h' /\ TestStore.implements_lease s' id h').
Proof.
  split_and!.
  - intros a h rec rev reply s' Himp Hcas. split_and!.
    + unfold TestStore.read_actor_owner. by destruct Himp.
    + eauto using test_cas_applied.
    + eauto using test_cas_frame.
  - eauto using test_acquire, test_read_lease.
  - eauto using test_renew.
  - eauto using test_release.
Qed.
