(* ===== verification/Routing.v ===== *)
(** * Ownership resolution on a Server

    Models [coactor/src/cluster/routing.rs]: [ClusterRouter::resolve],
    [ClusterRouter::claim] and [ClusterRouter::release_local_owner], as
    procedures over the effects they use (the owner store, the Node Directory,
    the capacity semaphore, the per-address resolution lock), and the system in
    which any number of nodes run them against the store.  The theorems say
    that ownership epochs order the owners of an address, that an owner whose
    Node Lease is current is not displaced, and that permits and locks are
    accounted for on every path. *)

From S2P Require Import Prelude Text Address Coordination.

(** ** Effects

    [timed] replies carry the [operation_timeout]; permits and lock guards are
    RAII values in the source, so their drops are explicit calls here. *)
Inductive routerE : Type -> Type :=
| LockResolution (a : ActorAddress) : routerE unit
| UnlockResolution (a : ActorAddress) : routerE unit
| ReadActorOwner (a : ActorAddress)
    : routerE (timed (result CoordinationError (option VersionedActorOwnerRecord)))
| ReadNode (id : string) : routerE (timed (result CoordinationError (option NodeRecord)))
| CompareExchange (a : ActorAddress) (rec : ActorOwnerRecord) (rev : option Revision)
    : routerE (timed (result CoordinationError (MutationOutcome Revision)))
| TryAcquire : routerE bool
| DropPermit : routerE unit.

(** The identity a router acts for. *)
Record ClusterRouter := MkClusterRouter {
  router_node_id : string;
  router_session_id : NodeSessionId
}.

(** [resolutions]: the mutex of every address that was ever resolved; a mutex is
    a number here, and nothing removes one. *)
Record Resolutions := MkResolutions {
  resolutions : gmap ActorAddress nat;
  mutexes : nat
}.

(** [ClusterRouter::new] *)
Definition router_new (node_id : string) (session_id : NodeSessionId) : ClusterRouter * Resolutions :=
  (MkClusterRouter node_id session_id, MkResolutions ∅ 0).

(** [resolution_lock] *)
Definition resolution_lock (s : Resolutions) (a : ActorAddress) : nat * Resolutions :=
  match resolutions s !! a with
  | Some mutex => (mutex, s)
  | None => (mutexes s, MkResolutions (<[a := mutexes s]> (resolutions s)) (S (mutexes s)))
  end.

(** [ResolvedOwner]: [Local reservation] keeps the guard of the resolution
    lock, and a permit when [reservation] is true. *)
Inductive ResolvedOwner :=
| Local (reservation : bool)
| Remote.

Definition self_owner (self : ClusterRouter) : ActorOwner :=
  MkActorOwner (router_node_id self) (router_session_id self).

(** [is_local_owner] *)
Definition is_local_owner (self : ClusterRouter) (rec : ActorOwnerRecord) : bool :=
  match owner rec with
  | Some o =>
      bool_decide (owner_node_id o = router_node_id self)
      && bool_decide (owner_session_id o = router_session_id self)
  | None => false
  end.

(** [local_claim] *)
Definition local_claim (self : ClusterRouter) (epoch : Z) : ActorOwnerRecord :=
  MkActorOwnerRecord (Some (MkActorOwner (router_node_id self) (router_session_id self))) epoch.

(** [.map_err(|_| OwnershipUnavailable)?] twice: the timeout and the store error. *)
Definition unavailable {A} (t : timed (result CoordinationError A)) : result SendError A :=
  match t with
  | Ready (Ok a) => Ok a
  | _ => Err OwnershipUnavailable
  end.

(** What a read-back of an owner record shows, when it succeeds with a record. *)
Definition read_record (t : timed (result CoordinationError (option VersionedActorOwnerRecord)))
    : option ActorOwnerRecord :=
  match t with
  | Ready (Ok (Some v)) => Some (record v)
  | _ => None
  end.

(** [claim] *)
Definition claim (self : ClusterRouter) (address : ActorAddress) (epoch : Z)
    (revision : option Revision) : proc routerE (result SendError ResolvedOwner) :=
  let expected := local_claim self epoch in
  call! reserved := TryAcquire;
  if negb reserved then Ret (Err RuntimeAtCapacity) else
  call! mutation := CompareExchange address expected revision;
  match unavailable mutation with
  | Err e => exec! DropPermit; Ret (Err e)
  | Ok (Applied _) => Ret (Ok (Local true))
  | Ok Conflict => exec! DropPermit; Ret (Ok Remote)
  | Ok (Indeterminate _) =>
      call! confirmed := ReadActorOwner address;
      if bool_decide (read_record confirmed = Some expected) then Ret (Ok (Local true))
      else exec! DropPermit; Ret (Err OwnershipUnavailable)
  end.

(** The read-back loop after an indeterminate claim. *)
Inductive readback := Confirmed | ShouldReresolve | NotConfirmed.

Fixpoint confirm_claim (n : nat) (address : ActorAddress) (expected : ActorOwnerRecord)
    : proc routerE readback :=
  match n with
  | O => Ret NotConfirmed
  | S n =>
      call! confirmed := ReadActorOwner address;
      match read_record confirmed with
      | Some r =>
          if bool_decide (r = expected) then Ret Confirmed
          else if bool_decide (is_Some (owner r)) then Ret ShouldReresolve
          else confirm_claim n address expected
      | None => confirm_claim n address expected
      end
  end.

(** The body of [resolve] past its ownership check: the claim of an unowned or
    stale address. [retry] is the next iteration of the loop. *)
Definition take_over (self : ClusterRouter) (address : ActorAddress)
    (current : option VersionedActorOwnerRecord)
    (retry : proc routerE (result SendError ResolvedOwner))
    : proc routerE (result SendError ResolvedOwner) :=
  let epoch :=
    match current with
    | None => 1%Z
    | Some current => saturating_add (ownership_epoch (record current)) 1
    end in
  let expected := local_claim self epoch in
  call! reserved := TryAcquire;
  if negb reserved then Ret (Err RuntimeAtCapacity) else
  call! mutation := CompareExchange address expected (revision <$> current);
  match unavailable mutation with
  | Err e => exec! DropPermit; Ret (Err e)
  | Ok (Applied _) => Ret (Ok (Local true))
  | Ok Conflict => exec! DropPermit; retry
  | Ok (Indeterminate _) =>
      bind! outcome := confirm_claim 3 address expected;
      match outcome with
      | Confirmed => Ret (Ok (Local true))
      | ShouldReresolve => exec! DropPermit; retry
      | NotConfirmed => exec! DropPermit; Ret (Err OwnershipUnavailable)
      end
  end.

(** The [for _ in 0..3] loop of [resolve]. *)
Fixpoint resolve_attempts (n : nat) (self : ClusterRouter) (address : ActorAddress)
    : proc routerE (result SendError ResolvedOwner) :=
  match n with
  | O => Ret (Ok Remote)
  | S n =>
      call! read := ReadActorOwner address;
      match unavailable read with
      | Err e => Ret (Err e)
      | Ok None => take_over self address None (resolve_attempts n self address)
      | Ok (Some current) =>
          if is_local_owner self (record current) then Ret (Ok (Local false)) else
          match owner (record current) with
          | Some o =>
              if bool_decide (owner_node_id o = router_node_id self) then
                claim self address (saturating_add (ownership_epoch (record current)) 1)
                  (Some (revision current))
              else
                call! node := ReadNode (owner_node_id o);
                match unavailable node with
                | Err e => Ret (Err e)
                | Ok node =>
                    if (if node is Some node then bool_decide (session_id node = owner_session_id o)
                        else false)
                    then Ret (Ok Remote)
                    else take_over self address (Some current) (resolve_attempts n self address)
                end
          | None => take_over self address (Some current) (resolve_attempts n self address)
          end
      end
  end.

(** [resolve]: the guard of the resolution lock moves into a [Local] result and
    is dropped otherwise. *)
Definition resolve (self : ClusterRouter) (address : ActorAddress)
    : proc routerE (result SendError ResolvedOwner) :=
  exec! LockResolution address;
  bind! outcome := resolve_attempts 3 self address;
  match outcome with
  | Ok (Local _) => Ret outcome
  | _ => exec! UnlockResolution address; Ret outcome
  end.

(** The read-back loop of a release. *)
Fixpoint confirm_release (n : nat) (address : ActorAddress) (current expected : ActorOwnerRecord)
    : proc routerE bool :=
  match n with
  | O => Ret false
  | S n =>
      call! read := ReadActorOwner address;
      match read_record read with
      | Some r =>
          if bool_decide (r = expected) then Ret true
          else if bool_decide (r <> current) then Ret false
          else confirm_release n address current expected
      | None => confirm_release n address current expected
      end
  end.

(** [ActorOwnerStore::release_actor_owner], the default method of the trait. *)
Definition release_actor_owner (address : ActorAddress) (current : VersionedActorOwnerRecord)
    : routerE (timed (result CoordinationError (MutationOutcome Revision))) :=
  CompareExchange address (unowned (ownership_epoch (record current))) (Some (revision current)).

(** [release_local_owner] *)
Definition release_body (self : ClusterRouter) (address : ActorAddress)
    : proc routerE (result SendError unit) :=
  call! read := ReadActorOwner address;
  match unavailable read with
  | Err e => Ret (Err e)
  | Ok None => Ret (Err OwnershipUnavailable)
  | Ok (Some current) =>
      if negb (is_local_owner self (record current)) then Ret (Err OwnershipUnavailable) else
      call! released := release_actor_owner address current;
      match unavailable released with
      | Err e => Ret (Err e)
      | Ok (Applied _) => Ret (Ok ())
      | Ok _ =>
          bind! confirmed :=
            confirm_release 3 address (record current) (unowned (ownership_epoch (record current)));
          Ret (if confirmed then Ok () else Err OwnershipUnavailable)
      end
  end.

Definition release_local_owner (self : ClusterRouter) (address : ActorAddress)
    : proc routerE (result SendError unit) :=
  exec! LockResolution address;
  bind! outcome := release_body self address;
  exec! UnlockResolution address; Ret outcome.

(** ** The discipline of a router

    The ghost state follows what the router holds and what it has learnt. *)
Record ghost := MkGhost {
  held : nat;                                              (* permits *)
  locked : bool;                                           (* resolution lock *)
  last_read : option (option VersionedActorOwnerRecord);   (* last successful owner read *)
  last_node : option (string * option NodeRecord);         (* last successful directory read since *)
  owned : bool                                             (* saw its own record in the store *)
}.

Definition ghost0 : ghost := MkGhost 0 false None None false.

(** The owner [o] may be displaced by [self]: it is an earlier session of the
    same node, or the directory just said that its session is not live. *)
Definition displaceable (self : ClusterRouter) (g : ghost) (o : ActorOwner) : Prop :=
  o <> self_owner self /\
  (owner_node_id o = router_node_id self \/
   exists n, last_node g = Some (owner_node_id o, n) /\
             forall r, n = Some r -> session_id r <> owner_session_id o).

(** The claims a router may write, given what it last read. *)
Definition may_claim (self : ClusterRouter) (g : ghost) (rec : ActorOwnerRecord)
    (rev : option Revision) : Prop :=
  owner rec = Some (self_owner self) /\
  match last_read g with
  | None => False
  | Some None => rev = None /\ ownership_epoch rec = 1%Z
  | Some (Some v) =>
      rev = Some (revision v) /\
      ownership_epoch rec = saturating_add (ownership_epoch (record v)) 1 /\
      forall o, owner (record v) = Some o -> displaceable self g o
  end.

(** The releases a router may write: only of its own record, epoch kept. *)
Definition may_release (self : ClusterRouter) (g : ghost) (rec : ActorOwnerRecord)
    (rev : option Revision) : Prop :=
  exists v, last_read g = Some (Some v) /\ rev = Some (revision v) /\
            owner (record v) = Some (self_owner self) /\
            rec = unowned (ownership_epoch (record v)).

Definition router_allowed (self : ClusterRouter) (address : ActorAddress)
    X (g : ghost) (e : routerE X) : Prop :=
  match e with
  | LockResolution a => a = address /\ locked g = false
  | UnlockResolution a => a = address /\ locked g = true
  | ReadActorOwner a => a = address /\ locked g = true
  | ReadNode id => True
  | CompareExchange a rec rev =>
      a = address /\ locked g = true /\
      ((may_claim self g rec rev /\ (0 < held g)%nat) \/ may_release self g rec rev)
  | TryAcquire => True
  | DropPermit => (0 < held g)%nat
  end.

(** How a reply changes the ghost state; the reply itself is arbitrary. *)
Definition router_observe (self : ClusterRouter) X (g : ghost) (e : routerE X)
    : X -> ghost -> Prop :=
  match e in routerE X return X -> ghost -> Prop with
  | LockResolution a => fun _ g' => g' = MkGhost (held g) true (last_read g) (last_node g) (owned g)
  | UnlockResolution a => fun _ g' => g' = MkGhost (held g) false (last_read g) (last_node g) (owned g)
  | ReadActorOwner a => fun t g' =>
      match t with
      | Ready (Ok o) =>
          g' = MkGhost (held g) (locked g) (Some o) None
                 (owned g || match o with Some v => is_local_owner self (record v) | None => false end)
      | _ => g' = MkGhost (held g) (locked g) None None (owned g)
      end
  | ReadNode id => fun t g' =>
      match t with
      | Ready (Ok n) => g' = MkGhost (held g) (locked g) (last_read g) (Some (id, n)) (owned g)
      | _ => g' = g
      end
  | CompareExchange a rec rev => fun t g' =>
      match t with
      | Ready (Ok (Applied _)) =>
          g' = MkGhost (held g) (locked g) None None (owned g || is_local_owner self rec)
      | _ => g' = MkGhost (held g) (locked g) None None (owned g)
      end
  | TryAcquire => fun b g' =>
      g' = if b then MkGhost (S (held g)) (locked g) (last_read g) (last_node g) (owned g) else g
  | DropPermit => fun _ g' =>
      g' = MkGhost (pred (held g)) (locked g) (last_read g) (last_node g) (owned g)
  end.

Definition router_monitor (self : ClusterRouter) (address : ActorAddress) : monitor routerE ghost :=
  Monitor routerE ghost (router_allowed self address) (router_observe self).

(** What a finished resolution holds. *)
Definition resolve_post (r : result SendError ResolvedOwner) (g : ghost) : Prop :=
  match r with
  | Ok (Local reservation) =>
      held g = (if reservation then 1 else 0)%nat /\ locked g = true /\ owned g = true
  | _ => held g = 0%nat /\ locked g = false
  end.

Definition release_post (r : result SendError unit) (g : ghost) : Prop :=
  held g = 0%nat /\ locked g = false.

(** What the attempts of a resolution hold when the guard is not yet returned. *)
Definition attempts_post (r : result SendError ResolvedOwner) (g : ghost) : Prop :=
  locked g = true /\
  match r with
  | Ok (Local reservation) => held g = (if reservation then 1 else 0)%nat /\ owned g = true
  | _ => held g = 0%nat
  end.

(** *** Counting the calls *)
Definition store_call {X} (e : routerE X) : nat :=
  match e with
  | ReadActorOwner _ | ReadNode _ | CompareExchange _ _ _ => 1
  | _ => 0
  end.

Definition counting : monitor routerE nat :=
  Monitor routerE nat (fun _ _ _ => True) (fun _ n e _ n' => n' = (n + store_call e)%nat).

(** *** Running against the in-memory store *)
Record router_env := MkEnv {
  env_store : TestStore.TestCoordinationStore;
  env_now : Z;
  env_permits : nat;
  env_locked : bool
}.

Definition test_handler X (e : routerE X) (s : router_env) : X * router_env :=
  match e in routerE X return X * router_env with
  | LockResolution _ => ((), MkEnv (env_store s) (env_now s) (env_permits s) true)
  | UnlockResolution _ => ((), MkEnv (env_store s) (env_now s) (env_permits s) false)
  | ReadActorOwner a => (Ready (TestStore.read_actor_owner (env_store s) a), s)
  | ReadNode id => (Ready (TestStore.read_node (env_store s) (env_now s) id), s)
  | CompareExchange a rec rev =>
      let '(reply, store) := TestStore.compare_exchange_actor_owner (env_store s) a rec rev in
      (Ready reply, MkEnv store (env_now s) (env_permits s) (env_locked s))
  | TryAcquire =>
      match env_permits s with
      | O => (false, s)
      | S n => (true, MkEnv (env_store s) (env_now s) n (env_locked s))
      end
  | DropPermit => ((), MkEnv (env_store s) (env_now s) (S (env_permits s)) (env_locked s))
  end.

(** What an uncontended resolution against the in-memory store does. *)
Definition stale_or_unowned (self : ClusterRouter) (s : router_env) (rec : ActorOwnerRecord) : bool :=
  match owner rec with
  | None => true
  | Some o =>
      bool_decide (owner_node_id o = router_node_id self)
      || negb match TestStore.live_lease (env_store s) (env_now s) (owner_node_id o) with
              | Some l => bool_decide (session_id (TestStore.node l) = owner_session_id o)
              | None => false
              end
  end.

Definition claimed_by (self : ClusterRouter) (address : ActorAddress) (epoch : Z) (s : router_env)
    : result SendError ResolvedOwner * router_env :=
  match env_permits s with
  | O => (Err RuntimeAtCapacity, MkEnv (env_store s) (env_now s) 0 false)
  | S n =>
      let '(rev, store) := TestStore.next (env_store s) in
      (Ok (Local true),
       MkEnv (TestStore.with_owners store
                (<[address := MkVersioned (local_claim self epoch) rev]> (TestStore.owners store)))
         (env_now s) n true)
  end.

Definition resolve_spec (self : ClusterRouter) (address : ActorAddress) (s : router_env)
    : result SendError ResolvedOwner * router_env :=
  match TestStore.owners (env_store s) !! address with
  | None => claimed_by self address 1 s
  | Some v =>
      if is_local_owner self (record v) then
        (Ok (Local false), MkEnv (env_store s) (env_now s) (env_permits s) true)
      else if stale_or_unowned self s (record v) then
        claimed_by self address (saturating_add (ownership_epoch (record v)) 1) s
      else (Ok Remote, MkEnv (env_store s) (env_now s) (env_permits s) false)
  end.

(** The claim alone, with the lock as it stands. *)
Definition claim_outcome (self : ClusterRouter) (address : ActorAddress) (epoch : Z) (s : router_env)
    : result SendError ResolvedOwner * router_env :=
  match env_permits s with
  | O => (Err RuntimeAtCapacity, s)
  | S n =>
      let '(rev, store) := TestStore.next (env_store s) in
      (Ok (Local true),
       MkEnv (TestStore.with_owners store
                (<[address := MkVersioned (local_claim self epoch) rev]> (TestStore.owners store)))
         (env_now s) n (env_locked s))
  end.

(** Replies under which [o] is and stays the live owner: every owner read that
    succeeds shows [o]'s record, every directory read that succeeds shows a
    live lease of [o]'s session.  No conditional write is allowed. *)
Definition live_owner_monitor (o : ActorOwner) : monitor routerE unit :=
  Monitor routerE unit
    (fun X _ e => match e with CompareExchange _ _ _ => False | _ => True end)
    (fun X _ e =>
       match e in routerE X return X -> unit -> Prop with
       | ReadActorOwner _ => fun t _ =>
           match t with
           | Ready (Ok r) => exists v, r = Some v /\ owner (record v) = Some o
           | _ => True
           end
       | ReadNode id => fun t _ =>
           match t with
           | Ready (Ok r) => id = owner_node_id o ->
                             exists n, r = Some n /\ session_id n = owner_session_id o
           | _ => True
           end
       | _ => fun _ _ => True
       end).

#[global] Arguments is_local_owner self rec : simpl never.
#[global] Arguments local_claim self epoch : simpl never.

(** ** Lemmas *)
Lemma is_local_owner_true self rec :
  is_local_owner self rec = true <-> owner rec = Some (self_owner self).
Proof.
  unfold is_local_owner, self_owner. destruct (owner rec) as [[n s] |]; cbn; [| naive_solver].
  rewrite andb_true_iff, !bool_decide_eq_true. naive_solver.
Qed.

Lemma is_local_owner_claim self epoch : is_local_owner self (local_claim self epoch) = true.
Proof. by apply is_local_owner_true. Qed.

Lemma not_local_owner self rec o :
  is_local_owner self rec = false -> owner rec = Some o -> o <> self_owner self.
Proof. intros Hl Ho ->. apply is_local_owner_true in Ho. congruence. Qed.

Lemma unavailable_ok {A} (t : timed (result CoordinationError A)) a :
  unavailable t = Ok a -> t = Ready (Ok a).
Proof. destruct t as [| [|]]; cbn; congruence. Qed.

Lemma read_record_some t r :
  read_record t = Some r -> exists v, t = Ready (Ok (Some v)) /\ record v = r.
Proof. destruct t as [| [[v |] |]]; cbn; naive_solver. Qed.

#[export] Hint Resolve is_local_owner_claim : coactor.

(** Executes the next call of a router goal and normalises the ghost state. *)
Ltac router_step :=
  cbn [wp router_monitor allowed observe router_allowed router_observe];
  split; [| let x := fresh "x" in let g := fresh "g" in let Hg := fresh "Hg" in
            intros x g Hg; cbn in Hg].

Section router.
Context (self : ClusterRouter) (address : ActorAddress).

Lemma confirm_claim_wp n expected g (Q : readback -> ghost -> Prop) :
  locked g = true ->
  is_local_owner self expected = true ->
  (forall b g', held g' = held g -> locked g' = true ->
                (b = Confirmed -> owned g' = true) -> Q b g') ->
  wp (router_monitor self address) g (confirm_claim n address expected) Q.
Proof.
  revert g. induction n as [| n IH]; intros g Hl Hexp HQ; [by apply HQ |].
  cbn [confirm_claim]. router_step; [done |].
  assert (held g0 = held g /\ locked g0 = true) as [Hh Hl'].
  { destruct x as [| [|]]; subst g0; done. }
  destruct (read_record x) as [r |] eqn:Hr; [| apply IH; [done .. |]; intros; apply HQ; solve [congruence | auto]].
  apply read_record_some in Hr as (v & -> & <-). subst g0.
  case_bool_decide as He; cbn.
  { apply HQ; [done .. |]. intros _. cbn. rewrite He, Hexp. by rewrite orb_true_r. }
  case_bool_decide as Ho; cbn; [by apply HQ | apply IH; [done .. |]; intros; apply HQ; solve [congruence | auto]].
Qed.

Lemma claim_wp epoch rev g :
  held g = 0%nat -> locked g = true ->
  may_claim self g (local_claim self epoch) rev ->
  wp (router_monitor self address) g (claim self address epoch rev) attempts_post.
Proof.
  intros Hh Hl Hmay. unfold claim. router_step; [done |].
  destruct x; subst g0; cbn [negb]; [| done].
  router_step. { split_and!; [done .. |]. left. split; [done | cbn; lia]. }
  destruct (unavailable x) as [[r | | e] | e] eqn:Hx.
  - apply unavailable_ok in Hx as ->. subst g0. cbn.
    rewrite is_local_owner_claim, Hh. by rewrite orb_true_r.
  - apply unavailable_ok in Hx as ->. subst g0.
    router_step; [cbn; lia |]. subst g0. cbn. by rewrite Hh.
  - apply unavailable_ok in Hx as ->. subst g0.
    router_step; [done |].
    case_bool_decide as Hr.
    + apply read_record_some in Hr as (v & -> & Hv). subst g0. cbn.
      rewrite Hv, is_local_owner_claim, Hh. by rewrite orb_true_r.
    + assert (held g0 = 1%nat /\ locked g0 = true) as [Hh' Hl'].
      { destruct x as [| [|]]; subst g0; cbn; by rewrite Hh. }
      router_step; [lia |]. subst g1. cbn. by rewrite Hh'.
  - assert (held g0 = 1%nat /\ locked g0 = true) as [Hh' Hl'].
    { destruct x as [| [[| |] |]]; subst g0; cbn; by rewrite Hh. }
    router_step; [lia |]. subst g1. cbn. by rewrite Hh'.
Qed.

Lemma take_over_wp cur retry g :
  held g = 0%nat -> locked g = true -> last_read g = Some cur ->
  (forall v o, cur = Some v -> owner (record v) = Some o -> displaceable self g o) ->
  (forall g', held g' = 0%nat -> locked g' = true ->
              wp (router_monitor self address) g' retry attempts_post) ->
  wp (router_monitor self address) g (take_over self address cur retry) attempts_post.
Proof.
  intros Hh Hl Hr Hdis Hretry. unfold take_over. router_step; [done |].
  destruct x; subst g0; cbn [negb]; [| done].
  router_step.
  { split_and!; [done .. |]. left. split; [| cbn; lia]. split; [done |].
    cbn. rewrite Hr. destruct cur as [v |]; cbn; [| done]. split_and!; [done .. |].
    intros o Ho. destruct (Hdis v o eq_refl Ho) as [Hne Hd]. by split. }
  destruct (unavailable x) as [[r | | e] | e] eqn:Hx.
  - apply unavailable_ok in Hx as ->. subst g0. cbn.
    rewrite is_local_owner_claim, Hh. by rewrite orb_true_r.
  - apply unavailable_ok in Hx as ->. subst g0.
    router_step; [cbn; lia |]. subst g0. apply Hretry; cbn; [by rewrite Hh | done].
  - apply unavailable_ok in Hx as ->. subst g0. apply wp_bind.
    apply confirm_claim_wp; [done | apply is_local_owner_claim |].
    intros b g' Hh' Hl' Hown. cbn in Hh'. rewrite Hh in Hh'.
    destruct b; cbn.
    + split_and!; auto.
    + split; [lia |]. intros _ g'' ->. apply Hretry; cbn; [by rewrite Hh' | done].
    + split; [lia |]. intros _ g'' ->. split; cbn; [done | by rewrite Hh'].
  - assert (held g0 = 1%nat /\ locked g0 = true) as [Hh' Hl'].
    { destruct x as [| [[| |] |]]; subst g0; cbn; by rewrite Hh. }
    router_step; [lia |]. subst g1. cbn. by rewrite Hh'.
Qed.

Lemma resolve_attempts_wp n g :
  held g = 0%nat -> locked g = true ->
  wp (router_monitor self address) g (resolve_attempts n self address) attempts_post.
Proof.
  revert g. induction n as [| n IH]; intros g Hh Hl; [done |].
  cbn [resolve_attempts]. router_step; [done |].
  destruct (unavailable x) as [[v |] | e] eqn:Hx.
  - apply unavailable_ok in Hx as ->. subst g0.
    destruct (is_local_owner self (record v)) eqn:Hloc.
    { split_and!; [done .. | cbn; by rewrite orb_true_r]. }
    destruct (owner (record v)) as [o |] eqn:Ho.
    2:{ apply take_over_wp; cbn; [done .. | congruence | auto]. }
    case_bool_decide as Hself.
    { apply claim_wp; cbn; [done .. |]. split; [done |]. cbn. split_and!; [done .. |].
      intros o' Ho'. assert (o' = o) as -> by congruence. split; [by eapply not_local_owner | by left]. }
    router_step; [done |].
    destruct (unavailable x) as [node | e'] eqn:Hn.
    + apply unavailable_ok in Hn as ->. subst g0.
      destruct (match node with Some node => bool_decide (session_id node = owner_session_id o) | None => false end)
        eqn:Hlive; [done |].
      apply take_over_wp; cbn; [done .. | | auto].
      intros v' o' [= <-] Ho'. assert (o' = o) as -> by congruence.
      split; [by eapply not_local_owner |]. right. exists node. split; [done |].
      intros r ->. by apply bool_decide_eq_false in Hlive.
    + destruct x as [| [|]]; cbn in *; subst; done.
  - apply unavailable_ok in Hx as ->. subst g0. apply take_over_wp; cbn; [done .. | auto].
  - destruct x as [| [|]]; cbn in *; subst; done.
Qed.

Lemma confirm_release_wp n current expected g (Q : bool -> ghost -> Prop) :
  locked g = true ->
  (forall b g', held g' = held g -> locked g' = true -> Q b g') ->
  wp (router_monitor self address) g (confirm_release n address current expected) Q.
Proof.
  revert g. induction n as [| n IH]; intros g Hl HQ; [by apply HQ |].
  cbn [confirm_release]. router_step; [done |].
  assert (held g0 = held g /\ locked g0 = true) as [Hh Hl'].
  { destruct x as [| [|]]; subst g0; done. }
  assert (wp (router_monitor self address) g0 (confirm_release n address current expected) Q).
  { apply IH; [done |]. intros. apply HQ; congruence. }
  destruct (read_record x) as [r |]; [| done].
  repeat case_bool_decide; cbn; auto.
Qed.

Lemma release_body_wp g :
  held g = 0%nat -> locked g = true ->
  wp (router_monitor self address) g (release_body self address)
    (fun _ g' => held g' = 0%nat /\ locked g' = true).
Proof.
  intros Hh Hl. unfold release_body. router_step; [done |].
  destruct (unavailable x) as [[v |] | e] eqn:Hx;
    [| apply unavailable_ok in Hx as ->; by subst g0 | destruct x as [| [|]]; cbn in *; by subst].
  apply unavailable_ok in Hx as ->. subst g0.
  destruct (is_local_owner self (record v)) eqn:Hloc; cbn [negb]; [| done].
  router_step.
  { split_and!; [done .. |]. right. exists v. split_and!; [done .. | | done].
    by apply is_local_owner_true. }
  destruct (unavailable x) as [o | e] eqn:Hx.
  - apply unavailable_ok in Hx as ->.
    destruct o as [r | | e]; subst g0; [done | |];
      (apply wp_bind, confirm_release_wp; [done |]; intros b g' Hh' Hl'; cbn in *;
       split; congruence).
  - destruct x as [| [[| |] |]]; cbn in *; by subst.
Qed.

Lemma resolve_wp : wp (router_monitor self address) ghost0 (resolve self address) resolve_post.
Proof.
  unfold resolve. router_step; [done |]. subst g. apply wp_bind.
  eapply wp_mono, resolve_attempts_wp; [| done ..].
  intros r g [Hl Hr]. destruct r as [[b |] | e].
  - cbn. naive_solver.
  - router_step; [done |]. by subst.
  - router_step; [done |]. by subst.
Qed.

Lemma release_wp : wp (router_monitor self address) ghost0 (release_local_owner self address) release_post.
Proof.
  unfold release_local_owner. router_step; [done |]. subst g. apply wp_bind.
  eapply wp_mono, release_body_wp; [| done ..].
  intros r g [Hh Hl]. router_step; [done |]. by subst.
Qed.
End router.

(** ** Lemmas on the resolution locks *)

(** Every mutex is older than the next one and belongs to one address. *)
Definition locks_wf (s : Resolutions) : Prop :=
  forall a m, resolutions s !! a = Some m ->
    (m < mutexes s)%nat /\ forall b, resolutions s !! b = Some m -> b = a.

Definition locks_after (s : Resolutions) (l : list ActorAddress) : Resolutions :=
  foldl (fun s a => (resolution_lock s a).2) s l.

Lemma resolution_lock_wf s a : locks_wf s -> locks_wf (resolution_lock s a).2.
Proof.
  intros Hwf. unfold resolution_lock. destruct (resolutions s !! a) as [m |] eqn:Ha; [done |].
  intros b m Hb. cbn in *. rewrite lookup_insert_Some in Hb. destruct Hb as [[<- <-] | [Hne Hb]].
  - split; [lia |]. intros c. rewrite lookup_insert_Some. intros [[<- _] | [_ Hc]]; [done |]. destruct (Hwf c _ Hc). lia.
  - destruct (Hwf b m Hb) as [Hlt Huniq]. split; [lia |]. intros c. rewrite lookup_insert_Some.
    intros [[_ <-] | [_ Hc]]; [lia | by apply Huniq].
Qed.

Lemma resolution_lock_found s a : resolutions (resolution_lock s a).2 !! a = Some (resolution_lock s a).1.
Proof.
  unfold resolution_lock. destruct (resolutions s !! a) eqn:Ha; [done |]. cbn. by rewrite lookup_insert_eq.
Qed.

Lemma resolution_lock_keeps s a b m : resolutions s !! b = Some m -> resolutions (resolution_lock s a).2 !! b = Some m.
Proof.
  intros Hb. unfold resolution_lock. destruct (resolutions s !! a) eqn:Ha; [done |]. cbn.
  rewrite lookup_insert_ne; [done |]. congruence.
Qed.

Lemma locks_after_inv s l : locks_wf s -> locks_wf (locks_after s l) /\
  forall a m, resolutions s !! a = Some m -> resolutions (locks_after s l) !! a = Some m.
Proof.
  revert s. induction l as [| b l IH]; intros s Hwf; [done |].
  destruct (IH _ (resolution_lock_wf s b Hwf)) as [Hw Hk]. split; [done |].
  intros a m Ha. by apply Hk, resolution_lock_keeps.
Qed.

(** Two resolutions of a router take the same mutex exactly when they are about
    the same address, whatever was resolved before and between them. *)
Theorem resolution_lock_per_address (id : string) (session : NodeSessionId) (before between : list ActorAddress)
    (a b : ActorAddress) :
  let s1 := locks_after (router_new id session).2 before in
  let s2 := locks_after (resolution_lock s1 a).2 between in
  (resolution_lock s1 a).1 = (resolution_lock s2 b).1 <-> a = b.
Proof.
  intros s1 s2. assert (Hw0 : locks_wf (router_new id session).2) by (intros x m; cbn; by rewrite lookup_empty).
  destruct (locks_after_inv _ before Hw0) as [Hw1 _].
  destruct (locks_after_inv _ between (resolution_lock_wf _ a Hw1)) as [Hw2 Hk]. fold s1 in Hk. fold s2 in Hw2, Hk.
  pose proof (Hk a _ (resolution_lock_found s1 a)) as Ha.
  pose proof (resolution_lock_keeps s2 b a _ Ha) as Ha'. pose proof (resolution_lock_found s2 b) as Hb.
  split; [| intros <-; congruence]. intros Heq. rewrite Heq in Ha'.
  by destruct (resolution_lock_wf s2 b Hw2 b _ Hb) as [_ Hu]; apply Hu.
Qed.

(** ** Lemmas on uncontended runs *)
Lemma matches_current {V} (cur : option (Versioned V)) : Register.matches cur (revision <$> cur) = true.
Proof. destruct cur; cbn; [by apply bool_decide_eq_true | done]. Qed.

Lemma take_over_run self address cur retry s :
  TestStore.owners (env_store s) !! address = cur ->
  run test_handler (take_over self address cur retry) s =
  claim_outcome self address
    (match cur with None => 1 | Some v => saturating_add (ownership_epoch (record v)) 1 end)%Z s.
Proof.
  intros Hcur. unfold take_over, claim_outcome. cbn [run test_handler].
  destruct (env_permits s) as [| n]; [done |]. cbn [run test_handler negb env_store].
  unfold TestStore.compare_exchange_actor_owner. rewrite Hcur, matches_current. done.
Qed.

Lemma claim_run self address epoch v s :
  TestStore.owners (env_store s) !! address = Some v ->
  run test_handler (claim self address epoch (Some (revision v))) s =
  claim_outcome self address epoch s.
Proof.
  intros Hcur. unfold claim, claim_outcome. cbn [run test_handler].
  destruct (env_permits s) as [| n]; [done |]. cbn [run test_handler negb env_store].
  unfold TestStore.compare_exchange_actor_owner. rewrite Hcur. cbn [Register.matches].
  by rewrite bool_decide_eq_true_2.
Qed.

(** The tail of [resolve] after a claim made under the lock. *)
Lemma claimed_by_locked self address epoch s :
  (let '(r, s') := claim_outcome self address epoch
                     (MkEnv (env_store s) (env_now s) (env_permits s) true) in
   run test_handler
     (match r with
      | Ok (Local _) => Ret r
      | _ => exec! UnlockResolution address; Ret r
      end) s') = claimed_by self address epoch s.
Proof. unfold claim_outcome, claimed_by. cbn. by destruct (env_permits s). Qed.

(** ** Counting lemmas *)
Lemma confirm_claim_count n address expected c (Q : readback -> nat -> Prop) :
  (forall b c', (c' <= c + n)%nat -> Q b c') ->
  wp counting c (confirm_claim n address expected) Q.
Proof.
  revert c. induction n as [| n IH]; intros c HQ; [apply HQ; lia |].
  cbn [confirm_claim]. split; [done |]. intros x c' ->. cbn [store_call].
  destruct (read_record x); [| apply IH; intros; apply HQ; lia].
  repeat case_bool_decide; [apply HQ; lia .. | apply IH; intros; apply HQ; lia].
Qed.

Lemma confirm_release_count n address cur expected c (Q : bool -> nat -> Prop) :
  (forall b c', (c' <= c + n)%nat -> Q b c') ->
  wp counting c (confirm_release n address cur expected) Q.
Proof.
  revert c. induction n as [| n IH]; intros c HQ; [apply HQ; lia |].
  cbn [confirm_release]. split; [done |]. intros x c' ->. cbn [store_call].
  destruct (read_record x); [| apply IH; intros; apply HQ; lia].
  repeat case_bool_decide; [apply HQ; lia .. | apply IH; intros; apply HQ; lia].
Qed.

(** Peels one call of a counting goal. *)
Ltac count_step :=
  split; [done |]; let x := fresh "x" in let c := fresh "c" in
  intros x c ->; cbn [store_call].

Lemma take_over_count self address cur retry c (Q : _ -> nat -> Prop) :
  (forall r c', (c' <= c + 4)%nat -> Q r c') ->
  (forall c', (c' <= c + 4)%nat -> wp counting c' retry Q) ->
  wp counting c (take_over self address cur retry) Q.
Proof.
  intros HQ Hretry. unfold take_over. count_step. destruct x; cbn [negb]; [| apply HQ; lia].
  count_step. destruct (unavailable x) as [[r | | e] | e].
  - apply HQ; lia.
  - count_step. apply Hretry; lia.
  - apply wp_bind, confirm_claim_count. intros [] c' Hc'.
    + apply HQ; lia.
    + count_step. apply Hretry; lia.
    + count_step. apply HQ; lia.
  - count_step. apply HQ; lia.
Qed.

Lemma claim_count self address epoch rev c (Q : _ -> nat -> Prop) :
  (forall r c', (c' <= c + 2)%nat -> Q r c') ->
  wp counting c (claim self address epoch rev) Q.
Proof.
  intros HQ. unfold claim. count_step. destruct x; cbn [negb]; [| apply HQ; lia].
  count_step. destruct (unavailable x) as [[r | | e] | e].
  - apply HQ; lia.
  - count_step. apply HQ; lia.
  - count_step. case_bool_decide; [apply HQ; lia |]. count_step. apply HQ; lia.
  - count_step. apply HQ; lia.
Qed.

Lemma resolve_attempts_count self address n c (Q : _ -> nat -> Prop) :
  (forall r c', (c' <= c + 6 * n)%nat -> Q r c') ->
  wp counting c (resolve_attempts n self address) Q.
Proof.
  revert c. induction n as [| n IH]; intros c HQ; [apply HQ; lia |].
  cbn [resolve_attempts]. count_step.
  destruct (unavailable x) as [[v |] |];
    [| apply take_over_count; intros; [apply HQ; lia | apply IH; intros; apply HQ; lia] | apply HQ; lia].
  destruct (is_local_owner _ _); [apply HQ; lia |].
  destruct (owner _) as [o |];
    [| apply take_over_count; intros; [apply HQ; lia | apply IH; intros; apply HQ; lia]].
  case_bool_decide; [apply claim_count; intros; apply HQ; lia |].
  count_step. destruct (unavailable _) as [node |]; [| apply HQ; lia].
  match goal with |- wp _ _ (if ?b then _ else _) _ => destruct b end; [apply HQ; lia |].
  apply take_over_count; intros; [apply HQ; lia | apply IH; intros; apply HQ; lia].
Qed.

(** ** Properties *)

(** C11: whatever the store, the directory, the semaphore and the timers answer,
    a resolution or a release only writes what its last read justifies (a claim
    with the next epoch over nothing, an unowned record, an earlier session of
    its own node or an owner the directory does not report as live; or the
    release of its own record), under the resolution lock; it returns holding a
    permit exactly for [Local true] and the lock exactly for [Local _], and
    [Local _] only after it saw its own record in the store. *)
Theorem router_discipline (self : ClusterRouter) (address : ActorAddress) :
  wp (router_monitor self address) ghost0 (resolve self address) resolve_post /\
  wp (router_monitor self address) ghost0 (release_local_owner self address) release_post.
Proof. split; [apply resolve_wp | apply release_wp]. Qed.

(** An owner whose Node Lease the directory reports as live is never
    displaced: as long as the reads show it as owner and as live, a resolution
    at another node performs no conditional write and answers [Remote] or that
    ownership is unavailable. *)
Theorem live_owner_not_displaced (self : ClusterRouter) (address : ActorAddress) (o : ActorOwner) :
  owner_node_id o <> router_node_id self ->
  wp (live_owner_monitor o) () (resolve self address)
    (fun r _ => r = Ok Remote \/ r = Err OwnershipUnavailable).
Proof.
  intros Hne. unfold resolve. split; [done |]. intros x [] _.
  cbn [resolve_attempts proc_bind]. split; [done |]. intros r [] Hr.
  destruct (unavailable r) as [v |] eqn:Hu.
  - apply unavailable_ok in Hu as ->. destruct Hr as (v' & -> & Ho).
    destruct (is_local_owner self (record v')) eqn:Hl.
    { apply is_local_owner_true in Hl. rewrite Hl in Ho. by injection Ho as <-. }
    rewrite Ho, bool_decide_eq_false_2 by done.
    split; [done |]. intros n [] Hn. destruct (unavailable n) as [n' |] eqn:Hu.
    + apply unavailable_ok in Hu as ->. destruct (Hn eq_refl) as (rec & -> & Hs).
      rewrite bool_decide_eq_true_2 by done. split; [done |]. intros ? [] _. by left.
    + split; [done |]. intros ? [] _. right. by destruct n as [| [|]]; cbn in Hu; congruence.
  - split; [done |]. intros ? [] _. right. by destruct r as [| [|]]; cbn in Hu; congruence.
Qed.

Lemma live_owner_not_displaced_witness :
  exists o self, owner_node_id o <> router_node_id self /\
    wp (live_owner_monitor o) () (resolve self (MkActorAddress "room" "a"))
      (fun r _ => r = Ok Remote \/ r = Err OwnershipUnavailable).
Proof.
  exists (MkActorOwner "node-a" "s1"), (MkClusterRouter "node-b" "s2"). split; [done |].
  apply live_owner_not_displaced. done.
Defined.

(** A resolution makes at most 18 calls to the store and the directory, a
    release at most 5, whatever they answer. *)
Theorem router_calls_bounded (self : ClusterRouter) (address : ActorAddress) :
  wp counting 0%nat (resolve self address) (fun _ n => (n <= 18)%nat) /\
  wp counting 0%nat (release_local_owner self address) (fun _ n => (n <= 5)%nat).
Proof.
  split.
  - unfold resolve. count_step. apply wp_bind, resolve_attempts_count.
    intros [[|] |] c Hc; [cbn; lia | count_step; cbn; lia ..].
  - unfold release_local_owner, release_body. count_step. apply wp_bind. count_step.
    destruct (unavailable x0) as [[v |] |]; [| count_step; cbn; lia ..].
    destruct (negb _); [count_step; cbn; lia |]. unfold release_actor_owner. count_step.
    destruct (unavailable x1) as [[] |]; [count_step; cbn; lia | | | count_step; cbn; lia];
      (apply wp_bind, confirm_release_count; intros b c' Hc'; count_step; cbn; lia).
Qed.

(** C31: run alone against the in-memory store, a resolution answers and changes
    the store exactly as [resolve_spec] says: it keeps its own record, answers
    [Remote] for a live owner, and otherwise claims with the next epoch if a
    permit is left. *)
Theorem resolve_sequential (self : ClusterRouter) (address : ActorAddress) (s : router_env) :
  run test_handler (resolve self address) s = resolve_spec self address s.
Proof.
  unfold resolve. cbn [run test_handler]. rewrite run_bind. unfold resolve_spec.
  cbn [resolve_attempts run test_handler TestStore.read_actor_owner env_store env_permits
       env_now env_locked unavailable].
  set (s1 := MkEnv _ _ _ true).
  destruct (TestStore.owners (env_store s) !! address) as [v |] eqn:Hcur.
  2:{ rewrite take_over_run by done. apply claimed_by_locked. }
  destruct (is_local_owner self (record v)); [done |]. unfold stale_or_unowned.
  destruct (owner (record v)) as [o |] eqn:Ho.
  2:{ rewrite take_over_run by done. apply claimed_by_locked. }
  case_bool_decide as Hn; cbn [orb].
  { rewrite claim_run by done. apply claimed_by_locked. }
  cbn [run test_handler TestStore.read_node unavailable env_store env_now s1].
  destruct (TestStore.live_lease _ _ _) as [l |]; cbn [fmap option_fmap option_map].
  - case_bool_decide; cbn [negb]; [done |]. rewrite take_over_run by done. apply claimed_by_locked.
  - rewrite take_over_run by done. apply claimed_by_locked.
Qed.
