(* ===== verification/Ownership.v ===== *)
(** * Ownership in the cluster

    Any number of nodes run the resolutions and releases of [Routing] at the
    same time against one Coordination Store.  Each call of a procedure is one
    atomic step; replies are whatever the store contract allows, writes whose
    reply was lost may land at any later time, and the directory, the
    semaphores and the locks answer arbitrarily.  The theorems say that the
    history of every owner record is a chain of claims and releases: epochs
    never decrease, and an epoch has one owner. *)

From S2P Require Import Prelude Text Address Coordination Routing.

(** ** Versions of an owner record *)

(** What may follow [cur] in the history of an address. *)
Definition version_step (cur : option ActorOwnerRecord) (next : ActorOwnerRecord) : Prop :=
  (cur = None /\ ownership_epoch next = 1%Z /\ is_Some (owner next)) \/
  (exists c, cur = Some c /\ is_Some (owner next) /\
             ownership_epoch next = saturating_add (ownership_epoch c) 1) \/
  (exists c, cur = Some c /\ is_Some (owner c) /\ next = unowned (ownership_epoch c)).

(** A history in which every version follows its predecessor. *)
Inductive chain : Register.history ActorOwnerRecord -> Prop :=
| chain_nil : chain []
| chain_write h v :
    chain h ->
    Register.names h (revision v) (record v) ->
    version_step (record <$> Register.current h) (record v) ->
    chain (Some v :: h).

(** ** The cluster *)

(** A conditional write a node has sent. *)
Record write := MkWrite {
  w_address : ActorAddress;
  w_record : ActorOwnerRecord;
  w_expected : option Revision
}.

(** A call of a router in progress: a resolution or a release. *)
Definition call_result : Type := result SendError ResolvedOwner + result SendError unit.

Record thread := MkThread {
  t_self : ClusterRouter;
  t_address : ActorAddress;
  t_proc : proc routerE call_result
}.

Record cluster := MkCluster {
  histories : gmap ActorAddress (Register.history ActorOwnerRecord);
  threads : list thread;
  in_flight : list write
}.

Definition hist (w : cluster) (a : ActorAddress) : Register.history ActorOwnerRecord :=
  default [] (histories w !! a).

Definition with_hist (w : cluster) (a : ActorAddress) (h : Register.history ActorOwnerRecord) : cluster :=
  MkCluster (<[a := h]> (histories w)) (threads w) (in_flight w).
Definition with_threads (w : cluster) (ts : list thread) : cluster :=
  MkCluster (histories w) ts (in_flight w).
Definition with_in_flight (w : cluster) (l : list write) : cluster :=
  MkCluster (histories w) (threads w) l.

Definition resolving (self : ClusterRouter) (a : ActorAddress) : thread :=
  MkThread self a (proc_bind (resolve self a) (fun r => Ret (inl r))).
Definition releasing (self : ClusterRouter) (a : ActorAddress) : thread :=
  MkThread self a (proc_bind (release_local_owner self a) (fun r => Ret (inr r))).

(** The effect of a write on the cluster, by the contract of the register
    ([Register.cas_replies]): a confirmed write took place; an unconfirmed one
    may have taken place, may still be in flight, or is lost. *)
Definition landed (w : cluster) (a : ActorAddress) (rec : ActorOwnerRecord) (rev : option Revision)
    (r : Revision) (w' : cluster) : Prop :=
  exists h', Register.writes (hist w a) rec rev r h' /\ w' = with_hist w a h'.

Definition unconfirmed (w : cluster) (a : ActorAddress) (rec : ActorOwnerRecord)
    (rev : option Revision) (w' : cluster) : Prop :=
  w' = w \/ (exists r, landed w a rec rev r w') \/
  w' = with_in_flight w (MkWrite a rec rev :: in_flight w).

(** The replies of a call in a cluster, and what the call changes. *)
Definition cluster_replies (w : cluster) X (e : routerE X) : X -> cluster -> Prop :=
  match e in routerE X return X -> cluster -> Prop with
  | ReadActorOwner a => fun t w' =>
      w' = w /\ match t with
                | Ready reply => Register.read_replies (hist w a) reply
                | Elapsed => True
                end
  | CompareExchange a rec rev => fun t w' =>
      match t with
      | Ready (Ok (Applied r)) => landed w a rec rev r w'
      | _ => unconfirmed w a rec rev w'
      end
  | _ => fun _ w' => w' = w
  end.

Inductive cluster_step : cluster -> cluster -> Prop :=
| step_start w t :
    (exists self a, t = resolving self a \/ t = releasing self a) ->
    cluster_step w (with_threads w (t :: threads w))
| step_call w w' i self a X (e : routerE X) k x :
    threads w !! i = Some (MkThread self a (Call e k)) ->
    cluster_replies w X e x w' ->
    cluster_step w (with_threads w' (<[i := MkThread self a (k x)]> (threads w')))
| step_crash w i :
    cluster_step w (with_threads w (delete i (threads w)))
| step_land w i wr r h' :
    in_flight w !! i = Some wr ->
    Register.writes (hist w (w_address wr)) (w_record wr) (w_expected wr) r h' ->
    cluster_step w (with_hist w (w_address wr) h').

Definition empty_cluster : cluster := MkCluster ∅ [] [].

(** ** The invariant *)

(** A write whose expectation names the version it follows. *)
Definition justified (h : Register.history ActorOwnerRecord) (rec : ActorOwnerRecord)
    (rev : option Revision) : Prop :=
  (rev = None /\ version_step None rec) \/
  (exists v, Some v ∈ h /\ rev = Some (revision v) /\ version_step (Some (record v)) rec).

(** The ghost knowledge of a router agrees with the history. *)
Definition ghost_agrees (self : ClusterRouter) (h : Register.history ActorOwnerRecord) (g : ghost) : Prop :=
  (forall v, last_read g = Some (Some v) -> Some v ∈ h) /\
  (owned g = true -> exists v, Some v ∈ h /\ owner (record v) = Some (self_owner self)).

(** What a finished call says of the history. *)
Definition call_post (r : call_result) (g : ghost) : Prop :=
  match r with
  | inl r => resolve_post r g
  | inr r => release_post r g
  end.

Definition thread_ok (w : cluster) (t : thread) : Prop :=
  exists g, wp (router_monitor (t_self t) (t_address t)) g (t_proc t) call_post /\
            ghost_agrees (t_self t) (hist w (t_address t)) g.

Definition cluster_inv (w : cluster) : Prop :=
  (forall a, chain (hist w a)) /\
  (forall t, t ∈ threads w -> thread_ok w t) /\
  (forall wr, wr ∈ in_flight w -> justified (hist w (w_address wr)) (w_record wr) (w_expected wr)).

(** Histories only grow. *)
Definition extends (w w' : cluster) : Prop :=
  forall a v, Some v ∈ hist w a -> Some v ∈ hist w' a.

(** ** A deterministic schedule, for concrete runs *)
Fixpoint fresh_revision (h : Register.history ActorOwnerRecord) : Revision :=
  match h with
  | [] => "r"
  | Some v :: h => revision v +:+ fresh_revision h
  | None :: h => fresh_revision h
  end.

(** Every permit is granted, the directory knows no node, writes answer. *)
Definition cluster_handler X (e : routerE X) (w : cluster) : X * cluster :=
  match e in routerE X return X * cluster with
  | LockResolution _ | UnlockResolution _ | DropPermit => ((), w)
  | ReadActorOwner a => (Ready (Ok (Register.current (hist w a))), w)
  | ReadNode _ => (Ready (Ok None), w)
  | CompareExchange a rec rev =>
      if Register.matches (Register.current (hist w a)) rev then
        let r := fresh_revision (hist w a) in
        (Ready (Ok (Applied r)), with_hist w a (Some (MkVersioned rec r) :: hist w a))
      else (Ready (Ok Conflict), w)
  | TryAcquire => (true, w)
  end.

Definition demo_room : ActorAddress := MkActorAddress "room" "r1".
Definition demo_a : ClusterRouter := MkClusterRouter "node-a" "session-a".
Definition demo_b : ClusterRouter := MkClusterRouter "node-b" "session-b".

(** Node [a] claims the room; the directory knows no lease of [a]; node [b]
    takes the room over. *)
Definition demo_run_a : call_result * cluster :=
  run cluster_handler (t_proc (resolving demo_a demo_room)) empty_cluster.
Definition demo_run_b : call_result * cluster :=
  run cluster_handler (t_proc (resolving demo_b demo_room)) demo_run_a.2.
Definition demo : cluster :=
  with_threads demo_run_b.2
    [MkThread demo_b demo_room (Ret demo_run_b.1); MkThread demo_a demo_room (Ret demo_run_a.1)].

(** ** Lemmas on chains *)
Lemma chain_coherent h : chain h -> Register.coherent h.
Proof.
  induction 1 as [| h v Hc IH Hn Hs]; [by intros ? ? ?%elem_of_nil |].
  intros w1 w2. rewrite !elem_of_cons. intros [[= ->] | H1] [[= ->] | H2] Hr; auto.
  symmetry. by apply Hn.
Qed.

Lemma chain_no_deletion h : chain h -> None ∉ h.
Proof. induction 1; set_solver. Qed.

Lemma version_step_epoch c next :
  version_step (Some c) next -> (ownership_epoch c <= U64_MAX)%Z ->
  (ownership_epoch c <= ownership_epoch next)%Z.
Proof.
  intros [(? & _) | [(c' & [= <-] & _ & ->) | (c' & [= <-] & _ & ->)]] Hb; [done | | cbn; lia].
  auto with coactor lia.
Qed.

(** Epochs are machine words, and the newest version has the largest. *)
Lemma chain_epochs h v :
  chain h -> Some v ∈ h ->
  (1 <= ownership_epoch (record v) <= U64_MAX)%Z /\
  exists c, Register.current h = Some c /\
            (ownership_epoch (record v) <= ownership_epoch (record c) <= U64_MAX)%Z.
Proof.
  intros Hc. revert v. induction Hc as [| h c Hc IH Hn Hs]; intros v; [by intros ?%elem_of_nil |].
  assert (Hnew : (1 <= ownership_epoch (record c) <= U64_MAX)%Z /\
                 forall d, Register.current h = Some d ->
                           (ownership_epoch (record d) <= ownership_epoch (record c))%Z).
  { destruct (Register.current h) as [d |] eqn:Hd; cbn in Hs.
    - destruct (IH d) as [Hb _]; [by apply register_current_elem |].
      pose proof (version_step_epoch _ _ Hs ltac:(lia)) as Hle.
      split; [split; [lia |] | by intros ? [= <-]].
      destruct Hs as [(? & _) | [(c' & [= <-] & _ & ->) | (c' & [= <-] & _ & ->)]]; [done | | cbn; lia].
      unfold saturating_add. lia.
    - split; [| done]. destruct Hs as [(_ & -> & _) | [(? & ? & _) | (? & ? & _)]]; [| done ..].
      unfold U64_MAX. lia. }
  destruct Hnew as [Hb Hd]. rewrite elem_of_cons. intros [[= ->] | Hv].
  - split; [done |]. exists c. cbn. split; [done | lia].
  - destruct (IH v Hv) as [Hbv (d & Hcur & Hle)]. specialize (Hd d Hcur).
    split; [done |]. exists c. cbn. split; [done | lia].
Qed.

Lemma chain_write_step h v e r h' :
  chain h -> justified h v e -> Register.writes h v e r h' -> chain h'.
Proof.
  intros Hc Hj (Hm & Hn & ->). constructor; [done .. |]. cbn.
  destruct Hj as [[-> Hs] | (u & Hu & -> & Hs)].
  - by rewrite (register_matches_absent _ Hm).
  - apply register_matches_current in Hm as (c & Hcur & Hr). rewrite Hcur. cbn.
    by rewrite (chain_coherent h Hc c u (register_current_elem _ _ Hcur) Hu Hr).
Qed.

(** In a chain, two owned versions of the same unsaturated epoch have the same owner. *)
Lemma chain_epoch_owner h v1 v2 o1 o2 :
  chain h -> Some v1 ∈ h -> Some v2 ∈ h ->
  owner (record v1) = Some o1 -> owner (record v2) = Some o2 ->
  ownership_epoch (record v1) = ownership_epoch (record v2) ->
  (ownership_epoch (record v1) < U64_MAX)%Z ->
  o1 = o2.
Proof.
  intros Hc. revert v1 v2 o1 o2.
  (* an owned new version has an epoch above every earlier one *)
  assert (Hnew : forall h v w, chain h -> version_step (record <$> Register.current h) (record v) ->
            is_Some (owner (record v)) -> Some w ∈ h ->
            (ownership_epoch (record v) < U64_MAX)%Z ->
            (ownership_epoch (record w) < ownership_epoch (record v))%Z).
  { intros h' v w Hc' Hs Ho Hw Hlt. destruct (chain_epochs h' w Hc' Hw) as [_ (c & Hcur & Hle)].
    rewrite Hcur in Hs. cbn in Hs.
    destruct Hs as [(? & _) | [(c' & [= <-] & _ & He) | (c' & [= <-] & _ & He)]]; [done | |].
    - unfold saturating_add in He. lia.
    - rewrite He in Ho. by destruct Ho. }
  induction Hc as [| h c Hc IH Hn Hs]; intros v1 v2 o1 o2; [by intros ?%elem_of_nil |].
  rewrite !elem_of_cons. intros [[= ->] | H1] [[= ->] | H2] Ho1 Ho2 He Hlt.
  - congruence.
  - pose proof (Hnew h c v2 Hc Hs ltac:(eauto) H2 ltac:(lia)). lia.
  - pose proof (Hnew h c v1 Hc Hs ltac:(eauto) H1 ltac:(lia)). lia.
  - eauto.
Qed.

(** ** Lemmas on the cluster *)
Lemma hist_with_hist w a h a' :
  hist (with_hist w a h) a' = if decide (a = a') then h else hist w a'.
Proof.
  unfold hist, with_hist. cbn. rewrite lookup_insert. by case_decide.
Qed.

Lemma justified_mono h h' rec rev :
  (forall v, Some v ∈ h -> Some v ∈ h') -> justified h rec rev -> justified h' rec rev.
Proof. intros Hs [Hj | (v & Hv & Hj)]; [by left | right; eauto]. Qed.

Lemma ghost_agrees_mono self h h' g :
  (forall v, Some v ∈ h -> Some v ∈ h') -> ghost_agrees self h g -> ghost_agrees self h' g.
Proof. intros Hs [H1 H2]. split; [eauto |]. intros Ho. destruct (H2 Ho) as (v & ? & ?). eauto. Qed.

Lemma may_claim_justified self h g rec rev :
  ghost_agrees self h g -> may_claim self g rec rev -> justified h rec rev.
Proof.
  intros [Hlr _] [Ho Hm]. destruct (last_read g) as [[v |] |]; [| | done].
  - destruct Hm as (-> & He & _). right. exists v. split_and!; [by apply Hlr | done |].
    right; left. exists (record v). by rewrite Ho.
  - destruct Hm as [-> He]. left. split; [done |]. left. by rewrite Ho.
Qed.

Lemma may_release_justified self h g rec rev :
  ghost_agrees self h g -> may_release self g rec rev -> justified h rec rev.
Proof.
  intros [Hlr _] (v & Hr & -> & Ho & ->). right. exists v. split_and!; [by apply Hlr | done |].
  right; right. exists (record v). by rewrite Ho.
Qed.

Lemma writes_grow (h h' : Register.history ActorOwnerRecord) v e r x :
  Register.writes h v e r h' -> Some x ∈ h -> Some x ∈ h'.
Proof. intros (_ & _ & ->). by right. Qed.

(** A justified write, whatever becomes of it, keeps the invariant. *)
Lemma inv_landed w a rec rev r w' :
  cluster_inv w -> justified (hist w a) rec rev -> landed w a rec rev r w' ->
  cluster_inv w' /\ extends w w' /\ threads w' = threads w /\
  Some (MkVersioned rec r) ∈ hist w' a.
Proof.
  intros (Hch & Hth & Hfl) Hj (h' & Hw & ->).
  assert (Hext : extends w (with_hist w a h')).
  { intros a' x Hx. rewrite hist_with_hist. case_decide; [subst; by eapply writes_grow | done]. }
  split_and!; [split_and! | done | done |].
  - intros a'. rewrite hist_with_hist. case_decide; [subst; by eapply chain_write_step | done].
  - intros t Ht. destruct (Hth t Ht) as (g & Hwp & Hg). exists g. split; [done |].
    eapply ghost_agrees_mono, Hg. intros v. apply Hext.
  - intros wr Hwr. eapply justified_mono, Hfl, Hwr. intros v. apply Hext.
  - rewrite hist_with_hist, decide_True by done. destruct Hw as (_ & _ & ->). constructor.
Qed.

Lemma inv_in_flight w wr :
  cluster_inv w -> justified (hist w (w_address wr)) (w_record wr) (w_expected wr) ->
  cluster_inv (with_in_flight w (wr :: in_flight w)).
Proof.
  intros (Hch & Hth & Hfl) Hj. split_and!; [done .. |].
  intros wr'. cbn. rewrite elem_of_cons. intros [-> | ?]; [done | by apply Hfl].
Qed.

Lemma write_inv w a rec rev :
  cluster_inv w -> justified (hist w a) rec rev ->
  (forall r w', landed w a rec rev r w' ->
     cluster_inv w' /\ extends w w' /\ threads w' = threads w /\ Some (MkVersioned rec r) ∈ hist w' a) /\
  (forall w', unconfirmed w a rec rev w' ->
     cluster_inv w' /\ extends w w' /\ threads w' = threads w).
Proof.
  intros Hinv Hj. split; [eauto using inv_landed |].
  intros w' [-> | [[r Hl] | ->]].
  - split_and!; [done | by intros ? ? | done].
  - by apply inv_landed in Hl as (? & ? & ? & ?).
  - split_and!; [by apply inv_in_flight | by intros ? ? | done].
Qed.

Lemma inv_threads w ts :
  cluster_inv w -> (forall t, t ∈ ts -> thread_ok w t) -> cluster_inv (with_threads w ts).
Proof. intros (Hch & _ & Hfl) Hts. split_and!; done. Qed.

(** One call of a router: the reply keeps the invariant, the histories grow,
    and some ghost state that observed the reply agrees with them. *)
Lemma call_step_inv self a X (e : routerE X) w x w' g :
  cluster_inv w ->
  ghost_agrees self (hist w a) g ->
  router_allowed self a X g e ->
  cluster_replies w X e x w' ->
  cluster_inv w' /\ extends w w' /\ threads w' = threads w /\
  exists g', router_observe self X g e x g' /\ ghost_agrees self (hist w' a) g'.
Proof.
  intros Hinv Hg Hal Hrep.
  assert (Hrefl : extends w w) by (by intros ? ?).
  destruct e as [b | b | b | id | b rec rev | |]; cbn in Hal, Hrep.
  - subst w'. split_and!; [done .. |]. eexists. split; [done |]. exact Hg.
  - subst w'. split_and!; [done .. |]. eexists. split; [done |]. exact Hg.
  - destruct Hrep as [-> Hr]. destruct Hal as [-> _]. split_and!; [done .. |]. destruct Hg as [Hlr Hown].
    destruct x as [| [o |]]; cbn in *; eexists; (split; [reflexivity |]); split; cbn; try done.
    + intros v [= ->]. by apply register_current_elem.
    + intros [Ho | Ho]%orb_true_iff; [auto |]. destruct o as [v |]; [| done].
      exists v. split; [by apply register_current_elem | by apply is_local_owner_true].
  - subst w'. split_and!; [done .. |].
    destruct x as [| [n |]]; cbn; eexists; (split; [reflexivity |]); exact Hg.
  - destruct Hal as (-> & _ & Hmay).
    assert (Hj : justified (hist w a) rec rev).
    { destruct Hmay as [[Hm _] | Hm]; eauto using may_claim_justified, may_release_justified. }
    assert (Hplain : forall w2, extends w w2 ->
              ghost_agrees self (hist w2 a) (MkGhost (held g) (locked g) None None (owned g))).
    { intros w2 He. split; [done |]. cbn. intros Ho. destruct Hg as [_ Hown].
      destruct (Hown Ho) as (v & Hv & Hvo). exists v. split; [by apply He | done]. }
    destruct (write_inv w a rec rev Hinv Hj) as [Hland Hun].
    destruct x as [| [[r | | err] | err]]; cbn in Hrep.
    1, 3, 4, 5: destruct (Hun w' Hrep) as (? & ? & ?); split_and!; [done .. |];
      eexists; split; [reflexivity | by apply Hplain].
    destruct (Hland r w' Hrep) as (Hinv' & Hext & Hths & Hin). split_and!; [done .. |].
    eexists. split; [reflexivity |]. split; [done |]. cbn.
    intros [Ho | Ho]%orb_true_iff.
    + destruct Hg as [_ Hown]. destruct (Hown Ho) as (v & Hv & ?). exists v. split; [by apply Hext | done].
    + eexists. split; [exact Hin |]. by apply is_local_owner_true.
  - subst w'. split_and!; [done .. |]. eexists. split; [done |]. destruct x; exact Hg.
  - subst w'. split_and!; [done .. |]. eexists. split; [done |]. exact Hg.
Qed.

Lemma thread_start_wp t :
  (exists self a, t = resolving self a \/ t = releasing self a) ->
  wp (router_monitor (t_self t) (t_address t)) ghost0 (t_proc t) call_post.
Proof.
  intros (self & a & Ht). destruct Ht as [-> | ->]; apply wp_bind; cbn [t_self t_address resolving releasing].
  - eapply wp_mono, resolve_wp. done.
  - eapply wp_mono, release_wp. done.
Qed.

Lemma thread_start_ok w t :
  (exists self a, t = resolving self a \/ t = releasing self a) -> thread_ok w t.
Proof. intros Ht. exists ghost0. split; [by apply thread_start_wp | done]. Qed.

Lemma thread_ok_mono w w' t : extends w w' -> thread_ok w t -> thread_ok w' t.
Proof.
  intros He (g & Hwp & Hg). exists g. split; [done |].
  eapply ghost_agrees_mono, Hg. intros v. apply He.
Qed.

Lemma cluster_step_inv : preserved cluster_step cluster_inv.
Proof.
  intros w w' Hinv Hstep.
  destruct Hstep as [w t Ht | w w' i self a X e k x Hi Hrep | w i | w i wr r h' Hi Hw].
  - apply inv_threads; [done |]. intros t'. rewrite elem_of_cons.
    intros [-> | Ht']; [by apply thread_start_ok | by apply Hinv].
  - destruct Hinv as (Hch & Hth & Hfl).
    destruct (Hth _ (list_elem_of_lookup_2 _ _ _ Hi)) as (g & [Hal Hk] & Hg). cbn in Hal, Hk, Hg.
    destruct (call_step_inv self a X e w x w' g) as (Hinv' & Hext & Hths & g' & Hobs & Hg'); [done .. |].
    apply inv_threads; [done |]. intros t' Ht'.
    apply list_elem_of_lookup in Ht' as [j Hj]. rewrite Hths in Hj.
    apply list_lookup_insert_Some in Hj as [(-> & <- & _) | (_ & Hj)].
    + exists g'. split; [by apply Hk | done].
    + apply (thread_ok_mono w); [done |]. by eapply Hth, list_elem_of_lookup_2.
  - apply inv_threads; [done |]. intros t' [j Hj]%list_elem_of_lookup.
    apply Hinv. rewrite list_lookup_delete in Hj. case_decide; by eapply list_elem_of_lookup_2.
  - destruct Hinv as (Hch & Hth & Hfl).
    eapply (inv_landed w (w_address wr)); [done | by eapply Hfl, list_elem_of_lookup_2 |].
    by exists h'.
Qed.

Lemma empty_cluster_inv : cluster_inv empty_cluster.
Proof. split_and!; [intros a; constructor | by intros ? ?%elem_of_nil ..]. Qed.

Lemma reachable_inv w : rtc cluster_step empty_cluster w -> cluster_inv w.
Proof. apply rtc_preserved; [apply cluster_step_inv | apply empty_cluster_inv]. Qed.

(** ** Runs of the deterministic handler are runs of the cluster *)
Lemma fresh_revision_nonempty h : (0 < String.length (fresh_revision h))%nat.
Proof.
  induction h as [| [u |] h IH]; cbn; [lia | rewrite string_length_app; lia | done].
Qed.

Lemma fresh_revision_longer (h : Register.history ActorOwnerRecord) v :
  Some v ∈ h -> (String.length (revision v) < String.length (fresh_revision h))%nat.
Proof.
  induction h as [| [u |] h IH]; cbn; rewrite ?elem_of_nil, ?elem_of_cons; [done | |].
  - rewrite string_length_app. intros [[= ->] | Hv]; [| specialize (IH Hv); lia].
    pose proof (fresh_revision_nonempty h). lia.
  - intros [? | Hv]; [done | auto].
Qed.

(** A write under a revision of its own. *)
Lemma fresh_write h rec rev :
  Register.matches (Register.current h) rev = true ->
  Register.writes h rec rev (fresh_revision h) (Some (MkVersioned rec (fresh_revision h)) :: h).
Proof.
  intros Hm. split_and!; [done | | done]. intros v Hv Hr. apply fresh_revision_longer in Hv. rewrite Hr in Hv. lia.
Qed.

Lemma cluster_handler_replies w ts X (e : routerE X) :
  let '(x, w') := cluster_handler X e w in
  cluster_replies (with_threads w ts) X e x (with_threads w' ts).
Proof.
  destruct e as [b | b | b | id | b rec rev | |]; cbn; try done.
  destruct (Register.matches _ rev) eqn:Hm; cbn; [| by left].
  eexists. split; [by apply fresh_write | reflexivity].
Qed.

Lemma cluster_handler_threads w X (e : routerE X) : threads (cluster_handler X e w).2 = threads w.
Proof. destruct e; try done. cbn. by destruct (Register.matches _ _). Qed.

Lemma with_threads_id w : with_threads w (threads w) = w.
Proof. by destruct w. Qed.

Lemma cluster_run (p : proc routerE call_result) i self a w ts :
  ts !! i = Some (MkThread self a p) ->
  let '(r, w') := run cluster_handler p w in
  rtc cluster_step (with_threads w ts) (with_threads w' (<[i := MkThread self a (Ret r)]> ts)).
Proof.
  revert w ts. induction p as [r | X e k IH]; intros w ts Hi; cbn.
  - rewrite list_insert_id by done. apply rtc_refl.
  - pose proof (cluster_handler_replies w ts X e) as Hrep.
    destruct (cluster_handler X e w) as [x w1].
    specialize (IH x w1 (<[i := MkThread self a (k x)]> ts)).
    destruct (run cluster_handler (k x) w1) as [r w2].
    eapply rtc_l.
    { apply (step_call (with_threads w ts) (with_threads w1 ts) i self a X e k x); done. }
    rewrite list_insert_insert_eq in IH. apply IH.
    apply list_lookup_insert_eq. by eapply lookup_lt_Some.
Qed.

(** ** A small run: node [a] claims, its lease goes, node [b] takes over *)
Lemma demo_reachable : rtc cluster_step empty_cluster demo.
Proof.
  transitivity (with_threads demo_run_a.2 [MkThread demo_a demo_room (Ret demo_run_a.1)]).
  - eapply rtc_l; [apply (step_start _ (resolving demo_a demo_room)); eauto |].
    exact (cluster_run (t_proc (resolving demo_a demo_room)) 0 demo_a demo_room empty_cluster
             [resolving demo_a demo_room] eq_refl).
  - eapply rtc_l; [apply (step_start _ (resolving demo_b demo_room)); eauto |].
    exact (cluster_run (t_proc (resolving demo_b demo_room)) 0 demo_b demo_room demo_run_a.2
             [resolving demo_b demo_room; MkThread demo_a demo_room (Ret demo_run_a.1)] eq_refl).
Qed.

Lemma demo_history :
  hist demo demo_room =
    [Some (MkVersioned (local_claim demo_b 2) "rr"); Some (MkVersioned (local_claim demo_a 1) "r")] /\
  threads demo = [MkThread demo_b demo_room (Ret (inl (Ok (Local true))));
                  MkThread demo_a demo_room (Ret (inl (Ok (Local true))))].
Proof. split; vm_compute; reflexivity. Qed.

(** Adjacent parts of a chain are chains, and the newest version dominates. *)
Lemma chain_suffix h1 h2 : chain (h1 ++ h2) -> chain h2.
Proof.
  induction h1 as [| v h1 IH]; cbn; [done |]. intros Hc. apply IH. by inversion Hc.
Qed.

Lemma chain_order h1 new h2 old :
  chain (h1 ++ Some new :: h2) -> Some old ∈ h2 ->
  (ownership_epoch (record old) <= ownership_epoch (record new))%Z /\
  (is_Some (owner (record new)) -> (ownership_epoch (record new) < U64_MAX)%Z ->
   (ownership_epoch (record old) < ownership_epoch (record new))%Z).
Proof.
  intros Hc%chain_suffix Hold. inversion Hc as [| h v Hc2 Hn Hs Heq]; subst.
  destruct (chain_epochs _ _ Hc2 Hold) as [_ (c & Hcur & Hle & Hmax)].
  rewrite Hcur in Hs. cbn in Hs.
  pose proof (version_step_epoch _ _ Hs Hmax) as Hup. split; [lia |]. intros Ho Hlt.
  destruct Hs as [(? & _) | [(c' & [= <-] & _ & He) | (c' & [= <-] & _ & He)]]; [done | |].
  - unfold saturating_add in He. lia.
  - rewrite He in Ho. by destruct Ho.
Qed.

(** ** Properties *)

(** C2: whatever the nodes do, an ownership epoch below the saturation point
    has at most one owner: two owned records with the same epoch in the history
    of an address have the same node and the same session. *)
Theorem epoch_has_one_owner (w : cluster) (a : ActorAddress) v1 v2 o1 o2 :
  rtc cluster_step empty_cluster w ->
  Some v1 ∈ hist w a -> Some v2 ∈ hist w a ->
  owner (record v1) = Some o1 -> owner (record v2) = Some o2 ->
  ownership_epoch (record v1) = ownership_epoch (record v2) ->
  (ownership_epoch (record v1) < U64_MAX)%Z ->
  o1 = o2.
Proof. intros [Hch _]%reachable_inv. exact (chain_epoch_owner _ v1 v2 o1 o2 (Hch a)). Qed.

Lemma epoch_has_one_owner_witness :
  exists v o, Some v ∈ hist demo demo_room /\ owner (record v) = Some o /\ o = self_owner demo_b.
Proof.
  exists (MkVersioned (local_claim demo_b 2) "rr"), (self_owner demo_b).
  assert (Hin : Some (MkVersioned (local_claim demo_b 2) "rr") ∈ hist demo demo_room).
  { rewrite (proj1 demo_history). constructor. }
  split_and!; [exact Hin | reflexivity |].
  apply (epoch_has_one_owner demo demo_room _ _ (self_owner demo_b) (self_owner demo_b)
           demo_reachable Hin Hin); vm_compute; reflexivity.
Defined.

(** C3: ownership epochs never decrease along the history of an address, and a
    new owner always gets a larger epoch than every earlier record (below the
    saturation point): a take-over is visible in the epoch. *)
Theorem epochs_order_history (w : cluster) (a : ActorAddress) newer new older old :
  rtc cluster_step empty_cluster w ->
  hist w a = newer ++ Some new :: older ->
  Some old ∈ older ->
  (ownership_epoch (record old) <= ownership_epoch (record new))%Z /\
  (is_Some (owner (record new)) -> (ownership_epoch (record new) < U64_MAX)%Z ->
   (ownership_epoch (record old) < ownership_epoch (record new))%Z).
Proof.
  intros [Hch _]%reachable_inv Hh Hold. specialize (Hch a). rewrite Hh in Hch.
  by eapply chain_order.
Qed.

Lemma epochs_order_history_witness :
  (ownership_epoch (local_claim demo_a 1) <= ownership_epoch (local_claim demo_b 2))%Z.
Proof.
  apply (epochs_order_history demo demo_room [] (MkVersioned (local_claim demo_b 2) "rr")
           [Some (MkVersioned (local_claim demo_a 1) "r")] (MkVersioned (local_claim demo_a 1) "r")
           demo_reachable); [apply (proj1 demo_history) | constructor].
Defined.

(** A resolution that answered [Local] did so for a record of its own that
    is part of the history of the address. *)
Theorem local_means_recorded (w : cluster) (self : ClusterRouter) (a : ActorAddress) reservation :
  rtc cluster_step empty_cluster w ->
  MkThread self a (Ret (inl (Ok (Local reservation)))) ∈ threads w ->
  exists v, Some v ∈ hist w a /\ owner (record v) = Some (self_owner self).
Proof.
  intros (_ & Hth & _)%reachable_inv Ht.
  destruct (Hth _ Ht) as (g & (_ & _ & Ho) & (_ & Hown)). auto.
Qed.

Lemma local_means_recorded_witness :
  exists v, Some v ∈ hist demo demo_room /\ owner (record v) = Some (self_owner demo_b).
Proof.
  apply (local_means_recorded demo demo_b demo_room true demo_reachable).
  rewrite (proj2 demo_history). constructor.
Defined.
