(* ===== verification/Lease.v ===== *)
(** * Node authority and the Node Lease task

    Models [coactor/src/cluster/node.rs] ([NodeAuthority] and the renewal task
    of [spawn_lease_renewal]), [confirm_node_lease] and the lease part of
    [ServerStarter::start] in [coactor/src/cluster/authority.rs], and
    [update_capacity_sample] of [coactor/src/runtime/shutdown.rs].  The theorems
    say that local authority never outlives what the store confirmed, and that
    every way out of the renewal task other than a requested shutdown fences the
    node. *)

From S2P Require Import Prelude Text Address Coordination.

(** ** Clocks

    [Instant] and [Duration] are nanoseconds; the wall clock of a record is in
    milliseconds.  [jittered]: an interval times [0.8 + (r mod 401) / 1000],
    rounded to the nearest nanosecond as [Duration::mul_f64] does; the rounding
    of the [f64] factors themselves is not modelled. *)
Definition MILLI : Z := 1000000.

Definition jittered (interval r : Z) : Z := (interval * (800 + r mod 401) + 500) / 1000.

(** [checked_duration_since] *)
Definition checked_duration_since (later earlier : Z) : option Z :=
  if (earlier <=? later)%Z then Some (later - earlier)%Z else None.

(** ** [NodeAuthority]

    [None]: the addition of the TTL to the instant panics. *)
Record NodeAuthority := MkNodeAuthority {
  valid : bool;
  deadline : Z;
  authority_ttl : Z;
  fenced_sent : bool
}.

Definition authority_new (operation_started ttl : Z) : option NodeAuthority :=
  deadline ← instant_add operation_started ttl; Some (MkNodeAuthority true deadline ttl false).

Definition is_valid (a : NodeAuthority) (now : Z) : bool := valid a && (now <? deadline a)%Z.

Definition renew (a : NodeAuthority) (operation_started : Z) : option NodeAuthority :=
  deadline ← instant_add operation_started (authority_ttl a);
  Some (MkNodeAuthority (valid a) deadline (authority_ttl a) (fenced_sent a)).

Definition remaining (a : NodeAuthority) (now : Z) : option Z :=
  checked_duration_since (deadline a) now.

(** [fence]: the first fence notifies the waiter. *)
Definition fence (a : NodeAuthority) : NodeAuthority :=
  if valid a then MkNodeAuthority false (deadline a) (authority_ttl a) true
  else MkNodeAuthority false (deadline a) (authority_ttl a) (fenced_sent a).

(** ** The capacity sample a renewal publishes *)
Record capacity_readings := MkReadings {
  available_permits : Z;
  max_active_actors : Z;
  wall_time : Z;
  status_running : bool
}.

(** [update_capacity_sample] *)
Definition update_capacity_sample (r : capacity_readings) (n : NodeRecord) : NodeRecord :=
  MkNodeRecord (node_id n) (session_id n) (advertised_endpoint n) (protocol_version n)
    (lease_generation n)
    (wall_time r)
    (saturating_sub (max_active_actors r) (available_permits r))
    (max_active_actors r)
    (bool_decide (available_permits r = 0%Z))
    (negb (status_running r)).

Definition with_generation (n : NodeRecord) (g : Z) : NodeRecord :=
  MkNodeRecord (node_id n) (session_id n) (advertised_endpoint n) (protocol_version n) g
    (sampled_at_unix_ms n) (active_actor_count n) (max_actor_count n) (pressured n) (draining n).

(** ** Effects of the lease task *)
Inductive leaseE : Type -> Type :=
| Now : leaseE Z
| Rand : leaseE Z
| SleepUntilOrShutdown (wake_at : Z) : leaseE bool
| ReadAuthority : leaseE NodeAuthority
| WriteAuthority (a : NodeAuthority) : leaseE unit
| FenceRuntime : leaseE unit
| CapacityReadings : leaseE capacity_readings
| AcquireNode (timeout : Z) (n : NodeRecord) (ttl : Z)
    : leaseE (timed (result CoordinationError (MutationOutcome Revision)))
| RenewNode (timeout : Z) (n : NodeRecord) (ttl : Z) (rev : Revision)
    : leaseE (timed (result CoordinationError (MutationOutcome Revision)))
| ReadNodeLease (timeout : Z) (id : string)
    : leaseE (timed (result CoordinationError (option (NodeRecord * Revision)))).

Record RenewalTiming := MkTiming {
  ttl : Z;
  operation_timeout : Z;
  interval : Z
}.

(** [ServerRuntimeConfig::renewal_interval] *)
Definition renewal_interval (node_lease_ttl : Z) : Z := node_lease_ttl / 3.

(** The exit of the renewal task; [release] asks [ClusterTasks::shutdown] to
    delete the lease. *)
Record RenewalExit := MkExit {
  exit_node_id : string;
  exit_revision : Revision;
  release : bool
}.

(** What the tasks end in; [None]: they panicked. *)
Abbreviation renewal_result := (option ((NodeRecord * Revision) + RenewalExit)).

(** [confirm_node_lease] *)
Fixpoint confirm_attempts (n : nat) (expected : NodeRecord) (deadline operation_timeout : Z)
    : proc leaseE (option Revision) :=
  match n with
  | O => Ret None
  | S n =>
      call! now := Now;
      match checked_duration_since deadline now with
      | None => Ret None
      | Some remaining =>
          call! read_back := ReadNodeLease (Z.min operation_timeout remaining) (node_id expected);
          match read_back with
          | Ready (Ok (Some (node, revision))) =>
              if bool_decide (node = expected) then Ret (Some revision)
              else confirm_attempts n expected deadline operation_timeout
          | _ => confirm_attempts n expected deadline operation_timeout
          end
      end
  end.

Definition confirm_node_lease : NodeRecord -> Z -> Z -> proc leaseE (option Revision) :=
  confirm_attempts 3.

(** [is_valid] as the task performs it: the clock is read only while valid. *)
Definition check_valid : proc leaseE bool :=
  call! a := ReadAuthority;
  if valid a then call! now := Now; Ret (now <? deadline a)%Z else Ret false.

(** [authority.fence(); runtime.fence().await; return RenewalExit { release: false, .. }] *)
Definition fence_and_exit (n : NodeRecord) (rev : Revision)
    : proc leaseE renewal_result :=
  call! a := ReadAuthority;
  exec! WriteAuthority (fence a);
  exec! FenceRuntime;
  Ret (Some (inr (MkExit (node_id n) rev false))).

(** [authority.renew(operation_started)] *)
Definition renew_and_continue (n : NodeRecord) (rev : Revision) (operation_started : Z)
    : proc leaseE renewal_result :=
  call! a := ReadAuthority;
  match renew a operation_started with
  | Some a => exec! WriteAuthority a; Ret (Some (inl (n, rev)))
  | None => Ret None
  end.

(** One iteration of the loop of [spawn_lease_renewal]: [inl] carries the record
    and the revision into the next iteration. *)
Definition renewal_iteration (timing : RenewalTiming) (node : NodeRecord) (revision : Revision)
    : proc leaseE renewal_result :=
  call! r := Rand;
  call! now := Now;
  let renewal_due := (now + jittered (interval timing) r)%Z in
  call! a := ReadAuthority;
  let wake_at := Z.min renewal_due (deadline a) in
  call! shutdown := SleepUntilOrShutdown wake_at;
  if (shutdown : bool) then Ret (Some (inr (MkExit (node_id node) revision true))) else
  bind! ok := check_valid;
  if negb ok then fence_and_exit node revision else
  call! operation_started := Now;
  let node := with_generation node (saturating_add (lease_generation node) 1) in
  call! readings := CapacityReadings;
  let node := update_capacity_sample readings node in
  call! a := ReadAuthority;
  call! now := Now;
  match remaining a now with
  | None => fence_and_exit node revision
  | Some budget =>
      call! outcome := RenewNode (Z.min (operation_timeout timing) budget) node (ttl timing) revision;
      match outcome with
      | Ready (Ok (Applied next)) => renew_and_continue node next operation_started
      | Ready (Ok (Indeterminate _)) =>
          call! a := ReadAuthority;
          bind! confirmed := confirm_node_lease node (deadline a) (operation_timeout timing);
          match confirmed with
          | Some next => renew_and_continue node next operation_started
          | None => fence_and_exit node revision
          end
      | Ready (Ok Conflict) => fence_and_exit node revision
      | _ =>
          bind! ok := check_valid;
          if negb ok then fence_and_exit node revision else Ret (Some (inl (node, revision)))
      end
  end.

(** The loop, cut after [fuel] iterations: [inl] is the state it would go on with. *)
Fixpoint renewal_loop (fuel : nat) (timing : RenewalTiming) (node : NodeRecord) (revision : Revision)
    : proc leaseE renewal_result :=
  match fuel with
  | O => Ret (Some (inl (node, revision)))
  | S fuel =>
      bind! next := renewal_iteration timing node revision;
      match next with
      | Some (inl (node, revision)) => renewal_loop fuel timing node revision
      | next => Ret next
      end
  end.

(** ** Startup: the lease part of [ServerStarter::start] *)
Inductive lease_start_error :=
| LeaseConflict
| LeaseUnconfirmed
| StartCoordination (e : CoordinationError).

#[export] Instance lease_start_error_eq_dec : EqDecision lease_start_error.
Proof. solve_decision. Defined.

Abbreviation start_result := (option (result lease_start_error Revision)).

Definition acquire_lease (node : NodeRecord) (node_lease_ttl coordination_timeout : Z)
    : proc leaseE start_result :=
  call! authority_started := Now;
  call! acquired := AcquireNode (Z.min coordination_timeout node_lease_ttl) node node_lease_ttl;
  let install (revision : Revision) : proc leaseE start_result :=
    match authority_new authority_started node_lease_ttl with
    | Some authority =>
        exec! WriteAuthority authority;
        bind! ok := check_valid;
        Ret (Some (if negb ok then Err LeaseUnconfirmed else Ok revision))
    | None => Ret None
    end in
  match acquired with
  | Elapsed => Ret (Some (Err LeaseUnconfirmed))
  | Ready (Err e) => Ret (Some (Err (StartCoordination e)))
  | Ready (Ok (Applied revision)) => install revision
  | Ready (Ok Conflict) => Ret (Some (Err LeaseConflict))
  | Ready (Ok (Indeterminate _)) =>
      match instant_add authority_started node_lease_ttl with
      | Some deadline =>
          bind! confirmed := confirm_node_lease node deadline coordination_timeout;
          match confirmed with
          | Some revision => install revision
          | None => Ret (Some (Err LeaseUnconfirmed))
          end
      | None => Ret None
      end
  end.

(** ** The discipline of the lease task *)
Definition same_identity (n n' : NodeRecord) : Prop :=
  node_id n' = node_id n /\ session_id n' = session_id n /\
  advertised_endpoint n' = advertised_endpoint n /\ protocol_version n' = protocol_version n.

Record lease_ghost := MkLeaseGhost {
  l_authority : option NodeAuthority;
  l_now : Z;                            (* the last clock reading *)
  l_issued : option (Z * NodeRecord);   (* the last lease write: its issue time, its record *)
  l_proof : option Z;                   (* issue time of the last confirmed lease write *)
  l_revision : option Revision;         (* its revision *)
  l_conflict : bool;                    (* a write was refused *)
  l_fenced : bool;                      (* the runtime was fenced *)
  l_shutdown : bool                     (* a shutdown was requested *)
}.

(** Authority may be given up, or extended to [ttl] after the issue of a
    confirmed write and no further. *)
Definition may_write_authority (T : Z) (g : lease_ghost) (a : NodeAuthority) : Prop :=
  authority_ttl a = T /\
  ((exists a0, l_authority g = Some a0 /\ a = fence a0) \/
   (exists s, l_proof g = Some s /\ (deadline a <= s + T)%Z /\ fenced_sent a = false /\
              match l_authority g with Some a0 => valid a = valid a0 | None => True end)).

(** A lease write is for this node's session, made while authority holds, and
    its wait ends before authority does. *)
Definition may_write_lease (self : NodeRecord) (T : Z) (g : lease_ghost) (timeout : Z)
    (n : NodeRecord) (ttl : Z) : Prop :=
  same_identity self n /\ ttl = T /\
  match l_authority g with
  | Some a => valid a = true /\ (l_now g + timeout <= deadline a)%Z
  | None => (timeout <= T)%Z
  end.

(** A renewal replaces the last confirmed write, and its record is one
    generation after the last one issued. *)
Definition may_replace (g : lease_ghost) (n : NodeRecord) (rev : Revision) : Prop :=
  l_revision g = Some rev /\
  exists s n0, l_issued g = Some (s, n0) /\
               lease_generation n = saturating_add (lease_generation n0) 1.

Definition lease_allowed (self : NodeRecord) (T : Z) X (g : lease_ghost) (e : leaseE X) : Prop :=
  match e with
  | WriteAuthority a => may_write_authority T g a
  | AcquireNode timeout n ttl => may_write_lease self T g timeout n ttl /\ l_issued g = None /\ n = self
  | RenewNode timeout n ttl rev => may_write_lease self T g timeout n ttl /\ may_replace g n rev
  | ReadNodeLease timeout id => id = node_id self
  | SleepUntilOrShutdown wake_at =>
      exists a, l_authority g = Some a /\ (wake_at <= deadline a)%Z
  | FenceRuntime => exists a, l_authority g = Some a /\ valid a = false
  | _ => True
  end.

Definition with_authority (g : lease_ghost) (a : NodeAuthority) : lease_ghost :=
  MkLeaseGhost (Some a) (l_now g) (l_issued g) (l_proof g) (l_revision g) (l_conflict g) (l_fenced g) (l_shutdown g).
Definition with_now (g : lease_ghost) (t : Z) : lease_ghost :=
  MkLeaseGhost (l_authority g) t (l_issued g) (l_proof g) (l_revision g) (l_conflict g) (l_fenced g) (l_shutdown g).
Definition with_write (g : lease_ghost) (n : NodeRecord)
    (t : timed (result CoordinationError (MutationOutcome Revision))) : lease_ghost :=
  MkLeaseGhost (l_authority g) (l_now g) (Some (l_now g, n))
    (match t with Ready (Ok (Applied _)) => Some (l_now g) | _ => None end)
    (match t with Ready (Ok (Applied r)) => Some r | _ => l_revision g end)
    (match t with Ready (Ok Conflict) => true | _ => l_conflict g end)
    (l_fenced g) (l_shutdown g).
Definition with_read_back (g : lease_ghost)
    (t : timed (result CoordinationError (option (NodeRecord * Revision)))) : lease_ghost :=
  MkLeaseGhost (l_authority g) (l_now g) (l_issued g)
    (match t, l_issued g with
     | Ready (Ok (Some (n, _))), Some (s, n') => if bool_decide (n = n') then Some s else l_proof g
     | _, _ => l_proof g
     end)
    (match t, l_issued g with
     | Ready (Ok (Some (n, r))), Some (_, n') => if bool_decide (n = n') then Some r else l_revision g
     | _, _ => l_revision g
     end)
    (l_conflict g) (l_fenced g) (l_shutdown g).

(** Replies are arbitrary, but the clock does not run backwards and the
    authority reads back as it was written. *)
Definition lease_observe X (g : lease_ghost) (e : leaseE X) : X -> lease_ghost -> Prop :=
  match e in leaseE X return X -> lease_ghost -> Prop with
  | Now => fun t g' => (l_now g <= t)%Z /\ g' = with_now g t
  | Rand => fun r g' => (0 <= r <= U16_MAX)%Z /\ g' = g
  | SleepUntilOrShutdown _ => fun b g' =>
      g' = if b then MkLeaseGhost (l_authority g) (l_now g) (l_issued g) (l_proof g) (l_revision g) (l_conflict g)
                       (l_fenced g) true else g
  | ReadAuthority => fun a g' => l_authority g = Some a /\ g' = g
  | WriteAuthority a => fun _ g' => g' = with_authority g a
  | FenceRuntime => fun _ g' =>
      g' = MkLeaseGhost (l_authority g) (l_now g) (l_issued g) (l_proof g) (l_revision g) (l_conflict g) true (l_shutdown g)
  | CapacityReadings => fun r g' => g' = g
  | AcquireNode _ n _ => fun t g' => g' = with_write g n t
  | RenewNode _ n _ _ => fun t g' => g' = with_write g n t
  | ReadNodeLease _ _ => fun t g' => g' = with_read_back g t
  end.

Definition lease_monitor (self : NodeRecord) (T : Z) : monitor leaseE lease_ghost :=
  Monitor leaseE lease_ghost (lease_allowed self T) lease_observe.

(** Authority is held, not fenced. *)
Definition serving (T : Z) (g : lease_ghost) : Prop :=
  exists a, l_authority g = Some a /\ authority_ttl a = T /\ valid a = true /\
            fenced_sent a = false /\ l_conflict g = false /\ l_fenced g = false /\ l_shutdown g = false.

(** The record and the revision the loop carries: the last one issued, and the
    one last confirmed. *)
Definition carries (g : lease_ghost) (n : NodeRecord) (rev : Revision) : Prop :=
  (exists s, l_issued g = Some (s, n)) /\ l_revision g = Some rev.

(** The addition that extends authority, after a lease write that is confirmed or
    may have been, is beyond what an instant can hold. *)
Definition too_far (T : Z) (g : lease_ghost) : Prop :=
  l_conflict g = false /\ l_fenced g = false /\
  exists s n, l_issued g = Some (s, n) /\ (INSTANT_MAX < s + T)%Z.

(** What an iteration ends in: it goes on serving; or it was asked to shut down
    and leaves the lease for release; or authority is gone for good, the waiter
    was notified, the runtime is fenced, and the lease is left alone; or it panics
    as it extends authority. *)
Definition iteration_post (self : NodeRecord) (T : Z) (r : renewal_result) (g : lease_ghost) : Prop :=
  match r with
  | Some (inl (n, rev)) => same_identity self n /\ serving T g /\ carries g n rev
  | Some (inr e) =>
      exit_node_id e = node_id self /\ l_revision g = Some (exit_revision e) /\
      if release e then l_shutdown g = true /\ l_fenced g = false
      else l_fenced g = true /\ l_shutdown g = false /\
           exists a, l_authority g = Some a /\ valid a = false /\ fenced_sent a = true
  | None => serving T g /\ too_far T g
  end.

(** ** Lemmas *)
Lemma same_identity_refl n : same_identity n n.
Proof. by split_and!. Qed.

Lemma same_identity_sample self n g r :
  same_identity self n -> same_identity self (update_capacity_sample r (with_generation n g)).
Proof. done. Qed.

#[export] Hint Resolve same_identity_refl same_identity_sample : coactor.

Lemma jittered_bounds interval r :
  (0 <= interval)%Z ->
  (interval * 4 <= 5 * jittered interval r + 2)%Z /\
  (5 * jittered interval r <= interval * 6 + 2)%Z.
Proof.
  intros Hi. unfold jittered. pose proof (Z.mod_pos_bound r 401 ltac:(lia)).
  pose proof (Z.div_mod (interval * (800 + r mod 401) + 500) 1000 ltac:(lia)).
  pose proof (Z.mod_pos_bound (interval * (800 + r mod 401) + 500) 1000 ltac:(lia)).
  split; nia.
Qed.

(** One step of a lease goal. *)
Ltac lease_step :=
  cbn [wp lease_monitor allowed observe lease_allowed lease_observe];
  split; [| let x := fresh "x" in let g := fresh "g" in let Hg := fresh "Hg" in
            intros x g Hg; cbn beta in Hg].

Section lease.
Context (self : NodeRecord) (T : Z).

Lemma fence_and_exit_wp n rev g a :
  same_identity self n -> l_revision g = Some rev ->
  l_authority g = Some a -> authority_ttl a = T -> valid a = true -> l_shutdown g = false ->
  wp (lease_monitor self T) g (fence_and_exit n rev) (iteration_post self T).
Proof.
  intros (Hid & _) Hr Ha HT Hv Hs. unfold fence_and_exit.
  lease_step; [done |]. destruct Hg as [Hx ->].
  assert (x = a) as -> by congruence.
  lease_step. { split; [by unfold fence; rewrite Hv | left; eauto]. } subst g0.
  assert (valid (fence a) = false /\ fenced_sent (fence a) = true) as [Hv' Hf'].
  { unfold fence. by rewrite Hv. }
  lease_step; [by exists (fence a) |]. subst g0.
  split; [exact Hid |]. split; [done |]. split; [done |]. split; [done |]. by exists (fence a).
Qed.

Lemma fence_while_serving_wp n rev g :
  same_identity self n -> l_revision g = Some rev -> serving T g ->
  wp (lease_monitor self T) g (fence_and_exit n rev) (iteration_post self T).
Proof.
  intros Hid Hr (a & Ha & HT & Hv & _ & _ & _ & Hs). by eapply fence_and_exit_wp.
Qed.

Lemma check_valid_wp g (Q : bool -> lease_ghost -> Prop) :
  serving T g ->
  (forall t, (l_now g <= t)%Z -> Q true (with_now g t)) ->
  (forall t, (l_now g <= t)%Z -> Q false (with_now g t)) ->
  wp (lease_monitor self T) g check_valid Q.
Proof.
  intros (a & Ha & _ & Hv & _) Ht Hf. unfold check_valid.
  lease_step; [done |]. destruct Hg as [Hx ->].
  assert (x = a) as -> by congruence. rewrite Hv.
  lease_step; [done |]. destruct Hg as [Hle ->]. cbn. destruct (Z.ltb _ _); auto.
Qed.

(** The read-back after an indeterminate write: a confirmation is a proof for
    the write it reads back, and gives its revision. *)
Lemma confirm_attempts_wp n expected dl to g s (Q : option Revision -> lease_ghost -> Prop) :
  node_id expected = node_id self ->
  l_issued g = Some (s, expected) ->
  (forall r g', l_authority g' = l_authority g -> l_conflict g' = l_conflict g ->
                l_fenced g' = l_fenced g -> l_shutdown g' = l_shutdown g ->
                l_issued g' = l_issued g ->
                match r with
                | Some rev => l_proof g' = Some s /\ l_revision g' = Some rev
                | None => l_revision g' = l_revision g
                end -> Q r g') ->
  wp (lease_monitor self T) g (confirm_attempts n expected dl to) Q.
Proof.
  intros Hid. revert g. induction n as [| n IH]; intros g Hi HQ.
  { by apply HQ. }
  cbn [confirm_attempts]. lease_step; [done |]. destruct Hg as [_ ->].
  destruct (checked_duration_since dl x) as [rem |]; [| by apply HQ].
  lease_step; [done |]. subst g0.
  assert (Hrec : l_revision (with_read_back (with_now g x) x0) = l_revision g ->
                 wp (lease_monitor self T) (with_read_back (with_now g x) x0)
                   (confirm_attempts n expected dl to) Q).
  { intros Hr. apply IH; [done |]. intros r g' Ha Hc Hf Hs Hi' Hp.
    rewrite Hr in Hp. by apply HQ. }
  destruct x0 as [| [[[n' r] |] |]]; [by apply Hrec | | by apply Hrec | by apply Hrec].
  cbn [with_read_back with_now l_revision l_issued l_proof] in Hrec |- *.
  case_bool_decide as He.
  - subst n'. apply HQ; try done. cbn. rewrite Hi. by rewrite bool_decide_eq_true_2.
  - apply Hrec. cbn. rewrite Hi. by rewrite bool_decide_eq_false_2 by congruence.
Qed.

Lemma instant_add_spec t d :
  (t + d <= INSTANT_MAX)%Z /\ instant_add t d = Some (t + d)%Z \/ (INSTANT_MAX < t + d)%Z /\ instant_add t d = None.
Proof. unfold instant_add. destruct (Z.leb_spec (t + d) INSTANT_MAX); [by left | by right]. Qed.

Lemma renew_and_continue_wp n rev started s g :
  same_identity self n -> serving T g -> l_issued g = Some (s, n) -> l_revision g = Some rev ->
  l_proof g = Some s -> (started <= s)%Z ->
  wp (lease_monitor self T) g (renew_and_continue n rev started) (iteration_post self T).
Proof.
  intros Hid Hser Hi Hr Hp Hle. pose proof Hser as (a & Ha & HT & Hv & Hf & Hc & Hfr & Hs). unfold renew_and_continue.
  lease_step; [done |]. destruct Hg as [Hx ->].
  assert (x = a) as -> by congruence. unfold renew.
  destruct (instant_add_spec started (authority_ttl a)) as [[_ ->] | [Hfar ->]]; cbn [mbind option_bind].
  - lease_step.
    { split; [done |]. right. exists s. split_and!; [done | cbn; lia | done |]. by rewrite Ha. }
    subst g0. split; [done |]. split; [eexists; by split_and! | split; [by exists s | done]].
  - split; [done |]. split_and!; [done | done |]. exists s, n. split; [done | lia].
Qed.

(** After an attempt that confirmed nothing: the loop goes on while authority
    lasts. *)
Lemma retry_wp n rev g :
  same_identity self n -> serving T g -> carries g n rev ->
  wp (lease_monitor self T) g
    (bind! ok := check_valid;
     if negb ok then fence_and_exit n rev else Ret (Some (inl (n, rev)))) (iteration_post self T).
Proof.
  intros Hid Hs Hcar. apply wp_bind, check_valid_wp; [done | |]; intros t Ht.
  - by split_and!.
  - apply fence_while_serving_wp; [done | apply Hcar | done].
Qed.

Lemma renewal_iteration_wp timing n rev g :
  ttl timing = T ->
  same_identity self n -> serving T g -> carries g n rev ->
  wp (lease_monitor self T) g (renewal_iteration timing n rev) (iteration_post self T).
Proof.
  intros HT Hid Hserv Hcar. pose proof Hserv as (a & Ha & HaT & Hv & Hf & Hc & Hfr & Hs).
  pose proof Hcar as [[s0 Hiss] Hrev].
  unfold renewal_iteration. set (n2 := with_generation n _).
  lease_step; [done |]. destruct Hg as [_ ->].
  lease_step; [done |]. destruct Hg as [_ ->].
  lease_step; [done |]. destruct Hg as [Hx ->]. assert (x1 = a) as -> by (cbn in Hx; congruence).
  lease_step. { exists a. split; [done | lia]. }
  destruct x1; subst g0.
  { cbn. destruct Hid as [Hid _]. done. }
  apply wp_bind, check_valid_wp; [done | | intros; by apply fence_while_serving_wp].
  intros t Ht. cbn [negb].
  lease_step; [done |]. destruct Hg as [Hstart ->]. rename x1 into started.
  lease_step; [done |]. subst g0.
  lease_step; [done |]. destruct Hg as [Hx' ->]. assert (x2 = a) as -> by (cbn in Hx'; congruence).
  lease_step; [done |]. destruct Hg as [Hnow ->]. cbn in Hnow.
  unfold remaining, checked_duration_since. destruct (Z.leb_spec x2 (deadline a)); [| by apply fence_while_serving_wp].
  set (n3 := update_capacity_sample x1 n2).
  assert (Hid3 : same_identity self n3) by (by apply same_identity_sample).
  lease_step.
  { split; [split_and!; [done .. |]; cbn; rewrite Ha; split; [done | lia] |].
    split; [done |]. by exists s0, n. }
  subst g0. destruct x3 as [| [[next | | e] | e]].
  - apply retry_wp; [done | by exists a | by split; [eexists |]].
  - eapply renew_and_continue_wp; [done | by exists a | done | done | done | cbn; lia].
  - by eapply fence_and_exit_wp.
  - lease_step; [done |]. destruct Hg as [Hx2 ->]. apply wp_bind.
    eapply confirm_attempts_wp; [exact (proj1 Hid3) | done |].
    intros r g' Ha' Hc' Hf' Hs' Hi' Hp'. cbn in Ha', Hc', Hf', Hs', Hi'. destruct r as [next |].
    + eapply renew_and_continue_wp; [done | exists a; split_and!; congruence | exact Hi' | by apply Hp' | by apply Hp' | cbn; lia].
    + apply (fence_and_exit_wp _ _ _ a); try done; cbn in Hp'; congruence.
  - apply retry_wp; [done | by exists a | by split; [eexists |]].
Qed.

Lemma renewal_loop_wp fuel timing n rev g :
  ttl timing = T ->
  same_identity self n -> serving T g -> carries g n rev ->
  wp (lease_monitor self T) g (renewal_loop fuel timing n rev) (iteration_post self T).
Proof.
  intros HT. revert n rev g. induction fuel as [| fuel IH]; intros n rev g Hid Hs Hcar; [done |].
  cbn [renewal_loop]. apply wp_bind.
  eapply wp_mono; [| by apply renewal_iteration_wp].
  intros [[[n' rev'] | e] |] g' Hpost; [| done | done]. destruct Hpost as (Hid' & Hs' & Hcar').
  change (wp (lease_monitor self T) g' (renewal_loop fuel timing n' rev') (iteration_post self T)).
  by apply IH.
Qed.

(** Startup ends with authority installed and the state the loop starts from,
    with an error, or in a panic after the lease was asked for. *)
Definition start_post (r : start_result) (g : lease_ghost) : Prop :=
  match r with
  | Some (Ok rev) => serving T g /\ carries g self rev
  | Some (Err e) => l_fenced g = false /\ l_conflict g = bool_decide (e = LeaseConflict) /\
             (e <> LeaseUnconfirmed -> l_authority g = None)
  | None => l_authority g = None /\ too_far T g
  end.

Definition lease_ghost0 : lease_ghost := MkLeaseGhost None 0 None None None false false false.

Lemma acquire_lease_wp timeout :
  wp (lease_monitor self T) lease_ghost0 (acquire_lease self T timeout) start_post.
Proof.
  unfold acquire_lease.
  lease_step; [done |]. destruct Hg as [_ ->]. rename x into started.
  lease_step. { split; [split_and!; [done.. |] |]; cbn; [lia | by split]. } subst g.
  assert (Hinstall : forall g rev,
    l_authority g = None -> l_conflict g = false -> l_fenced g = false -> l_shutdown g = false ->
    l_proof g = Some started -> l_issued g = Some (started, self) -> l_revision g = Some rev ->
    wp (lease_monitor self T) g
      (match authority_new started T with
       | Some authority => exec! WriteAuthority authority; bind! ok := check_valid;
                           Ret (Some (if negb ok then Err LeaseUnconfirmed else Ok rev))
       | None => Ret None
       end) start_post).
  { intros g rev Ha Hc Hf Hs Hp Hi Hr. unfold authority_new.
    destruct (instant_add_spec started T) as [[_ ->] | [Hfar ->]]; cbn [mbind option_bind].
    2: { split; [done |]. split_and!; [done | done |]. by exists started, self. }
    lease_step.
    { split; [done |]. right. exists started. rewrite Ha. split_and!; [done | cbn; lia | done | done]. }
    subst g0. apply wp_bind, check_valid_wp; [by eexists | |]; intros t Ht; [| done].
    split; [by eexists | split; [by exists started | done]]. }
  destruct x as [| [[rev | | e] | e]]; [done | by apply Hinstall | done | | done].
  destruct (instant_add_spec started T) as [[_ ->] | [Hfar ->]].
  2: { split; [done |]. split_and!; [done | done |]. by exists started, self. }
  apply wp_bind. eapply confirm_attempts_wp; [done | done |].
  intros r g' Ha Hc Hf Hs Hi Hp. cbn in Ha, Hc, Hf, Hs, Hi. destruct r as [next |]; [| done].
  destruct Hp as [Hp Hr]. by apply Hinstall.
Qed.
End lease.

(** The life of a node's lease: startup, then the renewal task (cut after
    [fuel] iterations); [None]: one of them panicked. *)
Abbreviation lease_result := (option (result lease_start_error ((NodeRecord * Revision) + RenewalExit))).

Definition lease_life (fuel : nat) (timing : RenewalTiming) (node : NodeRecord) : proc leaseE lease_result :=
  bind! started := acquire_lease node (ttl timing) (operation_timeout timing);
  match started with
  | None => Ret None
  | Some (Err e) => Ret (Some (Err e))
  | Some (Ok revision) => bind! r := renewal_loop fuel timing node revision; Ret (Ok <$> r)
  end.

(** What the life of a lease ends in. *)
Definition life_post (self : NodeRecord) (T : Z) (r : lease_result) (g : lease_ghost) : Prop :=
  match r with
  | Some (Ok r) => iteration_post self T (Some r) g
  | Some (Err e) => l_fenced g = false /\ l_conflict g = bool_decide (e = LeaseConflict) /\
             (e <> LeaseUnconfirmed -> l_authority g = None)
  | None => too_far T g
  end.

Lemma lease_life_wp fuel timing node :
  wp (lease_monitor node (ttl timing)) lease_ghost0 (lease_life fuel timing node)
    (life_post node (ttl timing)).
Proof.
  apply wp_bind. eapply wp_mono; [| apply acquire_lease_wp].
  intros [[rev | e] |] g Hpost; [| exact Hpost | apply Hpost].
  destruct Hpost as [Hs Hcar]. apply wp_bind.
  eapply wp_mono; [| apply renewal_loop_wp; [done | apply same_identity_refl | exact Hs | exact Hcar]].
  intros [r |] g' Hr; [exact Hr | apply Hr].
Qed.

(** ** Properties *)

(** For any replies of the store and any behaviour of the clock that does
    not run backwards, a node's lease task writes only leases of its own session,
    issues a renewal only while it holds authority and waits for it no longer than
    authority lasts, over the revision it last confirmed and one generation after
    the record it last issued, extends authority only to the TTL after the issue
    of a write the store confirmed (directly or by an exact read-back), fences the
    runtime only after giving authority up, and leaves its loop only by a requested
    shutdown (the lease is then released at its last confirmed revision) or with
    authority invalid, the waiter notified, the runtime fenced and the lease left
    alone, or by a panic, when the TTL added to an instant is beyond what an
    instant can hold. *)
Theorem lease_life_discipline (fuel : nat) (timing : RenewalTiming) (node : NodeRecord) :
  wp (lease_monitor node (ttl timing)) lease_ghost0 (lease_life fuel timing node)
    (life_post node (ttl timing)).
Proof. apply lease_life_wp. Qed.

(** A fence is final: whatever renewals and further fences follow, the
    authority is never valid again, and its waiter has been notified. *)
Theorem fence_is_final (a : NodeAuthority) (ops : list (option Z)) (now : Z) :
  let step a (o : option Z) := match o with Some t => default a (renew a t) | None => fence a end in
  let a' := fold_left step ops (fence a) in
  is_valid a' now = false /\ (valid a = true -> fenced_sent a' = true).
Proof.
  cbn zeta. assert (H : valid (fence a) = false /\ (valid a = true -> fenced_sent (fence a) = true)).
  { unfold fence. destruct (valid a); split; done. }
  revert H. generalize (fence a). induction ops as [| o ops IH]; intros b [Hv Hf]; cbn [fold_left].
  - split; [unfold is_valid; by rewrite Hv | done].
  - apply IH. destruct o as [t |]; [unfold renew; by destruct (instant_add t _) |]. unfold fence. rewrite Hv. by split.
Qed.

(** With the default schedule (a third of the TTL, jittered by a factor in
    [0.8, 1.2]) two full renewal periods end before the lease does, for any
    random draw and any TTL of at least 5 ns: one lost renewal does not cost the
    node its lease. *)
Theorem two_renewals_fit (node_lease_ttl r1 r2 : Z) :
  (5 <= node_lease_ttl)%Z ->
  let due r := jittered (renewal_interval node_lease_ttl) r in
  (0 <= due r1)%Z /\ (due r1 + due r2 <= node_lease_ttl)%Z /\
  (4 * node_lease_ttl - 14 <= 15 * due r1)%Z.
Proof.
  intros Httl. cbn zeta. unfold renewal_interval.
  pose proof (Z.div_mod node_lease_ttl 3 ltac:(lia)). pose proof (Z.mod_pos_bound node_lease_ttl 3 ltac:(lia)).
  pose proof (jittered_bounds (node_lease_ttl / 3) r1 ltac:(lia)).
  pose proof (jittered_bounds (node_lease_ttl / 3) r2 ltac:(lia)). lia.
Qed.

Lemma two_renewals_fit_witness :
  (0 <= jittered (renewal_interval 15000) 7)%Z /\
  (jittered (renewal_interval 15000) 7 + jittered (renewal_interval 15000) 65535 <= 15000)%Z /\
  (4 * 15000 - 14 <= 15 * jittered (renewal_interval 15000) 7)%Z.
Proof. apply (two_renewals_fit 15000 7 65535). lia. Defined.
