(* ===== verification/Fencing.v ===== *)
(** * Fencing: the leases of a node id in time

    Runs any number of sessions of one node id ([Lease.lease_life], so
    [ServerStarter::start] and [spawn_lease_renewal]) at the same time against
    the lease register of that id ([Register.acquire_replies],
    [Register.cas_replies], [Register.live_replies]).  Time passes between any
    two calls; a wall clock reads, in milliseconds, within [skew] of it; writes
    whose reply was lost land at any later time or never; a released lease is
    deleted as [ClusterTasks::shutdown] does.  The theorems say how far two
    sessions can hold authority at once, and how long a session that the store
    no longer shows can go on serving. *)

From S2P Require Import Prelude Text Address Coordination Lease.

(** ** The world *)

(** A lease write whose reply was lost: its record, the expiry it would set and
    the revision it expects. *)
Record lease_write := MkLeaseWrite {
  lw_record : NodeRecord;
  lw_expiry : Z;
  lw_expected : option Revision
}.

(** A session: its record at startup, its schedule, when its pending call was
    issued, the authority it shares with its runtime, and what it has left to do. *)
Record lease_thread := MkLeaseThread {
  lt_self : NodeRecord;
  lt_timing : RenewalTiming;
  lt_since : Z;
  lt_authority : option NodeAuthority;
  lt_proc : proc leaseE lease_result
}.

Record lease_world := MkLeaseWorld {
  clock : Z;
  lease_hist : Register.history (NodeRecord * Z);
  sessions : list lease_thread;
  lost_writes : list lease_write
}.

Definition with_clock (w : lease_world) (t : Z) : lease_world :=
  MkLeaseWorld t (lease_hist w) (sessions w) (lost_writes w).
Definition with_lease_hist (w : lease_world) (h : Register.history (NodeRecord * Z)) : lease_world :=
  MkLeaseWorld (clock w) h (sessions w) (lost_writes w).
Definition with_sessions (w : lease_world) (l : list lease_thread) : lease_world :=
  MkLeaseWorld (clock w) (lease_hist w) l (lost_writes w).
Definition with_lost_writes (w : lease_world) (l : list lease_write) : lease_world :=
  MkLeaseWorld (clock w) (lease_hist w) (sessions w) l.

Definition session_of (v : Versioned (NodeRecord * Z)) : string := session_id (record v).1.
Definition expiry_of (v : Versioned (NodeRecord * Z)) : Z := (record v).2.
Definition generation_of (v : Versioned (NodeRecord * Z)) : Z := lease_generation (record v).1.

(** A record that was stored, or may still be, with this expiry. *)
Definition written (w : lease_world) (n : NodeRecord) (e : Z) : Prop :=
  (exists r, Some (MkVersioned (n, e) r) ∈ lease_hist w) \/
  (exists expected, MkLeaseWrite n e expected ∈ lost_writes w).

(** A fresh session: nobody uses its id ([NodeSessionId::generate] draws a UUID). *)
Definition session_unused (w : lease_world) (s : string) : Prop :=
  (forall th, th ∈ sessions w -> session_id (lt_self th) <> s) /\
  (forall n e, written w n e -> session_id n <> s).

Definition starting (fuel : nat) (timing : RenewalTiming) (node : NodeRecord) (now : Z) : lease_thread :=
  MkLeaseThread node timing now None (lease_life fuel timing node).

(** The exit of a session that was asked to shut down. *)
Definition release_exit (th : lease_thread) : option RenewalExit :=
  match lt_proc th with
  | Ret (Some (Ok (inr e))) => if release e then Some e else None
  | _ => None
  end.

Section world.
Context (skew : Z) (id : string).

(** A reading of a wall clock, in milliseconds, between two instants. *)
Definition wall_between (t1 t2 u : Z) : Prop :=
  (t1 / MILLI - skew <= u)%Z /\ (u <= t2 / MILLI + skew)%Z.

(** What becomes of an acquisition or a renewal: it landed now, or its reply is
    lost and it will land later, once, several times or never. *)
Definition acquisition_landed (w : lease_world) (since : Z) (n : NodeRecord) (ttl : Z) (r : Revision)
    (w' : lease_world) : Prop :=
  exists t t' h', wall_between since (clock w) t /\ wall_between since (clock w) t' /\
    Register.acquires (lease_hist w) n (ttl / MILLI) t t' r h' /\ w' = with_lease_hist w h'.

Definition acquisition_lost (w : lease_world) (since : Z) (n : NodeRecord) (ttl : Z)
    (w' : lease_world) : Prop :=
  exists t t' expected, wall_between since (clock w) t /\ wall_between since (clock w) t' /\
    match expected with
    | None => True
    | Some r => exists v, Some v ∈ lease_hist w /\ revision v = r /\ (expiry_of v <= t)%Z
    end /\
    w' = with_lost_writes w (MkLeaseWrite n (t' + ttl / MILLI) expected :: lost_writes w).

Definition renewal_landed (w : lease_world) (since : Z) (n : NodeRecord) (ttl : Z) (rev r : Revision)
    (w' : lease_world) : Prop :=
  exists t' h', wall_between since (clock w) t' /\
    Register.writes (lease_hist w) (n, (t' + ttl / MILLI)%Z) (Some rev) r h' /\
    w' = with_lease_hist w h'.

Definition renewal_lost (w : lease_world) (since : Z) (n : NodeRecord) (ttl : Z) (rev : Revision)
    (w' : lease_world) : Prop :=
  exists t', wall_between since (clock w) t' /\
    w' = with_lost_writes w (MkLeaseWrite n (t' + ttl / MILLI) (Some rev) :: lost_writes w).

(** What a read of the lease says when its reply arrives: the store looked and
    then read a clock, both after the call was issued.  A lease it reports was
    stored, and had not expired by that clock; that it reports none says nothing
    of now, for the lease may have been renewed since the store looked. *)
Definition read_back_replies (w : lease_world) (since : Z)
    (reply : result CoordinationError (option (NodeRecord * Revision))) : Prop :=
  match reply with
  | Ok (Some (n, r)) =>
      exists e u, Some (MkVersioned (n, e) r) ∈ lease_hist w /\ wall_between since (clock w) u /\ (u < e)%Z
  | _ => True
  end.

(** The replies of a call issued at [since], what it changes in the store, and
    the authority after it. *)
Definition lease_replies (w : lease_world) (since : Z) (auth : option NodeAuthority) X (e : leaseE X)
    : X -> lease_world -> option NodeAuthority -> Prop :=
  match e in leaseE X return X -> lease_world -> option NodeAuthority -> Prop with
  | Now => fun t w' auth' => t = clock w /\ w' = w /\ auth' = auth
  | Rand => fun r w' auth' => (0 <= r <= U16_MAX)%Z /\ w' = w /\ auth' = auth
  | SleepUntilOrShutdown wake_at => fun b w' auth' =>
      (b = false -> (wake_at <= clock w)%Z) /\ w' = w /\ auth' = auth
  | ReadAuthority => fun a w' auth' => auth = Some a /\ w' = w /\ auth' = auth
  | WriteAuthority a => fun _ w' auth' => w' = w /\ auth' = Some a
  | FenceRuntime => fun _ w' auth' => w' = w /\ auth' = auth
  | CapacityReadings => fun _ w' auth' => w' = w /\ auth' = auth
  | AcquireNode _ n ttl => fun t w' auth' =>
      auth' = auth /\
      match t with
      | Ready (Ok (Applied r)) => acquisition_landed w since n ttl r w'
      | _ => w' = w \/ (exists r, acquisition_landed w since n ttl r w') \/
             acquisition_lost w since n ttl w'
      end
  | RenewNode _ n ttl rev => fun t w' auth' =>
      auth' = auth /\
      match t with
      | Ready (Ok (Applied r)) => renewal_landed w since n ttl rev r w'
      | _ => w' = w \/ (exists r, renewal_landed w since n ttl rev r w') \/
             renewal_lost w since n ttl rev w'
      end
  | ReadNodeLease _ _ => fun t w' auth' =>
      w' = w /\ auth' = auth /\
      match t with
      | Ready reply => read_back_replies w since reply
      | Elapsed => True
      end
  end.

(** A session that stops taking steps has crashed. *)
Inductive lease_world_step : lease_world -> lease_world -> Prop :=
| lease_tick w t :
    (clock w <= t)%Z ->
    lease_world_step w (with_clock w t)
| lease_start w fuel timing node :
    node_id node = id -> session_unused w (session_id node) ->
    lease_world_step w (with_sessions w (sessions w ++ [starting fuel timing node (clock w)]))
| lease_call w w' i self timing since auth auth' X (e : leaseE X) k x :
    sessions w !! i = Some (MkLeaseThread self timing since auth (Call e k)) ->
    lease_replies w since auth X e x w' auth' ->
    lease_world_step w (with_sessions w'
      (<[i := MkLeaseThread self timing (clock w) auth' (k x)]> (sessions w')))
| lease_land w lw r h' :
    lw ∈ lost_writes w ->
    Register.writes (lease_hist w) (lw_record lw, lw_expiry lw) (lw_expected lw) r h' ->
    lease_world_step w (with_lease_hist w h')
| lease_release w i th e reply h' :
    sessions w !! i = Some th -> release_exit th = Some e ->
    Register.delete_replies (lease_hist w) (exit_revision e) reply h' ->
    lease_world_step w (with_lease_hist w h').

Definition empty_lease_world (now : Z) : lease_world := MkLeaseWorld now [] [] [].

(** No generation has reached the width of its field. *)
Definition unsaturated (w : lease_world) : Prop :=
  forall n e, written w n e -> (lease_generation n < U64_MAX)%Z.

(** ** The invariant *)

(** The least expiry of a write issued at [s]. *)
Definition expires_from (T s : Z) : Z := (s / MILLI - skew + T / MILLI)%Z.

(** A confirmed write of session [x] issued at [s] backs its authority: every
    later write of the session expires no earlier, and as long as no wall clock
    has passed that expiry the lease is the session's. *)
Definition backed (w : lease_world) (x : string) (T s : Z) : Prop :=
  exists G,
    (forall n e, written w n e -> session_id n = x -> (G <= lease_generation n)%Z ->
                 (expires_from T s <= e)%Z) /\
    ((clock w / MILLI + skew < expires_from T s)%Z ->
     exists v, Register.current (lease_hist w) = Some v /\ session_of v = x /\
               (G <= generation_of v)%Z).

(** What a lost write expects: nothing, an expired lease, or an earlier write of
    its own session. *)
Definition flight_ok (w : lease_world) (lw : lease_write) : Prop :=
  match lw_expected lw with
  | None => True
  | Some r =>
      exists v, Some v ∈ lease_hist w /\ revision v = r /\
        ((expiry_of v <= clock w / MILLI + skew)%Z \/
         (session_of v = session_id (lw_record lw) /\
          (generation_of v < lease_generation (lw_record lw))%Z))
  end.

(** The writes of a session are at most as recent as the last one it issued. *)
Definition issues_known (w : lease_world) (th : lease_thread) (issued : option (Z * NodeRecord)) : Prop :=
  let x := session_id (lt_self th) in
  match issued with
  | None => forall n e, written w n e -> session_id n <> x
  | Some (s, n) =>
      (s <= lt_since th)%Z /\ same_identity (lt_self th) n /\
      forall n' e, written w n' e -> session_id n' = x ->
        (lease_generation n' <= lease_generation n)%Z /\
        (lease_generation n' = lease_generation n -> (expires_from (ttl (lt_timing th)) s <= e)%Z)
  end.

(** The record was stored. *)
Definition stored (w : lease_world) (n : NodeRecord) : Prop :=
  exists e r, Some (MkVersioned (n, e) r) ∈ lease_hist w.

(** Authority and proofs are backed, until the lease is up for release; and so is
    the last write issued, once it is stored. *)
Definition authority_backed (w : lease_world) (th : lease_thread) (proof : option Z)
    (issued : option (Z * NodeRecord)) : Prop :=
  let x := session_id (lt_self th) in
  let T := ttl (lt_timing th) in
  release_exit th = None ->
  (forall s, proof = Some s -> (s <= lt_since th)%Z /\ backed w x T s) /\
  (forall a, lt_authority th = Some a -> valid a = true ->
     exists s, (s <= lt_since th)%Z /\ (deadline a <= s + T)%Z /\ backed w x T s) /\
  (forall s n, issued = Some (s, n) -> stored w n -> backed w x T s).

Definition thread_knows (w : lease_world) (th : lease_thread) (g : lease_ghost) : Prop :=
  l_authority g = lt_authority th /\ (l_now g <= lt_since th <= clock w)%Z /\
  issues_known w th (l_issued g) /\
  (forall r, l_revision g = Some r ->
     exists v, Some v ∈ lease_hist w /\ revision v = r /\ session_of v = session_id (lt_self th)) /\
  authority_backed w th (l_proof g) (l_issued g).

Definition thread_inv (w : lease_world) (th : lease_thread) : Prop :=
  exists g,
    wp (lease_monitor (lt_self th) (ttl (lt_timing th))) g (lt_proc th)
      (life_post (lt_self th) (ttl (lt_timing th))) /\
    thread_knows w th g.

Definition fencing_inv (w : lease_world) : Prop :=
  Register.coherent (lease_hist w) /\
  (forall lw, lw ∈ lost_writes w -> flight_ok w lw) /\
  (forall th, th ∈ sessions w -> thread_inv w th) /\
  (forall i j thi thj, sessions w !! i = Some thi -> sessions w !! j = Some thj ->
     session_id (lt_self thi) = session_id (lt_self thj) -> i = j).

(** What a step may change for a session that does not take it. *)
Definition keeps (w w' : lease_world) (x : string) : Prop :=
  forall v, Register.current (lease_hist w) = Some v -> session_of v = x ->
    (clock w' / MILLI + skew < expiry_of v)%Z ->
    exists v', Register.current (lease_hist w') = Some v' /\ session_of v' = x /\
               (generation_of v <= generation_of v')%Z.

Definition grows (w w' : lease_world) : Prop :=
  (clock w <= clock w')%Z /\ (forall v, Some v ∈ lease_hist w -> Some v ∈ lease_hist w') /\
  (forall v, Some v ∈ lease_hist w' -> Some v ∈ lease_hist w \/ Register.current (lease_hist w') = Some v).

Definition no_new (w w' : lease_world) (x : string) : Prop :=
  forall n e, written w' n e -> session_id n = x -> written w n e.

(** ** Lemmas *)
Lemma wall_mono t t' : (t <= t')%Z -> (t / MILLI <= t' / MILLI)%Z.
Proof. intros. apply Z.div_le_mono; [done | lia]. Qed.

Lemma expires_from_mono T s s' : (s <= s')%Z -> (expires_from T s <= expires_from T s')%Z.
Proof. intros Hs%wall_mono. unfold expires_from. lia. Qed.

Lemma current_written w v :
  Register.current (lease_hist w) = Some v -> written w (record v).1 (expiry_of v).
Proof.
  intros Hc%register_current_elem. left. exists (revision v). by destruct v as [[] ?].
Qed.

Lemma backed_change w w' x T s :
  backed w x T s -> (clock w <= clock w')%Z ->
  (forall n e, written w' n e -> session_id n = x -> written w n e \/ (expires_from T s <= e)%Z) ->
  keeps w w' x -> backed w' x T s.
Proof.
  intros (G & Hall & Hcur) Hle Hnew Hk. pose proof (wall_mono _ _ Hle). exists G. split.
  - intros n e Hw Hx HG. destruct (Hnew n e Hw Hx); eauto.
  - intros Hlt. destruct Hcur as (v & Hv & Hx & HG); [lia |].
    destruct (Hk v Hv Hx) as (v' & Hv' & Hx' & HG').
    + pose proof (Hall _ _ (current_written _ _ Hv) Hx HG). lia.
    + exists v'. split_and!; [done .. | lia].
Qed.

Lemma grows_same w : grows w w.
Proof. split_and!; [lia | done | by left]. Qed.

(** A record that is stored by now was stored, or is the current one. *)
Lemma grows_stored w w' n :
  grows w w' -> stored w' n ->
  stored w n \/ exists e r, Register.current (lease_hist w') = Some (MkVersioned (n, e) r).
Proof. intros (_ & _ & Hn) (e & r & Hin). destruct (Hn _ Hin); [left | right]; by exists e, r. Qed.

Lemma flight_ok_grows w w' lw : grows w w' -> flight_ok w lw -> flight_ok w' lw.
Proof.
  intros (Hle & Hg & _). unfold flight_ok. destruct (lw_expected lw) as [r |]; [| done].
  intros (v & Hv & Hr & Hor). exists v. pose proof (wall_mono _ _ Hle).
  split_and!; [eauto | done |]. destruct Hor as [? | ?]; [left; lia | by right].
Qed.

(** The current lease backs its session, if it is the last write it issued. *)
Lemma backed_current w x n e r T s :
  session_id n = x -> Register.current (lease_hist w) = Some (MkVersioned (n, e) r) ->
  (forall n' e', written w n' e' -> session_id n' = x ->
     (lease_generation n' <= lease_generation n)%Z /\
     (lease_generation n' = lease_generation n -> (expires_from T s <= e')%Z)) ->
  backed w x T s.
Proof.
  intros Hx Hcur Hall. exists (lease_generation n). split.
  - intros n' e' Hw Hs HG. destruct (Hall n' e' Hw Hs) as [? He]. apply He. lia.
  - intros _. exists (MkVersioned (n, e) r). split_and!; [done | done | unfold generation_of; cbn; lia].
Qed.

(** A session that does not step keeps what it knows. *)
Lemma thread_frame w w' th :
  grows w w' -> no_new w w' (session_id (lt_self th)) ->
  (release_exit th = None -> keeps w w' (session_id (lt_self th))) ->
  thread_inv w th -> thread_inv w' th.
Proof.
  intros Hgr Hn Hk (g & Hwp & Ha & Ht & Hi & Hr & Hb). pose proof Hgr as (Hle & Hg & _).
  exists g. split; [done |]. split_and!; [done | lia | lia | ..].
  - revert Hi. unfold issues_known. destruct (l_issued g) as [[s n] |].
    + intros (Hs & Hid & Hall). split_and!; [done | apply Hid .. |].
      intros n' e Hw Hx. by apply Hall; [apply Hn |].
    + intros Hall n e Hw Hx. by eapply Hall; [apply Hn |].
  - intros r Hrev. destruct (Hr r Hrev) as (v & ? & ?). eauto.
  - intros Hnone. specialize (Hk Hnone). destruct (Hb Hnone) as (Hp & Hau & Hst). split_and!.
    + intros s Hs. destruct (Hp s Hs) as [? ?]. split; [done |].
      eapply backed_change; eauto.
    + intros a Hla Hv. destruct (Hau a Hla Hv) as (s & ? & ? & ?). exists s.
      split_and!; [done .. |]. eapply backed_change; eauto.
    + intros s n Hiss Hsto. rewrite Hiss in Hi. destruct Hi as (_ & Hid & Hall).
      destruct (grows_stored _ _ _ Hgr Hsto) as [Hold | (e & r & Hcur)]; [eapply backed_change; eauto |].
      apply (backed_current w' _ n e r); [apply Hid | done |]. intros n' e' Hw Hx. apply Hall; [by apply Hn | done].
Qed.

(** *** What a write does *)

(** The world after the write of [n], expected over [expected], took place. *)
Definition landed_as (w : lease_world) (n : NodeRecord) (e : Z) (expected : option Revision)
    (r : Revision) (w' : lease_world) : Prop :=
  exists h', Register.writes (lease_hist w) (n, e) expected r h' /\ w' = with_lease_hist w h'.

Lemma written_landed w n e expected r w' n' e' :
  landed_as w n e expected r w' -> written w' n' e' ->
  written w n' e' \/ (n' = n /\ e' = e).
Proof.
  intros (h' & (_ & _ & ->) & ->) [(r' & Hin) | Hlost]; cbn in *; [| by left; right].
  rewrite elem_of_cons in Hin. destruct Hin as [[= -> -> ->] | Hin]; [by right | left; left; eauto].
Qed.

Lemma grows_landed w n e expected r w' : landed_as w n e expected r w' -> grows w w'.
Proof.
  intros (h' & (_ & _ & ->) & ->). split_and!; cbn; [lia | intros v Hv; by right |].
  intros v. rewrite elem_of_cons. intros [[= ->] | Hv]; [by right | by left].
Qed.

Lemma landed_keeps w n e expected r w' x :
  Register.coherent (lease_hist w) -> flight_ok w (MkLeaseWrite n e expected) ->
  landed_as w n e expected r w' -> keeps w w' x.
Proof.
  intros Hc Hf (h' & (Hm & _ & ->) & ->) v Hv Hx Hlive. cbn in *.
  exists (MkVersioned (n, e) r). split; [done |].
  unfold flight_ok in Hf. cbn in Hf. rewrite Hv in Hm. destruct expected as [r' |]; [| done].
  cbn in Hm. apply bool_decide_eq_true in Hm.
  destruct Hf as (u & Hu & Hr & Hor).
  assert (record u = record v) as He.
  { eapply Hc; [done | by apply register_current_elem | congruence]. }
  unfold session_of, expiry_of, generation_of in *. cbn. rewrite He in Hor.
  destruct Hor as [? | [? ?]]; [lia | split; [congruence | lia]].
Qed.

Lemma no_new_other w w' (n : NodeRecord) (e : Z) x :
  (forall n' e', written w' n' e' -> written w n' e' \/ (n' = n /\ e' = e)) ->
  session_id n <> x -> no_new w w' x.
Proof. intros Hn Hne n' e' Hw Hx. destruct (Hn n' e' Hw) as [? | [-> ->]]; [done | congruence]. Qed.

(** An issued write that landed, was lost, or never happened. *)
Inductive outcome (w : lease_world) (n : NodeRecord) (e : Z) (expected : option Revision)
    : lease_world -> Prop :=
| outcome_none : outcome w n e expected w
| outcome_landed r w' : landed_as w n e expected r w' -> outcome w n e expected w'
| outcome_lost : outcome w n e expected
    (with_lost_writes w (MkLeaseWrite n e expected :: lost_writes w)).

Lemma outcome_written w n e expected w' n' e' :
  outcome w n e expected w' -> written w' n' e' -> written w n' e' \/ (n' = n /\ e' = e).
Proof.
  intros Ho Hw. destruct Ho as [| r w' Hl |]; [by left | by eapply written_landed |].
  destruct Hw as [? | (r' & Hin)]; [by left; left |]. cbn in Hin.
  rewrite elem_of_cons in Hin. destruct Hin as [[= -> -> ->] | ?]; [by right | left; right; eauto].
Qed.

Lemma outcome_grows w n e expected w' : outcome w n e expected w' -> grows w w'.
Proof. intros [| r ? Hl |]; [apply grows_same | by eapply grows_landed | exact (grows_same w)]. Qed.

Lemma outcome_keeps w n e expected w' x :
  Register.coherent (lease_hist w) -> flight_ok w (MkLeaseWrite n e expected) ->
  outcome w n e expected w' -> keeps w w' x.
Proof.
  intros Hc Hf [| r ? Hl |]; [| by eapply landed_keeps |]; intros v ? ? ?; exists v; cbn; auto with lia.
Qed.

Lemma outcome_sessions w n e expected w' :
  outcome w n e expected w' -> sessions w' = sessions w /\ clock w' = clock w.
Proof. by intros [| ? ? (? & _ & ->) |]. Qed.

(** What an outcome leaves of the store's part of the invariant. *)
Lemma outcome_inv w n e expected w' :
  Register.coherent (lease_hist w) -> flight_ok w (MkLeaseWrite n e expected) ->
  (forall lw, lw ∈ lost_writes w -> flight_ok w lw) ->
  outcome w n e expected w' ->
  Register.coherent (lease_hist w') /\ (forall lw, lw ∈ lost_writes w' -> flight_ok w' lw).
Proof.
  intros Hc Hf Hfl Ho. pose proof (outcome_grows _ _ _ _ _ Ho) as Hg.
  destruct Ho as [| r ? (h' & Hw & ->) |]; cbn in *; [done | |].
  - split; [by eapply register_writes_coherent |]. intros lw Hlw. eapply flight_ok_grows; eauto.
  - split; [done |]. intros lw. rewrite elem_of_cons.
    intros [-> | Hlw]; eapply flight_ok_grows; eauto.
Qed.

(** *** The thread that steps *)

(** Replacing the thread that stepped. *)
Lemma inv_thread w w' i th th' :
  fencing_inv w -> sessions w !! i = Some th ->
  sessions w' = sessions w -> lt_self th' = lt_self th ->
  Register.coherent (lease_hist w') -> (forall lw, lw ∈ lost_writes w' -> flight_ok w' lw) ->
  grows w w' ->
  (forall x, x <> session_id (lt_self th) -> no_new w w' x /\ keeps w w' x) ->
  thread_inv w' th' ->
  fencing_inv (with_sessions w' (<[i := th']> (sessions w'))).
Proof.
  intros (Hc & Hf & Hth & Hu) Hi Hs Hself Hc' Hf' Hg Hfr Hth'.
  assert (Hlook : forall j thj, <[i := th']> (sessions w) !! j = Some thj ->
            exists tho, sessions w !! j = Some tho /\ lt_self tho = lt_self thj).
  { intros j thj. destruct (decide (i = j)) as [<- |].
    - rewrite list_lookup_insert_eq by (by eapply lookup_lt_Some). intros [= <-]. eauto.
    - rewrite list_lookup_insert_ne by done. eauto. }
  rewrite Hs. split_and!; [done | done | |]; cbn.
  - intros t Ht. apply list_elem_of_lookup in Ht as [j Hj].
    destruct (decide (i = j)) as [<- | Hne].
    + rewrite list_lookup_insert_eq in Hj by (by eapply lookup_lt_Some).
      injection Hj as <-. exact Hth'.
    + rewrite list_lookup_insert_ne in Hj by done.
      assert (session_id (lt_self t) <> session_id (lt_self th)) as Hx.
      { intros He. by apply Hne, (Hu i j th t). }
      destruct (Hfr _ Hx). eapply (thread_frame w w'); [done | done | done |].
      apply Hth. by eapply list_elem_of_lookup_2.
  - intros j k thj thk Hj Hk He.
    apply Hlook in Hj as (? & ? & Hsj). apply Hlook in Hk as (? & ? & Hsk).
    rewrite <- Hsj, <- Hsk in He. eauto.
Qed.

(** A step that writes nothing. *)
Lemma inv_quiet w i th th' :
  fencing_inv w -> sessions w !! i = Some th -> lt_self th' = lt_self th ->
  thread_inv w th' ->
  fencing_inv (with_sessions w (<[i := th']> (sessions w))).
Proof.
  intros Hinv Hi Hself Hth.
  eapply inv_thread; [exact Hinv | exact Hi | done | exact Hself | apply Hinv | apply Hinv | | | exact Hth].
  - apply grows_same.
  - intros x _. split; [by intros n e ? |]. intros v Hv Hx _. eauto with lia.
Qed.

(** The knowledge of a thread whose call changed neither the store nor what it
    has proved. *)
Lemma knows_quiet w self timing since auth auth' (p p' : proc leaseE _) g g' :
  release_exit (MkLeaseThread self timing since auth p) = None ->
  thread_knows w (MkLeaseThread self timing since auth p) g ->
  l_authority g' = auth' -> (l_now g <= l_now g' <= clock w)%Z ->
  l_issued g' = l_issued g -> l_revision g' = l_revision g -> l_proof g' = l_proof g ->
  (forall a, auth' = Some a -> valid a = true ->
     auth = Some a \/ exists s, l_proof g = Some s /\ (deadline a <= s + ttl timing)%Z) ->
  thread_knows w (MkLeaseThread self timing (clock w) auth' p') g'.
Proof.
  intros Hnr (Ha & Ht & Hi & Hr & Hb) Ha' Ht' Hi' Hr' Hp' Hauth. cbn in *.
  specialize (Hb Hnr) as (Hp & Hau & Hst).
  split_and!; cbn; [done | lia | lia | ..].
  - rewrite Hi'. revert Hi. unfold issues_known. cbn. destruct (l_issued g) as [[s n] |]; [| done].
    intros (? & ? & ?). split_and!; [lia | done ..].
  - by rewrite Hr'.
  - intros _. rewrite Hp', Hi'. cbn in *. split_and!; [| | exact Hst].
    + intros s Hs. destruct (Hp s Hs). split; [lia | done].
    + intros a Hla Hv. destruct (Hauth a Hla Hv) as [Hold | (s & Hs & Hd)].
      * destruct (Hau a Hold Hv) as (s & ? & ? & ?). exists s. split_and!; [lia | done ..].
      * destruct (Hp s Hs). exists s. split_and!; [lia | done ..].
Qed.

(** A write issued by the thread: what it knows afterwards. *)
Lemma knows_issue w w' self timing since auth (p p' : proc leaseE _) g n e expected
    (reply : timed (result CoordinationError (MutationOutcome Revision))) :
  release_exit (MkLeaseThread self timing since auth p) = None ->
  thread_knows w (MkLeaseThread self timing since auth p) g ->
  same_identity self n ->
  (forall n' e', written w n' e' -> session_id n' = session_id self ->
     (lease_generation n' < lease_generation n)%Z) ->
  (expires_from (ttl timing) since <= e)%Z ->
  Register.coherent (lease_hist w) -> flight_ok w (MkLeaseWrite n e expected) ->
  outcome w n e expected w' ->
  (forall r, reply = Ready (Ok (Applied r)) -> landed_as w n e expected r w') ->
  thread_knows w' (MkLeaseThread self timing (clock w') auth p') (with_write g n reply).
Proof.
  intros Hnr (Ha & Ht & Hi & Hr & Hb) Hid Hgen Hexp Hc Hf Ho Happ. cbn in Ha, Ht.
  specialize (Hb Hnr) as (Hp & Hau & _). cbn in Hp, Hau.
  pose proof (outcome_grows _ _ _ _ _ Ho) as (Hle & Hg & Hnews).
  assert (Hnew : forall n' e', written w' n' e' -> session_id n' = session_id self ->
            (lease_generation n' <= lease_generation n)%Z /\
            (lease_generation n' = lease_generation n -> e' = e)).
  { intros n' e' Hw Hx. destruct (outcome_written _ _ _ _ _ _ _ Ho Hw) as [Hold | [-> ->]]; [| lia].
    pose proof (Hgen n' e' Hold Hx). lia. }
  assert (Hs0 : (expires_from (ttl timing) (l_now g) <= e)%Z).
  { pose proof (expires_from_mono (ttl timing) (l_now g) since ltac:(lia)). lia. }
  split_and!; cbn; [done | lia | lia | ..].
  - split; [lia |]. split; [done |]. intros n' e' Hw Hx. destruct (Hnew n' e' Hw Hx) as [? He].
    split; [done |]. intros Heq. by rewrite (He Heq).
  - intros r Hrev.
    assert (Hcase : (exists r', reply = Ready (Ok (Applied r')) /\ r = r') \/ l_revision g = Some r).
    { destruct reply as [| [[r' | | ?] | ?]]; try by right. left. exists r'. by injection Hrev as ->. }
    destruct Hcase as [(r' & -> & ->) | Hold].
    + destruct (Happ _ eq_refl) as (h' & (_ & _ & ->) & ->).
      exists (MkVersioned (n, e) r'). split_and!; [constructor | done | apply Hid].
    + destruct (Hr r Hold) as (v & ? & ?). eauto.
  - assert (Hissued : stored w' n -> backed w' (session_id self) (ttl timing) (l_now g)).
    { intros Hsto. destruct (grows_stored w w' n (outcome_grows _ _ _ _ _ Ho) Hsto) as [(e' & r & Hin) | (e' & r & Hcur)].
      - pose proof (Hgen n e' (or_introl (ex_intro _ r Hin)) ltac:(apply Hid)). lia.
      - apply (backed_current w' _ n e' r); [apply Hid | done |]. intros n2 e2 Hw Hx.
        destruct (Hnew n2 e2 Hw Hx) as [? He]. split; [done |]. intros Heq. by rewrite (He Heq). }
    intros _. cbn. split_and!; [| | by intros s n2 [= <- <-]].
    + intros s Hs.
      assert (exists r, reply = Ready (Ok (Applied r)) /\ s = l_now g) as (r & -> & ->).
      { destruct reply as [| [[r' | | ?] | ?]]; try done. exists r'. by injection Hs as ->. }
      split; [lia |]. apply Hissued. destruct (Happ _ eq_refl) as (h' & (_ & _ & ->) & ->).
      exists e, r. constructor.
    + intros a Hla Hv. destruct (Hau a Hla Hv) as (s & ? & ? & Hbk). exists s. split_and!; [lia | done |].
      eapply backed_change; [exact Hbk | lia | | by eapply outcome_keeps].
      intros n' e' Hw Hx. destruct (outcome_written _ _ _ _ _ _ _ Ho Hw) as [Hold | [-> ->]]; [by left |].
      right. pose proof (expires_from_mono (ttl timing) s since ltac:(lia)). lia.
Qed.

Lemma outcome_written_mono w n e expected w' n' e' :
  outcome w n e expected w' -> written w n' e' -> written w' n' e'.
Proof.
  intros [| r ? (h' & (_ & _ & ->) & ->) |] [(r' & Hr) | (x & Hx)]; [by left; eauto | by right; eauto | | | |].
  - left. exists r'. by right.
  - right. eauto.
  - left. eauto.
  - right. exists x. by right.
Qed.

(** The read-back of a lease write. *)
Lemma knows_read_back w self timing since auth (p p' : proc leaseE _) g
    (t : timed (result CoordinationError (option (NodeRecord * Revision)))) :
  (0 <= skew)%Z ->
  release_exit (MkLeaseThread self timing since auth p) = None ->
  thread_knows w (MkLeaseThread self timing since auth p) g ->
  match t with
  | Ready reply => read_back_replies w since reply
  | Elapsed => True
  end ->
  thread_knows w (MkLeaseThread self timing (clock w) auth p') (with_read_back g t).
Proof.
  intros Hskew Hnr Hk Ht. pose proof Hk as (Ha & Hl & Hi & Hr & Hb). cbn in Ha, Hl.
  assert (Hquiet : l_revision (with_read_back g t) = l_revision g ->
                   l_proof (with_read_back g t) = l_proof g ->
                   thread_knows w (MkLeaseThread self timing (clock w) auth p') (with_read_back g t)).
  { intros H1 H2. eapply knows_quiet; [exact Hnr | exact Hk | exact Ha | cbn; lia | done | exact H1 | exact H2 |].
    intros; by left. }
  destruct t as [| [[[n r] |] | err]]; [by apply Hquiet | | by apply Hquiet ..].
  destruct (l_issued g) as [[s n'] |] eqn:Hiss; [| by apply Hquiet; cbn; rewrite Hiss].
  destruct (decide (n = n')) as [-> | Hne];
    [| by apply Hquiet; cbn; rewrite Hiss, bool_decide_eq_false_2 by done].
  destruct Ht as (e & u & Hin & _). destruct Hi as (Hs & Hid & Hall). cbn in Hs, Hid, Hall.
  split_and!; cbn; [done | lia | lia | ..]; rewrite ?Hiss, ?bool_decide_eq_true_2 by done.
  - split_and!; [cbn; lia | done ..].
  - intros r' [= <-]. exists (MkVersioned (n', e) r). split_and!; [done | done |].
    apply Hid.
  - intros _. specialize (Hb Hnr) as (_ & Hau & Hst). cbn in Hau, Hst. cbn. split_and!; [| | exact Hst].
    + intros s' [= <-]. split; [lia |]. by apply (Hst s n' eq_refl); exists e, r.
    + intros a Hla Hv. destruct (Hau a Hla Hv) as (s' & ? & ? & ?). exists s'. split_and!; [lia | done ..].
Qed.

(** An issued write and the step that ends it. *)
Lemma inv_issue w w' i self timing since auth X (e : leaseE X) k g n exp expected x
    (reply : timed (result CoordinationError (MutationOutcome Revision))) :
  fencing_inv w ->
  sessions w !! i = Some (MkLeaseThread self timing since auth (Call e k)) ->
  thread_knows w (MkLeaseThread self timing since auth (Call e k)) g ->
  wp (lease_monitor self (ttl timing)) (with_write g n reply) (k x) (life_post self (ttl timing)) ->
  same_identity self n ->
  (forall n' e', written w n' e' -> session_id n' = session_id self ->
     (lease_generation n' < lease_generation n)%Z) ->
  (expires_from (ttl timing) since <= exp)%Z ->
  flight_ok w (MkLeaseWrite n exp expected) ->
  outcome w n exp expected w' ->
  (forall r, reply = Ready (Ok (Applied r)) -> landed_as w n exp expected r w') ->
  fencing_inv (with_sessions w' (<[i := MkLeaseThread self timing (clock w') auth (k x)]> (sessions w'))).
Proof.
  intros Hinv Hi Hk Hwp Hid Hgen Hexp Hf Ho Happ. pose proof Hinv as (Hc & Hfl & _ & _).
  destruct (outcome_inv _ _ _ _ _ Hc Hf Hfl Ho) as [Hc' Hfl'].
  eapply inv_thread; [exact Hinv | exact Hi | by eapply outcome_sessions | done | exact Hc' | exact Hfl'
                     | by eapply outcome_grows | |].
  - intros x' Hne. cbn in Hne. split; [| by eapply outcome_keeps].
    eapply (no_new_other w w' n exp); [intros; by eapply outcome_written |].
    destruct Hid as (_ & -> & _). congruence.
  - exists (with_write g n reply). split; [exact Hwp |].
    by apply (knows_issue w w' self timing since auth (Call e k) _ g n exp expected reply).
Qed.

(** A renewal is one generation after everything the session ever wrote. *)
Lemma renewal_fresh w self timing since auth (p : proc leaseE _) g n rev :
  unsaturated w ->
  thread_knows w (MkLeaseThread self timing since auth p) g -> may_replace g n rev ->
  forall n' e', written w n' e' -> session_id n' = session_id self ->
    (lease_generation n' < lease_generation n)%Z.
Proof.
  intros Hun (_ & _ & Hi & _) (_ & s & n0 & Hiss & Hgen) n' e' Hw Hx.
  rewrite Hiss in Hi. destruct Hi as (_ & _ & Hall). destruct (Hall n' e' Hw Hx) as [Hle _].
  pose proof (Hun n' e' Hw). rewrite Hgen. unfold saturating_add. lia.
Qed.

Lemma renewal_flight_ok w self timing since auth (p : proc leaseE _) g n e rev :
  unsaturated w ->
  thread_knows w (MkLeaseThread self timing since auth p) g -> may_replace g n rev ->
  same_identity self n -> flight_ok w (MkLeaseWrite n e (Some rev)).
Proof.
  intros Hun Hk Hm Hid. pose proof (renewal_fresh _ _ _ _ _ _ _ _ _ Hun Hk Hm) as Hfresh.
  destruct Hk as (_ & _ & _ & Hr & _), Hm as (Hrev & _).
  destruct (Hr rev Hrev) as (v & Hv & Hvr & Hx). cbn in Hx. exists v. split_and!; [done .. |].
  right. cbn. destruct Hid as (_ & -> & _). split; [done |].
  eapply (Hfresh _ (expiry_of v)); [| exact Hx]. left. exists (revision v). by destruct v as [[] ?].
Qed.

Lemma landed_of_acquires w since n T t t' r h' :
  wall_between since (clock w) t -> wall_between since (clock w) t' ->
  Register.acquires (lease_hist w) n (T / MILLI) t t' r h' ->
  landed_as w n (t' + T / MILLI) (revision <$> Register.current (lease_hist w)) r (with_lease_hist w h') /\
  flight_ok w (MkLeaseWrite n (t' + T / MILLI) (revision <$> Register.current (lease_hist w))) /\
  (expires_from T since <= t' + T / MILLI)%Z.
Proof.
  intros [_ Ht] [Ht' _] [Hv Hw]. split_and!; [by exists h' | | unfold expires_from; lia].
  unfold flight_ok. cbn. destruct (Register.current (lease_hist w)) as [v |] eqn:Hcur; cbn; [| done].
  exists v. split_and!; [by apply register_current_elem | done |]. left.
  pose proof (Hv v Hcur). unfold expiry_of. lia.
Qed.

(** What a call of the store leaves, as an outcome of one write. *)
Definition issued_as (w : lease_world) (since T : Z) (n : NodeRecord)
    (x : timed (result CoordinationError (MutationOutcome Revision))) (w' : lease_world) : Prop :=
  exists e expected,
    (expires_from T since <= e)%Z /\ flight_ok w (MkLeaseWrite n e expected) /\
    outcome w n e expected w' /\
    forall r, x = Ready (Ok (Applied r)) -> landed_as w n e expected r w'.

Lemma acquire_issued w since auth to n T x w' auth' :
  lease_replies w since auth _ (AcquireNode to n T) x w' auth' -> issued_as w since T n x w'.
Proof.
  intros [_ Hrep].
  assert (Happ : forall r, acquisition_landed w since n T r w' ->
            exists e expected, (expires_from T since <= e)%Z /\ flight_ok w (MkLeaseWrite n e expected) /\
                               landed_as w n e expected r w').
  { intros r (t & t' & h' & Ht & Ht' & Hacq & ->).
    destruct (landed_of_acquires _ _ _ _ _ _ _ _ Ht Ht' Hacq) as (? & ? & ?). eauto. }
  assert (Hother : (forall r, x <> Ready (Ok (Applied r))) ->
            (w' = w \/ (exists r, acquisition_landed w since n T r w') \/ acquisition_lost w since n T w') ->
            issued_as w since T n x w').
  { intros Hx [-> | [(r & Hl) | (t & t' & ex & Ht & Ht' & Hex & ->)]].
    - exists (expires_from T since), None. split_and!; [lia | done | constructor |]. intros r ->. by destruct (Hx r).
    - destruct (Happ r Hl) as (e & ex & ? & ? & ?). exists e, ex.
      split_and!; [done .. | by eapply outcome_landed |]. intros r' ->. by destruct (Hx r').
    - eexists _, ex. split_and!; [| | apply outcome_lost | intros r' ->; by destruct (Hx r')].
      + destruct Ht' as [? _]. unfold expires_from. lia.
      + unfold flight_ok. cbn. destruct ex as [r |]; [| done]. destruct Hex as (v & ? & ? & ?).
        exists v. split_and!; [done .. |]. left. destruct Ht as [_ ?]. lia. }
  destruct x as [| [[r | | err] | err]]; [by apply Hother | | by apply Hother ..].
  destruct (Happ r Hrep) as (e & ex & ? & ? & ?). exists e, ex.
  split_and!; [done .. | by eapply outcome_landed |]. by intros r' [= <-].
Qed.

Lemma renew_issued w since auth to n T rev x w' auth' :
  (forall e, flight_ok w (MkLeaseWrite n e (Some rev))) ->
  lease_replies w since auth _ (RenewNode to n T rev) x w' auth' -> issued_as w since T n x w'.
Proof.
  intros Hf [_ Hrep].
  assert (Happ : forall r, renewal_landed w since n T rev r w' ->
            exists e, (expires_from T since <= e)%Z /\ landed_as w n e (Some rev) r w').
  { intros r (t' & h' & [? _] & Hw & ->). exists (t' + T / MILLI)%Z.
    split; [unfold expires_from; lia | by exists h']. }
  assert (Hother : (forall r, x <> Ready (Ok (Applied r))) ->
            (w' = w \/ (exists r, renewal_landed w since n T rev r w') \/ renewal_lost w since n T rev w') ->
            issued_as w since T n x w').
  { intros Hx [-> | [(r & Hl) | (t' & [? _] & ->)]].
    - exists (expires_from T since), (Some rev). split_and!; [lia | done | constructor |].
      intros r ->. by destruct (Hx r).
    - destruct (Happ r Hl) as (e & ? & ?). exists e, (Some rev).
      split_and!; [done .. | by eapply outcome_landed |]. intros r' ->. by destruct (Hx r').
    - eexists _, (Some rev). split_and!; [| apply Hf | apply outcome_lost | intros r' ->; by destruct (Hx r')].
      unfold expires_from. lia. }
  destruct x as [| [[r | | err] | err]]; [by apply Hother | | by apply Hother ..].
  destruct (Happ r Hrep) as (e & ? & ?). exists e, (Some rev).
  split_and!; [done .. | by eapply outcome_landed |]. by intros r' [= <-].
Qed.

Lemma inv_issued w w' i self timing since auth X (e : leaseE X) k g n x reply :
  fencing_inv w ->
  sessions w !! i = Some (MkLeaseThread self timing since auth (Call e k)) ->
  thread_knows w (MkLeaseThread self timing since auth (Call e k)) g ->
  wp (lease_monitor self (ttl timing)) (with_write g n reply) (k x) (life_post self (ttl timing)) ->
  same_identity self n ->
  (forall n' e', written w n' e' -> session_id n' = session_id self ->
     (lease_generation n' < lease_generation n)%Z) ->
  issued_as w since (ttl timing) n reply w' ->
  fencing_inv (with_sessions w' (<[i := MkLeaseThread self timing (clock w) auth (k x)]> (sessions w'))).
Proof.
  intros Hinv Hi Hk Hwp Hid Hgen (exp & ex & He & Hf & Ho & Happ).
  rewrite <- (proj2 (outcome_sessions _ _ _ _ _ Ho)). by eapply (inv_issue w w' i).
Qed.

Lemma call_inv w w' i self timing since auth auth' X (e : leaseE X) k x :
  (0 <= skew)%Z -> fencing_inv w -> unsaturated w ->
  sessions w !! i = Some (MkLeaseThread self timing since auth (Call e k)) ->
  lease_replies w since auth X e x w' auth' ->
  fencing_inv (with_sessions w' (<[i := MkLeaseThread self timing (clock w) auth' (k x)]> (sessions w'))).
Proof.
  intros Hskew Hinv Hun Hi Hrep.
  pose proof Hinv as (_ & _ & Hth & _).
  destruct (Hth _ (list_elem_of_lookup_2 _ _ _ Hi)) as (g & [Hal Hwp] & Hk). cbn [lt_self lt_timing lt_proc] in *.
  pose proof Hk as (Ha & Hl & Hiss & _ & _). cbn in Ha, Hl.
  assert (Hquiet : forall g', w' = w ->
    observe (lease_monitor self (ttl timing)) g e x g' ->
    l_authority g' = auth' -> (l_now g <= l_now g' <= clock w)%Z ->
    l_issued g' = l_issued g -> l_revision g' = l_revision g -> l_proof g' = l_proof g ->
    (forall a, auth' = Some a -> valid a = true ->
       auth = Some a \/ exists s, l_proof g = Some s /\ (deadline a <= s + ttl timing)%Z) ->
    fencing_inv (with_sessions w' (<[i := MkLeaseThread self timing (clock w) auth' (k x)]> (sessions w')))).
  { intros g' -> Hobs H1 H2 H3 H4 H5 H6. eapply inv_quiet; [exact Hinv | exact Hi | done |].
    exists g'. split; [by apply Hwp |].
    by apply (knows_quiet w self timing since auth auth' (Call e k) _ g g'). }
  destruct e as [| | wake_at | | a | | | to n T | to n T rev | to id']; cbn in Hal, Hwp.
  - destruct Hrep as (-> & Hw & ->).
    apply (Hquiet (with_now g (clock w))); cbn; auto with lia.
  - destruct Hrep as (Hr & Hw & ->). apply (Hquiet g); cbn; auto with lia.
  - destruct Hrep as (_ & Hw & ->). eapply Hquiet; [done | done | ..]; destruct x; cbn; auto with lia.
  - destruct Hrep as (Hx & Hw & ->). apply (Hquiet g); cbn; rewrite ?Ha; auto with lia.
  - destruct Hrep as (Hw & ->). apply (Hquiet (with_authority g a)); cbn; auto with lia.
    intros a' [= <-] Hv. destruct Hal as (_ & [(a0 & Ha0 & ->) | (s & Hs & Hd & _)]); [| eauto].
    unfold fence in Hv. by destruct (valid a0).
  - destruct Hrep as (Hw & ->). eapply Hquiet; [done | done | ..]; cbn; auto with lia.
  - destruct Hrep as (Hw & ->). apply (Hquiet g); cbn; auto with lia.
  - pose proof (acquire_issued _ _ _ _ _ _ _ _ _ Hrep) as Hissued.
    destruct Hrep as (-> & _), Hal as ((Hid & -> & _) & Hnone & _). rewrite Hnone in Hiss.
    eapply inv_issued; try done; [by apply Hwp |]. intros n' e' Hw Hx. by destruct (Hiss n' e' Hw).
  - destruct Hal as ((Hid & -> & _) & Hm).
    pose proof (renew_issued _ _ _ _ _ _ _ _ _ _ (fun e => renewal_flight_ok _ _ _ _ _ _ _ _ e _ Hun Hk Hm Hid) Hrep)
      as Hissued.
    destruct Hrep as (-> & _). eapply inv_issued; try done; [by apply Hwp | by eapply renewal_fresh].
  - destruct Hrep as (-> & -> & Hrep). eapply inv_quiet; [exact Hinv | exact Hi | done |].
    exists (with_read_back g x). split; [by apply Hwp |].
    by apply (knows_read_back w self timing since auth (Call (ReadNodeLease to id') k) _ g x).
Qed.

(** *** The other steps *)
Lemma inv_frame w w' :
  fencing_inv w -> sessions w' = sessions w ->
  Register.coherent (lease_hist w') -> (forall lw, lw ∈ lost_writes w' -> flight_ok w' lw) ->
  grows w w' -> (forall x, no_new w w' x) ->
  (forall i th, sessions w !! i = Some th -> release_exit th = None -> keeps w w' (session_id (lt_self th))) ->
  fencing_inv w'.
Proof.
  intros (_ & _ & Hth & Hu) Hs Hc' Hf' Hg Hn Hk. split_and!; [done | done | |].
  - intros th Hin. rewrite Hs in Hin. eapply (thread_frame w w'); [done | done | | by apply Hth].
    apply list_elem_of_lookup in Hin as [i Hi]. by eapply Hk.
  - rewrite Hs. exact Hu.
Qed.

Lemma tick_inv w t : fencing_inv w -> (clock w <= t)%Z -> fencing_inv (with_clock w t).
Proof.
  intros Hinv Hle. assert (Hg : grows w (with_clock w t)) by (split_and!; [done | done | by left]).
  eapply inv_frame; [exact Hinv | done | apply Hinv | | exact Hg | |].
  - intros lw Hlw. eapply flight_ok_grows; [exact Hg | by apply Hinv].
  - by intros x n e ?.
  - intros i th _ _ v Hv Hx _. exists v. auto with lia.
Qed.

Lemma start_inv w fuel timing node :
  fencing_inv w -> (0 <= clock w)%Z -> session_unused w (session_id node) ->
  fencing_inv (with_sessions w (sessions w ++ [starting fuel timing node (clock w)])).
Proof.
  intros (Hc & Hf & Hth & Hu) H0 (Hfresh & Hnew). split_and!; [done | done | |]; cbn.
  - intros th. rewrite elem_of_app, list_elem_of_singleton. intros [Hin | ->].
    + by apply (thread_frame w); [exact (grows_same w) | intros n e | intros _ v ? ? ?; exists v; auto with lia | apply Hth].
    + exists lease_ghost0. split; [apply lease_life_wp |].
      split_and!; cbn; [done | lia | lia | exact Hnew | done | by split].
  - assert (Hlast : forall j thj, (sessions w ++ [starting fuel timing node (clock w)]) !! j = Some thj ->
              sessions w !! j = Some thj \/ j = length (sessions w) /\ session_id (lt_self thj) = session_id node).
    { intros j thj. rewrite lookup_app_Some, list_lookup_singleton_Some.
      intros [? | (? & ? & <-)]; [by left | right; split; [lia | done]]. }
    intros i j thi thj Hi Hj Hs.
    destruct (Hlast _ _ Hi) as [Hi' | [-> Hi']], (Hlast _ _ Hj) as [Hj' | [-> Hj']]; [eauto | | | done].
    + destruct (Hfresh thi); [by eapply list_elem_of_lookup_2 | congruence].
    + destruct (Hfresh thj); [by eapply list_elem_of_lookup_2 | congruence].
Qed.

Lemma land_inv w lw r h' :
  fencing_inv w -> lw ∈ lost_writes w ->
  Register.writes (lease_hist w) (lw_record lw, lw_expiry lw) (lw_expected lw) r h' ->
  fencing_inv (with_lease_hist w h').
Proof.
  intros Hinv Hlw Hw. pose proof Hinv as (Hc & Hf & _ & _). destruct lw as [n e ex]. cbn in Hw.
  assert (Hl : landed_as w n e ex r (with_lease_hist w h')) by (by exists h').
  pose proof (outcome_landed w n e ex r _ Hl) as Ho.
  destruct (outcome_inv _ _ _ _ _ Hc (Hf _ Hlw) Hf Ho) as [Hc' Hf'].
  eapply inv_frame; [exact Hinv | done | exact Hc' | exact Hf' | by eapply grows_landed | |].
  - intros x n' e' Hwr _. destruct (written_landed _ _ _ _ _ _ _ _ Hl Hwr) as [? | [-> ->]]; [done |].
    right. eauto.
  - intros i th _ _. eapply outcome_keeps; [done | by apply Hf | exact Ho].
Qed.

Lemma release_inv w i th e reply h' :
  fencing_inv w -> sessions w !! i = Some th -> release_exit th = Some e ->
  Register.delete_replies (lease_hist w) (exit_revision e) reply h' ->
  fencing_inv (with_lease_hist w h').
Proof.
  intros Hinv Hi He Hd. pose proof Hinv as (Hc & Hf & Hth & Hu).
  assert (h' = lease_hist w \/ Register.deletes (lease_hist w) (exit_revision e) h') as [-> | Hdel].
  { destruct reply as [[] |]; cbn in Hd; tauto. }
  { by destruct w. }
  destruct (Hth th) as (g & Hwp & _ & _ & _ & Hr & _); [by eapply list_elem_of_lookup_2 |].
  assert (exists v, Some v ∈ lease_hist w /\ revision v = exit_revision e /\
                    session_of v = session_id (lt_self th)) as (v & Hv & Hvr & Hvx).
  { apply Hr. revert He Hwp. unfold release_exit. destruct (lt_proc th) as [[[[|e']|] |] |]; try done.
    destruct (release e') eqn:Hrel; [| done]. intros [= ->]. cbn. by intros (_ & ? & _). }
  assert (Hg : grows w (with_lease_hist w h')).
  { destruct Hdel as (_ & ->). split_and!; cbn; [lia | intros u Hu'; by right |].
    intros u. rewrite elem_of_cons. intros [? | ?]; [done | by left]. }
  eapply inv_frame; [exact Hinv | done | by eapply register_deletes_coherent | | exact Hg | |].
  - intros lw Hlw. eapply flight_ok_grows; [exact Hg | by apply Hf].
  - intros x n e' [(r & Hin) | ?] _; [| by right]. left. exists r. destruct Hdel as (_ & ->).
    cbn in Hin. rewrite elem_of_cons in Hin. by destruct Hin.
  - intros j thj Hj Hnone u Hcur Hx _. destruct Hdel as (Hm & _). rewrite Hcur in Hm. cbn in Hm.
    apply bool_decide_eq_true in Hm.
    assert (record u = record v) as Hrec.
    { eapply Hc; [by apply register_current_elem | done | congruence]. }
    assert (j = i) as ->.
    { eapply Hu; [done | done |]. unfold session_of in *. rewrite Hrec in Hx. congruence. }
    congruence.
Qed.

(** What was written stays written. *)
Lemma written_mono w w' n e :
  (forall v, Some v ∈ lease_hist w -> Some v ∈ lease_hist w') ->
  (forall lw, lw ∈ lost_writes w -> lw ∈ lost_writes w') -> written w n e -> written w' n e.
Proof. intros Hh Hl [(r & ?) | (x & ?)]; [left; eauto | right; eauto]. Qed.

Lemma landed_written w v ex r h' n e :
  Register.writes (lease_hist w) v ex r h' -> written w n e -> written (with_lease_hist w h') n e.
Proof. intros (_ & _ & ->). apply written_mono; cbn; [intros u Hu; by right | done]. Qed.

Lemma replies_written w since auth X (ef : leaseE X) x w' auth' n e :
  lease_replies w since auth X ef x w' auth' -> written w n e -> written w' n e.
Proof.
  intros Hrep Hw.
  assert (Hsame : w' = w -> written w' n e) by by intros ->.
  assert (Hlost : forall lw, w' = with_lost_writes w (lw :: lost_writes w) -> written w' n e).
  { intros lw ->. revert Hw. apply written_mono; cbn; [done | intros u Hu; by right]. }
  destruct ef as [| | | | | | | to n' T | to n' T rev |]; cbn [lease_replies] in Hrep;
    try (apply Hsame; tauto).
  - assert (Hland : forall r, acquisition_landed w since n' T r w' -> written w' n e).
    { intros r (t & t' & h' & _ & _ & (_ & Hwr) & ->). by eapply landed_written. }
    assert (Hlo : acquisition_lost w since n' T w' -> written w' n e).
    { intros (t & t' & ex & _ & _ & _ & Heq). eauto. }
    destruct Hrep as [_ Hrep]. destruct x as [| [[r | |] |]]; naive_solver.
  - assert (Hland : forall r, renewal_landed w since n' T rev r w' -> written w' n e).
    { intros r (t' & h' & _ & Hwr & ->). by eapply landed_written. }
    assert (Hlo : renewal_lost w since n' T rev w' -> written w' n e).
    { intros (t' & _ & Heq). eauto. }
    destruct Hrep as [_ Hrep]. destruct x as [| [[r | |] |]]; naive_solver.
Qed.

Lemma step_written w w' n e : lease_world_step w w' -> written w n e -> written w' n e.
Proof.
  intros [w0 t Hle | w0 fuel timing node _ _ | w0 w1 i self timing since auth auth' X ef k x Hi Hrep
         | w0 lw r h' _ Hwr | w0 i th ex reply h' _ _ Hd]; [done | done | | by eapply landed_written |].
  - intros Hw. exact (replies_written _ _ _ _ _ _ _ _ _ _ Hrep Hw).
  - apply written_mono; [| done]. intros v Hv.
    destruct reply as [[] |]; cbn in Hd |- *; [destruct Hd as (_ & ->) | ..];
      try destruct Hd as [-> | (_ & ->)]; done || by right.
Qed.

Lemma step_inv w w' :
  (0 <= skew)%Z -> lease_world_step w w' ->
  (0 <= clock w)%Z /\ (unsaturated w -> fencing_inv w) ->
  (0 <= clock w')%Z /\ (unsaturated w' -> fencing_inv w').
Proof.
  intros Hskew Hstep [H0 Hinv].
  assert (Hun : unsaturated w' -> unsaturated w).
  { intros Hun n e Hw. by eapply Hun, step_written. }
  destruct Hstep as [w t Hle | w fuel timing node _ Hu | w w' i self timing since auth auth' X ef k x Hi Hrep
         | w lw r h' Hlw Hwr | w i th ex reply h' Hi Hex Hd].
  - split; [cbn; lia |]. intros Hu%Hun. apply tick_inv; auto.
  - split; [done |]. intros Hu'%Hun. apply start_inv; auto.
  - assert (clock w' = clock w) as Hclk.
    { destruct ef as [| | | | | | | to n T | to n T rev |]; try (cbn in Hrep; assert (w' = w) as -> by tauto; done).
      - destruct (acquire_issued _ _ _ _ _ _ _ _ _ Hrep) as (? & ? & _ & _ & Ho & _).
        by eapply outcome_sessions.
      - cbn in Hrep. destruct Hrep as [_ Hrep].
        assert (Hland : forall r, renewal_landed w since n T rev r w' -> clock w' = clock w)
          by by intros r (? & ? & _ & _ & ->).
        assert (Hlo : renewal_lost w since n T rev w' -> clock w' = clock w) by by intros (? & _ & ->).
        destruct x as [| [[r | |] |]]; naive_solver. }
    split; [cbn; lia |]. intros Hu%Hun. eapply call_inv; eauto.
  - split; [done |]. intros Hu%Hun. eapply land_inv; eauto.
  - split; [done |]. intros Hu%Hun. eapply release_inv; eauto.
Qed.

Lemma fencing_reachable_inv now w :
  (0 <= skew)%Z -> (0 <= now)%Z -> rtc lease_world_step (empty_lease_world now) w -> unsaturated w ->
  fencing_inv w.
Proof.
  intros Hskew Hnow Hr Hun.
  assert (H : (0 <= clock w)%Z /\ (unsaturated w -> fencing_inv w)); [| by apply H].
  apply (rtc_preserved lease_world_step
           (fun w => (0 <= clock w)%Z /\ (unsaturated w -> fencing_inv w)) (empty_lease_world now));
    [| | exact Hr].
  - intros s s' Hs Hst. by eapply step_inv.
  - split; [done |]. intros _. split_and!; cbn; [by intros ? ? ?%elem_of_nil | | | done];
      by intros ? ?%elem_of_nil.
Qed.

(** *** Reading off the invariant *)

(** A session that holds authority: it is not up for release. *)
Definition holds_authority (w : lease_world) (th : lease_thread) (a : NodeAuthority) : Prop :=
  th ∈ sessions w /\ release_exit th = None /\ lt_authority th = Some a /\ is_valid a (clock w) = true.

(** Either the lease is the session's and no clock has passed its expiry, or
    authority is about to end. *)
Lemma holds_backed w th a t :
  fencing_inv w -> holds_authority w th a -> (clock w <= t)%Z ->
  (deadline a < t + (2 * skew + 2) * MILLI)%Z \/
  exists v, Register.current (lease_hist w) = Some v /\ session_of v = session_id (lt_self th) /\
            (t / MILLI + skew < expiry_of v)%Z.
Proof.
  intros (_ & _ & Hth & _) (Hin & Hnr & Ha & Hval) Ht. apply andb_true_iff in Hval as [Hv _].
  destruct (Hth th Hin) as (g & _ & _ & _ & _ & _ & Hb). destruct (Hb Hnr) as (_ & Hau & _).
  destruct (Hau a Ha Hv) as (s & _ & Hd & G & Hall & Hcur). pose proof (wall_mono _ _ Ht).
  set (T := ttl (lt_timing th)) in *.
  destruct (Z.lt_ge_cases (t / MILLI + skew) (expires_from T s)) as [Hlt | Hge].
  - right. destruct Hcur as (v & Hv' & Hx & HG); [lia |]. exists v. split_and!; [done .. |].
    pose proof (Hall _ _ (current_written _ _ Hv') Hx HG). lia.
  - left. unfold expires_from in Hge.
    pose proof (Z.div_mod t MILLI ltac:(done)). pose proof (Z.mod_pos_bound t MILLI ltac:(done)).
    pose proof (Z.div_mod s MILLI ltac:(done)). pose proof (Z.mod_pos_bound s MILLI ltac:(done)).
    pose proof (Z.div_mod T MILLI ltac:(done)). pose proof (Z.mod_pos_bound T MILLI ltac:(done)).
    unfold MILLI in *. lia.
Qed.
End world.

(** What justifies a takeover: when a read of the Node Directory, which looks at
    the lease and reads a clock at most [wait] later, shows no lease of a node, or
    the lease of another session, every session of that node that it does not show
    has authority for less than [wait], twice the clock skew and 2 ms more. *)
Lemma unlisted_session_fenced (skew wait : Z) (id : string) (now : Z) (w : lease_world)
    (th : lease_thread) (a : NodeAuthority) (u : Z) (reply : option (NodeRecord * Revision)) :
  (0 <= skew)%Z -> (0 <= wait)%Z -> (0 <= now)%Z ->
  rtc (lease_world_step skew id) (empty_lease_world now) w -> unsaturated w ->
  holds_authority w th a ->
  wall_between skew (clock w) (clock w + wait) u -> Register.live_replies (lease_hist w) u (Ok reply) ->
  (forall n r, reply = Some (n, r) -> session_id n <> session_id (lt_self th)) ->
  (deadline a < clock w + wait + (2 * skew + 2) * MILLI)%Z.
Proof.
  intros Hskew Hwait Hnow Hr Hun Hh [_ Hu] Hrep Hother.
  destruct (holds_backed _ _ _ _ (clock w + wait) (fencing_reachable_inv _ _ _ _ Hskew Hnow Hr Hun) Hh)
    as [? | (v & Hv & Hx & He)]; [lia | done |].
  destruct reply as [[n r] |]; cbn in Hrep.
  - destruct Hrep as (e & Hcur & _). rewrite Hv in Hcur. injection Hcur as ->.
    by destruct (Hother n r eq_refl).
  - pose proof (Hrep v Hv). unfold expiry_of in He. lia.
Qed.

(** ** Runs *)
Definition demo_node (session : string) : NodeRecord :=
  MkNodeRecord "node-a" session "127.0.0.1:7000" 1 0 0 0 10 false false.
Definition demo_timing : RenewalTiming := MkTiming 10000000 10000000 3333333.

(** One call of a run: thread [i] gets the reply [x]; [tac] proves the reply. *)
Ltac run_call i x tac :=
  eapply rtc_l; [eapply (lease_call _ _ _ _ i _ _ _ _ _ _ _ _ x); [reflexivity | cbn [lease_replies]; tac] |];
  cbn [with_sessions sessions with_clock with_lease_hist clock lease_hist lost_writes app].
Ltac run_start session :=
  eapply rtc_l; [eapply (lease_start _ _ _ 1 demo_timing (demo_node session)); [reflexivity |] |].
Ltac run_tick t :=
  eapply rtc_l; [eapply (lease_tick _ _ _ t); cbn; lia |];
  cbn [with_sessions sessions with_clock with_lease_hist clock lease_hist lost_writes app].

(** The side conditions of a write in a run. *)
Ltac run_in_range := split; vm_compute; discriminate.
Ltac run_names :=
  let Hin := fresh in
  intros ? Hin%list_elem_of_In ?; cbn in Hin; intuition (simplify_eq).
Ltac run_vacant := let Hv := fresh in intros ? Hv; cbn in Hv; simplify_eq; vm_compute; discriminate.
Ltac run_writes := split_and!; [reflexivity | run_names | reflexivity].
Ltac run_acquired t :=
  split; [reflexivity |]; exists t, t; eexists;
  split_and!; [run_in_range | run_in_range | split; [run_vacant | run_writes] | reflexivity].
Ltac run_renewed t :=
  split; [reflexivity |]; exists t; eexists; split_and!; [run_in_range | run_writes | reflexivity].

Ltac run_unused :=
  split; [intros ? Hin%list_elem_of_In; cbn in Hin; intuition (subst; discriminate)
         | intros ? ? [(? & Hin%list_elem_of_In) | (? & Hin%list_elem_of_In)];
           cbn in Hin; intuition (simplify_eq; discriminate)].
Ltac run_unsaturated :=
  intros ? ? [(? & Hin%list_elem_of_In) | (? & Hin%list_elem_of_In)]; cbn in Hin;
  intuition (simplify_eq; vm_compute; reflexivity).
Ltac run_holds i :=
  split_and!; [apply (list_elem_of_lookup_2 _ i); reflexivity | reflexivity | reflexivity | reflexivity].

Definition granted (started ttl : Z) : NodeAuthority := MkNodeAuthority true (started + ttl) ttl false.

(** Startup after the acquisition at [s], checked at [now]. *)
Ltac run_install i s now :=
  run_call i tt ltac:(done); run_call i (granted s 10000000) ltac:(done); run_call i now ltac:(done).

(** Session [a] acquires the lease at 0.999999 ms and holds it until 10.999999
    ms; the record expires at 10 ms, and session [b] acquires it then. *)
Lemma overlap_run :
  exists w tha thb a b,
    rtc (lease_world_step 0 "node-a") (empty_lease_world 999999) w /\ unsaturated w /\
    holds_authority w tha a /\ holds_authority w thb b /\
    session_id (lt_self tha) = "a" /\ session_id (lt_self thb) = "b" /\
    deadline a = 10999999%Z /\ clock w = 10000000%Z /\
    Register.live_replies (lease_hist w) 10 (Ok (Some (demo_node "b", "r2"))).
Proof.
  eexists _, _, _, _, _. split.
  { run_start "a".
    { run_unused. }
    run_call 0 999999%Z ltac:(done).
    run_call 0 (Ready (Ok (Applied "r1")) : timed (result CoordinationError (MutationOutcome Revision)))
      ltac:(run_acquired 0%Z).
    run_install 0 999999%Z 999999%Z.
    run_tick 10000000%Z.
    run_start "b".
    { run_unused. }
    run_call 1 10000000%Z ltac:(done).
    run_call 1 (Ready (Ok (Applied "r2")) : timed (result CoordinationError (MutationOutcome Revision)))
      ltac:(run_acquired 10%Z).
    run_install 1 10000000%Z 10000000%Z.
    apply rtc_refl. }
  split. { run_unsaturated. }
  split. { run_holds 0. }
  split. { run_holds 1. }
  do 4 (split; [by vm_compute |]). exists 20%Z. by vm_compute.
Qed.

(** Session [a] renews at 8 ms; its authority and its lease end at 10 ms; the
    renewal lands and is confirmed at 12 ms. *)
Lemma revival_run :
  exists w w' th th' a a',
    rtc (lease_world_step 0 "node-a") (empty_lease_world 0) w /\
    rtc (lease_world_step 0 "node-a") w w' /\ clock w' = clock w /\
    sessions w !! 0 = Some th /\ sessions w' !! 0 = Some th' /\ lt_self th' = lt_self th /\
    release_exit th = None /\ lt_authority th = Some a /\ is_valid a (clock w) = false /\
    Register.vacant (lease_hist w) (clock w / MILLI) /\
    holds_authority w' th' a' /\ (clock w' + 6 * MILLI <= deadline a')%Z.
Proof.
  eexists _, _, _, _, _, _. split; [| split].
  { run_start "a".
    { run_unused. }
    run_call 0 0%Z ltac:(done).
    run_call 0 (Ready (Ok (Applied "r1")) : timed (result CoordinationError (MutationOutcome Revision)))
      ltac:(run_acquired 0%Z).
    run_install 0 0%Z 0%Z.
    run_call 0 0%Z ltac:(split; [done | by split]).
    run_call 0 0%Z ltac:(done).
    run_call 0 (granted 0 10000000) ltac:(done).
    run_tick 8000000%Z.
    run_call 0 false ltac:(split; [intros _; vm_compute; discriminate | by split]).
    run_call 0 (granted 0 10000000) ltac:(done).
    run_call 0 8000000%Z ltac:(done).
    run_call 0 8000000%Z ltac:(done).
    run_call 0 (MkReadings 10 10 8 true) ltac:(done).
    run_call 0 (granted 0 10000000) ltac:(done).
    run_call 0 8000000%Z ltac:(done).
    run_tick 12000000%Z.
    apply rtc_refl. }
  { run_call 0 (Ready (Ok (Applied "r2")) : timed (result CoordinationError (MutationOutcome Revision)))
      ltac:(run_renewed 12%Z).
    run_call 0 (granted 0 10000000) ltac:(done).
    run_call 0 tt ltac:(done).
    apply rtc_refl. }
  split_and!; try reflexivity.
  - run_vacant.
  - run_holds 0.
  - vm_compute. discriminate.
Qed.

(** ** Properties *)

(** C9: two sessions of one node id do not serve at the same time: in any
    execution, with any number of restarts, crashes, lost and late writes, when
    two sessions of a node id both hold valid authority and neither has been asked
    to shut down, the authority of one of them ends within twice the clock skew
    plus 2 ms (the milliseconds that the stored expiry truncates). *)
Theorem fencing_exclusive (skew : Z) (id : string) (now : Z) (w : lease_world)
    (th1 th2 : lease_thread) (a1 a2 : NodeAuthority) :
  (0 <= skew)%Z -> (0 <= now)%Z ->
  rtc (lease_world_step skew id) (empty_lease_world now) w -> unsaturated w ->
  holds_authority w th1 a1 -> holds_authority w th2 a2 ->
  session_id (lt_self th1) <> session_id (lt_self th2) ->
  (Z.min (deadline a1) (deadline a2) < clock w + (2 * skew + 2) * MILLI)%Z.
Proof.
  intros Hskew Hnow Hr Hun H1 H2 Hne.
  pose proof (fencing_reachable_inv _ _ _ _ Hskew Hnow Hr Hun) as Hinv.
  destruct (holds_backed _ _ _ _ (clock w) Hinv H1) as [? | (v1 & Hv1 & Hx1 & _)]; [done | lia |].
  destruct (holds_backed _ _ _ _ (clock w) Hinv H2) as [? | (v2 & Hv2 & Hx2 & _)]; [done | lia |].
  congruence.
Qed.

Lemma fencing_exclusive_witness :
  exists w th1 th2 a1 a2,
    rtc (lease_world_step 0 "node-a") (empty_lease_world 999999) w /\
    holds_authority w th1 a1 /\ holds_authority w th2 a2 /\
    (Z.min (deadline a1) (deadline a2) < clock w + (2 * 0 + 2) * MILLI)%Z.
Proof.
  destruct overlap_run as (w & th1 & th2 & a1 & a2 & Hr & Hun & H1 & H2 & Hx1 & Hx2 & _).
  exists w, th1, th2, a1, a2. split; [exact Hr |]. split; [exact H1 |]. split; [exact H2 |].
  apply (fencing_exclusive 0 "node-a" 999999 w th1 th2 a1 a2); try done. by rewrite Hx1, Hx2.
Defined.

(** C35: lapsed authority can come back: a renewal that is confirmed after its
    authority has lapsed makes the authority valid again, although meanwhile every
    read of the lease answers that the node has none, which lets other nodes take
    over its Actors. *)
Theorem late_renewal_revives_authority :
  exists w w' th th' a a',
    rtc (lease_world_step 0 "node-a") (empty_lease_world 0) w /\
    sessions w !! 0 = Some th /\ lt_authority th = Some a /\ is_valid a (clock w) = false /\
    (forall reply, Register.live_replies (lease_hist w) (clock w / MILLI) (Ok reply) -> reply = None) /\
    rtc (lease_world_step 0 "node-a") w w' /\ clock w' = clock w /\
    sessions w' !! 0 = Some th' /\ lt_self th' = lt_self th /\
    holds_authority w' th' a' /\ (clock w' + 6 * MILLI <= deadline a')%Z.
Proof.
  destruct revival_run
    as (w & w' & th & th' & a & a' & Hr & Hr' & Hc & Hi & Hi' & Hs & _ & Ha & Hv & Hvac & Hh & Hd).
  exists w, w', th, th', a, a'. split_and!; try done.
  intros [[n r] |] Hrep; [| done]. destruct Hrep as (e & Hcur & Hlt).
  pose proof (Hvac _ Hcur). cbn in *. lia.
Qed.
