(* ===== verification/Takeover.v ===== *)
(** * Takeovers and leases

    The routers of [Ownership] and the leases of [Fencing] in one world: any
    number of Servers resolve and release Actors while the sessions of every node
    id acquire, renew and lose their leases, and a read of the Node Directory is a
    read of the lease register of that node.  The clocks of different node ids are
    not related: a theorem that says something at a moment says it for the clock
    of the node it is about. *)

From stdpp Require Import functions.
From S2P Require Import Prelude Text Address Coordination Routing Ownership Lease Fencing.

(** ** The world *)

(** A reading of the Node Directory: the state it was made in, and what it said. *)
Record reading := MkReading {
  r_cluster : cluster;
  r_leases : string -> lease_world;
  r_node : string;
  r_reply : option NodeRecord
}.

Record takeover_world := MkTakeover {
  tw_cluster : cluster;
  tw_leases : string -> lease_world;
  tw_log : list reading
}.

Section takeover.
Context (skew wait : Z) (start : string -> Z).

(** The directory looks at the register, and compares the expiry with a wall clock
    that it reads at most [wait] later, when the reply has arrived: a router waits
    for [operation_timeout]. *)
Definition directory_replies (l : lease_world) (n : option NodeRecord) : Prop :=
  exists u reply, wall_between skew (clock l) (clock l + wait) u /\
    Register.live_replies (lease_hist l) u (Ok reply) /\ n = fst <$> reply.

Definition directory_ok (w : takeover_world) X (e : routerE X) : X -> Prop :=
  match e in routerE X return X -> Prop with
  | ReadNode id => fun t => if t is Ready (Ok n) then directory_replies (tw_leases w id) n else True
  | _ => fun _ => True
  end.

Definition read_by (w : takeover_world) X (e : routerE X) : X -> list reading :=
  match e in routerE X return X -> list reading with
  | ReadNode id => fun t =>
      if t is Ready (Ok n) then [MkReading (tw_cluster w) (tw_leases w) id n] else []
  | _ => fun _ => []
  end.

Inductive takeover_step : takeover_world -> takeover_world -> Prop :=
| takeover_lease w id l' :
    lease_world_step skew id (tw_leases w id) l' ->
    takeover_step w (MkTakeover (tw_cluster w) (<[id := l']> (tw_leases w)) (tw_log w))
| takeover_start w t :
    (exists self a, t = resolving self a \/ t = releasing self a) ->
    takeover_step w (MkTakeover (with_threads (tw_cluster w) (t :: threads (tw_cluster w))) (tw_leases w) (tw_log w))
| takeover_call w c' i self a X (e : routerE X) k x :
    threads (tw_cluster w) !! i = Some (MkThread self a (Call e k)) ->
    cluster_replies (tw_cluster w) X e x c' -> directory_ok w X e x ->
    takeover_step w (MkTakeover (with_threads c' (<[i := MkThread self a (k x)]> (threads c'))) (tw_leases w)
                       (read_by w X e x ++ tw_log w))
| takeover_crash w i :
    takeover_step w (MkTakeover (with_threads (tw_cluster w) (delete i (threads (tw_cluster w)))) (tw_leases w) (tw_log w))
| takeover_land w i wr r h' :
    in_flight (tw_cluster w) !! i = Some wr ->
    Register.writes (hist (tw_cluster w) (w_address wr)) (w_record wr) (w_expected wr) r h' ->
    takeover_step w (MkTakeover (with_hist (tw_cluster w) (w_address wr) h') (tw_leases w) (tw_log w)).

Definition takeover_initial : takeover_world :=
  MkTakeover empty_cluster (fun id => empty_lease_world (start id)) [].

(** Every step is a step of the cluster, or of the leases of one node. *)
Lemma takeover_cluster w w' :
  takeover_step w w' -> cluster_step (tw_cluster w) (tw_cluster w') \/ tw_cluster w' = tw_cluster w.
Proof.
  intros [w0 id l' Hl | w0 t Ht | w0 c' i self a X e k x Hi Hrep Hd | w0 i | w0 i wr r h' Hi Hw]; cbn.
  - by right.
  - left. by apply step_start.
  - left. by eapply step_call.
  - left. by apply step_crash.
  - left. by eapply step_land.
Qed.

(** Histories grow at the front. *)
Lemma with_hist_suffix c a h' a' :
  hist c a `suffix_of` h' -> hist c a' `suffix_of` hist (with_hist c a h') a'.
Proof. intros Hs. rewrite hist_with_hist. case_decide; [by subst | done]. Qed.

Lemma cluster_step_suffix c c' a : cluster_step c c' -> hist c a `suffix_of` hist c' a.
Proof.
  assert (Hw : forall b rec rev r h', Register.writes (hist c b) rec rev r h' -> hist c a `suffix_of` hist (with_hist c b h') a).
  { intros b rec rev r h' (_ & _ & ->). apply with_hist_suffix. by eexists [_]. }
  intros Hst. destruct Hst as [w0 t Ht | w0 w' i self b X e k x Hi Hrep | w0 i | w0 i wr r h' Hi Hwr]; [done | | done | by eapply Hw].
  change (hist w0 a `suffix_of` hist w' a). destruct e as [? | ? | ? | ? | b' rec rev | |]; cbn in Hrep; try (by subst w'); try (by destruct Hrep as [-> _]).
  assert (Hun : unconfirmed w0 b' rec rev w' -> hist w0 a `suffix_of` hist w' a).
  { intros [-> | [(r & h' & Hwr & ->) | ->]]; [done | by eapply Hw | done]. }
  destruct x as [| [[r | |] |]]; try (by apply Hun). destruct Hrep as (h' & Hwr & ->). by eapply Hw.
Qed.

(** ** The invariant *)

(** A reading made when [v] was on record says that the session of its owner [o] has no lease. *)
Definition evidence (log : list reading) (a : ActorAddress) (v : VersionedActorOwnerRecord) (o : ActorOwner) : Prop :=
  exists m, m ∈ log /\ Some v ∈ hist (r_cluster m) a /\ r_node m = owner_node_id o /\
    forall n, r_reply m = Some n -> session_id n <> owner_session_id o.

(** What a write over [v] by another node needs. *)
Definition displaces (log : list reading) (a : ActorAddress) (v : VersionedActorOwnerRecord) (rec : ActorOwnerRecord) : Prop :=
  forall o o', owner (record v) = Some o -> owner rec = Some o' -> owner_node_id o' <> owner_node_id o -> evidence log a v o.

Definition supported (log : list reading) (a : ActorAddress) (h : Register.history ActorOwnerRecord)
    (rec : ActorOwnerRecord) (rev : option Revision) : Prop :=
  rev = None \/ exists v, Some v ∈ h /\ rev = Some (revision v) /\ displaces log a v rec.

(** A record of [o] was displaced on a reading made while it was the latest one or
    an earlier one: after it was written, before its successor was. *)
Definition accounted (log : list reading) (a : ActorAddress) (v : VersionedActorOwnerRecord)
    (older : Register.history ActorOwnerRecord) (rec : ActorOwnerRecord) : Prop :=
  forall o o', owner (record v) = Some o -> owner rec = Some o' -> owner_node_id o' <> owner_node_id o ->
  exists m, m ∈ log /\ Some v ∈ hist (r_cluster m) a /\ hist (r_cluster m) a `suffix_of` (Some v :: older) /\
    r_node m = owner_node_id o /\ forall n, r_reply m = Some n -> session_id n <> owner_session_id o.

(** A thread read the directory after it read the record. *)
Definition reads_after (log : list reading) (a : ActorAddress) (g : ghost) : Prop :=
  forall v id n, last_read g = Some (Some v) -> last_node g = Some (id, n) ->
    exists m, m ∈ log /\ Some v ∈ hist (r_cluster m) a /\ r_node m = id /\ r_reply m = n.

Definition thread_reads (w : takeover_world) (t : thread) : Prop :=
  exists g, wp (router_monitor (t_self t) (t_address t)) g (t_proc t) call_post /\
            ghost_agrees (t_self t) (hist (tw_cluster w) (t_address t)) g /\
            reads_after (tw_log w) (t_address t) g.

Record takeover_inv (w : takeover_world) : Prop := {
  ti_cluster : cluster_inv (tw_cluster w);
  ti_threads t : t ∈ threads (tw_cluster w) -> thread_reads w t;
  ti_flight wr : wr ∈ in_flight (tw_cluster w) ->
    supported (tw_log w) (w_address wr) (hist (tw_cluster w) (w_address wr)) (w_record wr) (w_expected wr);
  ti_history a newer new old older : hist (tw_cluster w) a = newer ++ Some new :: Some old :: older ->
    accounted (tw_log w) a old older (record new);
  ti_suffix m a : m ∈ tw_log w -> hist (r_cluster m) a `suffix_of` hist (tw_cluster w) a;
  ti_lease id : rtc (lease_world_step skew id) (empty_lease_world (start id)) (tw_leases w id);
  ti_reading m : m ∈ tw_log w ->
    directory_replies (r_leases m (r_node m)) (r_reply m) /\
    rtc (lease_world_step skew (r_node m)) (empty_lease_world (start (r_node m))) (r_leases m (r_node m)) /\
    rtc (lease_world_step skew (r_node m)) (r_leases m (r_node m)) (tw_leases w (r_node m))
}.

Lemma displaces_mono log log' a v rec : log ⊆ log' -> displaces log a v rec -> displaces log' a v rec.
Proof. intros Hl Hd o o' Ho Ho' Hne. destruct (Hd o o' Ho Ho' Hne) as (m & Hm & He). exists m. split; [by apply Hl | done]. Qed.

Lemma accounted_mono log log' a v older rec : log ⊆ log' -> accounted log a v older rec -> accounted log' a v older rec.
Proof. intros Hl Hd o o' Ho Ho' Hne. destruct (Hd o o' Ho Ho' Hne) as (m & Hm & He). exists m. split; [by apply Hl | done]. Qed.

Lemma supported_mono log log' a h h' rec rev :
  log ⊆ log' -> (forall v, Some v ∈ h -> Some v ∈ h') -> supported log a h rec rev -> supported log' a h' rec rev.
Proof.
  intros Hl Hh [-> | (v & Hv & -> & Hd)]; [by left | right]. exists v. split_and!; [by apply Hh | done | by eapply displaces_mono].
Qed.

Lemma thread_reads_mono w w' t :
  extends (tw_cluster w) (tw_cluster w') -> tw_log w ⊆ tw_log w' -> thread_reads w t -> thread_reads w' t.
Proof.
  intros He Hl (g & Hwp & Hg & Hr). exists g. split; [done |]. split.
  - eapply ghost_agrees_mono, Hg. intros v. apply He.
  - intros v id n Hv Hn. destruct (Hr v id n Hv Hn) as (m & Hm & Hrest). exists m. split; [by apply Hl | done].
Qed.

(** A supported write that lands keeps the history accounted for. *)
Lemma landed_history log a h rec rev r h' :
  chain h -> supported log a h rec rev -> Register.writes h rec rev r h' ->
  (forall m, m ∈ log -> hist (r_cluster m) a `suffix_of` h) ->
  (forall newer new old older, h = newer ++ Some new :: Some old :: older -> accounted log a old older (record new)) ->
  forall newer new old older, h' = newer ++ Some new :: Some old :: older -> accounted log a old older (record new).
Proof.
  intros Hc Hs (Hm & _ & ->) Hsuf Hold [| x newer] new old older; cbn; intros [= Heq Hrest]; [| by eapply Hold].
  subst new h. cbn [record]. destruct Hs as [-> | (v & Hv & -> & Hd)].
  - by apply register_matches_absent in Hm.
  - apply register_matches_current in Hm as (c & Hcur & Hr). cbn in Hcur. injection Hcur as <-.
    pose proof (chain_coherent _ Hc old v (list_elem_of_here _ _) Hv Hr) as Hrec.
    assert (v = old) as <- by (destruct v, old; cbn in *; congruence).
    intros o o' Ho Ho' Hne. destruct (Hd o o' Ho Ho' Hne) as (m & Hm & Hvm & Hn). exists m.
    split_and!; [done | done | by apply Hsuf | apply Hn ..].
Qed.

(** The claim of a router is supported by what it has read. *)
Lemma claim_supported log self a h g rec rev :
  ghost_agrees self h g -> reads_after log a g -> may_claim self g rec rev \/ may_release self g rec rev ->
  supported log a h rec rev.
Proof.
  intros [Hlr _] Hra [[Ho Hm] | (v & Hv & -> & Hov & ->)].
  - destruct (last_read g) as [[v |] |] eqn:Hread; [| left; by destruct Hm | done].
    destruct Hm as (-> & _ & Hdis). right. exists v. split_and!; [by apply Hlr | done |].
    intros o o' Hov Ho' Hne. rewrite Ho in Ho'. injection Ho' as <-.
    destruct (Hdis o Hov) as [_ [Heq | (n & Hn & Hses)]]; [by destruct Hne |].
    destruct (Hra v _ _ Hread Hn) as (m & Hm & Hvm & Hid & Hrep). exists m. split_and!; [done | done | done |].
    intros r Hr. apply Hses. congruence.
  - right. exists v. split_and!; [by apply Hlr | done |]. intros o o' _ Ho'. by cbn in Ho'.
Qed.

(** What a reply does to what a router has read. *)
Lemma observe_reads w self a X (e : routerE X) g x g' :
  ghost_agrees self (hist (tw_cluster w) a) g -> reads_after (tw_log w) a g -> router_observe self X g e x g' ->
  reads_after (read_by w X e x ++ tw_log w) a g'.
Proof.
  intros [Hlr _] Hra Ho.
  assert (Hkeep : forall log' h l o, reads_after (log' ++ tw_log w) a (MkGhost h l (last_read g) (last_node g) o)).
  { intros log' h l o v nid n Hv Hn. destruct (Hra v nid n Hv Hn) as (m & Hm & Hrest). exists m. split; [set_solver | done]. }
  destruct e; cbn in Ho.
  - subst g'. apply (Hkeep []).
  - subst g'. apply (Hkeep []).
  - by destruct x as [| [r |]]; subst g'; intros v nid n Hv Hn; cbn in Hv, Hn.
  - destruct x as [| [r |]]; subst g'; [destruct g; apply (Hkeep []) | | destruct g; apply (Hkeep [])].
    intros v nid n Hv Hn. cbn in Hv, Hn |- *. injection Hn as <- <-.
    eexists. split; [constructor |]. cbn. split_and!; [by apply Hlr | done | done].
  - by destruct x as [| [[r | |] |]]; subst g'; intros v nid n Hv Hn; cbn in Hv, Hn.
  - subst g'. destruct x; [apply (Hkeep []) | destruct g; apply (Hkeep [])].
  - subst g'. apply (Hkeep []).
Qed.

(** What a call does to the cluster. *)
Lemma call_effect c self a X (e : routerE X) g x c' :
  router_allowed self a X g e -> cluster_replies c X e x c' ->
  c' = c \/ exists rec rev, (may_claim self g rec rev \/ may_release self g rec rev) /\
    ((exists r h', Register.writes (hist c a) rec rev r h' /\ c' = with_hist c a h') \/
     c' = with_in_flight c (MkWrite a rec rev :: in_flight c)).
Proof.
  intros Hal Hrep. destruct e; cbn in Hal, Hrep; try (by left).
  - left. by destruct Hrep.
  - destruct Hal as (-> & _ & Hmay).
    assert (Hm : may_claim self g rec rev \/ may_release self g rec rev) by naive_solver.
    assert (Hun : unconfirmed c a rec rev c' -> c' = c \/ exists rec rev,
      (may_claim self g rec rev \/ may_release self g rec rev) /\
      ((exists r h', Register.writes (hist c a) rec rev r h' /\ c' = with_hist c a h') \/
       c' = with_in_flight c (MkWrite a rec rev :: in_flight c))).
    { intros [-> | [(r & h' & Hw & ->) | ->]]; [by left | right; eauto 10 | right; eauto 10]. }
    destruct x as [| [[r | |] |]]; try (by apply Hun). destruct Hrep as (h' & Hw & ->). right; eauto 10.
Qed.

Lemma landed_parts w a rec rev r h' :
  takeover_inv w -> supported (tw_log w) a (hist (tw_cluster w) a) rec rev ->
  Register.writes (hist (tw_cluster w) a) rec rev r h' ->
  (forall wr, wr ∈ in_flight (tw_cluster w) -> supported (tw_log w) (w_address wr)
     (hist (with_hist (tw_cluster w) a h') (w_address wr)) (w_record wr) (w_expected wr)) /\
  (forall a' newer new old older, hist (with_hist (tw_cluster w) a h') a' = newer ++ Some new :: Some old :: older ->
     accounted (tw_log w) a' old older (record new)).
Proof.
  intros Hinv Hs Hw. split.
  - intros wr Hwr. eapply supported_mono; [done | | by apply (ti_flight _ Hinv)].
    intros v Hv. rewrite hist_with_hist. case_decide; [subst | done]. by eapply writes_grow.
  - intros a' newer new old older. rewrite hist_with_hist. case_decide; [subst a' | apply (ti_history _ Hinv)].
    destruct (ti_cluster _ Hinv) as (Hch & _ & _). 
    eapply landed_history; [apply Hch | done | done | | apply (ti_history _ Hinv)]. intros m. apply (ti_suffix _ Hinv).
Qed.

(** A step of a router that keeps what was read. *)
Lemma router_step_inv w c' log' :
  takeover_inv w -> cluster_step (tw_cluster w) c' -> tw_log w ⊆ log' ->
  (forall t, t ∈ threads c' -> thread_reads (MkTakeover c' (tw_leases w) log') t) ->
  (forall wr, wr ∈ in_flight c' -> supported log' (w_address wr) (hist c' (w_address wr)) (w_record wr) (w_expected wr)) ->
  (forall a newer new old older, hist c' a = newer ++ Some new :: Some old :: older -> accounted log' a old older (record new)) ->
  (forall m, m ∈ log' -> m ∈ tw_log w \/
     r_cluster m = tw_cluster w /\ r_leases m = tw_leases w /\ directory_replies (r_leases m (r_node m)) (r_reply m)) ->
  takeover_inv (MkTakeover c' (tw_leases w) log').
Proof.
  intros Hinv Hst Hl Hth Hfl Hhi Hlog. split; cbn; try done.
  - eapply cluster_step_inv; [apply (ti_cluster _ Hinv) | done].
  - intros m a [Hm | (-> & _)]%Hlog; [| by apply cluster_step_suffix].
    etrans; [by apply (ti_suffix _ Hinv) | by apply cluster_step_suffix].
  - apply (ti_lease _ Hinv).
  - intros m [Hm | (_ & Hle & Hd)]%Hlog; [by apply (ti_reading _ Hinv) |]. split; [done |]. rewrite Hle.
    split; [apply (ti_lease _ Hinv) | apply rtc_refl].
Qed.

Lemma call_takeover_inv w c' i self a X (e : routerE X) k x :
  takeover_inv w -> threads (tw_cluster w) !! i = Some (MkThread self a (Call e k)) ->
  cluster_replies (tw_cluster w) X e x c' -> directory_ok w X e x ->
  takeover_inv (MkTakeover (with_threads c' (<[i := MkThread self a (k x)]> (threads c'))) (tw_leases w)
                  (read_by w X e x ++ tw_log w)).
Proof.
  intros Hinv Hi Hrep Hd.
  destruct (ti_threads _ Hinv _ (list_elem_of_lookup_2 _ _ _ Hi)) as (g & [Hal Hk] & Hg & Hra). cbn in Hal, Hk, Hg, Hra.
  destruct (call_step_inv self a X e _ x c' g (ti_cluster _ Hinv) Hg Hal Hrep)
    as (Hinv' & Hext & Hths & g' & Hobs & Hg').
  assert (Hl : tw_log w ⊆ read_by w X e x ++ tw_log w) by set_solver.
  assert (Hsup : forall rec rev, may_claim self g rec rev \/ may_release self g rec rev ->
    supported (tw_log w) a (hist (tw_cluster w) a) rec rev) by (intros; by eapply claim_supported).
  apply (router_step_inv w); [done | by eapply step_call | done | ..].
  - intros t Ht. apply list_elem_of_lookup in Ht as [j Hj]. cbn in Hj. rewrite Hths in Hj.
    apply list_lookup_insert_Some in Hj as [(-> & <- & _) | (_ & Hj)].
    + exists g'. split; [by apply Hk |]. split; [exact Hg' | by eapply observe_reads].
    + apply (thread_reads_mono w); [exact Hext | done |]. by eapply (ti_threads _ Hinv), list_elem_of_lookup_2.
  - cbn. intros wr Hwr. destruct (call_effect _ _ _ _ _ _ _ _ Hal Hrep) as [-> | (rec & rev & Hm & [(r & h' & Hw & ->) | ->])].
    + eapply supported_mono; [done | done | by apply (ti_flight _ Hinv)].
    + eapply supported_mono; [done | done | by eapply landed_parts; eauto].
    + cbn in Hwr. apply elem_of_cons in Hwr as [-> | Hwr]; [| eapply supported_mono; [done | done | by apply (ti_flight _ Hinv)]].
      eapply supported_mono; [done | done | by apply Hsup].
  - cbn. intros a' newer new old older Hh. apply (accounted_mono (tw_log w)); [done |].
    destruct (call_effect _ _ _ _ _ _ _ _ Hal Hrep) as [-> | (rec & rev & Hm & [(r & h' & Hw & ->) | ->])];
      [by eapply (ti_history _ Hinv) | | by eapply (ti_history _ Hinv)].
    destruct (landed_parts w a rec rev r h' Hinv (Hsup _ _ Hm) Hw) as [_ Hx]. by eapply Hx.
  - intros m [Hm | ?]%elem_of_app; [right | by left]. destruct e; cbn in Hm, Hd; try by apply elem_of_nil in Hm.
    destruct x as [| [n |]]; try by apply elem_of_nil in Hm. by apply list_elem_of_singleton in Hm as ->.
Qed.

Lemma lease_takeover_inv w id l' :
  takeover_inv w -> lease_world_step skew id (tw_leases w id) l' ->
  takeover_inv (MkTakeover (tw_cluster w) (<[id := l']> (tw_leases w)) (tw_log w)).
Proof.
  intros [H1 H2 H3 H4 H7 H5 H6] Hst. split; cbn; try done.
  - intros id'. destruct (decide (id' = id)) as [-> | Hne]; [rewrite fn_lookup_insert | by rewrite fn_lookup_insert_ne].
    eapply rtc_r; [apply H5 | exact Hst].
  - intros m Hm. destruct (H6 m Hm) as (Hd & Hr & Hs). split_and!; [done | done |].
    destruct (decide (r_node m = id)) as [<- | Hne]; [rewrite fn_lookup_insert | by rewrite fn_lookup_insert_ne].
    eapply rtc_r; [exact Hs | exact Hst].
Qed.

Lemma takeover_step_inv : preserved takeover_step takeover_inv.
Proof.
  intros w w' Hinv Hst. destruct Hst as [w id l' Hl | w t Ht | w c' i self a X e k x Hi Hrep Hd | w i | w i wr r h' Hi Hw].
  - by apply lease_takeover_inv.
  - apply router_step_inv; [done | by apply step_start | done | | apply (ti_flight _ Hinv) | apply (ti_history _ Hinv) | by left].
    intros t'. cbn. rewrite elem_of_cons. intros [-> | Ht']; [| by apply (ti_threads _ Hinv)].
    exists ghost0. split; [by apply thread_start_wp | done].
  - by apply call_takeover_inv.
  - apply router_step_inv; [done | by apply step_crash | done | | apply (ti_flight _ Hinv) | apply (ti_history _ Hinv) | by left].
    intros t' [j Hj]%list_elem_of_lookup. apply (ti_threads _ Hinv). cbn in Hj.
    rewrite list_lookup_delete in Hj. case_decide; by eapply list_elem_of_lookup_2.
  - assert (Hs : supported (tw_log w) (w_address wr) (hist (tw_cluster w) (w_address wr)) (w_record wr) (w_expected wr))
      by (by eapply (ti_flight _ Hinv), list_elem_of_lookup_2).
    destruct (landed_parts _ _ _ _ _ _ Hinv Hs Hw) as [Hfl Hhi].
    apply router_step_inv; [done | by eapply step_land | done | | done | done | by left].
    intros t Ht. apply (thread_reads_mono w); [| done | by apply (ti_threads _ Hinv)].
    intros a' v. cbn. rewrite hist_with_hist. case_decide; [subst; intros Hv; by eapply writes_grow | done].
Qed.

Lemma takeover_reachable_inv w : rtc takeover_step takeover_initial w -> takeover_inv w.
Proof.
  apply rtc_preserved; [exact takeover_step_inv |]. split; cbn; try done.
  - apply (reachable_inv empty_cluster), rtc_refl.
  - by intros t ?%elem_of_nil.
  - by intros wr ?%elem_of_nil.
  - intros a newer new old older Hh. by destruct newer.
  - by intros m a ?%elem_of_nil.
  - by intros m ?%elem_of_nil.
Qed.

Lemma unsaturated_before id l l' : rtc (lease_world_step skew id) l l' -> unsaturated l' -> unsaturated l.
Proof.
  induction 1 as [| l l1 l2 Hst _ IH]; [done |]. intros Hun n e Hw. by eapply (IH Hun), step_written.
Qed.

(** ** Runs *)

(** The schedule of [Ownership], with a directory that answers [answer]. *)
Definition directory_handler (answer : string -> option NodeRecord) X (e : routerE X) (c : cluster) : X * cluster :=
  match e in routerE X return X * cluster with
  | ReadNode id => (Ready (Ok (answer id)), c)
  | e => cluster_handler _ e c
  end.

Lemma directory_handler_replies answer c ts L log X (e : routerE X) :
  (forall id, directory_replies (L id) (answer id)) ->
  let '(x, c') := directory_handler answer X e c in
  cluster_replies (with_threads c ts) X e x (with_threads c' ts) /\
  directory_ok (MkTakeover (with_threads c ts) L log) X e x.
Proof.
  intros Ha. pose proof (cluster_handler_replies c ts X e) as Hrep.
  destruct e; cbn in Hrep |- *; try done. by destruct (Register.matches _ _).
Qed.

(** The same, at a call that the handler answers. *)
Lemma directory_handler_sound answer w X (e : routerE X) x c' :
  (forall id, directory_replies (tw_leases w id) (answer id)) -> directory_handler answer X e (tw_cluster w) = (x, c') ->
  cluster_replies (tw_cluster w) X e x c' /\ directory_ok w X e x.
Proof.
  intros Ha Hd. pose proof (directory_handler_replies answer (tw_cluster w) (threads (tw_cluster w)) (tw_leases w) (tw_log w) X e Ha) as Hrep.
  assert (Ht : threads c' = threads (tw_cluster w)).
  { change c' with (x, c').2. rewrite <- Hd. pose proof (cluster_handler_threads (tw_cluster w) X e) as H. by destruct e. }
  rewrite Hd in Hrep. rewrite <- Ht in Hrep at 2. rewrite !with_threads_id in Hrep. by destruct w.
Qed.

Lemma takeover_run answer (p : proc routerE call_result) i self a c ts L log :
  (forall id, directory_replies (L id) (answer id)) -> ts !! i = Some (MkThread self a p) ->
  let '(r, c') := run (directory_handler answer) p c in
  exists log', rtc takeover_step (MkTakeover (with_threads c ts) L log)
                 (MkTakeover (with_threads c' (<[i := MkThread self a (Ret r)]> ts)) L log').
Proof.
  intros Ha. revert c ts log. induction p as [r | X e k IH]; intros c ts log Hi; cbn.
  - rewrite list_insert_id by done. exists log. apply rtc_refl.
  - pose proof (directory_handler_replies answer c ts L log X e Ha) as Hrep.
    destruct (directory_handler answer X e c) as [x c1]. destruct Hrep as [Hrep Hd].
    specialize (IH x c1 (<[i := MkThread self a (k x)]> ts)
                  (read_by (MkTakeover (with_threads c ts) L log) X e x ++ log)).
    destruct (run (directory_handler answer) (k x) c1) as [r c2].
    destruct IH as [log' Hr]; [apply list_lookup_insert_eq; by eapply lookup_lt_Some |].
    exists log'. eapply rtc_l.
    { apply (takeover_call (MkTakeover (with_threads c ts) L log) (with_threads c1 ts) i self a X e k x); done. }
    rewrite list_insert_insert_eq in Hr. exact Hr.
Qed.

(** A run of the leases of one node is a run of the world. *)
Lemma takeover_leases_run id c L l l' log :
  rtc (lease_world_step skew id) l l' -> L id = l ->
  exists L', rtc takeover_step (MkTakeover c L log) (MkTakeover c L' log) /\ L' id = l' /\
             forall id', id' <> id -> L' id' = L id'.
Proof.
  intros Hr. revert L. induction Hr as [l | l l1 l2 Hst _ IH]; intros L HL.
  - exists L. split; [apply rtc_refl | done].
  - destruct (IH (<[id := l1]> L)) as (L' & Hr & Hid & Hne); [apply fn_lookup_insert |].
    exists L'. split; [| split; [done |]].
    + eapply rtc_l; [| exact Hr]. apply (takeover_lease (MkTakeover c L log)). cbn. by rewrite HL.
    + intros id' Hn. rewrite (Hne id' Hn). by apply fn_lookup_insert_ne.
Qed.
End takeover.

(** ** A run

    Session [a] of node [node-a] claims the room; a later session [b] acquires the
    lease of the node at its expiry, while [a] has authority for another
    millisecond; node [node-b] resolves the room and takes it over. *)
Definition owner_a : ClusterRouter := MkClusterRouter "node-a" "a".
Definition other_b : ClusterRouter := MkClusterRouter "node-b" "c".
Definition node_a_directory (id : string) : option NodeRecord :=
  if bool_decide (id = "node-a") then Some (demo_node "b") else None.

Definition takeover_run_a : call_result * cluster :=
  run (directory_handler node_a_directory) (t_proc (resolving owner_a demo_room)) empty_cluster.
Definition takeover_run_b : call_result * cluster :=
  run (directory_handler node_a_directory) (t_proc (resolving other_b demo_room)) takeover_run_a.2.
Definition takeover_threads : list thread :=
  [MkThread other_b demo_room (Ret takeover_run_b.1); MkThread owner_a demo_room (Ret takeover_run_a.1)].

Lemma takeover_run_hist :
  hist (with_threads takeover_run_b.2 takeover_threads) demo_room =
    [Some (MkVersioned (local_claim other_b 2) "rr"); Some (MkVersioned (local_claim owner_a 1) "r")].
Proof. vm_compute. reflexivity. Qed.

(** Leases at which the directory answers [node_a_directory] while a session [a]
    of [node-a] still has authority. *)
Lemma takeover_run_leases :
  exists (l : lease_world) (tha : lease_thread) (auth : NodeAuthority),
    rtc (lease_world_step 0 "node-a") (empty_lease_world 999999) l /\
    forall L : string -> lease_world, L "node-a" = l -> (forall id, id <> "node-a" -> L id = empty_lease_world 999999) ->
      (forall id, directory_replies 0 0 (L id) (node_a_directory id)) /\ (forall id, unsaturated (L id)) /\
      holds_authority (L "node-a") tha auth /\ session_id (lt_self tha) = "a".
Proof.
  destruct overlap_run as (l & tha & thb & a & b & Hr & Hun & Ha & _ & Hxa & _ & _ & Hc & Hlive).
  exists l, tha, a. split; [done |]. intros L <- Hne.
  split; [| split; [| done]]; intros id; (destruct (decide (id = "node-a")) as [-> | Hn]; [| rewrite (Hne id Hn)]).
  - exists 10%Z, (Some (demo_node "b", "r2")). rewrite Hc. split_and!; [| done | done]. split; vm_compute; discriminate.
  - unfold node_a_directory. rewrite bool_decide_eq_false_2 by done.
    exists 0%Z, None. split_and!; [split; vm_compute; discriminate | done | done].
  - done.
  - intros n e [(r & Hin) | (x & Hin)]; by apply elem_of_nil in Hin.
Qed.

Lemma takeover_run_reaches :
  exists L log tha a,
    rtc (takeover_step 0 0) (takeover_initial (fun _ => 999999%Z))
        (MkTakeover (with_threads takeover_run_b.2 takeover_threads) L log) /\
    (forall id, unsaturated (L id)) /\
    holds_authority (L "node-a") tha a /\ session_id (lt_self tha) = "a".
Proof.
  destruct takeover_run_leases as (l & tha & a & Hl & HL).
  destruct (takeover_leases_run 0 0 "node-a" empty_cluster (fun _ => empty_lease_world 999999) _ _ [] Hl eq_refl)
    as (L & Hrun & Hid & Hne). destruct (HL L Hid Hne) as [Hdir Hrest].
  destruct (takeover_run 0 0 node_a_directory (t_proc (resolving owner_a demo_room)) 0 owner_a demo_room empty_cluster
              [resolving owner_a demo_room] L [] Hdir eq_refl) as [log1 Hra].
  destruct (takeover_run 0 0 node_a_directory (t_proc (resolving other_b demo_room)) 0 other_b demo_room takeover_run_a.2
              [resolving other_b demo_room; MkThread owner_a demo_room (Ret takeover_run_a.1)] L log1 Hdir eq_refl)
    as [log2 Hrb].
  exists L, log2, tha, a. split; [| exact Hrest].
  etrans; [exact Hrun |].
  eapply rtc_l; [apply (takeover_start 0 0 (MkTakeover empty_cluster L []) (resolving owner_a demo_room)); eauto |].
  etrans; [exact Hra |].
  eapply rtc_l; [eapply (takeover_start 0 0 _ (resolving other_b demo_room)); eauto |].
  exact Hrb.
Qed.

(** At a reading that does not list the session of [o], it has authority for no
    longer than the reader may take, and twice the skew. *)
Lemma reading_past_authority skew wait start w m o :
  (0 <= skew)%Z -> (0 <= wait)%Z -> (forall id, 0 <= start id)%Z ->
  takeover_inv skew wait start w -> (forall id, unsaturated (tw_leases w id)) ->
  m ∈ tw_log w -> r_node m = owner_node_id o -> (forall n, r_reply m = Some n -> session_id n <> owner_session_id o) ->
  forall th auth, holds_authority (r_leases m (owner_node_id o)) th auth -> session_id (lt_self th) = owner_session_id o ->
    (deadline auth < clock (r_leases m (owner_node_id o)) + wait + (2 * skew + 2) * MILLI)%Z.
Proof.
  intros Hskew Hwait Hstart Hinv Hun Hm Hid Hno th auth Hth Hses.
  destruct (ti_reading _ _ _ _ Hinv m Hm) as ((u & reply & Hu & Hrep & Heq) & Hrm & Hafter). rewrite Hid in *.
  apply (unlisted_session_fenced skew wait (owner_node_id o) (start (owner_node_id o)) _ th auth u reply); try done.
  - by eapply unsaturated_before, Hun.
  - intros n r ->. rewrite Hses. by apply Hno.
Qed.

(** ** Properties *)

(** C7: what a takeover costs: in any execution of any number of Servers and of
    the lease sessions of every node id, when the history of an Actor shows the
    record of one node directly before the record of another, the takeover rests
    on a read of the Node Directory that was made after the displaced record was
    written and before its successor was; and at the moment of that read every
    session the record named had authority for less than the time the reader may
    wait for the reply before it looks at its clock ([wait]), twice the clock skew
    and 2 ms more. *)
Theorem takeover_after_authority (skew wait : Z) (start : string -> Z) (w : takeover_world) (a : ActorAddress)
    (newer older : Register.history ActorOwnerRecord) (new old : VersionedActorOwnerRecord) (o o' : ActorOwner) :
  (0 <= skew)%Z -> (0 <= wait)%Z -> (forall id, 0 <= start id)%Z ->
  rtc (takeover_step skew wait) (takeover_initial start) w -> (forall id, unsaturated (tw_leases w id)) ->
  hist (tw_cluster w) a = newer ++ Some new :: Some old :: older ->
  owner (record old) = Some o -> owner (record new) = Some o' -> owner_node_id o' <> owner_node_id o ->
  exists m, m ∈ tw_log w /\
    Some old ∈ hist (r_cluster m) a /\ hist (r_cluster m) a `suffix_of` (Some old :: older) /\
    r_node m = owner_node_id o /\
    forall th auth, holds_authority (r_leases m (owner_node_id o)) th auth ->
      session_id (lt_self th) = owner_session_id o ->
      (deadline auth < clock (r_leases m (owner_node_id o)) + wait + (2 * skew + 2) * MILLI)%Z.
Proof.
  intros Hskew Hwait Hstart Hr Hun Hh Ho Ho' Hne. pose proof (takeover_reachable_inv _ _ _ _ Hr) as Hinv.
  destruct (ti_history _ _ _ _ Hinv _ _ _ _ _ Hh o o' Ho Ho' Hne) as (m & Hm & Hold & Hsuf & Hid & Hno).
  exists m. split_and!; [done .. |]. by eapply reading_past_authority.
Qed.

Lemma takeover_after_authority_witness :
  exists w m, rtc (takeover_step 0 0) (takeover_initial (fun _ => 999999%Z)) w /\
    m ∈ tw_log w /\ r_node m = "node-a" /\
    hist (r_cluster m) demo_room = [Some (MkVersioned (local_claim owner_a 1) "r")] /\
    (exists th auth, holds_authority (tw_leases w "node-a") th auth /\ session_id (lt_self th) = "a") /\
    forall th auth, holds_authority (r_leases m "node-a") th auth -> session_id (lt_self th) = "a" ->
      (deadline auth < clock (r_leases m "node-a") + 0 + (2 * 0 + 2) * MILLI)%Z.
Proof.
  destruct takeover_run_reaches as (L & log & tha & auth & Hr & Hun & Hh & Hx).
  destruct (takeover_after_authority 0 0 (fun _ => 999999%Z) _ demo_room [] []
              (MkVersioned (local_claim other_b 2) "rr") (MkVersioned (local_claim owner_a 1) "r")
              (self_owner owner_a) (self_owner other_b) ltac:(done) ltac:(done) ltac:(done) Hr Hun takeover_run_hist
              eq_refl eq_refl ltac:(done)) as (m & Hm & Hold & Hsuf & Hid & Hall).
  eexists _, m. split; [exact Hr |]. split; [exact Hm |]. split; [exact Hid |]. split; [| split; [by eauto | exact Hall]].
  destruct Hsuf as [[| x [| y pre]] Heq]; cbn in Heq; [by symmetry | | by destruct pre].
  injection Heq as _ Heq. rewrite <- Heq in Hold. by apply elem_of_nil in Hold.
Defined.
