(* ===== verification/S3Store.v ===== *)
(** * The S3 backend of the Coordination Store

    Models [coactor/src/cluster/s3.rs] ([S3CoordinationStore]): its
    configuration, the object keys, reads and conditional writes of node leases
    and owner records, the classification of SDK errors, and the listing of the
    Node Directory with its cache.  The S3 service and the JSON codec are not
    part of the program: the service appears as the replies to the effects
    [s3E], the codec as the class [JsonCodec] with its round-trip law.  The
    theorems show that, over a service that keeps its documented promises, the
    backend answers as the contract of [Coordination.Register] demands. *)

From S2P Require Import Prelude Text Address Coordination.

(** ** Configuration: [S3CoordinationStore::new] *)
Inductive S3StoreConfigError := EmptyBucket | InvalidPrefix.

Record S3CoordinationStore := MkS3Store {
  bucket : string;
  prefix : string;
  directory_refresh_interval : Z      (* nanoseconds *)
}.

Definition invalid_prefix (prefix : string) : bool :=
  negb (bool_decide (prefix = ""))
  && (starts_with "/" prefix || ends_with "/" prefix
      || existsb (fun part => bool_decide (part = "") || bool_decide (part = ".")
                              || bool_decide (part = "..")) (split_on "/"%char prefix)).

Definition s3_new (bucket prefix : string) : result S3StoreConfigError S3CoordinationStore :=
  if trim_is_empty bucket then Err EmptyBucket
  else if invalid_prefix prefix then Err InvalidPrefix
  else Ok (MkS3Store bucket prefix 3000000000).

Definition with_directory_refresh_interval (s : S3CoordinationStore) (interval : Z) :=
  MkS3Store (bucket s) (prefix s) interval.

(** ** Object keys *)
Definition key (s : S3CoordinationStore) (suffix : string) : string :=
  if bool_decide (prefix s = "") then suffix else prefix s +:+ "/" +:+ suffix.

Definition node_key (s : S3CoordinationStore) (node_id : string) : string :=
  key s ("nodes/" +:+ node_id +:+ "/lease.json").

Definition actor_key (s : S3CoordinationStore) (address : ActorAddress) : string :=
  key s ("actors/" +:+ actor_type address +:+ "/" +:+ actor_id address +:+ "/ownership.json").

Definition nodes_prefix (s : S3CoordinationStore) : string := key s "nodes/".

(** The key test of [fetch_nodes]: the node a listed key belongs to. *)
Definition listed_node (s : S3CoordinationStore) (object_key : string) : option string :=
  match strip_prefix (nodes_prefix s) object_key with
  | None => None
  | Some rest =>
      match strip_suffix "/lease.json" rest with
      | None => None
      | Some node_id =>
          if bool_decide (node_id = "") || contains_char "/"%char node_id then None else Some node_id
      end
  end.

(** ** The stored form *)
Record StoredNodeLease := MkStoredNodeLease {
  node : NodeRecord;
  expires_at_unix_ms : Z
}.

(** [#[serde(skip)] node_id]: a decoded record has an empty id until
    [read_node_key] fills it in from the key. *)
Definition with_node_id (n : NodeRecord) (id : string) : NodeRecord :=
  MkNodeRecord id (session_id n) (advertised_endpoint n) (protocol_version n) (lease_generation n)
    (sampled_at_unix_ms n) (active_actor_count n) (max_actor_count n) (pressured n) (draining n).

(** [serde_json] on the two stored types: [to_vec] may fail, [from_slice] may
    reject, and what [to_vec] wrote [from_slice] reads (with the skipped field
    at its default). *)
Class JsonCodec := {
  lease_to_vec : StoredNodeLease -> option string;
  lease_from_slice : string -> option StoredNodeLease;
  owner_to_vec : ActorOwnerRecord -> option string;
  owner_from_slice : string -> option ActorOwnerRecord;
  lease_round_trip l bytes : lease_to_vec l = Some bytes ->
    lease_from_slice bytes = Some (MkStoredNodeLease (with_node_id (node l) "") (expires_at_unix_ms l));
  owner_round_trip r bytes : owner_to_vec r = Some bytes -> owner_from_slice bytes = Some r
}.

(** ** The SDK *)

(** What the program asks of an [SdkError]: the status of its raw response, and
    the service error with its [is_no_such_key]. *)
Record SdkError := MkSdkError {
  raw_status : option Z;
  as_service_error : option bool
}.

Record GetObjectOutput := MkGetObjectOutput {
  e_tag : option string;
  body : result unit string        (* the body, collected; [Err] is a broken stream *)
}.

Record ListObjectsOutput := MkListObjectsOutput {
  contents : list (option string);  (* the keys of the objects *)
  is_truncated : option bool;
  next_continuation_token : option string
}.

(** A precondition of a write: [if_match(revision)] or [if_none_match("*")]. *)
Inductive s3E : Type -> Type :=
| GetObject (key : string) : s3E (result SdkError GetObjectOutput)
| PutObject (key body : string) (if_match : option Revision) : s3E (result SdkError (option string))
| DeleteObject (key : string) (if_match : Revision) : s3E (result SdkError unit)
| ListObjectsV2 (prefix : string) (continuation_token : option string)
    : s3E (result SdkError ListObjectsOutput)
| WallTimeMillis : s3E Z
| InstantNow : s3E Z
| JitteredInterval (interval : Z) : s3E Z.

(** [classify_read_error], [classify_write_error] *)
Definition classify_read_error (error : SdkError) : CoordinationError :=
  MkCoordinationError
    match raw_status error with
    | Some 401%Z | Some 403%Z => PermissionDenied
    | _ => Unavailable
    end.

Definition classify_write_error (error : SdkError)
    : result CoordinationError (MutationOutcome Revision) :=
  if bool_decide (raw_status error = Some 412%Z) then Ok Conflict
  else match as_service_error error with
       | Some _ => Err (classify_read_error error)
       | None => Ok (Indeterminate (classify_read_error error))
       end.

Definition invalid_data : CoordinationError := MkCoordinationError InvalidData.

(** ** The operations *)
Section operations.
Context {codec : JsonCodec} (s : S3CoordinationStore).

(** The part [read_node_key] and [read_actor_key] share: [Ok None] is a missing
    key. *)
Definition read_key (object_key : string)
    : proc s3E (result CoordinationError (option (Revision * string))) :=
  call! output := GetObject object_key;
  Ret match output with
      | Ok output =>
          try! revision := ok_or invalid_data (e_tag output);
          try! bytes := map_err (fun _ => MkCoordinationError Unavailable) (body output);
          Ok (Some (revision, bytes))
      | Err error =>
          if bool_decide (as_service_error error = Some true) then Ok None
          else Err (classify_read_error error)
      end.

(** [read_node_key] *)
Definition read_node_key (node_id : string) (include_expired : bool)
    : proc s3E (result CoordinationError (option (NodeRecord * Revision * Z))) :=
  bind! output := read_key (node_key s node_id);
  match output with
  | Err error => Ret (Err error)
  | Ok None => Ret (Ok None)
  | Ok (Some (revision, bytes)) =>
      match lease_from_slice bytes with
      | None => Ret (Err invalid_data)
      | Some lease =>
          let found := Ok (Some (with_node_id (node lease) node_id, revision, expires_at_unix_ms lease)) in
          if include_expired then Ret found
          else
            call! now := WallTimeMillis;
            Ret (if (expires_at_unix_ms lease <=? now)%Z then Ok None else found)
      end
  end.

(** The reply of a conditional put *)
Definition put_reply (output : result SdkError (option string))
    : result CoordinationError (MutationOutcome Revision) :=
  match output with
  | Ok (Some etag) => Ok (Applied etag)
  | Ok None => Err invalid_data
  | Err error => classify_write_error error
  end.

(** [put_node]; [ttl] is [ttl.as_millis()]. *)
Definition put_node (n : NodeRecord) (ttl : Z) (revision : option Revision)
    : proc s3E (result CoordinationError (MutationOutcome Revision)) :=
  let object_key := node_key s (node_id n) in
  call! now := WallTimeMillis;
  let lease := MkStoredNodeLease n (saturating_add now (Z.min ttl U64_MAX)) in
  match lease_to_vec lease with
  | None => Ret (Err invalid_data)
  | Some bytes =>
      call! output := PutObject object_key bytes revision;
      Ret (put_reply output)
  end.

(** [impl NodeDirectory]: [read_node]; [impl NodeLeaseStore] *)
Definition read_node (id : string) : proc s3E (result CoordinationError (option NodeRecord)) :=
  bind! r := read_node_key id false;
  Ret (result_map (option_map (fun x => x.1.1)) r).

Definition read_node_lease (id : string)
    : proc s3E (result CoordinationError (option (NodeRecord * Revision))) :=
  bind! r := read_node_key id false;
  Ret (result_map (option_map (fun x => x.1)) r).

Definition acquire_node (n : NodeRecord) (ttl : Z)
    : proc s3E (result CoordinationError (MutationOutcome Revision)) :=
  bind! r := read_node_key (node_id n) true;
  match r with
  | Err error => Ret (Err error)
  | Ok None => put_node n ttl None
  | Ok (Some (_, revision, expires_at)) =>
      call! now := WallTimeMillis;
      if (expires_at <=? now)%Z then put_node n ttl (Some revision) else Ret (Ok Conflict)
  end.

Definition renew_node (n : NodeRecord) (ttl : Z) (revision : Revision)
    : proc s3E (result CoordinationError (MutationOutcome Revision)) :=
  put_node n ttl (Some revision).

Definition release_node (id : string) (revision : Revision)
    : proc s3E (result CoordinationError (MutationOutcome unit)) :=
  call! output := DeleteObject (node_key s id) revision;
  Ret match output with
      | Ok _ => Ok (Applied ())
      | Err error =>
          result_map (fun outcome => match outcome with
                                     | Applied _ => Applied ()
                                     | Conflict => Conflict
                                     | Indeterminate error => Indeterminate error
                                     end) (classify_write_error error)
      end.

(** [read_actor_key], [read_actor_owner] *)
Definition read_actor_owner (address : ActorAddress)
    : proc s3E (result CoordinationError (option VersionedActorOwnerRecord)) :=
  bind! output := read_key (actor_key s address);
  Ret match output with
      | Err error => Err error
      | Ok None => Ok None
      | Ok (Some (revision, bytes)) =>
          try! r := ok_or invalid_data (owner_from_slice bytes);
          Ok (Some (MkVersioned r revision))
      end.

(** [compare_exchange_actor_owner] *)
Definition compare_exchange_actor_owner (address : ActorAddress) (r : ActorOwnerRecord)
    (revision : option Revision) : proc s3E (result CoordinationError (MutationOutcome Revision)) :=
  match owner_to_vec r with
  | None => Ret (Err invalid_data)
  | Some bytes =>
      call! output := PutObject (actor_key s address) bytes revision;
      Ret (put_reply output)
  end.

(** ** The Node Directory *)

(** The objects of one page. *)
Fixpoint fetch_page (keys : list (option string)) (nodes : list NodeRecord)
    : proc s3E (result CoordinationError (list NodeRecord)) :=
  match keys with
  | [] => Ret (Ok nodes)
  | k :: keys =>
      match k ≫= listed_node s with
      | None => fetch_page keys nodes
      | Some id =>
          bind! r := read_node_key id false;
          match r with
          | Err error => Ret (Err error)
          | Ok None => fetch_page keys nodes
          | Ok (Some (n, _, _)) => fetch_page keys (nodes ++ [n])
          end
      end
  end.

(** The loop over the pages; [None]: [fuel] pages did not suffice. *)
Fixpoint fetch_pages (fuel : nat) (continuation_token : option string) (nodes : list NodeRecord)
    : proc s3E (option (result CoordinationError (list NodeRecord))) :=
  match fuel with
  | O => Ret None
  | S fuel =>
      call! output := ListObjectsV2 (nodes_prefix s) continuation_token;
      match output with
      | Err error => Ret (Some (Err (classify_read_error error)))
      | Ok output =>
          bind! r := fetch_page (contents output) nodes;
          match r with
          | Err error => Ret (Some (Err error))
          | Ok nodes =>
              if negb (default false (is_truncated output)) then Ret (Some (Ok nodes))
              else match next_continuation_token output with
                   | None => Ret (Some (Err invalid_data))
                   | Some token => fetch_pages fuel (Some token) nodes
                   end
          end
      end
  end.

Definition by_node_id : relation NodeRecord := fun a b => str_le (node_id a) (node_id b).
#[global] Instance by_node_id_dec a b : Decision (by_node_id a b).
Proof. unfold by_node_id. apply _. Defined.
#[global] Instance by_node_id_total : Total by_node_id.
Proof. intros a b. apply str_le_total. Qed.

Definition fetch_nodes (fuel : nat) : proc s3E (option (result CoordinationError (list NodeRecord))) :=
  bind! r := fetch_pages fuel None [];
  Ret (option_map (result_map (merge_sort by_node_id)) r).

Record DirectoryCache := MkDirectoryCache {
  nodes : list NodeRecord;
  refresh_at : option Z
}.

Definition empty_cache : DirectoryCache := MkDirectoryCache [] None.

(** The fetch of [list_nodes], with what it leaves in the cache. *)
Definition refresh_cache (fuel : nat) (cache : DirectoryCache)
    : proc s3E (option (result CoordinationError (list NodeRecord)) * DirectoryCache) :=
  bind! r := fetch_nodes fuel;
  match r with
  | Some (Ok nodes) =>
      call! interval := JitteredInterval (directory_refresh_interval s);
      call! now := InstantNow;
      Ret (Some (Ok nodes), MkDirectoryCache nodes (Some (now + interval)%Z))
  | r => Ret (r, cache)
  end.

(** [list_nodes]; the cache is locked throughout. *)
Definition list_nodes (fuel : nat) (cache : DirectoryCache)
    : proc s3E (option (result CoordinationError (list NodeRecord)) * DirectoryCache) :=
  match refresh_at cache with
  | None => refresh_cache fuel cache
  | Some at_ =>
      call! now := InstantNow;
      if (now <? at_)%Z then Ret (Some (Ok (nodes cache)), cache) else refresh_cache fuel cache
  end.

End operations.

(** ** The service, as documented

    Every key is a compare-and-swap register of bytes whose revision is the
    ETag.  Other clients may write between any two requests
    ([interferes]); a response may be lost, so an error reply to a write may
    hide a write that took place; a reply may lack its ETag or its body. *)
Record s3_ghost := MkS3Ghost {
  objects : string -> Register.history string;
  times : list Z;                                  (* wall clock readings, newest first *)
  seen : option (Register.history string);         (* what the last read looked at *)
  effect : option (string * Register.history string * Register.history string)
                                                   (* the write that took place *)
}.

Definition fresh_ghost (objects : string -> Register.history string) : s3_ghost :=
  MkS3Ghost objects [] None None.

Definition interferes (g g' : s3_ghost) : Prop :=
  (forall k, (exists l, objects g' k = l ++ objects g k) /\ Register.coherent (objects g' k)) /\
  times g' = times g /\ seen g' = seen g /\ effect g' = effect g.

Definition with_seen (g : s3_ghost) (h : Register.history string) : s3_ghost :=
  MkS3Ghost (objects g) (times g) (Some h) (effect g).
Definition with_time (g : s3_ghost) (t : Z) : s3_ghost :=
  MkS3Ghost (objects g) (t :: times g) (seen g) (effect g).
Definition with_effect (g : s3_ghost) (k : string) (h : Register.history string) : s3_ghost :=
  MkS3Ghost (fun k' => if bool_decide (k' = k) then h else objects g k') (times g) (seen g)
    (Some (k, objects g k, h)).

Definition read_reply_ok (h : Register.history string) (reply : result SdkError GetObjectOutput) : Prop :=
  match reply with
  | Ok output =>
      exists v, Register.current h = Some v /\
                (forall e, e_tag output = Some e -> e = revision v) /\
                (forall b, body output = Ok b -> b = record v)
  | Err error => as_service_error error = Some true -> Register.current h = None
  end.

Definition s3_observe X (g : s3_ghost) (e : s3E X) : X -> s3_ghost -> Prop :=
  match e in s3E X return X -> s3_ghost -> Prop with
  | GetObject k => fun reply g' =>
      exists g1, interferes g g1 /\ g' = with_seen g1 (objects g1 k) /\ read_reply_ok (objects g1 k) reply
  | PutObject k b m => fun reply g' =>
      exists g1, interferes g g1 /\
        ((g' = g1 /\ is_ok reply = false) \/
         exists r h', Register.writes (objects g1 k) b m r h' /\ g' = with_effect g1 k h' /\
                      match reply with Ok etag => forall e, etag = Some e -> e = r | Err _ => True end)
  | DeleteObject k m => fun reply g' =>
      exists g1, interferes g g1 /\
        ((g' = g1 /\ is_ok reply = false) \/
         exists h', Register.deletes (objects g1 k) m h' /\ g' = with_effect g1 k h')
  | ListObjectsV2 _ _ => fun _ g' => interferes g g'
  | WallTimeMillis => fun t g' => g' = with_time g t
  | InstantNow => fun _ g' => g' = g
  | JitteredInterval _ => fun _ g' => g' = g
  end.

(** The keys the backend touches. *)
Definition s3_allowed (s : S3CoordinationStore) X (g : s3_ghost) (e : s3E X) : Prop :=
  match e with
  | GetObject k | PutObject k _ _ | DeleteObject k _ =>
      (exists id, k = node_key s id) \/ (exists a, k = actor_key s a)
  | ListObjectsV2 p _ => p = nodes_prefix s
  | _ => True
  end.

Definition s3_monitor (s : S3CoordinationStore) : monitor s3E s3_ghost :=
  Monitor s3E s3_ghost (s3_allowed s) s3_observe.

(** ** What the bytes of a key stand for *)
Definition decodes_entry {V} (decode : string -> option V)
    (b : option (Versioned string)) (v : option (Versioned V)) : Prop :=
  match b, v with
  | None, None => True
  | Some b, Some v => revision b = revision v /\ decode (record b) = Some (record v)
  | _, _ => False
  end.

Definition decodes {V} (decode : string -> option V)
    (h : Register.history string) (H : Register.history V) : Prop :=
  Forall2 (decodes_entry decode) h H.

Definition lease_of `{JsonCodec} (id : string) (bytes : string) : option (NodeRecord * Z) :=
  (fun l => (with_node_id (node l) id, expires_at_unix_ms l)) <$> lease_from_slice bytes.

(** The time to live a write at [t'] stores: [ttl] unless the expiry saturates. *)
Definition stored_ttl (t' ttl : Z) : Z := saturating_add t' (Z.min ttl U64_MAX) - t'.

Definition not_applied {A} (reply : result CoordinationError (MutationOutcome A)) : Prop :=
  match reply with Ok (Applied _) => False | _ => True end.

(** The reply [P] allows of the write that took place, if one did. *)
Definition write_post {V A} (k : string) (decode : string -> option V)
    (P : Register.history V -> result CoordinationError (MutationOutcome A) -> Register.history V ->
         list Z -> Prop)
    (reply : result CoordinationError (MutationOutcome A)) (g : s3_ghost) : Prop :=
  match effect g with
  | None => not_applied reply
  | Some (k', h, h') =>
      k' = k /\ forall H, decodes decode h H ->
        exists H', decodes decode h' H' /\ P H reply H' (times g)
  end.

Definition read_post {V A} (decode : string -> option V)
    (P : Register.history V -> result CoordinationError A -> list Z -> Prop)
    (reply : result CoordinationError A) (g : s3_ghost) : Prop :=
  exists h, seen g = Some h /\ forall H, decodes decode h H -> P H reply (times g).

(** ** Lemmas on decoded histories *)
Section decodes.
Context {V : Type} (decode : string -> option V).

Lemma decodes_current h H :
  decodes decode h H -> decodes_entry decode (Register.current h) (Register.current H).
Proof. intros [| b v h' H' Hbv _]; done. Qed.

Lemma decodes_current_None h H :
  decodes decode h H -> Register.current h = None -> Register.current H = None.
Proof. intros Hd%decodes_current Hc. rewrite Hc in Hd. by destruct (Register.current H). Qed.

Lemma decodes_current_Some h H b :
  decodes decode h H -> Register.current h = Some b ->
  exists v, Register.current H = Some v /\ revision v = revision b /\ decode (record b) = Some (record v).
Proof.
  intros Hd%decodes_current Hc. rewrite Hc in Hd.
  destruct (Register.current H) as [v |]; [| done]. destruct Hd. eauto.
Qed.

Lemma decodes_matches h H m :
  decodes decode h H -> Register.matches (Register.current H) m = Register.matches (Register.current h) m.
Proof.
  intros Hd%decodes_current.
  destruct (Register.current h), (Register.current H); cbn in *; try done. by destruct Hd as [-> _].
Qed.

Lemma decodes_elem h H w :
  decodes decode h H -> Some w ∈ H ->
  exists b, Some b ∈ h /\ revision b = revision w /\ decode (record b) = Some (record w).
Proof.
  intros Hd. induction Hd as [| b v h H Hbv Hd IH]; [by intros ?%elem_of_nil |].
  rewrite elem_of_cons. intros [<- | Hw].
  - destruct b as [b |]; [| done]. destruct Hbv. exists b. split; [constructor | done].
  - destruct (IH Hw) as (b' & Hb & ?). exists b'. split; [by constructor | done].
Qed.

(** A conditional write of bytes is the conditional write of what they stand for. *)
Lemma decodes_writes h H b v m r h' :
  decodes decode h H -> decode b = Some v -> Register.writes h b m r h' ->
  exists H', decodes decode h' H' /\ Register.writes H v m r H'.
Proof.
  intros Hd Hb (Hm & Hn & ->). exists (Some (MkVersioned v r) :: H). split; [by constructor |].
  split; [by rewrite (decodes_matches h) |]. split; [| done].
  intros w Hw Hr. destruct (decodes_elem _ _ _ Hd Hw) as (b' & Hb' & Hr' & Hdec).
  rewrite (Hn b' Hb') in Hdec; congruence.
Qed.

Lemma decodes_deletes h H m h' :
  decodes decode h H -> Register.deletes h m h' ->
  exists H', decodes decode h' H' /\ Register.deletes H m H'.
Proof.
  intros Hd (Hm & ->). exists (None :: H). split; [by constructor |].
  split; [by rewrite (decodes_matches h) | done].
Qed.
End decodes.

Lemma with_node_id_id n id : with_node_id (with_node_id n id) (node_id n) = n.
Proof. by destruct n. Qed.

Lemma lease_of_written `{JsonCodec} n e bytes :
  lease_to_vec (MkStoredNodeLease n e) = Some bytes -> lease_of (node_id n) bytes = Some (n, e).
Proof.
  intros Hb. unfold lease_of. rewrite (lease_round_trip _ _ Hb). cbn. by rewrite with_node_id_id.
Qed.

(** ** Lemmas on the operations *)
Ltac s3_step :=
  cbn [wp s3_monitor allowed observe s3_allowed s3_observe];
  split; [eauto | let x := fresh "x" in let g := fresh "g" in let Hg := fresh "Hg" in
                  intros x g Hg; cbn beta in Hg].

Section operation_lemmas.
Context {codec : JsonCodec} (s : S3CoordinationStore).

Lemma put_reply_applied output r : put_reply output = Ok (Applied r) -> output = Ok (Some r).
Proof.
  destruct output as [[e |] | e]; cbn; [naive_solver | done |].
  unfold classify_write_error. case_bool_decide; [done |]. by destruct (as_service_error e).
Qed.

Lemma put_reply_not_ok output : is_ok output = false -> not_applied (put_reply output).
Proof.
  intros Ho. destruct (put_reply output) as [[r | | ] | ] eqn:Hr; try done.
  apply put_reply_applied in Hr as ->. done.
Qed.

(** The shared read: what it returns is what the key held. *)
Lemma read_key_wp k g (Q : result CoordinationError (option (Revision * string)) -> s3_ghost -> Prop) :
  (exists id, k = node_key s id) \/ (exists a, k = actor_key s a) ->
  (forall g1 e, interferes g g1 -> Q (Err e) (with_seen g1 (objects g1 k))) ->
  (forall g1, interferes g g1 -> Register.current (objects g1 k) = None ->
              Q (Ok None) (with_seen g1 (objects g1 k))) ->
  (forall g1 v, interferes g g1 -> Register.current (objects g1 k) = Some v ->
              Q (Ok (Some (revision v, record v))) (with_seen g1 (objects g1 k))) ->
  wp (s3_monitor s) g (read_key k) Q.
Proof.
  intros Hk He Hn Hs. unfold read_key. s3_step.
  destruct Hg as (g1 & Hi & -> & Hr). cbn [wp]. destruct x as [output | error]; cbn in Hr.
  - destruct Hr as (v & Hc & Hetag & Hbody). destruct (e_tag output) as [e |]; [| by apply He].
    destruct (body output) as [b |]; [| by apply He].
    cbn. rewrite (Hetag e), (Hbody b) by done. auto.
  - case_bool_decide; auto.
Qed.

(** A conditional put is one conditional write of the record. *)
Lemma put_wp {V} (decode : string -> option V) k b v m g
    (P : Register.history V -> result CoordinationError (MutationOutcome Revision) ->
         Register.history V -> list Z -> Prop) :
  (exists id, k = node_key s id) \/ (exists a, k = actor_key s a) ->
  decode b = Some v -> effect g = None ->
  (forall g1 H reply H' r, interferes g g1 -> decodes decode (objects g1 k) H ->
     Register.writes H v m r H' ->
     match reply with Ok (Applied r') => r' = r | _ => True end ->
     P H reply H' (times g)) ->
  wp (s3_monitor s) g (call! output := PutObject k b m; Ret (put_reply output)) (write_post k decode P).
Proof.
  intros Hk Hb He HP. s3_step.
  destruct Hg as (g1 & Hi & Hcase). cbn [wp]. destruct Hcase as [[-> Ho] | (r & h' & Hw & -> & Hr)].
  - destruct Hi as (_ & _ & _ & Heff). unfold write_post. rewrite Heff, He. by apply put_reply_not_ok.
  - unfold write_post. cbn. split; [done |]. intros H0 Hd.
    destruct (decodes_writes _ _ _ _ _ _ _ _ Hd Hb Hw) as (H' & Hd' & Hw').
    exists H'. split; [done |]. pose proof Hi as (_ & -> & _). eapply HP; [done | done | done |].
    destruct (put_reply x) as [[r' | |] |] eqn:Hp; try done.
    apply put_reply_applied in Hp as ->. auto.
Qed.

Lemma put_node_wp n ttl m g
    (P : Register.history (NodeRecord * Z) -> result CoordinationError (MutationOutcome Revision) ->
         Register.history (NodeRecord * Z) -> list Z -> Prop) :
  effect g = None ->
  (forall t' g1 H reply H' r, interferes (with_time g t') g1 -> decodes (lease_of (node_id n)) (objects g1 (node_key s (node_id n))) H ->
     Register.writes H (n, t' + stored_ttl t' ttl)%Z m r H' ->
     match reply with Ok (Applied r') => r' = r | _ => True end ->
     P H reply H' (t' :: times g)) ->
  wp (s3_monitor s) g (put_node s n ttl m) (write_post (node_key s (node_id n)) (lease_of (node_id n)) P).
Proof.
  intros He HP. unfold put_node. s3_step. rename x into t'. subst g0.
  destruct (lease_to_vec _) as [b |] eqn:Hb; [| cbn; unfold write_post; cbn; by rewrite He].
  eapply put_wp; [eauto | by apply lease_of_written | done |].
  intros g1 H0 reply H' r Hi Hd Hw Hr. cbn [times with_time]. eapply (HP t' g1 H0 reply H' r); [done | done | | done].
  unfold stored_ttl. by replace (t' + _)%Z with (saturating_add t' (Z.min ttl U64_MAX)) by lia.
Qed.
End operation_lemmas.

Section contract.
Context {codec : JsonCodec} (s : S3CoordinationStore).

Lemma read_node_key_wp id (exp : bool) g
    (Q : result CoordinationError (option (NodeRecord * Revision * Z)) -> s3_ghost -> Prop) :
  (forall g1 e, interferes g g1 -> Q (Err e) (with_seen g1 (objects g1 (node_key s id)))) ->
  (forall g1, interferes g g1 -> Register.current (objects g1 (node_key s id)) = None ->
              Q (Ok None) (with_seen g1 (objects g1 (node_key s id)))) ->
  (forall g1 v n e g2, interferes g g1 -> Register.current (objects g1 (node_key s id)) = Some v ->
     lease_of id (record v) = Some (n, e) ->
     (if exp then g2 = with_seen g1 (objects g1 (node_key s id))
      else exists t, (t < e)%Z /\ g2 = with_time (with_seen g1 (objects g1 (node_key s id))) t) ->
     Q (Ok (Some (n, revision v, e))) g2) ->
  (forall g1 v n e t, interferes g g1 -> Register.current (objects g1 (node_key s id)) = Some v ->
     lease_of id (record v) = Some (n, e) -> (e <= t)%Z -> exp = false ->
     Q (Ok None) (with_time (with_seen g1 (objects g1 (node_key s id))) t)) ->
  wp (s3_monitor s) g (read_node_key s id exp) Q.
Proof.
  intros He Hn Hs Hx. unfold read_node_key. apply wp_bind, read_key_wp; [eauto | auto | auto |].
  intros g1 v Hi Hc. destruct (lease_from_slice (record v)) as [l |] eqn:Hl; [| by apply He].
  assert (Hlo : lease_of id (record v) = Some (with_node_id (node l) id, expires_at_unix_ms l)).
  { unfold lease_of. by rewrite Hl. }
  destruct exp.
  - by eapply Hs.
  - s3_step. subst g0. cbn [wp]. destruct (Z.leb_spec (expires_at_unix_ms l) x).
    + by eapply Hx.
    + eapply Hs; eauto.
Qed.

Lemma read_node_lease_wp id g :
  times g = [] ->
  wp (s3_monitor s) g (read_node_lease s id)
    (read_post (lease_of id) (fun H reply ts =>
       exists t, (ts = [] \/ ts = [t]) /\ Register.live_replies H t reply)).
Proof.
  intros Hts. unfold read_node_lease. apply wp_bind, read_node_key_wp; cbn [wp]; unfold read_post; cbn.
  - intros g1 e (_ & Ht & _). eexists. split; [done |]. intros. exists 0%Z.
    split; [left; congruence | done].
  - intros g1 (_ & Ht & _) Hc. eexists. split; [done |]. intros H0 Hd. exists 0%Z.
    split; [left; congruence |]. intros v. by rewrite (decodes_current_None _ _ _ Hd Hc).
  - intros g1 v n e g2 (_ & Ht & _) Hc Hl (t & Hlt & ->). eexists. split; [done |].
    intros H0 Hd. exists t. cbn. split; [right; congruence |].
    destruct (decodes_current_Some _ _ _ _ Hd Hc) as ([v' r] & Hcur & Hr & Hdec). cbn in *.
    exists e. rewrite Hl in Hdec. naive_solver.
  - intros g1 v n e t (_ & Ht & _) Hc Hl Hle _. eexists. split; [done |].
    intros H0 Hd. exists t. split; [right; congruence |]. intros v'.
    destruct (decodes_current_Some _ _ _ _ Hd Hc) as (v2 & Hcur & _ & Hdec).
    rewrite Hcur, Hl in *. intros [= <-]. injection Hdec as <-. done.
Qed.

Lemma read_actor_owner_wp a g :
  wp (s3_monitor s) g (read_actor_owner s a)
    (read_post owner_from_slice (fun H reply _ => Register.read_replies H reply)).
Proof.
  unfold read_actor_owner. apply wp_bind, read_key_wp; [eauto | ..]; cbn [wp]; unfold read_post; cbn.
  - eauto.
  - intros g1 Hi Hc. eexists. split; [done |]. intros H0 Hd.
    by rewrite (decodes_current_None _ _ _ Hd Hc).
  - intros g1 v Hi Hc. eexists. split; [done |]. intros H0 Hd.
    destruct (decodes_current_Some _ _ _ _ Hd Hc) as ([v' r] & Hcur & Hr & Hdec). cbn in *.
    rewrite Hdec. cbn. congruence.
Qed.

(** A conditional write replies as the register does. *)
Lemma writes_cas {V} (H : Register.history V) v m r H' reply :
  Register.writes H v m r H' ->
  match reply with Ok (Applied r') => r' = r | _ => True end ->
  Register.cas_replies H v m reply H'.
Proof. intros Hw Hr. destruct reply as [[r' | |] |]; cbn; [congruence | eauto..]. Qed.

Lemma compare_exchange_wp a rec m g :
  effect g = None ->
  wp (s3_monitor s) g (compare_exchange_actor_owner s a rec m)
    (write_post (actor_key s a) owner_from_slice (fun H reply H' _ => Register.cas_replies H rec m reply H')).
Proof.
  intros He. unfold compare_exchange_actor_owner.
  destruct (owner_to_vec rec) as [b |] eqn:Hb; [| cbn; unfold write_post; by rewrite He].
  eapply put_wp; [eauto | by apply owner_round_trip | done |].
  eauto using writes_cas.
Qed.

Lemma renew_node_wp n ttl rev g :
  effect g = None -> times g = [] ->
  wp (s3_monitor s) g (renew_node s n ttl rev)
    (write_post (node_key s (node_id n)) (lease_of (node_id n)) (fun H reply H' ts =>
       exists t', ts = [t'] /\
                  Register.cas_replies H (n, t' + stored_ttl t' ttl)%Z (Some rev) reply H')).
Proof.
  intros He Ht. apply put_node_wp; [done |]. rewrite Ht. eauto using writes_cas.
Qed.

Lemma release_node_wp id rev g :
  effect g = None ->
  wp (s3_monitor s) g (release_node s id rev)
    (write_post (node_key s id) (lease_of id) (fun H reply H' _ => Register.delete_replies H rev reply H')).
Proof.
  intros He. unfold release_node. s3_step.
  destruct Hg as (g1 & (_ & _ & _ & Heff) & [[-> Ho] | (h' & Hdel & ->)]); cbn [wp]; unfold write_post.
  - rewrite Heff, He. destruct x as [| e]; [done |]. cbn in *. unfold classify_write_error.
    case_bool_decide; [done |]. by destruct (as_service_error e).
  - cbn. split; [done |]. intros H0 Hd.
    destruct (decodes_deletes _ _ _ _ _ Hd Hdel) as (H' & Hd' & Hdel').
    exists H'. split; [done |]. destruct x as [| e]; cbn; [done |]. unfold classify_write_error.
    case_bool_decide; cbn; [eauto |]. destruct (as_service_error e); cbn; eauto.
Qed.

(** The value an acquisition found expired is still the one it replaces: its
    revision names it. *)
Lemma acquire_vacant id g1 g2 v n e t H :
  (forall k, (exists l, objects g2 k = l ++ objects g1 k) /\ Register.coherent (objects g2 k)) ->
  Register.current (objects g1 (node_key s id)) = Some v ->
  lease_of id (record v) = Some (n, e) -> (e <= t)%Z ->
  decodes (lease_of id) (objects g2 (node_key s id)) H ->
  Register.matches (Register.current H) (Some (revision v)) = true ->
  Register.vacant H t.
Proof.
  intros Hi Hc Hl Hle Hd Hm w Hw.
  destruct (register_matches_current _ _ Hm) as (w' & Hw' & Hrev).
  assert (w' = w) as -> by congruence.
  destruct (Hi (node_key s id)) as [(l & Hl2) Hcoh].
  destruct (decodes_elem _ _ _ w Hd) as (b & Hb & Hr & Hdec); [by apply register_current_elem |].
  assert (Hv : Some v ∈ objects g2 (node_key s id)).
  { rewrite Hl2. apply elem_of_app. right. by apply register_current_elem. }
  rewrite (Hcoh b v Hb Hv) in Hdec by congruence. rewrite Hl in Hdec. destruct (record w). naive_solver.
Qed.

Lemma acquire_node_wp n ttl g :
  effect g = None -> times g = [] ->
  wp (s3_monitor s) g (acquire_node s n ttl)
    (write_post (node_key s (node_id n)) (lease_of (node_id n)) (fun H reply H' ts =>
       exists t t', (ts = [t'] \/ ts = [t'; t]) /\
                    Register.acquire_replies H n (stored_ttl t' ttl) t t' reply H')).
Proof.
  intros He Ht. unfold acquire_node.
  assert (Hacq : forall H reply H' r t t' m,
    Register.vacant H t -> Register.writes H (n, t' + stored_ttl t' ttl)%Z m r H' ->
    match reply with Ok (Applied r') => r' = r | _ => True end ->
    Register.acquire_replies H n (stored_ttl t' ttl) t t' reply H').
  { intros H0 reply H' r t t' m Hvac (Hm & Hn & ->) Hr.
    assert (Hacq : Register.acquires H0 n (stored_ttl t' ttl) t t' r
                     (Some (MkVersioned (n, (t' + stored_ttl t' ttl)%Z) r) :: H0)).
    { split; [done |]. split; [| done].
      destruct (Register.current H0); cbn; [by apply bool_decide_eq_true_2 | done]. }
    destruct reply as [[r' | |] |]; cbn; [by subst r' | eauto..]. }
  apply wp_bind, read_node_key_wp; cbn [wp].
  - intros g1 e (_ & _ & _ & Heff). unfold write_post. cbn. by rewrite Heff, He.
  - intros g1 Hi Hc. pose proof Hi as (_ & Ht1 & _ & Heff). eapply put_node_wp; [cbn; congruence |].
    intros t' g2 H0 reply H' r Hi2 Hd Hw Hr. exists 0%Z, t'. cbn [times with_seen].
    split; [left; congruence |]. eapply Hacq; [| done | done].
    destruct Hw as (Hm & _ & _). apply register_matches_absent in Hm. intros v. by rewrite Hm.
  - intros g1 v n0 e g2 Hi Hc Hl ->. pose proof Hi as (_ & Ht1 & _ & Heff). s3_step. subst g0. rename x into t.
    destruct (Z.leb_spec e t); [| cbn; unfold write_post; cbn; by rewrite Heff, He].
    eapply put_node_wp; [cbn; congruence |].
    intros t' g2 H1 reply H' r Hi2 Hd Hw Hr. exists t, t'. cbn [times with_time with_seen].
    split; [right; congruence |]. eapply Hacq; [| done | done].
    destruct Hw as (Hm & _ & _). eapply (acquire_vacant _ g1 g2); [exact (proj1 Hi2) | done..].
  - done.
Qed.
End contract.

(** ** Lemmas on keys *)
Definition canonical_segment (part : string) : Prop := part <> "" /\ part <> "." /\ part <> "..".

Lemma split_on_nonempty c t : split_on c t <> [].
Proof. destruct t as [| d t]; cbn; [done |]. case_bool_decide; [done |]. by destruct (split_on c t). Qed.

Lemma split_on_app c t u : split_on c (t +:+ String c u) = split_on c t ++ split_on c u.
Proof.
  induction t as [| d t IH].
  - rewrite string_app_nil. cbn. by rewrite bool_decide_eq_true_2.
  - rewrite string_app_cons. cbn [split_on]. rewrite IH. case_bool_decide; [done |].
    pose proof (split_on_nonempty c t). by destruct (split_on c t).
Qed.

Lemma existsb_none {A} (f : A -> bool) (P : A -> Prop) l :
  (forall x, f x = false -> P x) -> existsb f l = false -> Forall P l.
Proof.
  intros Hf. induction l as [| x l IH]; cbn; [constructor |].
  intros [? ?]%orb_false_iff. constructor; auto.
Qed.

Section keys.
Context (s : S3CoordinationStore).

Lemma key_inj u v : key s u = key s v -> u = v.
Proof.
  unfold key. case_bool_decide; [done |]. intros Heq%string_app_inv_l. by apply string_app_inv_l in Heq.
Qed.

Lemma string_app_inv_r (u v p : string) : u +:+ p = v +:+ p -> u = v.
Proof.
  intros Heq. assert (Hu : strip_suffix p (u +:+ p) = Some u) by by apply strip_suffix_Some.
  rewrite Heq in Hu. apply strip_suffix_Some in Hu.
  revert v Heq Hu. induction u as [| c u IH]; intros [| d v] Heq Hu; try done.
  - exfalso. apply (f_equal String.length) in Heq. rewrite !string_length_app in Heq. cbn in Heq. lia.
  - exfalso. apply (f_equal String.length) in Heq. rewrite !string_length_app in Heq. cbn in Heq. lia.
  - rewrite !string_app_cons in *. injection Heq as -> Heq. f_equal. by apply IH.
Qed.

Lemma node_key_inj id1 id2 : node_key s id1 = node_key s id2 -> id1 = id2.
Proof.
  unfold node_key. intros Heq%key_inj%string_app_inv_l. by apply string_app_inv_r in Heq.
Qed.

Lemma actor_key_inj a1 a2 :
  address_wf a1 -> address_wf a2 -> actor_key s a1 = actor_key s a2 -> a1 = a2.
Proof.
  destruct a1 as [t1 i1], a2 as [t2 i2]. intros [Ht1 Hi1] [Ht2 Hi2]. unfold actor_key. cbn in *.
  intros Heq%key_inj%string_app_inv_l.
  change ("/" +:+ i1 +:+ "/ownership.json") with (String "/" (i1 +:+ "/ownership.json")) in Heq.
  change ("/" +:+ i2 +:+ "/ownership.json") with (String "/" (i2 +:+ "/ownership.json")) in Heq.
  apply cut_at_separator in Heq as [-> Heq]; [| auto with coactor..].
  by apply string_app_inv_r in Heq as ->.
Qed.

Lemma actor_key_node_key a id : actor_key s a <> node_key s id.
Proof. unfold actor_key, node_key. by intros Heq%key_inj. Qed.

Lemma key_app u v : key s (u +:+ v) = key s u +:+ v.
Proof. unfold key. case_bool_decide; [done |]. by rewrite !string_app_assoc. Qed.

Lemma listed_node_Some k id :
  listed_node s k = Some id <-> k = node_key s id /\ id <> "" /\ contains_char "/"%char id = false.
Proof.
  unfold listed_node, node_key, nodes_prefix. rewrite key_app. split.
  - destruct (strip_prefix _ k) as [rest |] eqn:Hp; [| done]. apply strip_prefix_Some in Hp as ->.
    destruct (strip_suffix _ rest) as [id' |] eqn:Hs; [| done]. apply strip_suffix_Some in Hs as ->.
    case_bool_decide; cbn; [done |]. destruct (contains_char _ id') eqn:Hc; [done |].
    by intros [= <-].
  - intros (-> & Hne & Hc). rewrite (proj2 (strip_prefix_Some _ _ _) eq_refl).
    rewrite (proj2 (strip_suffix_Some _ _ _) eq_refl).
    by rewrite bool_decide_eq_false_2, Hc.
Qed.

Lemma key_segments suffix :
  split_on "/"%char (key s suffix) =
  (if bool_decide (prefix s = "") then [] else split_on "/"%char (prefix s)) ++ split_on "/"%char suffix.
Proof.
  unfold key. case_bool_decide; [done |].
  change ("/" +:+ suffix) with (String "/" suffix). by rewrite split_on_app.
Qed.
End keys.

Lemma s3_new_prefix_segments b p s :
  s3_new b p = Ok s -> p <> "" -> Forall canonical_segment (split_on "/"%char p).
Proof.
  unfold s3_new. destruct (trim_is_empty b); [done |]. destruct (invalid_prefix p) eqn:Hp; [done |].
  intros _ Hne. unfold invalid_prefix in Hp. rewrite bool_decide_eq_false_2 in Hp by done. cbn in Hp.
  apply orb_false_iff in Hp as [_ Hp]. eapply existsb_none; [| exact Hp].
  intros part [[H1 H2]%orb_false_iff H3]%orb_false_iff.
  apply bool_decide_eq_false in H1, H2, H3. by repeat split.
Qed.

Lemma is_dns_label_canonical v : is_dns_label v = true -> canonical_segment v.
Proof. intros Hv. split_and!; intros ->; done. Qed.

(** ** Lemmas on the listing *)

(** A quiescent service as [fetch_nodes] sees it: the pages of keys still to be
    listed, the token of the next page, and whether a request failed. *)
Record listing := MkListing {
  pages : list (list (option string));
  token : option string;
  failed : bool
}.

Section listing.
Context {codec : JsonCodec} (s : S3CoordinationStore).
Context (stored : string -> option (Versioned string)) (t : Z).

Definition fail (g : listing) : listing := MkListing (pages g) (token g) true.

Definition complete (output : GetObjectOutput) (v : Versioned string) : Prop :=
  e_tag output = Some (revision v) /\ body output = Ok (record v).

Definition listing_observe X (g : listing) (e : s3E X) : X -> listing -> Prop :=
  match e in s3E X return X -> listing -> Prop with
  | ListObjectsV2 _ _ => fun reply g' =>
      match reply with
      | Err _ => g' = fail g
      | Ok output =>
          contents output = default [] (head (pages g)) /\
          is_truncated output = Some (negb (bool_decide (tail (pages g) = []))) /\
          (tail (pages g) <> [] -> is_Some (next_continuation_token output)) /\
          g' = MkListing (tail (pages g)) (next_continuation_token output) (failed g)
      end
  | GetObject k => fun reply g' =>
      match reply with
      | Err error => g' = (if bool_decide (as_service_error error = Some true) then g else fail g) /\
                     (as_service_error error = Some true -> stored k = None)
      | Ok output => exists v, stored k = Some v /\
                               (complete output v /\ g' = g \/
                                (e_tag output = None \/ is_ok (body output) = false) /\ g' = fail g)
      end
  | WallTimeMillis => fun now g' => now = t /\ g' = g
  | _ => fun _ g' => g' = g
  end.

Definition listing_allowed X (g : listing) (e : s3E X) : Prop :=
  match e with
  | ListObjectsV2 p tok => p = nodes_prefix s /\ tok = token g
  | GetObject k => exists id, k = node_key s id
  | PutObject _ _ _ | DeleteObject _ _ => False
  | _ => True
  end.

Definition listing_monitor : monitor s3E listing := Monitor s3E listing listing_allowed listing_observe.

(** The node a listed key stands for: the lease of a well-formed key that has
    not expired. *)
Definition live_at (k : option string) : option NodeRecord :=
  id ← k ≫= listed_node s;
  v ← stored (node_key s id);
  l ← lease_of id (record v);
  if (l.2 <=? t)%Z then None else Some l.1.

Definition corrupt (k : option string) : Prop :=
  exists id v, k ≫= listed_node s = Some id /\ stored (node_key s id) = Some v /\ lease_of id (record v) = None.

(** The outcome of reading [ks] after [ns]. *)
Definition page_post (ks : list (option string)) (ns : list NodeRecord) (g : listing)
    (r : result CoordinationError (list NodeRecord)) (g' : listing) : Prop :=
  match r with
  | Ok ns' => ns' = ns ++ omap live_at ks /\ g' = g
  | Err _ => failed g' = true \/ Exists corrupt ks
  end.

Ltac listing_step :=
  cbn [wp listing_monitor allowed observe listing_allowed listing_observe];
  split; [| let x := fresh "x" in let g := fresh "g" in let Hg := fresh "Hg" in
            intros x g Hg; cbn beta in Hg].

Lemma read_listed_wp k id g :
  k ≫= listed_node s = Some id ->
  wp listing_monitor g (read_node_key s id false) (fun r g' =>
    match r with
    | Ok o => (fun x => x.1.1) <$> o = live_at k /\ g' = g
    | Err _ => failed g' = true \/ corrupt k
    end).
Proof.
  intros Hk. unfold read_node_key, read_key. apply wp_bind. listing_step; [eauto |].
  cbn [wp]. destruct x as [output | error].
  - destruct Hg as (v & Hv & [[[He Hb] ->] | [Hbad ->]]).
    + rewrite He, Hb. cbn. destruct (lease_from_slice (record v)) as [l |] eqn:Hl.
      * listing_step; [done |]. destruct Hg as [-> ->]. cbn [wp].
        unfold live_at. rewrite Hk. cbn. rewrite Hv. cbn. unfold lease_of. rewrite Hl. cbn.
        by destruct (Z.leb_spec (expires_at_unix_ms l) t).
      * cbn. right. exists id, v. unfold lease_of. by rewrite Hl.
    + destruct (e_tag output) as [e |], (body output) as [b |]; cbn; auto. by destruct Hbad.
  - destruct Hg as [-> Hn]. case_bool_decide as He; cbn; [| by left].
    unfold live_at. rewrite Hk. cbn. by rewrite (Hn He).
Qed.

Lemma omap_live_cons k ks :
  omap live_at (k :: ks) = from_option (fun n => [n]) [] (live_at k) ++ omap live_at ks.
Proof. cbn. by destruct (live_at k). Qed.

Lemma fetch_page_wp ks ns g : wp listing_monitor g (fetch_page s ks ns) (page_post ks ns g).
Proof.
  revert ns. induction ks as [| k ks IH]; intros ns; cbn [fetch_page].
  { cbn. by rewrite app_nil_r. }
  assert (Hnext : forall ns', ns' = ns ++ from_option (fun n => [n]) [] (live_at k) ->
    wp listing_monitor g (fetch_page s ks ns') (page_post (k :: ks) ns g)).
  { intros ns' ->. eapply wp_mono; [| apply IH]. intros [ns2 | e] g'; unfold page_post.
    - by rewrite omap_live_cons, app_assoc.
    - rewrite Exists_cons. tauto. }
  destruct (k ≫= listed_node s) as [id |] eqn:Hk.
  - apply wp_bind. eapply wp_mono; [| by apply read_listed_wp].
    intros [[[[n r] e] |] | e'] g' Hr; cbn in Hr.
    + destruct Hr as [Hl ->]. apply Hnext. by rewrite <- Hl.
    + destruct Hr as [Hl ->]. apply Hnext. rewrite <- Hl. by rewrite app_nil_r.
    + cbn. rewrite Exists_cons. tauto.
  - apply Hnext. unfold live_at. rewrite Hk. by rewrite app_nil_r.
Qed.

Lemma fetch_pages_wp fuel tok ns g :
  tok = token g -> length (pages g) <= fuel -> 0 < fuel ->
  wp listing_monitor g (fetch_pages s fuel tok ns) (fun r g' =>
    match r with
    | Some (Ok ns') => ns' = ns ++ omap live_at (concat (pages g)) /\ failed g' = failed g
    | Some (Err _) => failed g' = true \/ Exists corrupt (concat (pages g))
    | None => False
    end).
Proof.
  revert tok ns g. induction fuel as [| fuel IH]; intros tok ns g Htok Hlen Hpos; [lia |].
  cbn [fetch_pages]. listing_step; [done |].
  destruct x as [output |]; [| subst g0; by left].
  destruct Hg as (Hc & Ht & Hnext & ->).
  apply wp_bind. eapply wp_mono; [| apply fetch_page_wp].
  assert (Hpages : concat (pages g) = contents output ++ concat (tail (pages g))).
  { rewrite Hc. by destruct (pages g). }
  intros [ns' | e] g' Hpost; cbn in Hpost.
  - destruct Hpost as [-> ->]. rewrite Ht. cbn [default].
    case_bool_decide as Htail; cbn [negb].
    + cbn. rewrite Hpages, Htail. cbn. by rewrite app_nil_r.
    + destruct (Hnext Htail) as [tok' ->]. eapply wp_mono; [| apply IH].
      * rewrite Hpages. intros [[ns' | e] |] g'; [| rewrite Exists_app; tauto | done].
        by rewrite omap_app, app_assoc.
      * done.
      * cbn. destruct (pages g); cbn in *; lia.
      * destruct (pages g) as [| p [| q ps]]; cbn in *; [done | done | lia].
  - cbn. rewrite Hpages, Exists_app. tauto.
Qed.
End listing.

(** ** The cache of [list_nodes] *)

(** What one call does: the directory requests it made, and the clock. *)
Record cache_ghost := MkCacheGhost { requests : nat; instant : Z; drawn : Z }.

Definition cache_observe (low high : Z) X (g : cache_ghost) (e : s3E X) : X -> cache_ghost -> Prop :=
  match e in s3E X return X -> cache_ghost -> Prop with
  | InstantNow => fun now g' => (instant g <= now)%Z /\ g' = MkCacheGhost (requests g) now (drawn g)
  | JitteredInterval i => fun j g' =>
      (low * i <= 1000 * j <= high * i)%Z /\ g' = MkCacheGhost (requests g) (instant g) j
  | WallTimeMillis => fun _ g' => g' = g
  | _ => fun _ g' => g' = MkCacheGhost (S (requests g)) (instant g) (drawn g)
  end.

Definition cache_monitor (low high : Z) : monitor s3E cache_ghost :=
  Monitor s3E cache_ghost (fun _ _ _ => True) (cache_observe low high).

Section cache.
Context {codec : JsonCodec} (s : S3CoordinationStore) (low high : Z).

(** Procedures that only send requests to the service. *)
Definition requests_only (n : nat) (g g' : cache_ghost) : Prop :=
  n + requests g <= requests g' /\ instant g' = instant g.

Lemma requests_only_trans n m g1 g2 g3 :
  requests_only n g1 g2 -> requests_only m g2 g3 -> requests_only (n + m) g1 g3.
Proof. intros [] []. split; [lia | congruence]. Qed.

Lemma read_node_key_requests id exp g :
  wp (cache_monitor low high) g (read_node_key s id exp) (fun _ g' => requests_only 1 g g').
Proof.
  unfold read_node_key, read_key. cbn. split; [done |]. intros x g1 ->.
  destruct x as [output | e]; cbn.
  - destruct (e_tag output), (body output); cbn; try by split; cbn.
    destruct (lease_from_slice _); cbn; [| by split; cbn].
    destruct exp; cbn; [by split; cbn |]. split; [done |]. intros now g' ->. by split; cbn.
  - case_bool_decide; cbn; by split; cbn.
Qed.

Lemma fetch_page_requests ks ns g :
  wp (cache_monitor low high) g (fetch_page s ks ns) (fun _ g' => requests_only 0 g g').
Proof.
  revert ns g. induction ks as [| k ks IH]; intros ns g; cbn [fetch_page]; [by split; cbn |].
  destruct (k ≫= listed_node s); [| apply IH].
  apply wp_bind. eapply wp_mono; [| apply read_node_key_requests].
  intros r g1 H1. assert (H0 : requests_only 0 g g1) by (destruct H1; split; [lia | done]).
  destruct r as [[[[n r] e] |] | e]; [| | exact H0];
    (eapply wp_mono; [| apply IH]; intros r' g2 H2; exact (requests_only_trans 0 0 _ _ _ H0 H2)).
Qed.

Lemma fetch_pages_requests fuel tok ns g :
  wp (cache_monitor low high) g (fetch_pages s fuel tok ns)
    (fun r g' => requests_only 0 g g' /\ (is_Some r -> requests g < requests g')).
Proof.
  revert tok ns g. induction fuel as [| fuel IH]; intros tok ns g; cbn [fetch_pages].
  { split; [by split; cbn |]. by intros []. }
  cbn [wp cache_monitor allowed observe cache_observe]. split; [done |]. intros x g1 ->.
  destruct x as [output | e]; [| cbn; split; [split; cbn; lia | lia]].
  apply wp_bind. eapply wp_mono; [| apply fetch_page_requests].
  intros r g2 [Hr Hi]; cbn in Hr, Hi.
  assert (Hg : requests g < requests g2) by lia.
  destruct r as [ns' | e]; [| split; [split; [lia | done] | done]].
  destruct (negb _); [split; [split; [lia | done] | done] |].
  destruct (next_continuation_token output) as [tok' |]; [| split; [split; [lia | done] | done]].
  eapply wp_mono; [| apply IH]. intros r' g3 [[H1 H2] _].
  split; [split; [lia | congruence] | lia].
Qed.

(** What [refresh_cache] does from a given state. *)
Lemma refresh_cache_wp fuel cache g :
  wp (cache_monitor low high) g (refresh_cache s fuel cache) (fun r g' =>
    (is_Some r.1 -> requests g < requests g') /\ (instant g <= instant g')%Z /\
    match r.1 with
    | Some (Ok ns) => r.2 = MkDirectoryCache ns (Some (instant g' + drawn g')%Z) /\
        (low * directory_refresh_interval s <= 1000 * drawn g' <= high * directory_refresh_interval s)%Z
    | _ => r.2 = cache
    end).
Proof.
  unfold refresh_cache, fetch_nodes. apply wp_bind, wp_bind.
  eapply wp_mono; [| apply fetch_pages_requests]. intros r g1 [[Hr Hi] Hreq]. cbn [wp].
  destruct r as [[ns | e] |]; cbn.
  - split; [done |]. intros j g2 [Hj ->]. split; [done |]. intros now g3 [Hnow ->]. cbn in *.
    split; [intros _; by apply Hreq |]. split; [lia | done].
  - split; [intros _; by apply Hreq |]. split; [lia | done].
  - split; [by intros [] |]. split; [lia | done].
Qed.
End cache.

(** ** A codec

    A concrete codec that obeys the law of [JsonCodec]: the bits of the encoding
    as a positive number. *)
Fixpoint bits_of (p : positive) : string :=
  match p with
  | xH => ""
  | xO p => String "0" (bits_of p)
  | xI p => String "1" (bits_of p)
  end.

Fixpoint of_bits (s : string) : positive :=
  match s with
  | EmptyString => xH
  | String c s => if bool_decide (c = "0"%char) then xO (of_bits s) else xI (of_bits s)
  end.

Lemma of_bits_of p : of_bits (bits_of p) = p.
Proof. induction p; cbn [bits_of of_bits]; [case_bool_decide; congruence.. | done]. Qed.

Definition lease_fields (l : StoredNodeLease) :=
  let n := node l in
  ((session_id n, advertised_endpoint n, protocol_version n, lease_generation n, sampled_at_unix_ms n),
   (active_actor_count n, max_actor_count n, pressured n, draining n, expires_at_unix_ms l)).

Definition owner_fields (r : ActorOwnerRecord) :=
  ((fun o => (owner_node_id o, owner_session_id o)) <$> owner r, ownership_epoch r).

Definition of_lease_fields (f : (string * string * Z * Z * Z) * (Z * Z * bool * bool * Z)) : StoredNodeLease :=
  let '((sid, ep, pv, gen, sampled), (act, mx, pr, dr, e)) := f in
  MkStoredNodeLease (MkNodeRecord "" sid ep pv gen sampled act mx pr dr) e.

Definition of_owner_fields (f : option (string * string) * Z) : ActorOwnerRecord :=
  MkActorOwnerRecord ((fun o => MkActorOwner o.1 o.2) <$> f.1) f.2.

#[export, program] Instance bit_codec : JsonCodec := {
  lease_to_vec l := Some (bits_of (encode (lease_fields l)));
  lease_from_slice b := of_lease_fields <$> decode (of_bits b);
  owner_to_vec r := Some (bits_of (encode (owner_fields r)));
  owner_from_slice b := of_owner_fields <$> decode (of_bits b)
}.
Next Obligation. intros [n e] b [= <-]. by rewrite of_bits_of, decode_encode. Qed.
Next Obligation. intros [[[o i] |] e] b [= <-]; by rewrite of_bits_of, decode_encode. Qed.

(** ** Properties *)

(** Over a service that keeps its documented promises, with other clients
    writing between any two requests, every operation of the S3 backend answers
    as the contract demands: a conditional write that took place is the
    register's conditional write of the record with that reply, and an operation
    that wrote nothing does not reply [Applied]; an acquisition replaces only
    nothing or a lease that had expired when the backend looked; a read returns
    what the key stood for at one moment, leases only while unexpired. *)
Theorem s3_implements_contract (codec : JsonCodec) (s : S3CoordinationStore)
    (objects : string -> Register.history string) (n : NodeRecord) (id : string) (ttl : Z) (rev : Revision)
    (a : ActorAddress) (r : ActorOwnerRecord) (expected : option Revision) :
  let spec {A} (p : proc s3E A) := wp (s3_monitor s) (fresh_ghost objects) p in
  spec (read_node_lease s id)
    (read_post (lease_of id) (fun H reply ts =>
       exists t, (ts = [] \/ ts = [t]) /\ Register.live_replies H t reply)) /\
  spec (acquire_node s n ttl)
    (write_post (node_key s (node_id n)) (lease_of (node_id n)) (fun H reply H' ts =>
       exists t t', (ts = [t'] \/ ts = [t'; t]) /\
                    Register.acquire_replies H n (stored_ttl t' ttl) t t' reply H')) /\
  spec (renew_node s n ttl rev)
    (write_post (node_key s (node_id n)) (lease_of (node_id n)) (fun H reply H' ts =>
       exists t', ts = [t'] /\ Register.cas_replies H (n, t' + stored_ttl t' ttl)%Z (Some rev) reply H')) /\
  spec (release_node s id rev)
    (write_post (node_key s id) (lease_of id) (fun H reply H' _ => Register.delete_replies H rev reply H')) /\
  spec (read_actor_owner s a)
    (read_post owner_from_slice (fun H reply _ => Register.read_replies H reply)) /\
  spec (compare_exchange_actor_owner s a r expected)
    (write_post (actor_key s a) owner_from_slice (fun H reply H' _ => Register.cas_replies H r expected reply H')).
Proof.
  cbn zeta. split_and!.
  - by apply read_node_lease_wp.
  - by apply acquire_node_wp.
  - by apply renew_node_wp.
  - by apply release_node_wp.
  - by apply read_actor_owner_wp.
  - by apply compare_exchange_wp.
Qed.

Lemma s3_implements_contract_witness :
  let s := MkS3Store "bucket" "prod" 3000000000 in
  let n := MkNodeRecord "node-1" "session-1" "host:1" 1 0 0 0 8 false false in
  wp (s3_monitor s) (fresh_ghost (fun _ => [])) (@acquire_node bit_codec s n 15000)
    (write_post (node_key s "node-1") (lease_of "node-1") (fun H reply H' ts =>
       exists t t', (ts = [t'] \/ ts = [t'; t]) /\
                    Register.acquire_replies H n (stored_ttl t' 15000) t t' reply H')).
Proof.
  apply (s3_implements_contract bit_codec (MkS3Store "bucket" "prod" 3000000000) (fun _ => [])
           (MkNodeRecord "node-1" "session-1" "host:1" 1 0 0 0 8 false false) "" 15000 ""
           (MkActorAddress "a" "b") (unowned 0) None).
Defined.

(** The object keys keep registers apart and can be read back: two nodes
    never share a key, two addresses never share one, no address shares one with
    a node, and the directory listing recognises exactly the lease keys of nodes
    with a non-empty id without slashes (never an owner record). *)
Theorem s3_keys_faithful (s : S3CoordinationStore) :
  (forall id1 id2, node_key s id1 = node_key s id2 -> id1 = id2) /\
  (forall a1 a2, address_wf a1 -> address_wf a2 -> actor_key s a1 = actor_key s a2 -> a1 = a2) /\
  (forall a id, actor_key s a <> node_key s id) /\
  (forall k id, listed_node s k = Some id <->
                k = node_key s id /\ id <> "" /\ contains_char "/"%char id = false) /\
  (forall a, listed_node s (actor_key s a) = None).
Proof.
  split_and!.
  - apply node_key_inj.
  - apply actor_key_inj.
  - apply actor_key_node_key.
  - apply listed_node_Some.
  - intros a. destruct (listed_node s (actor_key s a)) as [id |] eqn:Hl; [| done].
    apply listed_node_Some in Hl as (Hk & _). by apply actor_key_node_key in Hk.
Qed.

(** A store is built exactly from a non-blank bucket and a prefix that is
    empty or made of canonical segments, and then the key of every address is a
    path of canonical segments: the prefix's, followed by the key's own. *)
Theorem s3_new_validates (b p : string) :
  match s3_new b p with
  | Err EmptyBucket => trim_is_empty b = true
  | Err InvalidPrefix => trim_is_empty b = false /\ p <> ""
  | Ok s => bucket s = b /\ prefix s = p /\ trim_is_empty b = false /\
            forall a, address_wf a ->
              Forall canonical_segment (split_on "/"%char (actor_key s a)) /\
              split_on "/"%char (actor_key s a) =
                (if bool_decide (p = "") then [] else split_on "/"%char p) ++
                ["actors"; actor_type a; actor_id a; "ownership.json"]
  end.
Proof.
  destruct (s3_new b p) as [s | []] eqn:Hnew.
  - pose proof (s3_new_prefix_segments _ _ _ Hnew) as Hseg. unfold s3_new in Hnew.
    destruct (trim_is_empty b) eqn:Hb; [done |]. destruct (invalid_prefix p); [done |].
    injection Hnew as <-. do 3 (split; [done |]). intros a [Ht Hi].
    assert (Hsplit : split_on "/"%char (actor_key (MkS3Store b p 3000000000) a) =
      (if bool_decide (p = "") then [] else split_on "/"%char p) ++
      ["actors"; actor_type a; actor_id a; "ownership.json"]).
    { unfold actor_key. rewrite key_segments. cbn [prefix]. f_equal.
      change ("actors/" +:+ ?x) with ("actors" +:+ String "/" x). rewrite split_on_app.
      change ("/" +:+ ?x) with (String "/" x). rewrite split_on_app.
      change ("/ownership.json") with (String "/" "ownership.json"). rewrite split_on_app.
      by rewrite (split_on_none _ (actor_type a)), (split_on_none _ (actor_id a)) by auto with coactor. }
    split; [| done]. rewrite Hsplit. apply Forall_app. split.
    + case_bool_decide; [constructor | by apply Hseg].
    + repeat constructor; try done; by apply is_dns_label_canonical.
  - unfold s3_new in Hnew. destruct (trim_is_empty b); [done |]. by destruct (invalid_prefix p).
  - unfold s3_new in Hnew. destruct (trim_is_empty b) eqn:Hb; [done |].
    destruct (invalid_prefix p) eqn:Hp; [| done]. split; [done |]. intros ->. done.
Qed.

(** A directory listing of a quiescent store ends within one request per
    page, asks each page with the token of the one before, and returns the leases
    of the listed nodes that have not expired, each once, in the order of their
    ids; it fails only when a request failed or a stored lease is corrupt. *)
Theorem fetch_nodes_lists (codec : JsonCodec) (s : S3CoordinationStore)
    (stored : string -> option (Versioned string)) (t : Z) (pages : list (list (option string))) :
  wp (listing_monitor s stored t) (MkListing pages None false) (fetch_nodes s (S (length pages))) (fun r g =>
    match r with
    | Some (Ok nodes) => nodes ≡ₚ omap (live_at s stored t) (concat pages) /\ Sorted by_node_id nodes /\
                         failed g = false
    | Some (Err _) => failed g = true \/ Exists (corrupt s stored) (concat pages)
    | None => False
    end).
Proof.
  unfold fetch_nodes. apply wp_bind. eapply wp_mono; [| apply fetch_pages_wp; cbn; [done | lia | lia]].
  intros [[ns | e] |] g; cbn; [| done..]. intros [-> Hf]. split_and!; [| | done].
  - apply merge_sort_Permutation.
  - apply Sorted_merge_sort. apply _.
Qed.

(** [list_nodes] answers from its cache without a request exactly while the
    refresh time lies ahead; otherwise it asks the service, and a successful
    answer is cached until the jittered refresh interval has passed since, while
    a failure leaves the cache as it was.  With a refresh interval of zero the
    cache is never used. *)
Theorem list_nodes_caches (codec : JsonCodec) (s : S3CoordinationStore) (fuel : nat)
    (cache : DirectoryCache) (g : cache_ghost) :
  wp (cache_monitor 800 1200) g (list_nodes s fuel cache) (fun '(r, cache') g' =>
    (r = Some (Ok (nodes cache)) /\ cache' = cache /\ requests g' = requests g /\
     exists at_, refresh_at cache = Some at_ /\ (instant g' < at_)%Z) \/
    ((is_Some r -> requests g < requests g') /\
     match r with
     | Some (Ok ns) => exists at_, cache' = MkDirectoryCache ns (Some at_) /\
         (800 * directory_refresh_interval s <= 1000 * (at_ - instant g') <= 1200 * directory_refresh_interval s)%Z /\
         (directory_refresh_interval s = 0 -> at_ <= instant g')%Z
     | _ => cache' = cache
     end)).
Proof.
  assert (Hrefresh : forall g1, requests g1 = requests g ->
    wp (cache_monitor 800 1200) g1 (refresh_cache s fuel cache) (fun '(r, cache') g' =>
      (is_Some r -> requests g < requests g') /\
      match r with
      | Some (Ok ns) => exists at_, cache' = MkDirectoryCache ns (Some at_) /\
          (800 * directory_refresh_interval s <= 1000 * (at_ - instant g') <= 1200 * directory_refresh_interval s)%Z /\
          (directory_refresh_interval s = 0 -> at_ <= instant g')%Z
      | _ => cache' = cache
      end)).
  { intros g1 Hg1. eapply wp_mono; [| apply refresh_cache_wp].
    intros [[[ns | e] |] cache'] g'; cbn; rewrite Hg1; intros (Hr & Hi & Hc); split; try done.
    destruct Hc as [-> Hj]. eexists. split; [done |]. lia. }
  unfold list_nodes. destruct (refresh_at cache) as [at_ |] eqn:Hat.
  - cbn [wp cache_monitor allowed observe cache_observe]. split; [done |]. intros now g1 [Hnow ->].
    destruct (Z.ltb_spec now at_).
    + cbn. left. eauto 10.
    + eapply wp_mono; [| by apply Hrefresh]. intros [r c] g'. tauto.
  - eapply wp_mono; [| by apply Hrefresh]. intros [r c] g'. tauto.
Qed.
