(* ===== verification/Stores.v ===== *)
(** * Routers over a Coordination Store

    [Ownership] gives the calls of a router to the contract of a Coordination
    Store.  Here the routers run over a store of the program: every call of the
    owner store and of the Node Directory is the operation of a backend, raced
    against [operation_timeout], and the operation is itself a procedure over the
    requests of some service.  [LawfulStore] is what a backend promises; the
    theorem of this file is that the routers over a lawful store do what the
    cluster of [Ownership] can do. *)

From S2P Require Import Prelude Text Address Coordination Routing Ownership.

(** ** The interface *)

(** What a router uses of the store traits of [authority.rs]:
    [NodeDirectory::read_node], [ActorOwnerReader::read_actor_owner] and
    [ActorOwnerStore::compare_exchange_actor_owner]. *)
Class RouterStore (E : Type -> Type) := {
  read_node : string -> proc E (result CoordinationError (option NodeRecord));
  read_actor_owner : ActorAddress -> proc E (result CoordinationError (option VersionedActorOwnerRecord));
  compare_exchange_actor_owner : ActorAddress -> ActorOwnerRecord -> option Revision ->
    proc E (result CoordinationError (MutationOutcome Revision))
}.

(** The calls of a router over a backend: its own, and a store operation under
    [tokio::time::timeout]. *)
Inductive routedE (E : Type -> Type) : Type -> Type :=
| Here {X} (e : routerE X) : routedE E X
| Timeout {X} (p : proc E X) : routedE E (timed X).
Arguments Here {E X} e.
Arguments Timeout {E X} p.

(** The calls that do not touch the store. *)
Definition is_local X (e : routerE X) : Prop :=
  match e with
  | ReadActorOwner _ | ReadNode _ | CompareExchange _ _ _ => False
  | _ => True
  end.

Definition route `{RouterStore E} X (e : routerE X) : routedE E X :=
  match e in routerE X return routedE E X with
  | ReadActorOwner a => Timeout (read_actor_owner a)
  | ReadNode id => Timeout (read_node id)
  | CompareExchange a rec rev => Timeout (compare_exchange_actor_owner a rec rev)
  | e => Here e
  end.

(** ** The service behind a backend

    [serves o e x o']: in state [o] the request [e] is answered with [x];
    [abandons o e o']: nobody waits for the answer any more, the request may or
    may not have taken place, or may take place later; [background]: what the
    service does on its own, and for others. *)
Class StoreService (E : Type -> Type) (W : Type) := {
  serves : forall X, W -> E X -> X -> W -> Prop;
  abandons : forall X, W -> E X -> W -> Prop;
  background : W -> W -> Prop
}.
Arguments serves {E W _} {X}.
Arguments abandons {E W _} {X}.

(** [timeout] polls the operation before its delay: an operation that has its
    last answer is [Ready]. *)
Definition settle {E A X} (p : proc E X) (k : timed X -> proc (routedE E) A) : proc (routedE E) A :=
  match p with
  | Ret x => k (Ready x)
  | Call _ _ => Call (Timeout p) k
  end.

Record store_thread (E : Type -> Type) := MkStoreThread {
  st_self : ClusterRouter;
  st_address : ActorAddress;
  st_proc : proc (routedE E) call_result
}.
Arguments MkStoreThread {E} st_self st_address st_proc.
Arguments st_self {E} s.
Arguments st_address {E} s.
Arguments st_proc {E} s.

Record store_world (E : Type -> Type) (W : Type) := MkStoreWorld {
  service : W;
  routers : list (store_thread E)
}.
Arguments MkStoreWorld {E W} service routers.
Arguments service {E W} s.
Arguments routers {E W} s.

(** A resolution or a release over the backend. *)
Definition over_store `{RouterStore E} (t : thread) : store_thread E :=
  MkStoreThread (t_self t) (t_address t) (lift route (t_proc t)).

(** What a request that is left does to the service: a timeout, or a crash. *)
Inductive store_step `{RouterStore E, StoreService E W} : store_world E W -> store_world E W -> Prop :=
| store_start o ts t :
    (exists self a, address_wf a /\ (t = resolving self a \/ t = releasing self a)) ->
    store_step (MkStoreWorld o ts) (MkStoreWorld o (over_store t :: ts))
| store_local o ts i self a X (e : routerE X) k x :
    ts !! i = Some (MkStoreThread self a (Call (Here e) k)) ->
    store_step (MkStoreWorld o ts) (MkStoreWorld o (<[i := MkStoreThread self a (k x)]> ts))
| store_return o ts i self a X (x : X) k :
    ts !! i = Some (MkStoreThread self a (Call (Timeout (Ret x)) k)) ->
    store_step (MkStoreWorld o ts) (MkStoreWorld o (<[i := MkStoreThread self a (k (Ready x))]> ts))
| store_request o ts i self a X Y (q : E Y) (kk : Y -> proc E X) k y o' :
    ts !! i = Some (MkStoreThread self a (Call (Timeout (Call q kk)) k)) ->
    serves o q y o' ->
    store_step (MkStoreWorld o ts) (MkStoreWorld o' (<[i := MkStoreThread self a (settle (kk y) k)]> ts))
| store_elapsed o ts i self a X Y (q : E Y) (kk : Y -> proc E X) k o' :
    ts !! i = Some (MkStoreThread self a (Call (Timeout (Call q kk)) k)) ->
    abandons o q o' ->
    store_step (MkStoreWorld o ts) (MkStoreWorld o' (<[i := MkStoreThread self a (k Elapsed)]> ts))
| store_crash o ts i :
    store_step (MkStoreWorld o ts) (MkStoreWorld o (delete i ts))
| store_background o ts o' :
    background o o' ->
    store_step (MkStoreWorld o ts) (MkStoreWorld o' ts).

(** ** The law of a backend *)
Section law.
Context {E : Type -> Type} {W : Type} `{StoreService E W} (represents : W -> cluster -> Prop).

(** An operation does what the call of the contract may do, at its last request;
    a request before that one changes nothing the cluster can see. *)
Fixpoint refines {X} (e : routerE (timed X)) (p : proc E X) : Prop :=
  match p with
  | Ret x => forall c, cluster_replies c _ e (Ready x) c
  | Call q kk =>
      (forall o c y o', represents o c -> serves o q y o' ->
         (represents o' c /\ refines e (kk y)) \/
         (exists x c', kk y = Ret x /\ represents o' c' /\ cluster_replies c _ e (Ready x) c')) /\
      (forall o c o', represents o c -> abandons o q o' ->
         exists c', represents o' c' /\ cluster_replies c _ e Elapsed c')
  end.
End law.

Class LawfulStore (E : Type -> Type) (W : Type) `{RouterStore E, StoreService E W} := {
  initially : W -> Prop;
  represents : W -> cluster -> Prop;
  represents_initially o : initially o -> represents o empty_cluster;
  represents_threads o c ts : represents o c -> represents o (with_threads c ts);
  read_node_refines id : refines represents (ReadNode id) (read_node id);
  read_actor_owner_refines a : address_wf a -> refines represents (ReadActorOwner a) (read_actor_owner a);
  compare_exchange_refines a rec rev :
    address_wf a -> refines represents (CompareExchange a rec rev) (compare_exchange_actor_owner a rec rev);
  background_refines o c o' : represents o c -> background o o' ->
    exists c', rtc cluster_step c c' /\ threads c' = threads c /\ represents o' c'
}.

(** ** Lemmas on the calls of a router *)

(** The store is asked about the address of the thread only. *)
Definition asks_about (a : ActorAddress) X (e : routerE X) : Prop :=
  match e with
  | ReadActorOwner b | CompareExchange b _ _ => b = a
  | _ => True
  end.

Ltac asks_step :=
  repeat first
    [ progress cbn [calls asks_about]
    | split; [done |]
    | done
    | intros ?
    | apply calls_bind
    | match goal with |- calls _ (match ?x with _ => _ end) => destruct x end
    | match goal with |- calls _ (if ?x then _ else _) => destruct x end ].

Section asks.
Context (self : ClusterRouter) (a : ActorAddress).

Lemma confirm_claim_asks n expected : calls (asks_about a) (confirm_claim n a expected).
Proof. induction n; cbn [confirm_claim]; asks_step. Qed.

Lemma confirm_release_asks n current expected : calls (asks_about a) (confirm_release n a current expected).
Proof. induction n; cbn [confirm_release]; asks_step. Qed.

Lemma take_over_asks current retry : calls (asks_about a) retry -> calls (asks_about a) (take_over self a current retry).
Proof. intros Hr. unfold take_over. asks_step; auto using confirm_claim_asks. Qed.

Lemma claim_asks epoch rev : calls (asks_about a) (claim self a epoch rev).
Proof. unfold claim. asks_step. Qed.

Lemma resolve_attempts_asks n : calls (asks_about a) (resolve_attempts n self a).
Proof. induction n; cbn [resolve_attempts]; asks_step; auto using take_over_asks, claim_asks. Qed.

Lemma resolving_asks : calls (asks_about a) (t_proc (resolving self a)).
Proof. unfold resolving, resolve. cbn [t_proc]. asks_step; auto using resolve_attempts_asks. Qed.

Lemma releasing_asks : calls (asks_about a) (t_proc (releasing self a)).
Proof.
  unfold releasing, release_local_owner, release_body, release_actor_owner. cbn [t_proc].
  asks_step; auto using confirm_release_asks.
Qed.
End asks.

(** ** The simulation *)
Section simulation.
Context {E : Type -> Type} {W : Type} `{LawfulStore E W}.

(** The calls over the backend follow the calls of a router. *)
Fixpoint follows {A} (q : proc (routedE E) A) (p : proc routerE A) : Prop :=
  match q with
  | Ret a => p = Ret a
  | @Call _ _ X e k =>
      match e in routedE _ X return (X -> proc routerE A -> Prop) -> Prop with
      | Here e => fun rec => is_local _ e /\ exists k', p = Call e k' /\ forall x, rec x (k' x)
      | @Timeout _ X op => fun rec =>
          exists (e : routerE (timed X)) k', p = Call e k' /\ refines represents e op /\ forall x, rec x (k' x)
      end (fun x => follows (k x))
  end.

Lemma follows_route {A} a (p : proc routerE A) :
  address_wf a -> calls (asks_about a) p -> follows (lift route p) p.
Proof.
  intros Ha. induction p as [x | X e k IH]; cbn; [done |]. intros [Hask Hk].
  destruct e; cbn in Hask |- *; subst; try (split; [done |]); eexists; eauto;
    eexists; split_and!; eauto using read_actor_owner_refines, read_node_refines, compare_exchange_refines.
Qed.

Lemma local_replies c X (e : routerE X) x : is_local X e -> cluster_replies c X e x c.
Proof. by destruct e. Qed.

Lemma cluster_replies_threads c X (e : routerE X) x c' : cluster_replies c X e x c' -> threads c' = threads c.
Proof.
  destruct e as [? | ? | ? | ? | b rec rev | |]; cbn; try (by intros ->); [by intros [-> _] |].
  assert (Hl : forall r, landed c b rec rev r c' -> threads c' = threads c) by by intros r (h & _ & ->).
  assert (Hu : unconfirmed c b rec rev c' -> threads c' = threads c) by (intros [-> | [[r Hr] | ->]]; eauto).
  destruct x as [| [[r | |] |]]; eauto.
Qed.

Definition thread_follows (st : store_thread E) (t : thread) : Prop :=
  st_self st = t_self t /\ st_address st = t_address t /\ follows (st_proc st) (t_proc t).

(** The world over the backend, and a cluster it can be taken for. *)
Definition simulates (w : store_world E W) (c : cluster) : Prop :=
  represents (service w) c /\ Forall2 thread_follows (routers w) (threads c).

(** A reply moves both threads. *)
Lemma simulates_reply (o' : W) ts c c' i self a X (e : routerE X) k x q :
  Forall2 thread_follows ts (threads c) -> threads c !! i = Some (MkThread self a (Call e k)) ->
  cluster_replies c X e x c' -> represents o' c' -> follows q (k x) ->
  exists c2, rtc cluster_step c c2 /\
    simulates (MkStoreWorld o' (<[i := MkStoreThread self a q]> ts)) c2.
Proof.
  intros Hts Hi Hrep Ho Hq. pose proof (cluster_replies_threads _ _ _ _ _ Hrep) as Hth.
  exists (with_threads c' (<[i := MkThread self a (k x)]> (threads c'))). split.
  - by eapply rtc_once, step_call.
  - split; cbn; [by apply represents_threads |]. rewrite Hth. apply Forall2_insert; [done |]. done.
Qed.

(** The thread of the cluster that a thread over the backend follows. *)
Lemma follower ts c i self a q :
  Forall2 thread_follows ts (threads c) -> ts !! i = Some (MkStoreThread self a q) ->
  exists p, threads c !! i = Some (MkThread self a p) /\ follows q p.
Proof.
  intros Hts Hi. destruct (Forall2_lookup_l _ _ _ _ _ Hts Hi) as ([self' a' p] & Ht & Hs & Ha & Hf).
  cbn in *. subst. eauto.
Qed.

Lemma request_simulated o o' ts c i self a X Y (q : E Y) (kk : Y -> proc E X) k y :
  simulates (MkStoreWorld o ts) c -> ts !! i = Some (MkStoreThread self a (Call (Timeout (Call q kk)) k)) ->
  serves o q y o' ->
  exists c2, rtc cluster_step c c2 /\
    simulates (MkStoreWorld o' (<[i := MkStoreThread self a (settle (kk y) k)]> ts)) c2.
Proof.
  intros [Hrep Hts] Hi Hs. cbn in Hrep, Hts.
  destruct (follower _ _ _ _ _ _ Hts Hi) as (p & Hp & e & k' & -> & [Href _] & Hk).
  destruct (Href o c y o' Hrep Hs) as [[Hrep' Hkk] | (x & c' & Hkk & Hrep' & Hcl)].
  - destruct (kk y) as [x | Z q' kk']; cbn [settle].
    + eapply simulates_reply; eauto.
    + exists c. split; [apply rtc_refl |]. split; [done |]. cbn.
      rewrite <- (list_insert_id (threads c) i _ Hp). apply Forall2_insert; [done |].
      split_and!; [done .. |]. cbn [st_proc t_proc follows]. eauto.
  - rewrite Hkk. cbn [settle]. eapply simulates_reply; eauto.
Qed.

Lemma simulation_step w w' c :
  simulates w c -> store_step w w' -> exists c', rtc cluster_step c c' /\ simulates w' c'.
Proof.
  intros Hsim Hst.
  destruct Hst as [o ts t Ht | o ts i self a X e k x Hi | o ts i self a X x k Hi
                  | o ts i self a X Y q kk k y o' Hi Hs | o ts i self a X Y q kk k o' Hi Hab | o ts i | o ts o' Hb].
  - destruct Hsim as [Hrep Hts]. cbn in Hrep, Hts. exists (with_threads c (t :: threads c)). split.
    + apply rtc_once, step_start. destruct Ht as (self & a & _ & ?). eauto.
    + split; cbn; [by apply represents_threads |]. constructor; [| done]. split_and!; [done .. |]. cbn.
      destruct Ht as (self & a & Ha & [-> | ->]); (eapply follows_route; [exact Ha |]);
        [apply resolving_asks | apply releasing_asks].
  - destruct Hsim as [Hrep Hts]. destruct (follower _ _ _ _ _ _ Hts Hi) as (p & Hp & Hloc & k' & -> & Hk).
    eapply simulates_reply; eauto using local_replies.
  - destruct Hsim as [Hrep Hts]. destruct (follower _ _ _ _ _ _ Hts Hi) as (p & Hp & e & k' & -> & Href & Hk).
    eapply simulates_reply; eauto.
  - by eapply request_simulated.
  - destruct Hsim as [Hrep Hts]. destruct (follower _ _ _ _ _ _ Hts Hi) as (p & Hp & e & k' & -> & [_ Href] & Hk).
    destruct (Href o c o' Hrep Hab) as (c' & Hrep' & Hcl). eapply simulates_reply; eauto.
  - destruct Hsim as [Hrep Hts]. exists (with_threads c (delete i (threads c))). split; [apply rtc_once, step_crash |].
    split; cbn; [by apply represents_threads | by apply Forall2_delete].
  - destruct Hsim as [Hrep Hts]. destruct (background_refines o c o' Hrep Hb) as (c' & Hc & Hth & Hrep').
    exists c'. split; [done |]. split; [done |]. cbn. by rewrite Hth.
Qed.

(** What the routers over a lawful store do, the cluster can do. *)
Theorem routers_over_lawful_store o w :
  initially o -> rtc store_step (MkStoreWorld o []) w ->
  exists c, rtc cluster_step empty_cluster c /\ simulates w c.
Proof.
  intros Ho Hr.
  apply (rtc_preserved store_step (fun w => exists c, rtc cluster_step empty_cluster c /\ simulates w c) (MkStoreWorld o []));
    [| | exact Hr].
  - intros s s' (c & Hc & Hsim) Hst. destruct (simulation_step _ _ _ Hsim Hst) as (c' & Hc' & Hsim').
    exists c'. split; [by etrans | done].
  - exists empty_cluster. split; [apply rtc_refl |]. split; [by apply represents_initially | constructor].
Qed.
End simulation.
