(* ===== verification/S3Cluster.v ===== *)
(** * Routers over the S3 backend

    Runs the routers of any number of Servers over [S3Store] at the granularity
    of S3 requests, as [Stores] describes: a request is answered, or left by a
    timeout or a crash; a [PutObject] whose answer is lost may have taken place,
    may take place later, or never; objects that are no owner records change at
    will.  The theorems say that this is an execution of the cluster of
    [Ownership], with the owner objects decoded, and what it means for the bytes
    in the bucket. *)

From S2P Require Import Prelude Text Address Coordination Routing Ownership S3Store Stores.
From stdpp Require Import functions.

(** ** The service *)

(** A [PutObject] that was sent and is not answered: key, body, precondition. *)
Record lost_put := MkLostPut {
  put_key : string;
  put_body : string;
  put_if_match : option Revision
}.

Record s3_service := MkS3Service {
  s3_objects : string -> Register.history string;
  lost_puts : list lost_put
}.

Definition with_object (o : s3_service) (k : string) (h : Register.history string) : s3_service :=
  MkS3Service (<[k := h]> (s3_objects o)) (lost_puts o).
Definition with_lost_put (o : s3_service) (p : lost_put) : s3_service :=
  MkS3Service (s3_objects o) (p :: lost_puts o).

(** The conditional write of one object. *)
Definition put_lands (o : s3_service) (p : lost_put) (r : Revision) (o' : s3_service) : Prop :=
  exists h', Register.writes (s3_objects o (put_key p)) (put_body p) (put_if_match p) r h' /\
             o' = with_object o (put_key p) h'.

(** A write without an answer that confirms it. *)
Definition put_unconfirmed (o : s3_service) (p : lost_put) (o' : s3_service) : Prop :=
  o' = o \/ (exists r, put_lands o p r o') \/ o' = with_lost_put o p.

Definition delete_unconfirmed (o : s3_service) (k : string) (m : Revision) (o' : s3_service) : Prop :=
  o' = o \/ exists h', Register.deletes (s3_objects o k) m h' /\ o' = with_object o k h'.

Definition s3_serves X (o : s3_service) (e : s3E X) : X -> s3_service -> Prop :=
  match e in s3E X return X -> s3_service -> Prop with
  | GetObject k => fun reply o' => o' = o /\ read_reply_ok (s3_objects o k) reply
  | PutObject k b m => fun reply o' =>
      match reply with
      | Ok etag => exists r, put_lands o (MkLostPut k b m) r o' /\ forall e, etag = Some e -> e = r
      | Err _ => put_unconfirmed o (MkLostPut k b m) o'
      end
  | DeleteObject k m => fun reply o' =>
      match reply with
      | Ok _ => exists h', Register.deletes (s3_objects o k) m h' /\ o' = with_object o k h'
      | Err _ => delete_unconfirmed o k m o'
      end
  | _ => fun _ o' => o' = o
  end.

Definition s3_abandons X (o : s3_service) (e : s3E X) (o' : s3_service) : Prop :=
  match e with
  | PutObject k b m => put_unconfirmed o (MkLostPut k b m) o'
  | DeleteObject k m => delete_unconfirmed o k m o'
  | _ => o' = o
  end.

Section s3.
Context {codec : JsonCodec} (s : S3CoordinationStore).

(** A lost write takes place; an object that is no owner record changes. *)
Definition s3_background (o o' : s3_service) : Prop :=
  (exists p r, p ∈ lost_puts o /\ put_lands o p r o') \/
  (exists k h, (forall a, k <> actor_key s a) /\ o' = with_object o k h).

#[local] Instance s3_router_store : RouterStore s3E := {
  Stores.read_node := S3Store.read_node s;
  Stores.read_actor_owner := S3Store.read_actor_owner s;
  Stores.compare_exchange_actor_owner := S3Store.compare_exchange_actor_owner s
}.

#[local] Instance s3_store_service : StoreService s3E s3_service := {
  serves := s3_serves;
  abandons := s3_abandons;
  background := s3_background
}.

(** No owner record exists. *)
Definition s3_initially (o : s3_service) : Prop :=
  lost_puts o = [] /\ forall a, address_wf a -> s3_objects o (actor_key s a) = [].

(** The owner objects stand for the histories of the cluster, the lost writes of
    owner objects for its writes in flight. *)
Definition owners_stored (o : s3_service) (c : cluster) : Prop :=
  forall a, address_wf a -> decodes owner_from_slice (s3_objects o (actor_key s a)) (hist c a).

Definition lost_known (o : s3_service) (c : cluster) : Prop :=
  forall p, p ∈ lost_puts o -> exists a rec, address_wf a /\ put_key p = actor_key s a /\
    owner_from_slice (put_body p) = Some rec /\ MkWrite a rec (put_if_match p) ∈ in_flight c.

Definition s3_represents (o : s3_service) (c : cluster) : Prop := owners_stored o c /\ lost_known o c.

(** ** Lemmas *)
Lemma represents_landed o c a rec b m r o' :
  address_wf a -> owner_from_slice b = Some rec -> s3_represents o c ->
  put_lands o (MkLostPut (actor_key s a) b m) r o' ->
  exists c', landed c a rec m r c' /\ s3_represents o' c' /\ threads c' = threads c.
Proof.
  intros Ha Hb [Hst Hl] (h' & Hw & ->). cbn in Hw.
  destruct (decodes_writes _ _ _ _ _ _ _ _ (Hst a Ha) Hb Hw) as (H' & Hd & Hw').
  exists (with_hist c a H'). split_and!; [by eexists | | done]. split; [| done].
  intros a' Ha'. rewrite hist_with_hist. cbn. case_decide as Heq.
  - subst a'. by rewrite fn_lookup_insert.
  - rewrite fn_lookup_insert_ne; [by apply Hst |]. intros Hk. by apply Heq, (actor_key_inj s).
Qed.

Lemma represents_put o c a rec b m o' :
  address_wf a -> owner_from_slice b = Some rec -> s3_represents o c ->
  put_unconfirmed o (MkLostPut (actor_key s a) b m) o' ->
  exists c', unconfirmed c a rec m c' /\ s3_represents o' c'.
Proof.
  intros Ha Hb Hrep [-> | [[r Hl] | ->]].
  - exists c. split; [by left | done].
  - destruct (represents_landed _ _ _ _ _ _ _ _ Ha Hb Hrep Hl) as (c' & Hc & Hr & _).
    exists c'. split; [right; left; eauto | done].
  - exists (with_in_flight c (MkWrite a rec m :: in_flight c)). split; [by right; right |].
    destruct Hrep as [Hst Hk]. split; [exact Hst |]. intros p. cbn. rewrite elem_of_cons. intros [-> | Hp].
    + exists a, rec. cbn. split_and!; [done .. | constructor].
    + destruct (Hk p Hp) as (a' & rec' & ? & ? & ? & ?). exists a', rec'. split_and!; [done .. | by constructor].
Qed.

(** Requests that only read. *)
Definition reads X (e : s3E X) : Prop :=
  match e with PutObject _ _ _ | DeleteObject _ _ => False | _ => True end.

Lemma reads_serves X (e : s3E X) o x o' : reads X e -> s3_serves X o e x o' -> o' = o.
Proof. destruct e; cbn; try done. by intros _ [-> _]. Qed.

Lemma reads_abandons X (e : s3E X) o o' : reads X e -> s3_abandons X o e o' -> o' = o.
Proof. by destruct e. Qed.

(** A read of the directory may answer anything. *)
Lemma node_read_refines id (p : proc s3E (result CoordinationError (option NodeRecord))) :
  calls reads p -> refines s3_represents (ReadNode id) p.
Proof.
  induction p as [x | X e k IH]; cbn [refines calls]; [done |]. intros [He Hk]. split.
  - intros o c y o' Hr ->%(reads_serves _ _ _ _ _ He). left. split; [done | by apply IH].
  - intros o c o' Hr ->%(reads_abandons _ _ _ _ He). by exists c.
Qed.

Lemma read_node_reads id : calls reads (S3Store.read_node s id).
Proof.
  unfold S3Store.read_node, read_node_key, read_key. cbn. split; [done |]. intros x.
  destruct (match x with Ok _ => _ | Err _ => _ end) as [[[r b] |] |]; cbn; try done.
  destruct (lease_from_slice b); cbn; try done.
Qed.

Lemma read_owner_refines a : address_wf a -> refines s3_represents (ReadActorOwner a) (S3Store.read_actor_owner s a).
Proof.
  intros Ha. unfold S3Store.read_actor_owner, read_key. cbn [proc_bind refines]. split.
  - intros o c y o' [Hst Hl] [-> Hy]. right. eexists _, c. split; [done |]. split; [by split |].
    cbn. split; [done |]. pose proof (Hst a Ha) as Hd. destruct y as [output | error]; cbn in Hy |- *.
    + destruct Hy as (v & Hcur & He & Hb). destruct (e_tag output) as [e |]; [| done].
      destruct (body output) as [b |]; [| done]. cbn.
      destruct (decodes_current_Some _ _ _ _ Hd Hcur) as ([v' r'] & Hc & Hr & Hdec). cbn in *.
      rewrite (He e), (Hb b) by done. rewrite Hdec. cbn. congruence.
    + case_bool_decide as Hn; cbn; [| done]. symmetry. eapply decodes_current_None; [exact Hd |]. auto.
  - intros o c o' Hr ->. exists c. done.
Qed.

Lemma put_reply_unconfirmed c a rec m (error : SdkError) c' :
  unconfirmed c a rec m c' -> cluster_replies c _ (CompareExchange a rec m) (Ready (put_reply (Err error))) c'.
Proof. intros Hu. cbn. unfold classify_write_error. case_bool_decide; [done |]. by destruct (as_service_error error). Qed.

Lemma cas_refines a rec m :
  address_wf a -> refines s3_represents (CompareExchange a rec m) (S3Store.compare_exchange_actor_owner s a rec m).
Proof.
  intros Ha. unfold S3Store.compare_exchange_actor_owner.
  destruct (owner_to_vec rec) as [b |] eqn:Hv; [| intros c; by left].
  apply owner_round_trip in Hv as Hb. cbn [refines]. split.
  - intros o c y o' Hr Hy. right. exists (put_reply y). destruct y as [etag | error].
    + destruct Hy as (r & Hl & He). destruct (represents_landed _ _ _ _ _ _ _ _ Ha Hb Hr Hl) as (c' & Hc & Hr' & _).
      exists c'. split_and!; [done | done |]. cbn. destruct etag as [e |]; cbn; [by rewrite (He e) | right; left; eauto].
    + destruct (represents_put _ _ _ _ _ _ _ Ha Hb Hr Hy) as (c' & Hu & Hr').
      exists c'. split_and!; [done | done | by apply put_reply_unconfirmed].
  - intros o c o' Hr Hy. destruct (represents_put _ _ _ _ _ _ _ Ha Hb Hr Hy) as (c' & Hu & Hr'). by exists c'.
Qed.

Lemma s3_background_refines o c o' :
  s3_represents o c -> s3_background o o' ->
  exists c', rtc cluster_step c c' /\ threads c' = threads c /\ s3_represents o' c'.
Proof.
  intros Hr [(p & r & Hp & Hl) | (k & h & Hk & ->)].
  - destruct (proj2 Hr p Hp) as (a & rec & Ha & Hkey & Hb & Hfl). destruct p as [k b m]. cbn in *. subst k.
    destruct (represents_landed _ _ _ _ _ _ _ _ Ha Hb Hr Hl) as (c' & (h & Hw & ->) & Hr' & Hth).
    apply list_elem_of_lookup in Hfl as [i Hi]. eexists. split; [| done].
    apply rtc_once. exact (step_land c i (MkWrite a rec m) r h Hi Hw).
  - exists c. split_and!; [apply rtc_refl | done |]. destruct Hr as [Hst Hl]. split; [| done].
    intros a Ha. cbn. rewrite fn_lookup_insert_ne; [by apply Hst |]. apply Hk.
Qed.

#[local, program] Instance s3_lawful : LawfulStore s3E s3_service := {
  initially := s3_initially;
  represents := s3_represents
}.
Next Obligation. intros o [Hl Ho]. split; [intros a Ha; rewrite Ho by done; constructor |]. intros p. rewrite Hl. by intros ?%elem_of_nil. Qed.
Next Obligation. done. Qed.
Next Obligation. intros id. apply node_read_refines, read_node_reads. Qed.
Next Obligation. exact read_owner_refines. Qed.
Next Obligation. exact cas_refines. Qed.
Next Obligation. exact s3_background_refines. Qed.

(** A step of the routers over the backend. *)
Definition s3_cluster_step : relation (store_world s3E s3_service) := store_step.
End s3.

(** What the versions of an object stand for. *)
Lemma decodes_versions {V} (decode : string -> option V) h H v :
  decodes decode h H -> Some v ∈ h -> exists w, Some w ∈ H /\ decode (record v) = Some (record w).
Proof.
  intros Hd (i & Hi)%list_elem_of_lookup. destruct (Forall2_lookup_l _ _ _ _ _ Hd Hi) as ([w |] & Hw & He); [| done].
  exists w. split; [by eapply list_elem_of_lookup_2 | by apply He].
Qed.

Lemma decodes_single {V} (decode : string -> option V) b H :
  decodes decode [Some b] H -> exists v, H = [Some v] /\ decode (record b) = Some (record v).
Proof.
  intros (x & H' & Hx & Hn & ->)%Forall2_cons_inv_l. apply Forall2_nil_inv_l in Hn as ->.
  destruct x as [v |]; [| done]. exists v. split; [done | by apply Hx].
Qed.

(** ** A run: a router claims the room over S3 *)
Definition demo_store : S3CoordinationStore := MkS3Store "bucket" "prod" 3000000000.
Definition demo_service : s3_service := MkS3Service (fun _ => []) [].
Definition demo_claimed : s3_service :=
  with_object demo_service (actor_key demo_store demo_room)
    [Some (MkVersioned (default "" (owner_to_vec (local_claim demo_a 1))) "etag-1")].

Definition no_such_key : result SdkError GetObjectOutput := Err (MkSdkError (Some 404%Z) (Some true)).

Ltac s3_run_local x :=
  eapply rtc_l; [refine (store_local _ _ 0 _ _ _ _ _ x _); reflexivity |]; cbn [list_insert insert].
Ltac s3_run_request y o tac :=
  eapply rtc_l; [refine (store_request _ _ 0 _ _ _ _ _ _ _ y o _ _); [reflexivity | tac] |]; cbn [list_insert insert].

Lemma demo_claim_run :
  rtc (s3_cluster_step demo_store) (MkStoreWorld demo_service [])
    (MkStoreWorld demo_claimed [MkStoreThread demo_a demo_room (Ret (inl (Ok (Local true))))]).
Proof.
  eapply rtc_l; [apply (store_start _ _ (resolving demo_a demo_room)); exists demo_a, demo_room; by split; [| left] |].
  s3_run_local tt.
  s3_run_request no_such_key demo_service ltac:(by split).
  s3_run_local true.
  s3_run_request (Ok (Some "etag-1") : result SdkError (option string)) demo_claimed ltac:(idtac).
  { exists "etag-1". split; [| by intros e [= <-]]. eexists. split; [split_and!; [done | by intros ? ?%elem_of_nil | done] | done]. }
  apply rtc_refl.
Qed.

(** ** Properties *)

(** C10: the cluster runs on S3: any number of routers, whose store operations are
    the requests of the S3 backend interleaved at will, with lost answers, late
    writes, timeouts and crashes, do only what the routers of [Ownership] can do
    over the contract: some execution of the cluster has the histories that the
    owner objects decode to, and the same results of finished calls; so two
    versions of one owner object never name different owners for one unsaturated
    epoch. *)
Theorem routers_over_s3 (codec : JsonCodec) (s : S3CoordinationStore) (o : s3_service)
    (w : store_world s3E s3_service) :
  s3_initially s o -> rtc (s3_cluster_step s) (MkStoreWorld o []) w ->
  (exists c, rtc cluster_step empty_cluster c /\
     (forall a, address_wf a -> decodes owner_from_slice (s3_objects (service w) (actor_key s a)) (hist c a)) /\
     Forall2 (fun st t => st_self st = t_self t /\ st_address st = t_address t /\
                          forall r, st_proc st = Ret r -> t_proc t = Ret r) (routers w) (threads c)) /\
  (forall a v1 v2 r1 r2 o1 o2, address_wf a ->
     Some v1 ∈ s3_objects (service w) (actor_key s a) -> Some v2 ∈ s3_objects (service w) (actor_key s a) ->
     owner_from_slice (record v1) = Some r1 -> owner_from_slice (record v2) = Some r2 ->
     owner r1 = Some o1 -> owner r2 = Some o2 -> ownership_epoch r1 = ownership_epoch r2 ->
     (ownership_epoch r1 < U64_MAX)%Z -> o1 = o2).
Proof.
  intros Ho Hr. destruct (routers_over_lawful_store (H1 := s3_lawful s) o w Ho Hr) as (c & Hc & [Hst _] & Hts).
  split.
  - exists c. split_and!; [done | done |]. eapply Forall2_impl; [| exact Hts]. intros st t (Hs & Ha & Hf).
    split_and!; [done | done |]. intros r Heq. by rewrite Heq in Hf.
  - intros a v1 v2 r1 r2 o1 o2 Ha Hv1 Hv2 Hd1 Hd2 Ho1 Ho2 He Hlt.
    destruct (decodes_versions _ _ _ _ (Hst a Ha) Hv1) as (w1 & Hw1 & Hr1).
    destruct (decodes_versions _ _ _ _ (Hst a Ha) Hv2) as (w2 & Hw2 & Hr2).
    apply reachable_inv in Hc as [Hch _].
    apply (chain_epoch_owner _ w1 w2 o1 o2 (Hch a)); congruence.
Qed.

Lemma routers_over_s3_witness :
  exists c v, rtc cluster_step empty_cluster c /\ hist c demo_room = [Some v] /\
    owner (record v) = Some (self_owner demo_a) /\
    exists t, threads c = [t] /\ t_proc t = Ret (inl (Ok (Local true))).
Proof.
  destruct (routers_over_s3 bit_codec demo_store demo_service _ ltac:(by split) demo_claim_run)
    as [(c & Hc & Hd & Hts) _].
  specialize (Hd demo_room ltac:(by split)). apply decodes_single in Hd as (v & Hh & Hv).
  exists c, v. split; [exact Hc |]. split; [exact Hh |]. split.
  - assert (Hrec : Some (local_claim demo_a 1) = Some (record v)) by (rewrite <- Hv; vm_compute; reflexivity).
    injection Hrec as <-. reflexivity.
  - apply Forall2_cons_inv_l in Hts as (t & ts & (_ & _ & Ht) & Hnil & Heq).
    apply Forall2_nil_inv_l in Hnil as ->. exists t. split; [exact Heq | by apply Ht].
Defined.
