(* ===== verification/TestCluster.v ===== *)
(** * Routers over the in-memory store

    The [TestCoordinationStore] of [test_support.rs] as a backend of the routers
    ([Stores]): its operations lock the store once and never wait, so each is one
    request that is always answered.  Any other use of the store (leases, expiry,
    other routers of the same process) happens in the background.  The routers of
    the repository's cluster tests are therefore routers of [Ownership]. *)

From S2P Require Import Prelude Text Address Coordination Routing Ownership Stores.

(** The operations of the store that a router calls. *)
Inductive testE : Type -> Type :=
| TestReadNode (id : string) : testE (result CoordinationError (option NodeRecord))
| TestReadOwner (a : ActorAddress) : testE (result CoordinationError (option VersionedActorOwnerRecord))
| TestCompareExchange (a : ActorAddress) (rec : ActorOwnerRecord) (rev : option Revision)
    : testE (result CoordinationError (MutationOutcome Revision)).

Definition test_serves X (s : TestStore.TestCoordinationStore) (e : testE X)
    : X -> TestStore.TestCoordinationStore -> Prop :=
  match e in testE X return X -> TestStore.TestCoordinationStore -> Prop with
  | TestReadNode id => fun reply s' => s' = s /\ exists now, reply = TestStore.read_node s now id
  | TestReadOwner a => fun reply s' => s' = s /\ reply = TestStore.read_actor_owner s a
  | TestCompareExchange a rec rev => fun reply s' =>
      (reply, s') = TestStore.compare_exchange_actor_owner s a rec rev
  end.

(** The leases change and the counter of revisions grows; owners stay. *)
Definition test_background (s s' : TestStore.TestCoordinationStore) : Prop :=
  TestStore.owners s' = TestStore.owners s /\ (TestStore.next_revision s <= TestStore.next_revision s')%N.

#[export] Instance test_router_store : RouterStore testE := {
  Stores.read_node id := call (TestReadNode id);
  Stores.read_actor_owner a := call (TestReadOwner a);
  Stores.compare_exchange_actor_owner a rec rev := call (TestCompareExchange a rec rev)
}.

#[export] Instance test_store_service : StoreService testE TestStore.TestCoordinationStore := {
  serves := test_serves;
  abandons X s e s' := False;
  background := test_background
}.

Definition test_represents (s : TestStore.TestCoordinationStore) (c : cluster) : Prop :=
  forall a, TestStore.implements_owner s a (hist c a).

(** ** Lemmas *)

(** The lease operations and the test's own are background. *)
Lemma acquire_is_background s now now' n ttl :
  test_background s (TestStore.acquire_node s now now' n ttl).2.
Proof.
  unfold TestStore.acquire_node. destruct (TestStore.live_lease _ _ _); cbn; split; cbn; (done || lia).
Qed.

Lemma renew_is_background s now n ttl rev r :
  TestStore.renew_node s now n ttl rev = Some r -> test_background s r.2.
Proof.
  unfold TestStore.renew_node. destruct (TestStore.panic_on_renewal s); [done |]. intros [= <-].
  destruct (TestStore.leases s !! node_id n); [case_bool_decide |]; cbn; split; cbn; (done || lia).
Qed.

Lemma release_is_background s id rev : test_background s (TestStore.release_node s id rev).2.
Proof.
  unfold TestStore.release_node. destruct (TestStore.leases s !! id); [case_bool_decide |]; split; cbn; (done || lia).
Qed.

Lemma expire_is_background s id : test_background s (TestStore.expire_node s id).
Proof. by split. Qed.

Lemma remove_is_background s id : test_background s (TestStore.remove_node s id).
Proof. by split. Qed.

Lemma test_cas_refines a rec rev :
  refines test_represents (CompareExchange a rec rev) (call (TestCompareExchange a rec rev)).
Proof.
  cbn [call refines]. split; [| by intros]. intros s c reply s' Hr Hcas. right.
  destruct (test_cas_applied _ _ _ _ _ _ _ (Hr a) (eq_sym Hcas)) as (h' & Hw & Hi).
  assert (Hrep : test_represents s' (with_hist c a h')).
  { intros a'. rewrite hist_with_hist. case_decide as Heq; [by subst |].
    eapply test_cas_frame; [| exact (eq_sym Hcas) | apply Hr]. congruence. }
  exists reply. cbn in Hcas. unfold TestStore.compare_exchange_actor_owner in Hcas.
  destruct (Register.matches _ rev); injection Hcas as -> ->; cbn in Hw.
  - exists (with_hist c a h'). split_and!; [done | done |]. cbn. by eexists.
  - exists c. split_and!; [done | done | by left].
Qed.

#[export, program] Instance test_lawful : LawfulStore testE TestStore.TestCoordinationStore := {
  initially s := TestStore.owners s = ∅;
  represents := test_represents
}.
Next Obligation. intros s Ho a. split; [by rewrite Ho | by intros v ?%elem_of_nil]. Qed.
Next Obligation. done. Qed.
Next Obligation. intros id. cbn. split; [| by intros]. intros s c y s' Hr [-> _]. right. by exists y, c. Qed.
Next Obligation.
  intros a _. cbn. split; [| by intros]. intros s c y s' Hr [-> ->]. right.
  eexists _, c. split_and!; [done | done | done | apply (Hr a)].
Qed.
Next Obligation. intros a rec rev _. apply test_cas_refines. Qed.
Next Obligation.
  intros s c s' Hr [Ho Hn]. exists c. split_and!; [apply rtc_refl | done |]. intros a. destruct (Hr a) as [Hcur Hi].
  split; [by rewrite Ho | by eapply issued_all_mono].
Qed.

(** Routers over the in-memory store are routers of the cluster. *)
Theorem routers_over_test_store (s : TestStore.TestCoordinationStore) w :
  TestStore.owners s = ∅ -> rtc store_step (MkStoreWorld s []) w ->
  exists c, rtc cluster_step empty_cluster c /\
            forall a, TestStore.owners (service w) !! a = Register.current (hist c a).
Proof.
  intros Hs Hr. destruct (routers_over_lawful_store (H1 := test_lawful) s w Hs Hr) as (c & Hc & Hrep & _).
  exists c. split; [done |]. intros a. apply Hrep.
Qed.
