(* ===== verification/LeaseStores.v ===== *)
(** * Lease tasks over a Coordination Store

    As [Stores] does for the routers, this file runs the lease tasks of [Fencing]
    over a backend: every lease operation is a procedure over the requests of some
    service, raced against its timeout, while time passes and other sessions step
    between any two requests.  [LawfulLeaseStore] is what a backend promises; the
    theorem is that the sessions over a lawful backend do what the world of
    [Fencing] can do, so that its theorems hold of them. *)

From S2P Require Import Prelude Text Address Coordination Lease Fencing.

(** ** The interface *)

(** [NodeLeaseStore]; the time to live is in milliseconds, as every backend
    stores it. *)
Class NodeLeaseStore (E : Type -> Type) := {
  read_node_lease : string -> proc E (result CoordinationError (option (NodeRecord * Revision)));
  acquire_node : NodeRecord -> Z -> proc E (result CoordinationError (MutationOutcome Revision));
  renew_node : NodeRecord -> Z -> Revision -> proc E (result CoordinationError (MutationOutcome Revision));
  release_node : string -> Revision -> proc E (result CoordinationError (MutationOutcome unit))
}.

(** The calls of a lease task over a backend. *)
Inductive leasedE (E : Type -> Type) : Type -> Type :=
| LocalCall {X} (e : leaseE X) : leasedE E X
| StoreCall {X} (p : proc E X) : leasedE E (timed X).
Arguments LocalCall {E X} e.
Arguments StoreCall {E X} p.

Definition touches_store X (e : leaseE X) : Prop :=
  match e with
  | AcquireNode _ _ _ | RenewNode _ _ _ _ | ReadNodeLease _ _ => True
  | _ => False
  end.

Definition lease_route `{NodeLeaseStore E} X (e : leaseE X) : leasedE E X :=
  match e in leaseE X return leasedE E X with
  | AcquireNode _ n ttl => StoreCall (acquire_node n (ttl / MILLI))
  | RenewNode _ n ttl rev => StoreCall (renew_node n (ttl / MILLI) rev)
  | ReadNodeLease _ id => StoreCall (read_node_lease id)
  | e => LocalCall e
  end.

(** ** The service behind a backend

    As in [Stores], with the time of the service: it answers requests that read a
    clock.  [mentions o x]: a record of session [x] is stored or on its way. *)
Class LeaseService (E : Type -> Type) (W : Type) := {
  answers : forall X, Z -> W -> E X -> X -> W -> Prop;
  drops : forall X, W -> E X -> W -> Prop;
  drifts : W -> W -> Prop;
  mentions : W -> string -> Prop
}.
Arguments answers {E W _} {X}.
Arguments drops {E W _} {X}.


Record leased_thread (E : Type -> Type) := MkLeasedThread {
  le_self : NodeRecord;
  le_timing : RenewalTiming;
  le_authority : option NodeAuthority;
  le_proc : proc (leasedE E) lease_result
}.
Arguments MkLeasedThread {E} le_self le_timing le_authority le_proc.
Arguments le_self {E} l.
Arguments le_timing {E} l.
Arguments le_authority {E} l.
Arguments le_proc {E} l.

(** A time, the service, the sessions, and the releases under way. *)
Record leased_world (E : Type -> Type) (W : Type) := MkLeasedWorld {
  now : Z;
  lease_service : W;
  tasks : list (leased_thread E);
  releases : list (proc E (result CoordinationError (MutationOutcome unit)))
}.
Arguments MkLeasedWorld {E W} now lease_service tasks releases.
Arguments now {E W} l.
Arguments lease_service {E W} l.
Arguments tasks {E W} l.
Arguments releases {E W} l.

(** The calls that are no store operation, as [Fencing.lease_replies] has them. *)
Definition local_answers (t : Z) (auth : option NodeAuthority) X (e : leaseE X) (x : X)
    (auth' : option NodeAuthority) : Prop :=
  ~ touches_store X e /\ lease_replies 0 (empty_lease_world t) t auth X e x (empty_lease_world t) auth'.

(** [timeout] polls the operation first ([Stores.settle]). *)
Definition lease_settle {E A X} (p : proc E X) (k : timed X -> proc (leasedE E) A) : proc (leasedE E) A :=
  match p with
  | Ret x => k (Ready x)
  | Call _ _ => Call (StoreCall p) k
  end.

Definition starts `{NodeLeaseStore E} (fuel : nat) (timing : RenewalTiming) (node : NodeRecord) : leased_thread E :=
  MkLeasedThread node timing None (lift lease_route (lease_life fuel timing node)).

(** The exit of a task that was asked to shut down. *)
Definition leased_exit {E} (p : proc (leasedE E) lease_result) : option RenewalExit :=
  match p with
  | Ret (Some (Ok (inr e))) => if release e then Some e else None
  | _ => None
  end.

Section steps.
Context `{NodeLeaseStore E, LeaseService E W} (id : string) (horizon ttl_limit : Z).

(** Time goes on to the horizon; a task that stops taking steps has crashed. *)
Inductive leased_step : leased_world E W -> leased_world E W -> Prop :=
| leased_tick t o ts rs t' :
    (t <= t')%Z -> (t' <= horizon)%Z ->
    leased_step (MkLeasedWorld t o ts rs) (MkLeasedWorld t' o ts rs)
| leased_start t o ts rs fuel timing node :
    node_id node = id -> (ttl timing <= ttl_limit)%Z ->
    (forall th, th ∈ ts -> session_id (le_self th) <> session_id node) -> ~ mentions o (session_id node) ->
    leased_step (MkLeasedWorld t o ts rs) (MkLeasedWorld t o (ts ++ [starts fuel timing node]) rs)
| leased_local t o ts rs i self timing auth auth' X (e : leaseE X) k x :
    ts !! i = Some (MkLeasedThread self timing auth (Call (LocalCall e) k)) ->
    local_answers t auth X e x auth' ->
    leased_step (MkLeasedWorld t o ts rs) (MkLeasedWorld t o (<[i := MkLeasedThread self timing auth' (k x)]> ts) rs)
| leased_return t o ts rs i self timing auth X (x : X) k :
    ts !! i = Some (MkLeasedThread self timing auth (Call (StoreCall (Ret x)) k)) ->
    leased_step (MkLeasedWorld t o ts rs) (MkLeasedWorld t o (<[i := MkLeasedThread self timing auth (k (Ready x))]> ts) rs)
| leased_request t o ts rs i self timing auth X Y (q : E Y) (kk : Y -> proc E X) k y o' :
    ts !! i = Some (MkLeasedThread self timing auth (Call (StoreCall (Call q kk)) k)) ->
    answers t o q y o' ->
    leased_step (MkLeasedWorld t o ts rs)
      (MkLeasedWorld t o' (<[i := MkLeasedThread self timing auth (lease_settle (kk y) k)]> ts) rs)
| leased_elapsed t o ts rs i self timing auth X Y (q : E Y) (kk : Y -> proc E X) k o' :
    ts !! i = Some (MkLeasedThread self timing auth (Call (StoreCall (Call q kk)) k)) ->
    drops o q o' ->
    leased_step (MkLeasedWorld t o ts rs) (MkLeasedWorld t o' (<[i := MkLeasedThread self timing auth (k Elapsed)]> ts) rs)
| leased_release t o ts rs i th e :
    ts !! i = Some th -> leased_exit (le_proc th) = Some e ->
    leased_step (MkLeasedWorld t o ts rs)
      (MkLeasedWorld t o ts (release_node (exit_node_id e) (exit_revision e) :: rs))
| leased_release_request t o ts rs j Y (q : E Y) kk y o' :
    rs !! j = Some (Call q kk) -> answers t o q y o' ->
    leased_step (MkLeasedWorld t o ts rs) (MkLeasedWorld t o' ts (<[j := kk y]> rs))
| leased_release_dropped t o ts rs j Y (q : E Y) kk o' :
    rs !! j = Some (Call q kk) -> drops o q o' ->
    leased_step (MkLeasedWorld t o ts rs) (MkLeasedWorld t o' ts (delete j rs))
| leased_drift t o ts rs o' :
    drifts o o' -> leased_step (MkLeasedWorld t o ts rs) (MkLeasedWorld t o' ts rs).
End steps.

(** ** The law of a backend *)

(** What was true when an operation looked may still be counted on when it writes. *)
Definition later (w w' : lease_world) : Prop :=
  (clock w <= clock w')%Z /\ forall v, Some v ∈ lease_hist w -> Some v ∈ lease_hist w'.
Definition lasting (K : lease_world -> Prop) : Prop := forall w w', K w -> later w w' -> K w'.

#[export] Instance later_PreOrder : PreOrder later.
Proof.
  split; [by intros w; split; [lia |] |].
  intros w1 w2 w3 [H1 H2] [H3 H4]. split; [lia | auto].
Qed.

Section law.
Context `{LeaseService E W} (skew horizon : Z) (represents : W -> lease_world -> Prop).

(** An operation issued at [since] does what the call of the contract may do, at
    its last request.  A request before that one changes nothing the world of
    leases can see, and what it learnt ([K]) lasts. *)
Fixpoint implements {X} (since : Z) (e : leaseE (timed X)) (K : lease_world -> Prop) (p : proc E X) : Prop :=
  match p with
  | Ret x =>
      forall o w auth, represents o w -> K w -> (since <= clock w <= horizon)%Z ->
      lease_replies skew w since auth _ e (Ready x) w auth
  | Call q kk =>
      forall o w, represents o w -> K w -> (since <= clock w <= horizon)%Z ->
      (forall y o', answers (clock w) o q y o' ->
         (represents o' w /\ exists K', lasting K' /\ K' w /\ implements since e K' (kk y)) \/
         (exists x w', kk y = Ret x /\ represents o' w' /\
                       forall auth, lease_replies skew w since auth _ e (Ready x) w' auth)) /\
      (forall o', drops o q o' ->
         exists w', represents o' w' /\ forall auth, lease_replies skew w since auth _ e Elapsed w' auth)
  end.

(** A release deletes the revision, or fails, at one of its requests. *)
Fixpoint releases_revision (rev : Revision) (p : proc E (result CoordinationError (MutationOutcome unit))) : Prop :=
  match p with
  | Ret _ => True
  | Call q kk =>
      forall o w, represents o w ->
      (forall t y o', answers t o q y o' ->
         exists reply h', Register.delete_replies (lease_hist w) rev reply h' /\
                          represents o' (with_lease_hist w h') /\ releases_revision rev (kk y)) /\
      (forall o', drops o q o' ->
         exists reply h', Register.delete_replies (lease_hist w) rev reply h' /\ represents o' (with_lease_hist w h'))
  end.
End law.

Class LawfulLeaseStore (skew : Z) (id : string) (horizon ttl_limit : Z) (E : Type -> Type) (W : Type)
    `{NodeLeaseStore E, LeaseService E W} := {
  lease_initially : W -> Prop;
  lease_represents : W -> lease_world -> Prop;
  represents_empty o t : lease_initially o -> lease_represents o (empty_lease_world t);
  represents_same o w w' : lease_represents o w ->
    lease_hist w' = lease_hist w -> lost_writes w' = lost_writes w -> lease_represents o w';
  represents_mentions o w n e : lease_represents o w -> written w n e -> mentions o (session_id n);
  acquire_implements since timeout n ttl : node_id n = id -> (ttl <= ttl_limit)%Z ->
    implements skew horizon lease_represents since (AcquireNode timeout n ttl) (fun _ => True) (acquire_node n (ttl / MILLI));
  renew_implements since timeout n ttl rev : node_id n = id -> (ttl <= ttl_limit)%Z ->
    implements skew horizon lease_represents since (RenewNode timeout n ttl rev) (fun _ => True) (renew_node n (ttl / MILLI) rev);
  read_implements since timeout :
    implements skew horizon lease_represents since (ReadNodeLease timeout id) (fun _ => True) (read_node_lease id);
  release_implements rev : releases_revision lease_represents rev (release_node id rev);
  drift_implements o w o' : lease_represents o w -> drifts o o' ->
    exists w', rtc (lease_world_step skew id) w w' /\ sessions w' = sessions w /\ clock w' = clock w /\
               later w w' /\ lease_represents o' w'
}.

(** ** Lemmas on the calls of a lease task *)

(** The lease operations of a session are about its node, for its time to live. *)
Definition leases_of (id : string) (T : Z) X (e : leaseE X) : Prop :=
  match e with
  | AcquireNode _ n ttl | RenewNode _ n ttl _ => node_id n = id /\ ttl = T
  | ReadNodeLease _ id' => id' = id
  | _ => True
  end.

(** Its exit names its node. *)
Definition exits_of (id : string) (r : renewal_result) : Prop :=
  match r with
  | Some (inl (n, _)) => node_id n = id
  | Some (inr e) => exit_node_id e = id
  | None => True
  end.
Definition result_of (id : string) (r : lease_result) : Prop :=
  match r with Some (Ok r) => exits_of id (Some r) | _ => True end.

Section calls.
Context (id : string) (timing : RenewalTiming).

(** Calls and results of a task, in one predicate. *)
Definition minds {A} (Q : A -> Prop) (p : proc leaseE A) : Prop :=
  calls (leases_of id (ttl timing)) p /\ yields Q p.

Lemma minds_bind {A B} (R : A -> Prop) (Q : B -> Prop) (p : proc leaseE A) (f : A -> proc leaseE B) :
  minds R p -> (forall a, R a -> minds Q (f a)) -> minds Q (proc_bind p f).
Proof.
  intros [Hc Hy] Hf. induction p as [a | X e k IH]; [by apply Hf |]. destruct Hc as [He Hk].
  split; cbn; [split; [done |] |]; intros x; by apply (IH x).
Qed.

Lemma minds_call {X A} (Q : A -> Prop) (e : leaseE X) (k : X -> proc leaseE A) :
  leases_of id (ttl timing) X e -> (forall x, minds Q (k x)) -> minds Q (Call e k).
Proof. intros He Hk. split; cbn; [split; [done |] |]; intros x; apply Hk. Qed.

Lemma minds_ret {A} (Q : A -> Prop) a : Q a -> minds Q (Ret a).
Proof. by split. Qed.

Ltac minds_step :=
  repeat first
    [ match goal with
      | |- minds _ (Call _ _) => apply minds_call; [by cbn | intros ?]
      | |- minds _ (Ret _) => apply minds_ret; cbn; try done
      | |- minds _ (match ?x with _ => _ end) => destruct x
      | |- minds _ (if ?x then _ else _) => destruct x
      end
    | assumption ].

Lemma check_valid_minds : minds (fun _ => True) check_valid.
Proof. unfold check_valid. minds_step. Qed.

Lemma confirm_minds n expected dl to : node_id expected = id -> minds (fun _ => True) (confirm_attempts n expected dl to).
Proof. intros Hid. induction n; cbn [confirm_attempts]; minds_step. Qed.

Lemma fence_and_exit_minds n rev : node_id n = id -> minds (exits_of id) (fence_and_exit n rev).
Proof. intros Hid. unfold fence_and_exit. minds_step. Qed.

Lemma renew_and_continue_minds n rev s : node_id n = id -> minds (exits_of id) (renew_and_continue n rev s).
Proof. intros Hid. unfold renew_and_continue. minds_step. Qed.

Lemma renewal_iteration_minds n rev : node_id n = id -> minds (exits_of id) (renewal_iteration timing n rev).
Proof.
  intros Hid. unfold renewal_iteration.
  repeat first
    [ progress minds_step
    | by apply fence_and_exit_minds
    | by apply renew_and_continue_minds
    | eapply minds_bind; [apply check_valid_minds | intros [] _]
    | eapply minds_bind; [by apply confirm_minds | intros [] _] ].
Qed.

Lemma renewal_loop_minds fuel n rev : node_id n = id -> minds (exits_of id) (renewal_loop fuel timing n rev).
Proof.
  revert n rev. induction fuel as [| fuel IH]; intros n rev Hid; [by apply minds_ret |].
  cbn [renewal_loop]. eapply minds_bind; [by apply renewal_iteration_minds |].
  intros [[[n' rev'] | e] |] Hr; [by apply IH | by apply minds_ret ..].
Qed.

Lemma acquire_lease_minds node to : node_id node = id -> minds (fun _ => True) (acquire_lease node (ttl timing) to).
Proof.
  intros Hid. unfold acquire_lease.
  repeat first
    [ progress minds_step
    | eapply minds_bind; [apply check_valid_minds | intros [] _]
    | eapply minds_bind; [by apply confirm_minds | intros [] _] ].
Qed.

Lemma lease_life_minds fuel node : node_id node = id -> minds (result_of id) (lease_life fuel timing node).
Proof.
  intros Hid. unfold lease_life. eapply minds_bind; [by apply acquire_lease_minds |].
  intros [[rev | e] |] _; [| by apply minds_ret ..].
  eapply minds_bind; [by apply renewal_loop_minds |]. intros [r |] Hr; by apply minds_ret.
Qed.
End calls.

(** ** What the world of leases keeps *)
Lemma later_landed w v ex r h' : Register.writes (lease_hist w) v ex r h' -> later w (with_lease_hist w h').
Proof. intros (_ & _ & ->). split; cbn; [lia |]. intros u Hu. by right. Qed.

Lemma replies_later skew w since auth X (e : leaseE X) x w' auth' :
  lease_replies skew w since auth X e x w' auth' -> sessions w' = sessions w /\ clock w' = clock w /\ later w w'.
Proof.
  intros Hrep.
  assert (Hout : w' = w \/ (exists v ex r h', Register.writes (lease_hist w) v ex r h' /\ w' = with_lease_hist w h') \/
                 (exists lw, w' = with_lost_writes w (lw :: lost_writes w))).
  { destruct e as [| | | | | | | to n T | to n T rev |]; cbn in Hrep; try (left; tauto); destruct Hrep as [_ Hrep].
    - assert (Hl : forall r, acquisition_landed skew w since n T r w' ->
        exists v ex r h', Register.writes (lease_hist w) v ex r h' /\ w' = with_lease_hist w h').
      { intros r (t & t' & h' & _ & _ & (_ & Hw) & ->). eauto 6. }
      destruct x as [| [[r | |] |]]; [| by right; left; eapply Hl | ..];
        (destruct Hrep as [-> | [[r Hr] | (t & t' & ex & _ & _ & _ & ->)]]; [by left | by right; left; eapply Hl | right; right; eauto]).
    - assert (Hl : forall r, renewal_landed skew w since n T rev r w' ->
        exists v ex r h', Register.writes (lease_hist w) v ex r h' /\ w' = with_lease_hist w h').
      { intros r (t' & h' & _ & Hw & ->). eauto 6. }
      destruct x as [| [[r | |] |]]; [| by right; left; eapply Hl | ..];
        (destruct Hrep as [-> | [[r Hr] | (t' & _ & ->)]]; [by left | by right; left; eapply Hl | right; right; eauto]). }
  destruct Hout as [-> | [(v & ex & r & h' & Hw & ->) | (lw & ->)]].
  - by split_and!.
  - split_and!; [done | done | by eapply later_landed].
  - split_and!; [done | done | split; cbn; [lia | done]].
Qed.

(** ** The simulation *)
Section simulation.
Context (skew : Z) (id : string) (horizon ttl_limit : Z) {E : Type -> Type} {W : Type}.
Context `{LawfulLeaseStore skew id horizon ttl_limit E W}.

(** The calls over the backend follow the calls of a lease task. *)
Fixpoint lease_follows {A} (q : proc (leasedE E) A) (p : proc leaseE A) : Prop :=
  match q with
  | Ret a => p = Ret a
  | @Call _ _ X e k =>
      match e in leasedE _ X return (X -> proc leaseE A -> Prop) -> Prop with
      | LocalCall e => fun rec => exists k', p = Call e k' /\ forall x, rec x (k' x)
      | @StoreCall _ X op => fun rec =>
          exists (e : leaseE (timed X)) k', p = Call e k' /\
            (forall since, implements skew horizon lease_represents since e (fun _ => True) op) /\ forall x, rec x (k' x)
      end (fun x => lease_follows (k x))
  end.

(** The same with an operation issued at [since] under way. *)
Definition underway {A} (w : lease_world) (since : Z) (q : proc (leasedE E) A) (p : proc leaseE A) : Prop :=
  match q with
  | Ret a => p = Ret a
  | @Call _ _ X e k =>
      match e in leasedE _ X return (X -> proc (leasedE E) A) -> Prop with
      | LocalCall e => fun k => exists k', p = Call e k' /\ forall x, lease_follows (k x) (k' x)
      | @StoreCall _ X op => fun k =>
          exists (e : leaseE (timed X)) k' K, p = Call e k' /\ lasting K /\ K w /\
            implements skew horizon lease_represents since e K op /\ forall x, lease_follows (k x) (k' x)
      end k
  end.

Lemma follows_underway {A} w since (q : proc (leasedE E) A) p : lease_follows q p -> underway w since q p.
Proof.
  destruct q as [a | X e k]; [done |]. destruct e as [X e | X op]; cbn; [done |].
  intros (e & k' & -> & Hop & Hk). exists e, k', (fun _ => True). by split_and!.
Qed.

Lemma underway_later {A} w w' since (q : proc (leasedE E) A) p : later w w' -> underway w since q p -> underway w' since q p.
Proof.
  intros Hl. destruct q as [a | X e k]; [done |]. destruct e as [X e | X op]; cbn; [done |].
  intros (e & k' & K & -> & HK & Hw & Hop & Hk). exists e, k', K. split_and!; eauto.
Qed.

Lemma follows_lease_route {A} T (p : proc leaseE A) :
  (T <= ttl_limit)%Z -> calls (leases_of id T) p -> lease_follows (lift lease_route p) p.
Proof.
  intros HT. induction p as [a | X e k IH]; cbn; [done |]. intros [He Hk].
  destruct e as [| | | | | | | to n T' | to n T' rev | to id']; cbn in He |- *; [by eexists; eauto .. | | |].
  - destruct He as [He ->]. do 2 eexists. split_and!; eauto using acquire_implements.
  - destruct He as [He ->]. do 2 eexists. split_and!; eauto using renew_implements.
  - subst id'. do 2 eexists. split_and!; eauto using read_implements.
Qed.

Definition task_follows (w : lease_world) (th : leased_thread E) (at_ : lease_thread) : Prop :=
  le_self th = lt_self at_ /\ le_timing th = lt_timing at_ /\ le_authority th = lt_authority at_ /\
  (lt_since at_ <= clock w)%Z /\ underway w (lt_since at_) (le_proc th) (lt_proc at_) /\
  yields (result_of id) (lt_proc at_).

Definition release_follows (w : lease_world) (p : proc E (result CoordinationError (MutationOutcome unit))) : Prop :=
  exists i th e, sessions w !! i = Some th /\ release_exit th = Some e /\
                 releases_revision lease_represents (exit_revision e) p.

Record lease_simulates (s : leased_world E W) (w : lease_world) : Prop := {
  sim_clock : clock w = now s;
  sim_horizon : (clock w <= horizon)%Z;
  sim_service : lease_represents (lease_service s) w;
  sim_tasks : Forall2 (task_follows w) (tasks s) (sessions w);
  sim_releases p : p ∈ releases s -> release_follows w p
}.

Lemma task_later w w' th at_ : later w w' -> task_follows w th at_ -> task_follows w' th at_.
Proof.
  intros Hl (? & ? & ? & Hs & Hu & Hy). pose proof Hl as [Hc _].
  split_and!; [done | done | done | lia | by eapply underway_later | done].
Qed.

Lemma tasks_later w w' ts ats : later w w' -> Forall2 (task_follows w) ts ats -> Forall2 (task_follows w') ts ats.
Proof. intros Hl Hts. eapply Forall2_impl; [exact Hts |]. intros. by eapply task_later. Qed.

Lemma release_same w w' p : sessions w' = sessions w -> release_follows w p -> release_follows w' p.
Proof. intros Hs (i & th & e & ? & ? & ?). exists i, th, e. by rewrite Hs. Qed.

(** Exited tasks stay as they are when another one steps. *)
Lemma release_insert w w' i th th' p :
  sessions w' = <[i := th']> (sessions w) -> sessions w !! i = Some th -> release_exit th = None ->
  release_follows w p -> release_follows w' p.
Proof.
  intros Hs Hi Hn (j & tj & e & Hj & He & Hp). exists j, tj, e. split_and!; [| done | done].
  rewrite Hs, list_lookup_insert_ne; [done |]. intros <-. congruence.
Qed.

(** A reply to the task moves both. *)
Lemma simulated_reply o o' t ts rs w w' i self timing since auth auth' X (e : leaseE X) k x q :
  lease_simulates (MkLeasedWorld t o ts rs) w ->
  sessions w !! i = Some (MkLeaseThread self timing since auth (Call e k)) ->
  lease_replies skew w since auth X e x w' auth' -> lease_represents o' w' ->
  lease_follows q (k x) -> yields (result_of id) (k x) ->
  exists w2, rtc (lease_world_step skew id) w w2 /\
    lease_simulates (MkLeasedWorld t o' (<[i := MkLeasedThread self timing auth' q]> ts) rs) w2.
Proof.
  intros [Hc Hh Ho Hts Hrs] Hi Hrep Ho' Hq Hy. cbn in *.
  destruct (replies_later _ _ _ _ _ _ _ _ _ Hrep) as (Hs & Hcl & Hl).
  exists (with_sessions w' (<[i := MkLeaseThread self timing (clock w) auth' (k x)]> (sessions w'))). split.
  - by eapply rtc_once, lease_call.
  - split; cbn; [congruence | lia | by eapply represents_same | |].
    + rewrite Hs. apply Forall2_insert; [by apply (tasks_later w) |].
      split_and!; cbn; [done | done | done | lia | by apply follows_underway | done].
    + intros p Hp. eapply (release_insert w); [cbn; by rewrite Hs | exact Hi | done | by apply Hrs].
Qed.

(** A step of the world that moves no task. *)
Lemma simulated_quiet o o' t ts rs w w' :
  lease_simulates (MkLeasedWorld t o ts rs) w -> later w w' -> sessions w' = sessions w ->
  clock w' = clock w -> lease_represents o' w' ->
  lease_simulates (MkLeasedWorld t o' ts rs) w'.
Proof.
  intros [Hc Hh Ho Hts Hrs] Hl Hs Hcl Ho'. cbn in *. split; cbn; [congruence | lia | done | |].
  - rewrite Hs. by apply (tasks_later w).
  - intros p Hp. eapply release_same; [exact Hs | by apply Hrs].
Qed.

(** The session that a task follows. *)
Lemma task_session w ts i self timing auth q :
  Forall2 (task_follows w) ts (sessions w) -> ts !! i = Some (MkLeasedThread self timing auth q) ->
  exists since p, sessions w !! i = Some (MkLeaseThread self timing since auth p) /\
    (since <= clock w)%Z /\ underway w since q p /\ yields (result_of id) p.
Proof.
  intros Hts Hi. destruct (Forall2_lookup_l _ _ _ _ _ Hts Hi) as ([self' timing' since auth' p] & Hw & Hf).
  destruct Hf as (? & ? & ? & ? & ? & ?). cbn in *. subst. by exists since, p.
Qed.

Lemma request_simulated_task o o' t ts rs w i self timing auth X Y (q : E Y) (kk : Y -> proc E X) k y :
  lease_simulates (MkLeasedWorld t o ts rs) w ->
  ts !! i = Some (MkLeasedThread self timing auth (Call (StoreCall (Call q kk)) k)) -> answers t o q y o' ->
  exists w2, rtc (lease_world_step skew id) w w2 /\
    lease_simulates (MkLeasedWorld t o' (<[i := MkLeasedThread self timing auth (lease_settle (kk y) k)]> ts) rs) w2.
Proof.
  intros Hsim Hi Hans. pose proof Hsim as [Hc Hh Ho Hts Hrs]. cbn in Hc, Ho, Hts, Hrs.
  destruct (task_session _ _ _ _ _ _ _ Hts Hi) as (since & p & Hp & Hsince & (e & k' & K & -> & HK & Hw & Hop & Hk) & Hy).
  destruct (Hop o w Ho Hw ltac:(lia)) as [Hreq _]. rewrite Hc in Hreq.
  destruct (Hreq y o' Hans) as [(Ho' & K' & HK' & Hw' & Hop') | (x & w' & Hkk & Ho' & Hrep)].
  - destruct (kk y) as [x | Z' q' kk']; cbn [lease_settle].
    + eapply simulated_reply; [exact Hsim | exact Hp | apply (Hop' o'); [done | done | lia] | done | apply Hk | apply Hy].
    + exists w. split; [apply rtc_refl |]. split; cbn; [done | done | done | | done].
      rewrite <- (list_insert_id (sessions w) i _ Hp). apply Forall2_insert; [done |].
      split_and!; cbn; [done | done | done | done | | done]. by exists e, k', K'.
  - rewrite Hkk. cbn [lease_settle]. eapply simulated_reply; [exact Hsim | exact Hp | apply Hrep | done | apply Hk | apply Hy].
Qed.

Lemma start_simulated t o ts rs w fuel timing node :
  lease_simulates (MkLeasedWorld t o ts rs) w -> node_id node = id -> (ttl timing <= ttl_limit)%Z ->
  (forall th, th ∈ ts -> session_id (le_self th) <> session_id node) -> ~ mentions o (session_id node) ->
  exists w2, rtc (lease_world_step skew id) w w2 /\
    lease_simulates (MkLeasedWorld t o (ts ++ [starts fuel timing node]) rs) w2.
Proof.
  intros [Hc Hh Ho Hts Hrs] Hid HT Hnew Hment. cbn in *.
  exists (with_sessions w (sessions w ++ [starting fuel timing node (clock w)])). split.
  - apply rtc_once, lease_start; [done |]. split.
    + intros at_ [j Hj]%list_elem_of_lookup Heq. destruct (Forall2_lookup_r _ _ _ _ _ Hts Hj) as (th & Hth & Hf).
      destruct Hf as (Hs & _). apply (Hnew th); [by eapply list_elem_of_lookup_2 | congruence].
    + intros n e Hw Heq. apply Hment. rewrite <- Heq. by eapply represents_mentions.
  - destruct (lease_life_minds id timing fuel node Hid) as [Hcalls Hy].
    split; cbn; [done | done | by eapply represents_same | |].
    + apply Forall2_app; [apply (tasks_later w); [split; cbn; [lia | done] | done] |]. constructor; [| constructor].
      split_and!; [done | done | done | cbn; lia | | exact Hy].
      apply follows_underway. by eapply follows_lease_route.
    + intros p Hp. destruct (Hrs p Hp) as (j & th & e & Hj & He & Hr). exists j, th, e.
      split_and!; [by apply lookup_app_l_Some | done | done].
Qed.

(** A step of a release that deletes, or does not. *)
Lemma release_simulated t o o' ts rs rs' w i th e reply h' :
  lease_simulates (MkLeasedWorld t o ts rs) w -> sessions w !! i = Some th -> release_exit th = Some e ->
  Register.delete_replies (lease_hist w) (exit_revision e) reply h' -> lease_represents o' (with_lease_hist w h') ->
  (forall p, p ∈ rs' -> release_follows w p) ->
  exists w2, rtc (lease_world_step skew id) w w2 /\ lease_simulates (MkLeasedWorld t o' ts rs') w2.
Proof.
  intros [Hc Hh Ho Hts Hrs] Hi He Hd Ho' Hrs'. cbn in *.
  exists (with_lease_hist w h'). split; [by eapply rtc_once, lease_release |].
  split; cbn; [done | done | done | | intros p Hp; by apply (release_same w), Hrs'].
  apply (tasks_later w); [| done].
  assert (h' = lease_hist w \/ h' = None :: lease_hist w) as [-> | ->].
  { destruct reply as [[[] | |] |]; cbn in Hd; unfold Register.deletes in Hd; tauto. }
  - split; cbn; [lia | done].
  - split; cbn; [lia | intros v Hv; by right].
Qed.

Lemma lease_simulation_step s s' w :
  lease_simulates s w -> leased_step id horizon ttl_limit s s' ->
  exists w', rtc (lease_world_step skew id) w w' /\ lease_simulates s' w'.
Proof.
  intros Hsim Hst. pose proof Hsim as [Hc Hh Ho Hts Hrs].
  destruct Hst as [t o ts rs t' Hle Hhor | t o ts rs fuel timing node Hid HT Hnew Hm
    | t o ts rs i self timing auth auth' X e k x Hi Hans | t o ts rs i self timing auth X x k Hi
    | t o ts rs i self timing auth X Y q kk k y o' Hi Hans | t o ts rs i self timing auth X Y q kk k o' Hi Hdr
    | t o ts rs i th e Hi He | t o ts rs j Y q kk y o' Hj Hans | t o ts rs j Y q kk o' Hj Hdr | t o ts rs o' Hd];
    cbn in Hc, Hh, Ho, Hts, Hrs.
  - exists (with_clock w t'). split; [apply rtc_once, lease_tick; lia |]. split; cbn; [done | done | by eapply represents_same | |].
    + apply (tasks_later w); [split; cbn; [lia | done] | done].
    + intros p Hp. by apply (release_same w), Hrs.
  - by apply start_simulated.
  - destruct (task_session _ _ _ _ _ _ _ Hts Hi) as (since & p & Hp & Hsince & (k' & -> & Hk) & Hy).
    destruct Hans as [Hloc Hrep]. eapply simulated_reply; [exact Hsim | exact Hp | | done | apply Hk | apply Hy].
    destruct e; cbn in Hloc, Hrep |- *; try tauto; rewrite Hc; tauto.
  - destruct (task_session _ _ _ _ _ _ _ Hts Hi) as (since & p & Hp & Hsince & (e & k' & K & -> & _ & Hw & Hop & Hk) & Hy).
    eapply simulated_reply; [exact Hsim | exact Hp | apply (Hop o); [done | done | lia] | done | apply Hk | apply Hy].
  - by eapply request_simulated_task.
  - destruct (task_session _ _ _ _ _ _ _ Hts Hi) as (since & p & Hp & Hsince & (e & k' & K & -> & HK & Hw & Hop & Hk) & Hy).
    destruct (Hop o w Ho Hw ltac:(lia)) as [_ Hdrop]. destruct (Hdrop o' Hdr) as (w' & Ho' & Hrep).
    eapply simulated_reply; [exact Hsim | exact Hp | apply Hrep | done | apply Hk | apply Hy].
  - exists w. split; [apply rtc_refl |]. split; cbn; [done .. |]. intros p. rewrite elem_of_cons.
    intros [-> | Hp]; [| by apply Hrs].
    destruct th as [self timing auth q]. destruct (task_session _ _ _ _ _ _ _ Hts Hi) as (since & p & Hp & _ & Hu & Hy).
    cbn in He. unfold leased_exit in He. destruct q as [[[[|e'] |] |] | X e' k]; try done.
    destruct (release e') eqn:Hrel; [| done]. injection He as ->. cbn in Hu. subst p. cbn in Hy.
    eexists i, _, e. split_and!; [exact Hp | unfold release_exit; cbn; by rewrite Hrel |]. rewrite Hy. apply release_implements.
  - destruct (Hrs _ (list_elem_of_lookup_2 _ _ _ Hj)) as (i & th & e & Hi & He & Hr).
    destruct (Hr o w Ho) as [Hreq _]. destruct (Hreq t y o' Hans) as (reply & h' & Hd & Ho' & Hk).
    eapply release_simulated; [exact Hsim | exact Hi | exact He | exact Hd | exact Ho' |].
    intros p [j' Hj']%list_elem_of_lookup. apply list_lookup_insert_Some in Hj' as [(_ & <- & _) | (_ & Hj')].
    + by exists i, th, e.
    + by apply Hrs, (list_elem_of_lookup_2 _ j').
  - destruct (Hrs _ (list_elem_of_lookup_2 _ _ _ Hj)) as (i & th & e & Hi & He & Hr).
    destruct (Hr o w Ho) as [_ Hdrop]. destruct (Hdrop o' Hdr) as (reply & h' & Hd & Ho').
    eapply release_simulated; [exact Hsim | exact Hi | exact He | exact Hd | exact Ho' |].
    intros p [j' Hj']%list_elem_of_lookup. rewrite list_lookup_delete in Hj'.
    apply Hrs. case_decide; by eapply list_elem_of_lookup_2.
  - destruct (drift_implements o w o' Ho Hd) as (w' & Hr & Hs & Hcl & Hl & Ho').
    exists w'. split; [done |]. by eapply simulated_quiet.
Qed.

(** What the sessions over a lawful backend do, the world of leases can do. *)
Theorem leases_over_lawful_store t o s :
  (t <= horizon)%Z -> lease_initially o -> rtc (leased_step id horizon ttl_limit) (MkLeasedWorld t o [] []) s ->
  exists w, rtc (lease_world_step skew id) (empty_lease_world t) w /\ lease_simulates s w.
Proof.
  intros Ht Ho Hr.
  apply (rtc_preserved (leased_step id horizon ttl_limit)
    (fun s => exists w, rtc (lease_world_step skew id) (empty_lease_world t) w /\ lease_simulates s w)
    (MkLeasedWorld t o [] [])); [| | exact Hr].
  - intros s1 s2 (w & Hw & Hsim) Hst. destruct (lease_simulation_step _ _ _ Hsim Hst) as (w' & Hw' & Hsim').
    exists w'. split; [by etrans | done].
  - exists (empty_lease_world t). split; [apply rtc_refl |].
    split; cbn; [done | done | by apply represents_empty | constructor | by intros p ?%elem_of_nil].
Qed.
End simulation.
