(* ===== verification/S3Leases.v ===== *)
(** * Lease tasks over the S3 backend

    Runs the lease tasks of a node id over [S3Store], request by request: an
    acquisition is a [GetObject], a clock reading, another one and a [PutObject],
    and anything may happen in between.  The service is that of [S3Cluster], and
    a request for the wall clock is answered within [skew] of the time.  The
    theorem is mutual exclusion of the authority of two sessions, for the code of
    the tasks and of the backend together. *)

From S2P Require Import Prelude Text Address Coordination Routing Ownership Lease Fencing S3Store Stores S3Cluster LeaseStores.
From stdpp Require Import functions.

Section s3.
Context {codec : JsonCodec} (s : S3CoordinationStore) (skew : Z) (id : string) (horizon ttl_limit : Z).

(** ** The service *)
Definition s3_answers X (t : Z) (o : s3_service) (e : s3E X) : X -> s3_service -> Prop :=
  match e in s3E X return X -> s3_service -> Prop with
  | WallTimeMillis => fun u o' => o' = o /\ wall_between skew t t u
  | e => s3_serves _ o e
  end.

(** A lost write takes place; an object other than the lease changes. *)
Definition s3_drifts (o o' : s3_service) : Prop :=
  (exists p r, p ∈ lost_puts o /\ put_lands o p r o') \/
  (exists k h, k <> node_key s id /\ o' = with_object o k h).

(** The leases of the node that are stored, were stored, or may still be. *)
Definition in_bucket (o : s3_service) (n : NodeRecord) (e : Z) : Prop :=
  (exists v, Some v ∈ s3_objects o (node_key s id) /\ lease_of id (record v) = Some (n, e)) \/
  (exists p, p ∈ lost_puts o /\ put_key p = node_key s id /\ lease_of id (put_body p) = Some (n, e)).

Definition s3_mentions (o : s3_service) (x : string) : Prop := exists n e, in_bucket o n e /\ session_id n = x.

#[local] Instance s3_lease_store : NodeLeaseStore s3E := {
  LeaseStores.read_node_lease := S3Store.read_node_lease s;
  LeaseStores.acquire_node := S3Store.acquire_node s;
  LeaseStores.renew_node := S3Store.renew_node s;
  LeaseStores.release_node := S3Store.release_node s
}.

#[local] Instance s3_lease_service : LeaseService s3E s3_service := {
  answers := s3_answers;
  drops := s3_abandons;
  drifts := s3_drifts;
  mentions := s3_mentions
}.

(** ** What the bucket stands for *)
Record s3_lease_represents (o : s3_service) (w : lease_world) : Prop := {
  rep_object : decodes (lease_of id) (s3_objects o (node_key s id)) (lease_hist w);
  rep_coherent : Register.coherent (lease_hist w);
  rep_lost p : p ∈ lost_puts o -> put_key p = node_key s id ->
    exists n e, lease_of id (put_body p) = Some (n, e) /\ MkLeaseWrite n e (put_if_match p) ∈ lost_writes w;
  rep_writes lw : lw ∈ lost_writes w ->
    exists p, p ∈ lost_puts o /\ put_key p = node_key s id /\ lease_of id (put_body p) = Some (lw_record lw, lw_expiry lw)
}.

Definition s3_lease_initially (o : s3_service) : Prop :=
  lost_puts o = [] /\ s3_objects o (node_key s id) = [].

(** What becomes of the write of a lease. *)
Definition put_result (w : lease_world) (n : NodeRecord) (e : Z) (m : option Revision)
    (t : timed (result CoordinationError (MutationOutcome Revision))) (w' : lease_world) : Prop :=
  match t with
  | Ready (Ok (Applied r)) => landed_as w n e m r w'
  | _ => w' = w \/ (exists r, landed_as w n e m r w') \/ w' = with_lost_writes w (MkLeaseWrite n e m :: lost_writes w)
  end.

Lemma lease_landed o w b n e m r o' :
  lease_of id b = Some (n, e) -> s3_lease_represents o w -> put_lands o (MkLostPut (node_key s id) b m) r o' ->
  exists w', landed_as w n e m r w' /\ s3_lease_represents o' w'.
Proof.
  intros Hb [Hd Hc Hl Hw] (h' & Hwr & ->). cbn in Hwr.
  destruct (decodes_writes _ _ _ _ _ _ _ _ Hd Hb Hwr) as (H' & Hd' & Hw').
  exists (with_lease_hist w H'). split; [by exists H' |]. split; cbn; [| by eapply register_writes_coherent | done | done].
  by rewrite fn_lookup_insert.
Qed.

Lemma lease_unconfirmed o w b n e m o' t :
  lease_of id b = Some (n, e) -> s3_lease_represents o w -> put_unconfirmed o (MkLostPut (node_key s id) b m) o' ->
  (forall r, t <> Ready (Ok (Applied r))) ->
  exists w', put_result w n e m t w' /\ s3_lease_represents o' w'.
Proof.
  intros Hb Hrep Hp Ht.
  assert (Hres : forall w', w' = w \/ (exists r, landed_as w n e m r w') \/
            w' = with_lost_writes w (MkLeaseWrite n e m :: lost_writes w) -> put_result w n e m t w').
  { intros w' Hw'. unfold put_result. destruct t as [| [[r | |] |]]; try done. by destruct (Ht r). }
  destruct Hp as [-> | [[r Hl] | ->]].
  - exists w. split; [apply Hres; by left | done].
  - destruct (lease_landed _ _ _ _ _ _ _ _ Hb Hrep Hl) as (w' & Hw' & Hr'). exists w'. split; [apply Hres; eauto | done].
  - exists (with_lost_writes w (MkLeaseWrite n e m :: lost_writes w)). split; [apply Hres; eauto |].
    destruct Hrep as [Hd Hc Hlo Hw]. split; cbn; [done | done | |].
    + intros p. rewrite elem_of_cons. intros [-> | Hp] Hk.
      * exists n, e. split; [done | constructor].
      * destruct (Hlo p Hp Hk) as (n' & e' & ? & ?). exists n', e'. split; [done | by constructor].
    + intros lw. rewrite elem_of_cons. intros [-> | Hlw].
      * exists (MkLostPut (node_key s id) b m). split_and!; [constructor | done | done].
      * destruct (Hw lw Hlw) as (p & ? & ? & ?). exists p. split_and!; [by constructor | done | done].
Qed.

(** ** The writes *)
Hypothesis horizon_nonneg : (0 <= horizon)%Z.
Hypothesis skew_nonneg : (0 <= skew)%Z.
Hypothesis no_saturation : (horizon / MILLI + skew + ttl_limit / MILLI <= U64_MAX)%Z.

Lemma stored_expiry t u T :
  (t <= horizon)%Z -> (T <= ttl_limit)%Z -> wall_between skew t t u ->
  saturating_add u (Z.min (T / MILLI) U64_MAX) = (u + T / MILLI)%Z.
Proof.
  intros Ht HT [_ Hu]. apply wall_mono in Ht, HT. unfold saturating_add.
  pose proof (Z.div_pos horizon MILLI horizon_nonneg eq_refl). lia.
Qed.

(** A put of the lease, once what it needs to know is known. *)
Lemma put_node_implements since (c : leaseE (timed (result CoordinationError (MutationOutcome Revision)))) n T m
    (K : lease_world -> Prop) :
  node_id n = id -> (T <= ttl_limit)%Z -> lasting K ->
  (forall w u t w' auth, Register.coherent (lease_hist w) -> K w -> wall_between skew since (clock w) u ->
     put_result w n (u + T / MILLI) m t w' -> lease_replies skew w since auth _ c t w' auth) ->
  implements skew horizon s3_lease_represents since c K (S3Store.put_node s n (T / MILLI) m).
Proof.
  intros Hid HT HK Hper. cbn [S3Store.put_node implements]. intros o w Hrep Hw Hs. split.
  - intros u o' [-> [Hu1 Hu2]]. left. split; [done |].
    pose proof (wall_mono since (clock w) ltac:(lia)) as Hmono.
    exists (fun w => K w /\ wall_between skew since (clock w) u). split_and!; [| done | unfold wall_between; lia |].
    { intros w1 w2 [H1 [H2 H3]] Hl. split; [by eapply HK |]. pose proof (wall_mono _ _ (proj1 Hl)). unfold wall_between. lia. }
    rewrite (stored_expiry (clock w)) by (done || lia).
    destruct (lease_to_vec _) as [b |] eqn:Hv; cbn [implements].
    + apply lease_of_written in Hv. rewrite Hid in Hv |- *. clear Hrep Hw Hs Hmono Hu1 Hu2 o w.
      intros o w Hrep [Hw Hwall] Hs. split.
      * intros y o' Hy. right. exists (put_reply y).
        assert (Hcase : exists w', put_result w n (u + T / MILLI) m (Ready (put_reply y)) w' /\ s3_lease_represents o' w').
        { destruct y as [etag | error]; cbn in Hy.
          - destruct Hy as (r & Hl & He). destruct (lease_landed _ _ _ _ _ _ _ _ Hv Hrep Hl) as (w' & Hw' & Hr').
            exists w'. split; [| done]. destruct etag as [e |]; cbn; [by rewrite (He e) | right; left; eauto].
          - eapply lease_unconfirmed; [exact Hv | exact Hrep | exact Hy |]. intros r. cbn. unfold classify_write_error.
            case_bool_decide; [done |]. by destruct (as_service_error error). }
        destruct Hcase as (w' & Hres & Hr'). exists w'. split_and!; [done | done |]. intros auth.
        eapply Hper; [apply Hrep | exact Hw | exact Hwall | exact Hres].
      * intros o' Hd. destruct (lease_unconfirmed _ _ _ _ _ _ _ Elapsed Hv Hrep Hd) as (w' & Hres & Hr'); [done |].
        exists w'. split; [done |]. intros auth. eapply Hper; [apply Hrep | exact Hw | exact Hwall | exact Hres].
    + intros o' w' auth Hrep' [Hw' Hwall] _. eapply Hper; [apply Hrep' | exact Hw' | exact Hwall | by left].
  - intros o' ->. exists w. split; [done |]. intros auth.
    eapply (Hper w (clock w / MILLI)%Z); [apply Hrep | done | | by left].
    pose proof (wall_mono since (clock w) ltac:(lia)). unfold wall_between. lia.
Qed.

Lemma s3_renew_implements since timeout n T rev :
  node_id n = id -> (T <= ttl_limit)%Z ->
  implements skew horizon s3_lease_represents since (RenewNode timeout n T rev) (fun _ => True)
    (S3Store.renew_node s n (T / MILLI) rev).
Proof.
  intros Hid HT. apply put_node_implements; [done | done | done |].
  intros w u t w' auth _ _ Hu Hres. cbn. split; [done |].
  destruct t as [| [[r | |] |]]; cbn in Hres;
    [| destruct Hres as (h' & Hw & ->); by exists u, h' | ..];
    (destruct Hres as [-> | [(r & h' & Hw & ->) | ->]];
      [by left | right; left; by exists r, u, h' | right; right; by exists u]).
Qed.

(** An acquisition writes over nothing, or over a lease it saw expired. *)
Definition seen_expired (since : Z) (m : option Revision) (w : lease_world) : Prop :=
  match m with
  | None => True
  | Some r => exists v t, Some v ∈ lease_hist w /\ revision v = r /\ wall_between skew since (clock w) t /\ (expiry_of v <= t)%Z
  end.

Lemma seen_expired_lasting since m : lasting (seen_expired since m).
Proof.
  intros w w' Hs Hl. destruct m as [r |]; [| done]. destruct Hs as (v & t & Hv & Hr & [Ht1 Ht2] & He).
  exists v, t. split_and!; [by apply Hl | done | | done]. pose proof (wall_mono _ _ (proj1 Hl)). unfold wall_between. lia.
Qed.

Lemma acquisition_replies since timeout n T m w u t w' auth :
  Register.coherent (lease_hist w) -> seen_expired since m w -> wall_between skew since (clock w) u ->
  put_result w n (u + T / MILLI) m t w' ->
  lease_replies skew w since auth _ (AcquireNode timeout n T) t w' auth.
Proof.
  intros Hc Hs Hu Hres. split; [done |].
  assert (Hland : forall r, landed_as w n (u + T / MILLI) m r w' -> acquisition_landed skew w since n T r w').
  { intros r (h' & Hwr & ->). pose proof Hwr as (Hm & Hnames & ->).
    destruct m as [rev |].
    - destruct Hs as (v & t0 & Hv & <- & Ht0 & He). exists t0, u. eexists. split_and!; [exact Ht0 | exact Hu | | reflexivity].
      destruct (register_matches_current _ _ Hm) as (c & Hcur & Hrev).
      assert (Hrec : record c = record v) by (eapply Hc; [by apply register_current_elem | done | done]).
      split; [| by rewrite Hcur in *; cbn; rewrite Hrev].
      intros c' Hc'. assert (c' = c) as -> by congruence. unfold expiry_of in He. by rewrite Hrec.
    - apply register_matches_absent in Hm. exists u, u. eexists. split_and!; [exact Hu | exact Hu | | reflexivity].
      split; [by intros c; rewrite Hm | by rewrite Hm]. }
  assert (Hlost : w' = with_lost_writes w (MkLeaseWrite n (u + T / MILLI) m :: lost_writes w) -> acquisition_lost skew w since n T w').
  { intros ->. destruct m as [rev |].
    - destruct Hs as (v & t0 & Hv & Hr & Ht0 & He). exists t0, u, (Some rev). split_and!; [done | done | by exists v | done].
    - by exists u, u, None. }
  destruct t as [| [[r | |] |]]; cbn in Hres |- *; [| by apply Hland | ..];
    (destruct Hres as [-> | [[r Hl] | Hl]]; [by left | right; left; eauto | right; right; auto]).
Qed.

Lemma s3_acquire_implements since timeout n T :
  node_id n = id -> (T <= ttl_limit)%Z ->
  implements skew horizon s3_lease_represents since (AcquireNode timeout n T) (fun _ => True)
    (S3Store.acquire_node s n (T / MILLI)).
Proof.
  intros Hid HT.
  assert (Hput : forall m, implements skew horizon s3_lease_represents since (AcquireNode timeout n T) (seen_expired since m)
                   (S3Store.put_node s n (T / MILLI) m)).
  { intros m. apply put_node_implements; [done | done | apply seen_expired_lasting |].
    intros w u t w' auth Hc Hs Hu Hres. by eapply acquisition_replies. }
  assert (Hfail : forall o w (x : result CoordinationError (MutationOutcome Revision)), s3_lease_represents o w -> not_applied x ->
    exists x' w', Ret (E := s3E) x = Ret x' /\ s3_lease_represents o w' /\
      forall auth, lease_replies skew w since auth _ (AcquireNode timeout n T) (Ready x') w' auth).
  { intros o w x Hrep Hx. exists x, w. split_and!; [done | done |]. intros auth. split; [done |].
    destruct x as [[r | |] |]; [done | by left ..]. }
  unfold S3Store.acquire_node, read_node_key, read_key. cbn [proc_bind implements]. intros o w Hrep _ Hs. split.
  - intros y o' [-> Hy]. rewrite Hid in Hy |- *. destruct y as [output | error]; cbn in Hy |- *.
    + destruct Hy as (v & Hcur & He & Hb). destruct (e_tag output) as [tag |]; [| right; by eapply Hfail].
      destruct (body output) as [b |]; [| right; by eapply Hfail]. cbn.
      destruct (lease_from_slice b) as [l |] eqn:Hl; cbn; [| right; by eapply Hfail].
      assert (tag = revision v) as -> by auto. assert (b = record v) as -> by auto.
      destruct (decodes_current_Some _ _ _ _ (rep_object _ _ Hrep) Hcur) as (c & Hc & Hrev & Hdec).
      unfold lease_of in Hdec. rewrite Hl in Hdec. cbn in Hdec. injection Hdec as Hdec.
      left. split; [done |]. exists (fun w => Some c ∈ lease_hist w).
      split_and!; [by intros w1 w2 H1 [_ H2]; auto | by apply register_current_elem |].
      clear w Hrep Hs Hc. intros o2 w Hrep Hc Hs. split.
      * intros t o3 [-> Ht]. destruct (Z.leb_spec (S3Store.expires_at_unix_ms l) t) as [Hle | Hgt]; [| right; by eapply Hfail].
        left. split; [done |]. exists (seen_expired since (Some (revision v))).
        split_and!; [apply seen_expired_lasting | | apply Hput].
        exists c, t. split_and!; [done | done | | unfold expiry_of; by rewrite <- Hdec].
        pose proof (wall_mono since (clock w) ltac:(lia)). destruct Ht. unfold wall_between. lia.
      * intros o3 ->. exists w. split; [done |]. intros auth. split; [done | by left].
    + case_bool_decide as Hn; cbn; [| right; by eapply Hfail].
      left. split; [done |]. exists (seen_expired since None). split_and!; [apply seen_expired_lasting | done | apply Hput].
  - intros o' ->. exists w. split; [done |]. intros auth. split; [done | by left].
Qed.

(** ** Reads, releases and the background *)
Lemma s3_read_implements since timeout :
  implements skew horizon s3_lease_represents since (ReadNodeLease timeout id) (fun _ => True)
    (S3Store.read_node_lease s id).
Proof.
  assert (Hnone : forall o w (x : result CoordinationError (option (NodeRecord * Revision))), s3_lease_represents o w ->
    read_back_replies skew w since x ->
    exists x' w', Ret (E := s3E) x = Ret x' /\ s3_lease_represents o w' /\
      forall auth, lease_replies skew w since auth _ (ReadNodeLease timeout id) (Ready x') w' auth).
  { intros o w x Hrep Hx. by exists x, w. }
  unfold S3Store.read_node_lease, read_node_key, read_key. cbn [proc_bind implements]. intros o w Hrep _ Hs. split.
  - intros y o' [-> Hy]. destruct y as [output | error]; cbn in Hy |- *.
    + destruct Hy as (v & Hcur & He & Hb). destruct (e_tag output) as [tag |]; [| right; by eapply Hnone].
      destruct (body output) as [b |]; [| right; by eapply Hnone]. cbn.
      destruct (lease_from_slice b) as [l |] eqn:Hl; cbn; [| right; by eapply Hnone].
      assert (tag = revision v) as -> by auto. assert (b = record v) as -> by auto.
      destruct (decodes_current_Some _ _ _ _ (rep_object _ _ Hrep) Hcur) as (c & Hc & Hrev & Hdec).
      unfold lease_of in Hdec. rewrite Hl in Hdec. cbn in Hdec. injection Hdec as Hdec.
      left. split; [done |]. exists (fun w => Some c ∈ lease_hist w).
      split_and!; [by intros w1 w2 H1 [_ H2]; auto | by apply register_current_elem |].
      clear w Hrep Hs Hc. intros o2 w Hrep Hc Hs. split.
      * intros t o3 [-> Ht]. right. destruct (Z.leb_spec (S3Store.expires_at_unix_ms l) t) as [Hle | Hgt]; [by eapply Hnone |].
        eapply Hnone; [done |]. cbn. exists (S3Store.expires_at_unix_ms l), t. split_and!; [| | done].
        -- destruct c as [[n e] r]. cbn in *. congruence.
        -- pose proof (wall_mono since (clock w) ltac:(lia)). destruct Ht. unfold wall_between. lia.
      * intros o3 ->. by exists w.
    + case_bool_decide as Hn; cbn; right; by eapply Hnone.
  - intros o' ->. by exists w.
Qed.

Lemma represents_deleted o w rev h' :
  s3_lease_represents o w -> Register.deletes (s3_objects o (node_key s id)) rev h' ->
  exists H', Register.deletes (lease_hist w) rev H' /\
    s3_lease_represents (with_object o (node_key s id) h') (with_lease_hist w H').
Proof.
  intros [Hd Hc Hl Hw] Hdel. destruct (decodes_deletes _ _ _ _ _ Hd Hdel) as (H' & Hd' & Hdel').
  exists H'. split; [done |]. split; cbn; [by rewrite fn_lookup_insert | by eapply register_deletes_coherent | done | done].
Qed.

Lemma s3_release_implements rev : releases_revision s3_lease_represents rev (S3Store.release_node s id rev).
Proof.
  assert (Hun : forall o w o', s3_lease_represents o w -> delete_unconfirmed o (node_key s id) rev o' ->
    exists reply h', Register.delete_replies (lease_hist w) rev reply h' /\ s3_lease_represents o' (with_lease_hist w h')).
  { intros o w o' Hrep [-> | (h' & Hdel & ->)].
    - exists (Ok Conflict), (lease_hist w). split; [by left | by destruct w].
    - destruct (represents_deleted _ _ _ _ Hrep Hdel) as (H' & Hdel' & Hrep'). exists (Ok Conflict), H'. split; [by right | done]. }
  cbn [S3Store.release_node releases_revision]. intros o w Hrep. split; [| intros o2; by apply Hun].
  intros t y o' Hy. destruct y as [[] | error]; cbn in Hy.
  - destruct Hy as (h' & Hdel & ->). destruct (represents_deleted _ _ _ _ Hrep Hdel) as (H' & Hdel' & Hrep').
    by exists (Ok (Applied ())), H'.
  - destruct (Hun o w o' Hrep Hy) as (reply & h' & ? & ?). by exists reply, h'.
Qed.

Lemma represents_elsewhere o w k h :
  k <> node_key s id -> s3_lease_represents o w -> s3_lease_represents (with_object o k h) w.
Proof. intros Hk [Hd Hc Hl Hw]. split; cbn; [by rewrite fn_lookup_insert_ne | done | done | done]. Qed.

Lemma s3_drift_implements o w o' :
  s3_lease_represents o w -> s3_drifts o o' ->
  exists w', rtc (lease_world_step skew id) w w' /\ sessions w' = sessions w /\ clock w' = clock w /\
             later w w' /\ s3_lease_represents o' w'.
Proof.
  intros Hrep [(p & r & Hp & Hl) | (k & h & Hk & ->)].
  - destruct (decide (put_key p = node_key s id)) as [Heq | Hne].
    + destruct (rep_lost _ _ Hrep p Hp Heq) as (n & e & Hb & Hlw). destruct p as [k b m]. cbn in *. subst k.
      destruct (lease_landed _ _ _ _ _ _ _ _ Hb Hrep Hl) as (w' & (h' & Hw & ->) & Hrep').
      eexists. split; [by eapply rtc_once, lease_land | split_and!; [done | done | by eapply later_landed | done]].
    + destruct Hl as (h' & _ & ->). exists w. split; [apply rtc_refl |]. split_and!; try done. by apply represents_elsewhere.
  - exists w. split; [apply rtc_refl |]. split_and!; try done. by apply represents_elsewhere.
Qed.

Lemma written_in_bucket o w n e : s3_lease_represents o w -> written w n e -> in_bucket o n e.
Proof.
  intros [Hd Hc Hl Hw] [(r & Hin) | (ex & Hin)].
  - destruct (decodes_elem _ _ _ _ Hd Hin) as (b & Hb & _ & Hdec). left. by exists b.
  - destruct (Hw _ Hin) as (p & Hp & Hk & Hb). right. by exists p.
Qed.

Program Definition s3_lawful_leases : LawfulLeaseStore skew id horizon ttl_limit s3E s3_service := {|
  lease_initially := s3_lease_initially;
  lease_represents := s3_lease_represents
|}.
Next Obligation.
  intros o t [Hl Ho]. split; cbn; [rewrite Ho; constructor | by intros ? ? ?%elem_of_nil | | by intros ? ?%elem_of_nil].
  intros p. rewrite Hl. by intros ?%elem_of_nil.
Qed.
Next Obligation. intros o w w' [Hd Hc Hl Hw] Hh Hlo. split; rewrite ?Hh, ?Hlo; done. Qed.
Next Obligation. intros o w n e Hrep Hw. exists n, e. split; [by eapply written_in_bucket | done]. Qed.
Next Obligation. exact s3_acquire_implements. Qed.
Next Obligation. exact s3_renew_implements. Qed.
Next Obligation. exact s3_read_implements. Qed.
Next Obligation. exact s3_release_implements. Qed.
Next Obligation. exact s3_drift_implements. Qed.

(** A step of the lease tasks over the backend. *)
Definition s3_leased_step : relation (leased_world s3E s3_service) := leased_step id horizon ttl_limit.
End s3.

(** A task that holds authority and was not asked to shut down. *)
Definition task_holds {E W} (w : leased_world E W) (th : leased_thread E) (a : NodeAuthority) : Prop :=
  th ∈ tasks w /\ leased_exit (le_proc th) = None /\ le_authority th = Some a /\ is_valid a (now w) = true.

(** The session of a task that holds authority. *)
Lemma task_holds_session skew id horizon ttl_limit {E W} `{LawfulLeaseStore skew id horizon ttl_limit E W}
    (s : leased_world E W) w th a :
  lease_simulates skew id horizon ttl_limit s w -> task_holds s th a ->
  exists at_, holds_authority w at_ a /\ lt_self at_ = le_self th.
Proof.
  intros [Hc _ _ Hts _] ([i Hi]%list_elem_of_lookup & Hex & Ha & Hv).
  destruct (Forall2_lookup_l _ _ _ _ _ Hts Hi) as (at_ & Hat & Hs & _ & Hau & _ & Hu & _).
  exists at_. split; [| done]. split_and!; [by eapply list_elem_of_lookup_2 | | congruence | by rewrite Hc].
  destruct th as [self timing auth q], at_ as [self' timing' since auth' p]. unfold release_exit. cbn in *.
  destruct q as [r | X e k]; cbn in Hu; [by subst p |].
  destruct e as [X e | X op]; [by destruct Hu as (? & -> & _) | by destruct Hu as (? & ? & ? & -> & _)].
Qed.

(** ** A run: the overlap of [Fencing], over S3 *)
Definition lease_bytes (session : string) (expiry : Z) : string :=
  default "" (lease_to_vec (S3Store.MkStoredNodeLease (demo_node session) expiry)).
Definition lease_versions_a : Register.history string := [Some (MkVersioned (lease_bytes "a" 10) "etag-1")].
Definition lease_versions_b : Register.history string :=
  Some (MkVersioned (lease_bytes "b" 20) "etag-2") :: lease_versions_a.
Definition bucket_a : s3_service := with_object demo_service (node_key demo_store "node-a") lease_versions_a.
Definition bucket_b : s3_service := with_object bucket_a (node_key demo_store "node-a") lease_versions_b.
Definition lease_found : result SdkError GetObjectOutput :=
  Ok (MkGetObjectOutput (Some "etag-1") (Ok (lease_bytes "a" 10))).
Definition demo_horizon : Z := 1000000000000.

Ltac s3_local i x :=
  eapply rtc_l; [eapply (leased_local _ _ _ _ _ _ _ i _ _ _ _ _ _ _ x); [reflexivity | split; [by intros [] | by split]] |].
Ltac s3_request i y o tac :=
  eapply rtc_l; [eapply (leased_request _ _ _ _ _ _ _ i _ _ _ _ _ _ _ _ y o); [reflexivity | tac] |].
Ltac s3_started_session i started :=
  s3_local i tt; s3_local i (granted started 10000000).

(** The acquisition that found the lease of [a]. *)
Lemma lease_a_read :
  lease_from_slice (lease_bytes "a" 10) = Some (S3Store.MkStoredNodeLease (with_node_id (demo_node "a") "") 10).
Proof. vm_compute. reflexivity. Qed.

Lemma leased_found s skew id horizon ttl_limit t o ts rs i self timing auth n T p k y o' :
  ts !! i = Some (MkLeasedThread self timing auth (Call (StoreCall (S3Store.acquire_node s n T)) k)) ->
  s3_answers skew _ t o (GetObject (node_key s (node_id n))) y o' ->
  (call! now := WallTimeMillis; if (10 <=? now)%Z then S3Store.put_node s n T (Some "etag-1") else Ret (Ok Conflict)) = p ->
  y = lease_found ->
  s3_leased_step s skew id horizon ttl_limit (MkLeasedWorld t o ts rs)
    (MkLeasedWorld t o' (<[i := MkLeasedThread self timing auth (Call (StoreCall p) k)]> ts) rs).
Proof.
  intros Hi Hy <- ->. unfold s3_leased_step.
  change (Call (StoreCall ?p) k) with (lease_settle p k).
  pose proof (leased_request (H := s3_lease_store s) (H0 := s3_lease_service s skew id) id horizon ttl_limit
    t o ts rs i self timing auth _ _ _ _ k lease_found o' Hi Hy) as Hstep.
  cbn [read_key lease_found e_tag body ok_or map_err result_bind proc_bind] in Hstep. rewrite lease_a_read in Hstep. exact Hstep.
Qed.

Lemma overlap_over_s3 :
  exists w tha thb a b,
    rtc (s3_leased_step demo_store 0 "node-a" demo_horizon 10000000) (MkLeasedWorld 999999 demo_service [] []) w /\
    lease_service w = bucket_b /\ now w = 10000000%Z /\
    task_holds w tha a /\ task_holds w thb b /\
    session_id (le_self tha) = "a" /\ session_id (le_self thb) = "b" /\ deadline a = 10999999%Z.
Proof.
  eexists _, _, _, _, _. split.
  { eapply rtc_l; [apply (leased_start _ _ _ _ _ _ _ 1 demo_timing (demo_node "a")); [done | done | by intros ? ?%elem_of_nil |] |].
    { intros (n & e & [(v & Hv & _) | (p & Hp & _)] & _); [by apply elem_of_nil in Hv | by apply elem_of_nil in Hp]. }
    s3_local 0 999999%Z.
    s3_request 0 no_such_key demo_service ltac:(by split).
    s3_request 0 0%Z demo_service ltac:(split; [reflexivity | run_in_range]).
    s3_request 0 (Ok (Some "etag-1") : result SdkError (option string)) bucket_a ltac:(idtac).
    { exists "etag-1". split; [eexists; split; [run_writes | reflexivity] | by intros e [= <-]]. }
    s3_local 0 tt. s3_local 0 (granted 999999 10000000). s3_local 0 999999%Z.
    eapply rtc_l; [apply (leased_tick _ _ _ _ _ _ _ 10000000); [done | done] |].
    eapply rtc_l; [apply (leased_start _ _ _ _ _ _ _ 1 demo_timing (demo_node "b")); [done | done | |] |].
    { intros th [-> | Hth]%elem_of_cons; [done | by apply elem_of_nil in Hth]. }
    { intros (n & e & [(v & Hv & Hl) | (p & Hp & _)] & Hx); [| by apply elem_of_nil in Hp].
      apply list_elem_of_In in Hv. vm_compute in Hv. destruct Hv as [[= <-] | []].
      vm_compute in Hl. injection Hl as <- _. vm_compute in Hx. discriminate. }
    s3_local 1 10000000%Z.
    eapply rtc_l; [eapply (leased_found _ _ _ _ _ _ _ _ _ 1); [reflexivity | | reflexivity | reflexivity] |].
    { split; [reflexivity |]. exists (MkVersioned (lease_bytes "a" 10) "etag-1"). split_and!; [reflexivity | by intros e [= <-] | by intros c [= <-]]. }
    s3_request 1 10%Z bucket_a ltac:(split; [reflexivity | run_in_range]).
    s3_request 1 10%Z bucket_a ltac:(split; [reflexivity | run_in_range]).
    s3_request 1 (Ok (Some "etag-2") : result SdkError (option string)) bucket_b ltac:(idtac).
    { exists "etag-2". split; [eexists; split; [split_and!; [reflexivity | | reflexivity] | reflexivity] | by intros e [= <-]].
      intros c Hc%list_elem_of_In Hr. vm_compute in Hc. destruct Hc as [[= <-] | []]. discriminate. }
    s3_local 1 tt. s3_local 1 (granted 10000000 10000000). s3_local 1 10000000%Z.
    apply rtc_refl. }
  split; [reflexivity |]. split; [reflexivity |].
  split. { split_and!; [apply (list_elem_of_lookup_2 _ 0); reflexivity | reflexivity | reflexivity | reflexivity]. }
  split. { split_and!; [apply (list_elem_of_lookup_2 _ 1); reflexivity | reflexivity | reflexivity | reflexivity]. }
  by split_and!.
Qed.

(** ** Properties *)

(** C8: mutual exclusion over S3: in any execution of the lease tasks of a node id
    over the S3 backend, with their requests interleaved at will, lost answers,
    late writes, crashes, restarts and releases, when the tasks of two sessions
    both hold valid authority and neither has been asked to shut down, the
    authority of one of them ends within twice the clock skew plus 2 ms. *)
Theorem fencing_over_s3 (codec : JsonCodec) (s : S3CoordinationStore) (skew : Z) (id : string)
    (horizon ttl_limit start : Z) (o : s3_service) (w : leased_world s3E s3_service)
    (th1 th2 : leased_thread s3E) (a1 a2 : NodeAuthority) :
  (0 <= skew)%Z -> (0 <= start <= horizon)%Z -> (horizon / MILLI + skew + ttl_limit / MILLI <= U64_MAX)%Z ->
  s3_lease_initially s id o ->
  rtc (s3_leased_step s skew id horizon ttl_limit) (MkLeasedWorld start o [] []) w ->
  (forall n e, in_bucket s id (lease_service w) n e -> (lease_generation n < U64_MAX)%Z) ->
  task_holds w th1 a1 -> task_holds w th2 a2 -> session_id (le_self th1) <> session_id (le_self th2) ->
  (Z.min (deadline a1) (deadline a2) < now w + (2 * skew + 2) * MILLI)%Z.
Proof.
  intros Hskew [Hs0 Hs1] Hrange Ho Hr Hun H1 H2 Hne. assert (Hhor : (0 <= horizon)%Z) by lia.
  set (lawful := s3_lawful_leases s skew id horizon ttl_limit Hhor Hskew Hrange).
  destruct (leases_over_lawful_store skew id horizon ttl_limit (H1 := lawful) start o w Hs1 Ho Hr) as (l & Hl & Hsim).
  destruct (task_holds_session _ _ _ _ _ _ _ _ Hsim H1) as (t1 & Ht1 & Hself1).
  destruct (task_holds_session _ _ _ _ _ _ _ _ Hsim H2) as (t2 & Ht2 & Hself2).
  assert (Hinv : fencing_inv skew l).
  { eapply fencing_reachable_inv; [done | exact Hs0 | exact Hl |]. intros n e Hw. eapply Hun, written_in_bucket, Hw.
    apply (sim_service _ _ _ _ _ _ Hsim). }
  rewrite <- (sim_clock _ _ _ _ _ _ Hsim).
  destruct (holds_backed _ _ _ _ (clock l) Hinv Ht1) as [? | (v1 & Hv1 & Hx1 & _)]; [done | lia |].
  destruct (holds_backed _ _ _ _ (clock l) Hinv Ht2) as [? | (v2 & Hv2 & Hx2 & _)]; [done | lia |].
  congruence.
Qed.

Lemma bucket_b_generations n e :
  in_bucket demo_store "node-a" bucket_b n e -> (lease_generation n < U64_MAX)%Z.
Proof.
  intros [(v & Hv & Hl) | (p & Hp & _)]; [| by apply elem_of_nil in Hp].
  apply list_elem_of_In in Hv. vm_compute in Hv. destruct Hv as [[= <-] | [[= <-] | []]];
    vm_compute in Hl; injection Hl as <- _; reflexivity.
Qed.

Lemma fencing_over_s3_witness :
  exists w th1 th2 a1 a2,
    rtc (s3_leased_step demo_store 0 "node-a" demo_horizon 10000000) (MkLeasedWorld 999999 demo_service [] []) w /\
    task_holds w th1 a1 /\ task_holds w th2 a2 /\
    (Z.min (deadline a1) (deadline a2) < now w + (2 * 0 + 2) * MILLI)%Z.
Proof.
  destruct overlap_over_s3 as (w & th1 & th2 & a1 & a2 & Hr & Hb & _ & H1 & H2 & Hx1 & Hx2 & _).
  exists w, th1, th2, a1, a2. split; [exact Hr |]. split; [exact H1 |]. split; [exact H2 |].
  refine (fencing_over_s3 bit_codec demo_store 0 "node-a" demo_horizon 10000000 999999 demo_service w th1 th2 a1 a2
            _ _ _ _ Hr _ H1 H2 _); [done | done | vm_compute; discriminate | by split | |].
  - rewrite Hb. exact bucket_b_generations.
  - rewrite Hx1, Hx2. done.
Defined.
