(* ===== verification/Placement.v ===== *)
(** * Placement of unowned Actors

    Models [coactor/src/cluster/placement.rs] ([P2cPlacement]): the power of two
    choices over the predicted load ratio, with the local accounting of
    placements in flight.  The load ratio is computed in binary64 with the
    standard library's specification of floating point.  The theorems say which
    candidates are picked and in which order, that the pick ends, and what the
    accounting counts. *)

From S2P Require Import Prelude Text Address.
From Stdlib Require Import Floats.SpecFloat.

(** ** binary64 *)
Definition f64 := spec_float.
Definition f64_prec : Z := 53.
Definition f64_emax : Z := 1024.

(** [x as f64] for an unsigned integer: round to nearest, ties to even. *)
Definition as_f64 (x : Z) : f64 := binary_normalize f64_prec f64_emax x 0 false.
Definition f64_add : f64 -> f64 -> f64 := SFadd f64_prec f64_emax.
Definition f64_div : f64 -> f64 -> f64 := SFdiv f64_prec f64_emax.

(** [left.partial_cmp(&right).unwrap_or(Equal)] *)
Definition f64_cmp (x y : f64) : comparison := default Eq (SFcompare x y).

(** ** Data *)
Definition IN_FLIGHT_TTL : Z := 3000000000.   (* nanoseconds *)

Record PlacementCandidate := MkCandidate {
  endpoint : string;
  active_actor_count : Z;
  max_actor_count : Z
}.

(** [PlacementContext]: the candidates. *)
Abbreviation PlacementContext := (list PlacementCandidate).

(** endpoint, to the placements in flight and the time of the last one *)
Abbreviation InFlight := (gmap string (Z * Z)).

Definition retain_fresh (now : Z) (in_flight : InFlight) : InFlight :=
  filter (fun e => Z.max (now - e.2.2) 0 < IN_FLIGHT_TTL)%Z in_flight.

Definition in_flight_count (in_flight : InFlight) (endpoint : string) : Z :=
  match in_flight !! endpoint with
  | Some (count, _) => count
  | None => 0
  end.

(** [P2cPlacement::predicted_ratio] *)
Definition predicted_ratio (in_flight : InFlight) (c : PlacementCandidate) : f64 :=
  f64_div
    (f64_add (as_f64 (active_actor_count c)) (as_f64 (in_flight_count in_flight (endpoint c))))
    (as_f64 (Z.max (max_actor_count c) 1)).

(** The accounting of a pick: [count] is a [usize]. *)
Definition account (now : Z) (target : string) (in_flight : InFlight) : InFlight :=
  match in_flight !! target with
  | Some (count, _) => <[target := ((count + 1) mod (U64_MAX + 1), now)%Z]> in_flight
  | None => <[target := (1, now)%Z]> in_flight
  end.

(** [on_placement_failed] *)
Definition on_placement_failed (target : string) (in_flight : InFlight) : InFlight :=
  alter (fun e => (saturating_sub e.1 1, e.2)) target in_flight.

(** ** The pick

    The random source is the list of the draws it will make; [None]: the draws
    ran out. *)

(** [while n > 1 && second == first { second = rng.next_u64() % n }] *)
Fixpoint redraw (n first second : Z) (draws : list Z) : option (Z * list Z) :=
  if (1 <? n)%Z && (second =? first)%Z then
    match draws with
    | [] => None
    | d :: draws => redraw n first (d mod n)%Z draws
    end
  else Some (second, draws).

(** [picked.sort_by(..)] of at most two indices: a stable sort. *)
Definition sort_picked (less : Z -> Z -> bool) (picked : list Z) : list Z :=
  match picked with
  | [left_; right_] => if less right_ left_ then [right_; left_] else picked
  | _ => picked
  end.

Definition candidate_at (ctx : PlacementContext) (i : Z) : option PlacementCandidate :=
  ctx !! Z.to_nat i.

Definition ratio_at (in_flight : InFlight) (ctx : PlacementContext) (i : Z) : f64 :=
  match candidate_at ctx i with
  | Some c => predicted_ratio in_flight c
  | None => S754_nan     (* indices are below [ctx.candidates.len()] *)
  end.

Definition ratio_less (in_flight : InFlight) (ctx : PlacementContext) (i j : Z) : bool :=
  match f64_cmp (ratio_at in_flight ctx i) (ratio_at in_flight ctx j) with
  | Lt => true
  | _ => false
  end.

(** [P2cPlacement::pick], [PlacementStrategy::candidates] *)
Definition pick (ctx : PlacementContext) (now : Z) (draws : list Z) (in_flight : InFlight)
    : option (list string * list Z * InFlight) :=
  let n := Z.of_nat (length ctx) in
  if bool_decide (ctx = []) then Some ([], draws, in_flight)
  else
    let in_flight := retain_fresh now in_flight in
    match draws with
    | d1 :: d2 :: draws =>
        let first := (d1 mod n)%Z in
        match redraw n first (d2 mod n)%Z draws with
        | None => None
        | Some (second, draws) =>
            let picked := if (second =? first)%Z then [first] else [first; second] in
            let picked := sort_picked (ratio_less in_flight ctx) picked in
            let endpoints := omap (fun i => endpoint <$> candidate_at ctx i) picked in
            let in_flight := match endpoints with
                             | target :: _ => account now target in_flight
                             | [] => in_flight
                             end in
            Some (endpoints, draws, in_flight)
        end
    | _ => None
    end.

#[export] Instance PlacementCandidate_eq_dec : EqDecision PlacementCandidate.
Proof. solve_decision. Defined.

(** ** Lemmas *)
Lemma redraw_Some n first second draws second' draws' :
  redraw n first second draws = Some (second', draws') ->
  (0 <= second < n)%Z -> (0 <= second' < n)%Z /\ (n = 1 \/ second' <> first)%Z.
Proof.
  revert second. induction draws as [| d draws IH]; intros second; cbn [redraw];
    destruct (Z.ltb_spec 1 n), (Z.eqb_spec second first); cbn; intros Heq Hs; simplify_eq; try lia.
  eapply IH; [done |]. apply Z.mod_pos_bound. lia.
Qed.

Lemma redraw_enough n first second draws :
  (n <= 1)%Z \/ (exists d, d ∈ second :: ((fun d => d mod n)%Z <$> draws) /\ d <> first) ->
  is_Some (redraw n first second draws).
Proof.
  revert second. induction draws as [| d draws IH]; intros second Hd; cbn [redraw];
    destruct (Z.ltb_spec 1 n), (Z.eqb_spec second first); cbn; eauto.
  - destruct Hd as [? | (d & Hd%list_elem_of_singleton & ?)]; [lia | congruence].
  - apply IH. right. destruct Hd as [? | (d' & [-> | Hd]%elem_of_cons & ?)]; [lia | congruence |].
    eauto.
Qed.

Lemma candidate_at_Some (ctx : PlacementContext) i :
  (0 <= i < Z.of_nat (length ctx))%Z -> is_Some (candidate_at ctx i).
Proof. intros Hi. apply lookup_lt_is_Some. lia. Qed.

Lemma account_count now target m e :
  in_flight_count (account now target m) e =
  if bool_decide (e = target) then ((in_flight_count m target + 1) mod (U64_MAX + 1))%Z
  else in_flight_count m e.
Proof.
  unfold account, in_flight_count. case_bool_decide as He.
  - subst e. destruct (m !! target) as [[c t] |]; by rewrite lookup_insert_eq.
  - destruct (m !! target) as [[c t] |]; by rewrite lookup_insert_ne.
Qed.

Lemma retain_fresh_lookup now m e :
  retain_fresh now m !! e =
  match m !! e with
  | Some (c, t) => if bool_decide (now - t < IN_FLIGHT_TTL)%Z then Some (c, t) else None
  | None => None
  end.
Proof.
  unfold retain_fresh. rewrite map_lookup_filter. destruct (m !! e) as [[c t] |]; cbn; [| done].
  unfold IN_FLIGHT_TTL. repeat case_guard; case_bool_decide; cbn in *; try done; lia.
Qed.

Lemma sort_picked_two less i j :
  less i i = false -> (forall x y, less x y = true -> less y x = false) ->
  exists x y, sort_picked less [i; j] = [x; y] /\ less y x = false /\ (x = i /\ y = j \/ x = j /\ y = i).
Proof.
  intros Hirr Hasym. cbn. destruct (less j i) eqn:Hl; [exists j, i | exists i, j]; eauto 10.
Qed.

Lemma SFcompare_antisym x y : SFcompare y x = option_map CompOpp (SFcompare x y).
Proof.
  assert (Hpos : forall p q, Pos.compare_cont Eq q p = CompOpp (Pos.compare_cont Eq p q)).
  { intros p q. exact (Pos.compare_antisym p q). }
  destruct x as [sx | sx | | sx mx ex], y as [sy | sy | | sy my ey]; cbn; try done;
    try (by destruct sx, sy); try (by destruct sx); try (by destruct sy).
  rewrite (Z.compare_antisym ex ey), (Hpos mx my).
  destruct sx, sy, (ex ?= ey)%Z; cbn; try done; by destruct (Pos.compare_cont Eq mx my).
Qed.

Lemma f64_cmp_antisym x y : f64_cmp y x = CompOpp (f64_cmp x y).
Proof. unfold f64_cmp. rewrite SFcompare_antisym. by destruct (SFcompare x y). Qed.

Lemma ratio_less_asym m ctx i j : ratio_less m ctx i j = true -> ratio_less m ctx j i = false.
Proof.
  unfold ratio_less. rewrite (f64_cmp_antisym (ratio_at m ctx i)). by destruct (f64_cmp _ _).
Qed.

Lemma ratio_less_irrefl m ctx i : ratio_less m ctx i i = false.
Proof. destruct (ratio_less m ctx i i) eqn:Hl; [| done]. by rewrite (ratio_less_asym _ _ _ _ Hl) in Hl. Qed.

(** The candidates a pick returns, in order. *)
Definition picked_ok (ctx : PlacementContext) (m : InFlight) (ps : list PlacementCandidate) : Prop :=
  match ps with
  | [c] => ctx = [c]
  | [c1; c2] =>
      (exists i j, i <> j /\ ctx !! i = Some c1 /\ ctx !! j = Some c2) /\
      f64_cmp (predicted_ratio m c2) (predicted_ratio m c1) <> Lt
  | _ => False
  end.

Lemma picked_two ctx m i j :
  (0 <= i < Z.of_nat (length ctx))%Z -> (0 <= j < Z.of_nat (length ctx))%Z -> i <> j ->
  exists c1 c2, picked_ok ctx m [c1; c2] /\
    omap (fun i => endpoint <$> candidate_at ctx i) (sort_picked (ratio_less m ctx) [i; j])
    = [endpoint c1; endpoint c2].
Proof.
  intros Hi Hj Hne.
  destruct (sort_picked_two (ratio_less m ctx) i j) as (x & y & Hs & Hless & Hxy);
    [apply ratio_less_irrefl | apply ratio_less_asym |].
  destruct (candidate_at_Some ctx x) as [c1 Hc1]; [naive_solver |].
  destruct (candidate_at_Some ctx y) as [c2 Hc2]; [naive_solver |].
  exists c1, c2. rewrite Hs. cbn. rewrite Hc1. cbn. rewrite Hc2. cbn. split; [split | done].
  - exists (Z.to_nat x), (Z.to_nat y). split; [| done].
    intros Heq%Z2Nat.inj; [naive_solver | naive_solver lia..].
  - unfold ratio_less, ratio_at in Hless. rewrite Hc1, Hc2 in Hless. by destruct (f64_cmp _ _).
Qed.

(** ** Properties *)

(** A pick among no candidates is empty and changes nothing; among one it is
    that one; otherwise it is two different candidates, the first of which does
    not have the higher predicted load ratio (actors plus placements in flight,
    over capacity, in binary64).  Accounts that have not been touched for the
    window are dropped, and the first choice's account grows by one. *)
Theorem pick_power_of_two (ctx : PlacementContext) (now : Z) (draws : list Z) (m : InFlight)
    (endpoints : list string) (draws' : list Z) (m' : InFlight)
    (H : pick ctx now draws m = Some (endpoints, draws', m')) :
  (ctx = [] /\ endpoints = [] /\ m' = m) \/
  exists c ps, picked_ok ctx (retain_fresh now m) (c :: ps) /\ endpoints = endpoint <$> c :: ps /\
    forall e, in_flight_count m' e =
      if bool_decide (e = endpoint c)
      then ((in_flight_count (retain_fresh now m) e + 1) mod (U64_MAX + 1))%Z
      else in_flight_count (retain_fresh now m) e.
Proof.
  unfold pick in H. case_bool_decide as Hctx; [left; naive_solver |]. right.
  destruct draws as [| d1 [| d2 draws]]; [done | done |].
  assert (Hn : (0 < Z.of_nat (length ctx))%Z) by (destruct ctx; cbn; [done | lia]).
  set (n := Z.of_nat (length ctx)) in *. set (m1 := retain_fresh now m) in *.
  destruct (redraw n _ _ draws) as [[second ds] |] eqn:Hr; [| done].
  pose proof (Z.mod_pos_bound d1 n Hn) as Hd1. set (first := (d1 mod n)%Z) in *.
  apply redraw_Some in Hr as [Hsec Hdiff]; [| by apply Z.mod_pos_bound].
  destruct (Z.eqb_spec second first) as [Heq | Hne].
  - assert (Hone : length ctx = 1%nat) by lia.
    destruct ctx as [| c [| ? ?]]; [done | | done]. assert (first = 0%Z) as Hf by (subst n; cbn in *; lia).
    cbn in H. rewrite Hf in H. cbn in H. injection H as <- <- <-.
    exists c, []. split; [done |]. split; [done |]. intros e. rewrite account_count.
    case_bool_decide; [by subst | done].
  - destruct (picked_two ctx m1 first second Hd1 Hsec) as (c1 & c2 & Hok & Heps); [congruence |].
    rewrite Heps in H. injection H as <- <- <-.
    exists c1, [c2]. split; [done |]. split; [done |]. intros e. rewrite account_count.
    case_bool_decide; [by subst | done].
Qed.

Lemma pick_power_of_two_witness :
  let ctx := [MkCandidate "a:1" 5 10; MkCandidate "b:1" 1 10; MkCandidate "c:1" 9 10] in
  exists c ps, picked_ok ctx ∅ (c :: ps) /\ ["b:1"; "c:1"] = endpoint <$> c :: ps.
Proof.
  destruct (pick_power_of_two
    [MkCandidate "a:1" 5 10; MkCandidate "b:1" 1 10; MkCandidate "c:1" 9 10] 0 [2; 5; 4]%Z ∅
    ["b:1"; "c:1"] [] {["b:1" := (1, 0)%Z]}) as [(Hctx & _) | (c & ps & Hok & Heps & _)].
  - vm_compute. reflexivity.
  - discriminate Hctx.
  - exists c, ps. split; [exact Hok | exact Heps].
Defined.

(** The redraw loop ends as soon as the random source yields another index:
    the pick returns whenever one of the draws after the first differs from it
    modulo the number of candidates (one candidate, or none, needs no other). *)
Theorem pick_ends (ctx : PlacementContext) (now d1 d2 : Z) (draws : list Z) (m : InFlight)
    (H : length ctx <= 1 \/
         exists d, d ∈ d2 :: draws /\ (d mod Z.of_nat (length ctx) <> d1 mod Z.of_nat (length ctx))%Z) :
  is_Some (pick ctx now (d1 :: d2 :: draws) m).
Proof.
  unfold pick. case_bool_decide; [done |].
  edestruct (redraw_enough (Z.of_nat (length ctx)) (d1 mod Z.of_nat (length ctx))%Z) as [[second ds] Hr];
    [| rewrite Hr; eauto].
  destruct H as [Hlen | (d & Hd & Hne)]; [left; lia |]. right.
  exists (d mod Z.of_nat (length ctx))%Z. split; [| done].
  apply elem_of_cons in Hd as [-> | Hd]; [left | right; apply list_elem_of_fmap; eauto].
Qed.

Lemma pick_ends_witness :
  is_Some (pick [MkCandidate "a:1" 5 10; MkCandidate "b:1" 1 10] 0 [4; 2; 6; 7]%Z ∅).
Proof. apply pick_ends. right. exists 7%Z. split; [set_solver | vm_compute; discriminate]. Defined.

(** The accounting of placements in flight: reporting the first choice of a
    pick as failed takes back what the pick counted and touches nothing else, and
    once the window has passed since the last pick nothing is counted. *)
Theorem in_flight_accounting (now : Z) (target : string) (m : InFlight)
    (H : (0 <= in_flight_count m target < U64_MAX)%Z) :
  (forall e, in_flight_count (on_placement_failed target (account now target m)) e = in_flight_count m e) /\
  (forall later e, (forall c t, m !! e = Some (c, t) -> t <= now)%Z -> (now + IN_FLIGHT_TTL <= later)%Z ->
     in_flight_count (retain_fresh later (account now target m)) e = 0%Z).
Proof.
  split.
  - intros e. pose proof (account_count now target m target) as Hcount.
    rewrite bool_decide_eq_true_2, Z.mod_small in Hcount by (done || lia).
    destruct (decide (e = target)) as [-> | Hne].
    + unfold on_placement_failed. unfold in_flight_count at 1. rewrite lookup_alter_eq.
      unfold in_flight_count in Hcount at 1.
      destruct (account now target m !! target) as [[c t] |] eqn:Ha; cbn; [unfold saturating_sub; lia |].
      lia.
    + pose proof (account_count now target m e) as He. rewrite bool_decide_eq_false_2 in He by done.
      rewrite <- He. unfold on_placement_failed, in_flight_count. by rewrite lookup_alter_ne.
  - intros later e Hold Hlate. unfold in_flight_count. rewrite retain_fresh_lookup.
    assert (Hacc : forall c t, account now target m !! e = Some (c, t) -> (t <= now)%Z).
    { intros c t. unfold account. destruct (m !! target) as [[c0 t0] |];
        (destruct (decide (e = target)) as [-> | Hne]; [rewrite lookup_insert_eq; naive_solver lia |
         rewrite lookup_insert_ne by done; apply Hold]). }
    destruct (account now target m !! e) as [[c t] |] eqn:Ha; [| done].
    rewrite bool_decide_eq_false_2; [done |]. specialize (Hacc c t eq_refl). lia.
Qed.

Lemma in_flight_accounting_witness :
  in_flight_count (on_placement_failed "a:1" (account 7 "a:1" ∅)) "a:1" = 0%Z.
Proof.
  assert (H : (0 <= in_flight_count ∅ "a:1" < U64_MAX)%Z) by (vm_compute; split; [discriminate | reflexivity]).
  etransitivity; [exact (proj1 (in_flight_accounting 7 "a:1" ∅ H) "a:1") | vm_compute; reflexivity].
Defined.
