(* ===== verification/Transport.v ===== *)
(** * Envelopes and the transport seam

    Models the messages of [coactor/proto/transport.proto], the session ids of
    [coactor/src/runtime/session.rs], the envelopes the two sides build
    ([coactor/src/client/mod.rs], [coactor/src/runtime/core.rs],
    [coactor/src/runtime/session.rs]) and the transport interface of
    [coactor/src/transport/mod.rs]. *)

From S2P Require Import Prelude Text Address.

Definition TRANSPORT_PROTOCOL_VERSION : Z := 2.

(** [SessionId]: the sixteen bytes of a UUID. *)
Record SessionId := MkSessionId { uuid : string }.

Definition session_id_as_bytes (id : SessionId) : string := uuid id.

Definition session_id_from_bytes (bytes : string) : option SessionId :=
  if (String.length bytes =? 16)%nat then Some (MkSessionId bytes) else None.

(** The ids [SessionId::new] and [from_bytes] build. *)
Definition session_id_wf (id : SessionId) : Prop := String.length (uuid id) = 16%nat.

#[export] Instance SessionId_eq_dec : EqDecision SessionId.
Proof. solve_decision. Defined.
#[export] Program Instance SessionId_countable : Countable SessionId :=
  inj_countable' uuid MkSessionId _.
Next Obligation. by intros []. Qed.

(** ** Envelopes *)
Inductive ack_outcome :=
| AckOk (bytes : string)
| AckFailure (failure : Z).

Inductive Kind :=
| KAction (payload : string)
| KSessionOpen
| KSessionClose (reason : Z)
| KEvent (payload : string)
| KSessionError (failure : Z)
| KSessionOpenedAck (outcome : option ack_outcome).

Record Envelope := MkEnvelope {
  protocol_version : Z;
  env_actor_type : string;
  env_actor_id : string;
  env_session_id : string;
  env_kind : option Kind
}.

#[export] Instance ack_outcome_eq_dec : EqDecision ack_outcome.
Proof. solve_decision. Defined.
#[export] Instance Kind_eq_dec : EqDecision Kind.
Proof. solve_decision. Defined.
#[export] Instance Envelope_eq_dec : EqDecision Envelope.
Proof. solve_decision. Defined.

Definition CALLER_DROPPED : Z := 1.

(** The Client's envelopes carry the version and the address. *)
Definition client_envelope (address : ActorAddress) (session_id : SessionId) (kind : Kind) : Envelope :=
  MkEnvelope TRANSPORT_PROTOCOL_VERSION (actor_type address) (actor_id address)
    (session_id_as_bytes session_id) (Some kind).

(** [envelope_session_open], [envelope_action], [envelope_session_close] *)
Definition envelope_session_open (address : ActorAddress) (session_id : SessionId) : Envelope :=
  client_envelope address session_id KSessionOpen.
Definition envelope_action (address : ActorAddress) (session_id : SessionId) (payload : string) : Envelope :=
  client_envelope address session_id (KAction payload).
Definition envelope_session_close (address : ActorAddress) (session_id : SessionId) : Envelope :=
  client_envelope address session_id (KSessionClose CALLER_DROPPED).

(** The Server's replies name only the session. *)
Definition server_envelope (session_id : string) (kind : Kind) : Envelope :=
  MkEnvelope 0 "" "" session_id (Some kind).

Definition envelope_event (session_id : SessionId) (payload : string) : Envelope :=
  server_envelope (session_id_as_bytes session_id) (KEvent payload).
Definition envelope_session_error (session_id : string) (error : SendError) : Envelope :=
  server_envelope session_id (KSessionError (to_wire error)).
Definition envelope_opened_ack (session_id : string) (outcome : result SendError unit) : Envelope :=
  server_envelope session_id
    (KSessionOpenedAck (Some match outcome with
                             | Ok _ => AckOk ""
                             | Err error => AckFailure (to_wire error)
                             end)).

(** An acknowledgement that a Session is open. *)
Definition positive_ack (e : Envelope) : bool :=
  match env_kind e with
  | Some (KSessionOpenedAck (Some (AckOk _))) => true
  | _ => false
  end.

(** [actor_address_from_envelope] *)
Definition actor_address_from_envelope (actor_type actor_id : string) : option ActorAddress :=
  match from_utf8 actor_id with
  | None => None
  | Some actor_id =>
      match actor_address_new actor_type actor_id with
      | Ok address => Some address
      | Err _ => None
      end
  end.

(** What [dispatch_inbound] reads of an envelope before it looks at its kind. *)
Record inbound := MkInbound {
  in_address : ActorAddress;
  in_session : SessionId;
  in_version : Z;
  in_kind : Kind
}.

Definition parse_inbound (envelope : Envelope) : option inbound :=
  match env_kind envelope with
  | None => None
  | Some kind =>
      match session_id_from_bytes (env_session_id envelope) with
      | None => None
      | Some session_id =>
          match actor_address_from_envelope (env_actor_type envelope) (env_actor_id envelope) with
          | None => None
          | Some address => Some (MkInbound address session_id (protocol_version envelope) kind)
          end
      end
  end.

(** ** The transport interface

    [TransportError], and [TransportSender] with what its clients rely on: a
    sender that was closed refuses, and stays closed. *)
Inductive TransportError :=
| ConnectFailed
| BindFailed
| Closed
| Full.

#[export] Instance TransportError_eq_dec : EqDecision TransportError.
Proof. solve_decision. Defined.

Class TransportSender (W S : Type) := {
  try_send : W -> S -> Envelope -> result TransportError unit * W;
  close : W -> S -> W;
  is_closed : W -> S -> bool;
  close_closes w s : is_closed (close w s) s = true;
  close_monotone w s s' : is_closed w s' = true -> is_closed (close w s) s' = true;
  try_send_closed w s e : is_closed w s = true -> (try_send w s e).1 = Err Closed;
  try_send_keeps_closed w s e s' : is_closed w s' = true -> is_closed (try_send w s e).2 s' = true
}.

(** A bounded [mpsc] channel; [dropped] when its receiver is gone. *)
Record channel (A : Type) := MkChannel {
  items : list A;
  dropped : bool
}.
Arguments MkChannel {A} items dropped.
Arguments items {A} c.
Arguments dropped {A} c.

(** [mpsc::Sender::try_send] *)
Definition channel_push {A} (capacity : nat) (x : A) (c : channel A) : result TransportError (channel A) :=
  if dropped c then Err Closed
  else if (length (items c) <? capacity)%nat then Ok (MkChannel (items c ++ [x]) false) else Err Full.

(** ** Lemmas *)
Lemma session_id_round_trip id :
  session_id_wf id -> session_id_from_bytes (session_id_as_bytes id) = Some id.
Proof.
  unfold session_id_wf, session_id_from_bytes, session_id_as_bytes. intros ->. by destruct id.
Qed.

Lemma session_id_from_bytes_Some bytes id :
  session_id_from_bytes bytes = Some id <-> uuid id = bytes /\ session_id_wf id.
Proof.
  unfold session_id_from_bytes, session_id_wf. destruct (Nat.eqb_spec (String.length bytes) 16) as [He | He].
  - split; [by intros [= <-] | intros [<- _]; by destruct id].
  - split; [done | intros [<- ?]; done].
Qed.

Lemma is_dns_label_utf8 v : is_dns_label v = true -> from_utf8 v = Some v.
Proof.
  intros Hl. unfold from_utf8. rewrite utf8_valid_ascii; [done |].
  apply Forall_forall. intros b (c & -> & Hc)%list_elem_of_fmap.
  apply list_elem_of_In, (is_dns_label_bytes _ _ Hl) in Hc.
  unfold is_ascii_lowercase, is_ascii_digit in Hc.
  destruct Hc as [Hc | [Hc | ->]]; [| | done];
    apply andb_true_iff in Hc as [_ Hc%N.leb_le]; lia.
Qed.

Lemma actor_address_from_envelope_Some t i a :
  actor_address_from_envelope t i = Some a <-> a = MkActorAddress t i /\ address_wf a.
Proof.
  unfold actor_address_from_envelope. split.
  - unfold from_utf8. destruct (utf8_valid _); [| done].
    destruct (actor_address_new t i) eqn:Ha; [| done]. intros [= <-]. by apply actor_address_new_ok.
  - intros [-> [Ht Hi]]. rewrite (is_dns_label_utf8 i Hi).
    rewrite (proj2 (actor_address_new_ok t i _) (conj eq_refl (conj Ht Hi))). done.
Qed.

(** ** Properties *)

(** What a Client puts in an envelope is what the Server reads from it:
    the address, the session and the kind arrive unchanged, with the version the
    Server checks; and the Server acts on nothing else: an envelope without a
    kind, with a session id that is not sixteen bytes, or with an address that is
    not two labels is dropped. *)
Theorem envelope_roundtrip (address : ActorAddress) (session_id : SessionId) (kind : Kind)
    (Ha : address_wf address) (Hs : session_id_wf session_id) :
  parse_inbound (client_envelope address session_id kind) =
    Some (MkInbound address session_id TRANSPORT_PROTOCOL_VERSION kind) /\
  forall e i, parse_inbound e = Some i ->
    address_wf (in_address i) /\ session_id_wf (in_session i) /\
    env_actor_type e = actor_type (in_address i) /\ env_actor_id e = actor_id (in_address i) /\
    env_session_id e = session_id_as_bytes (in_session i) /\ env_kind e = Some (in_kind i) /\
    protocol_version e = in_version i.
Proof.
  split.
  - unfold parse_inbound, client_envelope. cbn [env_kind env_session_id env_actor_type env_actor_id].
    rewrite session_id_round_trip by done.
    rewrite (proj2 (actor_address_from_envelope_Some (actor_type address) (actor_id address) address)); [done |].
    by destruct address.
  - intros [v t a s [k |]] i; unfold parse_inbound; cbn; [| done].
    destruct (session_id_from_bytes s) as [sid |] eqn:Hsid; [| done].
    destruct (actor_address_from_envelope t a) as [addr |] eqn:Haddr; [| done]. intros [= <-]; cbn.
    apply session_id_from_bytes_Some in Hsid as [<- Hwf].
    apply actor_address_from_envelope_Some in Haddr as [-> Hawf]. done.
Qed.

Lemma envelope_roundtrip_witness :
  parse_inbound (envelope_action (MkActorAddress "room" "lobby-1") (MkSessionId "0123456789abcdef") "hi") =
    Some (MkInbound (MkActorAddress "room" "lobby-1") (MkSessionId "0123456789abcdef") 2 (KAction "hi")).
Proof.
  apply (envelope_roundtrip (MkActorAddress "room" "lobby-1") (MkSessionId "0123456789abcdef") (KAction "hi")).
  - split; reflexivity.
  - reflexivity.
Defined.
