(* ===== verification/Session.v ===== *)
(** * Session registries

    Models the state of [coactor/src/runtime/session.rs] ([SessionRegistry]: which
    transport sender a live Session of an Actor is bound to) and of
    [coactor/src/client/session.rs] ([CallerRegistry]: the receiving end of each
    Session a Client opened).  Each function is one critical section of the
    registry's lock; the operations that also send are in [Runtime] and [Client].
    The theorems give the registry as a map from (Actor, Session) to senders. *)

From S2P Require Import Prelude Text Address Transport.

(** An [Arc<dyn TransportSender>], by its identity ([Arc::ptr_eq]). *)
Abbreviation SenderId := N (only parsing).

(** ** [SessionRegistry] *)
Module Registry.

Abbreviation SessionRegistry := (gmap ActorAddress (gmap SessionId SenderId)).

Definition sessions_of (r : SessionRegistry) (a : ActorAddress) : gmap SessionId SenderId :=
  default ∅ (r !! a).

(** [register_actor] *)
Definition register_actor (r : SessionRegistry) (a : ActorAddress) (sid : SessionId) (sink : SenderId)
    : bool * SessionRegistry :=
  let sessions := sessions_of r a in
  match sessions !! sid with
  | None => (true, <[a := <[sid := sink]> sessions]> r)
  | Some _ => (false, <[a := sessions]> r)
  end.

(** [unregister_actor] *)
Definition unregister_actor (r : SessionRegistry) (a : ActorAddress) (sid : SessionId)
    : bool * SessionRegistry :=
  match r !! a with
  | None => (false, r)
  | Some sessions =>
      match sessions !! sid with
      | None => (false, r)
      | Some _ =>
          let sessions := delete sid sessions in
          (true, if bool_decide (sessions = ∅) then delete a r else <[a := sessions]> r)
      end
  end.

(** [session_count], [by_actor_snapshot], [by_actor_addresses] *)
Definition session_count (r : SessionRegistry) (a : ActorAddress) : nat := size (sessions_of r a).

Definition by_actor_snapshot (r : SessionRegistry) (a : ActorAddress) : list SessionId :=
  (map_to_list (sessions_of r a)).*1.

Definition by_actor_addresses (r : SessionRegistry) : list ActorAddress := (map_to_list r).*1.

(** [by_sender_snapshot] *)
Definition by_sender_snapshot (r : SessionRegistry) (sender : SenderId) : list (ActorAddress * SessionId) :=
  map_to_list r ≫= fun '(a, sessions) =>
    omap (fun '(sid, candidate) => if bool_decide (candidate = sender) then Some (a, sid) else None)
      (map_to_list sessions).

(** [sink], [is_bound_to] *)
Definition sink (r : SessionRegistry) (a : ActorAddress) (sid : SessionId) : option SenderId :=
  r !! a ≫= (.!! sid).

Definition is_bound_to (r : SessionRegistry) (a : ActorAddress) (sid : SessionId) (sender : SenderId) : bool :=
  bool_decide (sink r a sid = Some sender).

(** No Actor is listed without a Session. *)
Definition wf (r : SessionRegistry) : Prop := forall a, r !! a <> Some ∅.

End Registry.

(** ** [CallerRegistry]: a Session's receiver, by the identity of its channel. *)
Module Caller.

Abbreviation CallerRegistry := (gmap SessionId N).

Definition register_local (r : CallerRegistry) (sid : SessionId) (channel : N) : CallerRegistry :=
  <[sid := channel]> r.
Definition unregister_local (r : CallerRegistry) (sid : SessionId) : CallerRegistry := delete sid r.
Definition receiver (r : CallerRegistry) (sid : SessionId) : option N := r !! sid.

(** [terminate]: the removed receiver is sent the error. *)
Definition terminate (r : CallerRegistry) (sid : SessionId) : option N * CallerRegistry :=
  (r !! sid, delete sid r).

(** The two critical sections of [terminate_all]. *)
Definition values (r : CallerRegistry) : list N := (map_to_list r).*2.
Definition clear (r : CallerRegistry) : CallerRegistry := ∅.

End Caller.

(** ** Lemmas *)
Section registry.
Import Registry.
Implicit Types (r : SessionRegistry) (a b : ActorAddress) (sid tid : SessionId) (c : SenderId).

Lemma sink_sessions_of r a sid : sink r a sid = sessions_of r a !! sid.
Proof. unfold sink, sessions_of. by destruct (r !! a). Qed.

Lemma sessions_of_insert r a b m : sessions_of (<[a := m]> r) b = if decide (a = b) then m else sessions_of r b.
Proof.
  unfold sessions_of. destruct (decide (a = b)) as [-> | Hne]; [by rewrite lookup_insert_eq |].
  by rewrite lookup_insert_ne.
Qed.

Lemma sessions_of_delete r a b : sessions_of (delete a r) b = if decide (a = b) then ∅ else sessions_of r b.
Proof.
  unfold sessions_of. destruct (decide (a = b)) as [-> | Hne]; [by rewrite lookup_delete_eq |].
  by rewrite lookup_delete_ne.
Qed.

Lemma register_sink r a sid c b tid :
  let '(ok, r') := register_actor r a sid c in
  ok = bool_decide (sink r a sid = None) /\
  sink r' b tid = if decide (ok = true /\ a = b /\ sid = tid) then Some c else sink r b tid.
Proof.
  unfold register_actor. rewrite !sink_sessions_of.
  destruct (sessions_of r a !! sid) as [c0 |] eqn:Hs; (split; [done |]); rewrite !sink_sessions_of, sessions_of_insert.
  - destruct (decide (false = true /\ _)) as [[? _] | _]; [done |]. by destruct (decide (a = b)) as [-> |].
  - destruct (decide (a = b)) as [-> | Hne].
    + destruct (decide (sid = tid)) as [-> | Hne]; [rewrite lookup_insert_eq, decide_True by done; done |].
      rewrite lookup_insert_ne, decide_False by naive_solver. done.
    + rewrite decide_False by naive_solver. done.
Qed.

Lemma unregister_sink r a sid b tid :
  let '(ok, r') := unregister_actor r a sid in
  ok = bool_decide (is_Some (sink r a sid)) /\
  sink r' b tid = if decide (a = b /\ sid = tid) then None else sink r b tid.
Proof.
  unfold unregister_actor. destruct (r !! a) as [m |] eqn:Ha.
  - destruct (m !! sid) as [c |] eqn:Hs.
    + assert (Hsink : sink r a sid = Some c) by (unfold sink; rewrite Ha; done).
      split; [rewrite Hsink; symmetry; by apply bool_decide_eq_true_2 |].
      assert (Hr' : sessions_of (if bool_decide (delete sid m = ∅) then delete a r else <[a := delete sid m]> r) b
                    = if decide (a = b) then delete sid m else sessions_of r b).
      { case_bool_decide as He; [rewrite sessions_of_delete, He | rewrite sessions_of_insert]; done. }
      rewrite !sink_sessions_of, Hr'. destruct (decide (a = b)) as [<- | Hne]; [| by rewrite decide_False by naive_solver].
      assert (sessions_of r a = m) as -> by (unfold sessions_of; by rewrite Ha).
      destruct (decide (sid = tid)) as [<- | Hne];
        [rewrite lookup_delete_eq, decide_True by done; done | rewrite lookup_delete_ne, decide_False by naive_solver; done].
    + assert (Hsink : sink r a sid = None) by (unfold sink; rewrite Ha; done).
      split; [rewrite Hsink; symmetry; apply bool_decide_eq_false_2; by intros [] |].
      destruct (decide (a = b /\ sid = tid)) as [[<- <-] |]; done.
  - assert (Hsink : sink r a sid = None) by (unfold sink; rewrite Ha; done).
    split; [rewrite Hsink; symmetry; apply bool_decide_eq_false_2; by intros [] |].
    destruct (decide (a = b /\ sid = tid)) as [[<- <-] |]; done.
Qed.

Lemma register_wf r a sid c : wf r -> wf (register_actor r a sid c).2.
Proof.
  intros Hwf b. unfold register_actor. destruct (sessions_of r a !! sid) as [c0 |] eqn:Hs; cbn.
  - destruct (decide (a = b)) as [<- | Hne]; [| by rewrite lookup_insert_ne by done; apply Hwf].
    rewrite lookup_insert_eq. intros [= He]. rewrite He, lookup_empty in Hs. done.
  - destruct (decide (a = b)) as [<- | Hne]; [| by rewrite lookup_insert_ne by done; apply Hwf].
    rewrite lookup_insert_eq. intros [= He%insert_non_empty]. done.
Qed.

Lemma unregister_wf r a sid : wf r -> wf (unregister_actor r a sid).2.
Proof.
  intros Hwf b. unfold unregister_actor. destruct (r !! a) as [m |] eqn:Ha; [| apply Hwf].
  destruct (m !! sid); [| apply Hwf]. cbn. case_bool_decide as He;
    (destruct (decide (a = b)) as [<- | Hne]; [rewrite ?lookup_delete_eq, ?lookup_insert_eq; naive_solver |
     rewrite ?lookup_delete_ne, ?lookup_insert_ne by done; apply Hwf]).
Qed.

Lemma by_actor_snapshot_elem r a sid : sid ∈ by_actor_snapshot r a <-> is_Some (sink r a sid).
Proof.
  unfold by_actor_snapshot. rewrite sink_sessions_of, list_elem_of_fmap. split.
  - intros ([s c] & -> & He%elem_of_map_to_list). eauto.
  - intros [c Hc]. exists (sid, c). split; [done |]. by apply elem_of_map_to_list.
Qed.

Lemma by_actor_addresses_elem r a : wf r -> a ∈ by_actor_addresses r <-> exists sid, is_Some (sink r a sid).
Proof.
  intros Hwf. unfold by_actor_addresses, sink. rewrite list_elem_of_fmap. split.
  - intros ([b m] & -> & He%elem_of_map_to_list). cbn. rewrite He. cbn.
    destruct (map_choose m) as (sid & c & Hc); [intros ->; by apply (Hwf b) | eauto].
  - intros (sid & c & Hc). destruct (r !! a) as [m |] eqn:Ha; [| done].
    exists (a, m). split; [done |]. by apply elem_of_map_to_list.
Qed.

Lemma by_sender_snapshot_elem r c a sid : (a, sid) ∈ by_sender_snapshot r c <-> sink r a sid = Some c.
Proof.
  unfold by_sender_snapshot, sink. rewrite list_elem_of_bind. split.
  - intros ([b m] & He & Hb%elem_of_map_to_list). apply list_elem_of_omap in He as ([s c'] & Hs & Hc).
    apply elem_of_map_to_list in Hs. case_bool_decide; [| done]. simplify_eq. by rewrite Hb.
  - destruct (r !! a) as [m |] eqn:Ha; [| done]. cbn. intros Hc. exists (a, m).
    split; [| by apply elem_of_map_to_list]. apply list_elem_of_omap. exists (sid, c).
    split; [by apply elem_of_map_to_list |]. by rewrite bool_decide_eq_true_2.
Qed.

Lemma session_count_zero r a : session_count r a = 0 <-> forall sid, sink r a sid = None.
Proof.
  unfold session_count. rewrite map_size_empty_iff. split.
  - intros He sid. by rewrite sink_sessions_of, He.
  - intros Hn. apply map_empty. intros sid. by rewrite <- sink_sessions_of.
Qed.
End registry.

(** ** Properties *)

(** The registry is a map from (Actor, Session) to the bound sender: a
    registration succeeds exactly for an absent pair and binds it (a duplicate
    leaves the original binding alone), an unregistration removes exactly its
    pair, both leave every other pair alone and keep no empty entry, and the
    queries (bound sender, sessions of an Actor and of a sender, the Actors, the
    count that lets an Actor passivate) answer from that map. *)
Theorem session_registry_is_map (r : Registry.SessionRegistry) (Hwf : Registry.wf r) :
  (forall a sid c, let '(ok, r') := Registry.register_actor r a sid c in
     ok = bool_decide (Registry.sink r a sid = None) /\ Registry.wf r' /\
     forall b tid, Registry.sink r' b tid =
       if decide (ok = true /\ a = b /\ sid = tid) then Some c else Registry.sink r b tid) /\
  (forall a sid, let '(ok, r') := Registry.unregister_actor r a sid in
     ok = bool_decide (is_Some (Registry.sink r a sid)) /\ Registry.wf r' /\
     forall b tid, Registry.sink r' b tid =
       if decide (a = b /\ sid = tid) then None else Registry.sink r b tid) /\
  (forall a sid c, Registry.is_bound_to r a sid c = true <-> Registry.sink r a sid = Some c) /\
  (forall a sid, sid ∈ Registry.by_actor_snapshot r a <-> is_Some (Registry.sink r a sid)) /\
  (forall c a sid, (a, sid) ∈ Registry.by_sender_snapshot r c <-> Registry.sink r a sid = Some c) /\
  (forall a, a ∈ Registry.by_actor_addresses r <-> exists sid, is_Some (Registry.sink r a sid)) /\
  (forall a, Registry.session_count r a = 0 <-> forall sid, Registry.sink r a sid = None).
Proof.
  split_and!.
  - intros a sid c. pose proof (register_wf r a sid c Hwf) as Hw.
    pose proof (fun b tid => register_sink r a sid c b tid) as Hs.
    destruct (Registry.register_actor r a sid c) as [ok r']. split; [apply (Hs a sid) |].
    split; [done |]. intros b tid. apply Hs.
  - intros a sid. pose proof (unregister_wf r a sid Hwf) as Hw.
    pose proof (fun b tid => unregister_sink r a sid b tid) as Hs.
    destruct (Registry.unregister_actor r a sid) as [ok r']. split; [apply (Hs a sid) |].
    split; [done |]. intros b tid. apply Hs.
  - intros. apply bool_decide_eq_true.
  - apply by_actor_snapshot_elem.
  - intros. apply by_sender_snapshot_elem.
  - intros. by apply by_actor_addresses_elem.
  - apply session_count_zero.
Qed.

Lemma session_registry_is_map_witness :
  Registry.is_bound_to {[MkActorAddress "room" "lobby" := {[MkSessionId "0123456789abcdef" := 7%N]}]}
    (MkActorAddress "room" "lobby") (MkSessionId "0123456789abcdef") 7 = true.
Proof.
  assert (Hwf : Registry.wf {[MkActorAddress "room" "lobby" := {[MkSessionId "0123456789abcdef" := 7%N]}]}).
  { intros a Ha. apply lookup_singleton_Some in Ha as [_ Ha]. by apply map_non_empty_singleton in Ha. }
  destruct (session_registry_is_map _ Hwf) as (_ & _ & Hbound & _).
  apply Hbound. reflexivity.
Defined.
