(* ===== verification/Runtime.v ===== *)
(** * The Server runtime: state, critical sections and procedures

    Models [coactor/src/runtime/core.rs], [route.rs], [message.rs],
    [lifecycle.rs], [session.rs] (its sending half) and [shutdown.rs].  The
    shared state is [ServerState]; every critical section of a lock and every
    atomic access is a function on it; the procedures of the source are
    procedures over the effects [runtimeE], one effect per atomic access, so that
    an interleaving of procedures is an interleaving of critical sections.
    [RuntimeWorld] runs them concurrently. *)

From S2P Require Import Prelude Text Address Transport Session.
Import Registry.

(** ** Configuration: the immutable part of [ServerInner] *)
Record Registration := MkRegistration {
  mailbox_capacity : nat;
  idle_timeout : Z
}.

Record ServerConfig := MkServerConfig {
  registrations : gmap string Registration;
  max_active_actors : nat;
  clustered : bool;                       (* [cluster.is_some()] *)
  transport_protocol_version : Z
}.

(** ** Messages and tasks *)
Abbreviation OneshotId := nat (only parsing).
Abbreviation TaskId := nat (only parsing).
Abbreviation PermitId := nat (only parsing).

Inductive MailboxMessage :=
| Action (session_id : SessionId) (payload : string)
| SessionOpened (session_id : SessionId) (complete : OneshotId)
| SessionClosed (session_id : SessionId).

(** The sending half of a [oneshot] of [Result<(), SendError>], seen by its receiver. *)
Inductive OneshotState :=
| Waiting
| Sent (r : result SendError unit)
| SenderDropped.

Inductive RouteState := Active | Deactivating.

(** [Route]; it owns one capacity permit and the handles of its task. *)
Record Route := MkRoute {
  generation : Z;
  state : RouteState;
  task : TaskId
}.

(** An actor task ([Spawned] and the task's own ends of the channels). *)
Record Task := MkTask {
  task_address : ActorAddress;
  task_generation : Z;
  mailbox : list MailboxMessage;
  capacity : nat;
  receiver_closed : bool;     (* the receiver was closed or dropped *)
  shutdown_sent : bool;       (* the value of the shutdown watch *)
  shutdown_seen : bool;       (* [changed()] has returned it *)
  abort_requested : bool;
  completed : bool            (* the value of the completion watch *)
}.

Inductive Status := RUNNING | SHUTTING_DOWN | STOPPED | FENCED.

(** [ServerInner], with the tasks it spawned and the channels it created.
    [actors_cleared] remembers that [actors.clear()] was called. *)
Record ServerState := MkServer {
  actors : gmap ActorAddress Route;
  tasks : list Task;
  sessions : SessionRegistry;
  available : nat;
  reserved : gset PermitId;
  next_permit : PermitId;
  next_generation : Z;
  status : Status;
  oneshots : list OneshotState;
  outbox : list (SenderId * Envelope);
  actors_cleared : bool
}.

#[export] Instance MailboxMessage_eq_dec : EqDecision MailboxMessage.
Proof. solve_decision. Defined.
#[export] Instance RouteState_eq_dec : EqDecision RouteState.
Proof. solve_decision. Defined.
#[export] Instance Status_eq_dec : EqDecision Status.
Proof. solve_decision. Defined.

(** [ServerBuilderCore::build_with_authority]: the state a Server starts in. *)
Definition initial_state (config : ServerConfig) : ServerState :=
  MkServer ∅ [] ∅ (max_active_actors config) ∅ 0 1 RUNNING [] [] false.

(** ** Field updates *)
Definition with_actors (s : ServerState) x :=
  MkServer x (tasks s) (sessions s) (available s) (reserved s) (next_permit s) (next_generation s)
    (status s) (oneshots s) (outbox s) (actors_cleared s).
Definition with_tasks (s : ServerState) x :=
  MkServer (actors s) x (sessions s) (available s) (reserved s) (next_permit s) (next_generation s)
    (status s) (oneshots s) (outbox s) (actors_cleared s).
Definition with_sessions (s : ServerState) x :=
  MkServer (actors s) (tasks s) x (available s) (reserved s) (next_permit s) (next_generation s)
    (status s) (oneshots s) (outbox s) (actors_cleared s).
Definition with_available (s : ServerState) x :=
  MkServer (actors s) (tasks s) (sessions s) x (reserved s) (next_permit s) (next_generation s)
    (status s) (oneshots s) (outbox s) (actors_cleared s).
Definition with_reserved (s : ServerState) x n :=
  MkServer (actors s) (tasks s) (sessions s) (available s) x n (next_generation s)
    (status s) (oneshots s) (outbox s) (actors_cleared s).
Definition with_generation (s : ServerState) x :=
  MkServer (actors s) (tasks s) (sessions s) (available s) (reserved s) (next_permit s) x
    (status s) (oneshots s) (outbox s) (actors_cleared s).
Definition with_status (s : ServerState) x :=
  MkServer (actors s) (tasks s) (sessions s) (available s) (reserved s) (next_permit s) (next_generation s)
    x (oneshots s) (outbox s) (actors_cleared s).
Definition with_oneshots (s : ServerState) x :=
  MkServer (actors s) (tasks s) (sessions s) (available s) (reserved s) (next_permit s) (next_generation s)
    (status s) x (outbox s) (actors_cleared s).
Definition with_outbox (s : ServerState) x :=
  MkServer (actors s) (tasks s) (sessions s) (available s) (reserved s) (next_permit s) (next_generation s)
    (status s) (oneshots s) x (actors_cleared s).

Definition with_mailbox (t : Task) x :=
  MkTask (task_address t) (task_generation t) x (capacity t) (receiver_closed t) (shutdown_sent t)
    (shutdown_seen t) (abort_requested t) (completed t).
Definition with_receiver_closed (t : Task) :=
  MkTask (task_address t) (task_generation t) (mailbox t) (capacity t) true (shutdown_sent t)
    (shutdown_seen t) (abort_requested t) (completed t).
Definition with_shutdown_sent (t : Task) :=
  MkTask (task_address t) (task_generation t) (mailbox t) (capacity t) (receiver_closed t) true
    (shutdown_seen t) (abort_requested t) (completed t).
Definition with_shutdown_seen (t : Task) :=
  MkTask (task_address t) (task_generation t) (mailbox t) (capacity t) (receiver_closed t) (shutdown_sent t)
    true (abort_requested t) (completed t).
Definition with_abort_requested (t : Task) :=
  MkTask (task_address t) (task_generation t) (mailbox t) (capacity t) (receiver_closed t) (shutdown_sent t)
    (shutdown_seen t) true (completed t).
Definition with_completed (t : Task) :=
  MkTask (task_address t) (task_generation t) (mailbox t) (capacity t) (receiver_closed t) (shutdown_sent t)
    (shutdown_seen t) (abort_requested t) true.

Definition update_task (i : TaskId) (f : Task -> Task) (s : ServerState) : ServerState :=
  with_tasks s (alter f i (tasks s)).

(** ** Oneshots *)
Definition resolve_oneshot (o : OneshotId) (x : OneshotState) (s : ServerState) : ServerState :=
  match oneshots s !! o with
  | Some Waiting => with_oneshots s (<[o := x]> (oneshots s))
  | _ => s
  end.

(** [complete.send(r)] *)
Definition complete_oneshot (o : OneshotId) (r : result SendError unit) : ServerState -> ServerState :=
  resolve_oneshot o (Sent r).

(** Dropping a message drops the sending half it carries. *)
Definition drop_message (m : MailboxMessage) (s : ServerState) : ServerState :=
  match m with
  | SessionOpened _ o => resolve_oneshot o SenderDropped s
  | _ => s
  end.

Definition drop_messages (ms : list MailboxMessage) (s : ServerState) : ServerState :=
  foldr drop_message s ms.

(** [ServerInner::fail_message] *)
Definition fail_message (m : MailboxMessage) (error : SendError) (s : ServerState) : ServerState :=
  match m with
  | SessionOpened _ o => complete_oneshot o (Err error) s
  | _ => s
  end.

(** ** Mailboxes: [mpsc::Sender::try_send] *)
Inductive send_outcome := SendOk | SendFull | SendClosed.

Definition mailbox_try_send (i : TaskId) (m : MailboxMessage) (s : ServerState) : send_outcome * ServerState :=
  match tasks s !! i with
  | None => (SendClosed, s)
  | Some t =>
      if receiver_closed t then (SendClosed, s)
      else if (length (mailbox t) <? capacity t)%nat
           then (SendOk, update_task i (fun t => with_mailbox t (mailbox t ++ [m])) s)
           else (SendFull, s)
  end.

(** ** Permits *)

(** [capacity.try_acquire_owned()] *)
Definition try_acquire (s : ServerState) : option ServerState :=
  match available s with
  | O => None
  | S n => Some (with_available s n)
  end.

Definition release_permit (s : ServerState) : ServerState := with_available s (S (available s)).

(** Dropping a reservation that was not used. *)
Definition drop_reservation (reservation : option PermitId) (s : ServerState) : ServerState :=
  match reservation with
  | None => s
  | Some p => release_permit (with_reserved s (reserved s ∖ {[p]}) (next_permit s))
  end.

(** ** Routes *)

(** Removing an entry drops its permit. *)
Definition remove_entry (a : ActorAddress) (s : ServerState) : ServerState :=
  match actors s !! a with
  | None => s
  | Some _ => release_permit (with_actors s (delete a (actors s)))
  end.

(** [remove_route] *)
Definition remove_route (a : ActorAddress) (g : Z) (s : ServerState) : ServerState :=
  match actors s !! a with
  | Some route => if (generation route =? g)%Z then remove_entry a s else s
  | None => s
  end.

(** [begin_deactivation]; [sender] is the task's own sender. *)
Definition begin_deactivation (a : ActorAddress) (g : Z) (sender : TaskId) (s : ServerState)
    : bool * ServerState :=
  match actors s !! a with
  | None => (false, s)
  | Some route =>
      let queued := from_option (fun t => length (mailbox t)) 0 (tasks s !! sender) in
      if negb (generation route =? g)%Z || negb (queued =? 0)%nat then (false, s)
      else (true, with_actors s (<[a := MkRoute (generation route) Deactivating (task route)]> (actors s)))
  end.

(** [has_live_sessions] *)
Definition has_live_sessions (r : SessionRegistry) (a : ActorAddress) : bool :=
  (0 <? session_count r a)%nat.

(** [spawn_actor], up to the start of the task: its channels. [None]: the
    registration is missing, and the code panics. *)
Definition spawn_actor (config : ServerConfig) (a : ActorAddress) (g : Z) (s : ServerState)
    : option (TaskId * ServerState) :=
  match registrations config !! actor_type a with
  | None => None
  | Some r =>
      Some (length (tasks s),
            with_tasks s (tasks s ++ [MkTask a g [] (mailbox_capacity r) false false false false false]))
  end.

Definition wrapping_succ (g : Z) : Z := (g + 1) mod (U64_MAX + 1).

(** The part of [dispatch_message] that starts a new actor, under the lock. *)
Definition start_route (config : ServerConfig) (a : ActorAddress) (m : MailboxMessage)
    (reservation : option PermitId) (s : ServerState) : option (result SendError unit * ServerState) :=
  let permit := match reservation with
                | Some p => Some (with_reserved s (reserved s ∖ {[p]}) (next_permit s))
                | None => try_acquire s
                end in
  match permit with
  | None => Some (Err RuntimeAtCapacity, fail_message m RuntimeAtCapacity s)
  | Some s =>
      let g := next_generation s in
      let s := with_generation s (wrapping_succ g) in
      match spawn_actor config a g s with
      | None => None
      | Some (i, s) =>
          let '(outcome, s) := mailbox_try_send i m s in
          let s := with_actors s (<[a := MkRoute g Active i]> (actors s)) in
          Some match outcome with
               | SendOk => (Ok (), s)
               | SendFull => (Err MailboxFull, drop_message m s)
               | SendClosed => (Err ActorStopped, drop_message m s)
               end
      end
  end.

(** [dispatch_message] from [self.actors.lock()] to its end. *)
Definition dispatch_locked (config : ServerConfig) (a : ActorAddress) (m : MailboxMessage)
    (reservation : option PermitId) (s : ServerState) : option (result SendError unit * ServerState) :=
  match actors s !! a with
  | None => start_route config a m reservation s
  | Some route =>
      match state route with
      | Deactivating => Some (Err ActorDeactivating, drop_reservation reservation (drop_message m s))
      | Active =>
          let '(outcome, s) := mailbox_try_send (task route) m s in
          match outcome with
          | SendOk => Some (Ok (), drop_reservation reservation s)
          | SendFull => Some (Err MailboxFull, drop_reservation reservation (fail_message m MailboxFull s))
          | SendClosed => start_route config a m reservation (remove_entry a s)
          end
      end
  end.

(** [dispatch_message_if_active] *)
Definition dispatch_message_if_active (a : ActorAddress) (m : MailboxMessage) (s : ServerState)
    : result SendError unit * ServerState :=
  match actors s !! a with
  | Some (MkRoute _ Active i) =>
      let '(outcome, s) := mailbox_try_send i m s in
      match outcome with
      | SendOk => (Ok (), s)
      | SendFull => (Err MailboxFull, drop_message m s)
      | SendClosed => (Err ActorStopped, drop_message m s)
      end
  | _ => (Ok (), drop_message m s)
  end.

(** ** Shutdown and fence: their critical sections *)
Definition routed_tasks (s : ServerState) : list TaskId := (fun e => task e.2) <$> map_to_list (actors s).

Definition for_tasks (is_ : list TaskId) (f : Task -> Task) (s : ServerState) : ServerState :=
  foldr (fun i => update_task i f) s is_.

(** The first block of [shutdown]: [None] when it was not running. *)
Definition shutdown_snapshot (s : ServerState) : option (list TaskId) * ServerState :=
  match status s with
  | RUNNING =>
      let is_ := routed_tasks s in
      (Some is_, for_tasks is_ with_shutdown_sent (with_status s SHUTTING_DOWN))
  | _ => (None, s)
  end.

(** The first block of [fence] *)
Definition fence_snapshot (s : ServerState) : list TaskId * ServerState :=
  let is_ := routed_tasks s in
  (is_, for_tasks is_ with_abort_requested (with_status s FENCED)).

(** [self.actors.lock().clear()] *)
Definition clear_actors (s : ServerState) : ServerState :=
  MkServer ∅ (tasks s) (sessions s) (available s + size (actors s)) (reserved s) (next_permit s)
    (next_generation s) (status s) (oneshots s) (outbox s) true.

(** Dropping an [ActorTaskGuard], and the receiver with what is in it. *)
Definition drop_guard (i : TaskId) (s : ServerState) : ServerState :=
  match tasks s !! i with
  | None => s
  | Some t => update_task i with_completed (remove_route (task_address t) (task_generation t) s)
  end.

Definition drop_receiver (i : TaskId) (s : ServerState) : ServerState :=
  match tasks s !! i with
  | None => s
  | Some t =>
      drop_messages (mailbox t) (update_task i (fun t => with_receiver_closed (with_mailbox t [])) s)
  end.

Definition all_completed (is_ : list TaskId) (s : ServerState) : Prop :=
  forall i t, i ∈ is_ -> tasks s !! i = Some t -> completed t = true.

(** ** Effects

    One effect per atomic access to the shared state, and per call of code
    outside this component: the application's handlers ([User..]), the ownership
    router ([ResolveOwner], [ReleaseOwner]; see [Routing]), the transport
    ([TrySend]). *)
Inductive activation := ActivateOk | ActivateFailed | ActivatePanicked.
Inductive DeactivationReason := Idle | Shutdown.

Inductive resolved :=
| ResolvedLocal (reservation : option PermitId)
| ResolvedRemote.

(** What the [select!] of the actor loop woke up with. *)
Inductive wakeup :=
| ShutdownRequested            (* changed() is Ok and the value is true *)
| ShutdownSenderGone           (* changed() is Err: the route was dropped *)
| MessageReceived (m : MailboxMessage)
| MailboxClosed
| IdleTimeout.

Inductive runtimeE : Type -> Type :=
(* dispatch *)
| AuthorityInvalid : runtimeE bool
| LoadStatus : runtimeE Status
| DispatchLocked (a : ActorAddress) (m : MailboxMessage) (reservation : option PermitId)
    : runtimeE (result SendError unit)
| DispatchIfActive (a : ActorAddress) (m : MailboxMessage) : runtimeE (result SendError unit)
| DropMessage (m : MailboxMessage) : runtimeE unit
| DropReservation (reservation : option PermitId) : runtimeE unit
| ResolveOwner (a : ActorAddress) : runtimeE (result SendError resolved)
| ReleaseOwner (a : ActorAddress) : runtimeE bool
(* sessions and oneshots *)
| RegisterActor (a : ActorAddress) (sid : SessionId) (sender : SenderId) : runtimeE bool
| UnregisterActor (a : ActorAddress) (sid : SessionId) : runtimeE bool
| Sink (a : ActorAddress) (sid : SessionId) : runtimeE (option SenderId)
| IsBoundTo (a : ActorAddress) (sid : SessionId) (sender : SenderId) : runtimeE bool
| HasLiveSessions (a : ActorAddress) : runtimeE bool
| ActorSnapshot (a : ActorAddress) : runtimeE (list SessionId)
| SenderSnapshot (sender : SenderId) : runtimeE (list (ActorAddress * SessionId))
| ActorAddresses : runtimeE (list ActorAddress)
| NewOneshot : runtimeE OneshotId
| CompleteOneshot (o : OneshotId) (r : result SendError unit) : runtimeE unit
| AwaitOneshot (o : OneshotId) : runtimeE (option (result SendError unit))
| TrySend (sender : SenderId) (e : Envelope) : runtimeE bool
(* the actor task [i] *)
| UserActivate (i : TaskId) : runtimeE activation
| UserMessage (i : TaskId) (m : MailboxMessage) : runtimeE bool
| UserDeactivate (i : TaskId) (reason : DeactivationReason) : runtimeE unit
| Select (i : TaskId) : runtimeE wakeup
| CloseReceiver (i : TaskId) : runtimeE unit
| RecvClosed (i : TaskId) : runtimeE (option MailboxMessage)
| BeginDeactivation (i : TaskId) : runtimeE bool
| RemoveRoute (i : TaskId) : runtimeE unit
| DropGuard (i : TaskId) : runtimeE unit
| DropReceiver (i : TaskId) : runtimeE unit
(* shutdown and fence *)
| ShutdownSnapshot : runtimeE (option (list TaskId))
| FenceSnapshot : runtimeE (list TaskId)
| WaitCompleted (is_ : list TaskId) (bounded : bool) : runtimeE bool
| AbortTasks (is_ : list TaskId) : runtimeE unit
| ClearActors : runtimeE unit
| AbortInboundTasks : runtimeE unit
| StoreStatus (st : Status) : runtimeE unit.

(** ** What an effect does to the state

    Deterministic effects apply their function; the others allow every reply the
    code has to expect.  An effect that waits has no transition until it may
    return. *)
Definition exec_effect (config : ServerConfig) X (s : ServerState) (e : runtimeE X)
    : X -> ServerState -> Prop :=
  match e in runtimeE X return X -> ServerState -> Prop with
  | AuthorityInvalid => fun _ s' => s' = s
  | LoadStatus => fun x s' => x = status s /\ s' = s
  | DispatchLocked a m reservation => fun x s' =>
      (forall p, reservation = Some p -> p ∈ reserved s) /\
      dispatch_locked config a m reservation s = Some (x, s')
  | DispatchIfActive a m => fun x s' => (x, s') = dispatch_message_if_active a m s
  | DropMessage m => fun _ s' => s' = drop_message m s
  | DropReservation reservation => fun _ s' =>
      (forall p, reservation = Some p -> p ∈ reserved s) /\ s' = drop_reservation reservation s
  | ResolveOwner a => fun x s' =>
      match x with
      | Ok (ResolvedLocal (Some p)) =>
          exists s1, try_acquire s = Some s1 /\ p = next_permit s /\
                     s' = with_reserved s1 ({[p]} ∪ reserved s) (S p)
      | _ => s' = s
      end
  | ReleaseOwner a => fun _ s' => s' = s
  | RegisterActor a sid sender => fun x s' =>
      x = (register_actor (sessions s) a sid sender).1 /\
      s' = with_sessions s (register_actor (sessions s) a sid sender).2
  | UnregisterActor a sid => fun x s' =>
      x = (unregister_actor (sessions s) a sid).1 /\
      s' = with_sessions s (unregister_actor (sessions s) a sid).2
  | Sink a sid => fun x s' => x = sink (sessions s) a sid /\ s' = s
  | IsBoundTo a sid sender => fun x s' => x = is_bound_to (sessions s) a sid sender /\ s' = s
  | HasLiveSessions a => fun x s' => x = has_live_sessions (sessions s) a /\ s' = s
  | ActorSnapshot a => fun x s' => x ≡ₚ by_actor_snapshot (sessions s) a /\ s' = s
  | SenderSnapshot sender => fun x s' => x ≡ₚ by_sender_snapshot (sessions s) sender /\ s' = s
  | ActorAddresses => fun x s' => x ≡ₚ by_actor_addresses (sessions s) /\ s' = s
  | NewOneshot => fun x s' => x = length (oneshots s) /\ s' = with_oneshots s (oneshots s ++ [Waiting])
  | CompleteOneshot o r => fun _ s' => s' = complete_oneshot o r s
  | AwaitOneshot o => fun x s' =>
      s' = s /\ match x with
                | Some r => oneshots s !! o = Some (Sent r)
                | None => oneshots s !! o = Some SenderDropped
                end
  | TrySend sender e => fun _ s' => s' = with_outbox s (outbox s ++ [(sender, e)])
  | UserActivate i => fun _ s' => exists l, s' = with_outbox s (outbox s ++ l)
  | UserMessage i m => fun _ s' => exists l, s' = with_outbox s (outbox s ++ l)
  | UserDeactivate i _ => fun _ s' => exists l, s' = with_outbox s (outbox s ++ l)
  | Select i => fun x s' =>
      exists t, tasks s !! i = Some t /\
        let owned := exists a route, actors s !! a = Some route /\ task route = i in
        let pending := shutdown_sent t = true /\ shutdown_seen t = false in
        match x with
        | ShutdownRequested => pending /\ s' = update_task i with_shutdown_seen s
        | ShutdownSenderGone => ~ pending /\ ~ owned /\ s' = s
        | MessageReceived m =>
            ~ pending /\ owned /\ head (mailbox t) = Some m /\
            s' = update_task i (fun t => with_mailbox t (tail (mailbox t))) s
        | MailboxClosed => ~ pending /\ owned /\ receiver_closed t = true /\ mailbox t = [] /\ s' = s
        | IdleTimeout => ~ pending /\ owned /\ receiver_closed t = false /\ mailbox t = [] /\ s' = s
        end
  | CloseReceiver i => fun _ s' => s' = update_task i with_receiver_closed s
  | RecvClosed i => fun x s' =>
      exists t, tasks s !! i = Some t /\ x = head (mailbox t) /\
                s' = update_task i (fun t => with_mailbox t (tail (mailbox t))) s
  | BeginDeactivation i => fun x s' =>
      exists t, tasks s !! i = Some t /\
        (x, s') = begin_deactivation (task_address t) (task_generation t) i s
  | RemoveRoute i => fun _ s' =>
      exists t, tasks s !! i = Some t /\ s' = remove_route (task_address t) (task_generation t) s
  | DropGuard i => fun _ s' => s' = drop_guard i s
  | DropReceiver i => fun _ s' => s' = drop_receiver i s
  | ShutdownSnapshot => fun x s' => (x, s') = shutdown_snapshot s
  | FenceSnapshot => fun x s' => (x, s') = fence_snapshot s
  | WaitCompleted is_ bounded => fun timed_out s' =>
      s' = s /\ if timed_out then bounded = true else all_completed is_ s
  | AbortTasks is_ => fun _ s' => s' = for_tasks is_ with_abort_requested s
  | ClearActors => fun _ s' => s' = clear_actors s
  | AbortInboundTasks => fun _ s' => s' = s
  | StoreStatus st => fun _ s' => s' = with_status s st
  end.

(** ** Procedures *)
Section procedures.
Context (config : ServerConfig).

(** The checks at the top of [dispatch_message]. *)
Definition dispatch_guard : proc runtimeE (option SendError) :=
  call! invalid := AuthorityInvalid;
  if (invalid : bool) then Ret (Some NodeFenced) else
  call! st := LoadStatus;
  Ret match st with
      | RUNNING => None
      | SHUTTING_DOWN => Some RuntimeShuttingDown
      | FENCED => Some NodeFenced
      | STOPPED => Some RuntimeStopped
      end.

(** [dispatch_message] *)
Definition dispatch_message (a : ActorAddress) (m : MailboxMessage) (reservation : option PermitId)
    : proc runtimeE (result SendError unit) :=
  bind! refused := dispatch_guard;
  match refused with
  | Some error =>
      exec! DropMessage m;
      exec! DropReservation reservation;
      Ret (Err error)
  | None =>
      call! r := DispatchLocked a m reservation;
      Ret r
  end.

(** [close_local_session] *)
Definition close_local_session (a : ActorAddress) (sid : SessionId) : proc runtimeE unit :=
  call! removed := UnregisterActor a sid;
  if (removed : bool)
  then (exec! DispatchIfActive a (SessionClosed sid); Ret ())
  else Ret ().

(** [open_local_session]; the source returns a nested result that its only caller
    flattens. *)
Definition open_local_session (a : ActorAddress) (sid : SessionId) (sender : SenderId)
    (reservation : option PermitId) : proc runtimeE (result SendError unit) :=
  match registrations config !! actor_type a with
  | None => exec! DropReservation reservation; Ret (Err (ActorTypeNotRegistered (actor_type a)))
  | Some _ =>
      call! registered := RegisterActor a sid sender;
      if negb registered then (exec! DropReservation reservation; Ret (Err ActorStopped)) else
      call! complete := NewOneshot;
      bind! sent := dispatch_message a (SessionOpened sid complete) reservation;
      match sent with
      | Err error => exec! UnregisterActor a sid; Ret (Err error)
      | Ok _ =>
          call! outcome := AwaitOneshot complete;
          match outcome with
          | None => exec! UnregisterActor a sid; Ret (Err ActorStopped)
          | Some (Err error) => exec! UnregisterActor a sid; Ret (Err error)
          | Some (Ok _) => Ret (Ok ())
          end
      end
  end.

(** [dispatch_remote_message] *)
Definition dispatch_remote_message (a : ActorAddress) (sid : SessionId) (payload : option string)
    : proc runtimeE (result SendError unit) :=
  match payload with
  | Some payload =>
      call! bound := Sink a sid;
      match bound with
      | None => Ret (Err ActorStopped)
      | Some _ => dispatch_message a (Action sid payload) None
      end
  | None => bind! _ := close_local_session a sid; Ret (Ok ())
  end.

(** [close_sessions_for_sender] *)
Fixpoint close_sessions (l : list (ActorAddress * SessionId)) : proc runtimeE unit :=
  match l with
  | [] => Ret ()
  | (a, sid) :: l => bind! _ := close_local_session a sid; close_sessions l
  end.

Definition close_sessions_for_sender (sender : SenderId) : proc runtimeE unit :=
  call! l := SenderSnapshot sender;
  close_sessions l.

(** [send_session_error] *)
Definition send_session_error (reply : option SenderId) (session_id : string) (error : SendError)
    : proc runtimeE unit :=
  match reply with
  | Some reply => exec! TrySend reply (envelope_session_error session_id error); Ret ()
  | None => Ret ()
  end.

(** The open of [dispatch_inbound]: resolve the owner, then open locally. *)
Definition resolve_and_open (a : ActorAddress) (sid : SessionId) (sender : SenderId)
    : proc runtimeE (result SendError unit) :=
  if clustered config then
    call! owner := ResolveOwner a;
    match owner with
    | Ok (ResolvedLocal reservation) => open_local_session a sid sender reservation
    | Ok ResolvedRemote => Ret (Err NotOwner)
    | Err error => Ret (Err error)
    end
  else open_local_session a sid sender None.

(** [reply.as_ref().is_some_and(|sender| self.sessions.is_bound_to(..))] *)
Definition bound_to_reply (a : ActorAddress) (sid : SessionId) (reply : option SenderId)
    : proc runtimeE bool :=
  match reply with
  | None => Ret false
  | Some sender => call! b := IsBoundTo a sid sender; Ret b
  end.

(** [dispatch_inbound] *)
Definition dispatch_inbound (envelope : Envelope) (reply : option SenderId) : proc runtimeE unit :=
  match parse_inbound envelope with
  | None => Ret ()
  | Some (MkInbound a sid version kind) =>
      let version_ok := (version =? transport_protocol_version config)%Z in
      match kind with
      | KAction payload =>
          if negb version_ok then Ret () else
          bind! bound := bound_to_reply a sid reply;
          if negb bound then send_session_error reply (env_session_id envelope) ActorStopped else
          bind! r := dispatch_remote_message a sid (Some payload);
          match r with
          | Ok _ => Ret ()
          | Err error => send_session_error reply (env_session_id envelope) error
          end
      | KSessionOpen =>
          bind! r :=
            if negb version_ok then Ret (Err (RemoteProtocol VersionMismatch))
            else match reply with
                 | Some sender => resolve_and_open a sid sender
                 | None => Ret (Err RemoteUnavailable)
                 end;
          match reply with
          | None => Ret ()
          | Some sender =>
              exec! TrySend sender (envelope_opened_ack (env_session_id envelope) r); Ret ()
          end
      | KSessionClose _ =>
          bind! bound := bound_to_reply a sid reply;
          if (bound : bool) then close_local_session a sid else Ret ()
      | KEvent _ | KSessionError _ | KSessionOpenedAck _ => Ret ()
      end
  end.

(** *** The sending half of [SessionRegistry] *)

(** [deliver_event], [SessionHandle::send] *)
Definition deliver_event (a : ActorAddress) (sid : SessionId) (payload : string)
    : proc runtimeE (result SendError unit) :=
  call! bound := Sink a sid;
  match bound with
  | Some sender =>
      call! ok := TrySend sender (envelope_event sid payload);
      Ret (if (ok : bool) then Ok () else Err RemoteUnavailable)
  | None => Ret (Err ActorStopped)
  end.

(** [broadcast_event] *)
Fixpoint deliver_events (a : ActorAddress) (sids : list SessionId) (payload : string) : proc runtimeE unit :=
  match sids with
  | [] => Ret ()
  | sid :: sids => bind! _ := deliver_event a sid payload; deliver_events a sids payload
  end.

Definition broadcast_event (a : ActorAddress) (payload : string) : proc runtimeE unit :=
  call! sids := ActorSnapshot a;
  deliver_events a sids payload.

(** [terminate] *)
Definition terminate (a : ActorAddress) (sid : SessionId) (error : SendError) : proc runtimeE unit :=
  call! bound := Sink a sid;
  exec! UnregisterActor a sid;
  match bound with
  | Some sender =>
      exec! TrySend sender (envelope_session_error (session_id_as_bytes sid) error); Ret ()
  | None => Ret ()
  end.

(** [SessionRegistry::terminate_all] *)
Fixpoint terminate_each (a : ActorAddress) (sids : list SessionId) (error : SendError) : proc runtimeE unit :=
  match sids with
  | [] => Ret ()
  | sid :: sids => bind! _ := terminate a sid error; terminate_each a sids error
  end.

Definition terminate_all (a : ActorAddress) (error : SendError) : proc runtimeE unit :=
  call! sids := ActorSnapshot a;
  terminate_each a sids error.

(** [terminate_all_sessions] *)
Fixpoint terminate_addresses (l : list ActorAddress) (error : SendError) : proc runtimeE unit :=
  match l with
  | [] => Ret ()
  | a :: l => bind! _ := terminate_all a error; terminate_addresses l error
  end.

Definition terminate_all_sessions (error : SendError) : proc runtimeE unit :=
  call! l := ActorAddresses;
  terminate_addresses l error.

(** *** The actor task *)

(** How the body of the task ended; [Cut]: the model's fuel ran out. *)
Inductive exit_reason := ActivationExit | CrashExit | ShutdownExit | IdleExit | ClosedExit | Cut.

(** [execute_message]; [false]: the handler panicked. *)
Definition execute_message (i : TaskId) (m : MailboxMessage) : proc runtimeE bool :=
  call! ok := UserMessage i m;
  match m with
  | SessionOpened _ complete =>
      exec! CompleteOneshot complete (if (ok : bool) then Ok () else Err ActorStopped); Ret ok
  | _ => Ret ok
  end.

(** [fail_pending] *)
Fixpoint fail_pending (fuel : nat) (i : TaskId) (error : SendError) : proc runtimeE bool :=
  match fuel with
  | O => Ret false
  | S fuel =>
      call! m := RecvClosed i;
      match m with
      | None => Ret true
      | Some (SessionOpened _ complete) =>
          exec! CompleteOneshot complete (Err error); fail_pending fuel i error
      | Some _ => fail_pending fuel i error
      end
  end.

Definition fail_activation (fuel : nat) (i : TaskId) (a : ActorAddress) (error : SendError)
    : proc runtimeE exit_reason :=
  exec! CloseReceiver i;
  exec! RemoveRoute i;
  bind! drained := fail_pending fuel i error;
  if negb drained then Ret Cut else
  bind! _ := terminate_all a error;
  Ret ActivationExit.

(** [while let Some(message) = receiver.recv().await] of the shutdown branch;
    [None]: a handler panicked. *)
Fixpoint drain (fuel : nat) (i : TaskId) : proc runtimeE (option bool) :=
  match fuel with
  | O => Ret (Some false)
  | S fuel =>
      call! m := RecvClosed i;
      match m with
      | None => Ret (Some true)
      | Some m =>
          bind! ok := execute_message i m;
          if (ok : bool) then drain fuel i else Ret None
      end
  end.

Definition shutdown_branch (fuel : nat) (i : TaskId) (a : ActorAddress) : proc runtimeE exit_reason :=
  exec! CloseReceiver i;
  bind! drained := drain fuel i;
  match drained with
  | None => bind! _ := terminate_all a ActorStopped; Ret CrashExit
  | Some false => Ret Cut
  | Some true =>
      bind! _ := terminate_all a RuntimeShuttingDown;
      exec! UserDeactivate i Shutdown;
      exec! RemoveRoute i;
      Ret ShutdownExit
  end.

Definition passivate (i : TaskId) (a : ActorAddress) : proc runtimeE exit_reason :=
  exec! UserDeactivate i Idle;
  let finish := exec! RemoveRoute i; Ret IdleExit in
  if clustered config then (exec! ReleaseOwner a; finish) else finish.

(** The loop of the task *)
Fixpoint actor_loop (fuel : nat) (i : TaskId) (a : ActorAddress) : proc runtimeE exit_reason :=
  match fuel with
  | O => Ret Cut
  | S fuel =>
      call! woke := Select i;
      match woke with
      | ShutdownRequested => shutdown_branch fuel i a
      | ShutdownSenderGone => actor_loop fuel i a
      | MailboxClosed => exec! RemoveRoute i; Ret ClosedExit
      | IdleTimeout =>
          call! live := HasLiveSessions a;
          if (live : bool) then actor_loop fuel i a else
          call! began := BeginDeactivation i;
          if negb began then actor_loop fuel i a else passivate i a
      | MessageReceived m =>
          bind! ok := execute_message i m;
          if (ok : bool) then actor_loop fuel i a
          else (bind! _ := terminate_all a ActorStopped; Ret CrashExit)
      end
  end.

(** The body of the task spawned by [spawn_actor] *)
Definition actor_body (fuel : nat) (i : TaskId) (a : ActorAddress) : proc runtimeE exit_reason :=
  call! activated := UserActivate i;
  match activated with
  | ActivateOk => actor_loop fuel i a
  | ActivateFailed => fail_activation fuel i a ActivationFailed
  | ActivatePanicked => fail_activation fuel i a ActorStopped
  end.

(** What leaving the body drops: the guard, then the receiver.  The same happens
    to a task that is aborted. *)
Definition drop_task (i : TaskId) : proc runtimeE unit :=
  exec! DropGuard i;
  exec! DropReceiver i;
  Ret ().

Definition actor_task (fuel : nat) (i : TaskId) (a : ActorAddress) : proc runtimeE unit :=
  bind! reason := actor_body fuel i a;
  match reason with
  | Cut => Ret ()
  | _ => drop_task i
  end.

(** *** [shutdown] and [fence] *)
Inductive shutdown_outcome := ShutdownOk | ShutdownTimedOut.

Definition shutdown : proc runtimeE shutdown_outcome :=
  call! snapshot := ShutdownSnapshot;
  match snapshot with
  | None => Ret ShutdownOk
  | Some is_ =>
      call! timed_out := WaitCompleted is_ true;
      let finish :=
        bind! _ := terminate_all_sessions RuntimeShuttingDown;
        exec! AbortInboundTasks;
        exec! StoreStatus STOPPED;
        Ret (if (timed_out : bool) then ShutdownTimedOut else ShutdownOk) in
      if (timed_out : bool) then
        exec! AbortTasks is_;
        exec! ClearActors;
        finish
      else finish
  end.

Definition fence : proc runtimeE unit :=
  call! is_ := FenceSnapshot;
  exec! AbortTasks is_;
  exec! WaitCompleted is_ false;
  exec! ClearActors;
  bind! _ := terminate_all_sessions NodeFenced;
  exec! AbortInboundTasks;
  Ret ().

End procedures.
