(* ===== verification/RuntimeInv.v ===== *)
(** * Invariants of the Server runtime

    The invariant of [Runtime.ServerState] and its preservation by every critical
    section: permits are conserved, routes point to live tasks of their address
    and generation, mailboxes stay within their capacity, and Sessions exist only
    for registered Actor Types. *)

From S2P Require Import Prelude Text Address Transport Session Runtime.
Import Registry.

Definition gen_of (i : nat) : Z := (1 + Z.of_nat i) mod (U64_MAX + 1).

Section inv.
Context (config : ServerConfig).

Definition registered (a : ActorAddress) : Prop := is_Some (registrations config !! actor_type a).

Record state_inv (s : ServerState) : Prop := {
  inv_permits : available s + size (actors s) + size (reserved s) = max_active_actors config;
  inv_fresh p : p ∈ reserved s -> p < next_permit s;
  inv_routes a r : actors s !! a = Some r ->
    exists t, tasks s !! task r = Some t /\ task_address t = a /\ task_generation t = generation r /\
              completed t = false;
  inv_tasks i t : tasks s !! i = Some t ->
    task_generation t = gen_of i /\ length (mailbox t) <= capacity t /\
    exists r, registrations config !! actor_type (task_address t) = Some r /\ capacity t = mailbox_capacity r;
  inv_generation : next_generation s = gen_of (length (tasks s));
  inv_sessions : wf (sessions s);
  inv_registered a sid : is_Some (sink (sessions s) a sid) -> registered a
}.

(** The parts of the state that an operation may leave alone. *)
Definition same_routing (s s' : ServerState) : Prop :=
  actors s' = actors s /\ available s' = available s /\ reserved s' = reserved s /\
  next_permit s' = next_permit s /\ next_generation s' = next_generation s.

(** A change of a task that the invariant allows. *)
Definition task_ok (t t' : Task) : Prop :=
  task_address t' = task_address t /\ task_generation t' = task_generation t /\
  capacity t' = capacity t /\ completed t' = completed t /\
  (length (mailbox t') <= length (mailbox t) \/ length (mailbox t') <= capacity t).

Definition tasks_ok (s s' : ServerState) : Prop :=
  length (tasks s') = length (tasks s) /\
  forall i t', tasks s' !! i = Some t' -> exists t, tasks s !! i = Some t /\ task_ok t t'.

Lemma task_ok_refl t : task_ok t t.
Proof. repeat split; by left. Qed.

Lemma tasks_ok_refl s s' : tasks s' = tasks s -> tasks_ok s s'.
Proof. intros Ht. split; [by rewrite Ht |]. rewrite Ht. eauto using task_ok_refl. Qed.

Lemma state_inv_update s s' :
  state_inv s -> same_routing s s' -> tasks_ok s s' -> sessions s' = sessions s -> state_inv s'.
Proof.
  intros [Hp Hf Hr Ht Hg Hs Hreg] (Ha & Hav & Hres & Hnp & Hng) [Hlen Htasks] Hsess.
  split; rewrite ?Ha, ?Hav, ?Hres, ?Hnp, ?Hng, ?Hsess, ?Hlen; try done.
  - intros a r Hlk. destruct (Hr a r Hlk) as (t & Hlt & Hta & Htg & Hc).
    assert (Hi : task r < length (tasks s')) by (rewrite Hlen; by eapply lookup_lt_Some).
    apply lookup_lt_is_Some in Hi as [t' Ht']. destruct (Htasks _ _ Ht') as (t0 & Ht0 & H1 & H2 & H3 & H4 & _).
    assert (t0 = t) as -> by congruence. exists t'. split_and!; congruence.
  - intros i t' Hlk. destruct (Htasks _ _ Hlk) as (t & Hlt & H1 & H2 & H3 & H4 & H5).
    destruct (Ht _ _ Hlt) as (Hgen & Hlen' & r & Hr' & Hcap). rewrite H1, H2, H3.
    split_and!; [done | lia | eauto].
Qed.

(** *** Oneshots and messages touch no route *)
Lemma resolve_oneshot_frame o x s :
  same_routing s (resolve_oneshot o x s) /\ tasks (resolve_oneshot o x s) = tasks s /\
  sessions (resolve_oneshot o x s) = sessions s /\ actors_cleared (resolve_oneshot o x s) = actors_cleared s.
Proof. unfold resolve_oneshot. by destruct (oneshots s !! o) as [[] |]. Qed.

Definition frame (s s' : ServerState) : Prop :=
  same_routing s s' /\ tasks s' = tasks s /\ sessions s' = sessions s /\
  actors_cleared s' = actors_cleared s.

Lemma frame_refl s : frame s s.
Proof. by repeat split. Qed.

Lemma frame_trans s1 s2 s3 : frame s1 s2 -> frame s2 s3 -> frame s1 s3.
Proof.
  intros ((?&?&?&?&?)&?&?&?) ((?&?&?&?&?)&?&?&?). repeat split; congruence.
Qed.

Lemma drop_message_frame m s : frame s (drop_message m s).
Proof. destruct m; [apply frame_refl | apply resolve_oneshot_frame | apply frame_refl]. Qed.

Lemma drop_messages_frame ms s : frame s (drop_messages ms s).
Proof.
  induction ms as [| m ms IH]; [apply frame_refl |]. cbn.
  eapply frame_trans; [exact IH | apply drop_message_frame].
Qed.

Lemma fail_message_frame m e s : frame s (fail_message m e s).
Proof. destruct m; [apply frame_refl | apply resolve_oneshot_frame | apply frame_refl]. Qed.

Lemma frame_inv s s' : frame s s' -> state_inv s -> state_inv s'.
Proof.
  intros (Hr & Ht & Hs & _) Hinv. eapply state_inv_update; [done | done | by apply tasks_ok_refl | done].
Qed.

(** *** Single tasks *)
Lemma update_task_lookup i f s j :
  tasks (update_task i f s) !! j = (if decide (i = j) then f <$> tasks s !! j else tasks s !! j).
Proof.
  unfold update_task. cbn. destruct (decide (i = j)) as [-> | Hne].
  - apply list_lookup_alter_eq.
  - by apply list_lookup_alter_ne.
Qed.

Lemma update_task_inv i f s :
  (forall t, tasks s !! i = Some t -> task_ok t (f t)) ->
  state_inv s -> state_inv (update_task i f s).
Proof.
  intros Hf Hinv. eapply state_inv_update; [done | by repeat split | | done]. split.
  - cbn. apply length_alter.
  - intros j t'. rewrite update_task_lookup. destruct (decide (i = j)) as [-> | Hne].
    + rewrite fmap_Some. intros (t & Ht & ->). eauto.
    + eauto using task_ok_refl.
Qed.

Lemma for_tasks_inv is_ f s :
  (forall t, task_ok t (f t)) -> state_inv s -> state_inv (for_tasks is_ f s).
Proof.
  intros Hf Hinv. induction is_ as [| i is_ IH]; [done |]. cbn. by apply update_task_inv.
Qed.

Lemma mailbox_try_send_inv i m s : state_inv s -> state_inv (mailbox_try_send i m s).2.
Proof.
  intros Hinv. unfold mailbox_try_send. destruct (tasks s !! i) as [t |] eqn:Ht; [| done].
  destruct (receiver_closed t); [done |]. destruct (Nat.ltb_spec (length (mailbox t)) (capacity t)); [| done].
  cbn. apply update_task_inv; [| done]. intros t' Ht'. assert (t' = t) as -> by congruence.
  repeat split. cbn. rewrite length_app. cbn. lia.
Qed.

Lemma mailbox_try_send_actors i m s :
  same_routing s (mailbox_try_send i m s).2 /\ sessions (mailbox_try_send i m s).2 = sessions s /\
  length (tasks (mailbox_try_send i m s).2) = length (tasks s).
Proof.
  unfold mailbox_try_send. destruct (tasks s !! i); [| done]. destruct (receiver_closed t); [done |].
  destruct (_ <? _)%nat; [| done]. split_and!; try done. apply length_alter.
Qed.

Lemma mailbox_try_send_with_actors i m s x :
  (mailbox_try_send i m (with_actors s x)).2 = with_actors (mailbox_try_send i m s).2 x.
Proof.
  unfold mailbox_try_send. change (tasks (with_actors s x)) with (tasks s).
  destruct (tasks s !! i) as [t |]; [| done]. destruct (receiver_closed t); [done |].
  by destruct (_ <? _)%nat.
Qed.

(** *** Routes and permits *)
Lemma remove_entry_inv a s : state_inv s -> state_inv (remove_entry a s).
Proof.
  intros Hinv. unfold remove_entry. destruct (actors s !! a) as [r |] eqn:Ha; [| done].
  destruct Hinv as [Hp Hf Hr Ht Hg Hs Hreg]. split; try done.
  - cbn. rewrite map_size_delete_Some by eauto.
    pose proof (map_size_ne_0_lookup_2 (actors s) a ltac:(eauto)). lia.
  - intros b r'. cbn. intros [_ Hb]%lookup_delete_Some. eauto.
Qed.

Lemma remove_route_inv a g s : state_inv s -> state_inv (remove_route a g s).
Proof.
  intros Hinv. unfold remove_route. destruct (actors s !! a); [| done].
  destruct (_ =? _)%Z; [by apply remove_entry_inv | done].
Qed.

Lemma drop_reservation_inv reservation s :
  (forall p, reservation = Some p -> p ∈ reserved s) ->
  state_inv s -> state_inv (drop_reservation reservation s).
Proof.
  intros Hres Hinv. destruct reservation as [p |]; [| done]. specialize (Hres p eq_refl).
  destruct Hinv as [Hp Hf Hr Ht Hg Hs Hreg]. split; try done; cbn.
  - rewrite size_difference by set_solver. rewrite size_singleton.
    assert (size (reserved s) <> 0) by (apply size_non_empty_iff; set_solver). lia.
  - set_solver.
Qed.

Lemma begin_deactivation_inv a g i s : state_inv s -> state_inv (begin_deactivation a g i s).2.
Proof.
  intros Hinv. unfold begin_deactivation. destruct (actors s !! a) as [r |] eqn:Ha; [| done].
  destruct (_ || _); [done |]. destruct Hinv as [Hp Hf Hr Ht Hg Hs Hreg]. split; try done; cbn.
  - rewrite map_size_insert_Some; [done |]. by eexists.
  - intros b r'. rewrite lookup_insert_Some. intros [[<- <-] | [_ Hb]]; cbn; eauto.
Qed.

Lemma clear_actors_inv s : state_inv s -> state_inv (clear_actors s).
Proof.
  intros [Hp Hf Hr Ht Hg Hs Hreg]. split; try done; cbn. rewrite map_size_empty. lia.
Qed.

Lemma gen_of_succ i : wrapping_succ (gen_of i) = gen_of (S i).
Proof.
  unfold wrapping_succ, gen_of. rewrite Zplus_mod_idemp_l. f_equal. lia.
Qed.

(** The permit of a new route left the semaphore or the reservations. *)
Lemma start_permit reservation s s1 :
  state_inv s -> (forall p, reservation = Some p -> p ∈ reserved s) ->
  match reservation with Some p => Some (with_reserved s (reserved s ∖ {[p]}) (next_permit s)) | None => try_acquire s end = Some s1 ->
  tasks s1 = tasks s /\ actors s1 = actors s /\ sessions s1 = sessions s /\
  next_generation s1 = next_generation s /\
  S (available s1 + size (actors s) + size (reserved s1)) = max_active_actors config /\
  (forall p, p ∈ reserved s1 -> p < next_permit s1).
Proof.
  intros [Hp Hf Hr Ht Hg Hs Hrg] Hres Hpermit. destruct reservation as [p |].
  - injection Hpermit as <-. specialize (Hres p eq_refl). cbn. split_and!; try done; [| set_solver].
    rewrite size_difference by set_solver. rewrite size_singleton.
    assert (size (reserved s) <> 0) by (apply size_non_empty_iff; set_solver). lia.
  - unfold try_acquire in Hpermit. destruct (available s) eqn:Hav; [done |]. injection Hpermit as <-. cbn.
    split_and!; try done; lia.
Qed.

Lemma start_route_inv a m reservation s x s' :
  registered a -> actors s !! a = None ->
  (forall p, reservation = Some p -> p ∈ reserved s) ->
  start_route config a m reservation s = Some (x, s') -> state_inv s -> state_inv s'.
Proof.
  intros [reg Hreg] Hnone Hres Hstart Hinv. unfold start_route in Hstart.
  set (permit := match reservation with Some p => _ | None => _ end) in Hstart.
  destruct permit as [s1 |] eqn:Hpermit; subst permit.
  2: { injection Hstart as <- <-. eapply frame_inv; [apply fail_message_frame | done]. }
  destruct (start_permit _ _ _ Hinv Hres Hpermit) as (Ht1 & Ha1 & Hs1 & Hg1 & Hp1 & Hf1).
  unfold spawn_actor in Hstart. rewrite Hreg in Hstart.
  match type of Hstart with context [mailbox_try_send ?j ?m ?st] =>
    set (s2 := st) in Hstart; set (i := j) in Hstart end.
  set (s3 := with_actors s2 (<[a := MkRoute (next_generation s1) Active i]> (actors s2))).
  assert (Hs3 : state_inv s3).
  { destruct Hinv as [Hp Hf Hr Ht Hg Hs Hrg]. split; subst s3 s2 i; cbn.
    - rewrite Ha1. rewrite map_size_insert_None by done. lia.
    - done.
    - intros b rt. rewrite Ha1, Ht1, lookup_insert_Some. intros [[<- <-] | [Hne Hb]]; cbn.
      + rewrite list_lookup_middle by done. eexists. split; [done |]. done.
      + destruct (Hr _ _ Hb) as (t & Htl & ?). exists t. split; [| done].
        by apply lookup_app_l_Some.
    - intros j t. rewrite Ht1. intros [Hj | [Hj Hl]]%lookup_app_Some; [by apply Ht |].
      apply list_lookup_singleton_Some in Hl as [Hj0 <-]. cbn. split_and!; [| lia | eauto].
      rewrite Hg1, Hg. f_equal. lia.
    - rewrite Hg1, Hg, gen_of_succ, Ht1, length_app. f_equal. cbn. lia.
    - by rewrite Hs1.
    - by rewrite Hs1. }
  assert (Hcomm : with_actors (mailbox_try_send i m s2).2
                    (<[a := MkRoute (next_generation s1) Active i]> (actors (mailbox_try_send i m s2).2))
                  = (mailbox_try_send i m s3).2).
  { subst s3. rewrite mailbox_try_send_with_actors.
    by destruct (mailbox_try_send_actors i m s2) as ((-> & _) & _). }
  pose proof (mailbox_try_send_inv i m s3 Hs3) as Hs4. rewrite <- Hcomm in Hs4.
  destruct (mailbox_try_send i m s2) as [outcome s4]. cbn [snd] in Hs4.
  destruct outcome; injection Hstart as <- <-; [done | |];
    (eapply frame_inv; [apply drop_message_frame | done]).
Qed.

Lemma remove_entry_lookup a s : actors (remove_entry a s) !! a = None.
Proof.
  unfold remove_entry. destruct (actors s !! a) eqn:Ha; [| done]. cbn. apply lookup_delete_eq.
Qed.

Lemma remove_entry_reserved a s : reserved (remove_entry a s) = reserved s.
Proof. unfold remove_entry. by destruct (actors s !! a). Qed.

Lemma dispatch_locked_inv a m reservation s x s' :
  registered a -> (forall p, reservation = Some p -> p ∈ reserved s) ->
  dispatch_locked config a m reservation s = Some (x, s') -> state_inv s -> state_inv s'.
Proof.
  intros Hreg Hres Hd Hinv. unfold dispatch_locked in Hd.
  destruct (actors s !! a) as [r |] eqn:Ha; [| by eapply start_route_inv].
  destruct (state r).
  - pose proof (mailbox_try_send_inv (task r) m s Hinv) as Hinv'.
    destruct (mailbox_try_send_actors (task r) m s) as ((Ha' & _ & Hr' & _) & _ & _).
    destruct (mailbox_try_send (task r) m s) as [outcome s1] eqn:Hsend. cbn [snd] in *.
    destruct outcome.
    + injection Hd as <- <-. apply drop_reservation_inv; [by rewrite Hr' | done].
    + injection Hd as <- <-. pose proof (fail_message_frame m MailboxFull s1) as Hfr.
      apply drop_reservation_inv; [| by eapply frame_inv].
      destruct Hfr as ((_ & _ & -> & _) & _). by rewrite Hr'.
    + eapply start_route_inv; [done | apply remove_entry_lookup | | done | by apply remove_entry_inv].
      by rewrite remove_entry_reserved, Hr'.
  - injection Hd as <- <-. pose proof (drop_message_frame m s) as Hfr.
    apply drop_reservation_inv; [| by eapply frame_inv].
    by destruct Hfr as ((_ & _ & -> & _) & _).
Qed.

Lemma dispatch_if_active_inv a m s : state_inv s -> state_inv (dispatch_message_if_active a m s).2.
Proof.
  intros Hinv. unfold dispatch_message_if_active.
  destruct (actors s !! a) as [[g [] i] |]; try (eapply frame_inv; [apply drop_message_frame | done]).
  pose proof (mailbox_try_send_inv i m s Hinv) as Hinv'.
  destruct (mailbox_try_send i m s) as [[] s1]; cbn in *; [done | |];
    (eapply frame_inv; [apply drop_message_frame | done]).
Qed.

(** *** Ends of tasks *)
Lemma remove_route_tasks a g s : tasks (remove_route a g s) = tasks s.
Proof.
  unfold remove_route, remove_entry. destruct (actors s !! a); [| done]. by destruct (_ =? _)%Z.
Qed.

Lemma drop_guard_inv i s : state_inv s -> state_inv (drop_guard i s).
Proof.
  intros Hinv. unfold drop_guard. destruct (tasks s !! i) as [t |] eqn:Ht; [| done].
  pose proof (remove_route_inv (task_address t) (task_generation t) s Hinv) as Hinv'.
  pose proof Hinv as [_ _ Hroutes _ _ _ _].
  (* no route is left to [i] *)
  assert (Hgone : forall a r, actors (remove_route (task_address t) (task_generation t) s) !! a = Some r ->
                              task r <> i).
  { intros a r Ha Heq. unfold remove_route in Ha.
    assert (Hsub : actors s !! a = Some r).
    { destruct (actors s !! task_address t) eqn:Hl; [| done]. destruct (_ =? _)%Z; [| done].
      unfold remove_entry in Ha. rewrite Hl in Ha. cbn in Ha. by apply lookup_delete_Some in Ha as [_ ?]. }
    destruct (Hroutes _ _ Hsub) as (t' & Ht' & Haddr & Hgen & _). assert (t' = t) as -> by congruence.
    subst a. rewrite Hsub in Ha. rewrite Hgen, Z.eqb_refl in Ha. unfold remove_entry in Ha.
    rewrite Hsub in Ha. cbn in Ha. by rewrite lookup_delete_eq in Ha. }
  destruct Hinv' as [Hp Hf Hr Htk Hg Hs Hreg]. split; try done.
  - intros a r Ha. destruct (Hr a r Ha) as (t' & Ht' & ?). exists t'. split; [| done].
    rewrite update_task_lookup, decide_False; [done |]. specialize (Hgone a r Ha). congruence.
  - intros j t'. rewrite update_task_lookup. destruct (decide (i = j)) as [<- | Hne]; [| apply Htk].
    rewrite fmap_Some. intros (t0 & Ht0 & ->). destruct (Htk _ _ Ht0) as (? & ? & ?). done.
  - cbn. rewrite length_alter. done.
Qed.

Lemma drop_receiver_inv i s : state_inv s -> state_inv (drop_receiver i s).
Proof.
  intros Hinv. unfold drop_receiver. destruct (tasks s !! i) as [t |] eqn:Ht; [| done].
  eapply frame_inv; [apply drop_messages_frame |]. apply update_task_inv; [| done].
  intros t' _. repeat split. right. cbn. lia.
Qed.

(** *** Every effect *)

(** What no procedure does: use an Actor Type that is not registered, or store a
    status other than [STOPPED] outside the critical sections. *)
Definition static_allowed X (e : runtimeE X) : Prop :=
  match e with
  | RegisterActor a _ _ => registered a
  | DispatchLocked a _ _ => registered a
  | StoreStatus st => st = STOPPED
  | _ => True
  end.

Lemma with_sessions_inv s r :
  wf r -> (forall a sid, is_Some (sink r a sid) -> registered a) ->
  state_inv s -> state_inv (with_sessions s r).
Proof. intros Hwf Hr [Hp Hf Hrt Ht Hg Hs Hreg]. by split. Qed.

Lemma with_outbox_inv s l : state_inv s -> state_inv (with_outbox s l).
Proof. intros Hinv. eapply frame_inv; [| exact Hinv]. by repeat split. Qed.

(** A permit moves from the semaphore to the reservations. *)
Lemma reserve_inv s s1 :
  state_inv s -> try_acquire s = Some s1 ->
  state_inv (with_reserved s1 ({[next_permit s]} ∪ reserved s) (S (next_permit s))).
Proof.
  intros [Hp Hf Hr Ht Hg Hs Hreg] Hacq. unfold try_acquire in Hacq. destruct (available s) as [| n] eqn:Hav; [done |].
  injection Hacq as <-. split; try done; cbn.
  - rewrite size_union by (intros p; rewrite elem_of_singleton; intros -> Hin; specialize (Hf _ Hin); lia).
    rewrite size_singleton. lia.
  - intros p. rewrite elem_of_union, elem_of_singleton. intros [-> | Hin]; [lia |]. specialize (Hf _ Hin). lia.
Qed.

Lemma exec_inv X (e : runtimeE X) x s s' :
  static_allowed X e -> exec_effect config X s e x s' -> state_inv s -> state_inv s'.
Proof.
  intros Hal Hex Hinv.
  destruct e; cbn in Hal, Hex;
    repeat match goal with H : _ /\ _ |- _ => destruct H | H : exists _, _ |- _ => destruct H end;
    subst; try done;
    try (eapply frame_inv; [| exact Hinv]; by repeat split).
  - by eapply dispatch_locked_inv.
  - pose proof (dispatch_if_active_inv a m s Hinv) as H0. by rewrite <- Hex in H0.
  - eapply frame_inv; [apply drop_message_frame | done].
  - by apply drop_reservation_inv.
  - destruct x as [[[p |] |] | ]; subst; try done. destruct Hex as (s1 & Hacq & -> & ->).
    by eapply reserve_inv.
  - apply with_sessions_inv; [apply register_wf, Hinv | | done]. intros b tid.
    pose proof (register_sink (sessions s) a sid sender b tid) as Hsink.
    destruct (register_actor (sessions s) a sid sender) as [ok r']. cbn. destruct Hsink as [_ ->].
    destruct (decide _) as [(_ & <- & _) |]; [done |]. apply Hinv.
  - apply with_sessions_inv; [apply unregister_wf, Hinv | | done]. intros b tid.
    pose proof (unregister_sink (sessions s) a sid b tid) as Hsink.
    destruct (unregister_actor (sessions s) a sid) as [ok r']. cbn. destruct Hsink as [_ ->].
    destruct (decide _); [by intros [] |]. apply Hinv.
  - eapply frame_inv; [apply resolve_oneshot_frame | done].
  - destruct x; repeat match goal with H : _ /\ _ |- _ => destruct H end; subst; try done;
      (apply update_task_inv; [| done]); intros t' Ht'; repeat split; left; [done |].
    cbn. destruct (mailbox t'); cbn; lia.
  - apply update_task_inv; [| done]. intros t' _. repeat split; by left.
  - apply update_task_inv; [| done]. intros t' _. repeat split; left. destruct (mailbox t'); cbn; lia.
  - pose proof (begin_deactivation_inv (task_address x0) (task_generation x0) i s Hinv) as Hb.
    by rewrite <- H0 in Hb.
  - by apply remove_route_inv.
  - by apply drop_guard_inv.
  - by apply drop_receiver_inv.
  - unfold shutdown_snapshot in Hex. destruct (status s); injection Hex as -> ->; try done.
    apply for_tasks_inv; [by repeat split; left |]. eapply frame_inv; [| exact Hinv]. by repeat split.
  - unfold fence_snapshot in Hex. injection Hex as -> ->.
    apply for_tasks_inv; [by repeat split; left |]. eapply frame_inv; [| exact Hinv]. by repeat split.
  - apply for_tasks_inv; [by repeat split; left | done].
  - by apply clear_actors_inv.
Qed.
End inv.
