(* ===== verification/RuntimeActor.v ===== *)
(** * The actor task against its environment

    A rely-guarantee account of [actor_task]: what the other tasks of the Server
    may do to a task's mailbox and route ([rely]), that every effect of another
    task stays within it, and what the task itself guarantees at each of its
    steps ([actor_allowed]): handlers run only while it is the routed task of its
    Actor or drains a closed mailbox, and it gives up its route and the Actor's
    ownership only when its mailbox is empty and can receive nothing more. *)

From S2P Require Import Prelude Text Address Transport Session Runtime RuntimeInv.
Import Registry.

(** ** The task's view of the shared state *)
Definition closed (i : TaskId) (s : ServerState) : Prop :=
  exists t, tasks s !! i = Some t /\ receiver_closed t = true.

Definition owned (i : TaskId) (s : ServerState) : Prop :=
  exists a r, actors s !! a = Some r /\ task r = i.

Definition active (i : TaskId) (s : ServerState) : Prop :=
  exists a r, actors s !! a = Some r /\ task r = i /\ state r = Active.

(** Nothing can arrive in the mailbox any more. *)
Definition quiet (i : TaskId) (s : ServerState) : Prop := closed i s \/ ~ active i s.

Definition empty (i : TaskId) (s : ServerState) : Prop :=
  forall t, tasks s !! i = Some t -> mailbox t = [].

(** The generation counter has not wrapped. *)
Definition spawn_bound (s : ServerState) : Prop := (Z.of_nat (length (tasks s)) <= U64_MAX)%Z.

(** What others may do to task [i]: append to its mailbox unless it is quiet, set
    its flags, take its route only if its mailbox is closed or all routes are
    cleared. *)
Definition same_task (t t' : Task) : Prop :=
  task_address t' = task_address t /\ task_generation t' = task_generation t /\
  receiver_closed t' = receiver_closed t /\ shutdown_seen t' = shutdown_seen t /\
  completed t' = completed t.

Record rely (i : TaskId) (s s' : ServerState) : Prop := {
  rely_task t : tasks s !! i = Some t ->
    exists t' l, tasks s' !! i = Some t' /\ same_task t t' /\ mailbox t' = mailbox t ++ l /\
                 (quiet i s -> l = []);
  rely_owned_back : owned i s' -> owned i s;
  rely_active_back : active i s' -> active i s;
  rely_cleared : actors_cleared s = true -> actors_cleared s' = true;
  rely_owned : owned i s -> owned i s' \/ actors_cleared s' = true \/ closed i s
}.

Lemma rely_closed i s s' : is_Some (tasks s !! i) -> rely i s s' -> closed i s' <-> closed i s.
Proof.
  intros [t0 Ht0] Hr. destruct (rely_task _ _ _ Hr _ Ht0) as (t' & l & Ht' & (_ & _ & Hc & _) & _).
  split; intros (t & Ht & Hcl).
  - exists t0. split; [done |]. congruence.
  - exists t'. split; [done |]. congruence.
Qed.

Lemma rely_quiet i s s' : is_Some (tasks s !! i) -> rely i s s' -> quiet i s -> quiet i s'.
Proof.
  intros Hi Hr [Hc | Ha]; [left; by apply (rely_closed i s s') |].
  right. intros Ha'. by apply Ha, (rely_active_back _ _ _ Hr).
Qed.

Lemma rely_empty i s s' :
  is_Some (tasks s !! i) -> rely i s s' -> quiet i s -> empty i s -> empty i s'.
Proof.
  intros [t Ht] Hr Hq He t' Ht'. destruct (rely_task _ _ _ Hr _ Ht) as (t2 & l & Ht2 & _ & Hm & Hl).
  assert (t2 = t') as -> by congruence. by rewrite Hm, (He _ Ht), (Hl Hq).
Qed.

Lemma rely_refl i s : rely i s s.
Proof.
  split; auto. intros t Ht. exists t, []. rewrite app_nil_r. by repeat split.
Qed.

Lemma rely_trans i s1 s2 s3 : is_Some (tasks s1 !! i) -> rely i s1 s2 -> rely i s2 s3 -> rely i s1 s3.
Proof.
  intros Hi H12 H23. pose proof H12 as [Ht12 Hob12 Hab12 Hc12 Ho12]. pose proof H23 as [Ht23 Hob23 Hab23 Hc23 Ho23].
  split; auto.
  - intros t Ht. destruct (Ht12 _ Ht) as (t2 & l & Ht2 & (? & ? & ? & ? & ?) & Hm & Hl).
    destruct (Ht23 _ Ht2) as (t3 & l' & Ht3 & (? & ? & ? & ? & ?) & Hm' & Hl').
    exists t3, (l ++ l'). split; [done |]. split; [repeat split; congruence |].
    rewrite app_assoc, <- Hm. split; [done |]. intros Hq. rewrite (Hl Hq). cbn. apply Hl'.
    by apply (rely_quiet i s1 s2).
  - intros Ho. destruct (Ho12 Ho) as [Ho' | [Hcl | Hcl]]; auto.
    destruct (Ho23 Ho') as [? | [? | Hcl]]; auto. right. right. by apply (rely_closed i s1 s2).
Qed.

(** A change that neither the task nor its routes see. *)
Lemma rely_view i s s' :
  tasks s' !! i = tasks s !! i ->
  (forall a r, task r = i -> actors s' !! a = Some r <-> actors s !! a = Some r) ->
  (actors_cleared s = true -> actors_cleared s' = true) ->
  rely i s s'.
Proof.
  intros Ht Ha Hc. split; auto.
  - intros t Hl. exists t, []. rewrite Ht, app_nil_r. by repeat split.
  - intros (a & r & Hl & Hr). exists a, r. split; [by apply Ha | done].
  - intros (a & r & Hl & Hr & Hs). exists a, r. split; [by apply Ha | done].
  - intros (a & r & Hl & Hr). left. exists a, r. split; [by apply Ha | done].
Qed.

Lemma rely_frame i s s' : frame s s' -> rely i s s'.
Proof.
  intros ((Ha & _) & Ht & _ & Hc). apply rely_view; [by rewrite Ht | by rewrite Ha | by rewrite Hc].
Qed.

(** Setting a flag others may set. *)
Lemma rely_update i j f s :
  (forall t, same_task t (f t) /\ mailbox (f t) = mailbox t) -> rely i s (update_task j f s).
Proof.
  intros Hf. split; auto.
  - intros t Ht. rewrite update_task_lookup. destruct (decide (j = i)) as [-> | Hne].
    + rewrite Ht. exists (f t), []. rewrite app_nil_r. destruct (Hf t). done.
    + exists t, []. rewrite app_nil_r. by repeat split.
Qed.

Lemma update_task_is_Some i j f s : is_Some (tasks s !! i) -> is_Some (tasks (update_task j f s) !! i).
Proof.
  intros [t Ht]. rewrite update_task_lookup. destruct (decide _); [rewrite Ht |]; eauto.
Qed.

Lemma rely_for_tasks i is_ f s :
  is_Some (tasks s !! i) ->
  (forall t, same_task t (f t) /\ mailbox (f t) = mailbox t) -> rely i s (for_tasks is_ f s).
Proof.
  intros Hi Hf. induction is_ as [| j is_ IH]; [apply rely_refl |]. cbn.
  eapply rely_trans; [done | exact IH | by apply rely_update].
Qed.

Lemma rely_update_other i j f s : j <> i -> rely i s (update_task j f s).
Proof.
  intros Hne. apply rely_view; [by rewrite update_task_lookup, decide_False | done | done].
Qed.

(** A message sent through an active route. *)
Lemma rely_mailbox i j m s :
  (active j s \/ j <> i) -> rely i s (mailbox_try_send j m s).2.
Proof.
  intros Hact. unfold mailbox_try_send. destruct (tasks s !! j) as [tj |] eqn:Htj; [| apply rely_refl].
  destruct (receiver_closed tj) eqn:Hcl; [apply rely_refl |].
  destruct (_ <? _)%nat; [| apply rely_refl]. cbn.
  destruct (decide (j = i)) as [-> | Hne]; [| by apply rely_update_other].
  destruct Hact as [Hact | ?]; [| done]. split; auto.
  intros t Ht. rewrite update_task_lookup, decide_True, Ht by done. eexists _, [m].
  split; [done |]. split; [by repeat split |]. split; [done |].
  intros [(t' & Ht' & Hc') | Hna]; [congruence | done].
Qed.

(** Removing a route that is not the task's, or whose mailbox is closed. *)
Lemma rely_remove_entry i a s :
  (forall r, actors s !! a = Some r -> task r = i -> closed i s) -> rely i s (remove_entry a s).
Proof.
  intros Hcl. unfold remove_entry. destruct (actors s !! a) as [r |] eqn:Ha; [| apply rely_refl].
  split; auto; cbn.
  - intros t Ht. exists t, []. rewrite app_nil_r. by repeat split.
  - intros (b & rb & Hb & Hr). cbn in Hb. apply lookup_delete_Some in Hb as [_ Hb]. by exists b, rb.
  - intros (b & rb & Hb & Hr). cbn in Hb. apply lookup_delete_Some in Hb as [_ Hb]. by exists b, rb.
  - intros (b & rb & Hb & Hr). destruct (decide (a = b)) as [<- | Hne].
    + right. right. apply (Hcl r); [done |]. congruence.
    + left. exists b, rb. split; [| done]. cbn. by rewrite lookup_delete_ne.
Qed.

Section guarantee.
Context (config : ServerConfig).

(** Under the bound a generation names one task. *)
Lemma gen_of_inj s i j :
  spawn_bound s -> i < length (tasks s) -> j < length (tasks s) -> gen_of i = gen_of j -> i = j.
Proof.
  unfold spawn_bound, gen_of. intros Hb Hi Hj Heq. rewrite !Z.mod_small in Heq by lia. lia.
Qed.

Lemma route_of_generation s a r j t :
  state_inv config s -> spawn_bound s ->
  actors s !! a = Some r -> tasks s !! j = Some t -> generation r = task_generation t -> task r = j.
Proof.
  intros Hinv Hb Ha Ht Hg. destruct (inv_routes _ _ Hinv _ _ Ha) as (t' & Ht' & _ & Hg' & _).
  destruct (inv_tasks _ _ Hinv _ _ Ht) as [Hgj _]. destruct (inv_tasks _ _ Hinv _ _ Ht') as [Hgr _].
  apply (gen_of_inj s); [done | by eapply lookup_lt_Some | by eapply lookup_lt_Some | congruence].
Qed.

Lemma rely_remove_route i j t s :
  state_inv config s -> spawn_bound s -> tasks s !! j = Some t -> j <> i ->
  rely i s (remove_route (task_address t) (task_generation t) s).
Proof.
  intros Hinv Hb Ht Hne. unfold remove_route.
  destruct (actors s !! task_address t) as [r |] eqn:Ha; [| apply rely_refl].
  destruct (Z.eqb_spec (generation r) (task_generation t)) as [Hg |]; [| apply rely_refl].
  apply rely_remove_entry. intros r' Hr' Htask. assert (r' = r) as -> by congruence.
  by rewrite (route_of_generation _ _ _ _ _ Hinv Hb Ha Ht Hg) in Htask.
Qed.

Lemma rely_begin_deactivation i j t s :
  state_inv config s -> spawn_bound s -> tasks s !! j = Some t -> j <> i ->
  rely i s (begin_deactivation (task_address t) (task_generation t) j s).2.
Proof.
  intros Hinv Hb Ht Hne. unfold begin_deactivation.
  destruct (actors s !! task_address t) as [r |] eqn:Ha; [| apply rely_refl].
  destruct (Z.eqb_spec (generation r) (task_generation t)) as [Hg |]; cbn; [| apply rely_refl].
  destruct (negb _); [apply rely_refl |]. cbn.
  pose proof (route_of_generation _ _ _ _ _ Hinv Hb Ha Ht Hg) as Hj.
  apply rely_view; [done | | done]. intros b r' Hr'. cbn. rewrite lookup_insert_Some. split.
  - intros [[_ <-] | [_ ?]]; [cbn in Hr'; congruence | done].
  - intros Hb'. right. split; [| done]. intros <-. congruence.
Qed.

Lemma rely_start_route i a m reservation s x s' :
  i < length (tasks s) -> actors s !! a = None ->
  start_route config a m reservation s = Some (x, s') -> rely i s s'.
Proof.
  intros Hi Hnone Hs. unfold start_route in Hs.
  set (permit := match reservation with Some p => _ | None => _ end) in Hs.
  destruct permit as [s1 |] eqn:Hp; subst permit.
  2: { injection Hs as <- <-. apply rely_frame, fail_message_frame. }
  assert (H1 : tasks s1 = tasks s /\ actors s1 = actors s /\ actors_cleared s1 = actors_cleared s).
  { destruct reservation as [p |]; [by injection Hp as <- |].
    unfold try_acquire in Hp. destruct (available s); [done |]. by injection Hp as <-. }
  destruct H1 as (Ht1 & Ha1 & Hc1).
  unfold spawn_actor in Hs. destruct (registrations config !! actor_type a) as [reg |]; [| done].
  match type of Hs with context [mailbox_try_send ?k ?m ?st] =>
    set (s2 := st) in Hs; set (j := k) in Hs end.
  assert (Hj : j = length (tasks s)) by (subst j; cbn; by rewrite Ht1).
  assert (Hlen : length (tasks s) < length (tasks s2)).
  { subst s2. cbn. rewrite length_app, Ht1. cbn. lia. }
  clearbody j.
  set (s3 := with_actors s2 (<[a := MkRoute (next_generation s1) Active j]> (actors s2))).
  assert (H3 : rely i s s3).
  { apply rely_view.
    - subst s3 s2. cbn. rewrite Ht1. by apply lookup_app_l.
    - intros b r Hr. subst s3 s2. cbn. rewrite Ha1, lookup_insert_Some. split.
      + intros [[_ <-] | [_ ?]]; [cbn in Hr; lia | done].
      + intros Hb. right. split; [| done]. intros <-. congruence.
    - subst s3 s2. cbn. by rewrite Hc1. }
  pose proof (rely_mailbox i j m s3 ltac:(right; lia)) as H4.
  destruct (mailbox_try_send_actors j m s2) as ((Hact & _) & _ & _).
  pose proof (mailbox_try_send_with_actors j m s2 (<[a := MkRoute (next_generation s1) Active j]> (actors s2))) as Hcomm.
  fold s3 in Hcomm. rewrite Hcomm in H4.
  assert (Hi' : is_Some (tasks s !! i)) by by apply lookup_lt_is_Some.
  assert (H5 : rely i s (with_actors (mailbox_try_send j m s2).2 (<[a := MkRoute (next_generation s1) Active j]> (actors s2)))).
  { by eapply rely_trans. }
  destruct (mailbox_try_send j m s2) as [outcome s4]. cbn [snd] in *.
  rewrite <- Hact in H5. destruct outcome; injection Hs as <- <-; [done | |];
    (eapply rely_trans; [done | exact H5 | apply rely_frame, drop_message_frame]).
Qed.

Lemma drop_reservation_rely i reservation s : rely i s (drop_reservation reservation s).
Proof. destruct reservation; [| apply rely_refl]. by apply rely_view. Qed.

Lemma rely_dispatch_locked i a m reservation s x s' :
  state_inv config s -> i < length (tasks s) ->
  dispatch_locked config a m reservation s = Some (x, s') -> rely i s s'.
Proof.
  intros Hinv Hi Hd. assert (Hi' : is_Some (tasks s !! i)) by by apply lookup_lt_is_Some.
  unfold dispatch_locked in Hd.
  destruct (actors s !! a) as [r |] eqn:Ha; [| by eapply rely_start_route].
  destruct (state r) eqn:Hst.
  - assert (Hact : active (task r) s) by by exists a, r.
    pose proof (rely_mailbox i (task r) m s (or_introl Hact)) as Hm.
    destruct (mailbox_try_send_actors (task r) m s) as ((Ha' & _) & _ & Hlen).
    assert (Hsend : (mailbox_try_send (task r) m s).1 = SendClosed ->
                    (mailbox_try_send (task r) m s).2 = s /\ closed (task r) s).
    { destruct (inv_routes _ _ Hinv _ _ Ha) as (t & Ht & _). unfold mailbox_try_send. rewrite Ht.
      destruct (receiver_closed t) eqn:Hc; [| by destruct (_ <? _)%nat]. intros _. split; [done |]. by exists t. }
    destruct (mailbox_try_send (task r) m s) as [outcome s1]. cbn [fst snd] in *. destruct outcome.
    + injection Hd as <- <-. eapply rely_trans; [done | exact Hm | apply drop_reservation_rely].
    + injection Hd as <- <-. eapply rely_trans; [done | exact Hm |].
      assert (is_Some (tasks s1 !! i)) by (apply lookup_lt_is_Some; lia).
      eapply rely_trans; [done | apply rely_frame, fail_message_frame | apply drop_reservation_rely].
    + destruct (Hsend eq_refl) as [-> Hcl].
      assert (Hrm : rely i s (remove_entry a s)).
      { apply rely_remove_entry. intros r' Hr' <-. by assert (r' = r) as -> by congruence. }
      eapply rely_trans; [done | exact Hrm |].
      eapply rely_start_route; [| apply remove_entry_lookup | done].
      unfold remove_entry. rewrite Ha. done.
  - injection Hd as <- <-. eapply rely_trans; [done | apply rely_frame, drop_message_frame |].
    apply drop_reservation_rely.
Qed.

Lemma rely_dispatch_if_active i a m s :
  is_Some (tasks s !! i) -> rely i s (dispatch_message_if_active a m s).2.
Proof.
  intros Hi. unfold dispatch_message_if_active.
  destruct (actors s !! a) as [[g [] j] |] eqn:Ha; try apply rely_frame, drop_message_frame.
  assert (Hact : active j s) by by exists a, (MkRoute g Active j).
  pose proof (rely_mailbox i j m s (or_introl Hact)) as Hm.
  destruct (mailbox_try_send j m s) as [[] s1]; cbn in *; [done | |];
    (eapply rely_trans; [done | exact Hm | apply rely_frame, drop_message_frame]).
Qed.

(** The effects of other threads: those that name a task name another one. *)
Definition task_of X (e : runtimeE X) : option TaskId :=
  match e with
  | UserActivate j | UserMessage j _ | UserDeactivate j _ | Select j | CloseReceiver j | RecvClosed j
  | BeginDeactivation j | RemoveRoute j | DropGuard j | DropReceiver j => Some j
  | _ => None
  end.

Definition foreign (i : TaskId) X (e : runtimeE X) : Prop := forall j, task_of X e = Some j -> j <> i.

(** Every effect of another thread stays within the rely of task [i]. *)
Lemma exec_rely i X (e : runtimeE X) x s s' :
  foreign i X e -> exec_effect config X s e x s' -> state_inv config s -> spawn_bound s ->
  is_Some (tasks s !! i) -> rely i s s'.
Proof.
  intros Hf Hex Hinv Hb Hi. pose proof (lookup_lt_is_Some_1 _ _ Hi) as Hlt.
  destruct e; cbn in Hex;
    repeat match goal with H : _ /\ _ |- _ => destruct H | H : exists _, _ |- _ => destruct H end;
    subst; try apply rely_refl; try (apply rely_frame; by repeat split);
    try (assert (i0 <> i) by (by apply Hf)).
  - by eapply rely_dispatch_locked.
  - pose proof (rely_dispatch_if_active i a m s Hi) as H0. by rewrite <- Hex in H0.
  - apply rely_frame, drop_message_frame.
  - apply drop_reservation_rely.
  - destruct x as [[[p |] |] |]; subst; try apply rely_refl. destruct Hex as (s1 & Hacq & -> & ->).
    unfold try_acquire in Hacq. destruct (available s); [done |]. injection Hacq as <-. by apply rely_view.
  - by apply rely_view.
  - by apply rely_view.
  - apply rely_frame, resolve_oneshot_frame.
  - destruct x; repeat match goal with H : _ /\ _ |- _ => destruct H end; subst; try apply rely_refl;
      by apply rely_update_other.
  - by apply rely_update_other.
  - by apply rely_update_other.
  - pose proof (rely_begin_deactivation i i0 x0 s Hinv Hb ltac:(done) ltac:(done)) as Hr. by rewrite <- H0 in Hr.
  - by eapply rely_remove_route.
  - unfold drop_guard. destruct (tasks s !! i0) as [t |] eqn:Ht; [| apply rely_refl].
    eapply rely_trans; [done | by eapply rely_remove_route | by apply rely_update_other].
  - unfold drop_receiver. destruct (tasks s !! i0) as [t |] eqn:Ht; [| apply rely_refl].
    eapply rely_trans; [done | by apply (rely_update_other i i0) | apply rely_frame, drop_messages_frame].
  - unfold shutdown_snapshot in Hex. destruct (status s); injection Hex as -> ->; try apply rely_refl.
    eapply rely_trans; [done | apply (rely_frame i s (with_status s SHUTTING_DOWN)); by repeat split |].
    by apply rely_for_tasks.
  - unfold fence_snapshot in Hex. injection Hex as -> ->.
    eapply rely_trans; [done | apply (rely_frame i s (with_status s FENCED)); by repeat split |].
    by apply rely_for_tasks.
  - by apply rely_for_tasks.
  - split; try done; cbn.
    + intros t Ht. exists t, []. rewrite app_nil_r. by repeat split.
    + intros (a & r & Ha & _). cbn in Ha. by rewrite lookup_empty in Ha.
    + intros (a & r & Ha & _). cbn in Ha. by rewrite lookup_empty in Ha.
    + intros _. by right; left.
Qed.
End guarantee.

(** ** What the task guarantees *)

(** A predicate of the parts of the state that only routing touches. *)
Definition routing_pred (P : ServerState -> Prop) : Prop :=
  forall s s', actors s' = actors s -> tasks s' = tasks s -> actors_cleared s' = actors_cleared s -> P s -> P s'.

Section actor.
Context (config : ServerConfig) (i : TaskId) (a : ActorAddress).

Definition self (P : Task -> Prop) (s : ServerState) : Prop :=
  exists t, tasks s !! i = Some t /\ task_address t = a /\ completed t = false /\ P t.

(** In the loop: the mailbox is open and the task is the routed one. *)
Definition looping (s : ServerState) : Prop :=
  self (fun t => receiver_closed t = false) s /\ (owned i s \/ actors_cleared s = true).

(** After the receiver was closed. *)
Definition draining (s : ServerState) : Prop := self (fun t => receiver_closed t = true) s.

(** Nothing queued, nothing to come. *)
Definition drained (s : ServerState) : Prop := self (fun t => mailbox t = []) s /\ quiet i s.

Definition serving (s : ServerState) : Prop := looping s \/ draining s.

(** Passivating: the routed task of its Actor still, but its route is not active. *)
Definition passive (s : ServerState) : Prop := drained s /\ looping s /\ ~ active i s.

(** What each step of the task requires of the state it takes place in. *)
Definition actor_allowed X (s : ServerState) (e : runtimeE X) : Prop :=
  match e with
  | UserActivate j => j = i /\ looping s
  | Select j => j = i /\ looping s
  | UserMessage j _ => j = i /\ serving s
  | UserDeactivate j Idle => j = i /\ passive s
  | UserDeactivate j Shutdown => j = i /\ drained s
  | ReleaseOwner b => b = a /\ passive s
  | CloseReceiver j => j = i /\ looping s
  | RecvClosed j => j = i /\ draining s
  | BeginDeactivation j => j = i /\ looping s
  | RemoveRoute j => j = i /\ quiet i s
  | DropGuard j | DropReceiver j => j = i
  | UnregisterActor b _ | Sink b _ | HasLiveSessions b | ActorSnapshot b => b = a
  | CompleteOneshot _ _ | TrySend _ _ => True
  | _ => False
  end.

(** The environment between two steps of the task. *)
Definition relies (s s' : ServerState) : Prop := rely i s s' /\ state_inv config s' /\ spawn_bound s'.

Definition actor_monitor : monitor runtimeE ServerState :=
  Monitor runtimeE ServerState
    (fun X s e => forall s1, relies s s1 -> actor_allowed X s1 e)
    (fun X s e x s' => exists s1, relies s s1 /\ exec_effect config X s1 e x s').

Definition stable (P : ServerState -> Prop) : Prop := forall s s', relies s s' -> P s -> P s'.

Lemma self_stable P :
  (forall t t', same_task t t' -> mailbox t' = mailbox t \/ True -> P t -> P t') ->
  (forall s s', rely i s s' -> self P s -> self P s').
Proof.
  intros HP s s' Hr (t & Ht & Ha & Hc & Hp).
  destruct (rely_task _ _ _ Hr _ Ht) as (t' & l & Ht' & Hs & _). pose proof Hs as (H1 & H2 & H3 & H4 & H5).
  exists t'. split_and!; [done | congruence | congruence |]. by eapply HP; [| right |].
Qed.

Lemma self_some P s : self P s -> is_Some (tasks s !! i).
Proof. intros (t & Ht & _). eauto. Qed.

Lemma looping_stable : stable looping.
Proof.
  intros s s' (Hr & _) [Hs Ho]. split.
  - eapply self_stable; [| done | done]. intros t t' (_ & _ & -> & _) _. done.
  - destruct Ho as [Ho | Hc]; [| right; by apply (rely_cleared _ _ _ Hr)].
    destruct (rely_owned _ _ _ Hr Ho) as [? | [? | (t & Ht & Hcl)]]; auto.
    destruct Hs as (t' & Ht' & _ & _ & Hop). congruence.
Qed.

Lemma draining_stable : stable draining.
Proof.
  intros s s' (Hr & _) Hs. eapply self_stable; [| done | done]. intros t t' (_ & _ & -> & _) _. done.
Qed.

Lemma draining_quiet s : draining s -> quiet i s.
Proof. intros (t & Ht & _ & _ & Hc). left. by exists t. Qed.

Lemma drained_stable : stable drained.
Proof.
  intros s s' (Hr & _) [(t & Ht & Ha & Hc & Hm) Hq].
  split; [| by eapply rely_quiet].
  destruct (rely_task _ _ _ Hr _ Ht) as (t' & l & Ht' & (H1 & _ & _ & _ & H5) & Hm' & Hl).
  exists t'. split_and!; [done | congruence | congruence |]. by rewrite Hm', Hm, (Hl Hq).
Qed.

Lemma passive_stable : stable passive.
Proof.
  intros s s' Hr (Hd & Hl & Ha). split_and!; [by eapply drained_stable | by eapply looping_stable |].
  intros Hact. by apply Ha, (rely_active_back _ _ _ (proj1 Hr)).
Qed.

Lemma quiet_self_stable P :
  (forall t t', same_task t t' -> P t -> P t') -> stable (fun s => self P s /\ quiet i s).
Proof.
  intros HP s s' (Hr & _) [Hs Hq]. split.
  - eapply self_stable; [| done | done]. intros t t' Ht _. by apply HP.
  - by eapply rely_quiet; [eapply self_some | |].
Qed.

Lemma routing_pred_quiet : routing_pred (quiet i).
Proof.
  intros s s' Ha Ht Hc [(t & Hl & Hcl) | Hq]; [left; exists t; by rewrite Ht |].
  right. intros (b & r & Hb & ?). apply Hq. exists b, r. by rewrite <- Ha.
Qed.

Lemma routing_pred_self P : routing_pred (self P).
Proof. intros s s' Ha Ht Hc (t & ?). exists t. by rewrite Ht. Qed.

Lemma routing_pred_looping : routing_pred looping.
Proof.
  intros s s' Ha Ht Hc [Hs Ho]. split; [by eapply routing_pred_self |]. rewrite Hc.
  destruct Ho as [(b & r & Hb & ?) | ?]; [| by right]. left. exists b, r. by rewrite Ha.
Qed.

Lemma routing_pred_drained : routing_pred drained.
Proof.
  intros s s' Ha Ht Hc [Hs Hq]. split; [by eapply routing_pred_self | by eapply routing_pred_quiet].
Qed.

Lemma routing_pred_passive : routing_pred passive.
Proof.
  intros s s' Ha Ht Hc (Hd & Hl & Hna). split_and!; [by eapply routing_pred_drained | by eapply routing_pred_looping |].
  intros (b & r & Hb & ?). apply Hna. exists b, r. by rewrite <- Ha.
Qed.

(** One step of the task from a stable predicate. *)
Lemma actor_call P A X (e : runtimeE X) (k : X -> proc runtimeE A) s (Q : A -> ServerState -> Prop) :
  stable P -> P s ->
  (forall s1, P s1 -> state_inv config s1 -> spawn_bound s1 -> actor_allowed X s1 e) ->
  (forall s1 x s', P s1 -> state_inv config s1 -> spawn_bound s1 -> exec_effect config X s1 e x s' ->
                   wp actor_monitor s' (k x) Q) ->
  wp actor_monitor s (Call e k) Q.
Proof.
  intros Hst HP Hal Hk. cbn. split.
  - intros s1 Hr. pose proof Hr as (_ & Hinv & Hb). eauto.
  - intros x s' (s1 & Hr & Hex). pose proof Hr as (_ & Hinv & Hb). eauto.
Qed.

(** A step that leaves tasks and routes alone. *)
Definition routing_neutral X (e : runtimeE X) : Prop :=
  match e with
  | UnregisterActor b _ | Sink b _ | HasLiveSessions b | ActorSnapshot b => b = a
  | CompleteOneshot _ _ | TrySend _ _ => True
  | _ => False
  end.

Lemma neutral_call P A X (e : runtimeE X) (k : X -> proc runtimeE A) s (Q : A -> ServerState -> Prop) :
  stable P -> routing_pred P -> routing_neutral X e -> P s ->
  (forall x s', P s' -> wp actor_monitor s' (k x) Q) ->
  wp actor_monitor s (Call e k) Q.
Proof.
  intros Hst Hrp Hn HP Hk. eapply actor_call; [exact Hst | exact HP | |].
  - intros s1 _ _ _. by destruct e.
  - intros s1 x s' HP1 _ _ Hex. apply Hk. eapply Hrp; [..| exact HP1];
      (destruct e; cbn in Hn, Hex; try done;
       repeat match goal with H : _ /\ _ |- _ => destruct H end; subst; try done;
       unfold complete_oneshot, resolve_oneshot; by destruct (oneshots s1 !! o) as [[] |]).
Qed.

Lemma terminate_each_wp P sids error s :
  stable P -> routing_pred P -> P s ->
  wp actor_monitor s (terminate_each a sids error) (fun _ => P).
Proof.
  intros Hst Hrp. revert s. induction sids as [| sid sids IH]; intros s HP; [done |].
  cbn [terminate_each]. apply wp_bind. unfold terminate.
  eapply neutral_call; [done.. |]. intros bound s1 HP1.
  eapply neutral_call; [done.. |]. intros _ s2 HP2.
  destruct bound as [sender |]; [| by apply IH].
  eapply neutral_call; [done.. |]. intros _ s3 HP3. by apply IH.
Qed.

Lemma terminate_all_wp P error s :
  stable P -> routing_pred P -> P s -> wp actor_monitor s (terminate_all a error) (fun _ => P).
Proof.
  intros Hst Hrp HP. unfold terminate_all. eapply neutral_call; [done.. |].
  intros sids s1 HP1. by apply terminate_each_wp.
Qed.

Lemma execute_message_wp P m s :
  stable P -> routing_pred P -> (forall s, P s -> serving s) -> P s ->
  wp actor_monitor s (execute_message i m) (fun _ => P).
Proof.
  intros Hst Hrp Hserv HP. unfold execute_message.
  eapply actor_call; [done | done | intros s1 HP1 _ _; split; [done | by apply Hserv] |].
  intros s1 ok s' HP1 _ _ (l & ->).
  assert (HP' : P (with_outbox s1 (outbox s1 ++ l))) by by apply (Hrp s1).
  destruct m; [done | | done].
  eapply neutral_call; [done.. |]. by intros.
Qed.

(** *** Draining a closed mailbox *)
Lemma recv_closed_step s1 x s' :
  draining s1 -> exec_effect config _ s1 (RecvClosed i) x s' ->
  draining s' /\ (x = None -> drained s').
Proof.
  intros (t & Ht & Ha & Hc & Hcl) (t0 & Ht0 & -> & ->). assert (t0 = t) as -> by congruence.
  assert (Hl : tasks (update_task i (fun t => with_mailbox t (tail (mailbox t))) s1) !! i
               = Some (with_mailbox t (tail (mailbox t)))).
  { by rewrite update_task_lookup, decide_True, Ht. }
  assert (Hd : draining (update_task i (fun t => with_mailbox t (tail (mailbox t))) s1)) by by eexists.
  split; [done |]. intros Hnone. split; [| by apply draining_quiet]. eexists. split; [exact Hl |].
  split_and!; [done | done |]. cbn. by destruct (mailbox t).
Qed.

Definition drained_closed (s : ServerState) : Prop := draining s /\ drained s.

Lemma fail_pending_wp fuel error s :
  draining s ->
  wp actor_monitor s (fail_pending fuel i error) (fun done_ s' => if done_ then drained s' else True).
Proof.
  revert s. induction fuel as [| fuel IH]; intros s Hd; [done |]. cbn [fail_pending].
  eapply actor_call; [apply draining_stable | done | by intros; split |].
  intros s1 m s' Hd1 _ _ Hex. destruct (recv_closed_step _ _ _ Hd1 Hex) as [Hd' Hdone].
  destruct m as [[] |]; [by apply IH | | by apply IH | by apply Hdone].
  eapply neutral_call; [apply draining_stable | apply routing_pred_self | done | done |].
  intros _ s2 Hd2. by apply IH.
Qed.

Lemma drain_wp fuel s :
  draining s ->
  wp actor_monitor s (drain fuel i) (fun r s' => match r with
                                                | Some true => drained s'
                                                | Some false => True
                                                | None => draining s'
                                                end).
Proof.
  revert s. induction fuel as [| fuel IH]; intros s Hd; [done |]. cbn [drain].
  eapply actor_call; [apply draining_stable | done | by intros; split |].
  intros s1 m s' Hd1 _ _ Hex. destruct (recv_closed_step _ _ _ Hd1 Hex) as [Hd' Hdone].
  destruct m as [m |]; [| by apply Hdone].
  apply wp_bind. eapply wp_mono; [| apply (execute_message_wp draining);
    [apply draining_stable | apply routing_pred_self | by right | done]].
  intros [] s2 Hd2; [by apply IH | done].
Qed.

(** *** The ends of the task *)
Definition exit_post (reason : exit_reason) (s : ServerState) : Prop :=
  match reason with
  | Cut | CrashExit => True
  | ClosedExit => False
  | _ => drained s
  end.

Lemma remove_route_step P s1 x s' :
  self P s1 -> quiet i s1 -> exec_effect config _ s1 (RemoveRoute i) x s' -> self P s' /\ quiet i s'.
Proof.
  intros (t & Ht & Ha & Hc & Hp) Hq (t0 & Ht0 & ->). assert (t0 = t) as -> by congruence.
  split; [exists t; by rewrite remove_route_tasks |].
  destruct Hq as [(t0 & Hl & Hcl) | Hq]; [left; exists t0; by rewrite remove_route_tasks |].
  right. intros (b & r & Hb & Hr). apply Hq. exists b, r. split; [| done].
  unfold remove_route, remove_entry in Hb. destruct (actors s1 !! task_address t) eqn:Hl; [| done].
  destruct (_ =? _)%Z; [| done]. cbn in Hb. by apply lookup_delete_Some in Hb as [_ ?].
Qed.

Lemma close_receiver_step s1 x s' :
  looping s1 -> exec_effect config _ s1 (CloseReceiver i) x s' -> draining s'.
Proof.
  intros [(t & Ht & Ha & Hc & Hcl) _] ->. eexists. rewrite update_task_lookup, decide_True, Ht by done.
  by split.
Qed.

Lemma fail_activation_wp fuel error s :
  looping s -> wp actor_monitor s (fail_activation fuel i a error) exit_post.
Proof.
  intros Hl. unfold fail_activation.
  eapply actor_call; [apply looping_stable | done | by intros; split |].
  intros s1 [] s2 Hl1 _ _ Hex. apply close_receiver_step in Hex; [| done].
  eapply actor_call; [apply draining_stable | done | intros; split; [done | by apply draining_quiet] |].
  intros s3 [] s4 Hd _ _ Hex'.
  destruct (remove_route_step (fun t => receiver_closed t = true) _ _ _ Hd (draining_quiet _ Hd) Hex') as [Hd' _].
  apply wp_bind. eapply wp_mono; [| by apply fail_pending_wp].
  intros [] s5 Hpost; [| done]. cbn [negb].
  apply wp_bind. eapply wp_mono; [| apply (terminate_all_wp drained); [apply drained_stable | apply routing_pred_drained | done]].
  by intros [] s6.
Qed.

Lemma shutdown_branch_wp fuel s :
  looping s -> wp actor_monitor s (shutdown_branch fuel i a) exit_post.
Proof.
  intros Hl. unfold shutdown_branch.
  eapply actor_call; [apply looping_stable | done | by intros; split |].
  intros s1 [] s2 Hl1 _ _ Hex. apply close_receiver_step in Hex; [| done].
  apply wp_bind. eapply wp_mono; [| by apply drain_wp].
  intros [[] |] s3 Hd; [| done |].
  - apply wp_bind. eapply wp_mono; [| apply (terminate_all_wp drained); [apply drained_stable | apply routing_pred_drained | done]].
    intros [] s4 Hd4.
    eapply actor_call; [apply drained_stable | done | by intros; split |].
    intros s5 [] s6 Hd5 _ _ (l & ->).
    eapply actor_call; [apply drained_stable | by apply (routing_pred_drained s5) |
                        intros s7 [_ Hq] _ _; by split |].
    intros s7 [] s8 [Hs7 Hq7] _ _ Hex7. by eapply remove_route_step.
  - apply wp_bind. eapply wp_mono; [| apply (terminate_all_wp draining); [apply draining_stable | apply routing_pred_self | done]].
    done.
Qed.

Lemma passivate_wp s : passive s -> wp actor_monitor s (passivate config i a) exit_post.
Proof.
  intros Hd. unfold passivate.
  assert (Hfin : forall s, drained s -> wp actor_monitor s (exec! RemoveRoute i; Ret IdleExit) exit_post).
  { intros s0 Hd0. eapply actor_call; [apply drained_stable | done | intros s7 [_ Hq] _ _; by split |].
    intros s7 [] s8 [Hs7 Hq7] _ _ Hex7. by eapply remove_route_step. }
  eapply actor_call; [apply passive_stable | done | by intros; split |].
  intros s5 [] s6 Hd5 _ _ (l & ->).
  assert (Hd6 : passive (with_outbox s5 (outbox s5 ++ l))) by by apply (routing_pred_passive s5).
  destruct (clustered config); [| apply Hfin, Hd6].
  eapply actor_call; [apply passive_stable | done | by intros; split |].
  intros s7 x s8 Hd7 _ _ ->. apply Hfin, Hd7.
Qed.

(** A deactivation that begins leaves nothing queued and nothing to come, in a
    route that stays but is not active. *)
Lemma begin_deactivation_step s1 (x : bool) s' :
  looping s1 -> state_inv config s1 -> spawn_bound s1 ->
  exec_effect config _ s1 (BeginDeactivation i) x s' ->
  if x then passive s' else looping s'.
Proof.
  intros Hl Hinv Hb (t & Ht & Hex). pose proof Hl as [(t0 & Ht0 & Ha & Hc & Hcl) Hown].
  assert (t0 = t) as -> by congruence. unfold begin_deactivation in Hex.
  destruct (actors s1 !! task_address t) as [r |] eqn:Hr; [| by injection Hex as -> ->].
  rewrite Ht in Hex. cbn [from_option] in Hex.
  destruct (Z.eqb_spec (generation r) (task_generation t)) as [Hg | Hg]; cbn [negb orb] in Hex;
    [| by injection Hex as -> ->].
  destruct (Nat.eqb_spec (length (mailbox t)) 0) as [Hlen | Hlen]; cbn [negb] in Hex; [| by injection Hex as -> ->].
  injection Hex as -> ->.
  match goal with |- passive ?st => assert (Hna : ~ active i st) end.
  { intros (b & r' & Hb' & Htask & Hst). cbn in Hb'. apply lookup_insert_Some in Hb' as [[_ <-] | [Hne Hb']]; [done |].
    destruct (inv_routes _ _ Hinv _ _ Hb') as (t' & Ht' & Hta & _). rewrite Htask in Ht'.
    assert (t' = t) as -> by congruence. done. }
  split_and!; [split; [| by right] | | exact Hna].
  - exists t. split_and!; [done | done | done |]. by apply length_zero_iff_nil.
  - split; [by exists t |]. left. cbn. exists (task_address t). eexists. split; [apply lookup_insert_eq |].
    cbn. by eapply (route_of_generation config).
Qed.

(** What the loop wakes up to keeps it the routed task. *)
Lemma select_step s1 (x : wakeup) s' :
  looping s1 -> exec_effect config _ s1 (Select i) x s' ->
  looping s' /\ x <> MailboxClosed.
Proof.
  intros [(t & Ht & Ha & Hc & Hcl) Ho] (t0 & Ht0 & Hex). assert (t0 = t) as -> by congruence.
  assert (Hupd : forall f, task_address (f t) = task_address t -> completed (f t) = completed t ->
                   receiver_closed (f t) = receiver_closed t -> looping (update_task i f s1)).
  { intros f H1 H2 H3. split; [| done]. exists (f t). rewrite update_task_lookup, decide_True, Ht by done.
    split_and!; try done; congruence. }
  assert (Hself : looping s1) by (split; [by exists t | done]).
  destruct x; cbn in Hex.
  - destruct Hex as [_ ->]. split; [by apply Hupd | done].
  - destruct Hex as (_ & _ & ->). done.
  - destruct Hex as (_ & _ & _ & ->). split; [by apply (Hupd (fun t => with_mailbox t _)) | done].
  - destruct Hex as (_ & _ & Hcl' & _). congruence.
  - destruct Hex as (_ & _ & _ & _ & ->). done.
Qed.

Lemma actor_loop_wp fuel s : looping s -> wp actor_monitor s (actor_loop config fuel i a) exit_post.
Proof.
  revert s. induction fuel as [| fuel IH]; intros s Hl; [done |]. cbn [actor_loop].
  eapply actor_call; [apply looping_stable | done | by intros; split |].
  intros s1 woke s2 Hl1 _ _ Hex. destruct (select_step _ _ _ Hl1 Hex) as [Hl2 Hnc].
  destruct woke as [| | m | |]; [by apply shutdown_branch_wp | by apply IH | | done |].
  - apply wp_bind. eapply wp_mono; [| apply (execute_message_wp looping);
      [apply looping_stable | apply routing_pred_looping | by left | done]].
    intros [] s3 Hl3; [by apply IH |].
    apply wp_bind. eapply wp_mono; [| apply (terminate_all_wp looping); [apply looping_stable | apply routing_pred_looping | done]].
    done.
  - eapply neutral_call; [apply looping_stable | apply routing_pred_looping | done | done |].
    intros live s3 Hl3. destruct live; [by apply IH |].
    eapply actor_call; [apply looping_stable | done | by intros; split |].
    intros s4 began s5 Hl4 Hinv4 Hb4 Hex4.
    pose proof (begin_deactivation_step _ _ _ Hl4 Hinv4 Hb4 Hex4) as Hbd.
    destruct began; cbn [negb]; [by apply passivate_wp | by apply IH].
Qed.

Lemma actor_body_wp fuel s : looping s -> wp actor_monitor s (actor_body config fuel i a) exit_post.
Proof.
  intros Hl. unfold actor_body.
  eapply actor_call; [apply looping_stable | done | by intros; split |].
  intros s1 act s2 Hl1 _ _ (l & ->).
  assert (Hl2 : looping (with_outbox s1 (outbox s1 ++ l))) by by apply (routing_pred_looping s1).
  destruct act; [by apply actor_loop_wp | by apply fail_activation_wp | by apply fail_activation_wp].
Qed.

Lemma drop_task_wp s : wp actor_monitor s (drop_task i) (fun _ _ => True).
Proof. cbn. split; [done |]. intros _ s1 _. split; [done |]. by intros. Qed.

Lemma actor_task_wp fuel s : looping s -> wp actor_monitor s (actor_task config fuel i a) (fun _ _ => True).
Proof.
  intros Hl. unfold actor_task. apply wp_bind. eapply wp_mono; [| by apply actor_body_wp].
  intros reason s1 _. destruct reason; try done; apply drop_task_wp.
Qed.
End actor.
