(* ===== verification/RuntimeWorld.v ===== *)
(** * The Server runtime, concurrently

    A world is the shared state of [Runtime] and the procedures in flight:
    inbound envelopes, closed connections, actor tasks, shutdowns and fences.  A
    step runs one atomic access of one of them.  The theorems hold in every
    reachable world: the invariant of [RuntimeInv], the guarantee of
    [RuntimeActor], and what they mean for capacity, exclusivity and
    passivation; two executions show races the source admits. *)

From S2P Require Import Prelude Text Address Transport Session Runtime RuntimeInv RuntimeActor.
Import Registry.

(** A procedure in flight: an actor task of its id, or anything else. *)
Inductive thread :=
| ThActor (i : TaskId) (p : proc runtimeE unit)
| ThOther (p : proc runtimeE unit).

Definition thread_task (th : thread) : option TaskId :=
  match th with
  | ThActor i _ => Some i
  | ThOther _ => None
  end.

Definition thread_proc (th : thread) : proc runtimeE unit :=
  match th with
  | ThActor _ p => p
  | ThOther p => p
  end.

Definition thread_continue (th : thread) (p : proc runtimeE unit) : thread :=
  match th with
  | ThActor i _ => ThActor i p
  | ThOther _ => ThOther p
  end.

Record world := MkWorld {
  server : ServerState;
  threads : list thread
}.

Section world.
Context (config : ServerConfig).

Definition initial_world : world := MkWorld (initial_state config) [].

(** The threads a Server starts by itself. *)
Inductive entry : proc runtimeE unit -> Prop :=
| entry_inbound e reply : entry (dispatch_inbound config e reply)
| entry_disconnect sender : entry (close_sessions_for_sender sender)
| entry_broadcast a payload : entry (broadcast_event a payload)
| entry_shutdown : entry (bind! _ := shutdown; Ret ())
| entry_fence : entry fence.

Inductive world_step : world -> world -> Prop :=
| step_call s s' ths j th X (e : runtimeE X) k x :
    ths !! j = Some th -> thread_proc th = Call e k -> exec_effect config X s e x s' ->
    world_step (MkWorld s ths) (MkWorld s' (<[j := thread_continue th (k x)]> ths))
| step_entry s ths p :
    entry p -> world_step (MkWorld s ths) (MkWorld s (ths ++ [ThOther p]))
| step_spawn s ths i t fuel :
    tasks s !! i = Some t -> (forall th, th ∈ ths -> thread_task th <> Some i) ->
    world_step (MkWorld s ths)
      (MkWorld s (ths ++ [ThActor i (actor_task config fuel i (task_address t))]))
| step_abort s ths j i p t :
    ths !! j = Some (ThActor i p) -> tasks s !! i = Some t ->
    abort_requested t = true -> completed t = false ->
    world_step (MkWorld s ths) (MkWorld s (<[j := ThActor i (drop_task i)]> ths)).

Definition reachable (w : world) : Prop := rtc world_step initial_world w.

(** ** Procedures that are not actor tasks *)

(** They name no task, and use registered Actor Types only. *)
Definition static_monitor : monitor runtimeE unit :=
  Monitor runtimeE unit
    (fun X _ e => static_allowed config X e /\ task_of X e = None)
    (fun X _ e => match e in runtimeE X return X -> unit -> Prop with
                  | Sink a _ => fun x _ => is_Some x -> registered config a
                  | _ => fun _ _ => True
                  end).

Lemma static_call A X (e : runtimeE X) (k : X -> proc runtimeE A) (Q : A -> unit -> Prop) :
  static_allowed config X e -> task_of X e = None ->
  (forall x, wp static_monitor () (k x) Q) -> wp static_monitor () (Call e k) Q.
Proof. intros H1 H2 Hk. split; [done |]. intros x []. done. Qed.

Ltac static1 := apply static_call; [done | done | intros ?].
Ltac static := repeat static1.

Lemma dispatch_message_static a m reservation :
  registered config a ->
  wp static_monitor () (dispatch_message a m reservation) (fun _ _ => True).
Proof.
  intros Ha. unfold dispatch_message, dispatch_guard. apply wp_bind.
  apply static_call; [done | done |]. intros invalid. destruct invalid; [by static |].
  apply static_call; [done | done |]. intros []; by static.
Qed.

Lemma open_local_session_static a sid sender reservation :
  wp static_monitor () (open_local_session config a sid sender reservation) (fun _ _ => True).
Proof.
  unfold open_local_session. destruct (registrations config !! actor_type a) as [r |] eqn:Hr; [| by static].
  assert (Ha : registered config a) by (by exists r).
  apply static_call; [done | done |]. intros []; cbn [negb]; [| by static].
  apply static_call; [done | done |]. intros complete. apply wp_bind.
  eapply wp_mono; [| by apply dispatch_message_static]. intros [] [] _; [| by static].
  apply static_call; [done | done |]. intros [[] |]; by static.
Qed.

Lemma close_local_session_static a sid :
  wp static_monitor () (close_local_session a sid) (fun _ _ => True).
Proof.
  unfold close_local_session. apply static_call; [done | done |]. intros []; by static.
Qed.

Lemma send_session_error_static reply sid error :
  wp static_monitor () (send_session_error reply sid error) (fun _ _ => True).
Proof. unfold send_session_error. destruct reply; by static. Qed.

Lemma bound_to_reply_static a sid reply :
  wp static_monitor () (bound_to_reply a sid reply) (fun _ _ => True).
Proof. unfold bound_to_reply. destruct reply; by static. Qed.

Lemma dispatch_inbound_static e reply :
  wp static_monitor () (dispatch_inbound config e reply) (fun _ _ => True).
Proof.
  unfold dispatch_inbound. destruct (parse_inbound e) as [[a sid version kind] |]; [| done].
  destruct kind; try done.
  - destruct (negb _); [done |]. apply wp_bind. eapply wp_mono; [| apply bound_to_reply_static].
    intros [] [] _; cbn [negb]; [| apply send_session_error_static].
    apply wp_bind. unfold dispatch_remote_message. split; [done |]. intros [c |] [] Hreg; cbn in Hreg.
    + eapply wp_mono; [| apply dispatch_message_static; by apply Hreg].
      intros [] [] _; [done | apply send_session_error_static].
    + apply send_session_error_static.
  - apply wp_bind. eapply (wp_mono _ _ _ (fun _ _ => True)).
    + intros r [] _. destruct reply; by static.
    + destruct (negb _); [done |]. destruct reply as [sender |]; [| done].
      unfold resolve_and_open. destruct (clustered config); [| apply open_local_session_static].
      apply static_call; [done | done |]. intros [[] |]; [apply open_local_session_static | done | done].
  - apply wp_bind. eapply wp_mono; [| apply bound_to_reply_static].
    intros [] [] _; [apply close_local_session_static | done].
Qed.

Lemma close_sessions_static l : wp static_monitor () (close_sessions l) (fun _ _ => True).
Proof.
  induction l as [| [a sid] l IH]; [done |]. cbn [close_sessions]. apply wp_bind.
  eapply wp_mono; [| apply close_local_session_static]. by intros _ [] _.
Qed.

Lemma deliver_events_static a sids payload :
  wp static_monitor () (deliver_events a sids payload) (fun _ _ => True).
Proof.
  induction sids as [| sid sids IH]; [done |]. cbn [deliver_events]. apply wp_bind. unfold deliver_event.
  apply static_call; [done | done |]. intros [c |]; [| exact IH].
  apply static_call; [done | done |]. intros ok. exact IH.
Qed.

Lemma terminate_each_static a sids error :
  wp static_monitor () (terminate_each a sids error) (fun _ _ => True).
Proof.
  induction sids as [| sid sids IH]; [done |]. cbn [terminate_each]. apply wp_bind. unfold terminate.
  static. destruct x as [c |]; [| exact IH]. static. exact IH.
Qed.

Lemma terminate_all_sessions_static error :
  wp static_monitor () (terminate_all_sessions error) (fun _ _ => True).
Proof.
  unfold terminate_all_sessions. static. induction x as [| a l IH]; [done |].
  cbn [terminate_addresses]. apply wp_bind. unfold terminate_all. static.
  eapply wp_mono; [| apply terminate_each_static]. by intros _ [] _.
Qed.

Lemma entry_static p : entry p -> wp static_monitor () p (fun _ _ => True).
Proof.
  intros [].
  - apply dispatch_inbound_static.
  - unfold close_sessions_for_sender. static. apply close_sessions_static.
  - unfold broadcast_event. static. apply deliver_events_static.
  - assert (Hend : forall timed_out : bool, wp static_monitor ()
      (bind! _ := terminate_all_sessions RuntimeShuttingDown;
       exec! AbortInboundTasks; exec! StoreStatus STOPPED;
       Ret (if timed_out then ShutdownTimedOut else ShutdownOk)) (fun _ _ => True)).
    { intros timed_out. apply wp_bind. eapply wp_mono; [| apply terminate_all_sessions_static].
      intros [] [] _. by static. }
    apply wp_bind. eapply (wp_mono _ _ _ (fun _ _ => True)); [done |].
    unfold shutdown. static1. destruct x as [is_ |]; [| done]. static1.
    destruct x; [| exact (Hend false)]. static1. static1. exact (Hend true).
  - unfold fence. do 4 static1. apply wp_bind. eapply wp_mono; [| apply terminate_all_sessions_static].
    intros [] [] _. by static.
Qed.

(** ** New tasks *)
Lemma for_tasks_length is_ f s : length (tasks (for_tasks is_ f s)) = length (tasks s).
Proof. induction is_ as [| i is_ IH]; [done |]. cbn. by rewrite length_alter. Qed.

Lemma start_route_new a m reservation s x s' :
  start_route config a m reservation s = Some (x, s') ->
  tasks s' = tasks s \/
  exists t, length (tasks s') = S (length (tasks s)) /\ tasks s' !! length (tasks s) = Some t /\
            looping (length (tasks s)) (task_address t) s'.
Proof.
  intros Hs. unfold start_route in Hs.
  set (permit := match reservation with Some p => _ | None => _ end) in Hs.
  destruct permit as [s1 |] eqn:Hp; subst permit.
  2: { injection Hs as <- <-. left. apply fail_message_frame. }
  assert (Ht1 : tasks s1 = tasks s).
  { destruct reservation as [p |]; [by injection Hp as <- |].
    unfold try_acquire in Hp. destruct (available s); [done |]. by injection Hp as <-. }
  unfold spawn_actor in Hs. destruct (registrations config !! actor_type a) as [reg |]; [| done].
  match type of Hs with context [mailbox_try_send ?k ?m ?st] => set (s2 := st) in Hs; set (j := k) in Hs end.
  assert (Hj : j = length (tasks s)) by (subst j; cbn; by rewrite Ht1).
  assert (Hl2 : tasks s2 !! j = Some (MkTask a (next_generation s1) [] (mailbox_capacity reg) false false false false false)).
  { rewrite Hj. subst s2. cbn [tasks with_tasks with_generation]. rewrite Ht1. by apply list_lookup_middle. }
  assert (Hlen2 : length (tasks s2) = S (length (tasks s))).
  { subst s2. cbn. rewrite length_app, Ht1. cbn. lia. }
  destruct (mailbox_try_send_actors j m s2) as ((Hact & _) & _ & Hlen).
  assert (Hl3 : exists t, tasks (mailbox_try_send j m s2).2 !! j = Some t /\ task_address t = a /\
                          completed t = false /\ receiver_closed t = false).
  { unfold mailbox_try_send. rewrite Hl2. cbn [receiver_closed]. destruct (_ <? _)%nat; [| by eexists].
    cbn [snd]. eexists. rewrite update_task_lookup, decide_True, Hl2 by done. by split. }
  destruct Hl3 as (t & Hlt & Hta & Htc & Htcl). clearbody j. subst j.
  right. exists t. destruct (mailbox_try_send (length (tasks s)) m s2) as [outcome s4]. cbn [snd] in *.
  set (s5 := with_actors s4 _) in Hs.
  assert (H5 : length (tasks s5) = S (length (tasks s)) /\ tasks s5 !! length (tasks s) = Some t /\
               looping (length (tasks s)) (task_address t) s5).
  { split; [subst s5; cbn; congruence |]. split; [done |]. split; [by exists t |]. left.
    exists a, (MkRoute (next_generation s1) Active (length (tasks s))). split; [| done].
    subst s5. cbn. apply lookup_insert_eq. }
  assert (Hframe : forall s6, frame s5 s6 ->
    length (tasks s6) = S (length (tasks s)) /\ tasks s6 !! length (tasks s) = Some t /\
    looping (length (tasks s)) (task_address t) s6).
  { intros s6 ((Ha & _) & Ht & _ & Hc). destruct H5 as (H51 & H52 & H53). rewrite Ht.
    split; [done |]. split; [done |]. by apply (routing_pred_looping _ _ s5). }
  destruct outcome; injection Hs as <- <-; [apply H5 | apply Hframe, drop_message_frame | apply Hframe, drop_message_frame].
Qed.

Lemma mailbox_try_send_length i m s : length (tasks (mailbox_try_send i m s).2) = length (tasks s).
Proof. apply mailbox_try_send_actors. Qed.

Lemma dispatch_locked_new a m reservation s x s' :
  dispatch_locked config a m reservation s = Some (x, s') ->
  length (tasks s') = length (tasks s) \/
  exists t, length (tasks s') = S (length (tasks s)) /\ tasks s' !! length (tasks s) = Some t /\
            looping (length (tasks s)) (task_address t) s'.
Proof.
  unfold dispatch_locked. intros H0. destruct (actors s !! a) as [r |] eqn:Ha.
  2: { apply start_route_new in H0. destruct H0 as [-> |]; [by left | by right]. }
  destruct (state r).
  - pose proof (mailbox_try_send_length (task r) m s) as Hlen.
    assert (Hsend : (mailbox_try_send (task r) m s).1 = SendClosed -> (mailbox_try_send (task r) m s).2 = s).
    { unfold mailbox_try_send. destruct (tasks s !! task r) as [t |]; [| done].
      destruct (receiver_closed t); [done |]. by destruct (_ <? _)%nat. }
    destruct (mailbox_try_send (task r) m s) as [[] s1]; cbn [fst snd] in *.
    + injection H0 as <- <-. left. by destruct reservation.
    + injection H0 as <- <-. left. destruct (fail_message_frame m MailboxFull s1) as (_ & Ht & _).
      destruct reservation; cbn; by rewrite Ht.
    + rewrite (Hsend eq_refl) in H0. apply start_route_new in H0.
      assert (Hrm : tasks (remove_entry a s) = tasks s) by (unfold remove_entry; by rewrite Ha).
      rewrite Hrm in H0. destruct H0 as [-> |]; [by left | by right].
  - injection H0 as <- <-. left. destruct (drop_message_frame m s) as (_ & Ht & _).
    destruct reservation; cbn; by rewrite Ht.
Qed.

Lemma exec_new X (e : runtimeE X) x s s' :
  exec_effect config X s e x s' ->
  length (tasks s') = length (tasks s) \/
  exists t, length (tasks s') = S (length (tasks s)) /\ tasks s' !! length (tasks s) = Some t /\
            looping (length (tasks s)) (task_address t) s'.
Proof.
  intros Hex. destruct e; cbn in Hex;
    repeat match goal with H : _ /\ _ |- _ => destruct H | H : exists _, _ |- _ => destruct H end;
    subst; try (by left); try (left; cbn; by rewrite ?length_alter).
  - by eapply dispatch_locked_new.
  - left. unfold dispatch_message_if_active in Hex.
    destruct (actors s !! a) as [[g [] j] |]; [| by injection Hex as _ ->; destruct (drop_message_frame m s) as (_ & -> & _)..].
    pose proof (mailbox_try_send_length j m s) as Hlen. destruct (mailbox_try_send j m s) as [[] s1]; cbn in *;
      injection Hex as _ ->; [done | |]; destruct (drop_message_frame m s1) as (_ & -> & _); done.
  - left. destruct (drop_message_frame m s) as (_ & -> & _). done.
  - left. by destruct reservation.
  - left. destruct x as [[[p |] |] |]; subst; try done. destruct Hex as (s1 & Hacq & -> & ->).
    unfold try_acquire in Hacq. destruct (available s); [done |]. by injection Hacq as <-.
  - left. destruct (resolve_oneshot_frame o (Sent r) s) as (_ & Ht & _). unfold complete_oneshot. by rewrite Ht.
  - left. destruct x; repeat match goal with H : _ /\ _ |- _ => destruct H end; subst; cbn; by rewrite ?length_alter.
  - left. unfold begin_deactivation in H0. destruct (actors s !! _); [| by injection H0 as _ ->].
    destruct (_ || _); by injection H0 as _ ->.
  - left. by rewrite remove_route_tasks.
  - left. unfold drop_guard. destruct (tasks s !! i) as [t |]; [| done]. cbn.
    by rewrite length_alter, remove_route_tasks.
  - left. unfold drop_receiver. destruct (tasks s !! i) as [t |]; [| done].
    match goal with |- context [drop_messages ?ms ?st] => destruct (drop_messages_frame ms st) as (_ & -> & _) end.
    cbn. by rewrite length_alter.
  - left. unfold shutdown_snapshot in Hex. destruct (status s); injection Hex as _ ->; try done.
    by rewrite for_tasks_length.
  - left. unfold fence_snapshot in Hex. injection Hex as _ ->. by rewrite for_tasks_length.
  - left. by rewrite for_tasks_length.
Qed.

(** ** The invariant of a world *)
Definition thread_ok (s : ServerState) (th : thread) : Prop :=
  match th with
  | ThActor i p => exists a, is_Some (tasks s !! i) /\ wp (actor_monitor config i a) s p (fun _ _ => True)
  | ThOther p => wp static_monitor () p (fun _ _ => True)
  end.

Record world_inv (w : world) : Prop := {
  wi_state : state_inv config (server w);
  wi_threads th : th ∈ threads w -> thread_ok (server w) th;
  wi_unique j1 j2 th1 th2 i :
    threads w !! j1 = Some th1 -> threads w !! j2 = Some th2 ->
    thread_task th1 = Some i -> thread_task th2 = Some i -> j1 = j2;
  wi_pending i t :
    tasks (server w) !! i = Some t -> (forall th, th ∈ threads w -> thread_task th <> Some i) ->
    looping i (task_address t) (server w)
}.

Lemma relies_trans i s1 s2 s3 :
  is_Some (tasks s1 !! i) -> relies config i s1 s2 -> relies config i s2 s3 -> relies config i s1 s3.
Proof. intros Hi (H12 & _) (H23 & ?). split; [by eapply rely_trans | done]. Qed.

(** The account of a task survives what others do. *)
Lemma actor_wp_relies i a (p : proc runtimeE unit) s s' :
  is_Some (tasks s !! i) -> relies config i s s' ->
  wp (actor_monitor config i a) s p (fun _ _ => True) ->
  wp (actor_monitor config i a) s' p (fun _ _ => True).
Proof.
  intros Hi Hr Hwp. destruct p as [[] | X e k]; [done |]. destruct Hwp as [Hal Hk]. split.
  - intros s1 Hr1. apply Hal. by eapply relies_trans.
  - intros x s2 (s1 & Hr1 & Hex). apply Hk. exists s1. split; [by eapply relies_trans | done].
Qed.

Lemma actor_allowed_static i a s X (e : runtimeE X) :
  actor_allowed i a X s e -> static_allowed config X e /\ (forall j, task_of X e = Some j -> j = i).
Proof.
  intros Hal. split; [by destruct e |]. intros j Hj.
  destruct e; cbn in Hal, Hj; try done; simplify_eq; try (by destruct Hal); try done.
  by destruct reason, Hal.
Qed.

(** What a reply tells a thread that is not an actor task. *)
Lemma static_observed s X (e : runtimeE X) x s' :
  state_inv config s -> exec_effect config X s e x s' -> observe static_monitor () e x ().
Proof.
  intros Hinv Hex. destruct e; try done. cbn in *. destruct Hex as [-> _]. apply Hinv.
Qed.

(** One step of a thread is allowed, and keeps its own account. *)
Lemma thread_call s th X (e : runtimeE X) k x s' :
  thread_ok s th -> thread_proc th = Call e k -> state_inv config s -> spawn_bound s ->
  exec_effect config X s e x s' ->
  static_allowed config X e /\ (forall j, task_of X e = Some j -> thread_task th = Some j) /\
  thread_ok s' (thread_continue th (k x)).
Proof.
  intros Hok Hp Hinv Hb Hex. destruct th as [i p | p]; cbn in Hok, Hp; subst p.
  - destruct Hok as (a & Hi & Hal & Hk).
    assert (Hrefl : relies config i s s) by (split; [apply rely_refl | done]).
    destruct (actor_allowed_static _ _ _ _ _ (Hal s Hrefl)) as [Hst Hto].
    split; [done |]. split; [intros j Hj; cbn; by rewrite (Hto j Hj) |].
    assert (Hlen : length (tasks s) <= length (tasks s')) by (destruct (exec_new _ _ _ _ _ Hex) as [-> | (? & -> & _)]; lia).
    exists a. split; [apply lookup_lt_is_Some; apply lookup_lt_is_Some in Hi; lia |].
    apply Hk. by exists s.
  - destruct Hok as [[Hst Hto] Hk]. split; [done |]. split; [congruence |].
    cbn. apply Hk. by eapply static_observed.
Qed.

Lemma thread_continue_task th p : thread_task (thread_continue th p) = thread_task th.
Proof. by destruct th. Qed.

Lemma step_call_inv s s' ths j th X (e : runtimeE X) k x :
  world_inv (MkWorld s ths) -> spawn_bound s -> spawn_bound s' ->
  ths !! j = Some th -> thread_proc th = Call e k -> exec_effect config X s e x s' ->
  world_inv (MkWorld s' (<[j := thread_continue th (k x)]> ths)).
Proof.
  intros [Hst Hth Hu Hpend] Hb Hb' Hj Hp Hex. cbn [server threads] in *.
  assert (Hok : thread_ok s th) by by apply Hth, list_elem_of_lookup_2 with j.
  destruct (thread_call _ _ _ _ _ _ _ Hok Hp Hst Hb Hex) as (Hal & Hto & Hok').
  assert (Hst' : state_inv config s') by by eapply exec_inv.
  assert (Hjlt : j < length ths) by by eapply lookup_lt_Some.
  assert (Hrely : forall i, is_Some (tasks s !! i) -> thread_task th <> Some i -> relies config i s s').
  { intros i Hi Hne. split; [| done]. eapply exec_rely; [| done..]. intros j' Hj' ->. by apply Hne, Hto. }
  split; cbn [server threads].
  - done.
  - intros th' [j' Hj']%list_elem_of_lookup.
    apply list_lookup_insert_Some in Hj' as [(-> & <- & _) | [Hne Hj']]; [done |].
    assert (Hok2 : thread_ok s th') by by apply Hth, list_elem_of_lookup_2 with j'.
    destruct th' as [i p | p]; [| exact Hok2]. destruct Hok2 as (a & Hi & Hwp).
    assert (Hne' : thread_task th <> Some i) by (intros Heq; by apply Hne, (Hu j j' th (ThActor i p) i)).
    pose proof (Hrely i Hi Hne') as Hr. exists a. split; [| by eapply actor_wp_relies].
    destruct Hi as [t Ht]. destruct (rely_task _ _ _ (proj1 Hr) _ Ht) as (t' & _ & ? & _). eauto.
  - intros j1 j2 th1 th2 i H1 H2 T1 T2.
    assert (Hback : forall j0 th0, <[j := thread_continue th (k x)]> ths !! j0 = Some th0 ->
              exists th0', ths !! j0 = Some th0' /\ thread_task th0' = thread_task th0).
    { intros j0 th0 [(-> & <- & _) | [_ H0]]%list_lookup_insert_Some; [| eauto].
      exists th. by rewrite thread_continue_task. }
    destruct (Hback _ _ H1) as (th1' & H1' & E1). destruct (Hback _ _ H2) as (th2' & H2' & E2).
    apply (Hu j1 j2 th1' th2' i); congruence.
  - intros i t Ht Hnone.
    assert (Hnone' : forall th0, th0 ∈ ths -> thread_task th0 <> Some i).
    { intros th0 Hin Heq. apply list_elem_of_lookup in Hin as [j0 Hj0].
      destruct (decide (j0 = j)) as [-> | Hne].
      - apply (Hnone (thread_continue th (k x))); [| rewrite thread_continue_task; congruence].
        apply list_elem_of_lookup_2 with j. by apply list_lookup_insert_eq.
      - apply (Hnone th0); [| done]. apply list_elem_of_lookup_2 with j0. by rewrite list_lookup_insert_ne. }
    assert (Hold : i < length (tasks s) -> looping i (task_address t) s').
    { intros [t1 Ht1]%lookup_lt_is_Some. specialize (Hpend i t1 Ht1 Hnone').
      assert (Hr : relies config i s s') by (apply Hrely; [eauto | by apply Hnone', list_elem_of_lookup_2 with j]).
      destruct (rely_task _ _ _ (proj1 Hr) _ Ht1) as (t2 & _ & Ht2 & (Ha & _) & _).
      assert (t2 = t) as -> by congruence. rewrite Ha. by eapply looping_stable. }
    pose proof (lookup_lt_Some _ _ _ Ht) as Hlt.
    destruct (exec_new _ _ _ _ _ Hex) as [Hlen | (t0 & Hlen & Ht0 & Hl0)]; [apply Hold; lia |].
    destruct (decide (i = length (tasks s))) as [-> | Hne]; [| apply Hold; lia].
    by assert (t0 = t) as -> by congruence.
Qed.

Lemma add_thread_inv s ths th :
  world_inv (MkWorld s ths) -> thread_ok s th ->
  (forall i th', thread_task th = Some i -> th' ∈ ths -> thread_task th' <> Some i) ->
  world_inv (MkWorld s (ths ++ [th])).
Proof.
  intros [Hst Hth Hu Hpend] Hok Hnew. cbn [server threads] in *. split; cbn [server threads].
  - done.
  - intros th' [Hin | ->%list_elem_of_singleton]%elem_of_app; [by apply Hth | done].
  - intros j1 j2 th1 th2 i H1 H2 T1 T2.
    apply lookup_app_Some in H1 as [H1 | [L1 H1]]; apply lookup_app_Some in H2 as [H2 | [L2 H2]].
    + eauto.
    + apply list_lookup_singleton_Some in H2 as [_ <-]. exfalso.
      apply (Hnew i th1); [done | by apply list_elem_of_lookup_2 with j1 | done].
    + apply list_lookup_singleton_Some in H1 as [_ <-]. exfalso.
      apply (Hnew i th2); [done | by apply list_elem_of_lookup_2 with j2 | done].
    + apply list_lookup_singleton_Some in H1 as [? _]. apply list_lookup_singleton_Some in H2 as [? _]. lia.
  - intros i t Ht Hnone. apply (Hpend i t Ht). intros th' Hin. apply Hnone. apply elem_of_app. by left.
Qed.

Lemma step_abort_inv s ths j i p :
  world_inv (MkWorld s ths) -> ths !! j = Some (ThActor i p) ->
  world_inv (MkWorld s (<[j := ThActor i (drop_task i)]> ths)).
Proof.
  intros [Hst Hth Hu Hpend] Hj. cbn [server threads] in *.
  assert (Hback : forall j0 th0, <[j := ThActor i (drop_task i)]> ths !! j0 = Some th0 ->
            exists th0', ths !! j0 = Some th0' /\ thread_task th0' = thread_task th0).
  { intros j0 th0 [(-> & <- & _) | [_ H0]]%list_lookup_insert_Some; [| eauto]. by exists (ThActor i p). }
  assert (Hjlt : j < length ths) by by eapply lookup_lt_Some.
  split; cbn [server threads].
  - done.
  - intros th' Hin. apply list_elem_of_lookup in Hin as [j' Hj'].
    apply list_lookup_insert_Some in Hj' as [(-> & <- & _) | [_ Hj']];
      [| by apply Hth, list_elem_of_lookup_2 with j'].
    destruct (Hth (ThActor i p)) as (a & Hi & _); [by apply list_elem_of_lookup_2 with j' |].
    exists a. split; [done |]. apply drop_task_wp.
  - intros j1 j2 th1 th2 i' H1 H2 T1 T2.
    destruct (Hback _ _ H1) as (th1' & H1' & E1). destruct (Hback _ _ H2) as (th2' & H2' & E2).
    apply (Hu j1 j2 th1' th2' i'); congruence.
  - intros i' t Ht Hnone. apply (Hpend i' t Ht). intros th' Hin Heq.
    apply list_elem_of_lookup in Hin as [j0 Hj0]. destruct (decide (j0 = j)) as [-> | Hne].
    + assert (th' = ThActor i p) as -> by congruence.
      apply (Hnone (ThActor i (drop_task i))); [| done]. apply list_elem_of_lookup_2 with j. by apply list_lookup_insert_eq.
    + apply (Hnone th'); [| done]. apply list_elem_of_lookup_2 with j0. by rewrite list_lookup_insert_ne.
Qed.

Lemma initial_inv : world_inv initial_world.
Proof.
  split; cbn.
  - split; cbn; try done.
    + rewrite map_size_empty, size_empty. lia.
    + intros a sid [c Hc]. unfold sink in Hc. cbn in Hc. by rewrite lookup_empty in Hc.
  - by intros th ?%elem_of_nil.
  - done.
  - done.
Qed.

Lemma world_step_bound w w' : world_step w w' -> spawn_bound (server w') -> spawn_bound (server w).
Proof.
  intros [s s' ths j th X e k x Hj Hp Hex | | |]; cbn; try done.
  unfold spawn_bound. destruct (exec_new _ _ _ _ _ Hex) as [-> | (? & -> & _)]; lia.
Qed.

Lemma world_step_inv w w' :
  world_step w w' -> spawn_bound (server w') -> world_inv w -> world_inv w'.
Proof.
  intros Hs Hb' Hinv. pose proof (world_step_bound _ _ Hs Hb') as Hb.
  destruct Hs as [s s' ths j th X e k x Hj Hp Hex | s ths p Hp | s ths i t fuel Ht Hnew | s ths j i p t Hj Ht _ _].
  - by eapply step_call_inv.
  - apply add_thread_inv; [done | by apply entry_static | done].
  - apply add_thread_inv; [done | |].
    + exists (task_address t). split; [eauto |]. apply actor_task_wp.
      by apply (wi_pending _ Hinv).
    + intros i' th' [= <-] Hin. by apply Hnew.
  - by eapply step_abort_inv.
Qed.

Lemma reachable_bound w w' : rtc world_step w w' -> spawn_bound (server w') -> spawn_bound (server w).
Proof. induction 1 as [| w1 w2 w3 H12 _ IH]; [done |]. intros Hb. eauto using world_step_bound. Qed.

Lemma rtc_inv w w' : rtc world_step w w' -> spawn_bound (server w') -> world_inv w -> world_inv w'.
Proof.
  induction 1 as [| w1 w2 w3 H12 H23 IH]; [done |]. intros Hb Hinv. apply IH; [done |].
  eapply world_step_inv; [done | by eapply reachable_bound | done].
Qed.

Lemma reachable_world_inv w : reachable w -> spawn_bound (server w) -> world_inv w.
Proof. intros Hr Hb. eapply rtc_inv; [done | done | apply initial_inv]. Qed.

(** The next access of an actor task is allowed where it stands. *)
Lemma reachable_allowed w i X (e : runtimeE X) k :
  reachable w -> spawn_bound (server w) -> ThActor i (Call e k) ∈ threads w ->
  exists a, actor_allowed i a X (server w) e.
Proof.
  intros Hr Hb Hin. pose proof (reachable_world_inv w Hr Hb) as Hinv.
  destruct (wi_threads _ Hinv _ Hin) as (a & _ & Hal & _). exists a. apply Hal.
  split; [apply rely_refl |]. split; [apply Hinv | done].
Qed.

Lemma reachable_bound_state w : reachable w -> spawn_bound (server w) -> state_inv config (server w).
Proof. intros Hr Hb. by apply reachable_world_inv. Qed.
End world.
