(* ===== verification/RuntimeTrace.v ===== *)
(** * Executions of the Server, with what happened in them

    An execution is a run of the worlds of [RuntimeWorld] with a trace: which
    thread registered a Session, created a oneshot, had a message accepted, ran a
    handler or acknowledged an open.  Two theorems relate what a Server promises
    to the sender of a message to what its Actors do: the messages it accepted
    are handled in the order of their acceptance, each at most once and none
    skipped while the Actor runs; and it acknowledges an open only after the
    Actor's handler of that open has succeeded. *)

From S2P Require Import Prelude Text Address Transport Session Runtime RuntimeInv RuntimeActor RuntimeWorld.
Import Registry.

(** ** Traces *)
Inductive label :=
| Entered (e : Envelope) (reply : option SenderId)  (* a dispatch of [e] starts *)
| Registered (a : ActorAddress) (sid : SessionId) (sender : SenderId)
| Created (o : OneshotId)
| Accepted (a : ActorAddress) (m : MailboxMessage) (i : TaskId)  (* into the mailbox of task [i] *)
| Handled (i : TaskId) (m : MailboxMessage) (ok : bool)
| Emitted (sender : SenderId) (e : Envelope) (taken : bool)
| Silent.

(** What a call and its reply are to an observer.  A message is accepted when its
    dispatch replies [Ok] and the Actor has an active route. *)
Definition label_of (s : ServerState) X (e : runtimeE X) : X -> ServerState -> label :=
  match e in runtimeE X return X -> ServerState -> label with
  | RegisterActor a sid sender => fun x _ => if (x : bool) then Registered a sid sender else Silent
  | NewOneshot => fun o _ => Created o
  | DispatchLocked a m _ => fun r s' =>
      match r, actors s' !! a with
      | Ok _, Some route => Accepted a m (task route)
      | _, _ => Silent
      end
  | DispatchIfActive a m => fun r _ =>
      match r, actors s !! a with
      | Ok _, Some (MkRoute _ Active i) => Accepted a m i
      | _, _ => Silent
      end
  | UserMessage i m => fun ok _ => Handled i m ok
  | TrySend sender e => fun taken _ => Emitted sender e taken
  | _ => fun _ _ => Silent
  end.

Abbreviation trace := (list (nat * label)).

(** The envelope a dispatch was started with, and the sender of its connection. *)
Abbreviation origin := (option (Envelope * option SenderId)).

(** The messages accepted for task [i], and those its handlers ran for. *)
Definition accepted (i : TaskId) (tr : trace) : list MailboxMessage :=
  omap (fun l => match l.2 with Accepted _ m i' => if decide (i' = i) then Some m else None | _ => None end) tr.
Definition handled (i : TaskId) (tr : trace) : list MailboxMessage :=
  omap (fun l => match l.2 with Handled i' m _ => if decide (i' = i) then Some m else None | _ => None end) tr.

Definition mail (i : TaskId) (s : ServerState) : list MailboxMessage :=
  from_option mailbox [] (tasks s !! i).

Lemma accepted_app i tr1 tr2 : accepted i (tr1 ++ tr2) = accepted i tr1 ++ accepted i tr2.
Proof. apply omap_app. Qed.
Lemma handled_app i tr1 tr2 : handled i (tr1 ++ tr2) = handled i tr1 ++ handled i tr2.
Proof. apply omap_app. Qed.

Lemma accepted_elem i tr m : m ∈ accepted i tr <-> exists j a, (j, Accepted a m i) ∈ tr.
Proof.
  unfold accepted. rewrite list_elem_of_omap. split.
  - intros ([j l] & Hin & Hl). destruct l; try done. cbn in Hl. case_decide; simplify_eq. eauto.
  - intros (j & a & Hin). exists (j, Accepted a m i). split; [done |]. cbn. by rewrite decide_True.
Qed.
Lemma handled_elem i tr m : m ∈ handled i tr <-> exists j ok, (j, Handled i m ok) ∈ tr.
Proof.
  unfold handled. rewrite list_elem_of_omap. split.
  - intros ([j l] & Hin & Hl). destruct l; try done. cbn in Hl. case_decide; simplify_eq. eauto.
  - intros (j & ok & Hin). exists (j, Handled i m ok). split; [done |]. cbn. by rewrite decide_True.
Qed.

(** ** What others do to a mailbox *)
Lemma mail_tasks i s s' : tasks s' = tasks s -> mail i s' = mail i s.
Proof. unfold mail. by intros ->. Qed.

Lemma mail_update i j f s :
  (forall t, j = i -> mailbox (f t) = mailbox t) -> mail i (update_task j f s) = mail i s.
Proof.
  intros Hf. unfold mail. rewrite update_task_lookup. destruct (decide (j = i)) as [-> | _]; [| done].
  destruct (tasks s !! i); [| done]. cbn. by apply Hf.
Qed.

Lemma mail_for_tasks i is_ f s : (forall t, mailbox (f t) = mailbox t) -> mail i (for_tasks is_ f s) = mail i s.
Proof. intros Hf. induction is_ as [| j is_ IH]; [done |]. cbn. rewrite mail_update; [exact IH | by intros]. Qed.

Lemma mail_try_send i j m s :
  mail i (mailbox_try_send j m s).2 =
  mail i s ++ match (mailbox_try_send j m s).1 with SendOk => if decide (j = i) then [m] else [] | _ => [] end.
Proof.
  unfold mailbox_try_send. destruct (tasks s !! j) as [t |] eqn:Ht; [| by rewrite app_nil_r].
  destruct (receiver_closed t); [by rewrite app_nil_r |]. destruct (_ <? _)%nat; [| by rewrite app_nil_r].
  cbn [fst snd]. unfold mail. rewrite update_task_lookup. destruct (decide (j = i)) as [-> |]; [by rewrite Ht |].
  by rewrite app_nil_r.
Qed.

Section trace.
Context (config : ServerConfig).

Lemma start_route_mail i a m reservation s r s' :
  start_route config a m reservation s = Some (r, s') ->
  mail i s' = mail i s ++ match r, actors s' !! a with
                          | Ok _, Some route => if decide (task route = i) then [m] else []
                          | _, _ => []
                          end.
Proof.
  unfold start_route. set (permit := match reservation with Some p => _ | None => _ end).
  destruct permit as [s1 |] eqn:Hp; subst permit.
  2: { intros [= <- <-]. rewrite app_nil_r. apply mail_tasks, fail_message_frame. }
  assert (Ht1 : tasks s1 = tasks s).
  { destruct reservation as [p |]; [by injection Hp as <- |].
    unfold try_acquire in Hp. destruct (available s); [done |]. by injection Hp as <-. }
  unfold spawn_actor. destruct (registrations config !! actor_type a) as [reg |]; [| done].
  match goal with |- context [mailbox_try_send ?k ?m ?st] => set (s2 := st); set (k0 := k) end.
  assert (Hm2 : mail i s2 = mail i s).
  { unfold mail. subst s2. cbn. rewrite Ht1. destruct (decide (i < length (tasks s))) as [Hlt | Hge].
    - by rewrite lookup_app_l.
    - rewrite (lookup_ge_None_2 (tasks s)) by lia. destruct (decide (i = length (tasks s))) as [-> |].
      + by rewrite list_lookup_middle.
      + rewrite lookup_ge_None_2; [done |]. rewrite length_app. cbn. lia. }
  pose proof (mail_try_send i k0 m s2) as Hsend. destruct (mailbox_try_send k0 m s2) as [outcome s4].
  cbn [fst snd] in Hsend. rewrite Hm2 in Hsend. destruct outcome; intros [= <- <-].
  - cbn [actors with_actors]. rewrite lookup_insert_eq. cbn [task]. exact Hsend.
  - rewrite <- Hsend. apply mail_tasks. by destruct (drop_message_frame m (with_actors s4 (<[a:=MkRoute (next_generation s1) Active k0]> (actors s4)))) as (_ & -> & _).
  - rewrite <- Hsend. apply mail_tasks. by destruct (drop_message_frame m (with_actors s4 (<[a:=MkRoute (next_generation s1) Active k0]> (actors s4)))) as (_ & -> & _).
Qed.

Lemma drop_reservation_tasks reservation s :
  tasks (drop_reservation reservation s) = tasks s /\ actors (drop_reservation reservation s) = actors s.
Proof. by destruct reservation. Qed.

Lemma dispatch_locked_mail i a m reservation s r s' :
  dispatch_locked config a m reservation s = Some (r, s') ->
  mail i s' = mail i s ++ match r, actors s' !! a with
                          | Ok _, Some route => if decide (task route = i) then [m] else []
                          | _, _ => []
                          end.
Proof.
  unfold dispatch_locked. destruct (actors s !! a) as [route |] eqn:Ha; [| apply start_route_mail].
  destruct (state route).
  - pose proof (mail_try_send i (task route) m s) as Hsend.
    destruct (mailbox_try_send_actors (task route) m s) as ((Hact & _) & _ & _).
    assert (Hclosed : (mailbox_try_send (task route) m s).1 = SendClosed -> (mailbox_try_send (task route) m s).2 = s).
    { unfold mailbox_try_send. destruct (tasks s !! task route) as [t |]; [| done].
      destruct (receiver_closed t); [done |]. by destruct (_ <? _)%nat. }
    destruct (mailbox_try_send (task route) m s) as [outcome s1]. cbn [fst snd] in *. destruct outcome.
    + intros [= <- <-]. destruct (drop_reservation_tasks reservation s1) as [Ht ->]. rewrite Hact, Ha.
      rewrite <- Hsend. by apply mail_tasks.
    + intros [= <- <-]. destruct (drop_reservation_tasks reservation (fail_message m MailboxFull s1)) as [Ht _].
      rewrite <- Hsend. apply mail_tasks. rewrite Ht. apply fail_message_frame.
    + rewrite (Hclosed eq_refl). intros Hs. rewrite (start_route_mail i _ _ _ _ _ _ Hs). f_equal.
      apply mail_tasks. unfold remove_entry. by rewrite Ha.
  - intros [= <- <-]. destruct (drop_reservation_tasks reservation (drop_message m s)) as [Ht _].
    rewrite app_nil_r. apply mail_tasks. rewrite Ht. apply drop_message_frame.
Qed.

Lemma dispatch_if_active_mail i a m s r s' :
  (r, s') = dispatch_message_if_active a m s ->
  mail i s' = mail i s ++ match r, actors s !! a with
                          | Ok _, Some (MkRoute _ Active j) => if decide (j = i) then [m] else []
                          | _, _ => []
                          end.
Proof.
  unfold dispatch_message_if_active. destruct (actors s !! a) as [[g [] j] |].
  - pose proof (mail_try_send i j m s) as Hsend. destruct (mailbox_try_send j m s) as [outcome s1].
    cbn [fst snd] in Hsend. destruct outcome; intros [= -> ->]; [done | |];
      rewrite <- Hsend; apply mail_tasks, drop_message_frame.
  - intros [= -> ->]. rewrite app_nil_r. apply mail_tasks, drop_message_frame.
  - intros [= -> ->]. rewrite app_nil_r. apply mail_tasks, drop_message_frame.
Qed.

(** The messages a label says were accepted for, or handled by, task [i]. *)
Definition accepts (i : TaskId) (l : label) : list MailboxMessage :=
  match l with
  | Accepted _ m i' => if decide (i' = i) then [m] else []
  | _ => []
  end.
Definition handles (i : TaskId) (l : label) : list MailboxMessage :=
  match l with
  | Handled i' m _ => if decide (i' = i) then [m] else []
  | _ => []
  end.

Lemma accepted_snoc i tr j l : accepted i (tr ++ [(j, l)]) = accepted i tr ++ accepts i l.
Proof. rewrite accepted_app. f_equal. destruct l; cbn; try done. by case_decide. Qed.
Lemma handled_snoc i tr j l : handled i (tr ++ [(j, l)]) = handled i tr ++ handles i l.
Proof. rewrite handled_app. f_equal. destruct l; cbn; try done. by case_decide. Qed.

(** A mailbox grows by exactly what others have accepted for it. *)
Lemma exec_mail i X (e : runtimeE X) x s s' :
  foreign i X e -> exec_effect config X s e x s' ->
  mail i s' = mail i s ++ accepts i (label_of s X e x s').
Proof.
  intros Hf Hex.
  assert (Hsame : tasks s' = tasks s -> accepts i (label_of s X e x s') = [] ->
                  mail i s' = mail i s ++ accepts i (label_of s X e x s')).
  { intros Ht ->. rewrite app_nil_r. by apply mail_tasks. }
  destruct e; cbn in Hex;
    repeat match goal with H : _ /\ _ |- _ => destruct H | H : exists _, _ |- _ => destruct H end; subst;
    try (apply Hsame; [done | done]); try (assert (i0 <> i) by (by apply Hf)).
  - rewrite (dispatch_locked_mail i _ _ _ _ _ _ H0). f_equal. cbn.
    destruct x; [| done]. by destruct (actors s' !! a).
  - rewrite (dispatch_if_active_mail i _ _ _ _ _ Hex). f_equal. cbn.
    destruct x; [| done]. by destruct (actors s !! a) as [[? [] ?] |].
  - apply Hsame; [apply drop_message_frame | done].
  - apply Hsame; [apply drop_reservation_tasks | done].
  - apply Hsame; [| done]. destruct x as [[[p |] |] |]; subst; try done. destruct Hex as (s1 & Hacq & -> & ->).
    unfold try_acquire in Hacq. destruct (available s); [done |]. by injection Hacq as <-.
  - apply Hsame; [done |]. cbn. by destruct (register_actor _ _ _ _).1.
  - apply Hsame; [apply resolve_oneshot_frame | done].
  - cbn. rewrite app_nil_r. destruct x; repeat match goal with H : _ /\ _ |- _ => destruct H end; subst; try done;
      by apply mail_update.
  - cbn. rewrite app_nil_r. by apply mail_update.
  - cbn. rewrite app_nil_r. by apply mail_update.
  - cbn. rewrite app_nil_r. apply mail_tasks. unfold begin_deactivation in H0.
    destruct (actors s !! _); [| by injection H0 as _ ->]. destruct (_ || _); by injection H0 as _ ->.
  - cbn. rewrite app_nil_r. apply mail_tasks, remove_route_tasks.
  - cbn. rewrite app_nil_r. unfold drop_guard. destruct (tasks s !! i0) as [t |]; [| done].
    rewrite mail_update by done. apply mail_tasks, remove_route_tasks.
  - cbn. rewrite app_nil_r. unfold drop_receiver. destruct (tasks s !! i0) as [t |]; [| done].
    rewrite (mail_tasks i (update_task i0 (fun t => with_receiver_closed (with_mailbox t [])) s)) by apply drop_messages_frame.
    by apply mail_update.
  - cbn. rewrite app_nil_r. unfold shutdown_snapshot in Hex. destruct (status s); injection Hex as _ ->; try done.
    rewrite mail_for_tasks by done. done.
  - cbn. rewrite app_nil_r. unfold fence_snapshot in Hex. injection Hex as _ ->. by rewrite mail_for_tasks by done.
  - cbn. rewrite app_nil_r. by apply mail_for_tasks.
Qed.

(** What the task itself takes out. *)
Lemma exec_own_mail i X (e : runtimeE X) x s s' :
  task_of X e = Some i -> is_Some (tasks s !! i) -> exec_effect config X s e x s' ->
  accepts i (label_of s X e x s') = [] /\
  match e in runtimeE X return X -> Prop with
  | Select _ => fun x => match x with
                         | MessageReceived m => mail i s = m :: mail i s'
                         | _ => mail i s' = mail i s
                         end
  | RecvClosed _ => fun x => match x with
                             | Some m => mail i s = m :: mail i s'
                             | None => mail i s' = mail i s
                             end
  | DropReceiver _ => fun _ => closed i s'
  | _ => fun _ => mail i s' = mail i s
  end x.
Proof.
  intros Ht [t Hl] Hex.
  assert (Hpop : forall m, head (mailbox t) = Some m ->
            mail i s = m :: mail i (update_task i (fun t => with_mailbox t (tail (mailbox t))) s)).
  { intros m Hm. unfold mail. rewrite update_task_lookup, decide_True, Hl by done. cbn.
    by destruct (mailbox t); [| injection Hm as ->]. }
  destruct e; cbn in Ht; simplify_eq; cbn in Hex |- *; (split; [done |]).
  - destruct Hex as [l ->]. done.
  - destruct Hex as [l ->]. done.
  - destruct Hex as [l ->]. done.
  - destruct Hex as (t' & Hl' & Hex). assert (t' = t) as -> by congruence.
    destruct x; repeat match goal with H : _ /\ _ |- _ => destruct H end; subst; try done; [by apply mail_update | by apply Hpop].
  - subst s'. by apply mail_update.
  - destruct Hex as (t' & Hl' & -> & ->). assert (t' = t) as -> by congruence.
    destruct (head (mailbox t)) as [m |] eqn:Hm; [by apply Hpop |]. unfold mail.
    rewrite update_task_lookup, decide_True, Hl by done. cbn. by destruct (mailbox t).
  - destruct Hex as (t' & Hl' & Hex). apply mail_tasks. unfold begin_deactivation in Hex.
    destruct (actors s !! _); [| by injection Hex as _ ->]. destruct (_ || _); by injection Hex as _ ->.
  - destruct Hex as (t' & Hl' & ->). apply mail_tasks, remove_route_tasks.
  - subst s'. unfold drop_guard. rewrite Hl. rewrite mail_update by done. apply mail_tasks, remove_route_tasks.
  - subst s'. unfold drop_receiver. rewrite Hl. eexists. split.
    + rewrite (proj1 (proj2 (drop_messages_frame _ _))), update_task_lookup, decide_True, Hl by done. done.
    + done.
Qed.

(** ** The account of an actor task

    Between taking a message out and the next one: the message is held, then its
    handler has run; once a closed mailbox is emptied without handlers, no handler
    runs any more. *)
Inductive phase :=
| PIdle
| PHeld (m : MailboxMessage)
| PHandled (m : MailboxMessage)       (* successfully *)
| PDiscarding.

Definition ready (ph : phase) : Prop :=
  match ph with
  | PIdle | PHandled _ => True
  | _ => False
  end.

Definition phase_allowed X (ph : phase) (e : runtimeE X) : Prop :=
  match e with
  | UserMessage _ m => ph = PHeld m
  | Select _ => ready ph
  | CompleteOneshot o r => r = Ok () -> exists sid, ph = PHandled (SessionOpened sid o)
  | TrySend _ e => positive_ack e = false
  | DispatchLocked _ _ _ | DispatchIfActive _ _ | RegisterActor _ _ _ | NewOneshot => False
  | _ => True
  end.

Definition phase_next X (ph : phase) (e : runtimeE X) : X -> phase :=
  match e in runtimeE X return X -> phase with
  | UserMessage _ m => fun ok => if (ok : bool) then PHandled m else PIdle
  | Select _ => fun x => if x is MessageReceived m then PHeld m else PIdle
  | RecvClosed _ => fun x =>
      match x, ph with
      | Some m, (PIdle | PHandled _) => PHeld m
      | None, (PIdle | PHandled _) => PIdle
      | _, _ => PDiscarding
      end
  | DropReceiver _ => fun _ => PDiscarding
  | _ => fun _ => ph
  end.

Definition phase_monitor : monitor runtimeE phase :=
  Monitor runtimeE phase phase_allowed (fun X ph e x ph' => ph' = phase_next X ph e x).

Ltac phase_call := apply (call_wp phase_allowed phase_next); [try done | intros ?; cbn [phase_next]].

Lemma terminate_all_phase a error ph :
  wp phase_monitor ph (terminate_all a error) (fun _ ph' => ph' = ph).
Proof.
  unfold terminate_all. phase_call. induction x as [| sid sids IH]; [done |]. cbn [terminate_each].
  apply wp_bind. unfold terminate. phase_call. phase_call. destruct x as [sender |]; [| exact IH].
  phase_call. exact IH.
Qed.

Lemma execute_message_phase i m :
  wp phase_monitor (PHeld m) (execute_message i m) (fun _ => ready).
Proof.
  unfold execute_message. phase_call. destruct m as [sid p | sid o | sid].
  - by destruct x.
  - phase_call; [destruct x; [intros _; by exists sid | done] | by destruct x].
  - by destruct x.
Qed.

Lemma fail_pending_phase fuel i error ph :
  wp phase_monitor ph (fail_pending fuel i (error : SendError)) (fun _ _ => True).
Proof.
  revert ph. induction fuel as [| fuel IH]; intros ph; [done |]. cbn [fail_pending]. phase_call.
  by destruct x as [[] |].
Qed.

Lemma fail_activation_phase fuel i a error ph :
  wp phase_monitor ph (fail_activation fuel i a error) (fun _ _ => True).
Proof.
  unfold fail_activation. phase_call. phase_call. apply wp_bind. eapply wp_mono; [| apply fail_pending_phase].
  intros [] ph' _; [| done]. cbn [negb]. apply wp_bind. eapply wp_mono; [| apply terminate_all_phase]. done.
Qed.

Lemma drain_phase fuel i ph :
  ready ph -> wp phase_monitor ph (drain fuel i) (fun _ _ => True).
Proof.
  revert ph. induction fuel as [| fuel IH]; intros ph Hr; [done |]. cbn [drain]. phase_call.
  destruct x as [m |]; [| by destruct ph].
  assert (match ph with PIdle | PHandled _ => PHeld m | _ => PDiscarding end = PHeld m) as -> by by destruct ph.
  apply wp_bind. eapply wp_mono; [| apply execute_message_phase]. intros [] ph' Hr'; [by apply IH | done].
Qed.

Lemma shutdown_branch_phase fuel i a ph :
  ready ph -> wp phase_monitor ph (shutdown_branch fuel i a) (fun _ _ => True).
Proof.
  intros Hr. unfold shutdown_branch. phase_call. apply wp_bind. eapply wp_mono; [| by apply drain_phase].
  intros [[] |] ph' _; [| done |].
  - apply wp_bind. eapply wp_mono; [| apply terminate_all_phase]. intros [] ? ->. phase_call. by phase_call.
  - apply wp_bind. eapply wp_mono; [| apply terminate_all_phase]. done.
Qed.

Lemma actor_loop_phase fuel i a ph :
  ready ph -> wp phase_monitor ph (actor_loop config fuel i a) (fun _ _ => True).
Proof.
  revert ph. induction fuel as [| fuel IH]; intros ph Hr; [done |]. cbn [actor_loop]. phase_call.
  destruct x as [| | m | |].
  - by apply shutdown_branch_phase.
  - by apply IH.
  - apply wp_bind. eapply wp_mono; [| apply execute_message_phase]. intros [] ph' Hr'; [by apply IH |].
    apply wp_bind. eapply wp_mono; [| apply terminate_all_phase]. done.
  - by phase_call.
  - phase_call. destruct x; [by apply IH |]. phase_call. destruct x; cbn [negb]; [| by apply IH].
    unfold passivate. phase_call. by destruct (clustered config); repeat phase_call.
Qed.

Lemma drop_task_phase i ph : wp phase_monitor ph (drop_task i) (fun _ _ => True).
Proof. unfold drop_task. by repeat phase_call. Qed.

Lemma actor_task_phase fuel i a : wp phase_monitor PIdle (actor_task config fuel i a) (fun _ _ => True).
Proof.
  unfold actor_task, actor_body. apply wp_bind. eapply (wp_mono _ _ _ (fun _ _ => True)).
  - intros reason ph _. destruct reason; try done; apply drop_task_phase.
  - phase_call. destruct x; [by apply actor_loop_phase | apply fail_activation_phase..].
Qed.

(** ** The account of an open *)
Inductive opening :=
| ONone
| ORegistered (a : ActorAddress) (sid : SessionId) (c : SenderId)
| OFresh (a : ActorAddress) (sid : SessionId) (c : SenderId) (o : OneshotId)
| OSent (a : ActorAddress) (sid : SessionId) (c : SenderId) (o : OneshotId)
| OEarned (a : ActorAddress) (sid : SessionId) (c : SenderId).

(** The envelope a dispatch was started with asks to open Session [sid] of [a]. *)
Definition opens (e : Envelope) (a : ActorAddress) (sid : SessionId) : Prop :=
  exists v, parse_inbound e = Some (MkInbound a sid v KSessionOpen).

Definition opening_allowed (og : origin) X (st : opening) (e : runtimeE X) : Prop :=
  match e with
  | RegisterActor a sid c => exists e, og = Some (e, Some c) /\ opens e a sid
  | NewOneshot => exists a sid c, st = ORegistered a sid c
  | DispatchLocked a m _ => if m is SessionOpened sid o then exists c, st = OFresh a sid c o else True
  | DispatchIfActive a m => if m is SessionOpened _ _ then False else True
  | TrySend c e => positive_ack e = true -> exists a sid, st = OEarned a sid c /\ env_session_id e = session_id_as_bytes sid
  | CompleteOneshot _ _ => False
  | _ => task_of X e = None
  end.

Definition opening_next X (st : opening) (e : runtimeE X) : X -> opening :=
  match e in runtimeE X return X -> opening with
  | RegisterActor a sid c => fun x => if (x : bool) then ORegistered a sid c else st
  | NewOneshot => fun o => if st is ORegistered a sid c then OFresh a sid c o else st
  | DispatchLocked _ m _ => fun _ =>
      match m, st with SessionOpened _ _, OFresh a sid c o => OSent a sid c o | _, _ => st end
  | AwaitOneshot o => fun x =>
      match x, st with
      | Some (Ok _), OSent a sid c o' => if decide (o' = o) then OEarned a sid c else st
      | _, _ => st
      end
  | _ => fun _ => st
  end.

Definition opening_monitor (og : origin) : monitor runtimeE opening :=
  Monitor runtimeE opening (opening_allowed og) (fun X st e x st' => st' = opening_next X st e x).

Ltac opening_call := eapply (call_wp (opening_allowed _) opening_next); [try done | intros ?; cbn [opening_next]].

Lemma open_local_session_opening e a sid c reservation :
  opens e a sid ->
  wp (opening_monitor (Some (e, Some c))) ONone (open_local_session config a sid c reservation)
    (fun r st => r = Ok () -> st = OEarned a sid c).
Proof.
  intros Ho. unfold open_local_session. destruct (registrations config !! actor_type a); [| by opening_call].
  opening_call; [by exists e |]. destruct x; cbn [negb]; [| by opening_call]. opening_call; [by eexists _, _, _ |]. apply wp_bind.
  unfold dispatch_message, dispatch_guard. apply wp_bind. opening_call.
  assert (Hdrop : forall error st, wp (opening_monitor (Some (e, Some c))) st
    (exec! DropMessage (SessionOpened sid x); exec! DropReservation reservation; Ret (@Err SendError unit error))
    (fun sent st => wp (opening_monitor (Some (e, Some c))) st
       match sent with
       | Err error => exec! UnregisterActor a sid; Ret (Err error)
       | Ok _ => call! outcome := AwaitOneshot x;
                 match outcome with
                 | None => exec! UnregisterActor a sid; Ret (Err ActorStopped)
                 | Some (Err error) => exec! UnregisterActor a sid; Ret (Err error)
                 | Some (Ok _) => Ret (Ok ())
                 end
       end (fun r st => r = Ok () -> st = OEarned a sid c))).
  { intros error st. by repeat opening_call. }
  destruct x0; [apply Hdrop |]. opening_call. destruct x0; cbn [wp]; [| apply Hdrop..].
  opening_call; [by eexists |]. destruct x0; [| by opening_call].
  opening_call. destruct x0 as [[[] |] |]; [| by opening_call..]. cbn [wp]. by rewrite decide_True.
Qed.

(** Procedures that open nothing leave the account alone. *)
Lemma dispatch_message_opening og a m reservation st :
  (if m is SessionOpened _ _ then False else True) ->
  wp (opening_monitor og) st (dispatch_message a m reservation) (fun _ st' => st' = st).
Proof.
  intros Hm. unfold dispatch_message, dispatch_guard. apply wp_bind. opening_call.
  assert (Hdrop : forall error, wp (opening_monitor og) st
    (exec! DropMessage m; exec! DropReservation reservation; Ret (@Err SendError unit error)) (fun _ st' => st' = st)).
  { intros error. by repeat opening_call. }
  destruct x; [apply Hdrop |]. opening_call. destruct x; [| apply Hdrop..].
  cbn [proc_bind]. change (wp (opening_monitor og) st (Call (DispatchLocked a m reservation) Ret) (fun _ st' => st' = st)).
  opening_call; by destruct m.
Qed.

Lemma close_local_session_opening og a sid st :
  wp (opening_monitor og) st (close_local_session a sid) (fun _ st' => st' = st).
Proof. unfold close_local_session. opening_call. destruct x; [by opening_call | done]. Qed.

Lemma send_session_error_opening og reply b error st :
  wp (opening_monitor og) st (send_session_error reply b error) (fun _ _ => True).
Proof. unfold send_session_error. destruct reply; [by opening_call | done]. Qed.

Lemma bound_to_reply_opening og a sid reply st :
  wp (opening_monitor og) st (bound_to_reply a sid reply) (fun _ st' => st' = st).
Proof. unfold bound_to_reply. destruct reply; [by opening_call | done]. Qed.

Lemma dispatch_inbound_opening e reply :
  wp (opening_monitor (Some (e, reply))) ONone (dispatch_inbound config e reply) (fun _ _ => True).
Proof.
  unfold dispatch_inbound. destruct (parse_inbound e) as [[a sid version kind] |] eqn:Hp; [| done].
  assert (Hsid : env_session_id e = session_id_as_bytes sid).
  { unfold parse_inbound in Hp. destruct (env_kind e); [| done].
    unfold session_id_from_bytes in Hp. destruct (_ =? _)%nat; [| done].
    destruct (actor_address_from_envelope _ _); [| done]. by injection Hp as _ <- _ _. }
  destruct kind; try done.
  - destruct (negb _); [done |]. apply wp_bind. eapply wp_mono; [| apply bound_to_reply_opening].
    intros [] ? ->; cbn [negb]; [| apply send_session_error_opening].
    apply wp_bind. unfold dispatch_remote_message. opening_call. destruct x as [c |].
    + eapply wp_mono; [| by apply dispatch_message_opening]. intros [] ? ->; [done |].
      apply send_session_error_opening.
    + exact (send_session_error_opening _ reply (env_session_id e) ActorStopped ONone).
  - apply wp_bind. eapply (wp_mono _ _ _ (fun r st =>
      forall c, reply = Some c -> r = Ok () -> st = OEarned a sid c)).
    + intros r st Hr. destruct reply as [c |]; [| done]. opening_call; [| done].
      intros [=]. exists a, sid. destruct r as [[] | error]; [| done]. by rewrite (Hr c eq_refl eq_refl).
    + destruct (negb _); [done |]. destruct reply as [c |]; [| done]. unfold resolve_and_open.
      assert (Hopen : forall reservation, wp (opening_monitor (Some (e, Some c))) ONone (open_local_session config a sid c reservation)
                (fun r st => forall c', Some c = Some c' -> r = Ok () -> st = OEarned a sid c')).
      { intros reservation. eapply wp_mono; [| apply open_local_session_opening; by exists version]. intros r st Hr ? [= <-]. exact Hr. }
      destruct (clustered config); [| apply Hopen]. opening_call. by destruct x as [[] |].
  - apply wp_bind. eapply wp_mono; [| apply bound_to_reply_opening]. intros [] ? ->; [| done].
    eapply wp_mono; [| apply close_local_session_opening]. done.
Qed.

Lemma terminate_all_sessions_opening og error st :
  wp (opening_monitor og) st (terminate_all_sessions error) (fun _ st' => st' = st).
Proof.
  unfold terminate_all_sessions. opening_call. induction x as [| a l IH]; [done |]. cbn [terminate_addresses].
  apply wp_bind. unfold terminate_all. opening_call. eapply (wp_mono _ _ _ (fun _ st' => st' = st)); [by intros [] ? -> |].
  induction x as [| sid sids IHs]; [done |]. cbn [terminate_each]. apply wp_bind. unfold terminate.
  opening_call. opening_call. destruct x as [c |]; [| exact IHs]. by opening_call.
Qed.

(** Where a thread that is not an actor task comes from. *)
Inductive entry_label : proc runtimeE unit -> label -> Prop :=
| label_inbound e reply : entry_label (dispatch_inbound config e reply) (Entered e reply)
| label_disconnect sender : entry_label (close_sessions_for_sender sender) Silent
| label_broadcast a payload : entry_label (broadcast_event a payload) Silent
| label_shutdown : entry_label (bind! _ := shutdown; Ret ()) Silent
| label_fence : entry_label fence Silent.

Definition entry_origin (l : label) : origin :=
  match l with
  | Entered e reply => Some (e, reply)
  | _ => None
  end.

Lemma entry_labelled p : (exists l, entry_label p l) <-> entry config p.
Proof.
  split; [intros [l []] | intros []]; by repeat econstructor.
Qed.

Lemma entry_opening p l : entry_label p l -> wp (opening_monitor (entry_origin l)) ONone p (fun _ _ => True).
Proof.
  intros [].
  - apply dispatch_inbound_opening.
  - unfold close_sessions_for_sender. opening_call. induction x as [| [a sid] pairs IH]; [done |]. cbn [close_sessions].
    apply wp_bind. eapply wp_mono; [| apply close_local_session_opening]. by intros [] ? ->.
  - unfold broadcast_event. opening_call. induction x as [| sid sids IH]; [done |]. cbn [deliver_events].
    apply wp_bind. unfold deliver_event. opening_call. destruct x as [c |]; [by opening_call | exact IH].
  - apply wp_bind. eapply (wp_mono _ _ _ (fun _ _ => True)); [done |]. unfold shutdown. opening_call.
    destruct x as [is_ |]; [| done]. opening_call.
    assert (Hend : forall timed_out : bool, wp (opening_monitor None) ONone
      (bind! _ := terminate_all_sessions RuntimeShuttingDown; exec! AbortInboundTasks; exec! StoreStatus STOPPED;
       Ret (if timed_out then ShutdownTimedOut else ShutdownOk)) (fun _ _ => True)).
    { intros timed_out. apply wp_bind. eapply wp_mono; [| apply terminate_all_sessions_opening]. intros [] ? ->.
      by repeat opening_call. }
    destruct x; [do 2 opening_call; exact (Hend true) | exact (Hend false)].
  - unfold fence. do 4 opening_call. apply wp_bind. eapply wp_mono; [| apply terminate_all_sessions_opening].
    intros [] ? ->. by opening_call.
Qed.

(** ** Oneshots *)
Definition sent_ok (o : OneshotId) (s : ServerState) : Prop := oneshots s !! o = Some (Sent (Ok ())).

(** No oneshot is lost, and none succeeds. *)
Definition none_succeeds (s s' : ServerState) : Prop :=
  length (oneshots s) <= length (oneshots s') /\ forall o, sent_ok o s' -> sent_ok o s.

Lemma none_succeeds_eq s s' : oneshots s' = oneshots s -> none_succeeds s s'.
Proof. unfold none_succeeds, sent_ok. intros ->. by split. Qed.

Lemma none_succeeds_trans s1 s2 s3 : none_succeeds s1 s2 -> none_succeeds s2 s3 -> none_succeeds s1 s3.
Proof. intros [H1 H1'] [H2 H2']. split; [lia | auto]. Qed.

Lemma resolve_none o x s : x <> Sent (Ok ()) -> none_succeeds s (resolve_oneshot o x s).
Proof.
  intros Hx. unfold resolve_oneshot. destruct (oneshots s !! o) as [[] |]; try by apply none_succeeds_eq.
  split; [cbn; by rewrite length_insert |]. intros o'. unfold sent_ok. cbn.
  intros [(_ & Hx2 & _) | [_ ?]]%list_lookup_insert_Some; [by rewrite Hx2 in Hx | done].
Qed.

Lemma drop_message_none m s : none_succeeds s (drop_message m s).
Proof. destruct m; [by apply none_succeeds_eq | by apply resolve_none | by apply none_succeeds_eq]. Qed.

Lemma drop_messages_none ms s : none_succeeds s (drop_messages ms s).
Proof.
  induction ms as [| m ms IH]; [by apply none_succeeds_eq |]. cbn.
  eapply none_succeeds_trans; [exact IH | apply drop_message_none].
Qed.

Lemma fail_message_none m error s : none_succeeds s (fail_message m error s).
Proof. destruct m; [by apply none_succeeds_eq | by apply resolve_none | by apply none_succeeds_eq]. Qed.

Lemma mailbox_try_send_oneshots i m s : oneshots (mailbox_try_send i m s).2 = oneshots s.
Proof.
  unfold mailbox_try_send. destruct (tasks s !! i) as [t |]; [| done]. destruct (receiver_closed t); [done |].
  by destruct (_ <? _)%nat.
Qed.

Lemma start_route_none a m reservation s r s' :
  start_route config a m reservation s = Some (r, s') -> none_succeeds s s'.
Proof.
  unfold start_route. set (permit := match reservation with Some p => _ | None => _ end).
  destruct permit as [s1 |] eqn:Hp; subst permit; [| intros [= <- <-]; apply fail_message_none].
  assert (H1 : oneshots s1 = oneshots s).
  { destruct reservation as [p |]; [by injection Hp as <- |].
    unfold try_acquire in Hp. destruct (available s); [done |]. by injection Hp as <-. }
  unfold spawn_actor. destruct (registrations config !! actor_type a) as [reg |]; [| done].
  match goal with |- context [mailbox_try_send ?k ?m ?st] =>
    pose proof (mailbox_try_send_oneshots k m st) as H2; destruct (mailbox_try_send k m st) as [outcome s4] end.
  cbn in H2. rewrite H1 in H2.
  destruct outcome; intros [= <- <-]; [by apply none_succeeds_eq | |];
    (eapply none_succeeds_trans; [| apply drop_message_none]; by apply none_succeeds_eq).
Qed.

Lemma dispatch_locked_none a m reservation s r s' :
  dispatch_locked config a m reservation s = Some (r, s') -> none_succeeds s s'.
Proof.
  assert (Hres : forall s, none_succeeds s (drop_reservation reservation s))
    by (intros s0; by destruct reservation; apply none_succeeds_eq).
  unfold dispatch_locked. destruct (actors s !! a) as [route |] eqn:Ha; [| apply start_route_none].
  destruct (state route).
  - pose proof (mailbox_try_send_oneshots (task route) m s) as Hs1.
    destruct (mailbox_try_send (task route) m s) as [outcome s1]. cbn [snd] in Hs1.
    apply none_succeeds_eq in Hs1. destruct outcome.
    + intros [= <- <-]. by eapply none_succeeds_trans.
    + intros [= <- <-]. eapply none_succeeds_trans; [exact Hs1 |]. eapply none_succeeds_trans; [apply fail_message_none | done].
    + intros Hst. eapply none_succeeds_trans; [exact Hs1 |]. eapply none_succeeds_trans; [| by eapply start_route_none].
      apply none_succeeds_eq. unfold remove_entry. by destruct (actors s1 !! a).
  - intros [= <- <-]. eapply none_succeeds_trans; [apply drop_message_none | done].
Qed.

Lemma for_tasks_oneshots is_ f s : oneshots (for_tasks is_ f s) = oneshots s.
Proof. induction is_ as [| i is_ IH]; [done |]. exact IH. Qed.

Definition completes X (e : runtimeE X) (o : OneshotId) : Prop :=
  match e with
  | CompleteOneshot o' r => o' = o /\ r = Ok ()
  | _ => False
  end.

Lemma exec_oneshots X (e : runtimeE X) x s s' :
  exec_effect config X s e x s' ->
  length (oneshots s) <= length (oneshots s') /\
  forall o, sent_ok o s' -> sent_ok o s \/ completes X e o.
Proof.
  intros Hex. assert (Hn : none_succeeds s s' -> length (oneshots s) <= length (oneshots s') /\
    forall o, sent_ok o s' -> sent_ok o s \/ completes X e o) by (intros [? ?]; split; [done | auto]).
  destruct e; cbn in Hex;
    repeat match goal with H : _ /\ _ |- _ => destruct H | H : exists _, _ |- _ => destruct H end; subst;
    try (apply Hn; by apply none_succeeds_eq).
  - by eapply Hn, dispatch_locked_none.
  - apply Hn. unfold dispatch_message_if_active in Hex. destruct (actors s !! a) as [[g [] j] |];
      [| injection Hex as _ ->; apply drop_message_none..].
    pose proof (mailbox_try_send_oneshots j m s) as Hs1. destruct (mailbox_try_send j m s) as [outcome s1].
    cbn [snd] in Hs1. apply none_succeeds_eq in Hs1. destruct outcome; injection Hex as _ ->; [done | |];
      (eapply none_succeeds_trans; [exact Hs1 | apply drop_message_none]).
  - apply Hn, drop_message_none.
  - apply Hn, none_succeeds_eq. by destruct reservation.
  - apply Hn, none_succeeds_eq. destruct x as [[[p |] |] |]; subst; try done. destruct Hex as (s1 & Hacq & -> & ->).
    unfold try_acquire in Hacq. destruct (available s); [done |]. by injection Hacq as <-.
  - split; [cbn; rewrite length_app; lia |]. intros o. unfold sent_ok. cbn.
    intros [Ho | [_ Ho]]%lookup_app_Some; [by left |]. by apply list_lookup_singleton_Some in Ho as [_ ?].
  - unfold complete_oneshot. destruct (decide (r = Ok ())) as [-> | Hr].
    + split.
      * unfold resolve_oneshot. destruct (oneshots s !! o) as [[] |]; cbn; rewrite ?length_insert; lia.
      * intros o'. unfold sent_ok, resolve_oneshot. destruct (oneshots s !! o) as [[] |]; cbn; auto.
        intros [(<- & _) | [_ ?]]%list_lookup_insert_Some; auto.
    + apply Hn, resolve_none. congruence.
  - apply Hn, none_succeeds_eq. destruct x; by repeat match goal with H : _ /\ _ |- _ => destruct H end; subst.
  - apply Hn, none_succeeds_eq. unfold begin_deactivation in *. destruct (actors s !! _); [| by simplify_eq].
    destruct (_ || _); by simplify_eq.
  - apply Hn, none_succeeds_eq. unfold remove_route, remove_entry. destruct (actors s !! _); [| done]. by destruct (_ =? _)%Z.
  - apply Hn, none_succeeds_eq. unfold drop_guard, remove_route, remove_entry. destruct (tasks s !! i); [| done].
    destruct (actors s !! _); [| done]. by destruct (_ =? _)%Z.
  - apply Hn. unfold drop_receiver. destruct (tasks s !! i) as [t |]; [| by apply none_succeeds_eq].
    eapply none_succeeds_trans; [| apply drop_messages_none]. by apply none_succeeds_eq.
  - apply Hn, none_succeeds_eq. unfold shutdown_snapshot in Hex. destruct (status s); injection Hex as _ ->; try done.
    apply (for_tasks_oneshots _ _ (with_status s SHUTTING_DOWN)).
  - apply Hn, none_succeeds_eq. injection Hex as _ ->. apply (for_tasks_oneshots _ _ (with_status s FENCED)).
  - apply Hn, none_succeeds_eq, for_tasks_oneshots.
Qed.

(** ** Executions *)

(** Threads that start, and tasks that are cut off. *)
Inductive starts (s : ServerState) (ths : list thread) : trace -> list thread -> Prop :=
| starts_entry p l : entry_label p l -> starts s ths [(length ths, l)] (ths ++ [ThOther p])
| starts_spawn i t fuel :
    tasks s !! i = Some t -> (forall th, th ∈ ths -> thread_task th <> Some i) ->
    starts s ths [] (ths ++ [ThActor i (actor_task config fuel i (task_address t))])
| starts_abort j i p t :
    ths !! j = Some (ThActor i p) -> tasks s !! i = Some t ->
    abort_requested t = true -> completed t = false ->
    starts s ths [] (<[j := ThActor i (drop_task i)]> ths).

(** One step of a world, with what it adds to the trace. *)
Inductive moves : world -> trace -> world -> Prop :=
| moves_call s ths j th X (e : runtimeE X) k x s' :
    ths !! j = Some th -> thread_proc th = Call e k -> exec_effect config X s e x s' ->
    moves (MkWorld s ths) [(j, label_of s X e x s')] (MkWorld s' (<[j := thread_continue th (k x)]> ths))
| moves_start s ths l ths' : starts s ths l ths' -> moves (MkWorld s ths) l (MkWorld s ths').

Inductive execution : world -> trace -> Prop :=
| execution_initial : execution (initial_world config) []
| execution_moves w tr l w' : execution w tr -> moves w l w' -> execution w' (tr ++ l).

Lemma moves_step w w' : (exists l, moves w l w') <-> world_step config w w'.
Proof.
  split.
  - intros [l [s ths j th X e k x s' Hj Hp Hex | s ths tr ths' [p l0 Hl | |]]]; econstructor; eauto.
    apply entry_labelled. by eexists.
  - intros [s s' ths j th X e k x Hj Hp Hex | s ths p Hp | s ths i t fuel Ht Hn | s ths i j p t Hj Ht Ha Hc].
    + eexists. by eapply moves_call.
    + apply entry_labelled in Hp as [l Hl]. eexists. apply moves_start. by constructor.
    + eexists. apply moves_start. by econstructor.
    + eexists. apply moves_start. by econstructor.
Qed.

(** The worlds with an execution are the reachable ones. *)
Lemma execution_reachable w tr : execution w tr -> reachable config w.
Proof.
  induction 1 as [| w tr l w' _ IH Hm]; [apply rtc_refl |].
  eapply rtc_r; [exact IH |]. apply moves_step. by exists l.
Qed.

Lemma reachable_execution w : reachable config w -> exists tr, execution w tr.
Proof.
  apply (rtc_preserved _ (fun w => exists tr, execution w tr)); [| exists []; constructor].
  intros w1 w2 [tr Htr] [l Hl]%moves_step. exists (tr ++ l). by eapply execution_moves.
Qed.

(** ** The invariant of an execution *)
Definition phase_ok (i : TaskId) (ph : phase) (s : ServerState) (tr : trace) : Prop :=
  match ph with
  | PIdle => accepted i tr = handled i tr ++ mail i s
  | PHeld m => accepted i tr = handled i tr ++ m :: mail i s
  | PHandled m => accepted i tr = handled i tr ++ mail i s /\ exists j, (j, Handled i m true) ∈ tr
  | PDiscarding => handled i tr `prefix_of` accepted i tr /\ closed i s
  end.

(** Thread [j] opened Session [sid], and the handler of that open succeeded. *)
Definition earned (j : nat) (a : ActorAddress) (sid : SessionId) (tr : trace) : Prop :=
  exists i o j', (j, Accepted a (SessionOpened sid o) i) ∈ tr /\ (j', Handled i (SessionOpened sid o) true) ∈ tr.

Definition opening_ok (j : nat) (st : opening) (tr : trace) : Prop :=
  match st with
  | ONone => True
  | ORegistered a sid c => (j, Registered a sid c) ∈ tr
  | OFresh a sid c o => (j, Registered a sid c) ∈ tr /\ (j, Created o) ∈ tr /\
      forall j' a' sid' i, (j', Accepted a' (SessionOpened sid' o) i) ∉ tr
  | OSent a sid c o => (j, Registered a sid c) ∈ tr /\ (j, Created o) ∈ tr /\
      forall j' a' sid' i, (j', Accepted a' (SessionOpened sid' o) i) ∈ tr -> a' = a /\ sid' = sid
  | OEarned a sid c => (j, Registered a sid c) ∈ tr /\ earned j a sid tr
  end.

Definition account (j : nat) (s : ServerState) (tr : trace) (th : thread) : Prop :=
  match th with
  | ThActor i p => exists ph, wp phase_monitor ph p (fun _ _ => True) /\ phase_ok i ph s tr
  | ThOther p => exists og st, wp (opening_monitor og) st p (fun _ _ => True) /\ opening_ok j st tr /\
                   forall e reply, og = Some (e, reply) -> (j, Entered e reply) ∈ tr
  end.

(** Thread [j] was started by an open of [sid] on the connection [c], and did it. *)
Definition opened (j : nat) (a : ActorAddress) (sid : SessionId) (c : SenderId) (tr : trace) : Prop :=
  (j, Registered a sid c) ∈ tr /\ earned j a sid tr.

Definition acks_earned (tr : trace) : Prop :=
  forall tr1 j c e ok tr2, tr = tr1 ++ (j, Emitted c e ok) :: tr2 -> positive_ack e = true ->
    exists a sid, env_session_id e = session_id_as_bytes sid /\ opened j a sid c tr1.

Record trace_inv (w : world) (tr : trace) : Prop := {
  ti_account j th : threads w !! j = Some th -> account j (server w) tr th;
  ti_idle i : (forall th, th ∈ threads w -> thread_task th <> Some i) ->
              handled i tr = [] /\ accepted i tr = mail i (server w);
  ti_created j o : (j, Created o) ∈ tr -> o < length (oneshots (server w));
  ti_creator j j' o : (j, Created o) ∈ tr -> (j', Created o) ∈ tr -> j = j';
  ti_accepted j a sid o i : (j, Accepted a (SessionOpened sid o) i) ∈ tr -> (j, Created o) ∈ tr;
  ti_sent o : sent_ok o (server w) -> exists j i sid, (j, Handled i (SessionOpened sid o) true) ∈ tr;
  ti_registered j a sid c : (j, Registered a sid c) ∈ tr ->
                            exists e, (j, Entered e (Some c)) ∈ tr /\ opens e a sid;
  ti_acks : acks_earned tr
}.

Lemma accepts_none i l : (forall a m, l <> Accepted a m i) -> accepts i l = [].
Proof. destruct l; cbn; try done. case_decide; [subst; intros H; by destruct (H a m) | done]. Qed.

Lemma handles_foreign i X (e : runtimeE X) s x s' : foreign i X e -> handles i (label_of s X e x s') = [].
Proof.
  intros Hf. destruct e; cbn; try done.
  - by destruct x, (actors s' !! a).
  - by destruct x, (actors s !! a) as [[? [] ?] |].
  - by destruct x.
  - rewrite decide_False; [done |]. by apply Hf.
Qed.

Lemma earned_mono j a sid tr l : earned j a sid tr -> earned j a sid (tr ++ l).
Proof. intros (i & o & j' & H1 & H2). exists i, o, j'. split; apply elem_of_app; by left. Qed.

Lemma phase_prefix i ph s tr : phase_ok i ph s tr -> handled i tr `prefix_of` accepted i tr.
Proof.
  destruct ph; cbn; [intros -> | intros -> | intros [-> _] | by intros []]; by apply prefix_app_r.
Qed.

(** In every task, what was handled is what was accepted first. *)
Lemma trace_prefix w tr i : trace_inv w tr -> handled i tr `prefix_of` accepted i tr.
Proof.
  intros Hinv. destruct (decide (Exists (fun th => thread_task th = Some i) (threads w))) as [He | He].
  - apply Exists_exists in He as (th & Hin & Ht). apply list_elem_of_lookup in Hin as [j Hj].
    pose proof (ti_account _ _ Hinv j th Hj) as Ha. destruct th as [i' p | p]; [| done]. injection Ht as ->.
    destruct Ha as (ph & _ & Hph). by eapply phase_prefix.
  - destruct (ti_idle _ _ Hinv i) as [-> _]; [| apply prefix_nil].
    intros th Hin Ht. apply He, Exists_exists. eauto.
Qed.

(** *** One step of an account *)
Lemma phase_ok_foreign i ph j s tr X (e : runtimeE X) x s' :
  foreign i X e -> exec_effect config X s e x s' -> (closed i s -> closed i s') ->
  phase_ok i ph s tr -> phase_ok i ph s' (tr ++ [(j, label_of s X e x s')]).
Proof.
  intros Hf Hex Hcl Hph. unfold phase_ok in *.
  rewrite accepted_snoc, handled_snoc, (handles_foreign _ _ _ _ _ _ Hf), app_nil_r, (exec_mail _ _ _ _ _ _ Hf Hex).
  destruct ph as [| m | m |].
  - by rewrite Hph, app_assoc.
  - by rewrite Hph, <- app_assoc.
  - destruct Hph as [-> [j' Hj']]. split; [by rewrite app_assoc |]. exists j'. apply elem_of_app. by left.
  - destruct Hph as [Hp Hc]. split; [by apply prefix_app_r | by apply Hcl].
Qed.

Lemma exec_own_closed i X (e : runtimeE X) x s s' :
  task_of X e = Some i -> exec_effect config X s e x s' -> closed i s -> closed i s'.
Proof.
  intros Ht Hex (t & Hl & Hc).
  assert (Hupd : forall f, (forall t, receiver_closed t = true -> receiver_closed (f t) = true) -> closed i (update_task i f s)).
  { intros f Hf. exists (f t). rewrite update_task_lookup, decide_True, Hl by done. split; [done | by apply Hf]. }
  assert (Hsame : tasks s' = tasks s -> closed i s') by (intros He; exists t; by rewrite He).
  destruct e; cbn in Ht; simplify_eq; cbn in Hex.
  - destruct Hex as [l ->]. by apply Hsame.
  - destruct Hex as [l ->]. by apply Hsame.
  - destruct Hex as [l ->]. by apply Hsame.
  - destruct Hex as (t' & _ & Hex).
    destruct x; repeat match goal with H : _ /\ _ |- _ => destruct H end; subst; first [by apply Hsame | by apply Hupd].
  - subst s'. by apply Hupd.
  - destruct Hex as (t' & _ & _ & ->). by apply Hupd.
  - destruct Hex as (t' & _ & Hex). apply Hsame. unfold begin_deactivation in Hex.
    destruct (actors s !! _); [| by injection Hex as _ ->]. destruct (_ || _); by injection Hex as _ ->.
  - destruct Hex as (t' & _ & ->). apply Hsame, remove_route_tasks.
  - subst s'. unfold drop_guard. rewrite Hl. exists (with_completed t).
    rewrite update_task_lookup, decide_True, remove_route_tasks, Hl by done. done.
  - subst s'. unfold drop_receiver. rewrite Hl. eexists.
    rewrite (proj1 (proj2 (drop_messages_frame _ _))), update_task_lookup, decide_True, Hl by done. done.
Qed.

Lemma phase_ok_own i ph j s tr X (e : runtimeE X) x s' :
  task_of X e = Some i -> is_Some (tasks s !! i) -> phase_allowed X ph e ->
  (if e is RecvClosed _ then closed i s else True) ->
  exec_effect config X s e x s' -> phase_ok i ph s tr ->
  phase_ok i (phase_next X ph e x) s' (tr ++ [(j, label_of s X e x s')]).
Proof.
  intros Ht Hi Hal Hrecv Hex Hph. pose proof (exec_own_closed i X e x s s' Ht Hex) as Hcl.
  destruct (exec_own_mail i X e x s s' Ht Hi Hex) as [Hacc Hm].
  assert (Hkeep : handles i (label_of s X e x s') = [] -> mail i s' = mail i s ->
    phase_ok i ph s' (tr ++ [(j, label_of s X e x s')])).
  { intros Hh Hmail. unfold phase_ok in *. rewrite accepted_snoc, handled_snoc, Hacc, Hh, !app_nil_r, Hmail.
    destruct ph; try done; (split; [apply Hph |]); [| by apply Hcl, Hph].
    destruct Hph as [_ [j' ?]]. exists j'. apply elem_of_app. by left. }
  destruct e; cbn in Ht; simplify_eq; cbn [phase_next phase_allowed label_of] in *; try (by apply Hkeep).
  - (* a handler *) subst ph. cbn in Hacc, Hm, Hph.
    assert (Heq : accepted i (tr ++ [(j, Handled i m x)]) = handled i (tr ++ [(j, Handled i m x)]) ++ mail i s').
    { rewrite accepted_snoc, handled_snoc. cbn. rewrite app_nil_r, decide_True by done.
      by rewrite Hm, Hph, <- app_assoc. }
    destruct x; cbn; [split; [exact Heq |]; exists j; by apply elem_of_snoc; right | exact Heq].
  - assert (Hr : accepted i tr = handled i tr ++ mail i s) by (destruct ph; try done; apply Hph).
    unfold phase_ok. rewrite !accepted_snoc, !handled_snoc. cbn. rewrite !app_nil_r.
    destruct x; cbn in Hm |- *; rewrite ?app_nil_r; by rewrite Hr, Hm.
  - unfold phase_ok. rewrite !accepted_snoc, !handled_snoc. cbn. rewrite !app_nil_r.
    destruct x as [m |]; destruct ph as [| m' | m' |]; cbn in Hm, Hph |- *; rewrite ?app_nil_r.
    + by rewrite Hph, Hm.
    + rewrite Hph. split; [by apply prefix_app_r | by apply Hcl].
    + destruct Hph as [-> _]. by rewrite Hm.
    + split; [apply Hph | by apply Hcl].
    + by rewrite Hph, Hm.
    + rewrite Hph. split; [by apply prefix_app_r | by apply Hcl].
    + destruct Hph as [-> _]. by rewrite Hm.
    + split; [apply Hph | by apply Hcl].
  - pose proof (phase_prefix _ _ _ _ Hph) as Hp. cbn. rewrite accepted_snoc, handled_snoc. cbn.
    by rewrite !app_nil_r.
Qed.

(** What a thread's account says of its next label. *)
Lemma label_earned j s tr th X (e : runtimeE X) k x s' :
  account j s tr th -> thread_proc th = Call e k ->
  (forall a sid o i, label_of s X e x s' = Accepted a (SessionOpened sid o) i -> (j, Created o) ∈ tr) /\
  (forall c e0 ok, label_of s X e x s' = Emitted c e0 ok -> positive_ack e0 = true ->
     exists a sid, env_session_id e0 = session_id_as_bytes sid /\ opened j a sid c tr) /\
  (forall a sid c, label_of s X e x s' = Registered a sid c ->
     exists e0, (j, Entered e0 (Some c)) ∈ tr /\ opens e0 a sid) /\
  (forall o, completes X e o -> exists j' i sid, (j', Handled i (SessionOpened sid o) true) ∈ tr).
Proof.
  intros Ha Hp. destruct th as [i p | p]; cbn in Ha, Hp; subst p.
  - destruct Ha as (ph & [Hal _] & Hph). cbn in Hal. destruct e; cbn in Hal |- *; try done.
    + split_and!; [done | done | done |]. intros o' [-> ->]. destruct (Hal eq_refl) as [sid ->].
      destruct Hph as [_ [j' Hj']]. eauto.
    + split_and!; [done | | done | done]. intros c' e' ok [= -> -> ->]. by rewrite Hal.
  - destruct Ha as (og & st & [Hal _] & Hst & Hog). cbn in Hal. destruct e; cbn in Hal |- *; try done.
    + split_and!; [| | | done].
      * intros a' sid o i Hl. destruct x, (actors s' !! a); try done. injection Hl as -> -> _.
        destruct Hal as [c ->]. apply Hst.
      * intros c e0 ok Hl. by destruct x, (actors s' !! a).
      * intros a' sid c Hl. by destruct x, (actors s' !! a).
    + split_and!; [intros a' sid o i Hl | intros c e0 ok Hl | intros a' sid c Hl | done].
      * destruct x, (actors s !! a) as [[? [] ?] |]; try done. by injection Hl as _ -> _.
      * by destruct x, (actors s !! a) as [[? [] ?] |].
      * by destruct x, (actors s !! a) as [[? [] ?] |].
    + split_and!; [by destruct x | by destruct x | | done].
      intros a' sid' c Hl. destruct x; [| done]. injection Hl as -> -> ->. destruct Hal as (e0 & -> & Ho).
      exists e0. split; [by apply Hog | done].
    + split_and!; [done | | done | done]. intros c e0 ok [= -> -> ->] Hack.
      destruct (Hal Hack) as (a & sid & -> & Hb). exists a, sid. by split.
Qed.

Lemma opening_ok_mono j st tr j0 l :
  (forall a sid o i, l = Accepted a (SessionOpened sid o) i -> (j, Created o) ∉ tr) ->
  opening_ok j st tr -> opening_ok j st (tr ++ [(j0, l)]).
Proof.
  intros Hl Hok.
  assert (Hin : forall y : nat * label, y ∈ tr -> y ∈ tr ++ [(j0, l)]) by (intros y Hy; apply elem_of_app; by left).
  destruct st as [| a sid c | a sid c o | a sid c o | a sid c]; cbn in Hok |- *.
  - done.
  - by apply Hin.
  - destruct Hok as (H1 & H2 & H3). split_and!; [by apply Hin | by apply Hin |].
    intros j' a' sid' i [Hi | [= -> <-]]%elem_of_snoc; [by eapply H3 | by eapply Hl].
  - destruct Hok as (H1 & H2 & H3). split_and!; [by apply Hin | by apply Hin |].
    intros j' a' sid' i [Hi | [= -> <-]]%elem_of_snoc; [by eapply H3 | by destruct (Hl _ _ _ _ eq_refl)].
  - destruct Hok as [H1 H2]. split; [by apply Hin | by apply earned_mono].
Qed.

(** A reply [Ok] on a thread's own oneshot comes from the handler of its open. *)
Lemma await_earns j a sid c o w tr :
  trace_inv w tr -> opening_ok j (OSent a sid c o) tr -> sent_ok o (server w) -> earned j a sid tr.
Proof.
  intros Hinv (_ & Hc & Huniq) Hs. destruct (ti_sent _ _ Hinv o Hs) as (j1 & i & sid' & Hh).
  assert (Hacc : SessionOpened sid' o ∈ accepted i tr).
  { destruct (trace_prefix w tr i Hinv) as [l ->]. apply elem_of_app. left. apply handled_elem. eauto. }
  apply accepted_elem in Hacc as (j2 & a' & Hacc). destruct (Huniq _ _ _ _ Hacc) as [-> ->].
  assert (j2 = j) as -> by (eapply ti_creator; [exact Hinv | by eapply ti_accepted | exact Hc]).
  by exists i, o, j1.
Qed.

Lemma opening_step og j st ths s tr X (e : runtimeE X) x s' :
  trace_inv (MkWorld s ths) tr -> opening_allowed og X st e -> exec_effect config X s e x s' ->
  opening_ok j st tr -> opening_ok j (opening_next X st e x) (tr ++ [(j, label_of s X e x s')]).
Proof.
  intros Hinv Hal Hex Hok.
  assert (Hkeep : (forall a sid o i, label_of s X e x s' <> Accepted a (SessionOpened sid o) i) ->
                  opening_ok j st (tr ++ [(j, label_of s X e x s')])).
  { intros Hl. apply opening_ok_mono; [| done]. intros a sid o i Heq. by destruct (Hl a sid o i). }
  assert (Hin : forall (y : nat * label) l, y ∈ tr -> y ∈ tr ++ [(j, l)]) by (intros y l Hy; apply elem_of_app; by left).
  destruct e; cbn [opening_next opening_allowed label_of] in *; try (by apply Hkeep).
  - destruct m as [sid p | sid o | sid].
    + apply Hkeep. intros. by destruct x, (actors s' !! a).
    + destruct Hal as [c ->]. destruct Hok as (H1 & H2 & H3). split_and!; [by apply Hin | by apply Hin |].
      intros j' a' sid' i [Hi | Heq]%elem_of_snoc; [by destruct (H3 _ _ _ _ Hi) |].
      destruct x, (actors s' !! a); by simplify_eq.
    + apply Hkeep. intros. by destruct x, (actors s' !! a).
  - apply Hkeep. intros. destruct m; [| done |]; by destruct x, (actors s !! a) as [[? [] ?] |].
  - destruct x; [| by apply Hkeep]. cbn. apply elem_of_snoc. by right.
  - destruct Hal as (a & sid & c & ->). destruct Hex as [-> ->]. cbn in Hok |- *.
    split_and!; [by apply Hin | apply elem_of_snoc; by right |].
    intros j' a' sid' i [Hi | [=]]%elem_of_snoc. apply (ti_accepted _ _ Hinv), (ti_created _ _ Hinv) in Hi.
    cbn in Hi. lia.
  - destruct x as [[u | error] |]; [| by apply Hkeep..]. destruct st as [| | | a sid c o' |]; try by apply Hkeep.
    destruct (decide (o' = o)) as [-> | _]; [| by apply Hkeep]. destruct u, Hex as [-> Hsent].
    split; [by apply Hin, Hok |]. apply earned_mono. by eapply (await_earns j a sid c o (MkWorld s ths)).
Qed.

Lemma acks_earned_snoc tr j l :
  acks_earned tr ->
  (forall c e ok, l = Emitted c e ok -> positive_ack e = true ->
     exists a sid, env_session_id e = session_id_as_bytes sid /\ opened j a sid c tr) ->
  acks_earned (tr ++ [(j, l)]).
Proof.
  intros Hacks Hl tr1 j' c e ok tr2 Heq Hack. destruct tr2 as [| y tr2 _] using rev_ind.
  - apply app_inj_tail in Heq as [-> [= -> ->]]. by eapply Hl.
  - rewrite app_comm_cons, app_assoc in Heq. apply app_inj_tail in Heq as [-> _]. by eapply Hacks.
Qed.

Lemma created_label s X (e : runtimeE X) x s' o :
  exec_effect config X s e x s' -> label_of s X e x s' = Created o ->
  o = length (oneshots s) /\ length (oneshots s') = S (length (oneshots s)).
Proof.
  intros Hex Hl. destruct e; cbn in Hex, Hl; try done.
  - by destruct x, (actors s' !! a).
  - by destruct x, (actors s !! a) as [[? [] ?] |].
  - by destruct x.
  - injection Hl as <-. destruct Hex as [-> ->]. split; [done |]. cbn. rewrite length_app. cbn. lia.
Qed.

(** *** Preservation *)
Section preservation.
Context (s s' : ServerState) (ths : list thread) (tr : trace) (j : nat) (th : thread).
Context (X : Type) (e : runtimeE X) (k : X -> proc runtimeE unit) (x : X).
Context (Hw : world_inv config (MkWorld s ths)) (Hb : spawn_bound s).
Context (Hinv : trace_inv (MkWorld s ths) tr).
Context (Hj : ths !! j = Some th) (Hp : thread_proc th = Call e k) (Hex : exec_effect config X s e x s').

Lemma call_thread_ok : thread_ok config s th.
Proof. apply (wi_threads _ _ Hw). by apply list_elem_of_lookup_2 with j. Qed.

(** A call names a task only if it is the thread's own. *)
Lemma call_foreign i : thread_task th <> Some i -> foreign i X e.
Proof.
  intros Hne i' Hi' ->. apply Hne.
  destruct (thread_call _ _ _ _ _ _ _ _ call_thread_ok Hp (wi_state _ _ Hw) Hb Hex) as (_ & Hto & _). by apply Hto.
Qed.

Lemma call_closed i : is_Some (tasks s !! i) -> foreign i X e -> closed i s -> closed i s'.
Proof.
  intros Hi Hf. assert (Hr : rely i s s') by (eapply exec_rely; [exact Hf | exact Hex | apply Hw | done | done]).
  apply (rely_closed i s s' Hi Hr).
Qed.

(** The account of the thread that called. *)
Lemma call_account : account j s' (tr ++ [(j, label_of s X e x s')]) (thread_continue th (k x)).
Proof.
  pose proof (ti_account _ _ Hinv j th Hj) as Ha. pose proof call_thread_ok as Hok.
  destruct th as [i p | p]; cbn in Ha, Hp, Hok |- *; subst p.
  - destruct Ha as (ph & [Hal Hk] & Hph), Hok as (a & Hi & Hact & _). exists (phase_next X ph e x). split; [by apply Hk |].
    destruct (decide (task_of X e = Some i)) as [Ht | Ht].
    + apply phase_ok_own; try done. specialize (Hact s ltac:(split; [apply rely_refl | split; [apply Hw | done]])).
      destruct e; try done. destruct Hact as [-> (t & Htl & _ & _ & Hc)]. by exists t.
    + assert (Hf : foreign i X e).
      { intros i' Hi' ->. done. }
      assert (phase_next X ph e x = ph) as ->.
      { pose proof (actor_allowed_static config i a s X e (Hact s ltac:(split; [apply rely_refl | split; [apply Hw | done]]))) as [_ Hto].
        destruct e; try done; cbn in Ht, Hto; by rewrite (Hto _ eq_refl) in Ht. }
      apply phase_ok_foreign; [done | done | | done]. by apply call_closed.
  - destruct Ha as (og & st & [Hal Hk] & Hst & Hog). exists og, (opening_next X st e x). split_and!; [by apply Hk | |].
    + by eapply (opening_step og).
    + intros e0 reply He. apply elem_of_app. left. by apply Hog.
Qed.

(** The account of every other thread. *)
Lemma other_account j' th' :
  j' <> j -> ths !! j' = Some th' -> account j' s' (tr ++ [(j, label_of s X e x s')]) th'.
Proof.
  intros Hne Hj'. pose proof (ti_account _ _ Hinv j' th' Hj') as Ha. destruct th' as [i p | p]; cbn in Ha |- *.
  - destruct Ha as (ph & Hk & Hph). exists ph. split; [done |].
    assert (Hf : foreign i X e).
    { apply call_foreign. intros Ht. apply Hne. symmetry. by apply (wi_unique _ _ Hw j j' th (ThActor i p) i). }
    destruct (wi_threads _ _ Hw (ThActor i p)) as (a & Hi & _); [by apply list_elem_of_lookup_2 with j' |].
    apply phase_ok_foreign; [done | done | by apply call_closed | done].
  - destruct Ha as (og & st & Hk & Hst & Hog). exists og, st.
    split_and!; [done | | intros e0 reply He; apply elem_of_app; left; by apply Hog]. apply opening_ok_mono; [| done].
    intros a sid o i Hl Hc. apply Hne. destruct (label_earned j s tr th X e k x s' (ti_account _ _ Hinv j th Hj) Hp) as [Hacc _].
    eapply ti_creator; [exact Hinv | exact Hc | by eapply Hacc].
Qed.

Lemma call_trace_inv :
  trace_inv (MkWorld s' (<[j := thread_continue th (k x)]> ths)) (tr ++ [(j, label_of s X e x s')]).
Proof.
  destruct (label_earned j s tr th X e k x s' (ti_account _ _ Hinv j th Hj) Hp) as (Hacc & Hack & Hreg & Hcomp).
  destruct (exec_oneshots _ _ _ _ _ Hex) as [Hlen Hsent].
  assert (Hcr : forall j' o, (j', Created o) ∈ tr ++ [(j, label_of s X e x s')] ->
            (j', Created o) ∈ tr /\ o < length (oneshots s) \/
            j' = j /\ o = length (oneshots s) /\ length (oneshots s') = S (length (oneshots s))).
  { intros j' o [Hin | [= -> Hl]]%elem_of_snoc; [left; split; [done | by apply (ti_created _ _ Hinv) in Hin] |].
    right. split; [done |]. by eapply created_label. }
  assert (Hjlt : j < length ths) by by eapply lookup_lt_Some.
  split; cbn [server threads].
  - intros j' th' [(Heq & <- & _) | [Hne Hj']]%list_lookup_insert_Some;
      [rewrite <- Heq; apply call_account | apply other_account; [congruence | done]].
  - intros i Hnone.
    assert (Hold : forall th0, th0 ∈ ths -> thread_task th0 <> Some i).
    { intros th0 Hin Ht. apply list_elem_of_lookup in Hin as [j0 Hj0]. destruct (decide (j0 = j)) as [-> | Hne].
      - apply (Hnone (thread_continue th (k x))); [| rewrite thread_continue_task; congruence].
        apply list_elem_of_lookup_2 with j. by apply list_lookup_insert_eq.
      - apply (Hnone th0); [| done]. apply list_elem_of_lookup_2 with j0. by rewrite list_lookup_insert_ne. }
    assert (Hf : foreign i X e) by (apply call_foreign, Hold; by apply list_elem_of_lookup_2 with j).
    destruct (ti_idle _ _ Hinv i Hold) as [Hh Ha]. rewrite accepted_snoc, handled_snoc, Hh, Ha.
    rewrite (handles_foreign _ _ _ _ _ _ Hf). split; [done |]. symmetry. by apply exec_mail.
  - intros j' o [[_ ?] | (_ & -> & ?)]%Hcr; lia.
  - intros j1 j2 o H1 H2. apply Hcr in H1 as [[H1 L1] | (-> & L1 & _)]; apply Hcr in H2 as [[H2 L2] | (-> & L2 & _)].
    + by eapply ti_creator.
    + lia.
    + lia.
    + done.
  - intros j' a sid o i Hin. apply elem_of_app. left.
    apply elem_of_snoc in Hin as [Hin | [= -> Hl]]; [by eapply ti_accepted | by eapply Hacc].
  - intros o Ho. assert (Hin : exists j' i sid, (j', Handled i (SessionOpened sid o) true) ∈ tr).
    { destruct (Hsent o Ho) as [Ho' | Hc]; [by apply (ti_sent _ _ Hinv) | by apply Hcomp]. }
    destruct Hin as (j' & i & sid & Hin). exists j', i, sid. apply elem_of_app. by left.
  - intros j' a sid c Hin.
    assert (He : exists e0, (j', Entered e0 (Some c)) ∈ tr /\ opens e0 a sid).
    { apply elem_of_snoc in Hin as [Hin | [= -> Hl]]; [by eapply ti_registered | by eapply Hreg]. }
    destruct He as (e0 & He & Ho). exists e0. split; [apply elem_of_app; by left | done].
  - apply acks_earned_snoc; [apply Hinv | exact Hack].
Qed.
End preservation.

(** What the start of a thread adds to a trace. *)
Lemma account_entry j s tr p l : entry_label p l -> account j s (tr ++ [(j, l)]) (ThOther p).
Proof.
  intros Hp. exists (entry_origin l), ONone. split; [by apply entry_opening | split; [exact I |]].
  intros e reply Hl. apply elem_of_snoc. right. destruct Hp; by inversion Hl.
Qed.

Lemma trace_inv_entry s ths tr p l j :
  entry_label p l -> trace_inv (MkWorld s ths) tr -> trace_inv (MkWorld s ths) (tr ++ [(j, l)]).
Proof.
  intros Hp [Hacc Hidle Hc1 Hc2 Hc3 Hc4 Hc5 Hc6]. cbn [server threads] in *.
  assert (Hl : (exists e reply, l = Entered e reply) \/ l = Silent) by (destruct Hp; eauto).
  assert (Ha : forall i, accepted i (tr ++ [(j, l)]) = accepted i tr /\ handled i (tr ++ [(j, l)]) = handled i tr).
  { intros i. rewrite accepted_snoc, handled_snoc. destruct Hl as [(e & reply & ->) | ->]; cbn; by rewrite !app_nil_r. }
  assert (Hin : forall y : nat * label, y ∈ tr -> y ∈ tr ++ [(j, l)]) by (intros y Hy; apply elem_of_app; by left).
  assert (Hold : forall j' l', (j', l') ∈ tr ++ [(j, l)] -> (forall e reply, l' <> Entered e reply) -> l' <> Silent -> (j', l') ∈ tr).
  { intros j' l' [? | [= -> ->]]%elem_of_snoc He Hs; [done |]. destruct Hl as [(e & reply & ->) | ->]; [by destruct (He e reply) | done]. }
  split; cbn [server threads].
  - intros j' th Hj. specialize (Hacc _ _ Hj). destruct th as [i q | q]; cbn in Hacc |- *.
    + destruct Hacc as (ph & Hk & Hph). exists ph. split; [done |]. destruct (Ha i) as [Ha1 Ha2].
      unfold phase_ok in *. rewrite Ha1, Ha2. destruct ph; try done.
      destruct Hph as [H1 [j0 H2]]. split; [done |]. exists j0. by apply Hin.
    + destruct Hacc as (og & st & Hk & Hst & Hog). exists og, st. split_and!; [done | | eauto].
      apply opening_ok_mono; [| done]. intros a sid o i ->. by destruct Hl as [(? & ? & ?) | ?].
  - intros i Hn. destruct (Ha i) as [-> ->]. by apply Hidle.
  - intros j' o H. by apply (Hc1 j'), Hold.
  - intros j1 j2 o H1 H2. by apply (Hc2 j1 j2 o); apply Hold.
  - intros j' a sid o i H. apply Hin. eapply Hc3. by apply Hold in H.
  - intros o Ho. destruct (Hc4 o Ho) as (j' & i & sid & H). exists j', i, sid. by apply Hin.
  - intros j' a sid c H. apply Hold in H; [| done..]. destruct (Hc5 _ _ _ _ H) as (e & He & Ho).
    exists e. split; [by apply Hin | done].
  - apply acks_earned_snoc; [done |]. intros c e ok ->. by destruct Hl as [(? & ? & ?) | ?].
Qed.

Lemma start_trace_inv s ths ths' tr l :
  trace_inv (MkWorld s ths) tr -> starts s ths l ths' -> trace_inv (MkWorld s ths') (tr ++ l).
Proof.
  intros Hinv Hs.
  assert (Hinv' : trace_inv (MkWorld s ths) (tr ++ l)).
  { destruct Hs; rewrite ?app_nil_r; [by eapply trace_inv_entry | done | done]. }
  pose proof Hinv' as [Hacc Hidle Hc1 Hc2 Hc3 Hc4 Hc5 Hc6]. cbn [server threads] in *.
  split; cbn [server threads]; try done.
  - intros j th Hj. destruct Hs as [p l Hp | i t fuel Ht Hnone | j0 i p t Hj0 Ht _ _].
    + apply lookup_app_Some in Hj as [Hj | [Hge Hj]]; [by apply Hacc |].
      apply list_lookup_singleton_Some in Hj as [Hz <-]. assert (j = length ths) as -> by lia. by apply account_entry.
    + apply lookup_app_Some in Hj as [Hj | [_ Hj]]; [by apply Hacc |].
      apply list_lookup_singleton_Some in Hj as [_ <-]. exists PIdle. split; [apply actor_task_phase |].
      cbn. by destruct (Hidle i Hnone) as [-> ->].
    + apply list_lookup_insert_Some in Hj as [(-> & <- & _) | [_ Hj]]; [| by apply Hacc].
      destruct (Hacc _ _ Hj0) as (ph & _ & Hph). exists ph. split; [apply drop_task_phase | done].
  - intros i Hnone. apply Hidle. intros th Hin Hth.
    destruct Hs as [p l Hp | i' t fuel Ht _ | j0 i' p t Hj0 Ht _ _].
    + apply (Hnone th); [apply elem_of_app; by left | done].
    + apply (Hnone th); [apply elem_of_app; by left | done].
    + apply list_elem_of_lookup in Hin as [j1 Hj1]. destruct (decide (j1 = j0)) as [-> | Hne].
      * assert (th = ThActor i' p) as -> by congruence. apply (Hnone (ThActor i' (drop_task i'))); [| done].
        apply list_elem_of_lookup_2 with j0. apply list_lookup_insert_eq. by eapply lookup_lt_Some.
      * apply (Hnone th); [| done]. apply list_elem_of_lookup_2 with j1. by rewrite list_lookup_insert_ne.
Qed.

(** Ids of tasks do not wrap before a move that does not make them wrap. *)
Lemma moves_bound w l w' : moves w l w' -> spawn_bound (server w') -> spawn_bound (server w).
Proof.
  intros [s ths j th X e k x s' Hj Hp Hex | s ths l0 ths' Hs]; cbn; [| done]. unfold spawn_bound.
  destruct (exec_new _ _ _ _ _ _ Hex) as [Hl | (? & Hl & _)]; rewrite Hl; lia.
Qed.

Lemma execution_inv w tr : execution w tr -> spawn_bound (server w) -> trace_inv w tr.
Proof.
  induction 1 as [| w tr l w' Hrun IH Hm]; intros Hb.
  - split; cbn; try done.
    + by intros j o ?%elem_of_nil.
    + by intros j j' o ?%elem_of_nil.
    + by intros j a sid o i ?%elem_of_nil.
    + by intros j a sid c ?%elem_of_nil.
    + by intros [] j c e ok tr2 [=].
  - pose proof (moves_bound _ _ _ Hm Hb) as Hb0.
    pose proof (reachable_world_inv _ _ (execution_reachable _ _ Hrun) Hb0) as Hw.
    destruct Hm as [s ths j th X e k x s' Hj Hp Hex | s ths l0 ths' Hs].
    + by apply call_trace_inv; [.. | apply IH | | |].
    + eapply start_trace_inv; [by apply IH | exact Hs].
Qed.

(** What a positive acknowledgement in a trace says. *)
Lemma execution_ack w tr1 tr2 j c e ok :
  execution w (tr1 ++ (j, Emitted c e ok) :: tr2) -> spawn_bound (server w) -> positive_ack e = true ->
  exists a sid request i o j',
    env_session_id e = session_id_as_bytes sid /\
    (j, Entered request (Some c)) ∈ tr1 ++ (j, Emitted c e ok) :: tr2 /\ opens request a sid /\
    (j, Registered a sid c) ∈ tr1 /\
    (j, Accepted a (SessionOpened sid o) i) ∈ tr1 /\
    (j', Handled i (SessionOpened sid o) true) ∈ tr1.
Proof.
  intros Hrun Hb Hack. pose proof (execution_inv w _ Hrun Hb) as Hinv.
  destruct (ti_acks _ _ Hinv tr1 j c e ok tr2 eq_refl Hack) as (a & sid & Hsid & Hreg & i & o & j' & Hacc & Hh).
  destruct (ti_registered _ _ Hinv j a sid c) as (request & Hin & Ho); [apply elem_of_app; by left |].
  by exists a, sid, request, i, o, j'.
Qed.
End trace.
