(* ===== verification/RuntimeProps.v ===== *)
(** * Properties of the Server runtime

    An executable scheduler for [RuntimeWorld] (so that executions can be
    evaluated), and the theorems about reachable worlds: capacity and routes,
    exclusivity of an Actor's handlers, passivation without loss, the status
    machine, and the discipline of the inbound procedures. *)

From S2P Require Import Prelude Text Address Transport Session Runtime RuntimeInv RuntimeActor RuntimeWorld.
Import Registry.

(** ** An executable scheduler *)

(** What the scheduler picks where the code has a choice: a boolean reply, the
    outcome of an activation, a resolution, or a wake-up. *)
Inductive hint :=
| HNone
| HBool (b : bool)
| HActivation (x : activation)
| HResolve (x : result SendError resolved)
| HWake (x : wakeup).

Definition hint_bool (h : hint) : bool :=
  match h with
  | HBool b => b
  | _ => false
  end.

Definition owned_by (i : TaskId) (s : ServerState) : bool :=
  existsb (fun e => bool_decide (task e.2 = i)) (map_to_list (actors s)).

Definition wake (i : TaskId) (h : hint) (s : ServerState) : option (wakeup * ServerState) :=
  match tasks s !! i with
  | None => None
  | Some t =>
      if shutdown_sent t && negb (shutdown_seen t)
      then Some (ShutdownRequested, update_task i with_shutdown_seen s)
      else if negb (owned_by i s) then Some (ShutdownSenderGone, s)
      else match mailbox t with
           | m :: _ => Some (MessageReceived m, update_task i (fun t => with_mailbox t (tail (mailbox t))) s)
           | [] =>
               if receiver_closed t then Some (MailboxClosed, s)
               else match h with
                    | HWake IdleTimeout => Some (IdleTimeout, s)
                    | _ => None
                    end
           end
  end.

Definition exec_fn (config : ServerConfig) X (s : ServerState) (e : runtimeE X) (h : hint)
    : option (X * ServerState) :=
  match e in runtimeE X return option (X * ServerState) with
  | AuthorityInvalid => Some (hint_bool h, s)
  | LoadStatus => Some (status s, s)
  | DispatchLocked a m reservation =>
      if (if reservation is Some p then bool_decide (p ∈ reserved s) else true)
      then dispatch_locked config a m reservation s else None
  | DispatchIfActive a m => Some (dispatch_message_if_active a m s)
  | DropMessage m => Some ((), drop_message m s)
  | DropReservation reservation =>
      if (if reservation is Some p then bool_decide (p ∈ reserved s) else true)
      then Some ((), drop_reservation reservation s) else None
  | ResolveOwner a =>
      match h with
      | HResolve (Ok (ResolvedLocal (Some _))) =>
          match try_acquire s with
          | None => Some (Err RuntimeAtCapacity, s)
          | Some s1 => Some (Ok (ResolvedLocal (Some (next_permit s))),
                             with_reserved s1 ({[next_permit s]} ∪ reserved s) (S (next_permit s)))
          end
      | HResolve x => Some (x, s)
      | _ => None
      end
  | ReleaseOwner a => Some (hint_bool h, s)
  | RegisterActor a sid sender =>
      let '(x, r) := register_actor (sessions s) a sid sender in Some (x, with_sessions s r)
  | UnregisterActor a sid =>
      let '(x, r) := unregister_actor (sessions s) a sid in Some (x, with_sessions s r)
  | Sink a sid => Some (sink (sessions s) a sid, s)
  | IsBoundTo a sid sender => Some (is_bound_to (sessions s) a sid sender, s)
  | HasLiveSessions a => Some (has_live_sessions (sessions s) a, s)
  | ActorSnapshot a => Some (by_actor_snapshot (sessions s) a, s)
  | SenderSnapshot sender => Some (by_sender_snapshot (sessions s) sender, s)
  | ActorAddresses => Some (by_actor_addresses (sessions s), s)
  | NewOneshot => Some (length (oneshots s), with_oneshots s (oneshots s ++ [Waiting]))
  | CompleteOneshot o r => Some ((), complete_oneshot o r s)
  | AwaitOneshot o =>
      match oneshots s !! o with
      | Some (Sent r) => Some (Some r, s)
      | Some SenderDropped => Some (None, s)
      | _ => None
      end
  | TrySend sender e => Some (hint_bool h, with_outbox s (outbox s ++ [(sender, e)]))
  | UserActivate i =>
      Some (match h with HActivation x => x | _ => ActivateOk end, with_outbox s (outbox s ++ []))
  | UserMessage i m => Some (hint_bool h, with_outbox s (outbox s ++ []))
  | UserDeactivate i _ => Some ((), with_outbox s (outbox s ++ []))
  | Select i => wake i h s
  | CloseReceiver i => Some ((), update_task i with_receiver_closed s)
  | RecvClosed i =>
      match tasks s !! i with
      | None => None
      | Some t => Some (head (mailbox t), update_task i (fun t => with_mailbox t (tail (mailbox t))) s)
      end
  | BeginDeactivation i =>
      match tasks s !! i with
      | None => None
      | Some t => Some (begin_deactivation (task_address t) (task_generation t) i s)
      end
  | RemoveRoute i =>
      match tasks s !! i with
      | None => None
      | Some t => Some ((), remove_route (task_address t) (task_generation t) s)
      end
  | DropGuard i => Some ((), drop_guard i s)
  | DropReceiver i => Some ((), drop_receiver i s)
  | ShutdownSnapshot => Some (shutdown_snapshot s)
  | FenceSnapshot => Some (fence_snapshot s)
  | WaitCompleted is_ bounded =>
      if forallb (fun i => from_option completed true (tasks s !! i)) is_ then Some (false, s)
      else if bounded then Some (true, s) else None
  | AbortTasks is_ => Some ((), for_tasks is_ with_abort_requested s)
  | ClearActors => Some ((), clear_actors s)
  | AbortInboundTasks => Some ((), s)
  | StoreStatus st => Some ((), with_status s st)
  end.

Inductive action :=
| AStep (j : nat) (h : hint)
| AInbound (e : Envelope) (reply : option SenderId)
| ADisconnect (sender : SenderId)
| AShutdown
| AFence
| ASpawn (i : TaskId) (fuel : nat)
| AAbort (j : nat).

Definition has_thread (i : TaskId) (ths : list thread) : bool :=
  existsb (fun th => bool_decide (thread_task th = Some i)) ths.

Definition act (config : ServerConfig) (w : world) (x : action) : option world :=
  let (s, ths) := w in
  match x with
  | AStep j h =>
      match ths !! j with
      | None => None
      | Some th =>
          match thread_proc th with
          | Ret _ => None
          | Call e k =>
              match exec_fn config _ s e h with
              | None => None
              | Some (x, s') => Some (MkWorld s' (<[j := thread_continue th (k x)]> ths))
              end
          end
      end
  | AInbound e reply => Some (MkWorld s (ths ++ [ThOther (dispatch_inbound config e reply)]))
  | ADisconnect sender => Some (MkWorld s (ths ++ [ThOther (close_sessions_for_sender sender)]))
  | AShutdown => Some (MkWorld s (ths ++ [ThOther (bind! _ := shutdown; Ret ())]))
  | AFence => Some (MkWorld s (ths ++ [ThOther fence]))
  | ASpawn i fuel =>
      match tasks s !! i with
      | None => None
      | Some t =>
          if has_thread i ths then None
          else Some (MkWorld s (ths ++ [ThActor i (actor_task config fuel i (task_address t))]))
      end
  | AAbort j =>
      match ths !! j with
      | Some (ThActor i _) =>
          match tasks s !! i with
          | Some t => if abort_requested t && negb (completed t)
                      then Some (MkWorld s (<[j := ThActor i (drop_task i)]> ths)) else None
          | None => None
          end
      | _ => None
      end
  end.

Fixpoint run_actions (config : ServerConfig) (w : world) (l : list action) : option world :=
  match l with
  | [] => Some w
  | x :: l => match act config w x with
              | Some w => run_actions config w l
              | None => None
              end
  end.

(** [n] steps of thread [j] without a choice to make. *)
Definition steps (j n : nat) : list action := repeat (AStep j HNone) n.

Section scheduler.
Context (config : ServerConfig).

Lemma owned_by_true i s : owned_by i s = true <-> exists a r, actors s !! a = Some r /\ task r = i.
Proof.
  unfold owned_by. rewrite existsb_exists. split.
  - intros ([a r] & Hin & Ht%bool_decide_eq_true). exists a, r. split; [| done].
    by apply elem_of_map_to_list, list_elem_of_In.
  - intros (a & r & Ha & Ht). exists (a, r). split; [| by apply bool_decide_eq_true_2].
    by apply list_elem_of_In, elem_of_map_to_list.
Qed.

Lemma wake_sound i h s x s' : wake i h s = Some (x, s') -> exec_effect config _ s (Select i) x s'.
Proof.
  unfold wake. destruct (tasks s !! i) as [t |] eqn:Ht; [| done]. intros Hw. exists t. split; [done |].
  destruct (shutdown_sent t) eqn:Hs, (shutdown_seen t) eqn:Hse; cbn in Hw;
    try (injection Hw as <- <-; cbn; done);
    (destruct (owned_by i s) eqn:Ho; cbn in Hw;
     [apply owned_by_true in Ho
     | injection Hw as <- <-; cbn; split; [by intros [] |]; split; [| done];
       intros Hown; apply owned_by_true in Hown; congruence]);
    (destruct (mailbox t) as [| m ms] eqn:Hm;
     [destruct (receiver_closed t) eqn:Hc; [| destruct h as [| | | | []]; try done]; injection Hw as <- <-;
      cbn; (split; [by intros [] | done])
     | injection Hw as <- <-; cbn; split; [by intros [] | done]]).
Qed.

Lemma exec_fn_sound X (e : runtimeE X) h s x s' :
  exec_fn config X s e h = Some (x, s') -> exec_effect config X s e x s'.
Proof.
  intros Hf. destruct e; cbn [exec_fn] in Hf; try (apply wake_sound in Hf; exact Hf);
    try (injection Hf as <- <-; cbn; try done; by exists []).
  - cbn. destruct reservation as [p |]; [case_bool_decide; [| done] |]; (split; [intros p' [=]; by subst |]; done).
  - injection Hf as Hf. by cbn.
  - cbn. destruct reservation as [p |]; [case_bool_decide; [| done] |]; injection Hf as <- <-;
      (split; [intros p' [=]; by subst | done]).
  - destruct h as [| | | [[[p |] |] |] |]; try done; try (injection Hf as <- <-; done).
    destruct (try_acquire s) as [s1 |] eqn:Hacq; injection Hf as <- <-; cbn; [eauto | done].
  - destruct (register_actor _ _ _ _) as [ok r] eqn:Hr. injection Hf as <- <-. cbn. by rewrite Hr.
  - destruct (unregister_actor _ _ _) as [ok r] eqn:Hr. injection Hf as <- <-. cbn. by rewrite Hr.
  - destruct (oneshots s !! o) as [[] |] eqn:Ho; try done; injection Hf as <- <-; done.
  - destruct (tasks s !! i) as [t |] eqn:Ht; [| done]. injection Hf as <- <-. exists t. done.
  - destruct (tasks s !! i) as [t |] eqn:Ht; [| done]. injection Hf as Hf. exists t. by rewrite Hf.
  - destruct (tasks s !! i) as [t |] eqn:Ht; [| done]. injection Hf as _ <-. exists t. done.
  - injection Hf as Hf. by cbn.
  - cbn. destruct (forallb _ is_) eqn:Hall.
    + injection Hf as <- <-. split; [done |]. intros i t Hi Ht.
      rewrite forallb_forall in Hall. specialize (Hall i). rewrite Ht in Hall. cbn in Hall.
      apply Hall. by apply list_elem_of_In.
    + destruct bounded; [| done]. by injection Hf as <- <-.
Qed.

Lemma act_sound w x w' : act config w x = Some w' -> world_step config w w'.
Proof.
  destruct w as [s ths], x; cbn [act]; intros Hact.
  - destruct (ths !! j) as [th |] eqn:Hj; [| done]. destruct (thread_proc th) as [| X e k] eqn:Hp; [done |].
    destruct (exec_fn config X s e h) as [[x s'] |] eqn:Hf; [| done]. injection Hact as <-.
    eapply step_call; [done | done | by eapply exec_fn_sound].
  - injection Hact as <-. apply step_entry. constructor.
  - injection Hact as <-. apply step_entry. constructor.
  - injection Hact as <-. apply step_entry. constructor.
  - injection Hact as <-. apply step_entry. constructor.
  - destruct (tasks s !! i) as [t |] eqn:Ht; [| done]. destruct (has_thread i ths) eqn:Hh; [done |].
    injection Hact as <-. apply step_spawn; [done |]. intros th Hin Heq.
    assert (Htrue : has_thread i ths = true).
    { unfold has_thread. apply existsb_exists. exists th. split; [by apply list_elem_of_In | by apply bool_decide_eq_true_2]. }
    congruence.
  - destruct (ths !! j) as [[i p |] |] eqn:Hj; try done. destruct (tasks s !! i) as [t |] eqn:Ht; [| done].
    destruct (abort_requested t) eqn:Ha; [| done]. destruct (completed t) eqn:Hc; [done |].
    injection Hact as <-. by eapply step_abort.
Qed.

Lemma run_actions_sound w l w' : run_actions config w l = Some w' -> rtc (world_step config) w w'.
Proof.
  revert w. induction l as [| x l IH]; cbn; intros w Hr; [by injection Hr as <- |].
  destruct (act config w x) as [w1 |] eqn:Ha; [| done].
  eapply rtc_l; [by eapply act_sound | by apply IH].
Qed.

End scheduler.

(** ** A small Server and its executions *)
Definition demo_config : ServerConfig :=
  MkServerConfig {["room" := MkRegistration 2 60000000000]} 2 true 2.

Definition lobby : ActorAddress := MkActorAddress "room" "lobby".
Definition demo_session : SessionId := MkSessionId "0123456789abcdef".
Definition demo_session2 : SessionId := MkSessionId "fedcba9876543210".

(** A Client opens a Session, the actor activates and handles the opening. *)
Definition open_script : list action :=
  [AInbound (envelope_session_open lobby demo_session) (Some 7%N);
   AStep 0 (HResolve (Ok (ResolvedLocal (Some 0))))] ++ steps 0 5 ++
  [ASpawn 0 20] ++ steps 1 2 ++ [AStep 1 (HBool true)] ++ steps 1 1 ++ steps 0 1 ++ [AStep 0 (HBool true)].

(** The Client closes it, and the actor passivates. *)
Definition passivate_script : list action :=
  open_script ++ [AInbound (envelope_session_close lobby demo_session) (Some 7%N)] ++ steps 2 3 ++
  steps 1 1 ++ [AStep 1 (HBool true); AStep 1 (HWake IdleTimeout)] ++ steps 1 2.

(** The effect a thread performs next. *)
Definition next_effect (w : world) (j : nat) : option {X & runtimeE X} :=
  match threads w !! j with
  | Some th => match thread_proc th with
               | Call e _ => Some (existT _ e)
               | Ret _ => None
               end
  | None => None
  end.

(** ** The inbound procedures *)

(** What [dispatch_inbound] has done: the reply of [is_bound_to], the Session and
    the capacity reservation it holds, whether the actor acknowledged the opening,
    and what it sent back. *)
Record inbound_ghost := MkInboundGhost {
  g_bound : bool;
  g_registered : bool;
  g_opened : bool;
  g_permit : option PermitId;
  g_sent : list Envelope
}.

Definition inbound_ghost0 : inbound_ghost := MkInboundGhost false false false None [].

Section inbound.
Context (config : ServerConfig) (i : inbound) (sender : option SenderId).

Definition version_ok : Prop := in_version i = transport_protocol_version config.

(** Each access, for the envelope's Actor and Session alone: an Action reaches a
    mailbox only from the sender its Session is bound to; a Session is registered
    for the sender that asked; only the bound sender closes it; a reservation is
    used once; at most one reply is sent, to the sender, of the kind that fits. *)
Definition inbound_allowed X (g : inbound_ghost) (e : runtimeE X) : Prop :=
  match e with
  | AuthorityInvalid | LoadStatus | NewOneshot | AwaitOneshot _ | DropMessage _ => True
  | Sink a sid => a = in_address i /\ sid = in_session i
  | IsBoundTo a sid c => a = in_address i /\ sid = in_session i /\ Some c = sender
  | ResolveOwner a => a = in_address i /\ in_kind i = KSessionOpen /\ version_ok /\ clustered config = true
  | DispatchLocked a m reservation =>
      a = in_address i /\ reservation = g_permit g /\
      match m with
      | Action sid p => sid = in_session i /\ g_bound g = true /\ in_kind i = KAction p /\ version_ok
      | SessionOpened sid _ => sid = in_session i /\ g_registered g = true /\ in_kind i = KSessionOpen
      | SessionClosed _ => False
      end
  | DispatchIfActive a m =>
      a = in_address i /\ m = SessionClosed (in_session i) /\ g_bound g = true
  | DropReservation reservation => reservation = g_permit g
  | RegisterActor a sid c =>
      a = in_address i /\ sid = in_session i /\ Some c = sender /\ in_kind i = KSessionOpen /\ version_ok
  | UnregisterActor a sid =>
      a = in_address i /\ sid = in_session i /\ (g_registered g = true \/ g_bound g = true)
  | TrySend c e =>
      Some c = sender /\ g_sent g = [] /\
      match in_kind i with
      | KSessionOpen => exists r, e = envelope_opened_ack (session_id_as_bytes (in_session i)) r
      | KAction _ => exists error, e = envelope_session_error (session_id_as_bytes (in_session i)) error
      | _ => False
      end
  | _ => False
  end.

Definition inbound_observe X (g : inbound_ghost) (e : runtimeE X) : X -> inbound_ghost -> Prop :=
  match e in runtimeE X return X -> inbound_ghost -> Prop with
  | IsBoundTo _ _ _ => fun x g' => g' = MkInboundGhost x (g_registered g) (g_opened g) (g_permit g) (g_sent g)
  | RegisterActor _ _ _ => fun x g' => g' = MkInboundGhost (g_bound g) x (g_opened g) (g_permit g) (g_sent g)
  | UnregisterActor _ _ => fun _ g' => g' = MkInboundGhost (g_bound g) false (g_opened g) (g_permit g) (g_sent g)
  | AwaitOneshot _ => fun x g' =>
      g' = MkInboundGhost (g_bound g) (g_registered g) (if x is Some (Ok _) then true else false) (g_permit g) (g_sent g)
  | ResolveOwner _ => fun x g' =>
      g' = MkInboundGhost (g_bound g) (g_registered g) (g_opened g)
             (if x is Ok (ResolvedLocal p) then p else None) (g_sent g)
  | DispatchLocked _ _ _ | DropReservation _ => fun _ g' =>
      g' = MkInboundGhost (g_bound g) (g_registered g) (g_opened g) None (g_sent g)
  | TrySend _ e => fun _ g' =>
      g' = MkInboundGhost (g_bound g) (g_registered g) (g_opened g) (g_permit g) (g_sent g ++ [e])
  | _ => fun _ g' => g' = g
  end.

Definition inbound_monitor : monitor runtimeE inbound_ghost :=
  Monitor runtimeE inbound_ghost inbound_allowed inbound_observe.

(** At the end: no reservation is left, an opening was answered exactly once, with
    success exactly if the actor acknowledged it, and its Session is registered by
    then exactly if it was answered with success. *)
Definition inbound_post (g : inbound_ghost) : Prop :=
  g_permit g = None /\
  match in_kind i, sender with
  | KSessionOpen, Some _ =>
      exists r, g_sent g = [envelope_opened_ack (session_id_as_bytes (in_session i)) r] /\
                g_opened g = is_ok r /\ g_registered g = is_ok r
  | KAction _, _ => length (g_sent g) <= 1 /\ g_registered g = false
  | _, _ => g_sent g = [] /\ g_registered g = false
  end.

Ltac inbound_step :=
  cbn [wp inbound_monitor allowed observe inbound_allowed inbound_observe];
  split; [| let x := fresh "x" in let g' := fresh "g" in intros x g' ->].

(** What a dispatched opening or Action leaves behind. *)
Lemma dispatch_message_inbound m g (Q : result SendError unit -> inbound_ghost -> Prop) :
  match m with
  | Action sid p => sid = in_session i /\ g_bound g = true /\ in_kind i = KAction p /\ version_ok
  | SessionOpened sid _ => sid = in_session i /\ g_registered g = true /\ in_kind i = KSessionOpen
  | SessionClosed _ => False
  end ->
  (forall r, Q r (MkInboundGhost (g_bound g) (g_registered g) (g_opened g) None (g_sent g))) ->
  wp inbound_monitor g (dispatch_message (in_address i) m (g_permit g)) Q.
Proof.
  intros Hm HQ. unfold dispatch_message, dispatch_guard. apply wp_bind.
  inbound_step; [done |]. destruct x; cbn [wp].
  - inbound_step; [done |]. inbound_step; [done |]. apply HQ.
  - inbound_step; [done |]. cbn [wp]. destruct x.
    + inbound_step; [done |]. apply HQ.
    + inbound_step; [done |]. inbound_step; [done |]. apply HQ.
    + inbound_step; [done |]. inbound_step; [done |]. apply HQ.
    + inbound_step; [done |]. inbound_step; [done |]. apply HQ.
Qed.

Definition open_post (r : result SendError unit) (g : inbound_ghost) : Prop :=
  g_sent g = [] /\ g_permit g = None /\ g_opened g = is_ok r /\ g_registered g = is_ok r.

Lemma open_local_session_inbound c reservation :
  Some c = sender -> in_kind i = KSessionOpen -> version_ok ->
  wp inbound_monitor (MkInboundGhost false false false reservation [])
    (open_local_session config (in_address i) (in_session i) c reservation) open_post.
Proof.
  intros Hc Hk Hv. unfold open_local_session.
  destruct (registrations config !! _); [| by inbound_step].
  inbound_step; [done |]. destruct x; cbn [negb]; [| by inbound_step].
  inbound_step; [done |]. apply wp_bind.
  apply (dispatch_message_inbound (SessionOpened (in_session i) x) (MkInboundGhost false true false reservation [])); [done |].
  intros [] ; cbn [wp g_bound g_registered g_opened g_permit g_sent].
  - inbound_step; [done |]. destruct x0 as [[[] |] |]; [done | |].
    + inbound_step; [split_and!; auto |]. done.
    + inbound_step; [split_and!; auto |]. done.
  - inbound_step; [split_and!; auto |]. done.
Qed.

Lemma resolve_and_open_inbound c :
  Some c = sender -> in_kind i = KSessionOpen -> version_ok ->
  wp inbound_monitor inbound_ghost0 (resolve_and_open config (in_address i) (in_session i) c) open_post.
Proof.
  intros Hc Hk Hv. unfold resolve_and_open. destruct (clustered config) eqn:Hcl.
  - inbound_step; [done |]. destruct x as [[p |] |]; [by apply open_local_session_inbound | done | done].
  - by apply open_local_session_inbound.
Qed.

Lemma bound_to_reply_inbound (Q : bool -> inbound_ghost -> Prop) :
  Q false inbound_ghost0 -> Q true (MkInboundGhost true false false None []) ->
  wp inbound_monitor inbound_ghost0 (bound_to_reply (in_address i) (in_session i) sender) Q.
Proof.
  intros Hf Ht. unfold bound_to_reply. destruct sender as [c |] eqn:Hs; [| done].
  inbound_step; [by rewrite Hs |]. by destruct x.
Qed.

Lemma send_session_error_inbound error g p :
  in_kind i = KAction p -> g_permit g = None -> g_sent g = [] -> g_registered g = false ->
  wp inbound_monitor g (send_session_error sender (session_id_as_bytes (in_session i)) error) (fun _ => inbound_post).
Proof.
  intros Hk Hp Hs Hr. unfold send_session_error, inbound_post. rewrite Hk. destruct sender as [c |] eqn:Hc.
  - inbound_step; [rewrite Hk, Hc; eauto |]. cbn. rewrite Hs. cbn. split_and!; [done | lia | done].
  - cbn. rewrite Hs. cbn. split_and!; [done | lia | done].
Qed.
End inbound.

(** ** Status *)

(** The order in which the status advances; [FENCED] and [STOPPED] are final but
    for each other. *)
Definition status_step (st st' : Status) : bool :=
  match st, st' with
  | RUNNING, _ => true
  | SHUTTING_DOWN, RUNNING => false
  | SHUTTING_DOWN, _ => true
  | _, RUNNING | _, SHUTTING_DOWN => false
  | _, _ => true
  end.

Section status.
Context (config : ServerConfig).

Lemma status_step_refl st : status_step st st = true.
Proof. by destruct st. Qed.

Lemma status_step_trans st1 st2 st3 :
  status_step st1 st2 = true -> status_step st2 st3 = true -> status_step st1 st3 = true.
Proof. by destruct st1, st2, st3. Qed.

Lemma resolve_oneshot_status o x s : status (resolve_oneshot o x s) = status s.
Proof. unfold resolve_oneshot. by destruct (oneshots s !! o) as [[] |]. Qed.

Lemma drop_message_status m s : status (drop_message m s) = status s.
Proof. destruct m; [done | apply resolve_oneshot_status | done]. Qed.

Lemma fail_message_status m e s : status (fail_message m e s) = status s.
Proof. destruct m; [done | apply resolve_oneshot_status | done]. Qed.

Lemma drop_messages_status ms s : status (drop_messages ms s) = status s.
Proof. induction ms as [| m ms IH]; [done |]. cbn. by rewrite drop_message_status. Qed.

Lemma mailbox_try_send_status i m s : status (mailbox_try_send i m s).2 = status s.
Proof.
  unfold mailbox_try_send. destruct (tasks s !! i); [| done]. destruct (receiver_closed t); [done |].
  by destruct (_ <? _)%nat.
Qed.

Lemma remove_route_status a g s : status (remove_route a g s) = status s.
Proof.
  unfold remove_route, remove_entry. destruct (actors s !! a); [| done]. by destruct (_ =? _)%Z.
Qed.

Lemma for_tasks_status is_ f s : status (for_tasks is_ f s) = status s.
Proof. induction is_ as [| i is_ IH]; [done |]. by cbn. Qed.

Lemma start_route_status a m reservation s x s' :
  start_route config a m reservation s = Some (x, s') -> status s' = status s.
Proof.
  unfold start_route. set (permit := match reservation with Some p => _ | None => _ end).
  destruct permit as [s1 |] eqn:Hp; subst permit; [| intros [= <- <-]; apply fail_message_status].
  assert (Hs1 : status s1 = status s).
  { destruct reservation; [by injection Hp as <- |]. unfold try_acquire in Hp.
    destruct (available s); [done |]. by injection Hp as <-. }
  unfold spawn_actor. destruct (registrations config !! actor_type a); [| done].
  match goal with |- context [mailbox_try_send ?k ?m ?st] =>
    pose proof (mailbox_try_send_status k m st) as Hsend; destruct (mailbox_try_send k m st) as [outcome s2] end.
  cbn in Hsend. intros H. destruct outcome; injection H as <- <-; rewrite ?drop_message_status; cbn; congruence.
Qed.

Lemma drop_reservation_status r s : status (drop_reservation r s) = status s.
Proof. by destruct r. Qed.

Lemma exec_status X (e : runtimeE X) x s s' :
  static_allowed config X e -> exec_effect config X s e x s' -> status_step (status s) (status s') = true.
Proof.
  intros Hal Hex. assert (Heq : forall st, st = status s -> status_step (status s) st = true).
  { intros st ->. apply status_step_refl. }
  destruct e; cbn in Hal, Hex;
    repeat match goal with H : _ /\ _ |- _ => destruct H | H : exists _, _ |- _ => destruct H end;
    subst; try (by apply Heq).
  - apply Heq. unfold dispatch_locked in H0. destruct (actors s !! a) as [r |] eqn:Ha; [| by eapply start_route_status].
    destruct (state r).
    + pose proof (mailbox_try_send_status (task r) m s) as Hsend.
      assert (Hclosed : (mailbox_try_send (task r) m s).1 = SendClosed -> (mailbox_try_send (task r) m s).2 = s).
      { unfold mailbox_try_send. destruct (tasks s !! task r) as [t |]; [| done].
        destruct (receiver_closed t); [done |]. by destruct (_ <? _)%nat. }
      destruct (mailbox_try_send (task r) m s) as [[] s1]; cbn [fst snd] in *.
      * injection H0 as <- <-. by rewrite drop_reservation_status.
      * injection H0 as <- <-. by rewrite drop_reservation_status, fail_message_status.
      * apply start_route_status in H0. rewrite H0. rewrite (Hclosed eq_refl). unfold remove_entry. by rewrite Ha.
    + injection H0 as <- <-. by rewrite drop_reservation_status, drop_message_status.
  - apply Heq. unfold dispatch_message_if_active in Hex.
    destruct (actors s !! a) as [[g [] j] |]; [| by injection Hex as _ ->; rewrite drop_message_status..].
    pose proof (mailbox_try_send_status j m s) as Hsend. destruct (mailbox_try_send j m s) as [[] s1]; cbn in *;
      injection Hex as _ ->; rewrite ?drop_message_status; done.
  - apply Heq, drop_message_status.
  - apply Heq, drop_reservation_status.
  - apply Heq. destruct x as [[[p |] |] |]; subst; try done. destruct Hex as (s1 & Hacq & -> & ->).
    unfold try_acquire in Hacq. destruct (available s); [done |]. by injection Hacq as <-.
  - apply Heq, resolve_oneshot_status.
  - apply Heq. destruct x; repeat match goal with H : _ /\ _ |- _ => destruct H end; by subst.
  - apply Heq. unfold begin_deactivation in H0. destruct (actors s !! _); [| by injection H0 as _ ->].
    destruct (_ || _); by injection H0 as _ ->.
  - apply Heq, remove_route_status.
  - apply Heq. unfold drop_guard. destruct (tasks s !! i); [| done]. cbn. apply remove_route_status.
  - apply Heq. unfold drop_receiver. destruct (tasks s !! i); [| done]. by rewrite drop_messages_status.
  - unfold shutdown_snapshot in Hex. destruct (status s) eqn:Hst; injection Hex as -> ->; try done;
      by rewrite Hst.
  - unfold fence_snapshot in Hex. injection Hex as -> ->. rewrite for_tasks_status. by destruct (status s).
  - apply Heq, for_tasks_status.
  - by destruct (status s).
Qed.

Lemma world_step_status w w' :
  world_inv config w -> spawn_bound (server w) -> world_step config w w' ->
  status_step (status (server w)) (status (server w')) = true.
Proof.
  intros Hinv Hb Hs. destruct Hs as [s s' ths j th X e k x Hj Hp Hex | | |]; try apply status_step_refl.
  assert (Hok : thread_ok config s th) by by apply (wi_threads _ _ Hinv), list_elem_of_lookup_2 with j.
  destruct (thread_call config _ _ _ _ _ _ _ Hok Hp (wi_state _ _ Hinv) Hb Hex) as (Hal & _ & _).
  by eapply exec_status.
Qed.
End status.

(** ** Properties *)

(** The permits of the capacity semaphore, wherever they are. *)
Definition permits (s : ServerState) : nat := available s + size (actors s) + size (reserved s).

(** C22: in every reachable state of a Server, for any interleaving, capacity is
    conserved: free permits, routes and reservations under way add up to
    [max_active_actors], so no more Actors are routed than that.  Every route
    points to a task of its Actor and generation that has not completed, mailboxes
    stay within their configured capacity, and only registered Actor Types have
    Sessions or tasks. *)
Theorem runtime_capacity (config : ServerConfig) (w : world)
    (Hr : reachable config w) (Hb : spawn_bound (server w)) :
  permits (server w) = max_active_actors config /\
  size (actors (server w)) <= max_active_actors config /\
  (forall a r, actors (server w) !! a = Some r ->
     exists t, tasks (server w) !! task r = Some t /\ task_address t = a /\
               task_generation t = generation r /\ completed t = false) /\
  (forall i t, tasks (server w) !! i = Some t ->
     length (mailbox t) <= capacity t /\
     exists r, registrations config !! actor_type (task_address t) = Some r /\ capacity t = mailbox_capacity r) /\
  (forall a sid, is_Some (sink (sessions (server w)) a sid) -> is_Some (registrations config !! actor_type a)).
Proof.
  destruct (reachable_bound_state config w Hr Hb) as [Hp Hf Hroutes Ht Hg Hs Hreg].
  split_and!; [done | unfold permits in *; lia | done | | done].
  intros i t Hi. destruct (Ht i t Hi) as (_ & ? & ?). done.
Qed.

(** The world at the end of a script. *)
Definition final (l : list action) : world :=
  default (initial_world demo_config) (run_actions demo_config (initial_world demo_config) l).

Definition completes (l : list action) : bool :=
  match run_actions demo_config (initial_world demo_config) l with
  | Some _ => true
  | None => false
  end.

Lemma final_reachable l : completes l = true -> reachable demo_config (final l).
Proof.
  unfold completes, final. destruct (run_actions _ _ l) as [w |] eqn:Hw; [| done]. intros _.
  by apply run_actions_sound in Hw.
Qed.

Lemma runtime_capacity_witness :
  size (actors (server (final open_script))) = 1%nat /\
  permits (server (final open_script)) = max_active_actors demo_config.
Proof.
  assert (Hr : reachable demo_config (final open_script)) by (apply final_reachable; vm_compute; reflexivity).
  assert (Hb : spawn_bound (server (final open_script))) by (vm_compute; discriminate).
  split; [vm_compute; reflexivity |]. exact (proj1 (runtime_capacity demo_config (final open_script) Hr Hb)).
Defined.

Lemma call_effect_eq {A Y} (e : runtimeE Y) (k : Y -> proc runtimeE A) (q : {X & runtimeE X}) :
  existT Y e = q -> exists k', Call e k = Call (projT2 q) k'.
Proof. intros <-. by exists k. Qed.

Lemma next_effect_inv w j X (e : runtimeE X) :
  next_effect w j = Some (existT X e) ->
  exists th k, threads w !! j = Some th /\ thread_proc th = Call e k.
Proof.
  unfold next_effect. destruct (threads w !! j) as [th |]; [| done].
  destruct (thread_proc th) as [| Y e' k] eqn:Hp; [done |]. intros Heq.
  pose proof (f_equal (default (existT X e)) Heq) as He. cbn [default from_option] in He.
  destruct (call_effect_eq e' k _ He) as [k' Hk]. exists th, k'. by rewrite Hp.
Qed.

Definition thread_is_actor (w : world) (j i : nat) : bool :=
  bool_decide ((threads w !! j) ≫= thread_task = Some i).

Lemma next_actor_effect w j i X (e : runtimeE X) :
  next_effect w j = Some (existT X e) -> thread_is_actor w j i = true ->
  exists k, threads w !! j = Some (ThActor i (Call e k)).
Proof.
  intros He Ha%bool_decide_eq_true. destruct (next_effect_inv _ _ _ _ He) as (th & k & Hj & Hp).
  rewrite Hj in Ha. cbn in Ha. destruct th as [i' p | p]; [| done]. injection Ha as ->.
  cbn in Hp. subst p. eauto.
Qed.

(** Accesses an actor task makes only while it serves its Actor. *)
Definition serving_effect (i : TaskId) X (e : runtimeE X) : Prop :=
  match e with
  | UserActivate j | UserMessage j _ | Select j => j = i
  | _ => False
  end.

(** C13: an Actor's handlers run serially: in every reachable state, for one
    address at most one task with an open mailbox is about to activate, to wait
    for or to handle a message, and it does so in one thread.  (The routes must
    not have been cleared by a shutdown that timed out or by a fence; a second
    task of the address can only be one that is ending, with its mailbox closed.) *)
Theorem actor_exclusive (config : ServerConfig) (w : world) (j1 j2 i1 i2 : nat) X1 X2
    (e1 : runtimeE X1) (e2 : runtimeE X2) k1 k2 (t1 t2 : Task)
    (Hr : reachable config w) (Hb : spawn_bound (server w))
    (Hc : actors_cleared (server w) = false)
    (H1 : threads w !! j1 = Some (ThActor i1 (Call e1 k1))) (He1 : serving_effect i1 X1 e1)
    (H2 : threads w !! j2 = Some (ThActor i2 (Call e2 k2))) (He2 : serving_effect i2 X2 e2)
    (Ht1 : tasks (server w) !! i1 = Some t1) (Ho1 : receiver_closed t1 = false)
    (Ht2 : tasks (server w) !! i2 = Some t2) (Ho2 : receiver_closed t2 = false)
    (Ha : task_address t1 = task_address t2) :
  j1 = j2 /\ i1 = i2.
Proof.
  pose proof (reachable_world_inv config w Hr Hb) as Hinv.
  assert (Hroute : forall j i X (e : runtimeE X) k t,
    threads w !! j = Some (ThActor i (Call e k)) -> serving_effect i X e ->
    tasks (server w) !! i = Some t -> receiver_closed t = false ->
    exists r, actors (server w) !! task_address t = Some r /\ task r = i).
  { intros j i X e k t Hj He Ht Ho.
    destruct (reachable_allowed config w i X e k Hr Hb) as [a Hal]; [by apply list_elem_of_lookup_2 with j |].
    assert (Hserv : looping i a (server w) \/ draining i a (server w)).
    { destruct e; try done; cbn in Hal; destruct Hal as [_ Hal]; auto. }
    destruct Hserv as [[(t' & Ht' & Hta & _) [(b & r & Hb' & Htr) | ?]] | (t' & Ht' & _ & _ & Hcl)]; [| congruence..].
    assert (t' = t) as -> by congruence.
    destruct (inv_routes _ _ (wi_state _ _ Hinv) _ _ Hb') as (t'' & Ht'' & Hb'' & _).
    exists r. split; [| done]. congruence. }
  destruct (Hroute _ _ _ _ _ _ H1 He1 Ht1 Ho1) as (r1 & Hr1 & Htr1).
  destruct (Hroute _ _ _ _ _ _ H2 He2 Ht2 Ho2) as (r2 & Hr2 & Htr2).
  rewrite Ha in Hr1. assert (Hi : i1 = i2) by congruence. split; [| done].
  eapply (wi_unique _ _ Hinv); [exact H1 | exact H2 | done | by cbn; congruence].
Qed.

Lemma actor_exclusive_witness :
  exists k, threads (final open_script) !! 1 = Some (ThActor 0 (Call (Select 0) k)) /\ 1 = 1 /\ 0 = 0.
Proof.
  assert (Hr : reachable demo_config (final open_script)) by (apply final_reachable; vm_compute; reflexivity).
  assert (Hb : spawn_bound (server (final open_script))) by (vm_compute; discriminate).
  assert (Hc : actors_cleared (server (final open_script)) = false) by (vm_compute; reflexivity).
  destruct (next_actor_effect (final open_script) 1 0 _ (Select 0)) as [k Hk]; [vm_compute; reflexivity.. |].
  assert (Ht : exists t, tasks (server (final open_script)) !! 0 = Some t /\ receiver_closed t = false)
    by (eexists; split; vm_compute; reflexivity).
  destruct Ht as (t & Ht & Ho).
  exists k. split; [exact Hk |].
  exact (actor_exclusive demo_config (final open_script) 1 1 0 0 _ _ (Select 0) (Select 0) k k t t
           Hr Hb Hc Hk eq_refl Hk eq_refl Ht Ho Ht Ho eq_refl).
Defined.

(** Accesses by which an actor task gives up its Actor. *)
Definition gives_up X (e : runtimeE X) : Prop :=
  match e with
  | UserDeactivate _ _ | ReleaseOwner _ => True
  | _ => False
  end.

(** C14: passivation loses nothing: in every reachable state, a task about to run
    its deactivation handler or to release its Actor's ownership has an empty
    mailbox, and no access of any other thread can put a message into it. *)
Theorem passivation_loses_nothing (config : ServerConfig) (w : world) (i : TaskId) X (e : runtimeE X) k
    (Hr : reachable config w) (Hb : spawn_bound (server w))
    (Hin : ThActor i (Call e k) ∈ threads w)
    (He : gives_up X e) :
  exists t, tasks (server w) !! i = Some t /\ mailbox t = [] /\ completed t = false /\
    forall Y (e' : runtimeE Y) y s', foreign i Y e' -> exec_effect config Y (server w) e' y s' ->
      exists t', tasks s' !! i = Some t' /\ mailbox t' = [].
Proof.
  pose proof (reachable_world_inv config w Hr Hb) as Hinv.
  destruct (reachable_allowed config w i X e k Hr Hb Hin) as [a Hal].
  assert (Hd : drained i a (server w)).
  { destruct e; try done; cbn in Hal; [by destruct Hal as (_ & ? & _) |]. destruct reason; [by destruct Hal as (_ & ? & _) | by destruct Hal]. }
  destruct Hd as [(t & Ht & Hta & Hc & Hm) Hq]. exists t. split_and!; try done.
  intros Y e' y s' Hf Hex.
  pose proof (exec_rely config i Y e' y _ _ Hf Hex (wi_state _ _ Hinv) Hb ltac:(eauto)) as Hrely.
  destruct (rely_task _ _ _ Hrely _ Ht) as (t' & l & Ht' & _ & Hm' & Hl).
  exists t'. split; [done |]. by rewrite Hm', Hm, (Hl Hq).
Qed.

Lemma passivation_loses_nothing_witness :
  exists t, tasks (server (final passivate_script)) !! 0 = Some t /\ mailbox t = [] /\ completed t = false.
Proof.
  assert (Hr : reachable demo_config (final passivate_script)) by (apply final_reachable; vm_compute; reflexivity).
  assert (Hb : spawn_bound (server (final passivate_script))) by (vm_compute; discriminate).
  destruct (next_actor_effect (final passivate_script) 1 0 _ (UserDeactivate 0 Idle)) as [k Hk];
    [vm_compute; reflexivity.. |].
  destruct (passivation_loses_nothing demo_config (final passivate_script) 0 _ (UserDeactivate 0 Idle) k Hr Hb
    (list_elem_of_lookup_2 _ 1 _ Hk) I) as (t & Ht & Hm & Hc & _).
  exists t. split; [exact Ht |]. split; [exact Hm | exact Hc].
Defined.

(** The status of a Server only advances: from running through shutting down
    to stopped, or to fenced; a Server that has left the running state never runs
    again, and one that was fenced or stopped stays so. *)
Theorem status_advances (config : ServerConfig) (w w' : world)
    (Hr : reachable config w) (Hs : rtc (world_step config) w w') (Hb : spawn_bound (server w')) :
  status_step (status (server w)) (status (server w')) = true.
Proof.
  assert (Hinv : world_inv config w) by (apply reachable_world_inv; [done | by eapply reachable_bound]).
  clear Hr. induction Hs as [w | w1 w2 w3 H12 H23 IH]; [apply status_step_refl |].
  assert (Hb2 : spawn_bound (server w2)) by by eapply reachable_bound.
  assert (Hb1 : spawn_bound (server w1)) by by eapply world_step_bound.
  eapply status_step_trans; [by eapply world_step_status | apply IH; [done |]].
  by eapply world_step_inv.
Qed.

Lemma status_advances_witness :
  status (server (final open_script)) = RUNNING /\ status_step RUNNING RUNNING = true.
Proof.
  assert (Hr : reachable demo_config (final open_script)) by (apply final_reachable; vm_compute; reflexivity).
  assert (Hb : spawn_bound (server (final open_script))) by (vm_compute; discriminate).
  split; [vm_compute; reflexivity |].
  exact (status_advances demo_config (initial_world demo_config) (final open_script) (rtc_refl _ _) Hr Hb).
Defined.

(** C19: an inbound envelope acts for its own Actor and Session only: an Action
    reaches a mailbox only from the sender its Session is bound to and with the
    right version, a Session is opened for the sender that asked and closed only by
    it; the opening is answered exactly once, with success exactly when the actor
    acknowledged it, and a Session whose opening failed is not left registered; a
    capacity reservation is consumed exactly once; anything else is ignored. *)
Theorem inbound_discipline (config : ServerConfig) (e : Envelope) (reply : option SenderId) :
  match parse_inbound e with
  | Some i => wp (inbound_monitor config i reply) inbound_ghost0 (dispatch_inbound config e reply)
                (fun _ => inbound_post i reply)
  | None => dispatch_inbound config e reply = Ret ()
  end.
Proof.
  unfold dispatch_inbound. destruct (parse_inbound e) as [[a sid version kind] |] eqn:Hparse; [| done].
  set (i := MkInbound a sid version kind).
  assert (Hsid : env_session_id e = session_id_as_bytes (in_session i)).
  { unfold parse_inbound in Hparse. destruct (env_kind e); [| done].
    destruct (session_id_from_bytes (env_session_id e)) as [sid' |] eqn:Hs; [| done].
    destruct (actor_address_from_envelope _ _); [| done]. injection Hparse as <- <- <- <-.
    by apply session_id_from_bytes_Some in Hs as [<- _]. }
  rewrite Hsid.
  destruct kind; try (by repeat split);
    destruct (Z.eqb_spec version (transport_protocol_version config)) as [Hv | Hv]; cbn [negb];
    try (by repeat split; cbn; lia).
  - apply wp_bind. apply (bound_to_reply_inbound config i reply); cbn [negb].
    + by apply (send_session_error_inbound config i reply _ _ payload).
    + apply wp_bind. unfold dispatch_remote_message.
      split; [done |]. intros [c |] g' ->; cbn [wp].
      * apply (dispatch_message_inbound config i reply (Action sid payload) (MkInboundGhost true false false None [])); [done |].
        intros [] ; cbn [wp]; [by repeat split; cbn; lia |].
        by apply (send_session_error_inbound config i reply _ _ payload).
      * by apply (send_session_error_inbound config i reply _ _ payload).
  - apply wp_bind. destruct reply as [c |]; cbn [wp].
    + eapply wp_mono; [| by apply (resolve_and_open_inbound config i (Some c) c)].
      intros r g (Hs & Hp & Ho & Hreg). cbn [wp]. split; [split; [done |]; split; [done |]; by exists r |].
      intros x g' ->. cbn. split; [done |]. exists r. rewrite Hs. done.
    + done.
  - cbn [proc_bind]. destruct reply as [c |]; cbn [wp]; [| done].
    split; [split; [done |]; split; [done |]; by eexists |].
    intros x g' ->. cbn. split; [done |]. by exists (Err (RemoteProtocol VersionMismatch)).
  - apply wp_bind. apply (bound_to_reply_inbound config i reply); [done |].
    unfold close_local_session. split; [split_and!; auto |]. intros x g' ->. destruct x; [| done].
    split; [done |]. by intros x g' ->.
  - apply wp_bind. apply (bound_to_reply_inbound config i reply); [done |].
    unfold close_local_session. split; [split_and!; auto |]. intros x g' ->. destruct x; [| done].
    split; [done |]. by intros x g' ->.
Qed.

(** ** Races the source admits *)

(** A second opening passes the status check, then a shutdown runs to its end,
    then the opening enters the critical section of [dispatch_message]. *)
Definition late_open_script : list action :=
  [AInbound (envelope_session_open lobby demo_session) (Some 7%N);
   AStep 0 (HResolve (Ok (ResolvedLocal (Some 0))))] ++ steps 0 4 ++
  [AShutdown] ++ steps 1 9 ++ steps 0 1 ++ [ASpawn 0 20] ++ steps 2 2.

(** The actor of the first Session drains for a shutdown while a second opening,
    past the status check, replaces its closed route. *)
Definition second_actor_script : list action :=
  open_script ++
  [AInbound (envelope_session_open lobby demo_session2) (Some 8%N); AStep 2 (HResolve (Ok (ResolvedLocal None)))] ++
  steps 2 4 ++ [AShutdown] ++ steps 3 1 ++ steps 1 10 ++ steps 2 1 ++ [ASpawn 1 20] ++ steps 4 2.

(** The activation of the first actor fails; between the removal of its route and
    its [terminate_all] a second Session opens on a new actor. *)
Definition stale_termination_script : list action :=
  [AInbound (envelope_session_open lobby demo_session) (Some 7%N);
   AStep 0 (HResolve (Ok (ResolvedLocal (Some 0))))] ++ steps 0 5 ++
  [ASpawn 0 20; AStep 1 (HActivation ActivateFailed)] ++ steps 1 5 ++ steps 0 3 ++
  [AInbound (envelope_session_open lobby demo_session2) (Some 8%N);
   AStep 2 (HResolve (Ok (ResolvedLocal (Some 1))))] ++ steps 2 5 ++
  [ASpawn 1 20] ++ steps 3 2 ++ [AStep 3 (HBool true)] ++ steps 3 1 ++ steps 2 2 ++
  steps 1 4.


(** An opening that passed the status check before a shutdown can be
    admitted after it: the Server is stopped, with a routed actor that was never told to stop. *)
Theorem late_open_leaks_actor :
  exists w r t, reachable demo_config w /\ status (server w) = STOPPED /\
    actors (server w) !! lobby = Some r /\ tasks (server w) !! task r = Some t /\
    completed t = false /\ receiver_closed t = false /\ shutdown_sent t = false /\ abort_requested t = false.
Proof.
  exists (final late_open_script). eexists _, _.
  split; [apply final_reachable; vm_compute; reflexivity |].
  split; [vm_compute; reflexivity |]. split; [vm_compute; reflexivity |].
  split; [vm_compute; reflexivity |]. repeat split.
Qed.

(** C39: two actors of one address can run at the same time: one in its shutdown
    deactivation, one handling the message that replaced its closed route. *)
Theorem shutdown_runs_two_actors :
  exists w t1 t2, reachable demo_config w /\
    next_effect w 1 = Some (existT _ (UserDeactivate 0 Shutdown)) /\
    next_effect w 4 = Some (existT _ (UserMessage 1 (SessionOpened demo_session2 1))) /\
    tasks (server w) !! 0 = Some t1 /\ tasks (server w) !! 1 = Some t2 /\
    task_address t1 = lobby /\ task_address t2 = lobby /\ completed t1 = false /\ completed t2 = false.
Proof.
  exists (final second_actor_script). eexists _, _.
  split; [apply final_reachable; vm_compute; reflexivity |].
  split; [vm_compute; reflexivity |]. split; [vm_compute; reflexivity |].
  split; [vm_compute; reflexivity |]. split; [vm_compute; reflexivity |]. repeat split.
Qed.

(** A Session that was opened on a new actor, and acknowledged, can be terminated with
    the failure of the activation before it, while its actor runs on. *)
Theorem failed_activation_ends_new_session :
  exists w r, reachable demo_config w /\
    outbox (server w) =
      [(7%N, envelope_opened_ack (session_id_as_bytes demo_session) (Err ActivationFailed));
       (8%N, envelope_opened_ack (session_id_as_bytes demo_session2) (Ok ()));
       (8%N, envelope_session_error (session_id_as_bytes demo_session2) ActivationFailed)] /\
    sink (sessions (server w)) lobby demo_session2 = None /\
    actors (server w) !! lobby = Some r /\ state r = Active /\ task r = 1 /\
    next_effect w 3 = Some (existT _ (Select 1)).
Proof.
  exists (final stale_termination_script). eexists _.
  split; [apply final_reachable; vm_compute; reflexivity |].
  split; [vm_compute; reflexivity |]. split; [vm_compute; reflexivity |].
  split; [vm_compute; reflexivity |]. split; [reflexivity |]. split; [reflexivity |].
  vm_compute; reflexivity.
Qed.
