(* ===== verification/RuntimeOrder.v ===== *)
(** * What a Server promises to the sender of a message

    The theorems about the executions of [RuntimeTrace]: an Actor handles the
    messages it accepted in order, at most once, and skips none while its mailbox
    is open; an acknowledged open was handled. *)

From S2P Require Import Prelude Text Address Transport Session Runtime RuntimeInv RuntimeActor RuntimeWorld.
From S2P Require Import RuntimeTrace RuntimeProps.
Import Registry.

(** ** The trace of a script *)
Definition act_label (config : ServerConfig) (w : world) (x : action) : trace :=
  match x with
  | AStep j h =>
      match threads w !! j with
      | Some th =>
          match thread_proc th with
          | Call e k =>
              match exec_fn config _ (server w) e h with
              | Some (x, s') => [(j, label_of (server w) _ e x s')]
              | None => []
              end
          | Ret _ => []
          end
      | None => []
      end
  | AInbound e reply => [(length (threads w), Entered e reply)]
  | ADisconnect _ | AShutdown | AFence => [(length (threads w), Silent)]
  | ASpawn _ _ | AAbort _ => []
  end.

Fixpoint run_trace (config : ServerConfig) (w : world) (l : list action) : trace :=
  match l with
  | [] => []
  | x :: l => act_label config w x ++ match act config w x with
                                      | Some w => run_trace config w l
                                      | None => []
                                      end
  end.

Section traced.
Context (config : ServerConfig).

Lemma act_moves w x w' : act config w x = Some w' -> moves config w (act_label config w x) w'.
Proof.
  intros Hact. destruct w as [s ths], x; cbn in Hact |- *.
  - destruct (ths !! j) as [th |] eqn:Hj; [| done]. destruct (thread_proc th) as [| X e k] eqn:Hp; [done |].
    destruct (exec_fn config X s e h) as [[x s'] |] eqn:Hf; [| done]. injection Hact as <-.
    eapply moves_call; [done.. |]. by eapply exec_fn_sound.
  - injection Hact as <-. by do 3 constructor.
  - injection Hact as <-. by do 3 constructor.
  - injection Hact as <-. by do 3 constructor.
  - injection Hact as <-. by do 3 constructor.
  - destruct (tasks s !! i) as [t |] eqn:Ht; [| done]. destruct (has_thread i ths) eqn:Hh; [done |].
    injection Hact as <-. do 2 constructor; [done |]. intros th Hin Heq.
    assert (Htrue : has_thread i ths = true).
    { unfold has_thread. apply existsb_exists. exists th. split; [by apply list_elem_of_In | by apply bool_decide_eq_true_2]. }
    congruence.
  - destruct (ths !! j) as [[i p |] |] eqn:Hj; try done. destruct (tasks s !! i) as [t |] eqn:Ht; [| done].
    destruct (abort_requested t) eqn:Ha; [| done]. destruct (completed t) eqn:Hc; [done |].
    injection Hact as <-. constructor. by econstructor.
Qed.

Lemma run_execution w l w' tr :
  execution config w tr -> run_actions config w l = Some w' -> execution config w' (tr ++ run_trace config w l).
Proof.
  revert w tr. induction l as [| x l IH]; intros w tr Hrun Hl; cbn in Hl |- *; [injection Hl as <-; by rewrite app_nil_r |].
  destruct (act config w x) as [w1 |] eqn:Ha; [| done]. rewrite app_assoc. apply IH; [| done].
  eapply execution_moves; [done | by apply act_moves].
Qed.
End traced.

Definition script_trace (l : list action) : trace := run_trace demo_config (initial_world demo_config) l.

Lemma script_execution l : completes l = true -> execution demo_config (final l) (script_trace l).
Proof.
  unfold completes, final. destruct (run_actions _ _ l) as [w |] eqn:Hw; [| done]. intros _.
  exact (run_execution demo_config _ l w [] (execution_initial _) Hw).
Qed.

(** ** Properties *)

(** C15: an Actor handles its messages in the order in which they were accepted.  In
    every execution, with any number of connections, Actors, passivations, aborts,
    shutdowns and fences interleaved, the messages a task's handlers have run for
    are the first of those its dispatchers accepted for it (replied [Ok] to), each
    handled at most once; and until the mailbox is closed none is skipped or lost:
    the others are the one taken out and not yet handled, if any, and those still
    in the mailbox, in the same order. *)
Theorem mailbox_in_order (config : ServerConfig) (w : world) (tr : trace) (i : TaskId)
    (Hrun : execution config w tr) (Hb : spawn_bound (server w)) :
  handled i tr `prefix_of` accepted i tr /\
  (~ closed i (server w) ->
   exists held, length held <= 1 /\ accepted i tr = handled i tr ++ held ++ mail i (server w)).
Proof.
  pose proof (execution_inv config w tr Hrun Hb) as Hinv. split; [by eapply trace_prefix |]. intros Hopen.
  destruct (decide (Exists (fun th => thread_task th = Some i) (threads w))) as [He | He].
  - apply Exists_exists in He as (th & Hin & Ht). apply list_elem_of_lookup in Hin as [j Hj].
    pose proof (ti_account _ _ Hinv j th Hj) as Ha. destruct th as [i' p | p]; [| done]. injection Ht as ->.
    destruct Ha as (ph & _ & Hph). destruct ph as [| m | m |]; cbn in Hph.
    + exists []. split; [cbn; lia | done].
    + exists [m]. split; [done | done].
    + exists []. split; [cbn; lia | apply Hph].
    + by destruct Hph.
  - destruct (ti_idle _ _ Hinv i) as [-> ->].
    { intros th Hin Ht. apply He, Exists_exists. eauto. }
    exists []. split; [cbn; lia | done].
Qed.

(** A Session opens, sends two Actions and closes; the Actor handles the first. *)
Definition two_actions_script : list action :=
  open_script ++
  [AInbound (envelope_action lobby demo_session "one") (Some 7%N)] ++ steps 2 5 ++
  [AInbound (envelope_action lobby demo_session "two") (Some 7%N)] ++ steps 3 5 ++
  steps 1 1 ++ [AStep 1 (HBool true)].

Lemma mailbox_in_order_witness :
  accepted 0 (script_trace two_actions_script) =
    [SessionOpened demo_session 0; Action demo_session "one"; Action demo_session "two"] /\
  handled 0 (script_trace two_actions_script) `prefix_of` accepted 0 (script_trace two_actions_script).
Proof.
  split; [vm_compute; reflexivity |].
  apply (mailbox_in_order demo_config (final two_actions_script));
    [apply script_execution; vm_compute; reflexivity | vm_compute; discriminate].
Defined.

(** C16: a Server acknowledges an open only when it is true.  In every execution, when
    a thread sends a positive [SessionOpenedAck] on a connection, it was started
    by an open of that Session that arrived on that connection, has bound the
    Session to it and put the [SessionOpened] message, with a oneshot of its own,
    into the mailbox of a task of the Actor the open names, and the handler of
    that task has run for that very message and succeeded: a crash, a shutdown, a
    full mailbox, a failed activation or another Session's reply never makes a
    positive acknowledgement. *)
Theorem acknowledged_open_was_handled (config : ServerConfig) (w : world) (tr1 tr2 : trace) (j : nat)
    (c : SenderId) (e : Envelope) (ok : bool)
    (Hrun : execution config w (tr1 ++ (j, Emitted c e ok) :: tr2)) (Hb : spawn_bound (server w))
    (Hack : positive_ack e = true) :
  exists a sid request i o j',
    env_session_id e = session_id_as_bytes sid /\
    (j, Entered request (Some c)) ∈ tr1 ++ (j, Emitted c e ok) :: tr2 /\ opens request a sid /\
    (j, Registered a sid c) ∈ tr1 /\
    (j, Accepted a (SessionOpened sid o) i) ∈ tr1 /\
    (j', Handled i (SessionOpened sid o) true) ∈ tr1.
Proof. exact (execution_ack config w tr1 tr2 j c e ok Hrun Hb Hack). Qed.

Lemma acknowledged_open_was_handled_witness :
  exists tr1 ack, positive_ack ack = true /\ script_trace open_script = tr1 ++ (0, Emitted 7%N ack true) :: [] /\
  exists a sid request i o j', env_session_id ack = session_id_as_bytes sid /\
    (0, Entered request (Some 7%N)) ∈ tr1 ++ (0, Emitted 7%N ack true) :: [] /\ opens request a sid /\
    (0, Registered a sid 7%N) ∈ tr1 /\ (0, Accepted a (SessionOpened sid o) i) ∈ tr1 /\
    (j', Handled i (SessionOpened sid o) true) ∈ tr1.
Proof.
  exists (take (length (script_trace open_script) - 1) (script_trace open_script)),
    (envelope_opened_ack (session_id_as_bytes demo_session) (Ok ())).
  split; [reflexivity |]. split; [vm_compute; reflexivity |].
  apply (acknowledged_open_was_handled demo_config (final open_script) _ [] 0 7%N _ true);
    [| vm_compute; discriminate | reflexivity].
  replace (_ ++ _) with (script_trace open_script) by (vm_compute; reflexivity).
  apply script_execution. vm_compute. reflexivity.
Defined.
