(* ===== verification/Activation.v ===== *)
(** * How a Server starts and gives up an Actor

    The part of the Server runtime that ownership in the cluster depends on: where
    routes come from, that a task which is not an actor task starts an Actor for an
    open only while it holds the guard that its resolution returned, and that an
    actor task does nothing for its Actor any more once it has asked for the
    release of the ownership. *)

From S2P Require Import Prelude Text Address Transport Session Runtime RuntimeInv RuntimeActor RuntimeWorld.
Import Registry.

(** ** Where routes come from *)

(** A message of an open, and of an Action. *)
Definition opens (m : MailboxMessage) : bool :=
  match m with
  | SessionOpened _ _ => true
  | _ => false
  end.

(** The effect may start an Actor at [a] with the message [m]. *)
Definition starts_actor X (e : runtimeE X) : option (ActorAddress * MailboxMessage) :=
  match e with
  | DispatchLocked a m _ => Some (a, m)
  | _ => None
  end.

Section routes.
Context (config : ServerConfig).

(** A route of [s'] is one of [s], not made active, or that of a new task. *)
Definition routes_from (s s' : ServerState) : Prop :=
  forall a r', actors s' !! a = Some r' ->
    exists r, actors s !! a = Some r /\ task r = task r' /\ (state r' = Active -> state r = Active).

Lemma routes_same s s' : actors s' = actors s -> routes_from s s'.
Proof. intros Ha a r'. rewrite Ha. by exists r'. Qed.

Lemma remove_entry_from a s : routes_from s (remove_entry a s).
Proof.
  unfold remove_entry. destruct (actors s !! a); [| by apply routes_same]. intros b r'. cbn.
  intros [_ Hb]%lookup_delete_Some. by exists r'.
Qed.

Lemma remove_route_from a g s : routes_from s (remove_route a g s).
Proof.
  unfold remove_route. destruct (actors s !! a); [| by apply routes_same].
  destruct (_ =? _)%Z; [apply remove_entry_from | by apply routes_same].
Qed.

Lemma start_route_from a m reservation s x s' :
  start_route config a m reservation s = Some (x, s') ->
  tasks s' = tasks s /\ actors s' = actors s \/
  length (tasks s') = S (length (tasks s)) /\ exists g, actors s' = <[a := MkRoute g Active (length (tasks s))]> (actors s).
Proof.
  intros Hs. unfold start_route in Hs.
  set (permit := match reservation with Some p => _ | None => _ end) in Hs.
  destruct permit as [s1 |] eqn:Hp; subst permit.
  2: { injection Hs as <- <-. left. destruct (fail_message_frame m RuntimeAtCapacity s) as ((Ha & _) & Ht & _). done. }
  assert (Hs1 : tasks s1 = tasks s /\ actors s1 = actors s).
  { destruct reservation as [p |]; [by injection Hp as <- |].
    unfold try_acquire in Hp. destruct (available s); [done |]. by injection Hp as <-. }
  destruct Hs1 as [Ht1 Ha1]. unfold spawn_actor in Hs. destruct (registrations config !! actor_type a) as [reg |]; [| done].
  match type of Hs with context [mailbox_try_send ?k ?m ?st] => set (s2 := st) in Hs; set (j := k) in Hs end.
  assert (Hj : j = length (tasks s)) by (subst j; cbn; by rewrite Ht1).
  assert (Hlen2 : length (tasks s2) = S (length (tasks s))) by (subst s2; cbn; rewrite length_app, Ht1; cbn; lia).
  destruct (mailbox_try_send_actors j m s2) as ((Hact & _) & _ & Hlen).
  destruct (mailbox_try_send j m s2) as [outcome s3]. cbn [snd] in *.
  assert (Ha3 : actors s3 = actors s) by (rewrite Hact; subst s2; exact Ha1).
  right. rewrite <- Hj, <- Ha3. destruct outcome; injection Hs as <- <-.
  - split; [cbn; congruence | by eexists].
  - match goal with |- context [drop_message m ?st] => destruct (drop_message_frame m st) as ((-> & _) & -> & _) end.
    split; [cbn; congruence | by eexists].
  - match goal with |- context [drop_message m ?st] => destruct (drop_message_frame m st) as ((-> & _) & -> & _) end.
    split; [cbn; congruence | by eexists].
Qed.

(** The routes after [dispatch_locked]. *)
Lemma dispatch_locked_from a m reservation s x s' :
  dispatch_locked config a m reservation s = Some (x, s') ->
  length (tasks s') = length (tasks s) /\ routes_from s s' \/
  length (tasks s') = S (length (tasks s)) /\ exists g s1, routes_from s s1 /\
    actors s' = <[a := MkRoute g Active (length (tasks s))]> (actors s1).
Proof.
  unfold dispatch_locked. intros Hd. destruct (actors s !! a) as [r |] eqn:Ha.
  2: { apply start_route_from in Hd as [[Ht Hact] | (Ht & g & Hact)].
       - left. split; [congruence | by apply routes_same].
       - right. split; [done |]. exists g, s. split; [by apply routes_same | done]. }
  assert (Hres : forall s0, actors (drop_reservation reservation s0) = actors s0 /\ tasks (drop_reservation reservation s0) = tasks s0)
    by (intros; by destruct reservation).
  destruct (state r).
  - destruct (mailbox_try_send_actors (task r) m s) as ((Ha' & _) & _ & Hlen).
    assert (Hsend : (mailbox_try_send (task r) m s).1 = SendClosed -> (mailbox_try_send (task r) m s).2 = s).
    { unfold mailbox_try_send. destruct (tasks s !! task r) as [t |]; [| done].
      destruct (receiver_closed t); [done |]. by destruct (_ <? _)%nat. }
    destruct (mailbox_try_send (task r) m s) as [[] s1]; cbn [fst snd] in *.
    + injection Hd as <- <-. left. destruct (Hres s1) as [Hr1 Hr2]. rewrite Hr2. split; [done | apply routes_same; congruence].
    + injection Hd as <- <-. left. destruct (fail_message_frame m MailboxFull s1) as ((Hf & _) & Ht & _).
      destruct (Hres (fail_message m MailboxFull s1)) as [Hr1 Hr2]. rewrite Hr2, Ht. split; [done | apply routes_same; congruence].
    + rewrite (Hsend eq_refl) in Hd. assert (Hrm : tasks (remove_entry a s) = tasks s) by (unfold remove_entry; by rewrite Ha).
      apply start_route_from in Hd as [[Ht Hact] | (Ht & g & Hact)]; rewrite Hrm in *.
      * left. split; [congruence |]. intros b r'. rewrite Hact. apply remove_entry_from.
      * right. split; [done |]. exists g, (remove_entry a s). split; [apply remove_entry_from | done].
  - injection Hd as <- <-. left. destruct (drop_message_frame m s) as ((Hf & _) & Ht & _).
    destruct (Hres (drop_message m s)) as [Hr1 Hr2]. rewrite Hr2, Ht. split; [done | apply routes_same; congruence].
Qed.

Lemma for_tasks_actors is_ f s : actors (for_tasks is_ f s) = actors s.
Proof. induction is_ as [| i is_ IH]; [done |]. exact IH. Qed.

(** Routes are made by [DispatchLocked], with a new task, and by nothing else. *)
Lemma exec_routes X (e : runtimeE X) x s s' :
  exec_effect config X s e x s' ->
  routes_from s s' \/
  exists a m g s1, starts_actor X e = Some (a, m) /\ length (tasks s') = S (length (tasks s)) /\
    routes_from s s1 /\ actors s' = <[a := MkRoute g Active (length (tasks s))]> (actors s1).
Proof.
  intros Hex. destruct e; cbn in Hex;
    repeat match goal with H : _ /\ _ |- _ => destruct H | H : exists _, _ |- _ => destruct H end;
    subst; try (left; by apply routes_same).
  - apply dispatch_locked_from in H0 as [[_ ?] | (? & g & s1 & ? & ?)]; [by left | right; by exists a, m, g, s1].
  - left. apply routes_same. unfold dispatch_message_if_active in Hex.
    destruct (actors s !! a) as [[g [] j] |]; [| by injection Hex as _ ->; destruct (drop_message_frame m s) as ((-> & _) & _)..].
    destruct (mailbox_try_send_actors j m s) as ((Ha & _) & _). destruct (mailbox_try_send j m s) as [[] s1]; cbn in *;
      injection Hex as _ ->; [done | |]; destruct (drop_message_frame m s1) as ((-> & _) & _); done.
  - left. apply routes_same. by destruct (drop_message_frame m s) as ((-> & _) & _).
  - left. apply routes_same. by destruct reservation.
  - left. apply routes_same. destruct x as [[[p |] |] |]; subst; try done. destruct Hex as (s1 & Hacq & -> & ->).
    unfold try_acquire in Hacq. destruct (available s); [done |]. by injection Hacq as <-.
  - left. apply routes_same. unfold complete_oneshot. by destruct (resolve_oneshot_frame o (Sent r) s) as ((-> & _) & _).
  - left. apply routes_same. by destruct x; repeat match goal with H : _ /\ _ |- _ => destruct H end; subst.
  - left. unfold begin_deactivation in H0. destruct (actors s !! task_address x0) as [r |] eqn:Hr; [| by injection H0 as _ ->; apply routes_same].
    destruct (_ || _); injection H0 as _ ->; [by apply routes_same |]. intros b r'. cbn.
    intros [(<- & <-) | [_ Hb]]%lookup_insert_Some; [by exists r | by exists r'].
  - left. apply remove_route_from.
  - left. unfold drop_guard. destruct (tasks s !! i) as [t |]; [| by apply routes_same]. apply remove_route_from.
  - left. apply routes_same. unfold drop_receiver. destruct (tasks s !! i) as [t |]; [| done].
    match goal with |- context [drop_messages ?ms ?st] => by destruct (drop_messages_frame ms st) as ((-> & _) & _) end.
  - left. apply routes_same. unfold shutdown_snapshot in Hex. destruct (status s); injection Hex as _ ->; by rewrite ?for_tasks_actors.
  - left. apply routes_same. unfold fence_snapshot in Hex. injection Hex as _ ->. by rewrite for_tasks_actors.
  - left. apply routes_same. apply for_tasks_actors.
  - left. intros a r'. cbn. by rewrite lookup_empty.
Qed.
End routes.

(** ** What a task that is not an actor task does *)

(** What it holds is the guard of the address its last resolution found local. *)
Definition guard_allowed X (held : option ActorAddress) (e : runtimeE X) : Prop :=
  match e with
  | DispatchLocked a m _ => opens m = true -> held = Some a
  | ReleaseOwner _ => False
  | _ => True
  end.

Definition guard_next X (held : option ActorAddress) (e : runtimeE X) : X -> option ActorAddress :=
  match e in runtimeE X return X -> option ActorAddress with
  | ResolveOwner a => fun x => match x with Ok (ResolvedLocal _) => Some a | _ => None end
  | DispatchLocked _ _ _ => fun _ => None
  | _ => fun _ => held
  end.

Definition guard_monitor : monitor runtimeE (option ActorAddress) :=
  Monitor runtimeE (option ActorAddress) guard_allowed (fun X held e x held' => held' = guard_next X held e x).

(** The task will start no Actor for an open before it resolves again. *)
Definition guardless (p : proc runtimeE unit) : Prop := wp guard_monitor None p (fun _ _ => True).

Section guard.
Context (config : ServerConfig) (Hc : clustered config = true).

Ltac guard1 := split; [done | intros ? ? ->; cbn [guard_next]].

Lemma close_local_session_guard a sid h : wp guard_monitor h (close_local_session a sid) (fun _ _ => True).
Proof. unfold close_local_session. guard1. case_match; [| done]. by guard1. Qed.

Lemma close_sessions_guard l h : wp guard_monitor h (close_sessions l) (fun _ _ => True).
Proof.
  revert h. induction l as [| [a sid] l IH]; intros h; [done |]. cbn [close_sessions]. apply wp_bind.
  eapply wp_mono; [| apply close_local_session_guard]. intros _ h' _. apply IH.
Qed.

Lemma send_session_error_guard reply sid error h : wp guard_monitor h (send_session_error reply sid error) (fun _ _ => True).
Proof. unfold send_session_error. destruct reply; [by guard1 | done]. Qed.

Lemma dispatch_message_guard a m reservation h :
  (opens m = true -> h = Some a) -> wp guard_monitor h (dispatch_message a m reservation) (fun _ _ => True).
Proof.
  intros Hh. unfold dispatch_message, dispatch_guard. apply wp_bind. guard1. case_match; cbn [wp].
  - by do 2 guard1.
  - guard1. case_match; cbn [wp]; try (by do 2 guard1). split; [exact Hh | done].
Qed.

Lemma open_local_session_guard a sid sender reservation :
  wp guard_monitor (Some a) (open_local_session config a sid sender reservation) (fun _ _ => True).
Proof.
  unfold open_local_session. destruct (registrations config !! actor_type a); [| by guard1].
  guard1. case_match; [by guard1 |]. guard1. apply wp_bind. eapply wp_mono; [| by apply dispatch_message_guard].
  intros [[] | e] h' _; [| by guard1]. guard1. repeat case_match; try done; by guard1.
Qed.

Lemma dispatch_inbound_guard e reply : wp guard_monitor None (dispatch_inbound config e reply) (fun _ _ => True).
Proof.
  unfold dispatch_inbound. destruct (parse_inbound e) as [[a sid version kind] |]; [| done].
  assert (Hbound : wp guard_monitor None (bound_to_reply a sid reply) (fun _ h => h = None)).
  { unfold bound_to_reply. destruct reply; [by guard1 | done]. }
  destruct kind; try done.
  - case_match; [done |]. apply wp_bind. eapply wp_mono; [| exact Hbound]. intros bound h ->.
    case_match; [apply send_session_error_guard |]. apply wp_bind. eapply (wp_mono _ _ _ (fun _ _ => True)).
    + intros [] h _; [done | apply send_session_error_guard].
    + unfold dispatch_remote_message. guard1. case_match; [by apply dispatch_message_guard | done].
  - apply wp_bind. eapply (wp_mono _ _ _ (fun _ _ => True)).
    + intros r h _. destruct reply; [by guard1 | done].
    + case_match; [done |]. destruct reply as [sender |]; [| done]. unfold resolve_and_open. rewrite Hc.
      guard1. repeat case_match; try done. apply open_local_session_guard.
  - apply wp_bind. eapply wp_mono; [| exact Hbound]. intros bound h ->. case_match; [apply close_local_session_guard | done].
Qed.

Lemma terminate_all_guard a error h : wp guard_monitor h (terminate_all a error) (fun _ _ => True).
Proof.
  unfold terminate_all. guard1. revert x. intros sids. induction sids as [| sid sids IH]; [done |]. cbn [terminate_each].
  apply wp_bind. unfold terminate. guard1. guard1. case_match; [guard1 |]; exact IH.
Qed.

Lemma terminate_all_sessions_guard error h : wp guard_monitor h (terminate_all_sessions error) (fun _ _ => True).
Proof.
  unfold terminate_all_sessions. guard1. rename x into l. revert h. induction l as [| a l IH]; intros h; [done |].
  cbn [terminate_addresses]. apply wp_bind. eapply wp_mono; [| apply terminate_all_guard]. intros _ h' _. apply IH.
Qed.

Lemma entry_guard p : entry config p -> wp guard_monitor None p (fun _ _ => True).
Proof.
  destruct 1.
  - apply dispatch_inbound_guard.
  - unfold close_sessions_for_sender. guard1. apply close_sessions_guard.
  - unfold broadcast_event. guard1. rename x into sids. induction sids as [| sid sids IH]; [done |]. cbn [deliver_events].
    apply wp_bind. unfold deliver_event. guard1. case_match; [guard1 |]; exact IH.
  - apply wp_bind. eapply (wp_mono _ _ _ (fun _ _ => True)); [done |]. unfold shutdown. guard1. case_match; [| done].
    assert (Hfin : forall o : shutdown_outcome, wp guard_monitor None
      (bind! _ := terminate_all_sessions RuntimeShuttingDown; exec! AbortInboundTasks; exec! StoreStatus STOPPED; Ret o) (fun _ _ => True)).
    { intros o. apply wp_bind. eapply wp_mono; [| apply terminate_all_sessions_guard]. intros _ h _. by do 2 guard1. }
    guard1. case_match; [do 2 guard1 |]; apply Hfin.
  - unfold fence. do 4 guard1. apply wp_bind. eapply wp_mono; [| apply terminate_all_sessions_guard]. intros _ h _. by guard1.
Qed.
End guard.

(** ** What an actor task does *)

(** Nothing for its Actor once it has asked for the release. *)
Definition release_allowed X (released : bool) (e : runtimeE X) : Prop :=
  match e with
  | UserActivate _ | UserMessage _ _ | Select _ | UserDeactivate _ Idle | ReleaseOwner _ => released = false
  | DispatchLocked _ _ _ | ResolveOwner _ => False
  | _ => True
  end.

Definition release_next X (released : bool) (e : runtimeE X) : bool :=
  match e with
  | ReleaseOwner _ => true
  | _ => released
  end.

Definition release_monitor : monitor runtimeE bool :=
  Monitor runtimeE bool release_allowed (fun X released e _ released' => released' = release_next X released e).

Section release.
Context (config : ServerConfig) (i : TaskId) (a : ActorAddress).

Ltac release1 := split; [done | intros ? ? ->; cbn [release_next]].

Lemma terminate_all_release error b : wp release_monitor b (terminate_all a error) (fun _ b' => b' = b).
Proof.
  unfold terminate_all. release1. rename x into sids. induction sids as [| sid sids IH]; [done |]. cbn [terminate_each].
  apply wp_bind. unfold terminate. do 2 release1. case_match; [release1 |]; exact IH.
Qed.

Lemma execute_message_release m : wp release_monitor false (execute_message i m) (fun _ b => b = false).
Proof. unfold execute_message. release1. destruct m; [done | by release1 | done]. Qed.

Lemma fail_activation_release fuel error : wp release_monitor false (fail_activation fuel i a error) (fun _ _ => True).
Proof.
  unfold fail_activation. do 2 release1. apply wp_bind. eapply (wp_mono _ _ _ (fun _ _ => True)).
  - intros [] b _; [| done]. cbn [negb]. apply wp_bind. eapply wp_mono; [| apply terminate_all_release]. done.
  - induction fuel as [| fuel IH]; [done |]. cbn [fail_pending]. release1. repeat case_match; try done; by release1.
Qed.

Lemma shutdown_branch_release fuel : wp release_monitor false (shutdown_branch fuel i a) (fun _ _ => True).
Proof.
  unfold shutdown_branch. release1. apply wp_bind. eapply (wp_mono _ _ _ (fun _ b => b = false)).
  - intros [[] |] b ->; [| done |]; apply wp_bind; (eapply wp_mono; [| apply terminate_all_release]); intros _ b ->; [| done].
    by do 2 release1.
  - induction fuel as [| fuel IH]; [done |]. cbn [drain]. release1. case_match; [| done].
    apply wp_bind. eapply wp_mono; [| apply execute_message_release]. intros [] b ->; [exact IH | done].
Qed.

Lemma passivate_release : wp release_monitor false (passivate config i a) (fun _ _ => True).
Proof. unfold passivate. release1. by destruct (clustered config); repeat release1. Qed.

Lemma actor_loop_release fuel : wp release_monitor false (actor_loop config fuel i a) (fun _ _ => True).
Proof.
  induction fuel as [| fuel IH]; [done |]. cbn [actor_loop]. release1. case_match.
  - apply shutdown_branch_release.
  - exact IH.
  - apply wp_bind. eapply wp_mono; [| apply execute_message_release]. intros [] b ->; [exact IH |].
    apply wp_bind. eapply wp_mono; [| apply terminate_all_release]. done.
  - by release1.
  - release1. case_match; [exact IH |]. release1. case_match; [exact IH | apply passivate_release].
Qed.

Lemma drop_task_release b : wp release_monitor b (drop_task i) (fun _ _ => True).
Proof. by do 2 release1. Qed.

Lemma actor_task_release fuel : wp release_monitor false (actor_task config fuel i a) (fun _ _ => True).
Proof.
  unfold actor_task. apply wp_bind. eapply (wp_mono _ _ _ (fun _ _ => True)).
  - intros reason b _. destruct reason; try done; apply drop_task_release.
  - unfold actor_body. release1. case_match; [apply actor_loop_release | apply fail_activation_release ..].
Qed.
End release.

(** The routes, once cleared, stay marked. *)
Section cleared.
Context (config : ServerConfig).

Lemma mailbox_try_send_cleared i m s : actors_cleared (mailbox_try_send i m s).2 = actors_cleared s.
Proof.
  unfold mailbox_try_send. destruct (tasks s !! i); [| done]. destruct (receiver_closed t); [done |]. by destruct (_ <? _)%nat.
Qed.

Lemma drop_message_cleared m s : actors_cleared (drop_message m s) = actors_cleared s.
Proof. apply drop_message_frame. Qed.

Lemma start_route_cleared a m reservation s x s' :
  start_route config a m reservation s = Some (x, s') -> actors_cleared s' = actors_cleared s.
Proof.
  intros Hs. unfold start_route in Hs.
  set (permit := match reservation with Some p => _ | None => _ end) in Hs.
  destruct permit as [s1 |] eqn:Hp; subst permit; [| injection Hs as <- <-; apply fail_message_frame].
  assert (Hs1 : actors_cleared s1 = actors_cleared s).
  { destruct reservation as [p |]; [by injection Hp as <- |].
    unfold try_acquire in Hp. destruct (available s); [done |]. by injection Hp as <-. }
  destruct (spawn_actor _ _ _ _) as [[i s2] |] eqn:Hsp; [| done]. unfold spawn_actor in Hsp.
  destruct (registrations config !! actor_type a); [| done]. injection Hsp as <- <-.
  match type of Hs with context [mailbox_try_send ?j ?m ?st] =>
    pose proof (mailbox_try_send_cleared j m st) as Hm; destruct (mailbox_try_send j m st) as [[] s3] end;
    cbn in Hm; injection Hs as <- <-; rewrite ?drop_message_cleared; cbn; congruence.
Qed.

Lemma dispatch_locked_cleared a m reservation s x s' :
  dispatch_locked config a m reservation s = Some (x, s') -> actors_cleared s' = actors_cleared s.
Proof.
  unfold dispatch_locked. intros Hd.
  assert (Hres : forall s0, actors_cleared (drop_reservation reservation s0) = actors_cleared s0) by (intros; by destruct reservation).
  destruct (actors s !! a) as [r |]; [| by eapply start_route_cleared]. destruct (state r).
  - pose proof (mailbox_try_send_cleared (task r) m s) as Hm. destruct (mailbox_try_send (task r) m s) as [[] s1]; cbn in Hm.
    + injection Hd as <- <-. by rewrite Hres.
    + injection Hd as <- <-. rewrite Hres. rewrite <- Hm. apply fail_message_frame.
    + rewrite (start_route_cleared _ _ _ _ _ _ Hd). unfold remove_entry. by destruct (actors s1 !! a).
  - injection Hd as <- <-. by rewrite Hres, drop_message_cleared.
Qed.

Lemma remove_route_cleared a g s : actors_cleared (remove_route a g s) = actors_cleared s.
Proof.
  unfold remove_route, remove_entry. destruct (actors s !! a); [| done]. by destruct (_ =? _)%Z.
Qed.

Lemma for_tasks_cleared is_ f s : actors_cleared (for_tasks is_ f s) = actors_cleared s.
Proof. induction is_ as [| i is_ IH]; [done |]. exact IH. Qed.

Lemma exec_cleared X (e : runtimeE X) x s s' :
  exec_effect config X s e x s' -> actors_cleared s = true -> actors_cleared s' = true.
Proof.
  intros Hex Hc. destruct e; cbn in Hex;
    repeat match goal with H : _ /\ _ |- _ => destruct H | H : exists _, _ |- _ => destruct H end;
    subst; try done.
  - by rewrite (dispatch_locked_cleared _ _ _ _ _ _ H0).
  - unfold dispatch_message_if_active in Hex. destruct (actors s !! a) as [[g [] j] |]; try (injection Hex as _ ->; by rewrite drop_message_cleared).
    pose proof (mailbox_try_send_cleared j m s) as Hm. destruct (mailbox_try_send j m s) as [[] s1]; cbn in *;
      injection Hex as _ ->; rewrite ?drop_message_cleared; congruence.
  - by rewrite drop_message_cleared.
  - by destruct reservation.
  - destruct x as [[[p |] |] |]; subst; try done. destruct Hex as (s1 & Hacq & -> & ->).
    unfold try_acquire in Hacq. destruct (available s); [done |]. by injection Hacq as <-.
  - unfold complete_oneshot. by destruct (resolve_oneshot_frame o (Sent r) s) as (_ & _ & _ & ->).
  - by destruct x; repeat match goal with H : _ /\ _ |- _ => destruct H end; subst.
  - unfold begin_deactivation in H0. destruct (actors s !! _); [| by injection H0 as _ ->]. destruct (_ || _); by injection H0 as _ ->.
  - by rewrite remove_route_cleared.
  - unfold drop_guard. destruct (tasks s !! i); [| done]. cbn. by rewrite remove_route_cleared.
  - unfold drop_receiver. destruct (tasks s !! i) as [t |]; [| done].
    match goal with |- context [drop_messages ?ms ?st] => by destruct (drop_messages_frame ms st) as (_ & _ & _ & ->) end.
  - unfold shutdown_snapshot in Hex. destruct (status s); injection Hex as _ ->; by rewrite ?for_tasks_cleared.
  - unfold fence_snapshot in Hex. injection Hex as _ ->. by rewrite for_tasks_cleared.
  - by rewrite for_tasks_cleared.
Qed.
End cleared.
