(* ===== verification/Hosting.v ===== *)
(** * Servers, their Actors and the Coordination Store

    Any number of Servers ([RuntimeWorld]) over one store and the leases of every
    node ([Takeover]).  A task of a Server that resolves or releases an Actor runs
    the router's procedure against the store, and goes on with its reply; the
    resolution lock of an address is held from there until the task starts the
    Actor or cannot start it any more.  So a world of this file is the whole of
    what decides where an Actor runs. *)

From stdpp Require Import functions.
From S2P Require Import Prelude Text Address Coordination Transport Session.
From S2P Require Import Runtime RuntimeInv RuntimeActor RuntimeWorld Activation.
From S2P Require Import Routing Ownership Lease Fencing Takeover.

(** ** Calls of the router *)
Inductive call_kind := Resolving | Releasing.

Definition asks X (e : runtimeE X) : option (call_kind * ActorAddress) :=
  match e with
  | ResolveOwner a => Some (Resolving, a)
  | ReleaseOwner a => Some (Releasing, a)
  | _ => None
  end.

Definition router_call (self : ClusterRouter) (c : call_kind * ActorAddress) : Ownership.thread :=
  match c.1 with
  | Resolving => resolving self c.2
  | Releasing => releasing self c.2
  end.

(** What the task is told when its call has ended with [r]; the permit of a claim
    is taken from the semaphore of the Server. *)
Definition returns X (e : runtimeE X) (r : call_result) : X -> Prop :=
  match e in runtimeE X return X -> Prop with
  | ResolveOwner _ => fun x =>
      match r with
      | inl (Ok (Routing.Local reservation)) =>
          exists permit, x = Ok (ResolvedLocal permit) /\ (is_Some permit <-> reservation = true)
      | inl (Ok Routing.Remote) => x = Ok ResolvedRemote
      | inl (Err error) => x = Err error
      | inr _ => False
      end
  | ReleaseOwner _ => fun x => match r with inr r => x = is_ok r | inl _ => False end
  | _ => fun _ => False
  end.

(** ** The world *)

(** [ho_calls] says whose call (Server, task) the router procedure at the same
    place of the store's world is; [ho_guards] who holds the resolution lock of
    an address on a Server; [ho_stopped] which tasks were cancelled. *)
Record hosting := MkHosting {
  ho_store : takeover_world;
  ho_calls : list (nat * nat);
  ho_servers : nat -> RuntimeWorld.world;
  ho_guards : gmap (nat * ActorAddress) nat;
  ho_stopped : gset (nat * nat)
}.

Definition with_server (h : hosting) (p : nat) (w : RuntimeWorld.world) : hosting :=
  MkHosting (ho_store h) (ho_calls h) (<[p := w]> (ho_servers h)) (ho_guards h) (ho_stopped h).
Definition with_store (h : hosting) (s : takeover_world) : hosting :=
  MkHosting s (ho_calls h) (ho_servers h) (ho_guards h) (ho_stopped h).

Definition ho_hist (h : hosting) (a : ActorAddress) : Register.history ActorOwnerRecord := hist (tw_cluster (ho_store h)) a.
Definition ho_threads (h : hosting) : list Ownership.thread := Ownership.threads (tw_cluster (ho_store h)).
Definition ho_state (h : hosting) (p : nat) : ServerState := server (ho_servers h p).
Definition ho_tasks (h : hosting) (p : nat) : list RuntimeWorld.thread := RuntimeWorld.threads (ho_servers h p).

Definition with_router_threads (s : takeover_world) (ts : list Ownership.thread) : takeover_world :=
  MkTakeover (with_threads (tw_cluster s) ts) (tw_leases s) (tw_log s).

(** The lock of [a] on the Server [p], taken and given back by its task [j]. *)
Definition lock_step (p j : nat) X (e : routerE X) (g g' : gmap (nat * ActorAddress) nat) : Prop :=
  match e with
  | LockResolution a => g !! (p, a) = None /\ g' = <[(p, a) := j]> g
  | UnlockResolution a => g' = delete (p, a) g
  | _ => g' = g
  end.

(** The locks that a cancelled task held. *)
Definition release_guards (p j : nat) (g : gmap (nat * ActorAddress) nat) : gmap (nat * ActorAddress) nat :=
  filter (fun x => (x.1.1, x.2) <> (p, j)) g.

Section hosting.
Context (skew wait : Z) (start : string -> Z).
Context (selves : nat -> ClusterRouter) (configs : nat -> ServerConfig).

(** With [strict], two things do not happen: a release lands after its call has
    ended, and an Action starts an Actor. *)
Context (strict : bool).

Definition in_time X (e : routerE X) (c c' : cluster) : Prop :=
  match e with
  | CompareExchange _ rec _ => strict = true -> owner rec = None -> in_flight c' = in_flight c
  | _ => True
  end.

Definition started_by_open X (e : runtimeE X) (s s' : ServerState) : Prop :=
  strict = true -> forall a m, starts_actor X e = Some (a, m) -> opens m = false -> length (tasks s') = length (tasks s).

(** A task whose future is dropped. *)
Definition cancelled (h : hosting) (p j : nat) : Prop :=
  (p, j) ∈ ho_stopped h \/
  exists i q t, ho_tasks h p !! j = Some (ThActor i q) /\ tasks (ho_state h p) !! i = Some t /\ abort_requested t = true.

Inductive hosting_step : hosting -> hosting -> Prop :=
(* the store *)
| host_lease h id l' :
    lease_world_step skew id (tw_leases (ho_store h) id) l' ->
    hosting_step h (with_store h (MkTakeover (tw_cluster (ho_store h)) (<[id := l']> (tw_leases (ho_store h))) (tw_log (ho_store h))))
| host_land h i wr r h' :
    in_flight (tw_cluster (ho_store h)) !! i = Some wr ->
    Register.writes (ho_hist h (w_address wr)) (w_record wr) (w_expected wr) r h' ->
    hosting_step h (with_store h (MkTakeover (with_hist (tw_cluster (ho_store h)) (w_address wr) h')
                                     (tw_leases (ho_store h)) (tw_log (ho_store h))))
(* a task calls the router *)
| host_begin h p j th X (e : runtimeE X) k c :
    ho_tasks h p !! j = Some th -> thread_proc th = Call e k -> asks X e = Some c ->
    (p, j) ∉ ho_calls h -> (p, j) ∉ ho_stopped h ->
    hosting_step h (MkHosting (with_router_threads (ho_store h) (router_call (selves p) c :: ho_threads h))
                      ((p, j) :: ho_calls h) (ho_servers h) (ho_guards h) (ho_stopped h))
| host_call h n p j c' self a X (e : routerE X) k x g' :
    ho_calls h !! n = Some (p, j) -> ho_threads h !! n = Some (MkThread self a (Call e k)) ->
    cluster_replies (tw_cluster (ho_store h)) X e x c' -> directory_ok skew wait (ho_store h) X e x ->
    in_time X e (tw_cluster (ho_store h)) c' -> lock_step p j X e (ho_guards h) g' ->
    hosting_step h (MkHosting (MkTakeover (with_threads c' (<[n := MkThread self a (k x)]> (Ownership.threads c')))
                                 (tw_leases (ho_store h)) (read_by (ho_store h) X e x ++ tw_log (ho_store h)))
                      (ho_calls h) (ho_servers h) g' (ho_stopped h))
| host_return h n p j self a r th X (e : runtimeE X) k x s' :
    ho_calls h !! n = Some (p, j) -> ho_threads h !! n = Some (MkThread self a (Ret r)) -> (p, j) ∉ ho_stopped h ->
    ho_tasks h p !! j = Some th -> thread_proc th = Call e k ->
    returns X e r x -> exec_effect (configs p) X (ho_state h p) e x s' ->
    hosting_step h (MkHosting (with_router_threads (ho_store h) (delete n (ho_threads h))) (delete n (ho_calls h))
                      (<[p := MkWorld s' (<[j := thread_continue th (k x)]> (ho_tasks h p))]> (ho_servers h))
                      (ho_guards h) (ho_stopped h))
| host_drop h n p j :
    ho_calls h !! n = Some (p, j) -> cancelled h p j ->
    hosting_step h (MkHosting (with_router_threads (ho_store h) (delete n (ho_threads h))) (delete n (ho_calls h))
                      (ho_servers h) (release_guards p j (ho_guards h)) (ho_stopped h))
(* a Server *)
| host_runtime h p j th X (e : runtimeE X) k x s' :
    ho_tasks h p !! j = Some th -> thread_proc th = Call e k -> asks X e = None -> (p, j) ∉ ho_stopped h ->
    exec_effect (configs p) X (ho_state h p) e x s' -> started_by_open X e (ho_state h p) s' ->
    hosting_step h (with_server h p (MkWorld s' (<[j := thread_continue th (k x)]> (ho_tasks h p))))
| host_entry h p q :
    entry (configs p) q -> hosting_step h (with_server h p (MkWorld (ho_state h p) (ho_tasks h p ++ [ThOther q])))
| host_spawn h p i t fuel :
    tasks (ho_state h p) !! i = Some t -> (forall th, th ∈ ho_tasks h p -> thread_task th <> Some i) ->
    hosting_step h (with_server h p (MkWorld (ho_state h p)
                      (ho_tasks h p ++ [ThActor i (actor_task (configs p) fuel i (task_address t))])))
| host_abort h p j i q t :
    ho_tasks h p !! j = Some (ThActor i q) -> tasks (ho_state h p) !! i = Some t ->
    abort_requested t = true -> completed t = false -> (p, j) ∉ ho_calls h ->
    hosting_step h (with_server h p (MkWorld (ho_state h p) (<[j := ThActor i (drop_task i)]> (ho_tasks h p))))
| host_stop h p j q :
    ho_tasks h p !! j = Some (ThOther q) ->
    hosting_step h (MkHosting (ho_store h) (ho_calls h) (ho_servers h) (ho_guards h) ({[(p, j)]} ∪ ho_stopped h))
| host_unguard h p j a th :
    ho_guards h !! (p, a) = Some j -> (p, j) ∉ ho_calls h ->
    ho_tasks h p !! j = Some th -> guardless (thread_proc th) \/ (p, j) ∈ ho_stopped h ->
    hosting_step h (MkHosting (ho_store h) (ho_calls h) (ho_servers h) (delete (p, a) (ho_guards h)) (ho_stopped h)).

Definition hosting_initial : hosting :=
  MkHosting (takeover_initial start) [] (fun p => initial_world (configs p)) ∅ ∅.

(** The Server [p] hosts an Actor at [a]: its route is active, or its
    deactivation handler is about to run or runs. *)
Definition hosts (h : hosting) (p : nat) (a : ActorAddress) : Prop :=
  exists r, actors (ho_state h p) !! a = Some r /\
    (state r = Active \/ exists j k, ho_tasks h p !! j = Some (ThActor (task r) (Call (UserDeactivate (task r) Idle) k))).

(** Its routes were not cleared, as a fence and a shutdown that times out do. *)
Definition open_for_service (h : hosting) (p : nat) : Prop := actors_cleared (ho_state h p) = false.

(** ** A record in force *)

(** The newest record of [self] is not directly followed by an unowned one. *)
Definition in_force (self : ClusterRouter) (hs : Register.history ActorOwnerRecord) : Prop :=
  exists newer v older, hs = newer ++ Some v :: older /\ owner (record v) = Some (self_owner self) /\
    (forall u, Some u ∈ newer -> owner (record u) <> Some (self_owner self)) /\
    match last newer with
    | Some (Some u) => is_Some (owner (record u))
    | Some None => False
    | None => True
    end.

Lemma in_force_current self hs v :
  Register.current hs = Some v -> owner (record v) = Some (self_owner self) -> in_force self hs.
Proof.
  intros Hc Ho. destruct hs as [| w hs]; [done |]. cbn in Hc. subst w.
  exists [], v, hs. split_and!; [done | done | by intros u ?%elem_of_nil | done].
Qed.

(** Only an unowned record over its own ends it. *)
Lemma in_force_write self hs rec rev r hs' :
  Register.writes hs rec rev r hs' ->
  (owner rec = None -> forall v, Register.current hs = Some v -> owner (record v) <> Some (self_owner self)) ->
  in_force self hs -> in_force self hs'.
Proof.
  intros (_ & _ & ->) Hrel (newer & v & older & -> & Hv & Hnew & Hlast).
  destruct (decide (owner rec = Some (self_owner self))) as [Ho | Ho]; [by eapply in_force_current |].
  exists (Some (MkVersioned rec r) :: newer), v, older. split_and!; [done | done | |].
  - intros u [[= ->] | Hu]%elem_of_cons; [done | by apply Hnew].
  - destruct newer as [| w newer]; [| exact Hlast]. cbn. destruct (owner rec) eqn:He; [by eexists |].
    by destruct (Hrel eq_refl v eq_refl).
Qed.

(** The record of [self] in [hs] was directly followed by the record of another owner. *)
Definition replaced (self : ClusterRouter) (hs : Register.history ActorOwnerRecord)
    (old new : VersionedActorOwnerRecord) (o' : ActorOwner) (older : Register.history ActorOwnerRecord) : Prop :=
  exists newer, hs = newer ++ Some new :: Some old :: older /\ owner (record old) = Some (self_owner self) /\
    owner (record new) = Some o' /\ o' <> self_owner self.

Lemma in_force_replaced self hs newer v older u :
  hs = newer ++ Some v :: older -> owner (record v) = Some (self_owner self) ->
  (forall u, Some u ∈ newer -> owner (record u) <> Some (self_owner self)) ->
  match last newer with
  | Some (Some u) => is_Some (owner (record u))
  | Some None => False
  | None => True
  end -> u ∈ newer -> exists new o', replaced self hs v new o' older.
Proof.
  intros -> Hv Hnew Hlast Hu. destruct newer as [| x newer _] using rev_ind; [by apply elem_of_nil in Hu |].
  rewrite last_snoc in Hlast. destruct x as [new |]; [| done]. destruct Hlast as [o' Ho'].
  exists new, o', newer. split_and!; [by rewrite <- app_assoc | done | done |].
  intros ->. apply (Hnew new); [set_solver | done].
Qed.

(** Of two records in force, one was replaced. *)
Lemma in_force_both self self' hs :
  self_owner self <> self_owner self' -> in_force self hs -> in_force self' hs ->
  exists old new o' older, replaced self hs old new o' older \/ replaced self' hs old new o' older.
Proof.
  intros Hne (n1 & v1 & l1 & H1 & Ho1 & Hn1 & Hl1) (n2 & v2 & l2 & H2 & Ho2 & Hn2 & Hl2).
  pose proof H1 as Heq. rewrite H2 in Heq. apply app_eq_inv in Heq as [(k & -> & Hk) | (k & -> & Hk)].
  - destruct k as [| x k]; cbn in Hk; [injection Hk as <- <-; congruence |]. injection Hk as <- ->.
    destruct (in_force_replaced self' hs (n1 ++ Some v1 :: k) v2 l2 (Some v1)) as (new & o' & Hr); try done; [set_solver |].
    exists v2, new, o', l2. by right.
  - destruct k as [| x k]; cbn in Hk; [injection Hk as <- <-; congruence |]. injection Hk as <- ->.
    destruct (in_force_replaced self hs (n2 ++ Some v2 :: k) v1 l1 (Some v2)) as (new & o' & Hr); try done; [set_solver |].
    exists v1, new, o', l1. by left.
Qed.

(** ** What a router call holds, and what it writes *)
Inductive lock_phase := Before | Holding | After.

Definition call_allowed (kind : call_kind) X (phase : lock_phase) (e : routerE X) : Prop :=
  match e with
  | LockResolution _ => phase = Before
  | UnlockResolution _ | ReadActorOwner _ => phase = Holding
  | CompareExchange _ rec _ => phase = Holding /\ (kind = Resolving -> is_Some (owner rec))
  | _ => True
  end.

Definition call_next X (phase : lock_phase) (e : routerE X) : lock_phase :=
  match e with
  | LockResolution _ => Holding
  | UnlockResolution _ => After
  | _ => phase
  end.

Definition call_monitor (kind : call_kind) : monitor routerE lock_phase :=
  Monitor routerE lock_phase (call_allowed kind) (fun X phase e _ phase' => phase' = call_next X phase e).

Definition call_ends (kind : call_kind) (r : call_result) (phase : lock_phase) : Prop :=
  match kind, r with
  | Resolving, inl (Ok (Routing.Local _)) => phase = Holding
  | Resolving, inl _ | Releasing, inr _ => phase = After
  | _, _ => False
  end.

Ltac call1 := split; [done | intros ? ? ->; cbn [call_next]].

Lemma confirm_claim_call n kind a expected :
  wp (call_monitor kind) Holding (confirm_claim n a expected) (fun _ phase => phase = Holding).
Proof. induction n as [| n IH]; [done |]. cbn [confirm_claim]. call1. by repeat case_match. Qed.

Lemma confirm_release_call n kind a current expected :
  wp (call_monitor kind) Holding (confirm_release n a current expected) (fun _ phase => phase = Holding).
Proof. induction n as [| n IH]; [done |]. cbn [confirm_release]. call1. by repeat case_match. Qed.

Lemma claim_call kind self a epoch rev :
  wp (call_monitor kind) Holding (claim self a epoch rev) (fun _ phase => phase = Holding).
Proof.
  unfold claim. call1. case_match; [done |]. split; [split; [done | by eexists] |]. intros ? ? ->; cbn [call_next].
  repeat case_match; try done; try (by call1). call1. case_match; [done | by call1].
Qed.

Lemma take_over_call kind self a current retry :
  wp (call_monitor kind) Holding retry (fun _ phase => phase = Holding) ->
  wp (call_monitor kind) Holding (take_over self a current retry) (fun _ phase => phase = Holding).
Proof.
  intros Hretry. unfold take_over. call1. case_match; [done |]. split; [split; [done | by eexists] |]. intros ? ? ->; cbn [call_next].
  repeat case_match; try done; try (by call1); (apply wp_bind; eapply wp_mono; [| apply confirm_claim_call];
    intros [] phase ->; [done | by call1 ..]).
Qed.

Lemma resolve_call self a : wp (call_monitor Resolving) Before (resolve self a) (fun r phase => call_ends Resolving (inl r) phase).
Proof.
  unfold resolve. call1. apply wp_bind. eapply (wp_mono _ _ _ (fun _ phase => phase = Holding)).
  - intros [[b |] | e] phase ->; [done | by call1 ..].
  - generalize 3. intros n. induction n as [| n IH]; [done |]. cbn [resolve_attempts]. call1.
    repeat (case_match; try done); try (by apply take_over_call); try apply claim_call.
    call1. repeat (case_match; try done); by apply take_over_call.
Qed.

Lemma release_call self a :
  wp (call_monitor Releasing) Before (release_local_owner self a) (fun r phase => call_ends Releasing (inr r) phase).
Proof.
  unfold release_local_owner. call1. apply wp_bind. eapply (wp_mono _ _ _ (fun _ phase => phase = Holding)); [intros r phase ->; by call1 |].
  unfold release_body. call1. repeat (case_match; try done). split; [done |]. intros ? ? ->; cbn [call_next].
  repeat (case_match; try done); (apply wp_bind; eapply wp_mono; [| apply confirm_release_call]); done.
Qed.

Lemma router_call_start self c : wp (call_monitor c.1) Before (t_proc (router_call self c)) (call_ends c.1).
Proof. destruct c as [[] a]; apply wp_bind; eapply wp_mono; [| apply resolve_call | | apply release_call]; done. Qed.

(** ** The invariant

    [S p a]: the Server [p] relies on its record of [a] being in force. *)
Definition asks_of (q : proc runtimeE unit) : option (call_kind * ActorAddress) :=
  match q with
  | Ret _ => None
  | Call e _ => asks _ e
  end.

Definition at_release (q : proc runtimeE unit) : bool :=
  if asks_of q is Some (Releasing, _) then true else false.

Section accounts.
Context (S : nat -> ActorAddress -> Prop) (h : hosting).

(** A call of the router belongs to a task that waits for it; it took the lock
    before it read, and a resolution that has seen its own record in the store
    relies on it. *)
Definition call_account (p j : nat) (t : Ownership.thread) : Prop :=
  exists th kind g phase,
    ho_tasks h p !! j = Some th /\ asks_of (thread_proc th) = Some (kind, t_address t) /\ t_self t = selves p /\
    wp (router_monitor (t_self t) (t_address t)) g (t_proc t) call_post /\
    ghost_agrees (t_self t) (ho_hist h (t_address t)) g /\
    wp (call_monitor kind) phase (t_proc t) (call_ends kind) /\
    (phase = Holding -> ho_guards h !! (p, t_address t) = Some j) /\
    (phase = Before -> Routing.owned g = false) /\
    (kind = Resolving -> phase = Holding -> Routing.owned g = true -> S p (t_address t)).

(** An actor task relies on the record of its route until it asks for the release;
    then its route is not active. *)
Definition actor_account (p : nat) (i : TaskId) (q : proc runtimeE unit) : Prop :=
  exists released, wp release_monitor released q (fun _ _ => True) /\
    (released = true -> ~ active i (ho_state h p)) /\
    (released = false -> at_release q = false ->
       forall a r, actors (ho_state h p) !! a = Some r -> task r = i -> S p a).

(** Any other task relies on the record whose guard it holds. *)
Definition other_account (p j : nat) (q : proc runtimeE unit) : Prop :=
  exists held, wp guard_monitor held q (fun _ _ => True) /\
    ((p, j) ∉ ho_stopped h -> (p, j) ∉ ho_calls h ->
     forall a, held = Some a -> ho_guards h !! (p, a) = Some j /\ S p a).

Definition task_account (p j : nat) (th : RuntimeWorld.thread) : Prop :=
  match th with
  | ThActor i q => actor_account p i q
  | ThOther q => other_account p j q
  end.

Record accounts : Prop := {
  ac_length : length (ho_calls h) = length (ho_threads h);
  ac_nodup : NoDup (ho_calls h);
  ac_call n p j t : ho_calls h !! n = Some (p, j) -> ho_threads h !! n = Some t -> call_account p j t;
  ac_task p j th : ho_tasks h p !! j = Some th -> task_account p j th;
  ac_pending p i a r : (forall th, th ∈ ho_tasks h p -> thread_task th <> Some i) ->
    actors (ho_state h p) !! a = Some r -> task r = i -> S p a
}.
End accounts.

Definition secure (h : hosting) (p : nat) (a : ActorAddress) : Prop :=
  open_for_service h p -> in_force (selves p) (ho_hist h a).

Lemma accounts_mono (S S' : nat -> ActorAddress -> Prop) h :
  (forall p a, S p a -> S' p a) -> accounts S h -> accounts S' h.
Proof.
  intros HS [Hl Hn Hc Ht Hp]. split; [done | done | | |].
  - intros n p j t Hj Hth. destruct (Hc n p j t Hj Hth) as (th & kind & g & phase & ? & ? & ? & ? & ? & ? & ? & ? & Hs).
    exists th, kind, g, phase. split_and!; try done. intros. by apply HS, Hs.
  - intros p j [i q | q] Hj; specialize (Ht p j _ Hj); cbn in Ht |- *.
    + destruct Ht as (b & ? & ? & Hs). exists b. split_and!; try done. intros. by eapply HS, Hs.
    + destruct Ht as (held & ? & Hs). exists held. split; [done |]. intros H1 H2 a Ha. destruct (Hs H1 H2 a Ha). eauto.
  - intros. by eapply HS, Hp.
Qed.

(** *** Every step is a step of the store and of each Server *)
Lemma world_eta (w : RuntimeWorld.world) : MkWorld (server w) (RuntimeWorld.threads w) = w.
Proof. by destruct w. Qed.

Lemma store_step h h' :
  hosting_step h h' -> takeover_step skew wait (ho_store h) (ho_store h') \/ ho_store h' = ho_store h.
Proof.
  destruct 1; cbn; try (by right); left.
  - by constructor.
  - by eapply takeover_land.
  - apply takeover_start. exists (selves p), c.2. destruct c as [[] a]; [by left | by right].
  - by eapply takeover_call.
  - apply takeover_crash.
  - apply takeover_crash.
Qed.

Lemma server_step h h' p :
  hosting_step h h' -> world_step (configs p) (ho_servers h p) (ho_servers h' p) \/ ho_servers h' p = ho_servers h p.
Proof.
  assert (Hup : forall q w (f : nat -> RuntimeWorld.world), world_step (configs q) (f q) w -> world_step (configs p) (f p) (<[q := w]> f p) \/ <[q := w]> f p = f p).
  { intros q w f Hw. destruct (decide (p = q)) as [-> | Hne]; [left; by rewrite fn_lookup_insert | right; by rewrite fn_lookup_insert_ne]. }
  assert (Heta : forall c w w', world_step c (MkWorld (server w) (RuntimeWorld.threads w)) w' -> world_step c w w').
  { intros c w w'. by rewrite world_eta. }
  destruct 1; cbn; try (by right); apply Hup, Heta.
  - by eapply RuntimeWorld.step_call.
  - by eapply RuntimeWorld.step_call.
  - by apply step_entry.
  - by apply step_spawn.
  - by eapply step_abort.
Qed.

(** The counters of tasks have not wrapped. *)
Definition bounded (h : hosting) : Prop := forall p, spawn_bound (ho_state h p).

Lemma bounded_before h h' : hosting_step h h' -> bounded h' -> bounded h.
Proof.
  intros Hst Hb p. destruct (server_step h h' p Hst) as [Hw | Heq].
  - eapply world_step_bound; [exact Hw | apply Hb].
  - unfold ho_state. rewrite <- Heq. apply Hb.
Qed.

(** *** A release excludes those who rely on the record *)

(** The route of a task that waits for a release is its own, and not active. *)
Lemma releasing_route h p j i q a :
  reachable (configs p) (ho_servers h p) -> spawn_bound (ho_state h p) ->
  ho_tasks h p !! j = Some (ThActor i q) -> asks_of q = Some (Releasing, a) ->
  ~ active i (ho_state h p) /\
  (open_for_service h p -> forall r, actors (ho_state h p) !! a = Some r -> task r = i).
Proof.
  intros Hr Hb Hj Hq. destruct q as [| X e k]; [done |]. destruct e; cbn in Hq; try done. injection Hq as ->.
  destruct (reachable_allowed _ _ i _ (ReleaseOwner a) k Hr Hb (list_elem_of_lookup_2 _ _ _ Hj)) as (a' & -> & _ & Hl & Hna).
  split; [exact Hna |]. intros Hopen r Ha. destruct Hl as [(t & Ht & Hta & _) [(b & r' & Hb' & Hr') | Hcl]];
    [| unfold open_for_service, ho_state in Hopen; congruence].
  destruct (inv_routes _ _ (wi_state _ _ (reachable_world_inv _ _ Hr Hb)) _ _ Hb') as (t' & Ht' & Hb2 & _).
  rewrite Hr', Ht in Ht'. injection Ht' as <-. unfold ho_state in Ha. congruence.
Qed.

Lemma release_excludes S h n p j t :
  accounts S h -> reachable (configs p) (ho_servers h p) -> spawn_bound (ho_state h p) -> open_for_service h p ->
  ho_calls h !! n = Some (p, j) -> ho_threads h !! n = Some t ->
  (exists q, ho_tasks h p !! j = Some q /\ asks_of (thread_proc q) = Some (Releasing, t_address t)) ->
  ho_guards h !! (p, t_address t) = Some j ->
  accounts (fun q b => S q b /\ (q, b) <> (p, t_address t)) h.
Proof.
  intros Hac Hr Hb Hopen Hn Ht (q & Hj & Hq) Hg. set (a := t_address t) in *.
  pose proof (ac_task _ _ Hac p j q Hj) as Hqa.
  destruct q as [i q | q].
  2: { destruct Hqa as (held & Hwp & _). destruct q as [| X e k]; [done |]. destruct e; cbn in Hq; try done. by destruct Hwp. }
  destruct (releasing_route h p j i q a Hr Hb Hj Hq) as [_ Hroute]. specialize (Hroute Hopen).
  split; [apply Hac | apply Hac | | |].
  - intros n' p' j' t' Hn' Ht'. destruct (ac_call _ _ Hac _ _ _ _ Hn' Ht') as (th & kind & g & phase & Hth & Hk & ? & ? & ? & ? & Hh & ? & HS).
    exists th, kind, g, phase. split_and!; try done. intros Hkr Hph Ho. split; [by apply HS |]. intros [= -> Heq].
    specialize (Hh Hph). rewrite Heq, Hg in Hh. injection Hh as <-. rewrite Hj in Hth. injection Hth as <-.
    cbn in Hk, Hq. congruence.
  - intros p' j' [i' q' | q'] Hj'; pose proof (ac_task _ _ Hac p' j' _ Hj') as Ha; cbn in Ha |- *.
    + destruct Ha as (b & Hwp & Hact & HS). exists b. split_and!; [done | done |]. intros Hb' Hat b' r Hbr Hri.
      split; [by eapply HS |]. intros [= -> ->]. pose proof (Hroute r Hbr) as Hri2. assert (i' = i) as -> by congruence.
      pose proof (wi_unique _ _ (reachable_world_inv _ _ Hr Hb) j' j _ _ i Hj' Hj eq_refl eq_refl) as ->.
      rewrite Hj in Hj'. injection Hj' as <-. unfold at_release in Hat. cbn in Hq. by rewrite Hq in Hat.
    + destruct Ha as (held & Hwp & HS). exists held. split; [done |]. intros H1 H2 b Hheld. destruct (HS H1 H2 b Hheld) as [Hgb HSb].
      split; [done |]. split; [done |]. intros [= -> ->]. rewrite Hg in Hgb. injection Hgb as ->. congruence.
  - intros p' i' b r Hnone Hbr Hri. split; [by eapply (ac_pending _ _ Hac) |]. intros [= -> ->].
    pose proof (Hroute r Hbr) as Hri2. assert (i' = i) as -> by congruence.
    by apply (Hnone _ (list_elem_of_lookup_2 _ _ _ Hj)).
Qed.

(** *** The store *)
Lemma accounts_store S h st' :
  accounts S h -> Ownership.threads (tw_cluster st') = ho_threads h -> extends (tw_cluster (ho_store h)) (tw_cluster st') ->
  accounts S (with_store h st').
Proof.
  intros [Hl Hn Hc Ht Hp] Hths Hext. split; cbn [ho_calls with_store]; try done.
  - unfold ho_threads. cbn. by rewrite Hths.
  - intros n p j t Hj Hth. unfold ho_threads in Hth. cbn in Hth. rewrite Hths in Hth.
    destruct (Hc n p j t Hj Hth) as (th & kind & g & phase & ? & ? & ? & ? & Hg & Hrest).
    exists th, kind, g, phase. split_and!; try done; try apply Hrest. eapply ghost_agrees_mono, Hg. intros v. apply Hext.
Qed.

Definition keeps (h h' : hosting) : Prop := forall p a, secure h p a -> secure h' p a.

(** A write keeps what a Server relies on, but for a release of its own. *)
Lemma secure_write h h' b rec rev r hs' p a :
  Register.writes (ho_hist h b) rec rev r hs' ->
  (forall a', ho_hist h' a' = if decide (b = a') then hs' else ho_hist h a') ->
  (open_for_service h' p -> open_for_service h p) ->
  (owner rec = None -> a = b -> forall v, Register.current (ho_hist h b) = Some v -> owner (record v) <> Some (self_owner (selves p))) ->
  secure h p a -> secure h' p a.
Proof.
  intros Hw Hh Hop Hrel Hs Hopen. specialize (Hs (Hop Hopen)). rewrite Hh. case_decide as Hd; [subst b | done].
  eapply in_force_write; [exact Hw | | exact Hs]. intros Ho v Hv. by apply Hrel.
Qed.

(** *** A call of the router *)
Definition written X (e : routerE X) : option (ActorAddress * ActorOwnerRecord * option Revision) :=
  match e with
  | CompareExchange a rec rev => Some (a, rec, rev)
  | _ => None
  end.

Lemma call_hist c X (e : routerE X) x c' :
  cluster_replies c X e x c' ->
  (forall a, hist c' a = hist c a) \/
  exists a rec rev r hs', written X e = Some (a, rec, rev) /\ Register.writes (hist c a) rec rev r hs' /\
    forall a', hist c' a' = if decide (a = a') then hs' else hist c a'.
Proof.
  assert (Hl : forall a rec rev r w', landed c a rec rev r w' -> exists a0 rec0 rev0 r0 hs',
    Some (a, rec, rev) = Some (a0, rec0, rev0) /\ Register.writes (hist c a0) rec0 rev0 r0 hs' /\
    forall a', hist w' a' = if decide (a0 = a') then hs' else hist c a').
  { intros a rec rev r w' (hs' & Hw & ->). exists a, rec, rev, r, hs'. split_and!; [done | done |]. intros a'. apply hist_with_hist. }
  intros Hrep. destruct e; cbn in Hrep |- *; try (left; by subst); try (left; by destruct Hrep as [-> _]).
  assert (Hu : unconfirmed c a rec rev c' -> (forall b, hist c' b = hist c b) \/ exists a0 rec0 rev0 r0 hs',
    Some (a, rec, rev) = Some (a0, rec0, rev0) /\ Register.writes (hist c a0) rec0 rev0 r0 hs' /\
    forall a', hist c' a' = if decide (a0 = a') then hs' else hist c a').
  { intros [-> | [[r Hr] | ->]]; [by left | right; by eapply Hl | by left]. }
  destruct x as [| [[r | |] |]]; try (by apply Hu). right. by eapply Hl.
Qed.

(** The owner of the record that a release replaces. *)
Lemma released_owner c self a g rec rev v :
  cluster_inv c -> ghost_agrees self (hist c a) g -> may_release self g rec rev ->
  Register.current (hist c a) = Some v -> Register.matches (Register.current (hist c a)) rev = true ->
  owner (record v) = Some (self_owner self).
Proof.
  intros (Hch & _) [Hlr _] (v0 & Hr & -> & Ho & _) Hv Hm. apply register_matches_current in Hm as (u & Hu & Hrev).
  assert (u = v) as -> by congruence.
  by rewrite (chain_coherent _ (Hch a) v v0 (register_current_elem _ _ Hv) (Hlr _ Hr) Hrev).
Qed.

Context (Hselves : forall p q, selves p = selves q -> p = q) (Hstrict : strict = true).

Lemma self_owner_inj p q : self_owner (selves p) = self_owner (selves q) -> p = q.
Proof.
  intros Heq. apply Hselves. unfold self_owner in Heq. injection Heq as H1 H2.
  destruct (selves p), (selves q); cbn in *; congruence.
Qed.

(** What a call of Server [p] takes from the others: nothing, unless it is the
    write of its release. *)
Lemma call_keeps h p a g kind X (e : routerE X) x c' h' :
  cluster_inv (tw_cluster (ho_store h)) -> ghost_agrees (selves p) (ho_hist h a) g ->
  router_allowed (selves p) a X g e -> (forall phase, call_allowed kind X phase e -> kind = Resolving ->
    forall b rec rev, written X e = Some (b, rec, rev) -> is_Some (owner rec)) ->
  cluster_replies (tw_cluster (ho_store h)) X e x c' ->
  tw_cluster (ho_store h') = with_threads c' (Ownership.threads (tw_cluster (ho_store h'))) ->
  ho_servers h' = ho_servers h -> (exists phase, call_allowed kind X phase e) ->
  (forall q b, (kind = Releasing -> written X e <> None -> (q, b) <> (p, a)) -> secure h q b -> secure h' q b).
Proof.
  intros Hinv Hg Hal Hk Hrep Hc' Hsv [phase Hph] q b Hne.
  assert (Hh' : forall a', ho_hist h' a' = hist c' a') by (intros a'; unfold ho_hist; rewrite Hc'; done).
  assert (Hop : open_for_service h' q -> open_for_service h q) by (unfold open_for_service, ho_state; by rewrite Hsv).
  destruct (call_hist _ _ _ _ _ Hrep) as [Hsame | (a0 & rec & rev & r & hs' & He & Hw & Hhist)].
  - intros Hs Hopen. rewrite Hh', Hsame. by apply Hs, Hop.
  - apply (secure_write h h' a0 rec rev r hs'); [exact Hw | intros a'; by rewrite Hh', Hhist | exact Hop |].
    intros Ho -> v Hv Hvo. destruct e; cbn in He, Hal; try done. injection He as -> -> ->. destruct Hal as (-> & _ & Hmay).
    assert (kind = Releasing) as Hkind.
    { destruct kind; [| done]. destruct (Hk _ Hph eq_refl _ _ _ eq_refl) as [o Heq]. congruence. }
    destruct Hmay as [[[Hmc _] _] | Hmr]; [congruence |]. destruct Hw as (Hm & _).
    pose proof (released_owner _ _ _ _ _ _ _ Hinv Hg Hmr Hv Hm) as Hself. rewrite Hvo in Hself. injection Hself as H1 H2.
    assert (q = p) as -> by (apply self_owner_inj; unfold self_owner; congruence). by apply Hne.
Qed.

(** The claims on locks that a call of task [j] leaves alone. *)
Lemma lock_claims p j a g phase kind X (e : routerE X) gs gs' :
  router_allowed (selves p) a X g e -> call_allowed kind X phase e ->
  (phase = Holding -> gs !! (p, a) = Some j) -> lock_step p j X e gs gs' ->
  (forall q b i, gs !! (q, b) = Some i -> (q, i) <> (p, j) -> gs' !! (q, b) = Some i) /\
  (call_next X phase e = Holding -> gs' !! (p, a) = Some j).
Proof.
  intros Hal Hph Hhold Hlock. destruct e; cbn in Hal, Hph, Hlock |- *; try (by subst gs').
  - destruct Hal as [-> _], Hlock as [Hnone ->]. split; [| intros _; apply lookup_insert_eq].
    intros q b i Hq _. rewrite lookup_insert_ne; [done |]. congruence.
  - destruct Hal as [-> _]. subst gs'. split; [| done]. intros q b i Hq Hne. rewrite lookup_delete_ne; [done |].
    intros [= <- <-]. apply Hne. rewrite (Hhold Hph) in Hq. congruence.
Qed.

(** The record a resolution has seen or written is in force. *)
Lemma resolving_secure h h' p a g g' phase X (e : routerE X) x c' :
  router_allowed (selves p) a X g e -> call_allowed Resolving X phase e -> router_observe (selves p) X g e x g' ->
  cluster_replies (tw_cluster (ho_store h)) X e x c' ->
  tw_cluster (ho_store h') = with_threads c' (Ownership.threads (tw_cluster (ho_store h'))) ->
  (phase = Before -> Routing.owned g = false) ->
  (secure h p a -> secure h' p a) ->
  (phase = Holding -> Routing.owned g = true -> secure h p a) ->
  call_next X phase e = Holding -> Routing.owned g' = true -> secure h' p a.
Proof.
  intros Hal Hph Hobs Hrep Hc' Hbefore Hkeep Hold Hnext Hown.
  assert (Hh' : forall a', ho_hist h' a' = hist c' a') by (intros a'; unfold ho_hist; rewrite Hc'; done).
  destruct e; cbn in Hal, Hph, Hobs, Hrep, Hnext; try done.
  - subst g'. cbn in Hown. rewrite (Hbefore Hph) in Hown. done.
  - destruct Hrep as [-> Hr]. destruct Hal as [-> _].
    assert (Hcase : Routing.owned g = true \/ exists v, x = Ready (Ok (Some v)) /\ is_local_owner (selves p) (record v) = true).
    { destruct x as [| [[v |] |]]; subst g'; cbn in Hown; try (by left).
      - apply orb_true_iff in Hown as [? | ?]; [by left | right; by exists v].
      - rewrite orb_false_r in Hown. by left. }
    destruct Hcase as [Ho | (v & -> & Hv)]; [by apply Hkeep, Hold |].
    intros _. rewrite Hh'. eapply in_force_current; [by symmetry | by apply is_local_owner_true].
  - assert (Hg' : Routing.owned g' = Routing.owned g) by (destruct x as [| [|]]; subst g'; done).
    apply Hkeep, Hold; congruence.
  - destruct Hph as [-> _]. destruct Hal as (-> & _ & _).
    destruct x as [| [[r | |] |]]; subst g'; cbn in Hown; try (by apply Hkeep, Hold).
    apply orb_true_iff in Hown as [? | Hloc]; [by apply Hkeep, Hold |].
    destruct Hrep as (hs' & (Hm & Hn & ->) & ->). intros _. rewrite Hh', hist_with_hist, decide_True by done.
    eapply in_force_current; [reflexivity | by apply is_local_owner_true].
  - assert (Hg' : Routing.owned g' = Routing.owned g) by (destruct x; by subst g'). apply Hkeep, Hold; congruence.
  - subst g'. by apply Hkeep, Hold.
Qed.

(** *** Steps that leave the Servers alone *)
Lemma task_account_mono (S S' : nat -> ActorAddress -> Prop) h h' p j th :
  actors (ho_state h' p) = actors (ho_state h p) -> (forall a, S p a -> S' p a) ->
  ((p, j) ∉ ho_stopped h' -> (p, j) ∉ ho_calls h' -> ((p, j) ∉ ho_stopped h) /\ ((p, j) ∉ ho_calls h) /\
     forall a, ho_guards h !! (p, a) = Some j -> ho_guards h' !! (p, a) = Some j) ->
  task_account S h p j th -> task_account S' h' p j th.
Proof.
  intros Hsv HS Hcl. unfold task_account, actor_account, other_account, active. rewrite Hsv. destruct th as [i q | q].
  - intros (b & Hwp & Hact & Hs). exists b. split_and!; [done | done |]. intros. by eapply HS, Hs.
  - intros (held & Hwp & Hs). exists held. split; [done |]. intros H1 H2 a Ha. destruct (Hcl H1 H2) as (H3 & H4 & Hg).
    destruct (Hs H3 H4 a Ha). eauto.
Qed.

(** The account of a call when others move. *)
Lemma call_account_mono (S S' : nat -> ActorAddress -> Prop) h h' p j t :
  (forall th, ho_tasks h p !! j = Some th -> ho_tasks h' p !! j = Some th) -> (forall a, S p a -> S' p a) ->
  (forall a, ho_guards h !! (p, a) = Some j -> ho_guards h' !! (p, a) = Some j) ->
  (forall a v, Some v ∈ ho_hist h a -> Some v ∈ ho_hist h' a) ->
  call_account S h p j t -> call_account S' h' p j t.
Proof.
  intros Hsv HS Hgs Hh (th & kind & g & phase & H1 & H2 & H3 & H4 & Hg & H5 & H6 & H7 & H8).
  exists th, kind, g, phase. split_and!; try done; [by apply Hsv | | by intros; apply Hgs, H6 | by intros; apply HS, H8].
  eapply ghost_agrees_mono, Hg. intros v. apply Hh.
Qed.

Lemma host_call_accounts h n p j c' self a X (e : routerE X) k x gs' :
  accounts (secure h) h -> cluster_inv (tw_cluster (ho_store h)) -> reachable (configs p) (ho_servers h p) -> bounded h ->
  ho_calls h !! n = Some (p, j) -> ho_threads h !! n = Some (MkThread self a (Call e k)) ->
  cluster_replies (tw_cluster (ho_store h)) X e x c' -> lock_step p j X e (ho_guards h) gs' ->
  let h' := MkHosting (MkTakeover (with_threads c' (<[n := MkThread self a (k x)]> (Ownership.threads c')))
                         (tw_leases (ho_store h)) (read_by (ho_store h) X e x ++ tw_log (ho_store h)))
              (ho_calls h) (ho_servers h) gs' (ho_stopped h) in
  accounts (secure h') h'.
Proof.
  intros Hac Hci Hr Hb Hn Ht Hrep Hlock h'.
  destruct (ac_call _ _ Hac _ _ _ _ Hn Ht) as (th & kind & g & phase & Hj & Hk & Hself & [Hal Hkg] & Hg & [Hph Hkc] & Hhold & Hbefore & HS).
  cbn [t_self t_address t_proc] in *. subst self.
  destruct (call_step_inv _ _ _ _ _ _ _ _ Hci Hg Hal Hrep) as (Hci' & Hext & Hths & g' & Hobs & Hg').
  destruct (lock_claims _ _ _ _ _ _ _ _ _ _ Hal Hph Hhold Hlock) as [Hcl Hown].
  assert (Hkeep : forall q b, (kind = Releasing -> written X e <> None -> open_for_service h p -> (q, b) <> (p, a)) ->
                    secure h q b -> secure h' q b).
  { intros q b Hne Hs Hopen. eapply (call_keeps h p a g kind X e x c' h'); try done; [| by exists phase |].
    - intros phase' Hph' -> b' rec rev Hw. destruct e; cbn in Hw, Hph'; try done. injection Hw as _ -> _. by apply Hph'.
    - intros H1 H2 [= -> ->]. by apply (Hne H1 H2). }
  assert (HacS : accounts (fun q b => secure h q b /\ (kind = Releasing -> written X e <> None -> open_for_service h p -> (q, b) <> (p, a))) h).
  { destruct kind; [by eapply accounts_mono; [| exact Hac]; intros; split |].
    destruct (written X e) as [w |] eqn:Hw; [| by eapply accounts_mono; [| exact Hac]; intros; split].
    destruct (actors_cleared (ho_state h p)) eqn:Hopen.
    { eapply accounts_mono; [| exact Hac]. intros q b Hs. split; [done |]. intros _ _ Ho. unfold open_for_service in Ho. congruence. }
    eapply accounts_mono; [| eapply (release_excludes _ h n p j _ Hac Hr (Hb p) Hopen Hn Ht); [by exists th |]].
    - intros q b [Hs Hne]. by split.
    - cbn. apply Hhold. destruct e; cbn in Hw, Hph; try done. by destruct Hph. }
  assert (Hhist : forall b v, Some v ∈ ho_hist h b -> Some v ∈ ho_hist h' b) by (intros b v; apply Hext).
  split.
  - cbn. unfold ho_threads. cbn. rewrite length_insert, Hths. apply Hac.
  - apply Hac.
  - intros n' p' j' t' Hn' Ht'. unfold ho_threads in Ht'. cbn in Hn', Ht'. rewrite Hths in Ht'.
    apply list_lookup_insert_Some in Ht' as [(<- & <- & _) | [Hne Ht']].
    + assert ((p', j') = (p, j)) as [= -> ->] by congruence.
      exists th, kind, g', (call_next X phase e). cbn [t_self t_address t_proc]. split_and!; try done; [by apply Hkg | by apply Hkc | |].
      * intros Hb'. assert (phase = Before) as -> by (destruct e; cbn in Hb', Hph; congruence).
        specialize (Hbefore eq_refl). destruct e; cbn in Hobs, Hb', Hph; try done; try (by destruct Hph).
        -- destruct x as [| [|]]; by subst g'.
        -- destruct x; by subst g'.
        -- by subst g'.
      * intros -> Hnext Ho. refine (resolving_secure h h' p a g g' phase X e x c' Hal Hph Hobs Hrep eq_refl Hbefore _ (HS eq_refl) Hnext Ho).
        by apply Hkeep.
    + pose proof (ac_call _ _ HacS _ _ _ _ Hn' Ht') as Hc. eapply call_account_mono; [| | | exact Hhist | exact Hc]; [done | |].
      * intros b [Hs Hne']. by apply Hkeep.
      * intros b Hgb. apply Hcl; [done |]. intros Heq. apply Hne. rewrite Heq in Hn'. exact (NoDup_lookup _ _ _ _ (ac_nodup _ _ Hac) Hn Hn').
  - intros p' j' th' Hj'. eapply (task_account_mono _ _ h); [done | | | exact (ac_task _ _ HacS p' j' th' Hj')].
    + intros b [Hs Hne]. by apply Hkeep.
    + intros H1 H2. split_and!; [done | done |]. intros b Hgb. apply Hcl; [done |]. intros [= -> ->]. apply H2. by eapply list_elem_of_lookup_2.
  - intros p' i b r H1 H2 H3. destruct (ac_pending _ _ HacS p' i b r H1 H2 H3) as [Hs Hne]. by apply Hkeep.
Qed.

(** *** A call returns *)
Lemma asks_routes X (e : runtimeE X) c p x s s' :
  asks X e = Some c -> exec_effect (configs p) X s e x s' ->
  actors s' = actors s /\ actors_cleared s' = actors_cleared s.
Proof.
  intros Hc Hex. destruct e; try done; cbn in Hex; [| by subst].
  destruct x as [[[q |] |] |]; try (by subst). destruct Hex as (s1 & Hacq & -> & ->).
  unfold try_acquire in Hacq. destruct (available s); [done |]. by injection Hacq as <-.
Qed.

(** Nobody runs a task that nobody ran before a task moved. *)
Lemma pending_back (ths : list RuntimeWorld.thread) j th q i :
  ths !! j = Some th -> (forall th', th' ∈ <[j := thread_continue th q]> ths -> thread_task th' <> Some i) ->
  forall th', th' ∈ ths -> thread_task th' <> Some i.
Proof.
  intros Hj Hn th' [m Hm]%list_elem_of_lookup. destruct (decide (m = j)) as [-> | Hne].
  - assert (th' = th) as -> by congruence. rewrite <- (thread_continue_task th q). apply Hn.
    apply list_elem_of_lookup_2 with j. apply list_lookup_insert_eq. by eapply lookup_lt_Some.
  - apply Hn, list_elem_of_lookup_2 with m. by rewrite list_lookup_insert_ne.
Qed.

(** The calls that are left when one of them has ended. *)
Lemma other_calls S h n p j m q i t :
  accounts S h -> ho_calls h !! n = Some (p, j) ->
  delete n (ho_calls h) !! m = Some (q, i) -> delete n (ho_threads h) !! m = Some t ->
  (q, i) <> (p, j) /\ call_account S h q i t.
Proof.
  intros Hac Hn Hq Ht. rewrite list_lookup_delete in Hq. rewrite list_lookup_delete in Ht. case_decide as Hd.
  - split; [| by eapply (ac_call _ _ Hac)]. intros [= -> ->].
    pose proof (NoDup_lookup _ _ _ _ (ac_nodup _ _ Hac) Hn Hq). lia.
  - split; [| by eapply (ac_call _ _ Hac)]. intros [= -> ->].
    pose proof (NoDup_lookup _ _ _ _ (ac_nodup _ _ Hac) Hn Hq). lia.
Qed.

Lemma delete_call_length S h n p j :
  accounts S h -> ho_calls h !! n = Some (p, j) -> length (delete n (ho_calls h)) = length (delete n (ho_threads h)).
Proof.
  intros Hac Hn. pose proof (lookup_lt_Some _ _ _ Hn) as Hlt. pose proof (ac_length _ _ Hac) as Hl.
  rewrite !length_delete; [lia | apply lookup_lt_is_Some; lia | by eexists].
Qed.

Lemma call_left (l : list (nat * nat)) n c c' : l !! n = Some c -> c' ∈ l -> c' <> c -> c' ∈ delete n l.
Proof.
  intros Hn [m Hm]%list_elem_of_lookup Hne. assert (m <> n) by (intros ->; congruence).
  apply list_elem_of_lookup. destruct (decide (m < n)) as [Hlt | Hge].
  - exists m. by rewrite list_lookup_delete, decide_True.
  - exists (pred m). rewrite list_lookup_delete, decide_False by lia. by replace (Datatypes.S (pred m)) with m by lia.
Qed.

Lemma delete_call_nodup S h n : accounts S h -> NoDup (delete n (ho_calls h)).
Proof. intros Hac. eapply sublist_NoDup; [apply (ac_nodup _ _ Hac) | apply sublist_delete]. Qed.

Lemma host_return_accounts h n p j self a r th X (e : runtimeE X) k x s' :
  accounts (secure h) h -> reachable (configs p) (ho_servers h p) -> bounded h ->
  ho_calls h !! n = Some (p, j) -> ho_threads h !! n = Some (MkThread self a (Ret r)) ->
  ho_tasks h p !! j = Some th -> thread_proc th = Call e k ->
  returns X e r x -> exec_effect (configs p) X (ho_state h p) e x s' ->
  let h' := MkHosting (with_router_threads (ho_store h) (delete n (ho_threads h))) (delete n (ho_calls h))
              (<[p := MkWorld s' (<[j := thread_continue th (k x)]> (ho_tasks h p))]> (ho_servers h))
              (ho_guards h) (ho_stopped h) in
  accounts (secure h') h'.
Proof.
  intros Hac Hr Hb Hn Ht Hj Hp Hret Hex h'.
  destruct (ac_call _ _ Hac _ _ _ _ Hn Ht) as (th0 & kind & g & phase & Hj0 & Hk & Hself & Hpost & Hg & Hends & Hhold & _ & HS).
  cbn [t_self t_address t_proc] in *. rewrite Hj in Hj0. injection Hj0 as <-. rewrite Hp in Hk. cbn in Hk.
  destruct (asks_routes _ _ _ _ _ _ _ Hk Hex) as [Hact Hcl].
  assert (Hsv : forall q, actors (ho_state h' q) = actors (ho_state h q) /\ actors_cleared (ho_state h' q) = actors_cleared (ho_state h q)).
  { intros q. unfold ho_state at 1 3. cbn. destruct (decide (q = p)) as [-> | Hne];
      [rewrite fn_lookup_insert; done | by rewrite fn_lookup_insert_ne]. }
  assert (Hkeep : forall q b, secure h q b -> secure h' q b).
  { intros q b Hs Hopen. apply Hs. unfold open_for_service in *. by rewrite <- (proj2 (Hsv q)). }
  assert (Htasks : forall q i th', ho_tasks h' q !! i = Some th' ->
    (q, i) = (p, j) /\ th' = thread_continue th (k x) \/ (q, i) <> (p, j) /\ ho_tasks h q !! i = Some th').
  { intros q i th'. unfold ho_tasks at 1. cbn. destruct (decide (q = p)) as [-> | Hne].
    - rewrite fn_lookup_insert. cbn. intros [(<- & <- & _) | [Hne Hi]]%list_lookup_insert_Some; [by left | right; split; congruence].
    - rewrite fn_lookup_insert_ne by done. right. split; [congruence | done]. }
  split.
  - cbn. by eapply delete_call_length.
  - cbn. by eapply delete_call_nodup.
  - intros m q i t Hm Htm. destruct (other_calls _ _ _ _ _ _ _ _ _ Hac Hn Hm Htm) as [Hne Hc].
    eapply call_account_mono; [| | | | exact Hc]; [| by apply Hkeep | done | done].
    intros th' Hth'. unfold ho_tasks. cbn. destruct (decide (q = p)) as [-> | Hq]; [| by rewrite fn_lookup_insert_ne].
    rewrite fn_lookup_insert. cbn. rewrite list_lookup_insert_ne; [done | congruence].
  - intros q i th' [[[= -> ->] ->] | [Hne Hth']]%Htasks.
    2: { eapply (task_account_mono _ _ h); [apply Hsv | by apply Hkeep | | exact (ac_task _ _ Hac q i th' Hth')].
         intros H1 H2. split_and!; [done | | done]. cbn in H2. intros Hin. by eapply H2, call_left. }
    pose proof (ac_task _ _ Hac p j th Hj) as Ha. destruct th as [i q | q]; cbn in Hp, Ha |- *; subst q.
    + destruct Ha as (b & [Hal Hk'] & _). exists true. destruct e; cbn in Hk, Hal; try done.
      split_and!; [by apply (Hk' x) | intros _ | done].
      unfold active. rewrite (proj1 (Hsv p)).
      exact (proj1 (releasing_route h p j i _ _ Hr (Hb p) Hj eq_refl)).
    + destruct Ha as (held & [Hal Hk'] & _). exists (guard_next X held e x). split; [by apply Hk' |]. intros _ _ b Hb'.
      destruct e; cbn in Hk, Hal, Hb', Hret; try done. injection Hk as <- ->.
      destruct r as [[[reservation |] | error] | r]; cbn in Hpost, Hends; try done;
        [destruct Hret as (permit & -> & _) | by subst x | by subst x].
      injection Hb' as <-. destruct Hpost as (_ & _ & Hown). split; [by apply Hhold |]. apply Hkeep. by apply HS.
  - intros q i b r0 Hnone Hb' Hri. rewrite (proj1 (Hsv q)) in Hb'. apply Hkeep. eapply (ac_pending _ _ Hac q i b r0); [| done | done].
    unfold ho_tasks in Hnone. cbn in Hnone. destruct (decide (q = p)) as [-> | Hq]; [| by rewrite fn_lookup_insert_ne in Hnone].
    rewrite fn_lookup_insert in Hnone. by eapply pending_back.
Qed.

(** *** The Servers move *)

(** A Server's own step changes nothing that another Server relies on, nor its own
    records. *)
Lemma server_keeps h p w q b :
  (actors_cleared (server w) = false -> open_for_service h p) -> secure h q b -> secure (with_server h p w) q b.
Proof.
  intros Hcl Hs Hopen. apply Hs. unfold open_for_service, ho_state in *. cbn in Hopen.
  destruct (decide (q = p)) as [-> | Hne]; [| by rewrite fn_lookup_insert_ne in Hopen].
  rewrite fn_lookup_insert in Hopen. by apply Hcl.
Qed.

(** What is to be shown after a step of the Server [p]: its own tasks. *)
Lemma server_accounts h p w :
  accounts (secure h) h -> (actors_cleared (server w) = false -> open_for_service h p) ->
  (forall j th, (exists n, ho_calls h !! n = Some (p, j)) -> ho_tasks h p !! j = Some th -> RuntimeWorld.threads w !! j = Some th) ->
  (forall j th, RuntimeWorld.threads w !! j = Some th -> task_account (secure (with_server h p w)) (with_server h p w) p j th) ->
  (forall i a r, (forall th, th ∈ RuntimeWorld.threads w -> thread_task th <> Some i) ->
     actors (server w) !! a = Some r -> task r = i -> secure h p a) ->
  accounts (secure (with_server h p w)) (with_server h p w).
Proof.
  intros Hac Hcl Hcalls Htask Hpend. pose proof (server_keeps h p w) as Hkeep. split.
  - apply Hac.
  - apply Hac.
  - intros n q j t Hn Ht. eapply call_account_mono; [| | | | exact (ac_call _ _ Hac n q j t Hn Ht)]; [| by intros; apply Hkeep | done | done].
    intros th Hth. unfold ho_tasks. cbn. destruct (decide (q = p)) as [-> | Hne]; [| by rewrite fn_lookup_insert_ne].
    rewrite fn_lookup_insert. apply Hcalls; [by exists n | done].
  - intros q j th Hj. unfold ho_tasks in Hj. cbn in Hj. destruct (decide (q = p)) as [-> | Hne].
    + rewrite fn_lookup_insert in Hj. by apply Htask.
    + rewrite fn_lookup_insert_ne in Hj by done. eapply (task_account_mono _ _ h); [| | | exact (ac_task _ _ Hac q j th Hj)].
      * unfold ho_state. cbn. by rewrite fn_lookup_insert_ne.
      * intros. by apply Hkeep.
      * done.
  - intros q i a r Hn Ha Hri. unfold ho_tasks, ho_state in Hn, Ha. cbn in Hn, Ha. apply Hkeep; [done |].
    destruct (decide (q = p)) as [-> | Hne].
    + rewrite fn_lookup_insert in Hn, Ha. by eapply Hpend.
    + rewrite fn_lookup_insert_ne in Hn, Ha by done. by eapply (ac_pending _ _ Hac).
Qed.

(** A task account of a Server whose routes are what they were, or fewer. *)
Lemma task_account_routes h p w j th :
  (actors_cleared (server w) = false -> open_for_service h p) ->
  (forall i, thread_task th = Some i -> forall a r', actors (server w) !! a = Some r' -> task r' = i ->
     exists r, actors (ho_state h p) !! a = Some r /\ task r = i /\ (state r' = Active -> state r = Active)) ->
  task_account (secure h) h p j th -> task_account (secure (with_server h p w)) (with_server h p w) p j th.
Proof.
  intros Hcl Hroutes. pose proof (server_keeps h p w) as Hkeep. destruct th as [i q | q]; cbn.
  - intros (b & Hwp & Hact & Hs). specialize (Hroutes i eq_refl).
    assert (Hst : ho_state (with_server h p w) p = server w) by (unfold ho_state; cbn; by rewrite fn_lookup_insert).
    exists b. split_and!; [done | |]; unfold active; rewrite Hst.
    + intros Hb (a & r' & Ha & Hr' & Hact'). destruct (Hroutes a r' Ha Hr') as (r & Hr & Hri & Hra).
      apply (Hact Hb). exists a, r. split_and!; auto.
    + intros Hb Hat a r' Ha Hr'. apply Hkeep; [done |]. destruct (Hroutes a r' Ha Hr') as (r & Hr & Hri & _). by eapply Hs.
  - intros (held & Hwp & Hs). exists held. split; [done |]. intros H1 H2 a Ha. destruct (Hs H1 H2 a Ha) as [? ?]. split; [done | by apply Hkeep].
Qed.

(** A Server whose shared state is what it was. *)
Lemma same_state_account h p ths j th :
  task_account (secure h) h p j th ->
  task_account (secure (with_server h p (MkWorld (ho_state h p) ths))) (with_server h p (MkWorld (ho_state h p) ths)) p j th.
Proof.
  apply task_account_routes; [done |]. intros i _ a r' Ha Hr'. by exists r'.
Qed.

Lemma host_entry_accounts h p q :
  clustered (configs p) = true -> accounts (secure h) h -> entry (configs p) q ->
  let h' := with_server h p (MkWorld (ho_state h p) (ho_tasks h p ++ [ThOther q])) in accounts (secure h') h'.
Proof.
  intros Hc Hac He h'. apply server_accounts; cbn [server RuntimeWorld.threads]; try done.
  - intros j th _ Hj. by apply lookup_app_l_Some.
  - intros j th [Hj | [_ Hj]]%lookup_app_Some; [by apply same_state_account, Hac |].
    apply list_lookup_singleton_Some in Hj as [_ <-]. exists None. split; [by eapply entry_guard | done].
  - intros i a r Hn. apply (ac_pending _ _ Hac). intros th Hth. apply Hn, elem_of_app. by left.
Qed.

Lemma host_spawn_accounts h p i t fuel :
  accounts (secure h) h -> tasks (ho_state h p) !! i = Some t ->
  (forall th, th ∈ ho_tasks h p -> thread_task th <> Some i) ->
  let h' := with_server h p (MkWorld (ho_state h p)
              (ho_tasks h p ++ [ThActor i (actor_task (configs p) fuel i (task_address t))])) in accounts (secure h') h'.
Proof.
  intros Hac Ht Hnone h'. apply server_accounts; cbn [server RuntimeWorld.threads]; try done.
  - intros j th _ Hj. by apply lookup_app_l_Some.
  - intros j th [Hj | [_ Hj]]%lookup_app_Some; [by apply same_state_account, Hac |].
    apply list_lookup_singleton_Some in Hj as [_ <-]. apply same_state_account. exists false.
    split_and!; [apply actor_task_release | done |]. intros _ _ a r. by apply (ac_pending _ _ Hac).
  - intros i' a r Hn. apply (ac_pending _ _ Hac). intros th Hth. apply Hn, elem_of_app. by left.
Qed.

Lemma host_abort_accounts h p j i q :
  accounts (secure h) h -> reachable (configs p) (ho_servers h p) -> bounded h ->
  ho_tasks h p !! j = Some (ThActor i q) -> (p, j) ∉ ho_calls h ->
  let h' := with_server h p (MkWorld (ho_state h p) (<[j := ThActor i (drop_task i)]> (ho_tasks h p))) in accounts (secure h') h'.
Proof.
  intros Hac Hr Hb Hj Hnc h'. apply server_accounts; cbn [server RuntimeWorld.threads]; try done.
  - intros j' th [n Hn] Hj'. rewrite list_lookup_insert_ne; [done |]. intros <-. apply Hnc. by eapply list_elem_of_lookup_2.
  - intros j' th [(<- & <- & _) | [_ Hj']]%list_lookup_insert_Some; [| by apply same_state_account, Hac].
    apply same_state_account. destruct (ac_task _ _ Hac p j _ Hj) as (b & _ & Hact & Hs).
    destruct (at_release q) eqn:Hat.
    + exists true. split_and!; [apply drop_task_release | intros _ | done].
      unfold at_release in Hat. destruct (asks_of q) as [[[] a] |] eqn:Hq; try done.
      exact (proj1 (releasing_route h p j i q a Hr (Hb p) Hj Hq)).
    + exists b. split_and!; [apply drop_task_release | done |]. intros Hb' _. by apply Hs.
  - intros i' a r Hn. apply (ac_pending _ _ Hac).
    by apply (pending_back (ho_tasks h p) j (ThActor i q) (drop_task i) i' Hj).
Qed.

(** A task moves on: what it relied on, it still relies on. *)
Lemma moved_account h p j th X (e : runtimeE X) k x :
  accounts (secure h) h -> ho_tasks h p !! j = Some th -> thread_proc th = Call e k -> asks X e = None ->
  task_account (secure h) h p j (thread_continue th (k x)).
Proof.
  intros Hac Hj Hp Ha. pose proof (ac_task _ _ Hac p j th Hj) as Hth.
  destruct th as [i q | q]; cbn in Hp, Hth |- *; subst q.
  - destruct Hth as (b & [Hal Hk] & Hact & Hs). exists b. split_and!; [| done |].
    + apply (Hk x). by destruct e.
    + intros Hb _. apply Hs; [done |]. unfold at_release. cbn. by rewrite Ha.
  - destruct Hth as (held & [Hal Hk] & Hs). exists (guard_next X held e x). split; [by apply Hk |].
    intros H1 H2 a Hheld. apply (Hs H1 H2). destruct e; cbn in Hheld, Ha; done.
Qed.

(** An Actor is started for an open by a task that holds the guard. *)
Lemma start_secure h p j th X (e : runtimeE X) k a m :
  accounts (secure h) h -> ho_tasks h p !! j = Some th -> thread_proc th = Call e k -> (p, j) ∉ ho_stopped h ->
  starts_actor X e = Some (a, m) -> opens m = true -> secure h p a.
Proof.
  intros Hac Hj Hp Hst He Hm. pose proof (ac_task _ _ Hac p j th Hj) as Hth.
  destruct e; cbn in He; try done. injection He as -> ->.
  destruct th as [i q | q]; cbn in Hp, Hth; subst q.
  - by destruct Hth as (b & [[] _] & _).
  - destruct Hth as (held & [Hal _] & Hs). apply (Hs Hst); [| by apply Hal].
    intros [n Hn]%list_elem_of_lookup. pose proof (lookup_lt_Some _ _ _ Hn) as Hlt. rewrite (ac_length _ _ Hac) in Hlt.
    apply lookup_lt_is_Some in Hlt as [t Ht].
    destruct (ac_call _ _ Hac n p j t Hn Ht) as (th & kind & g & phase & Hj' & Hk & _).
    rewrite Hj in Hj'. by injection Hj' as <-.
Qed.

Lemma host_runtime_accounts h p j th X (e : runtimeE X) k x s' :
  accounts (secure h) h -> reachable (configs p) (ho_servers h p) -> bounded h ->
  ho_tasks h p !! j = Some th -> thread_proc th = Call e k -> asks X e = None -> (p, j) ∉ ho_stopped h ->
  exec_effect (configs p) X (ho_state h p) e x s' -> started_by_open X e (ho_state h p) s' ->
  let h' := with_server h p (MkWorld s' (<[j := thread_continue th (k x)]> (ho_tasks h p))) in accounts (secure h') h'.
Proof.
  intros Hac Hr Hb Hj Hp Ha Hst Hex Hopen h'.
  pose proof (exec_routes (configs p) X e x _ _ Hex) as Hroutes.
  assert (Hcl : actors_cleared s' = false -> open_for_service h p).
  { intros Hs'. unfold open_for_service. destruct (actors_cleared (ho_state h p)) eqn:Hc; [| done].
    by rewrite (exec_cleared _ _ _ _ _ _ Hex Hc) in Hs'. }
  assert (Hback : forall i a r', actors s' !! a = Some r' -> task r' = i -> i < length (tasks (ho_state h p)) ->
    exists r, actors (ho_state h p) !! a = Some r /\ task r = i /\ (state r' = Active -> state r = Active)).
  { intros i a r' Hr' <- Hlt. destruct Hroutes as [Hf | (b & m & g & s1 & _ & _ & Hf & Hact)]; [by apply Hf |].
    rewrite Hact in Hr'. apply lookup_insert_Some in Hr' as [[_ <-] | [_ Hr']]; [cbn in Hlt; lia | by apply Hf]. }
  assert (Hold : forall j' th', ho_tasks h p !! j' = Some th' -> forall i, thread_task th' = Some i -> i < length (tasks (ho_state h p))).
  { intros j' [i' q | q] Hj' i [= <-].
    destruct (wi_threads _ _ (reachable_world_inv _ _ Hr (Hb p)) _ (list_elem_of_lookup_2 _ _ _ Hj')) as (a' & Hi & _).
    by apply lookup_lt_is_Some. }
  apply server_accounts; cbn [server RuntimeWorld.threads]; [done | exact Hcl | | |].
  - intros j' th' [n Hn] Hj'. rewrite list_lookup_insert_ne; [done |]. intros <-.
    pose proof (lookup_lt_Some _ _ _ Hn) as Hlt. rewrite (ac_length _ _ Hac) in Hlt. apply lookup_lt_is_Some in Hlt as [t Ht].
    destruct (ac_call _ _ Hac n p j t Hn Ht) as (th0 & kind & g & phase & Hj0 & Hk & _).
    rewrite Hj in Hj0. injection Hj0 as <-. rewrite Hp in Hk. cbn in Hk. congruence.
  - intros j' th' [(<- & <- & _) | [_ Hj']]%list_lookup_insert_Some.
    + apply task_account_routes; [exact Hcl | | by eapply moved_account].
      intros i Hi a r' Hr' Hri. rewrite thread_continue_task in Hi. eapply Hback; [done | done | by eapply Hold].
    + apply task_account_routes; [exact Hcl | | by apply Hac].
      intros i Hi a r' Hr' Hri. eapply Hback; [done | done | by eapply Hold].
  - intros i a r Hn Hra Hri. pose proof (pending_back _ _ _ _ _ Hj Hn) as Hn'.
    destruct Hroutes as [Hf | (b & m & g & s1 & He & Hlen & Hf & Hact)].
    + destruct (Hf a r Hra) as (r0 & Hr0 & Ht0 & _). eapply (ac_pending _ _ Hac p i a r0); [exact Hn' | exact Hr0 | congruence].
    + rewrite Hact in Hra. apply lookup_insert_Some in Hra as [[<- <-] | [_ Hra]].
      * eapply start_secure; [done | exact Hj | exact Hp | done | exact He |].
        destruct (opens m) eqn:Hm; [done |]. pose proof (Hopen Hstrict b m He Hm). lia.
      * destruct (Hf a r Hra) as (r0 & Hr0 & Ht0 & _). eapply (ac_pending _ _ Hac p i a r0); [exact Hn' | exact Hr0 | congruence].
Qed.

(** *** Calls begin and are dropped, tasks stop, guards are given back *)
Lemma host_begin_accounts h p j th X (e : runtimeE X) k c :
  accounts (secure h) h -> ho_tasks h p !! j = Some th -> thread_proc th = Call e k -> asks X e = Some c ->
  (p, j) ∉ ho_calls h ->
  let h' := MkHosting (with_router_threads (ho_store h) (router_call (selves p) c :: ho_threads h))
              ((p, j) :: ho_calls h) (ho_servers h) (ho_guards h) (ho_stopped h) in accounts (secure h') h'.
Proof.
  intros Hac Hj Hp Hc Hn h'. split.
  - cbn. f_equal. apply Hac.
  - cbn. apply NoDup_cons. split; [done | apply Hac].
  - intros [| m] q i t Hm Htm; cbn in Hm, Htm.
    + injection Hm as <- <-. injection Htm as <-. exists th, c.1, ghost0, Before.
      assert (Ha : t_address (router_call (selves p) c) = c.2 /\ t_self (router_call (selves p) c) = selves p) by (by destruct c as [[] a]).
      destruct Ha as [Ha Hs]. split_and!; try done.
      * rewrite Hp. cbn. rewrite Hc, Ha. by destruct c.
      * apply thread_start_wp. exists (selves p), c.2. destruct c as [[] a]; [by left | by right].
      * apply router_call_start.
    + eapply call_account_mono; [| | | | exact (ac_call _ _ Hac m q i t Hm Htm)]; done.
  - intros q i th' Hth. eapply (task_account_mono _ _ h); [done | done | | exact (ac_task _ _ Hac q i th' Hth)].
    intros H1 H2. cbn in H1, H2. apply not_elem_of_cons in H2 as [_ H2]. done.
  - apply Hac.
Qed.

Lemma host_drop_accounts h n p j :
  accounts (secure h) h -> ho_calls h !! n = Some (p, j) -> cancelled h p j ->
  let h' := MkHosting (with_router_threads (ho_store h) (delete n (ho_threads h))) (delete n (ho_calls h))
              (ho_servers h) (release_guards p j (ho_guards h)) (ho_stopped h) in accounts (secure h') h'.
Proof.
  intros Hac Hn Hcan h'.
  assert (Hg : forall q b i, (q, i) <> (p, j) -> ho_guards h !! (q, b) = Some i -> release_guards p j (ho_guards h) !! (q, b) = Some i).
  { intros q b i Hne Hq. unfold release_guards. by apply map_lookup_filter_Some_2. }
  split.
  - cbn. by eapply delete_call_length.
  - cbn. by eapply delete_call_nodup.
  - intros m q i t Hm Htm. destruct (other_calls _ _ _ _ _ _ _ _ _ Hac Hn Hm Htm) as [Hne Hc].
    eapply call_account_mono; [| | | | exact Hc]; [done | done | | done]. intros b. by apply Hg.
  - intros q i th Hth. destruct (decide ((q, i) = (p, j))) as [[= -> ->] | Hne].
    + destruct Hcan as [Hst | (i0 & q & t & Hj & _)].
      * pose proof (ac_task _ _ Hac p j th Hth) as Ha. destruct th as [i0 q | q]; [exact Ha |].
        destruct Ha as (held & Hwp & _). exists held. split; [exact Hwp |]. by intros H1.
      * assert (th = ThActor i0 q) as -> by (unfold ho_tasks in Hj, Hth; cbn in Hth; congruence).
        exact (ac_task _ _ Hac p j _ Hth).
    + eapply (task_account_mono _ _ h); [done | done | | exact (ac_task _ _ Hac q i th Hth)].
      intros H1 H2. split_and!; [done | | intros b; by apply Hg]. intros Hin. by eapply H2, call_left.
  - apply Hac.
Qed.

Lemma host_stop_accounts h p j :
  accounts (secure h) h ->
  let h' := MkHosting (ho_store h) (ho_calls h) (ho_servers h) (ho_guards h) ({[(p, j)]} ∪ ho_stopped h) in accounts (secure h') h'.
Proof.
  intros Hac h'. split; try apply Hac.
  intros q i th Hth. eapply (task_account_mono _ _ h); [done | done | | exact (ac_task _ _ Hac q i th Hth)].
  intros H1 H2. cbn in H1. apply not_elem_of_union in H1 as [_ H1]. done.
Qed.

Lemma host_unguard_accounts h p j a th :
  accounts (secure h) h -> ho_guards h !! (p, a) = Some j -> (p, j) ∉ ho_calls h ->
  ho_tasks h p !! j = Some th -> guardless (thread_proc th) \/ (p, j) ∈ ho_stopped h ->
  let h' := MkHosting (ho_store h) (ho_calls h) (ho_servers h) (delete (p, a) (ho_guards h)) (ho_stopped h) in accounts (secure h') h'.
Proof.
  intros Hac Hg Hn Hj Hless h'.
  assert (Hother : forall q b i, (q, i) <> (p, j) -> ho_guards h !! (q, b) = Some i -> delete (p, a) (ho_guards h) !! (q, b) = Some i).
  { intros q b i Hne Hq. rewrite lookup_delete_ne; [done |]. intros [= <- <-]. apply Hne. congruence. }
  split; try apply Hac.
  - intros n q i t Hm Ht. eapply call_account_mono; [| | | | exact (ac_call _ _ Hac n q i t Hm Ht)]; [done | done | | done].
    intros b. apply Hother. intros [= -> ->]. apply Hn. by eapply list_elem_of_lookup_2.
  - intros q i th' Hth. destruct (decide ((q, i) = (p, j))) as [[= -> ->] | Hne].
    + unfold ho_tasks in Hj. unfold ho_tasks in Hth. cbn in Hth. rewrite Hj in Hth. injection Hth as <-.
      pose proof (ac_task _ _ Hac p j th Hj) as Ha. destruct th as [i0 q | q]; [exact Ha |].
      destruct Hless as [Hless | Hst].
      * exists None. split; [exact Hless | done].
      * destruct Ha as (held & Hwp & _). exists held. split; [exact Hwp |]. by intros H1.
    + eapply (task_account_mono _ _ h); [done | done | | exact (ac_task _ _ Hac q i th' Hth)].
      intros H1 H2. split_and!; [done | done |]. intros b. by apply Hother.
Qed.

Lemma host_lease_accounts h id l' :
  accounts (secure h) h ->
  let h' := with_store h (MkTakeover (tw_cluster (ho_store h)) (<[id := l']> (tw_leases (ho_store h))) (tw_log (ho_store h))) in
  accounts (secure h') h'.
Proof. intros Hac h'. apply accounts_store; [exact Hac | done | by intros a v]. Qed.

(** A write in flight is a claim: it takes no record out of force. *)
Lemma host_land_accounts h wr r hs' :
  accounts (secure h) h -> is_Some (owner (w_record wr)) ->
  Register.writes (ho_hist h (w_address wr)) (w_record wr) (w_expected wr) r hs' ->
  let h' := with_store h (MkTakeover (with_hist (tw_cluster (ho_store h)) (w_address wr) hs')
                            (tw_leases (ho_store h)) (tw_log (ho_store h))) in
  accounts (secure h') h'.
Proof.
  intros Hac [o Ho] Hw h'.
  assert (Hh : forall a, ho_hist h' a = if decide (w_address wr = a) then hs' else ho_hist h a).
  { intros a. unfold ho_hist, h'. cbn. apply hist_with_hist. }
  apply accounts_store; [| done |].
  - eapply accounts_mono; [| exact Hac]. intros p a. eapply secure_write; [exact Hw | exact Hh | done | congruence].
  - intros a v Hv. change (Some v ∈ ho_hist h' a). rewrite Hh. case_decide; [subst a | done]. by eapply writes_grow.
Qed.

(** ** The invariant of a world in which no release is late *)
Record hosting_inv (h : hosting) : Prop := {
  hi_store : rtc (takeover_step skew wait) (takeover_initial start) (ho_store h);
  hi_server p : reachable (configs p) (ho_servers h p);
  hi_flight wr : wr ∈ in_flight (tw_cluster (ho_store h)) -> is_Some (owner (w_record wr));
  hi_accounts : accounts (secure h) h
}.

Lemma hi_cluster h : hosting_inv h -> cluster_inv (tw_cluster (ho_store h)).
Proof. intros Hinv. eapply ti_cluster, takeover_reachable_inv, (hi_store _ Hinv). Qed.

(** A call puts in flight only what it was asked to write. *)
Lemma call_in_flight c X (e : routerE X) x c' wr :
  cluster_replies c X e x c' -> wr ∈ in_flight c' ->
  wr ∈ in_flight c \/ (exists a rec rev, written X e = Some (a, rec, rev) /\ w_record wr = rec /\ in_flight c' <> in_flight c).
Proof.
  intros Hrep Hwr. destruct e; cbn in Hrep |- *; try (left; by subst c'); try (left; by destruct Hrep as [-> _]).
  assert (Hu : unconfirmed c a rec rev c' -> wr ∈ in_flight c \/
    (exists a0 rec0 rev0, Some (a, rec, rev) = Some (a0, rec0, rev0) /\ w_record wr = rec0 /\ in_flight c' <> in_flight c)).
  { intros [-> | [(r & h' & _ & ->) | ->]]; [by left .. |]. cbn in Hwr. apply elem_of_cons in Hwr as [-> | ?]; [right | by left].
    exists a, rec, rev. split_and!; [done | done |]. cbn. intros Heq%(f_equal length). cbn in Heq. lia. }
  destruct x as [| [[r | |] |]]; try (by apply Hu). left. destruct Hrep as (h' & _ & ->). exact Hwr.
Qed.

Lemma flight_owned h X (e : routerE X) x c' wr :
  hosting_inv h -> cluster_replies (tw_cluster (ho_store h)) X e x c' -> in_time X e (tw_cluster (ho_store h)) c' ->
  wr ∈ in_flight c' -> is_Some (owner (w_record wr)).
Proof.
  intros Hinv Hrep Htime Hwr. destruct (call_in_flight _ _ _ _ _ _ Hrep Hwr) as [Hold | (a & rec & rev & He & -> & Hne)];
    [by apply (hi_flight _ Hinv) |].
  destruct e; cbn in He, Htime; try done. injection He as -> -> ->.
  destruct (owner rec) eqn:Ho; [by eexists | by destruct (Hne (Htime Hstrict eq_refl))].
Qed.

Context (Hclustered : forall p, clustered (configs p) = true).

Lemma hosting_step_inv h h' : hosting_inv h -> bounded h' -> hosting_step h h' -> hosting_inv h'.
Proof.
  intros Hinv Hb' Hst. pose proof (bounded_before _ _ Hst Hb') as Hb.
  assert (Hstore : rtc (takeover_step skew wait) (takeover_initial start) (ho_store h')).
  { destruct (store_step _ _ Hst) as [Hs | ->]; [| apply (hi_store _ Hinv)]. eapply rtc_r; [apply (hi_store _ Hinv) | exact Hs]. }
  assert (Hsrv : forall p, reachable (configs p) (ho_servers h' p)).
  { intros p. destruct (server_step _ _ p Hst) as [Hs | ->]; [| apply (hi_server _ Hinv)].
    eapply rtc_r; [apply (hi_server _ Hinv) | exact Hs]. }
  assert (Hland : forall i wr, in_flight (tw_cluster (ho_store h)) !! i = Some wr -> is_Some (owner (w_record wr))).
  { intros i wr Hi. by eapply (hi_flight _ Hinv), list_elem_of_lookup_2. }
  split; [exact Hstore | exact Hsrv | |].
  - destruct Hst; try apply (hi_flight _ Hinv). intros wr Hwr. by eapply (flight_owned h).
  - pose proof (hi_accounts _ Hinv) as Hac. destruct Hst.
    + by apply host_lease_accounts.
    + eapply host_land_accounts; eauto.
    + by eapply host_begin_accounts.
    + eapply host_call_accounts; eauto using hi_cluster, hi_server.
    + eapply host_return_accounts; eauto using hi_server.
    + by apply host_drop_accounts.
    + eapply host_runtime_accounts; eauto using hi_server.
    + by apply host_entry_accounts.
    + by eapply host_spawn_accounts.
    + eapply host_abort_accounts; eauto using hi_server.
    + by apply host_stop_accounts.
    + by eapply host_unguard_accounts.
Qed.

Lemma hosting_initial_inv : hosting_inv hosting_initial.
Proof.
  split; [apply rtc_refl | intros p; apply rtc_refl | by intros wr ?%elem_of_nil |].
  split; cbn; [done | by apply NoDup_nil | done | done |].
  intros p i a r _ Ha. cbn in Ha. by rewrite lookup_empty in Ha.
Qed.

Lemma hosting_reachable_inv h : rtc hosting_step hosting_initial h -> bounded h -> hosting_inv h.
Proof.
  intros Hr. refine (rtc_ind_r (fun h => bounded h -> hosting_inv h) hosting_initial _ _ h Hr).
  - intros _. apply hosting_initial_inv.
  - intros h1 h2 _ Hst IH Hb. eapply hosting_step_inv; [| exact Hb | exact Hst]. apply IH. by eapply bounded_before.
Qed.

(** A Server that hosts an Actor and was not fenced has its record in force. *)
Lemma hosts_secure h p a : hosting_inv h -> bounded h -> hosts h p a -> secure h p a.
Proof.
  intros Hinv Hb (r & Ha & Hr). pose proof (hi_accounts _ Hinv) as Hac.
  destruct (decide (Some (task r) ∈ thread_task <$> ho_tasks h p)) as [Hin | Hnone].
  2: { eapply (ac_pending _ _ Hac); [| exact Ha | done]. intros th Hth Ht. apply Hnone. rewrite <- Ht. by apply list_elem_of_fmap_2. }
  assert (Hrun : exists j q, ho_tasks h p !! j = Some (ThActor (task r) q) /\
            (state r = Active \/ exists k, q = Call (UserDeactivate (task r) Idle) k)).
  { destruct Hr as [Hact | (j & k & Hj)]; [| by eauto 10].
    apply list_elem_of_fmap in Hin as ([i q | q] & Ht & [j Hj]%list_elem_of_lookup); [| done]. injection Ht as ->. by eauto. }
  destruct Hrun as (j & q & Hj & Hq). destruct (ac_task _ _ Hac p j _ Hj) as (b & Hwp & Hact & Hs).
  assert (Hb' : b = false /\ at_release q = false); [| destruct Hb'; by eapply Hs].
  destruct Hq as [Hactive | [k ->]]; [| by destruct Hwp].
  assert (Hi : active (task r) (ho_state h p)) by (by exists a, r).
  split; [by destruct b; [destruct (Hact eq_refl) |] |].
  destruct (at_release q) eqn:Hat; [| done]. unfold at_release in Hat. destruct (asks_of q) as [[[] a'] |] eqn:Hq; try done.
  destruct (releasing_route h p j _ q a' (hi_server _ Hinv p) (Hb p) Hj Hq) as [Hna _]. by destruct Hna.
Qed.

(** The record of the Server [p] for [a] was taken over: by a later session of its
    node, or on a reading of the Node Directory at which its session had authority
    for no longer than the reader may take, and twice the skew. *)
Definition displaced (h : hosting) (p : nat) (a : ActorAddress) : Prop :=
  let o := self_owner (selves p) in
  exists old new o' older, replaced (selves p) (ho_hist h a) old new o' older /\
    (owner_node_id o' = owner_node_id o /\ owner_session_id o' <> owner_session_id o \/
     exists m, m ∈ tw_log (ho_store h) /\ Some old ∈ hist (r_cluster m) a /\ hist (r_cluster m) a `suffix_of` (Some old :: older) /\
       r_node m = owner_node_id o /\
       forall th auth, holds_authority (r_leases m (owner_node_id o)) th auth -> session_id (lt_self th) = owner_session_id o ->
         (deadline auth < clock (r_leases m (owner_node_id o)) + wait + (2 * skew + 2) * MILLI)%Z).

Lemma replaced_displaced h p a old new o' older :
  (0 <= skew)%Z -> (0 <= wait)%Z -> (forall id, 0 <= start id)%Z -> (forall id, unsaturated (tw_leases (ho_store h) id)) ->
  hosting_inv h -> replaced (selves p) (ho_hist h a) old new o' older -> displaced h p a.
Proof.
  intros Hskew Hwait Hs Hun Hinv Hr. exists old, new, o', older. split; [done |]. destruct Hr as (newer & Hh & Ho & Ho' & Hne).
  pose proof (takeover_reachable_inv _ _ _ _ (hi_store _ Hinv)) as Hti.
  destruct (decide (owner_node_id o' = owner_node_id (self_owner (selves p)))) as [Heq | Hn].
  - left. split; [done |]. intros Hses. apply Hne. destruct o'; cbn in *. unfold self_owner. congruence.
  - right. destruct (ti_history _ _ _ _ Hti _ _ _ _ _ Hh _ _ Ho Ho' Hn) as (m & Hm & Hold & Hsuf & Hid & Hno).
    exists m. split_and!; [done .. |]. by eapply reading_past_authority.
Qed.
End hosting.
