(* ===== verification/HostingRun.v ===== *)
(** * Executions of Servers over a store

    An executable scheduler for the worlds of [Hosting]; the property of [Hosting]
    and its witness, in which one Server takes over the Actor of another; and an
    execution in which a release that lands late leaves an Actor on two Servers
    with no takeover at all. *)

From stdpp Require Import functions pretty.
From S2P Require Import Prelude Text Address Coordination Transport Session.
From S2P Require Import Runtime RuntimeInv RuntimeActor RuntimeWorld RuntimeProps Activation.
From S2P Require Import Routing Ownership Lease Fencing Takeover Hosting.

(** ** A scheduler *)
Inductive host_action :=
| RServer (p : nat) (x : action)            (* a step of a Server, not a call of the router *)
| RBegin (p j : nat)                        (* its task [j] calls the router *)
| RCall (n : nat)                           (* the call [n] accesses the store, and is answered *)
| RLose (n : nat)                           (* its write is sent, and the call times out *)
| RReturn (n : nat)                         (* it ends *)
| RLand (i : nat)                           (* a write in flight arrives *)
| RUnguard (p : nat) (a : ActorAddress).    (* a task that has ended gives its lock back *)

Definition lock_fn (p j : nat) X (e : routerE X) (g : gmap (nat * ActorAddress) nat) : option (gmap (nat * ActorAddress) nat) :=
  match e with
  | LockResolution a => if g !! (p, a) is None then Some (<[(p, a) := j]> g) else None
  | UnlockResolution a => Some (delete (p, a) g)
  | _ => Some g
  end.

(** The choice that makes [exec_fn] return what the router has found. *)
Definition return_hint (r : call_result) : hint :=
  match r with
  | inl (Ok (Routing.Local reservation)) => HResolve (Ok (ResolvedLocal (if reservation then Some 0 else None)))
  | inl (Ok Routing.Remote) => HResolve (Ok ResolvedRemote)
  | inl (Err error) => HResolve (Err error)
  | inr r => HBool (is_ok r)
  end.

Definition returnsb X (e : runtimeE X) (r : call_result) : X -> bool :=
  match e in runtimeE X return X -> bool with
  | ResolveOwner _ => fun x =>
      match r, x with
      | inl (Ok (Routing.Local reservation)), Ok (ResolvedLocal permit) =>
          Bool.eqb reservation (if permit is Some _ then true else false)
      | inl (Ok Routing.Remote), Ok ResolvedRemote => true
      | _, _ => false
      end
  | ReleaseOwner _ => fun x => if r is inr r then Bool.eqb x (is_ok r) else false
  | _ => fun _ => false
  end.

Definition lost_write X (e : routerE X) (c : cluster) : option (X * cluster) :=
  match e in routerE X return option (X * cluster) with
  | CompareExchange a rec rev => Some (Elapsed, with_in_flight c (MkWrite a rec rev :: in_flight c))
  | _ => None
  end.

Definition plain_step (h : hosting) (p : nat) (x : action) : bool :=
  match x with
  | AStep j _ =>
      match ho_tasks h p !! j with
      | Some th => match thread_proc th with
                   | Call e _ => match asks _ e with Some _ => false | None => true end
                   | Ret _ => false
                   end
      | None => false
      end
  | AInbound _ _ | ADisconnect _ | AShutdown | AFence => true
  | ASpawn i _ => true
  | AAbort _ => false
  end.

Section scheduler.
Context (selves : nat -> ClusterRouter) (configs : nat -> ServerConfig) (strict : bool).
Context (answer : string -> option NodeRecord).

(** An Action starts no Actor when [strict]. *)
Definition open_only (h : hosting) (p : nat) (x : action) (w : RuntimeWorld.world) : bool :=
  match x with
  | AStep j _ => negb strict || (length (tasks (server w)) =? length (tasks (ho_state h p)))%nat ||
      match ho_tasks h p !! j with
      | Some th => match thread_proc th with
                   | Call e _ => match starts_actor _ e with Some (_, m) => opens m | None => true end
                   | Ret _ => true
                   end
      | None => true
      end
  | _ => true
  end.

Definition call_on (h : hosting) (n : nat) X (e : routerE X) (k : X -> proc routerE call_result)
    (self : ClusterRouter) (a : ActorAddress) (x : X) (c' : cluster) : option hosting :=
  match ho_calls h !! n with
  | Some (p, j) =>
      match lock_fn p j X e (ho_guards h) with
      | Some g' =>
          Some (MkHosting (MkTakeover (with_threads c' (<[n := MkThread self a (k x)]> (Ownership.threads c')))
                             (tw_leases (ho_store h)) (read_by (ho_store h) X e x ++ tw_log (ho_store h)))
                  (ho_calls h) (ho_servers h) g' (ho_stopped h))
      | None => None
      end
  | None => None
  end.

Definition host_act (h : hosting) (x : host_action) : option hosting :=
  match x with
  | RServer p x =>
      if plain_step h p x && bool_decide (ho_stopped h = ∅) then
        match act (configs p) (ho_servers h p) x with
        | Some w => if open_only h p x w then Some (with_server h p w) else None
        | None => None
        end
      else None
  | RBegin p j =>
      match ho_tasks h p !! j with
      | Some th =>
          match thread_proc th with
          | Call e _ =>
              match asks _ e with
              | Some c => if bool_decide ((p, j) ∉ ho_calls h) && bool_decide (ho_stopped h = ∅) then
                  Some (MkHosting (with_router_threads (ho_store h) (router_call (selves p) c :: ho_threads h))
                          ((p, j) :: ho_calls h) (ho_servers h) (ho_guards h) (ho_stopped h)) else None
              | None => None
              end
          | Ret _ => None
          end
      | None => None
      end
  | RCall n =>
      match ho_threads h !! n with
      | Some (MkThread self a (Call e k)) =>
          let '(x, c') := directory_handler answer _ e (tw_cluster (ho_store h)) in call_on h n _ e k self a x c'
      | _ => None
      end
  | RLose n =>
      match ho_threads h !! n with
      | Some (MkThread self a (Call e k)) =>
          match lost_write _ e (tw_cluster (ho_store h)) with
          | Some (x, c') => if strict then None else call_on h n _ e k self a x c'
          | None => None
          end
      | _ => None
      end
  | RReturn n =>
      match ho_calls h !! n, ho_threads h !! n with
      | Some (p, j), Some (MkThread _ _ (Ret r)) =>
          match ho_tasks h p !! j with
          | Some th =>
              match thread_proc th with
              | Call e k =>
                  match exec_fn (configs p) _ (ho_state h p) e (return_hint r) with
                  | Some (x, s') =>
                      if returnsb _ e r x && bool_decide (ho_stopped h = ∅) then
                        Some (MkHosting (with_router_threads (ho_store h) (delete n (ho_threads h))) (delete n (ho_calls h))
                                (<[p := MkWorld s' (<[j := thread_continue th (k x)]> (ho_tasks h p))]> (ho_servers h))
                                (ho_guards h) (ho_stopped h))
                      else None
                  | None => None
                  end
              | Ret _ => None
              end
          | None => None
          end
      | _, _ => None
      end
  | RLand i =>
      let c := tw_cluster (ho_store h) in
      match in_flight c !! i with
      | Some wr =>
          let hs := hist c (w_address wr) in
          if Register.matches (Register.current hs) (w_expected wr) then
            Some (with_store h (MkTakeover (with_hist c (w_address wr) (Some (MkVersioned (w_record wr) (fresh_revision hs)) :: hs))
                                  (tw_leases (ho_store h)) (tw_log (ho_store h))))
          else None
      | None => None
      end
  | RUnguard p a =>
      match ho_guards h !! (p, a) with
      | Some j =>
          match ho_tasks h p !! j with
          | Some (ThOther (Ret _)) =>
              if bool_decide ((p, j) ∉ ho_calls h) then
                Some (MkHosting (ho_store h) (ho_calls h) (ho_servers h) (delete (p, a) (ho_guards h)) (ho_stopped h))
              else None
          | _ => None
          end
      | None => None
      end
  end.

Fixpoint host_run (h : hosting) (l : list host_action) : option hosting :=
  match l with
  | [] => Some h
  | x :: l => match host_act h x with
              | Some h => host_run h l
              | None => None
              end
  end.
End scheduler.

(** ** The scheduler takes steps of the world *)
Section sound.
Context (skew wait : Z) (start : string -> Z).
Context (selves : nat -> ClusterRouter) (configs : nat -> ServerConfig) (strict : bool).
Context (answer : string -> option NodeRecord).

Local Abbreviation step := (hosting_step skew wait selves configs strict).
Local Abbreviation answered h := (forall id, directory_replies skew wait (tw_leases (ho_store h) id) (answer id)).

Lemma lock_fn_sound p j X (e : routerE X) g g' : lock_fn p j X e g = Some g' -> lock_step p j X e g g'.
Proof. destruct e; cbn; try (by intros [= <-]). destruct (g !! (p, a)) eqn:Hg; [done |]. by intros [= <-]. Qed.

Lemma returnsb_sound X (e : runtimeE X) r x : returnsb X e r x = true -> returns X e r x.
Proof.
  destruct e; cbn; try done.
  - destruct r as [[[reservation |] |] |]; try done; destruct x as [[permit |] |]; try done.
    intros Hb%Bool.eqb_prop. exists permit. split; [done |]. destruct permit; subst; [split; [done | by eexists] | by split; [intros [] |]].
  - destruct r as [| r]; [done |]. by intros Hb%Bool.eqb_prop.
Qed.

Lemma call_on_sound h n X (e : routerE X) k self a x c' h' :
  ho_threads h !! n = Some (MkThread self a (Call e k)) ->
  cluster_replies (tw_cluster (ho_store h)) X e x c' -> directory_ok skew wait (ho_store h) X e x ->
  in_time strict X e (tw_cluster (ho_store h)) c' -> call_on h n X e k self a x c' = Some h' ->
  step h h' /\ tw_leases (ho_store h') = tw_leases (ho_store h).
Proof.
  intros Ht Hrep Hd Htime Hc. unfold call_on in Hc. destruct (ho_calls h !! n) as [[p j] |] eqn:Hn; [| done].
  destruct (lock_fn _ _ _ _ _) as [g' |] eqn:Hg; [| done]. injection Hc as <-. split; [| done].
  eapply host_call; [exact Hn | exact Ht | done | done | done | by apply lock_fn_sound].
Qed.

Lemma server_act_sound h p x w :
  plain_step h p x = true -> ho_stopped h = ∅ -> act (configs p) (ho_servers h p) x = Some w ->
  open_only strict h p x w = true -> step h (with_server h p w).
Proof.
  intros Hplain Hst Hact Hopen. assert (Hns : forall j, (p, j) ∉ ho_stopped h) by (rewrite Hst; set_solver).
  rewrite <- (world_eta (ho_servers h p)) in Hact. destruct x; cbn [act] in Hact; fold (ho_tasks h p) (ho_state h p) in Hact.
  - cbn in Hplain, Hopen. destruct (ho_tasks h p !! j) as [th |] eqn:Hj; [| done]. destruct (thread_proc th) as [| X e k] eqn:Hp; [done |].
    destruct (exec_fn _ _ _ _ _) as [[x s'] |] eqn:Hf; [| done]. injection Hact as <-.
    destruct (asks X e) eqn:Ha; [done |].
    eapply host_runtime; [exact Hj | exact Hp | exact Ha | apply Hns | by eapply exec_fn_sound |].
    intros -> a m He Hm. rewrite He, Hm in Hopen. cbn in Hopen. rewrite orb_false_r in Hopen. by apply Nat.eqb_eq.
  - injection Hact as <-. apply host_entry. constructor.
  - injection Hact as <-. apply host_entry. constructor.
  - injection Hact as <-. apply host_entry. constructor.
  - injection Hact as <-. apply host_entry. constructor.
  - destruct (tasks (ho_state h p) !! i) as [t |] eqn:Ht; [| done]. destruct (has_thread _ _) eqn:Hh; [done |].
    injection Hact as <-. apply host_spawn; [done |]. intros th Hin Heq.
    assert (Htrue : has_thread i (ho_tasks h p) = true); [| congruence].
    unfold has_thread. apply existsb_exists. exists th. split; [by apply list_elem_of_In | by apply bool_decide_eq_true_2].
  - done.
Qed.

Lemma host_act_sound h x h' :
  answered h -> host_act selves configs strict answer h x = Some h' ->
  step h h' /\ tw_leases (ho_store h') = tw_leases (ho_store h).
Proof.
  intros Hans Hact. destruct x as [p x | p j | n | n | n | i | p a]; cbn [host_act] in Hact.
  - destruct (plain_step h p x) eqn:Hp; [| done]. case_bool_decide as Hst; [| done]. cbn [andb] in Hact.
    destruct (act _ _ _) as [w |] eqn:Ha; [| done]. destruct (open_only _ _ _ _ _) eqn:Ho; [| done].
    injection Hact as <-. split; [by eapply server_act_sound | done].
  - destruct (ho_tasks h p !! j) as [th |] eqn:Hj; [| done]. destruct (thread_proc th) as [| X e k] eqn:Hp; [done |].
    destruct (asks X e) as [c |] eqn:Hc; [| done]. do 2 (case_bool_decide; [| done]). cbn in Hact. injection Hact as <-.
    split; [| done]. eapply host_begin; [exact Hj | exact Hp | exact Hc | done | rewrite H0; set_solver].
  - destruct (ho_threads h !! n) as [[self a [| X e k]] |] eqn:Ht; try done.
    destruct (directory_handler answer X e _) as [x c'] eqn:Hd.
    destruct (directory_handler_sound skew wait answer (ho_store h) X e x c' Hans Hd) as [Hrep Hdir].
    eapply call_on_sound; [exact Ht | exact Hrep | exact Hdir | | exact Hact].
    destruct e; try done. intros _ _. cbn in Hd. by destruct (Register.matches _ _); injection Hd as _ <-.
  - destruct (ho_threads h !! n) as [[self a [| X e k]] |] eqn:Ht; try done.
    destruct (lost_write X e _) as [[x c'] |] eqn:Hl; [| done]. assert (Hs : strict = false) by (by destruct strict). rewrite Hs in Hact.
    destruct e; try done. injection Hl as <- <-.
    eapply call_on_sound; [exact Ht | | | | exact Hact]; [cbn; right; by right | done | by rewrite Hs].
  - destruct (ho_calls h !! n) as [[p j] |] eqn:Hn; [| done].
    destruct (ho_threads h !! n) as [[self a [r | X e k]] |] eqn:Ht; try done.
    destruct (ho_tasks h p !! j) as [th |] eqn:Hj; [| done]. destruct (thread_proc th) as [| X e k] eqn:Hp; [done |].
    destruct (exec_fn _ _ _ _ _) as [[x s'] |] eqn:Hf; [| done]. destruct (returnsb X e r x) eqn:Hr; [| done].
    case_bool_decide as Hst; [| done]. injection Hact as <-. split; [| done].
    eapply host_return; [exact Hn | exact Ht | rewrite Hst; set_solver | exact Hj | exact Hp | by apply returnsb_sound | by eapply exec_fn_sound].
  - destruct (in_flight _ !! i) as [wr |] eqn:Hi; [| done]. destruct (Register.matches _ _) eqn:Hm; [| done].
    injection Hact as <-. split; [| done]. eapply host_land; [exact Hi | by apply fresh_write].
  - destruct (ho_guards h !! (p, a)) as [j |] eqn:Hg; [| done]. destruct (ho_tasks h p !! j) as [[| [r | X e k]] |] eqn:Hj; try done.
    case_bool_decide; [| done]. injection Hact as <-. split; [| done].
    eapply host_unguard; [exact Hg | done | exact Hj | by left].
Qed.

Lemma host_run_sound h l h' :
  answered h -> host_run selves configs strict answer h l = Some h' -> rtc step h h' /\ tw_leases (ho_store h') = tw_leases (ho_store h).
Proof.
  revert h. induction l as [| x l IH]; intros h Hans; cbn; [intros [= <-]; split; [apply rtc_refl | done] |].
  destruct (host_act _ _ _ _ h x) as [h1 |] eqn:Hx; [| done]. intros Hr.
  destruct (host_act_sound _ _ _ Hans Hx) as [Hst Hl]. destruct (IH h1) as [Hrt Hl']; [by rewrite Hl | done |].
  split; [by eapply rtc_l | congruence].
Qed.

(** The leases of one node move first. *)
Lemma host_leases_run id h L l l' :
  rtc (lease_world_step skew id) l l' -> tw_leases (ho_store h) = L -> L id = l ->
  exists L', rtc step h (with_store h (MkTakeover (tw_cluster (ho_store h)) L' (tw_log (ho_store h)))) /\
    L' id = l' /\ forall id', id' <> id -> L' id' = L id'.
Proof.
  intros Hr. revert h L. induction Hr as [l | l l1 l2 Hst _ IH]; intros h L HL Hid.
  - exists L. split; [| done]. subst L. destruct h as [[] ]; apply rtc_refl.
  - destruct (IH (with_store h (MkTakeover (tw_cluster (ho_store h)) (<[id := l1]> L) (tw_log (ho_store h)))) (<[id := l1]> L))
      as (L' & Hr & Hl' & Hne); [done | apply fn_lookup_insert |].
    exists L'. split; [| split; [done |]].
    + eapply rtc_l; [| exact Hr]. rewrite <- HL. apply host_lease. by rewrite HL, Hid.
    + intros id' Hn. rewrite (Hne id' Hn). by apply fn_lookup_insert_ne.
Qed.
End sound.

(** ** Executions *)
Definition demo_selves (p : nat) : ClusterRouter :=
  match p with
  | 0 => owner_a
  | 1 => other_b
  | S (S p) => MkClusterRouter "node-c" (pretty p)
  end.

Definition demo_hosting (L : string -> lease_world) : hosting :=
  with_store (hosting_initial (fun _ => 999999%Z) (fun _ => demo_config)) (MkTakeover empty_cluster L []).

Definition demo_run (strict : bool) (answer : string -> option NodeRecord) (L : string -> lease_world) (l : list host_action)
    : option hosting :=
  host_run demo_selves (fun _ => demo_config) strict answer (demo_hosting L) l.

Definition on_server (p : nat) (l : list action) : list host_action := RServer p <$> l.

(** A Client opens a Session: the Server [p] resolves the room in [n] accesses, and
    its task [j] starts the Actor. *)
Definition open_room (p j n : nat) (sid : SessionId) : list host_action :=
  [RServer p (AInbound (envelope_session_open demo_room sid) (Some 7%N)); RBegin p j] ++ repeat (RCall 0) n ++ [RReturn 0] ++
  on_server p (steps j 5).

(** The Actor [i] of Server 0 activates in the thread [t] and handles the opening,
    and the task [j] confirms it. *)
Definition serve_room (i t j : nat) : list host_action :=
  on_server 0 ([ASpawn i 20] ++ steps t 2 ++ [AStep t (HBool true)] ++ steps t 1 ++ steps j 1 ++ [AStep j (HBool true)]) ++
  [RUnguard 0 demo_room].

(** The task [j] closes the Session, and the Actor in the thread [t] comes to the
    release of its passivation. *)
Definition idle_room (t j : nat) (sid : SessionId) : list host_action :=
  on_server 0 ([AInbound (envelope_session_close demo_room sid) (Some 7%N)] ++ steps j 3 ++ steps t 1 ++
    [AStep t (HBool true); AStep t (HWake IdleTimeout)] ++ steps t 3).

(** Node [a] serves the room; a later session of its node holds the lease; node [b]
    takes the room over. *)
Definition overtaken_script : list host_action :=
  open_room 0 0 4 demo_session ++ serve_room 0 1 0 ++ open_room 1 0 5 demo_session2.

(** The write of a release is sent, and the call times out; the route goes; the
    next open finds the record of this Server in the store and starts the Actor;
    the write arrives; node [b] finds the room unowned. *)
Definition late_release_script : list host_action :=
  open_room 0 0 4 demo_session ++ serve_room 0 1 0 ++ idle_room 1 2 demo_session ++
  [RBegin 0 1; RCall 0; RCall 0; RLose 0; RCall 0; RReturn 0] ++ on_server 0 (steps 1 2) ++
  open_room 0 3 2 demo_session2 ++ [RLand 0] ++ open_room 1 0 4 demo_session.

(** An Action passes the check of its Session; another one panics, and the Session
    is terminated; a new Session opens on a new Actor and closes, and the Actor
    passivates and releases; the Action starts an Actor. *)
Definition late_action_script : list host_action :=
  open_room 0 0 4 demo_session ++ serve_room 0 1 0 ++
  on_server 0 ([AInbound (envelope_action demo_room demo_session "late") (Some 7%N)] ++ steps 2 2 ++
    [AInbound (envelope_action demo_room demo_session "panic") (Some 7%N)] ++ steps 3 5 ++ steps 1 1 ++
    [AStep 1 (HBool false)] ++ steps 1 6) ++
  open_room 0 4 2 demo_session2 ++ serve_room 1 5 4 ++ idle_room 5 6 demo_session2 ++
  [RBegin 0 5] ++ repeat (RCall 0) 4 ++ [RReturn 0] ++ on_server 0 (steps 5 1) ++
  on_server 0 (steps 2 3) ++ open_room 1 0 4 demo_session.

Definition demo_final (strict : bool) (answer : string -> option NodeRecord) (L : string -> lease_world) (l : list host_action) : hosting :=
  default (demo_hosting L) (demo_run strict answer L l).

Definition is_completed (o : option hosting) : bool := if o is Some _ then true else false.

Lemma demo_selves_inj p q : demo_selves p = demo_selves q -> p = q.
Proof. destruct p as [| [|]], q as [| [|]]; try done. cbn. intros [= H%(inj pretty)]. congruence. Qed.

(** A script that completes is an execution of the world. *)
Lemma demo_final_run strict answer L l :
  (forall id, directory_replies 0 0 (L id) (answer id)) -> is_completed (demo_run strict answer L l) = true ->
  rtc (hosting_step 0 0 demo_selves (fun _ => demo_config) strict) (demo_hosting L) (demo_final strict answer L l) /\
  tw_leases (ho_store (demo_final strict answer L l)) = L.
Proof.
  intros Ha Hc. unfold demo_final, demo_run in *. destruct (host_run _ _ _ _ _ _) as [h |] eqn:Hr; [| done].
  by apply (host_run_sound 0 0) in Hr.
Qed.

(** Nobody has a lease. *)
Definition no_leases : string -> lease_world := fun _ => empty_lease_world 999999.

Lemma no_leases_unlisted id : directory_replies 0 0 (no_leases id) None.
Proof. exists 0%Z, None. split_and!; [split; vm_compute; discriminate | done | done]. Qed.

(** Two Servers serve the room of a script that completes. *)
Ltac evaluate := vm_compute; (reflexivity || discriminate).

Lemma overtaken_run L : (forall id, directory_replies 0 0 (L id) (node_a_directory id)) ->
  let h := demo_final true node_a_directory L overtaken_script in
  rtc (hosting_step 0 0 demo_selves (fun _ => demo_config) true) (demo_hosting L) h /\ tw_leases (ho_store h) = L /\
  bounded h /\ hosts h 0 demo_room /\ hosts h 1 demo_room /\ open_for_service h 0 /\ open_for_service h 1 /\
  ho_hist h demo_room =
    [Some (MkVersioned (local_claim other_b 2) "rr"); Some (MkVersioned (local_claim owner_a 1) "r")].
Proof.
  intros Hd h. destruct (demo_final_run true node_a_directory L overtaken_script Hd ltac:(evaluate)) as [Hr HL].
  split; [exact Hr |]. split; [exact HL |]. split; [intros [| [| p]]; evaluate |].
  split; [exists (MkRoute 1 Active 0); split; [evaluate | by left] |].
  split; [exists (MkRoute 1 Active 0); split; [evaluate | by left] |].
  split_and!; evaluate.
Qed.

(** ** Properties *)

(** C1: single activation: in any execution of any number of Servers (tasks that
    open, serve, passivate and release, their calls of the router interleaved and
    cancelled at will) over one store and the leases of every node id, in which a
    release does not land after its call has ended and an Action starts no Actor,
    when two Servers that were not fenced or shut down host an Actor of the same
    address, the record of one of them was taken over: by a later session of its
    node, or on a read of the Node Directory, made after its record was written and
    before the successor was, at which its session had authority for less than the
    reader may wait, twice the clock skew and 2 ms. *)
Theorem single_activation (skew wait : Z) (start : string -> Z) (selves : nat -> ClusterRouter) (configs : nat -> ServerConfig)
    (h : hosting) (p q : nat) (a : ActorAddress) :
  (0 <= skew)%Z -> (0 <= wait)%Z -> (forall id, 0 <= start id)%Z ->
  (forall p q, selves p = selves q -> p = q) -> (forall p, clustered (configs p) = true) ->
  rtc (hosting_step skew wait selves configs true) (hosting_initial start configs) h ->
  bounded h -> (forall id, unsaturated (tw_leases (ho_store h) id)) ->
  p <> q -> hosts h p a -> hosts h q a -> open_for_service h p -> open_for_service h q ->
  displaced skew wait selves h p a \/ displaced skew wait selves h q a.
Proof.
  intros Hskew Hwait Hstart Hinj Hcl Hr Hb Hun Hpq Hp Hq Hop Hoq.
  pose proof (hosting_reachable_inv skew wait start selves configs true Hinj eq_refl Hcl h Hr Hb) as Hinv.
  assert (Hfp : in_force (selves p) (ho_hist h a)) by (by eapply hosts_secure).
  assert (Hfq : in_force (selves q) (ho_hist h a)) by (by eapply hosts_secure).
  destruct (in_force_both (selves p) (selves q) (ho_hist h a)) as (old & new & o' & older & [Hd | Hd]); [| done | done | left | right].
  - intros Heq. apply Hpq. by apply (self_owner_inj selves Hinj).
  - by eapply replaced_displaced.
  - by eapply replaced_displaced.
Qed.

Lemma single_activation_witness :
  exists h, rtc (hosting_step 0 0 demo_selves (fun _ => demo_config) true) (hosting_initial (fun _ => 999999%Z) (fun _ => demo_config)) h /\
    hosts h 0 demo_room /\ hosts h 1 demo_room /\ displaced 0 0 demo_selves h 0 demo_room.
Proof.
  destruct takeover_run_leases as (l & tha & auth & Hl & HL).
  destruct (host_leases_run 0 0 demo_selves (fun _ => demo_config) true "node-a"
              (hosting_initial (fun _ => 999999%Z) (fun _ => demo_config)) _ _ _ Hl eq_refl eq_refl) as (L & Hr0 & Hid & Hne).
  destruct (HL L Hid Hne) as (Hdir & Hun & _).
  destruct (overtaken_run L Hdir) as (Hr & Hleases & Hb & Hp & Hq & Hop & Hoq & Hh).
  assert (Hreach := transitivity Hr0 Hr).
  eexists. split; [exact Hreach |]. split; [exact Hp |]. split; [exact Hq |].
  assert (Hun' : forall id, unsaturated (tw_leases (ho_store (demo_final true node_a_directory L overtaken_script)) id))
    by (by rewrite Hleases).
  destruct (single_activation 0 0 (fun _ => 999999%Z) demo_selves (fun _ => demo_config) _ 0 1 demo_room ltac:(done) ltac:(done)
              ltac:(done) demo_selves_inj ltac:(done) Hreach Hb Hun' ltac:(done) Hp Hq Hop Hoq) as [Hd | Hd]; [exact Hd |].
  destruct Hd as (old & new & o' & older & (newer & Heq & Ho & _) & _). rewrite Hh in Heq.
  destruct newer as [| x [| y newer]]; cbn in Heq; [injection Heq as _ <- _; done | discriminate | by destruct newer].
Defined.

(** Without its two conditions, two Servers can host the Actor though the record of
    none of them was taken over: when a release lands after its call has timed out. *)
Theorem late_release_shares_actor :
  exists h, rtc (hosting_step 0 0 demo_selves (fun _ => demo_config) false) (demo_hosting no_leases) h /\ bounded h /\
    hosts h 0 demo_room /\ hosts h 1 demo_room /\ open_for_service h 0 /\ open_for_service h 1 /\
    tw_log (ho_store h) = [] /\
    ho_hist h demo_room =
      [Some (MkVersioned (local_claim other_b 2) "rrrr"); Some (MkVersioned (unowned 1) "rr");
       Some (MkVersioned (local_claim owner_a 1) "r")].
Proof.
  exists (demo_final false (fun _ => None) no_leases late_release_script).
  destruct (demo_final_run false (fun _ => None) no_leases late_release_script no_leases_unlisted ltac:(evaluate)) as [Hr _].
  split; [exact Hr |]. split; [intros [| [| p]]; evaluate |].
  split; [exists (MkRoute 2 Active 1); split; [evaluate | by left] |].
  split; [exists (MkRoute 1 Active 0); split; [evaluate | by left] |].
  split_and!; evaluate.
Qed.

(** The same when an Action, whose Session was open when it was checked, is
    dispatched after the Actor has been released. *)
Theorem late_action_shares_actor :
  exists h, rtc (hosting_step 0 0 demo_selves (fun _ => demo_config) false) (demo_hosting no_leases) h /\ bounded h /\
    hosts h 0 demo_room /\ hosts h 1 demo_room /\ open_for_service h 0 /\ open_for_service h 1 /\
    tw_log (ho_store h) = [] /\ in_flight (tw_cluster (ho_store h)) = [] /\
    ho_hist h demo_room =
      [Some (MkVersioned (local_claim other_b 2) "rrrr"); Some (MkVersioned (unowned 1) "rr");
       Some (MkVersioned (local_claim owner_a 1) "r")].
Proof.
  exists (demo_final false (fun _ => None) no_leases late_action_script).
  destruct (demo_final_run false (fun _ => None) no_leases late_action_script no_leases_unlisted ltac:(evaluate)) as [Hr _].
  split; [exact Hr |]. split; [intros [| [| p]]; evaluate |].
  split; [exists (MkRoute 3 Active 2); split; [evaluate | by left] |].
  split; [exists (MkRoute 1 Active 0); split; [evaluate | by left] |].
  split_and!; evaluate.
Qed.
