(* ===== verification/Accept.v ===== *)
(** * The accept task and the connection tasks

    Models [spawn_transport] of [coactor/src/cluster/node.rs] with the inbound
    task handles of [coactor/src/runtime/core.rs] ([register_inbound_task],
    [retain_inbound_tasks], [abort_inbound_tasks]): the select loop that accepts
    streams, and one task per stream that receives envelopes, dispatches each
    ([Runtime.dispatch_inbound]) before it receives the next, and closes the
    Sessions of its sender ([Runtime.close_sessions_for_sender]) when the stream
    ends.  They run in one world with the other procedures of the Server
    ([RuntimeWorld]); every step has a trace, as in [RuntimeTrace].  The theorems
    say what every connection task leaves behind, and which ones an abort reaches;
    [AcceptTrace] relates this world to the executions of [RuntimeTrace]. *)

From S2P Require Import Prelude Text Address Transport Session Runtime RuntimeInv RuntimeActor RuntimeWorld RuntimeTrace.
Import Registry.

Abbreviation ConnId := nat (only parsing).

(** ** The state *)

(** Where a connection task is: in [stream.recv()], in [dispatch_inbound], in
    [close_sessions_for_sender], or at its end.  The procedure it awaits is thread
    [j] of the runtime. *)
Inductive conn_phase :=
| Receiving
| Dispatching (j : nat)
| Closing (j : nat)
| Done.

#[export] Instance conn_phase_eq_dec : EqDecision conn_phase.
Proof. solve_decision. Defined.

(** A connection task; [received] is what it was given, oldest first. *)
Record connection := MkConnection {
  c_sender : SenderId;
  c_phase : conn_phase;
  c_received : list Envelope;
  c_aborted : bool
}.

(** Where the accept task is: in [select!], between the spawn of a connection and
    its registration, past the loop, or at its end. *)
Inductive accept_phase :=
| Selecting
| Registering (c : ConnId)
| Broke
| Stopped.

(** [watch_value], [watch_seen]: the shutdown watch; [forced]: the force oneshot;
    [backlog]: the streams the listener holds; [listening]: new ones may come. *)
Record accept_world := MkAccept {
  runtime : world;
  accept : accept_phase;
  connections : list connection;
  inbound_tasks : list ConnId;
  backlog : list SenderId;
  listening : bool;
  watch_value : bool;
  watch_seen : bool;
  forced : bool
}.

Definition with_runtime (w : accept_world) x := MkAccept x (accept w) (connections w) (inbound_tasks w) (backlog w)
  (listening w) (watch_value w) (watch_seen w) (forced w).
Definition with_accept (w : accept_world) x := MkAccept (runtime w) x (connections w) (inbound_tasks w) (backlog w)
  (listening w) (watch_value w) (watch_seen w) (forced w).
Definition with_connections (w : accept_world) x := MkAccept (runtime w) (accept w) x (inbound_tasks w) (backlog w)
  (listening w) (watch_value w) (watch_seen w) (forced w).
Definition with_inbound_tasks (w : accept_world) x := MkAccept (runtime w) (accept w) (connections w) x (backlog w)
  (listening w) (watch_value w) (watch_seen w) (forced w).
Definition with_listener (w : accept_world) x y := MkAccept (runtime w) (accept w) (connections w) (inbound_tasks w) x
  y (watch_value w) (watch_seen w) (forced w).
Definition with_signals (w : accept_world) x y z := MkAccept (runtime w) (accept w) (connections w) (inbound_tasks w)
  (backlog w) (listening w) x y z.

(** [task.is_finished()] *)
Definition is_finished (c : connection) : bool :=
  c_aborted c || match c_phase c with Done => true | _ => false end.

(** The thread a connection task awaits. *)
Definition conn_thread (c : connection) : option nat :=
  match c_phase c with
  | Dispatching j | Closing j => Some j
  | Receiving | Done => None
  end.

Definition finished_at (w : accept_world) (i : ConnId) : bool :=
  from_option is_finished true (connections w !! i).

Definition with_phase (c : connection) (p : conn_phase) : connection :=
  MkConnection (c_sender c) p (c_received c) (c_aborted c).
Definition abort (c : connection) : connection :=
  MkConnection (c_sender c) (c_phase c) (c_received c) true.

(** [register_inbound_task], [retain_inbound_tasks], [abort_inbound_tasks] *)
Definition retain_inbound_tasks (w : accept_world) : accept_world :=
  with_inbound_tasks w (filter (fun i => finished_at w i = false) (inbound_tasks w)).

Definition register_inbound_task (w : accept_world) (i : ConnId) : accept_world :=
  let w := retain_inbound_tasks w in
  with_inbound_tasks w (inbound_tasks w ++ [i]).

Definition abort_inbound_tasks (w : accept_world) : accept_world :=
  with_inbound_tasks
    (with_connections w (foldr (fun i l => alter abort i l) (connections w) (inbound_tasks w))) [].

Definition is_abort_inbound {X} (e : runtimeE X) : bool :=
  match e with AbortInboundTasks => true | _ => false end.

Section accept.
Context (config : ServerConfig).

(** ** One connection task *)

(** [while let Some(envelope) = stream.recv().await { dispatch_inbound }], then
    [close_sessions_for_sender]. *)
Inductive conn_step : world -> connection -> trace -> world -> connection -> Prop :=
| conn_recv s ths c e :
    c_phase c = Receiving ->
    conn_step (MkWorld s ths) c [(length ths, Entered e (Some (c_sender c)))]
      (MkWorld s (ths ++ [ThOther (dispatch_inbound config e (Some (c_sender c)))]))
      (MkConnection (c_sender c) (Dispatching (length ths)) (c_received c ++ [e]) (c_aborted c))
| conn_dispatched w c j u :
    c_phase c = Dispatching j -> threads w !! j = Some (ThOther (Ret u)) ->
    conn_step w c [] w (with_phase c Receiving)
| conn_end s ths c :
    c_phase c = Receiving ->
    conn_step (MkWorld s ths) c [(length ths, Silent)]
      (MkWorld s (ths ++ [ThOther (close_sessions_for_sender (c_sender c))]))
      (with_phase c (Closing (length ths)))
| conn_closed w c j u :
    c_phase c = Closing j -> threads w !! j = Some (ThOther (Ret u)) ->
    conn_step w c [] w (with_phase c Done).

(** ** The world *)
Definition initial_accept : accept_world :=
  MkAccept (initial_world config) Selecting [] [] [] true false true false.

(** The procedures of the Server that the transport does not start. *)
Inductive server_entry : proc runtimeE unit -> Prop :=
| server_broadcast a payload : server_entry (broadcast_event a payload)
| server_shutdown : server_entry (bind! _ := shutdown; Ret ())
| server_fence : server_entry fence.

(** A step, with what it adds to the trace of the runtime. *)
Inductive accept_step : accept_world -> trace -> accept_world -> Prop :=
(* a call of a procedure of the Server, those that connection tasks await among
   them; what an aborted task awaits does not run *)
| accept_call w j th X (e : runtimeE X) k x s' :
    threads (runtime w) !! j = Some th -> thread_proc th = Call e k ->
    exec_effect config X (server (runtime w)) e x s' ->
    (forall c, c ∈ connections w -> c_aborted c = true -> conn_thread c <> Some j) ->
    let w' := with_runtime w (MkWorld s' (<[j := thread_continue th (k x)]> (threads (runtime w)))) in
    accept_step w [(j, label_of (server (runtime w)) X e x s')] (if is_abort_inbound e then abort_inbound_tasks w' else w')
| accept_entry w p :
    server_entry p ->
    accept_step w [(length (threads (runtime w)), Silent)]
      (with_runtime w (MkWorld (server (runtime w)) (threads (runtime w) ++ [ThOther p])))
| accept_spawn w i t fuel :
    tasks (server (runtime w)) !! i = Some t ->
    (forall th, th ∈ threads (runtime w) -> thread_task th <> Some i) ->
    accept_step w [] (with_runtime w (MkWorld (server (runtime w))
      (threads (runtime w) ++ [ThActor i (actor_task config fuel i (task_address t))])))
| accept_abort w j i p t :
    threads (runtime w) !! j = Some (ThActor i p) -> tasks (server (runtime w)) !! i = Some t ->
    abort_requested t = true -> completed t = false ->
    accept_step w [] (with_runtime w (MkWorld (server (runtime w))
      (<[j := ThActor i (drop_task i)]> (threads (runtime w)))))
(* a connection task; an aborted one does not run *)
| accept_conn w i c l v c' :
    connections w !! i = Some c -> c_aborted c = false ->
    conn_step (runtime w) c l v c' ->
    let w' := with_runtime w v in
    let w' := if is_finished c' then retain_inbound_tasks w' else w' in
    accept_step w l (with_connections w' (<[i := c']> (connections w)))
(* the listener and [ClusterTasks::shutdown] *)
| accept_arrive w sender :
    listening w = true -> sender ∉ backlog w ->
    (forall c, c ∈ connections w -> c_sender c <> sender) ->
    accept_step w [] (with_listener w (backlog w ++ [sender]) true)
| accept_signal w :
    accept_step w [] (with_signals w true false (forced w))
| accept_force w :
    accept_step w [] (with_signals w (watch_value w) (watch_seen w) true)
(* the accept task *)
| accept_shutdown w :
    accept w = Selecting -> watch_seen w = false ->
    accept_step w [] (with_listener (with_signals w (watch_value w) true (forced w)) (backlog w)
                     (listening w && negb (watch_value w)))
| accept_forced w :
    accept w = Selecting -> forced w = true -> accept_step w [] (with_accept w Broke)
| accept_accepted w sender rest :
    accept w = Selecting -> backlog w = sender :: rest ->
    accept_step w [] (with_accept
      (with_connections (with_listener w rest (listening w))
         (connections w ++ [MkConnection sender Receiving [] false]))
      (Registering (length (connections w))))
| accept_closed w :
    accept w = Selecting -> backlog w = [] -> listening w = false ->
    accept_step w [] (with_accept w Broke)
| accept_register w i :
    accept w = Registering i ->
    accept_step w [] (with_accept (register_inbound_task w i) Selecting)
| accept_stop w :
    accept w = Broke -> accept_step w [] (with_accept w Stopped).

Definition accepts (w w' : accept_world) : Prop := exists l, accept_step w l w'.

Definition accept_reachable (w : accept_world) : Prop := rtc accepts initial_accept w.

(** ** What becomes of the registry *)
Definition sessions_after {X} (s : ServerState) (e : runtimeE X) : SessionRegistry :=
  match e with
  | RegisterActor a sid c => (register_actor (sessions s) a sid c).2
  | UnregisterActor a sid => (unregister_actor (sessions s) a sid).2
  | _ => sessions s
  end.

(** A procedure that registers Sessions for [who] only, or for nobody. *)
Definition registers {X} (who : option SenderId) (e : runtimeE X) : Prop :=
  match e with RegisterActor _ _ c => who = Some c | _ => True end.

Definition reg_monitor (who : option SenderId) : monitor runtimeE unit :=
  Monitor runtimeE unit (fun X _ e => registers who e) (fun X _ e _ _ => True).

(** The Sessions a connection task still has to close, once it has their list. *)
Definition to_close := option (list (ActorAddress * SessionId)).

Definition conn_observe (sender : SenderId) X (g : to_close) (e : runtimeE X) : X -> to_close -> Prop :=
  match e in runtimeE X return X -> to_close -> Prop with
  | SenderSnapshot c => fun x g' => g' = if bool_decide (c = sender) then Some x else g
  | UnregisterActor a sid => fun _ g' => g' = filter (fun y => y <> (a, sid)) <$> g
  | _ => fun _ g' => g' = g
  end.

Definition closing_monitor (sender : SenderId) : monitor runtimeE to_close :=
  Monitor runtimeE to_close (fun X _ e => registers None e) (conn_observe sender).

Definition no_session_of (s : ServerState) (sender : SenderId) : Prop :=
  forall a sid, sink (sessions s) a sid <> Some sender.

Definition conn_ok (v : world) (c : connection) : Prop :=
  match c_phase c with
  | Receiving | Dispatching _ => True
  | Closing j =>
      exists p g, threads v !! j = Some (ThOther p) /\
        wp (closing_monitor (c_sender c)) g p (fun _ g' => g' = Some []) /\
        forall l a sid, g = Some l -> sink (sessions (server v)) a sid = Some (c_sender c) -> (a, sid) ∈ l
  | Done => no_session_of (server v) (c_sender c)
  end.

(** A thread registers Sessions for nobody, or is the dispatch of a connection. *)
Definition thread_ok (l : list connection) (j : nat) (p : proc runtimeE unit) : Prop :=
  wp (reg_monitor None) () p (fun _ _ => True) \/
  exists c, c ∈ l /\ c_phase c = Dispatching j /\ wp (reg_monitor (Some (c_sender c))) () p (fun _ _ => True).

Definition accept_inv (w : accept_world) : Prop :=
  (forall j th, threads (runtime w) !! j = Some th -> thread_ok (connections w) j (thread_proc th)) /\
  (forall c, c ∈ connections w -> conn_ok (runtime w) c) /\
  NoDup (backlog w ++ (c_sender <$> connections w)) /\
  (forall i c, connections w !! i = Some c -> is_finished c = false ->
     i ∈ inbound_tasks w \/ accept w = Registering i).

(** ** Lemmas on the registry *)
Lemma resolve_oneshot_sessions o x s : sessions (resolve_oneshot o x s) = sessions s.
Proof. unfold resolve_oneshot. by destruct (oneshots s !! o) as [[] |]. Qed.

Lemma drop_message_sessions m s : sessions (drop_message m s) = sessions s.
Proof. destruct m; try done. apply resolve_oneshot_sessions. Qed.

Lemma drop_messages_sessions ms s : sessions (drop_messages ms s) = sessions s.
Proof. induction ms as [| m ms IH]; [done |]. cbn. by rewrite drop_message_sessions. Qed.

Lemma fail_message_sessions m e s : sessions (fail_message m e s) = sessions s.
Proof. destruct m; try done. apply resolve_oneshot_sessions. Qed.

Lemma mailbox_try_send_sessions i m s : sessions (mailbox_try_send i m s).2 = sessions s.
Proof. unfold mailbox_try_send. destruct (tasks s !! i) as [t |]; [| done]. destruct (receiver_closed t); [done |]. by destruct (_ <? _). Qed.

Lemma drop_reservation_sessions r s : sessions (drop_reservation r s) = sessions s.
Proof. by destruct r. Qed.

Lemma remove_route_sessions a g s : sessions (remove_route a g s) = sessions s.
Proof. unfold remove_route, remove_entry. destruct (actors s !! a) as [r |]; [| done]. by destruct (_ =? _)%Z. Qed.

Lemma remove_entry_sessions a s : sessions (remove_entry a s) = sessions s.
Proof. unfold remove_entry. by destruct (actors s !! a). Qed.

Lemma for_tasks_sessions is_ f s : sessions (for_tasks is_ f s) = sessions s.
Proof. induction is_ as [| i is_ IH]; [done |]. exact IH. Qed.

Lemma start_route_sessions a m r s x s' :
  start_route config a m r s = Some (x, s') -> sessions s' = sessions s.
Proof.
  unfold start_route. intros Hst.
  assert (Hp : forall s1, match r with
                          | Some p => Some (with_reserved s (reserved s ∖ {[p]}) (next_permit s))
                          | None => try_acquire s
                          end = Some s1 -> sessions s1 = sessions s).
  { unfold try_acquire. intros s1. destruct r; [| destruct (available s); [done |]]; by intros [= <-]. }
  destruct (match r with Some p => _ | None => try_acquire s end) as [s1 |].
  - specialize (Hp s1 eq_refl). unfold spawn_actor in Hst.
    destruct (registrations config !! actor_type a) as [r' |]; [| done].
    match type of Hst with context [mailbox_try_send ?i ?m ?s2] =>
      pose proof (mailbox_try_send_sessions i m s2) as Hm; destruct (mailbox_try_send i m s2) as [o s3] end.
    cbn in Hm. destruct o; injection Hst as <- <-; rewrite ?drop_message_sessions; cbn; congruence.
  - injection Hst as <- <-. apply fail_message_sessions.
Qed.

Lemma dispatch_locked_sessions a m r s x s' :
  dispatch_locked config a m r s = Some (x, s') -> sessions s' = sessions s.
Proof.
  unfold dispatch_locked. destruct (actors s !! a) as [route |]; [| apply start_route_sessions].
  destruct (state route).
  - pose proof (mailbox_try_send_sessions (task route) m s) as Hm.
    destruct (mailbox_try_send (task route) m s) as [[] s1]; cbn in Hm.
    + intros [= <- <-]. by rewrite drop_reservation_sessions.
    + intros [= <- <-]. by rewrite drop_reservation_sessions, fail_message_sessions.
    + intros H%start_route_sessions. by rewrite H, remove_entry_sessions.
  - intros [= <- <-]. by rewrite drop_reservation_sessions, drop_message_sessions.
Qed.

Lemma exec_sessions X s (e : runtimeE X) x s' :
  exec_effect config X s e x s' -> sessions s' = sessions_after s e.
Proof.
  destruct e; cbn [exec_effect sessions_after]; try (by intros ->); try (by intros [_ ->]); try (by intros [-> _]).
  - intros [_ H]. by eapply dispatch_locked_sessions.
  - unfold dispatch_message_if_active. destruct (actors s !! a) as [[g [] i] |].
    + pose proof (mailbox_try_send_sessions i m s) as Hm.
      destruct (mailbox_try_send i m s) as [[] s1]; cbn in Hm; intros [= -> ->]; by rewrite ?drop_message_sessions.
    + intros [= -> ->]. by rewrite drop_message_sessions.
    + intros [= -> ->]. by rewrite drop_message_sessions.
  - intros ->. apply drop_message_sessions.
  - intros [_ ->]. apply drop_reservation_sessions.
  - destruct x as [[[p |] |] |]; try (by intros ->). intros (s1 & Hs1 & _ & ->).
    unfold try_acquire in Hs1. destruct (available s); [done |]. by injection Hs1 as <-.
  - intros ->. apply resolve_oneshot_sessions.
  - by intros [l ->].
  - by intros [l ->].
  - by intros [l ->].
  - intros (t & _ & H). assert (s' = s \/ exists f, s' = update_task i f s) as [-> | [f ->]]; [| done | done].
    destruct x; naive_solver.
  - by intros (t & _ & _ & ->).
  - intros (t & _ & H). unfold begin_deactivation in H.
    destruct (actors s !! task_address t); [| by injection H as _ ->]. by destruct (_ || _); injection H as _ ->.
  - intros (t & _ & ->). apply remove_route_sessions.
  - intros ->. unfold drop_guard. destruct (tasks s !! i); [| done]. apply remove_route_sessions.
  - intros ->. unfold drop_receiver. destruct (tasks s !! i); [| done]. by rewrite drop_messages_sessions.
  - unfold shutdown_snapshot. destruct (status s); intros [= _ ->]; rewrite ?for_tasks_sessions; done.
  - intros [= _ ->]. by rewrite for_tasks_sessions.
  - intros ->. by rewrite for_tasks_sessions.
Qed.

(** ** What procedures register *)
Section registers.
Context (who : option SenderId).

Lemma reg_call A X (e : runtimeE X) (k : X -> proc runtimeE A) (Q : A -> unit -> Prop) :
  registers who e -> (forall x, wp (reg_monitor who) () (k x) Q) -> wp (reg_monitor who) () (Call e k) Q.
Proof. intros H Hk. split; [done |]. intros x []. done. Qed.

Ltac reg1 := apply reg_call; [done | intros ?].
Ltac reg := repeat reg1.
(** After a call of a procedure that registers nothing. *)
Ltac reg_after lemma := apply wp_bind; eapply wp_mono; [intros ? [] _ | apply lemma].

Abbreviation harmless p := (wp (reg_monitor who) () p (fun _ _ => True)).

Lemma dispatch_message_reg a m r : harmless (dispatch_message a m r).
Proof.
  unfold dispatch_message, dispatch_guard. apply wp_bind. reg1. destruct x; [by reg |]. reg1.
  destruct x; by reg.
Qed.

Lemma open_local_session_reg a sid c r : who = Some c -> harmless (open_local_session config a sid c r).
Proof.
  intros Hw. unfold open_local_session. destruct (registrations config !! _); [| by reg].
  apply reg_call; [done |]. intros []; cbn [negb]; [| by reg]. reg1.
  reg_after dispatch_message_reg. destruct a0; [| by reg]. reg1. destruct x0 as [[] |]; by reg.
Qed.

Lemma close_local_session_reg a sid : harmless (close_local_session a sid).
Proof. unfold close_local_session. reg1. destruct x; by reg. Qed.

Lemma send_session_error_reg reply sid e : harmless (send_session_error reply sid e).
Proof. unfold send_session_error. destruct reply; by reg. Qed.

Lemma bound_to_reply_reg a sid reply : harmless (bound_to_reply a sid reply).
Proof. unfold bound_to_reply. destruct reply; by reg. Qed.

Lemma dispatch_inbound_reg e c : who = Some c -> harmless (dispatch_inbound config e (Some c)).
Proof.
  intros Hw. unfold dispatch_inbound. destruct (parse_inbound e) as [[a sid version kind] |]; [| done].
  destruct kind; try done.
  - destruct (negb _); [done |]. reg_after bound_to_reply_reg. destruct a0; cbn [negb]; [| apply send_session_error_reg].
    unfold dispatch_remote_message. apply wp_bind. reg1. destruct x; [| apply send_session_error_reg].
    eapply wp_mono; [intros ? [] _ | apply dispatch_message_reg]. destruct a0; [done | apply send_session_error_reg].
  - apply wp_bind. eapply (wp_mono _ _ _ (fun _ _ => True)); [intros ? [] _; by reg |].
    destruct (negb _); [done |]. unfold resolve_and_open. destruct (clustered config); [| by apply open_local_session_reg].
    reg1. destruct x as [[] |]; [by apply open_local_session_reg | done | done].
  - reg_after bound_to_reply_reg. destruct a0; [apply close_local_session_reg | done].
Qed.

Lemma terminate_all_reg a e : harmless (terminate_all a e).
Proof.
  unfold terminate_all. reg1. induction x as [| sid l IH]; [done |]. cbn [terminate_each].
  apply wp_bind. unfold terminate. reg. destruct x; [| done]. by reg.
Qed.

Lemma terminate_all_sessions_reg e : harmless (terminate_all_sessions e).
Proof.
  unfold terminate_all_sessions. reg1. induction x as [| a l IH]; [done |]. cbn [terminate_addresses].
  by reg_after terminate_all_reg.
Qed.

Lemma broadcast_event_reg a payload : harmless (broadcast_event a payload).
Proof.
  unfold broadcast_event. reg1. induction x as [| sid l IH]; [done |]. cbn [deliver_events].
  apply wp_bind. unfold deliver_event. reg1. destruct x; [| done]. by reg.
Qed.

Lemma close_sessions_for_sender_reg c : harmless (close_sessions_for_sender c).
Proof.
  unfold close_sessions_for_sender. reg1. induction x as [| [a sid] l IH]; [done |]. cbn [close_sessions].
  by reg_after close_local_session_reg.
Qed.

Lemma server_entry_reg p : server_entry p -> harmless p.
Proof.
  intros [a payload | |]; [apply broadcast_event_reg | |].
  - assert (Hend : forall timed_out : bool, harmless
      (bind! _ := terminate_all_sessions RuntimeShuttingDown;
       exec! AbortInboundTasks; exec! StoreStatus STOPPED;
       Ret (if timed_out then ShutdownTimedOut else ShutdownOk))).
    { intros b. reg_after terminate_all_sessions_reg. by reg. }
    apply wp_bind. eapply (wp_mono _ _ _ (fun _ _ => True)); [done |]. unfold shutdown. reg1.
    destruct x; [| done]. reg1. destruct x; [reg1; reg1; apply (Hend true) | apply (Hend false)].
  - unfold fence. do 4 reg1. reg_after terminate_all_sessions_reg. by reg.
Qed.

Lemma execute_message_reg i m : harmless (execute_message i m).
Proof. unfold execute_message. reg1. destruct m; by reg. Qed.

Lemma fail_pending_reg fuel i e : harmless (fail_pending fuel i e).
Proof.
  induction fuel as [| fuel IH]; [done |]. cbn [fail_pending]. reg1.
  destruct x as [[] |]; [exact IH | by reg1 | exact IH | done].
Qed.

Lemma fail_activation_reg fuel i a e : harmless (fail_activation fuel i a e).
Proof.
  unfold fail_activation. reg1. reg1. reg_after fail_pending_reg. destruct a0; [| done].
  by reg_after terminate_all_reg.
Qed.

Lemma drain_reg fuel i : harmless (drain fuel i).
Proof.
  induction fuel as [| fuel IH]; [done |]. cbn [drain]. reg1. destruct x as [m |]; [| done].
  reg_after execute_message_reg. by destruct a.
Qed.

Lemma drop_task_reg i : harmless (drop_task i).
Proof. unfold drop_task. by reg. Qed.

Lemma actor_loop_reg fuel i a : harmless (actor_loop config fuel i a).
Proof.
  induction fuel as [| fuel IH]; [done |]. cbn [actor_loop]. reg1. destruct x; [| exact IH | | by reg |].
  - unfold shutdown_branch. reg1. reg_after drain_reg. destruct a0 as [[] |]; [| done |].
    + reg_after terminate_all_reg. by reg.
    + by reg_after terminate_all_reg.
  - reg_after execute_message_reg. destruct a0; [exact IH | by reg_after terminate_all_reg].
  - reg1. destruct x; [exact IH |]. reg1. destruct x; cbn [negb]; [| exact IH].
    unfold passivate. reg1. destruct (clustered config); by reg.
Qed.

Lemma actor_task_reg fuel i a : harmless (actor_task config fuel i a).
Proof.
  unfold actor_task, actor_body. apply wp_bind. eapply (wp_mono _ _ _ (fun _ _ => True)).
  - intros [] [] _; done || apply drop_task_reg.
  - reg1. destruct x; [apply actor_loop_reg | apply fail_activation_reg ..].
Qed.
End registers.

(** Closing the Sessions of a snapshot closes all that the ghost holds. *)
Lemma close_sessions_closing c l g :
  (forall y, y ∈ g -> y ∈ l) -> wp (closing_monitor c) (Some g) (close_sessions l) (fun _ g' => g' = Some []).
Proof.
  revert g. induction l as [| [a sid] l IH]; intros g Hg; cbn [close_sessions].
  - cbn [wp]. destruct g as [| y g]; [done |]. by destruct (not_elem_of_nil y (Hg y (list_elem_of_here _ _))).
  - apply wp_bind. unfold close_local_session. split; [done |]. intros removed g1 ->.
    assert (Hg1 : forall y, y ∈ filter (fun y => y <> (a, sid)) g -> y ∈ l).
    { intros y [Hne Hin]%list_elem_of_filter. specialize (Hg y Hin). rewrite elem_of_cons in Hg. by destruct Hg. }
    destruct removed; [| by apply IH]. split; [done |]. intros x g2 ->. by apply IH.
Qed.

Lemma close_sessions_for_sender_closing c :
  wp (closing_monitor c) None (close_sessions_for_sender c) (fun _ g' => g' = Some []).
Proof.
  split; [done |]. intros l g ->. rewrite bool_decide_eq_true_2 by done. by apply close_sessions_closing.
Qed.

(** ** The invariant *)

(** A step registers Sessions of [who] at most. *)
Definition binds_only (who : option SenderId) (s s' : ServerState) : Prop :=
  forall a sid c, sink (sessions s') a sid = Some c -> sink (sessions s) a sid = Some c \/ who = Some c.

Lemma binds_only_refl who s : binds_only who s s.
Proof. by left. Qed.

Lemma exec_binds who X s (e : runtimeE X) x s' :
  registers who e -> exec_effect config X s e x s' -> binds_only who s s'.
Proof.
  intros Hreg Hex b tid c. rewrite (exec_sessions _ _ _ _ _ Hex).
  destruct e; cbn in *; try (by left).
  - pose proof (register_sink (sessions s) a sid sender b tid) as Hs.
    destruct (register_actor (sessions s) a sid sender) as [ok r]. destruct Hs as [_ Hs]. cbn [snd].
    rewrite Hs.
    case_decide; [intros [= ->]; by right | by left].
  - pose proof (unregister_sink (sessions s) a sid b tid) as Hs.
    destruct (unregister_actor (sessions s) a sid) as [ok r]. destruct Hs as [_ Hs]. cbn [snd].
    rewrite Hs.
    case_decide; [done | by left].
Qed.

Lemma conn_ok_frame who v v' c :
  binds_only who (server v) (server v') -> who <> Some (c_sender c) ->
  (forall j p, threads v !! j = Some (ThOther p) -> c_phase c = Closing j -> threads v' !! j = Some (ThOther p)) ->
  conn_ok v c -> conn_ok v' c.
Proof.
  intros Hb Hne Hth. unfold conn_ok. destruct (c_phase c) as [| | j |]; [done | done | |].
  - intros (p & g & Hp & Hwp & Hg). exists p, g. split_and!; [by apply Hth | done |]. intros l a sid Hl Hs.
    destruct (Hb _ _ _ Hs); [eauto | done].
  - intros Hno a sid Hs. destruct (Hb _ _ _ Hs); [by eapply Hno | done].
Qed.

(** A call of the procedure that closes a connection's Sessions. *)
Lemma closing_call s s' ths j c X (e : runtimeE X) k x :
  c_phase c = Closing j -> ths !! j = Some (ThOther (Call e k)) -> exec_effect config X s e x s' ->
  conn_ok (MkWorld s ths) c -> conn_ok (MkWorld s' (<[j := ThOther (k x)]> ths)) c.
Proof.
  intros Hph Hj Hex. unfold conn_ok. rewrite Hph. cbn [server threads].
  intros (p & g & Hp & Hwp & Hg). rewrite Hj in Hp. injection Hp as <-. destruct Hwp as [Hreg Hk].
  assert (Hb : binds_only None s s') by exact (exec_binds _ _ _ _ _ _ Hreg Hex).
  pose proof (exec_sessions _ _ _ _ _ Hex) as Hs'.
  exists (k x). rewrite list_lookup_insert_eq by (by eapply lookup_lt_Some).
  assert (Hsame : conn_observe (c_sender c) X g e x g ->
            exists g, Some (ThOther (k x)) = Some (ThOther (k x)) /\
              wp (closing_monitor (c_sender c)) g (k x) (fun _ g' => g' = Some []) /\
              forall l a sid, g = Some l -> sink (sessions s') a sid = Some (c_sender c) -> (a, sid) ∈ l).
  { intros Ho. exists g. split_and!; [done | by apply Hk |]. intros l a sid Hl Hin.
    destruct (Hb _ _ _ Hin); [eauto | done]. }
  destruct e; try (by apply Hsame).
  - exists (filter (fun y => y <> (a, sid)) <$> g). split_and!; [done | by apply Hk |].
    intros l b tid Hl Hin. destruct g as [l0 |]; [| done]. injection Hl as <-.
    cbn in Hs'. pose proof (unregister_sink (sessions s) a sid b tid) as Hun.
    rewrite Hs' in Hin. destruct (unregister_actor (sessions s) a sid) as [ok r].
    destruct Hun as [_ Hun]. cbn in Hin. rewrite Hun in Hin. case_decide as Hd; [done |].
    apply list_elem_of_filter. split; [naive_solver | by apply Hg].
  - cbn in Hex. destruct Hex as [Hperm ->].
    exists (if bool_decide (sender = c_sender c) then Some x else g). split_and!; [done | by apply Hk |].
    case_bool_decide as Heq; [subst sender | exact Hg]. intros l a sid [= <-] Hin. rewrite Hperm.
    by apply by_sender_snapshot_elem.
Qed.

(** The task handles and the abort. *)
Lemma foldr_abort_lookup (l : list connection) (is_ : list ConnId) (i : ConnId) :
  foldr (fun i l => alter abort i l) l is_ !! i = (if decide (i ∈ is_) then abort else id) <$> l !! i.
Proof.
  induction is_ as [| j is_ IH]; cbn.
  - rewrite decide_False by apply not_elem_of_nil. by rewrite option_fmap_id.
  - destruct (decide (i = j)) as [<- | Hne].
    + rewrite list_lookup_alter_eq, IH.
      destruct (decide (i ∈ i :: is_)) as [_ | Hnot]; [| by destruct Hnot; left].
      destruct (l !! i); [| done]. cbn. by destruct (decide (i ∈ is_)).
    + rewrite list_lookup_alter_ne by done. rewrite IH.
      destruct (decide (i ∈ is_)) as [Hin | Hnin], (decide (i ∈ j :: is_)) as [Hin' | Hnin']; try done.
      * by destruct Hnin'; right.
      * apply elem_of_cons in Hin' as [-> | ?]; done.
Qed.

Lemma abort_inbound_lookup w i :
  connections (abort_inbound_tasks w) !! i =
    (if decide (i ∈ inbound_tasks w) then abort else id) <$> connections w !! i.
Proof. apply foldr_abort_lookup. Qed.

Lemma abort_inbound_senders w : c_sender <$> connections (abort_inbound_tasks w) = c_sender <$> connections w.
Proof.
  apply list_eq. intros i. rewrite !list_lookup_fmap, abort_inbound_lookup.
  destruct (connections w !! i); [| done]. cbn. by destruct (decide _).
Qed.

(** An abort leaves where the tasks are. *)
Lemma abort_inbound_conn w i c' :
  connections (abort_inbound_tasks w) !! i = Some c' ->
  exists c, connections w !! i = Some c /\ c_phase c' = c_phase c /\ c_sender c' = c_sender c /\
            (is_finished c' = false -> is_finished c = false /\ i ∉ inbound_tasks w).
Proof.
  rewrite abort_inbound_lookup. destruct (connections w !! i) as [c |]; [| done].
  intros [= <-]. exists c. destruct (decide (i ∈ inbound_tasks w)); cbn; done.
Qed.

Lemma abort_inbound_inv w : accept_inv w -> accept_inv (abort_inbound_tasks w).
Proof.
  intros (Hth & Hc & Hn & Hi). pose proof (abort_inbound_conn w) as Hconn.
  split_and!; [| | by rewrite abort_inbound_senders |].
  - intros j th Hj. destruct (Hth j th Hj) as [? | (c & [i Hl]%list_elem_of_lookup & Hp & Hwp)]; [by left | right].
    exists ((if decide (i ∈ inbound_tasks w) then abort else id) c). split_and!.
    + apply list_elem_of_lookup. exists i. by rewrite abort_inbound_lookup, Hl.
    + by destruct (decide _).
    + by destruct (decide _).
  - intros c' [i Hl]%list_elem_of_lookup. destruct (Hconn i c' Hl) as (c & Hcl & Hp & Hs & _).
    specialize (Hc c (list_elem_of_lookup_2 _ _ _ Hcl)). unfold conn_ok in *. cbn. by rewrite Hp, Hs.
  - intros i c' Hl Hf. destruct (Hconn i c' Hl) as (c & Hcl & _ & _ & Hfin).
    destruct (Hfin Hf) as [Hf' Hnot]. destruct (Hi i c Hcl Hf'); [done | by right].
Qed.

(** *** Steps of the world *)
Lemma same_sender w c c' :
  accept_inv w -> c ∈ connections w -> c' ∈ connections w -> c_sender c = c_sender c' -> c = c'.
Proof.
  intros (_ & _ & Hn & _) [i Hi]%list_elem_of_lookup [j Hj]%list_elem_of_lookup Hs. apply NoDup_app in Hn as (_ & _ & Hn).
  assert (i = j) as ->; [| congruence].
  eapply NoDup_lookup; [exact Hn | by rewrite list_lookup_fmap, Hi | rewrite list_lookup_fmap, Hj]. cbn. by rewrite Hs.
Qed.

(** A call of a thread. *)
Lemma inv_call w j th X (e : runtimeE X) k x s' :
  accept_inv w -> threads (runtime w) !! j = Some th -> thread_proc th = Call e k ->
  exec_effect config X (server (runtime w)) e x s' ->
  accept_inv (with_runtime w (MkWorld s' (<[j := thread_continue th (k x)]> (threads (runtime w))))).
Proof.
  intros Hinv Hj Hp Hex. pose proof Hinv as (Hth & Hc & Hn & Hi).
  assert (Hwho : exists who, binds_only who (server (runtime w)) s' /\ thread_ok (connections w) j (k x) /\
            forall c, c ∈ connections w -> who = Some (c_sender c) -> c_phase c = Dispatching j).
  { destruct (Hth j th Hj) as [Hwp | (c & Hin & Hph & Hwp)]; rewrite Hp in Hwp; destruct Hwp as [Hreg Hk];
      pose proof (exec_binds _ _ _ _ _ _ Hreg Hex) as Hb.
    - exists None. split_and!; [done | left; exact (Hk x tt I) | done].
    - exists (Some (c_sender c)). split_and!; [done | right; exists c; split_and!; [done | done | exact (Hk x tt I)] |].
      intros c' Hin' [= Hs]. by rewrite <- (same_sender w c c' Hinv Hin Hin' Hs). }
  destruct Hwho as (who & Hb & Hok & Hwho). split_and!; [| | done | done].
  - cbn. intros j' th' [(<- & <- & _) | [_ Hj']]%list_lookup_insert_Some; [by destruct th | by apply Hth].
  - intros c Hin. specialize (Hc c Hin). cbn [runtime with_runtime].
    destruct (decide (c_phase c = Closing j)) as [Hph | Hne].
    + destruct (runtime w) as [s ths]. cbn [server threads] in *. pose proof Hc as Hc0. unfold conn_ok in Hc0. rewrite Hph in Hc0.
      destruct Hc0 as (p & g & Hl & _). cbn in Hl. rewrite Hj in Hl. injection Hl as ->. cbn in Hp |- *. subst p.
      by eapply closing_call.
    + destruct (decide (who = Some (c_sender c))) as [Heq | Hd].
      * specialize (Hwho c Hin Heq). unfold conn_ok. by rewrite Hwho.
      * eapply conn_ok_frame; [exact Hb | done | | exact Hc]. intros j' p Hl Hph. cbn.
        rewrite list_lookup_insert_ne; [done | congruence].
Qed.

(** A thread starts, or an actor task is cut off. *)
Lemma accept_inv_threads w ths' :
  accept_inv w ->
  (forall j p, threads (runtime w) !! j = Some (ThOther p) -> ths' !! j = Some (ThOther p)) ->
  (forall j th, ths' !! j = Some th -> threads (runtime w) !! j = Some th \/ wp (reg_monitor None) () (thread_proc th) (fun _ _ => True)) ->
  accept_inv (with_runtime w (MkWorld (server (runtime w)) ths')).
Proof.
  intros (Hth & Hc & Hn & Hi) Hkeep Hnew. split_and!; [| | done | done].
  - intros j th Hj. destruct (Hnew j th Hj); [by apply Hth | by left].
  - intros c Hin. apply (conn_ok_frame None (runtime w)); [apply binds_only_refl | done | intros; by apply Hkeep | by apply Hc].
Qed.

Lemma snoc_threads (ths : list thread) th P :
  (forall j p, ths !! j = Some (ThOther p) -> (ths ++ [th]) !! j = Some (ThOther p)) /\
  (P th -> forall j th', (ths ++ [th]) !! j = Some th' -> ths !! j = Some th' \/ P th').
Proof.
  split; [intros; by apply lookup_app_l_Some |].
  intros Hp j th' [? | [_ [_ <-]%list_lookup_singleton_Some]]%lookup_app_Some; auto.
Qed.

(** A step of a connection task. *)
Lemma conn_step_ok w i c l v c' :
  accept_inv w -> connections w !! i = Some c -> conn_step (runtime w) c l v c' ->
  conn_ok v c' /\ c_sender c' = c_sender c /\ c_aborted c' = c_aborted c /\ server v = server (runtime w) /\
  (forall j p, threads (runtime w) !! j = Some (ThOther p) -> threads v !! j = Some (ThOther p)) /\
  (forall j th, threads v !! j = Some th -> thread_ok (<[i := c']> (connections w)) j (thread_proc th)).
Proof.
  intros Hinv Hl Hstep. pose proof Hinv as (Hth & Hc & _ & _). specialize (Hc c (list_elem_of_lookup_2 _ _ _ Hl)).
  assert (Hold : forall j th, threads (runtime w) !! j = Some th ->
    (c_phase c = Dispatching j -> exists u, thread_proc th = Ret u) -> thread_ok (<[i := c']> (connections w)) j (thread_proc th)).
  { intros j th Hj Hret. destruct (Hth j th Hj) as [? | (c0 & [i0 Hi0]%list_elem_of_lookup & Hph & Hwp)]; [by left |].
    destruct (decide (i = i0)) as [<- | Hne].
    - assert (c0 = c) as -> by congruence. destruct (Hret Hph) as [u ->]. by left.
    - right. exists c0. split_and!; [| done | done]. apply list_elem_of_lookup. exists i0. by rewrite list_lookup_insert_ne. }
  destruct Hstep as [s ths c e Hp | w0 c j u Hp Hj | s ths c Hp | w0 c j u Hp Hj];
    cbn [server threads c_sender c_aborted with_phase] in *.
  - split_and!; [done | done | done | done | by apply (snoc_threads _ _ (fun _ => True)) |].
    intros j th [Hj | [Hge [Hz <-]%list_lookup_singleton_Some]]%lookup_app_Some; [apply Hold; [done | congruence] |].
    right. eexists. split_and!; [eapply list_elem_of_lookup_2, list_lookup_insert_eq; by eapply lookup_lt_Some | cbn; f_equal; lia |].
    by apply dispatch_inbound_reg.
  - split_and!; [done | done | done | done | done |]. intros j' th Hj'. apply Hold; [done |].
    intros Hp'. assert (j' = j) as -> by congruence. assert (th = ThOther (Ret u)) as -> by congruence. by exists u.
  - split_and!; [| done | done | done | by apply (snoc_threads _ _ (fun _ => True)) |].
    + unfold conn_ok. cbn. exists (close_sessions_for_sender (c_sender c)), None.
      split_and!; [by rewrite list_lookup_middle | apply close_sessions_for_sender_closing | done].
    + intros j th [Hj | [_ [_ <-]%list_lookup_singleton_Some]]%lookup_app_Some; [apply Hold; [done | congruence] |].
      left. apply close_sessions_for_sender_reg.
  - split_and!; [| done | done | done | done |].
    + unfold conn_ok in Hc |- *. rewrite Hp in Hc. cbn. destruct Hc as (p & g & Hl' & Hwp & Hg). rewrite Hj in Hl'.
      injection Hl' as <-. cbn in Hwp. subst g. intros a sid Hs. by apply (not_elem_of_nil (a, sid)), (Hg [] a sid).
    + intros j' th Hj'. apply Hold; [done | congruence].
Qed.

Lemma inv_conn w i c l v c' :
  accept_inv w -> connections w !! i = Some c -> c_aborted c = false -> conn_step (runtime w) c l v c' ->
  accept_inv (with_connections (with_runtime w v) (<[i := c']> (connections w))).
Proof.
  intros Hinv Hl Hna Hstep.
  destruct (conn_step_ok _ _ _ _ _ _ Hinv Hl Hstep) as (Hok & Hs & Hab & Hsv & Hkeep & Hths).
  destruct Hinv as (Hth & Hc & Hn & Hi).
  assert (Hsend : c_sender <$> <[i := c']> (connections w) = c_sender <$> connections w).
  { rewrite list_fmap_insert, Hs. apply list_insert_id. by rewrite list_lookup_fmap, Hl. }
  split_and!; [exact Hths | | by cbn [connections with_connections]; rewrite Hsend |]; cbn.
  - intros c0 [-> | Hin]%elem_of_insert_inv; [done |].
    apply (conn_ok_frame None (runtime w)); [cbn; rewrite Hsv; apply binds_only_refl | done | intros; by apply Hkeep | by apply Hc].
  - intros j c0 [(<- & <- & _) | [Hne Hj]]%list_lookup_insert_Some Hf; [| eauto].
    apply (Hi i c Hl). unfold is_finished in *. rewrite Hna. apply orb_false_iff in Hf as [_ Hf].
    by destruct Hstep as [? ? ? ? Hp | ? ? ? ? Hp | ? ? ? Hp | ? ? ? ? Hp]; rewrite Hp.
Qed.

(** [retain] forgets finished tasks only. *)
Lemma inv_retain w : accept_inv w -> accept_inv (retain_inbound_tasks w).
Proof.
  intros (Hth & Hc & Hn & Hi). split_and!; [done .. |]. intros i c Hl Hf.
  destruct (Hi i c Hl Hf) as [Hin | ?]; [left | by right]. cbn. apply list_elem_of_filter.
  split; [| done]. unfold finished_at. change (connections (retain_inbound_tasks w)) with (connections w) in Hl.
  by rewrite Hl.
Qed.

Lemma inv_register w i : accept_inv w -> accept w = Registering i ->
  accept_inv (with_accept (register_inbound_task w i) Selecting).
Proof.
  intros Hinv Ha. apply inv_retain in Hinv as (Hth & Hc & Hn & Hi). split_and!; [done .. |].
  intros j c Hl Hf. left. destruct (Hi j c Hl Hf) as [Hin | Hj]; cbn in *.
  - apply elem_of_app. by left.
  - rewrite Ha in Hj. injection Hj as ->. apply elem_of_app. right. by apply list_elem_of_singleton.
Qed.

Lemma accept_step_inv w l w' : accept_inv w -> accept_step w l w' -> accept_inv w'.
Proof.
  intros Hinv Hstep. pose proof Hinv as (Hth & Hc & Hn & Hi).
  assert (Hphase : forall x, (forall i, accept w <> Registering i) -> accept_inv (with_accept w x)).
  { intros x Hx. split_and!; [done .. |]. intros i c Hl Hf. destruct (Hi i c Hl Hf) as [? | H]; [by left |].
    by destruct (Hx i). }
  destruct Hstep as [w j th X e k x s' Hj Hp Hex _ w' | w p Hp | w i t fuel Ht Hnew | w j i p t Hj _ _ _
    | w i c l v c' Hl Hna Hst w' w'' | w sender Hlis Hnb Hnc | w | w | w Ha Hs | w Ha Hf | w sender rest Ha Hb | w Ha Hb Hlis
    | w i Ha | w Ha].
  - assert (Hinv' : accept_inv w') by by eapply inv_call.
    destruct (is_abort_inbound e); [by apply abort_inbound_inv | done].
  - apply accept_inv_threads; [done | apply (snoc_threads _ _ (fun _ => True)) |]. apply (snoc_threads _ _ (fun th => wp _ _ (thread_proc th) _)).
    by apply server_entry_reg.
  - apply accept_inv_threads; [done | apply (snoc_threads _ _ (fun _ => True)) |]. apply (snoc_threads _ _ (fun th => wp _ _ (thread_proc th) _)).
    apply actor_task_reg.
  - apply accept_inv_threads; [done | |].
    + intros j' q Hq. rewrite list_lookup_insert_ne; [done | congruence].
    + intros j' th [(_ & <- & _) | [_ Hj']]%list_lookup_insert_Some; [right; apply drop_task_reg | by left].
  - pose proof (inv_conn w i c l v c' Hinv Hl Hna Hst) as Hinv'. subst w''. destruct (is_finished c') eqn:Hfin; [| exact Hinv'].
    destruct Hinv' as (Hth' & Hc' & Hn' & Hi'). split_and!; [done .. |]. intros j c0 Hj Hf.
    destruct (Hi' j c0 Hj Hf) as [Hin | ?]; [left | by right]. cbn in *. apply list_elem_of_filter. split; [| done].
    unfold finished_at. cbn. destruct (decide (i = j)) as [<- | Hne].
    + rewrite list_lookup_insert_eq in Hj by (by eapply lookup_lt_Some). congruence.
    + rewrite list_lookup_insert_ne in Hj by done. by rewrite Hj.
  - split_and!; [done | done | | done]. cbn. rewrite <- app_assoc, Permutation_app_comm.
    cbn. rewrite NoDup_cons, elem_of_app, list_elem_of_fmap. split; [| by rewrite Permutation_app_comm].
    intros [(c & -> & Hin) | ?]; [by apply (Hnc c Hin) | done].
  - done.
  - done.
  - done.
  - apply Hphase. by rewrite Ha.
  - split_and!; [| | |]; cbn.
    + intros j th Hj. destruct (Hth j th Hj) as [? | (c & Hin & ?)]; [by left | right]. exists c. split; [by apply in_snoc | done].
    + intros c. rewrite elem_of_app, list_elem_of_singleton. intros [? | ->]; [by apply Hc | done].
    + rewrite fmap_app. cbn. rewrite Hb in Hn. cbn in Hn. by rewrite app_assoc, Permutation_app_comm.
    + intros i c. rewrite lookup_app_Some, list_lookup_singleton_Some. intros [Hl | (Hle & Heq & <-)] Hf.
      * destruct (Hi i c Hl Hf) as [? | ?]; [by left | congruence].
      * right. f_equal. lia.
  - apply Hphase. by rewrite Ha.
  - by apply inv_register.
  - apply Hphase. by rewrite Ha.
Qed.

Lemma accept_initial_inv : accept_inv initial_accept.
Proof. split_and!; cbn; [done | by intros ? ?%elem_of_nil | constructor | done]. Qed.

Lemma accept_reachable_inv w : accept_reachable w -> accept_inv w.
Proof.
  apply (rtc_preserved accepts accept_inv initial_accept); [| apply accept_initial_inv].
  intros s s' Hs [l Hst]. by eapply accept_step_inv.
Qed.
End accept.

(** ** A run: a connection that comes late *)
Definition small_config : ServerConfig := MkServerConfig ∅ 1 false 2.

Ltac accept_norm :=
  cbv [with_runtime with_accept with_connections with_inbound_tasks with_listener with_signals
       runtime accept connections inbound_tasks backlog listening watch_value watch_seen forced
       is_abort_inbound abort_inbound_tasks register_inbound_task foldr app length initial_accept
       server threads thread_continue insert list_insert initial_world negb andb].
Ltac accept_call0 x :=
  eapply rtc_l;
  [eexists; eapply (accept_call _ _ 0 _ _ _ _ x);
   [reflexivity | reflexivity | cbn [exec_effect] |
    first [by intros ? ?%elem_of_nil | by intros ? ->%list_elem_of_singleton]] |].
Ltac accept_by step := eapply rtc_l; [eexists; apply step; try reflexivity |]; accept_norm.

(** The Server shuts down; a stream arrives after the inbound tasks were aborted
    and before the listener is told to stop. *)
Lemma late_run :
  exists w, accept_reachable small_config w /\ accept w = Stopped /\ forced w = true /\
    status (server (runtime w)) = STOPPED /\
    (exists th, threads (runtime w) = [th] /\ thread_proc th = Ret ()) /\
    connections w = [MkConnection 7%N Receiving [] false] /\ inbound_tasks w = [0].
Proof.
  eexists. split.
  { eapply rtc_l; [eexists; apply (accept_entry _ _ (bind! _ := shutdown; Ret ())); apply server_shutdown |].
    accept_call0 (Some [] : option (list TaskId)). { reflexivity. }
    accept_call0 false. { split; [reflexivity |]. by intros i t ?%elem_of_nil. }
    accept_call0 ([] : list ActorAddress). { split; [reflexivity | reflexivity]. }
    accept_call0 tt. { reflexivity. }
    accept_norm.
    eapply rtc_l; [eexists; apply (accept_arrive _ _ 7%N); [reflexivity | by intros ?%elem_of_nil | by intros ? ?%elem_of_nil] |].
    accept_norm.
    accept_by (accept_accepted small_config).
    accept_by (accept_register small_config).
    accept_call0 tt. { reflexivity. }
    accept_norm.
    accept_by (accept_signal small_config).
    accept_by (accept_shutdown small_config).
    accept_by (accept_force small_config).
    accept_by (accept_forced small_config).
    accept_by (accept_stop small_config).
    apply rtc_refl. }
  split_and!; try reflexivity. eexists. by split.
Qed.

(** ** Properties *)

(** C18: a connection that ended leaves nothing behind: once a connection task
    has run to its end, no Session is bound to its sender, whatever the rest of the
    Server and the other connections do then; and no connection task escapes: one
    that has not ended is in the list that an abort goes through, unless the accept
    task is just about to put it there. *)
Theorem connection_closes_its_sessions (config : ServerConfig) (w : accept_world) (i : ConnId) (c : connection) :
  accept_reachable config w -> connections w !! i = Some c ->
  (c_phase c = Done -> forall a sid, sink (sessions (server (runtime w))) a sid <> Some (c_sender c)) /\
  (is_finished c = false -> i ∈ inbound_tasks w \/ accept w = Registering i) /\
  (forall c', connections (abort_inbound_tasks w) !! i = Some c' -> is_finished c' = false ->
     accept w = Registering i).
Proof.
  intros Hr Hi. pose proof (accept_reachable_inv config w Hr) as Hinv.
  pose proof (abort_inbound_inv w Hinv) as (_ & _ & _ & Hab).
  destruct Hinv as (_ & Hc & _ & Hl). split_and!.
  - intros Hd. specialize (Hc c (list_elem_of_lookup_2 _ _ _ Hi)). unfold conn_ok in Hc. by rewrite Hd in Hc.
  - eauto.
  - intros c' Hc' Hf. destruct (Hab i c' Hc' Hf) as [Hin | ?]; [by apply not_elem_of_nil in Hin | done].
Qed.

Lemma connection_closes_its_sessions_witness :
  exists w c, accept_reachable small_config w /\ connections w !! 0 = Some c /\
    (is_finished c = false -> 0 ∈ inbound_tasks w \/ accept w = Registering 0).
Proof.
  destruct late_run as (w & Hr & _ & _ & _ & _ & Hc & _).
  assert (Hl : connections w !! 0 = Some (MkConnection 7%N Receiving [] false)) by by rewrite Hc.
  exists w, (MkConnection 7%N Receiving [] false). split; [exact Hr |]. split; [exact Hl |].
  exact (proj1 (proj2 (connection_closes_its_sessions small_config w 0 _ Hr Hl))).
Defined.

(** C36: a connection outlives the shutdown of its Server: a stream that the
    listener holds after the shutdown has aborted the inbound tasks, and before the
    accept task is told to stop, gets a connection task that nothing aborts; when
    the shutdown and the accept task are through it still receives. *)
Theorem late_connection_outlives_shutdown :
  exists w c, accept_reachable small_config w /\
    accept w = Stopped /\ status (server (runtime w)) = STOPPED /\
    (forall th, th ∈ threads (runtime w) -> thread_proc th = Ret ()) /\
    connections w = [c] /\ is_finished c = false /\ c_phase c = Receiving.
Proof.
  destruct late_run as (w & Hr & Ha & _ & Hst & (th & Hth & Hp) & Hc & _).
  eexists w, _. split_and!; [exact Hr | exact Ha | exact Hst | | exact Hc | done | done].
  rewrite Hth. by intros th' ->%list_elem_of_singleton.
Qed.
