(* ===== verification/RuntimeActions.v ===== *)
(** * The Actions of one connection

    A connection task dispatches one envelope after the other ([Accept]).  In the
    executions of [RuntimeTrace] where a sender's envelopes are dispatched like
    this, the Actions of a Session that only this sender has opened are accepted
    in the order they came in, none twice, and so are they handled. *)

From S2P Require Import Prelude Text Address Transport Session Runtime RuntimeInv RuntimeActor RuntimeWorld RuntimeTrace Accept.
Import Registry.

(** ** Traces of Actions *)
Definition entered_by (peer : SenderId) (tr : trace) : list (nat * Envelope) :=
  omap (fun l => match l.2 with Entered e (Some p) => if decide (p = peer) then Some (l.1, e) else None | _ => None end) tr.

(** The payload of an Action for Session [sid]. *)
Definition action_for (sid : SessionId) (e : Envelope) : option string :=
  match env_kind e with
  | Some (KAction p) => if decide (env_session_id e = session_id_as_bytes sid) then Some p else None
  | _ => None
  end.

Definition actions_in (sid : SessionId) (l : list (nat * Envelope)) : list (nat * string) :=
  omap (fun je => pair je.1 <$> action_for sid je.2) l.

(** The Actions for [sid] that were accepted, by the thread that dispatched them. *)
Definition taken (sid : SessionId) (tr : trace) : list (nat * string) :=
  omap (fun l => match l.2 with
                 | Accepted _ (Action sid' p) _ => if decide (sid' = sid) then Some (l.1, p) else None
                 | _ => None
                 end) tr.

(** The Actions for [sid] that the handlers of task [i] ran for. *)
Definition handled_actions (sid : SessionId) (i : TaskId) (tr : trace) : list string :=
  omap (fun l => match l.2 with
                 | Handled i' (Action sid' p) _ => if decide (i' = i /\ sid' = sid) then Some p else None
                 | _ => None
                 end) tr.

(** Every dispatch of [peer]'s envelopes has returned. *)
Definition peer_idle (peer : SenderId) (w : world) (tr : trace) : bool :=
  forallb (fun je => match threads w !! je.1 with Some (ThOther (Ret _)) => true | _ => false end) (entered_by peer tr).

Section actions.
Context (config : ServerConfig).

(** ** The account of a dispatch *)
Inductive acting :=
| AIdle
| ABound (a : ActorAddress) (sid : SessionId) (c : SenderId)
| ADone.

(** [e] is an Action [p] for Session [sid] of [a]. *)
Definition asks (e : Envelope) (a : ActorAddress) (sid : SessionId) (p : string) : Prop :=
  exists v, parse_inbound e = Some (MkInbound a sid v (KAction p)).

Definition acting_allowed (og : origin) X (st : acting) (e : runtimeE X) : Prop :=
  match e with
  | DispatchLocked a m _ =>
      if m is Action sid p then exists c e, st = ABound a sid c /\ og = Some (e, Some c) /\ asks e a sid p else True
  | DispatchIfActive _ m => if m is Action _ _ then False else True
  | _ => True
  end.

Definition acting_next X (st : acting) (e : runtimeE X) : X -> acting :=
  match e in runtimeE X return X -> acting with
  | IsBoundTo a sid c => fun b => match st with AIdle => if (b : bool) then ABound a sid c else st | _ => st end
  | DispatchLocked _ m _ => fun _ => if m is Action _ _ then ADone else st
  | _ => fun _ => st
  end.

Definition acting_monitor (og : origin) : monitor runtimeE acting :=
  Monitor runtimeE acting (acting_allowed og) (fun X st e x st' => st' = acting_next X st e x).

Ltac acting_call := eapply (call_wp (acting_allowed _) acting_next); [try done | intros ?; cbn [acting_next]].

(** Calls that accept no Action and bind nothing. *)
Definition actionless X (e : runtimeE X) : Prop :=
  match e with
  | DispatchLocked _ m _ | DispatchIfActive _ m => if m is Action _ _ then False else True
  | IsBoundTo _ _ _ => False
  | _ => True
  end.

Lemma actionless_wp {A} og (p : proc runtimeE A) st :
  calls actionless p -> wp (acting_monitor og) st p (fun _ _ => True).
Proof.
  intros Hp. eapply wp_mono; [| apply (calls_wp _ actionless); [| exact Hp]]; [done |].
  intros X e He. destruct e; try destruct m; try done; (split; [done | by intros x st' ->]).
Qed.

Ltac actionless_calls :=
  repeat first [ done
               | split; [done | intros ?]
               | progress cbn [calls actionless proc_bind]
               | case_match
               | apply calls_bind; [| intros ?] ].

Lemma dispatch_message_actionless a m r :
  (if m is Action _ _ then False else True) -> calls actionless (dispatch_message a m r).
Proof. intros Hm. unfold dispatch_message, dispatch_guard. destruct m; [done | |]; actionless_calls. Qed.

Lemma close_local_actionless a sid : calls actionless (close_local_session a sid).
Proof. unfold close_local_session. actionless_calls. Qed.

Lemma terminate_actionless error : calls actionless (terminate_all_sessions error).
Proof.
  unfold terminate_all_sessions. split; [done |]. intros l. induction l as [| a l IH]; [done |]. cbn [terminate_addresses].
  apply calls_bind; [| intros []; exact IH]. unfold terminate_all. split; [done |]. intros sids.
  induction sids as [| sid sids IHs]; [done |]. cbn [terminate_each]. apply calls_bind; [| intros []; exact IHs].
  unfold terminate. actionless_calls.
Qed.

Lemma open_local_actionless a sid c r : calls actionless (open_local_session config a sid c r).
Proof. unfold open_local_session. actionless_calls; by apply dispatch_message_actionless. Qed.

Lemma dispatch_inbound_acting e reply :
  wp (acting_monitor (Some (e, reply))) AIdle (dispatch_inbound config e reply) (fun _ _ => True).
Proof.
  unfold dispatch_inbound. destruct (parse_inbound e) as [[a sid version kind] |] eqn:Hp; [| done].
  destruct kind as [p | | reason | | |]; try done.
  - destruct (negb _); [done |]. unfold bound_to_reply. destruct reply as [c |]; [| by cbn].
    acting_call. cbn [proc_bind]. destruct x; [| apply actionless_wp; actionless_calls]. cbn [negb].
    unfold dispatch_remote_message. acting_call. destruct x; [| apply actionless_wp; actionless_calls].
    unfold dispatch_message, dispatch_guard. acting_call. destruct x; [apply actionless_wp; actionless_calls |].
    acting_call. destruct x; try (apply actionless_wp; by actionless_calls). cbn [proc_bind].
    acting_call; [exists c, e; split_and!; [done | done | by exists version] |]. apply actionless_wp. cbn. actionless_calls.
  - apply actionless_wp. unfold resolve_and_open. actionless_calls; apply open_local_actionless.
  - unfold bound_to_reply. destruct reply as [c |]; [| done]. acting_call. cbn [proc_bind].
    destruct x; [apply actionless_wp, close_local_actionless | done].
Qed.

Lemma entry_acting p l : entry_label config p l -> wp (acting_monitor (entry_origin l)) AIdle p (fun _ _ => True).
Proof.
  intros []; [apply dispatch_inbound_acting | apply actionless_wp..].
  - unfold close_sessions_for_sender. split; [done |]. intros pairs. induction pairs as [| [a sid] pairs IH]; [done |].
    cbn [close_sessions]. apply calls_bind; [apply close_local_actionless | intros []; exact IH].
  - unfold broadcast_event. split; [done |]. intros sids. induction sids as [| sid sids IH]; [done |]. cbn [deliver_events].
    unfold deliver_event. actionless_calls.
  - unfold shutdown. actionless_calls; apply terminate_actionless.
  - unfold fence. actionless_calls; apply terminate_actionless.
Qed.

(** ** Executions in which the envelopes of a sender are dispatched one at a time *)
Inductive orderly (peer : SenderId) : world -> trace -> Prop :=
| orderly_initial : orderly peer (initial_world config) []
| orderly_moves w tr l w' :
    orderly peer w tr -> moves config w l w' ->
    ((exists j e, l = [(j, Entered e (Some peer))]) -> peer_idle peer w tr = true) ->
    orderly peer w' (tr ++ l).

Lemma orderly_execution peer w tr : orderly peer w tr -> execution config w tr.
Proof. induction 1; [constructor | by eapply execution_moves]. Qed.

Lemma entered_by_app peer tr1 tr2 : entered_by peer (tr1 ++ tr2) = entered_by peer tr1 ++ entered_by peer tr2.
Proof. apply omap_app. Qed.
Lemma taken_app sid tr1 tr2 : taken sid (tr1 ++ tr2) = taken sid tr1 ++ taken sid tr2.
Proof. apply omap_app. Qed.
Lemma actions_in_app sid l1 l2 : actions_in sid (l1 ++ l2) = actions_in sid l1 ++ actions_in sid l2.
Proof. apply omap_app. Qed.

Lemma entered_by_elem peer tr j e : (j, e) ∈ entered_by peer tr <-> (j, Entered e (Some peer)) ∈ tr.
Proof.
  unfold entered_by. rewrite list_elem_of_omap. split.
  - intros ([j' l] & Hin & Hl). destruct l as [e' [p |] | | | | | |]; try done. cbn in Hl. case_decide; by simplify_eq.
  - intros Hin. exists (j, Entered e (Some peer)). split; [done |]. cbn. by rewrite decide_True.
Qed.

Lemma unknown_orderly peer w tr : execution config w tr -> entered_by peer tr = [] -> orderly peer w tr.
Proof.
  induction 1 as [| w tr l w' _ IH Hm]; [constructor |]. rewrite entered_by_app. intros [H1 H2]%app_eq_nil.
  eapply orderly_moves; [by apply IH | done |]. intros (j & e & ->).
  unfold peer_idle. by rewrite H1.
Qed.

(** ** The invariant *)
Definition no_action (j : nat) (tr : trace) : Prop := forall a sid p i, (j, Accepted a (Action sid p) i) ∉ tr.

Definition acting_ok (j : nat) (st : acting) (tr : trace) : Prop :=
  match st with
  | AIdle => no_action j tr
  | ABound a sid c => no_action j tr /\ exists j', (j', Registered a sid c) ∈ tr
  | ADone => True
  end.

(** Session [sid] is opened by [peer] alone. *)
Definition only_peer (peer : SenderId) (sid : SessionId) (tr : trace) : Prop :=
  forall j a c, (j, Registered a sid c) ∈ tr -> c = peer.

Definition dispatch_account (j : nat) (tr : trace) (p : proc runtimeE unit) : Prop :=
  exists og st, wp (acting_monitor og) st p (fun _ _ => True) /\ acting_ok j st tr /\
    forall e reply, og = Some (e, reply) -> (j, Entered e reply) ∈ tr.

Record actions_inv (peer : SenderId) (sid : SessionId) (w : world) (tr : trace) : Prop := {
  ai_account j p : threads w !! j = Some (ThOther p) -> dispatch_account j tr p;
  ai_thread j l : (j, l) ∈ tr -> j < length (threads w);
  ai_bound a sid' c : sink (sessions (server w)) a sid' = Some c -> exists j, (j, Registered a sid' c) ∈ tr;
  ai_idle l j e : entered_by peer tr = l ++ [(j, e)] ->
    forall j' e', (j', e') ∈ l -> exists u, threads w !! j' = Some (ThOther (Ret u));
  ai_order : only_peer peer sid tr -> taken sid tr `sublist_of` actions_in sid (entered_by peer tr);
  ai_last l j e : only_peer peer sid tr -> entered_by peer tr = l ++ [(j, e)] -> no_action j tr ->
    taken sid tr `sublist_of` actions_in sid l
}.

Lemma no_action_snoc j tr j0 l :
  no_action j tr -> (j0 = j -> forall a sid p i, l <> Accepted a (Action sid p) i) -> no_action j (tr ++ [(j0, l)]).
Proof.
  intros Hn Hl a sid p i [Hin | [= -> <-]]%elem_of_snoc; [by apply (Hn a sid p i) | by apply (Hl eq_refl a sid p i)].
Qed.

Lemma acting_ok_snoc j st tr j0 l :
  acting_ok j st tr -> (j0 = j -> forall a sid p i, l <> Accepted a (Action sid p) i) -> acting_ok j st (tr ++ [(j0, l)]).
Proof.
  intros Hok Hl. destruct st as [| a sid c |]; cbn in Hok |- *; [by apply no_action_snoc | | done].
  destruct Hok as [Hn [j' Hj']]. split; [by apply no_action_snoc | exists j'; by apply in_snoc].
Qed.

Lemma only_peer_app peer sid tr l : only_peer peer sid (tr ++ l) -> only_peer peer sid tr.
Proof. intros H j a c Hin. eapply H. apply elem_of_app. by left. Qed.

Lemma asks_action e a sid p : asks e a sid p -> action_for sid e = Some p.
Proof.
  intros [v Hp]. unfold parse_inbound in Hp. unfold action_for. destruct (env_kind e) as [kind |]; [| done].
  destruct (session_id_from_bytes _) as [sid' |] eqn:Hs; [| done].
  destruct (actor_address_from_envelope _ _) as [a' |]; [| done]. injection Hp as -> -> _ ->.
  apply session_id_from_bytes_Some in Hs as [<- _]. by rewrite decide_True.
Qed.

(** A step that accepts no Action and starts no dispatch of [peer]'s. *)
Lemma actions_inv_quiet peer sid w w' tr j l :
  actions_inv peer sid w tr ->
  (forall a s p i, l <> Accepted a (Action s p) i) -> (forall e, l <> Entered e (Some peer)) ->
  (forall k p, threads w' !! k = Some (ThOther p) -> dispatch_account k (tr ++ [(j, l)]) p) ->
  length (threads w) <= length (threads w') -> j < length (threads w') ->
  (forall a s c, sink (sessions (server w')) a s = Some c -> exists k, (k, Registered a s c) ∈ tr ++ [(j, l)]) ->
  (forall k u, threads w !! k = Some (ThOther (Ret u)) -> threads w' !! k = Some (ThOther (Ret u))) ->
  actions_inv peer sid w' (tr ++ [(j, l)]).
Proof.
  intros [H1 H2 H3 H4 H5 H6] Hacc Hent Hth Hlen Hj Hb Hret.
  assert (He : entered_by peer (tr ++ [(j, l)]) = entered_by peer tr).
  { rewrite entered_by_app. destruct l as [e [p |] | | | | | |]; cbn; rewrite ?app_nil_r; try done.
    case_decide as Hp; [subst p; by destruct (Hent e) | by rewrite app_nil_r]. }
  assert (Ht : taken sid (tr ++ [(j, l)]) = taken sid tr).
  { rewrite taken_app. destruct l as [| | | a [s p | |] i | | |]; cbn; rewrite ?app_nil_r; try done.
    by destruct (Hacc a s p i). }
  split; rewrite ?He, ?Ht.
  - done.
  - intros k l' [Hin | [= -> _]]%elem_of_snoc; [apply H2 in Hin; lia | done].
  - done.
  - intros T k e HT k' e' Hin. destruct (H4 _ _ _ HT _ _ Hin) as [u Hu]. exists u. by apply Hret.
  - intros Ho%only_peer_app. by apply H5.
  - intros T k e Ho%only_peer_app HT Hn. apply (H6 _ k e); [done | done |].
    intros a s p i Hin. by eapply Hn, in_snoc.
Qed.

(** *** A call *)
Section call.
Context (peer : SenderId) (sid : SessionId) (s s' : ServerState) (ths : list thread) (tr : trace) (j : nat) (th : thread).
Context (X : Type) (e : runtimeE X) (k : X -> proc runtimeE unit) (x : X).
Context (Hinv : actions_inv peer sid (MkWorld s ths) tr) (Htr : trace_inv (MkWorld s ths) tr).
Context (Hj : ths !! j = Some th) (Hp : thread_proc th = Call e k) (Hex : exec_effect config X s e x s').
Abbreviation lab := (label_of s X e x s').

(** An Action is accepted by the dispatch of its envelope. *)
Lemma accepts_action a s0 p i :
  lab = Accepted a (Action s0 p) i ->
  exists e0 c, (j, Entered e0 (Some c)) ∈ tr /\ asks e0 a s0 p /\ no_action j tr /\ exists j', (j', Registered a s0 c) ∈ tr.
Proof.
  intros Hl. destruct th as [t q | q]; cbn in Hp; subst q.
  - pose proof (ti_account _ _ Htr j _ Hj) as (ph & [Hal _] & _). clear - Hl Hal.
    destruct e; cbn in Hal, Hl; try done; by destruct x.
  - destruct (ai_account _ _ _ _ Hinv j _ Hj) as (og & st & [Hal _] & Hok & Hog). clear - Hl Hal Hok Hog.
    destruct e; cbn in Hal, Hl; try done; try (by destruct x).
    + destruct x, (actors s' !! a0) as [route |]; try done. injection Hl as -> -> <-.
      destruct Hal as (c & e0 & -> & -> & Has). destruct Hok as [Hn Hr]. exists e0, c. split_and!; [by apply Hog | done | done | done].
    + destruct x, (actors s !! a0) as [[? [] ?] |]; try done. by injection Hl as -> -> _.
Qed.

Lemma call_dispatch_account q :
  thread_continue th (k x) = ThOther q -> dispatch_account j (tr ++ [(j, lab)]) q.
Proof.
  intros Hq. destruct th as [t q0 | q0]; [done |]. injection Hq as <-. cbn in Hp. subst q0.
  destruct (ai_account _ _ _ _ Hinv j _ Hj) as (og & st & [Hal Hk] & Hok & Hog).
  exists og, (acting_next X st e x). split_and!; [by apply Hk | | intros; by apply in_snoc, Hog].
  assert (Hkeep : (forall a s0 p i, lab <> Accepted a (Action s0 p) i) -> acting_ok j st (tr ++ [(j, lab)])).
  { intros Hl. apply acting_ok_snoc; [done | by intros _]. }
  clear Hk. pose proof (ai_bound _ _ _ _ Hinv) as Hb. clear - Hal Hok Hkeep Hex Hb.
  destruct e; cbn [acting_next label_of] in *; try (by apply Hkeep).
  - destruct m; [done | |]; apply Hkeep; intros; by destruct x, (actors s' !! a).
  - apply Hkeep. intros. cbn in Hal. destruct m; [done | |]; by destruct x, (actors s !! a) as [[? [] ?] |].
  - apply Hkeep. intros. by destruct x.
  - destruct st as [| |]; try (by apply Hkeep). destruct x; [| by apply Hkeep].
    specialize (Hkeep ltac:(done)). cbn in Hkeep, Hex |- *. split; [done |]. destruct Hex as [Hbound ->].
    unfold is_bound_to in Hbound. symmetry in Hbound. apply bool_decide_eq_true, Hb in Hbound as [j' Hj'].
    exists j'. by apply in_snoc.
Qed.

Lemma call_bound a s0 c :
  sink (sessions s') a s0 = Some c -> exists j', (j', Registered a s0 c) ∈ tr ++ [(j, lab)].
Proof.
  rewrite (exec_sessions config X s e x s' Hex).
  assert (Hold : forall a s0 c, sink (sessions s) a s0 = Some c -> exists j', (j', Registered a s0 c) ∈ tr ++ [(j, lab)]).
  { intros a' s1 c' Hs. destruct (ai_bound _ _ _ _ Hinv a' s1 c' Hs) as [j' Hj']. exists j'. by apply in_snoc. }
  clear - Hold Hex. destruct e; cbn [sessions_after]; try (by apply Hold).
  - pose proof (register_sink (sessions s) a0 sid sender a s0) as Hs. cbn in Hex.
    destruct (register_actor (sessions s) a0 sid sender) as [ok r]. destruct Hs as [_ Hs]. cbn [snd]. rewrite Hs.
    destruct (decide _) as [(-> & -> & ->) |]; [| apply Hold]. intros [= ->]. exists j. apply elem_of_snoc. right.
    destruct Hex as [-> _]. done.
  - pose proof (unregister_sink (sessions s) a0 sid a s0) as Hs.
    destruct (unregister_actor (sessions s) a0 sid) as [ok r]. destruct Hs as [_ Hs]. cbn [snd]. rewrite Hs.
    case_decide; [done | apply Hold].
Qed.

(** Thread [j] has not returned, so its dispatch is the last of its sender. *)
Lemma running_is_last e0 :
  (j, Entered e0 (Some peer)) ∈ tr -> exists l, entered_by peer tr = l ++ [(j, e0)].
Proof.
  intros Hin. apply entered_by_elem in Hin. pose proof (ai_idle _ _ _ _ Hinv) as Hidle.
  destruct (entered_by peer tr) as [| [j2 e2] l _] using rev_ind; [by apply elem_of_nil in Hin |].
  apply elem_of_snoc in Hin as [Hin | [= <- <-]]; [| by exists l].
  destruct (Hidle l j2 e2 eq_refl _ _ Hin) as [u Hu]. cbn in Hu. rewrite Hj in Hu. injection Hu as ->. done.
Qed.

(** The accounts of all dispatches, and those that have returned. *)
Lemma call_accounts k0 p :
  (<[j := thread_continue th (k x)]> ths) !! k0 = Some (ThOther p) -> dispatch_account k0 (tr ++ [(j, lab)]) p.
Proof.
  assert (Hnent : forall e0 r, lab <> Entered e0 r).
  { clear. intros e0 r. destruct e; cbn; try done; repeat case_match; done. }
  intros [(<- & Hq & _) | [Hne Hk]]%list_lookup_insert_Some; [by apply call_dispatch_account |].
  destruct (ai_account _ _ _ _ Hinv k0 p Hk) as (og & st & Hwp & Hok & Hog). exists og, st.
  split_and!; [done | by apply acting_ok_snoc | intros; by apply in_snoc, Hog].
Qed.

Lemma call_returned k0 u :
  ths !! k0 = Some (ThOther (Ret u)) -> (<[j := thread_continue th (k x)]> ths) !! k0 = Some (ThOther (Ret u)).
Proof. intros Hk. rewrite list_lookup_insert_ne; [done |]. intros ->. rewrite Hj in Hk. injection Hk as ->. done. Qed.

Lemma call_actions_inv :
  actions_inv peer sid (MkWorld s' (<[j := thread_continue th (k x)]> ths)) (tr ++ [(j, lab)]).
Proof.
  assert (Hjlt : j < length ths) by by eapply lookup_lt_Some.
  assert (Hnent : forall e0 r, lab <> Entered e0 r).
  { clear. intros e0 r. destruct e; cbn; try done; repeat case_match; done. }
  pose proof call_accounts as Hacc. pose proof call_returned as Hret.
  assert (Hcase : (forall a s0 p i, lab <> Accepted a (Action s0 p) i) \/ exists a s0 p i, lab = Accepted a (Action s0 p) i).
  { destruct lab as [| | | a [s0 p | |] i | | |]; try (by left); right; eauto. }
  destruct Hcase as [Hno | (a & s0 & p & i & Hl)].
  { apply (actions_inv_quiet peer sid (MkWorld s ths)); try done; cbn; rewrite ?length_insert; try done. apply call_bound. }
  destruct (accepts_action a s0 p i Hl) as (e0 & c & Hent & Hask & Hn & j1 & Hreg).
  rewrite Hl. pose proof call_bound as Hb. rewrite Hl in Hacc, Hb.
  assert (He : entered_by peer (tr ++ [(j, Accepted a (Action s0 p) i)]) = entered_by peer tr)
    by (rewrite entered_by_app; apply app_nil_r).
  assert (Ht : taken sid (tr ++ [(j, Accepted a (Action s0 p) i)]) =
               taken sid tr ++ if decide (s0 = sid) then [(j, p)] else []).
  { rewrite taken_app. cbn. by case_decide. }
  assert (Hord : only_peer peer sid (tr ++ [(j, Accepted a (Action s0 p) i)]) ->
    taken sid tr ++ (if decide (s0 = sid) then [(j, p)] else []) `sublist_of` actions_in sid (entered_by peer tr)).
  { intros Ho%only_peer_app. destruct (decide (s0 = sid)) as [-> |]; [| rewrite app_nil_r; by apply (ai_order _ _ _ _ Hinv)].
    pose proof (Ho _ _ _ Hreg) as ->. destruct (running_is_last e0 Hent) as [l Hlast]. rewrite Hlast, actions_in_app.
    apply sublist_app; [by apply (ai_last _ _ _ _ Hinv l j e0) |]. cbn. by rewrite (asks_action _ _ _ _ Hask). }
  split; rewrite ?He, ?Ht; cbn [server threads].
  - exact Hacc.
  - intros k0 l. rewrite length_insert. intros [Hin | [= -> _]]%elem_of_snoc; [by apply (ai_thread _ _ _ _ Hinv) in Hin | done].
  - exact Hb.
  - intros l k0 e1 Hlast k' e' Hin. destruct (ai_idle _ _ _ _ Hinv _ _ _ Hlast _ _ Hin) as [u Hu].
    exists u. by apply Hret.
  - exact Hord.
  - intros l k0 e1 Ho Hlast Hn'. assert (k0 <> j) by (intros ->; apply (Hn' a s0 p i), elem_of_snoc; by right).
    destruct (decide (s0 = sid)) as [-> |].
    + exfalso. apply only_peer_app in Ho. pose proof (Ho _ _ _ Hreg) as ->.
      destruct (running_is_last e0 Hent) as [l' Hlast']. rewrite Hlast in Hlast'.
      apply app_inj_tail in Hlast' as [_ [= -> _]]. done.
    + rewrite app_nil_r. apply (ai_last _ _ _ _ Hinv l k0 e1); [by eapply only_peer_app | done |].
      intros a' s1 p' i' Hin. by eapply Hn', in_snoc.
Qed.
End call.

(** *** A thread starts, or is cut off *)

(** Actor tasks come and go, the dispatches stay. *)
Lemma actor_threads_inv peer sid s ths tr ths' :
  actions_inv peer sid (MkWorld s ths) tr -> length ths <= length ths' ->
  (forall k q, ths' !! k = Some (ThOther q) -> ths !! k = Some (ThOther q)) ->
  (forall k u, ths !! k = Some (ThOther (Ret u)) -> ths' !! k = Some (ThOther (Ret u))) ->
  actions_inv peer sid (MkWorld s ths') tr.
Proof.
  intros [H1 H2 H3 H4 H5 H6] Hlen Hnew Hret. cbn [server threads] in *. split; cbn [server threads]; try done.
  - intros k q Hk. by apply H1, Hnew.
  - intros k lab Hin%H2. lia.
  - intros l k e Hl k' e' Hin. destruct (H4 _ _ _ Hl _ _ Hin) as [u Hu]. exists u. by apply Hret.
Qed.

Lemma starts_actions_inv peer sid s ths tr l ths' :
  actions_inv peer sid (MkWorld s ths) tr -> starts config s ths l ths' ->
  ((exists j e, l = [(j, Entered e (Some peer))]) -> peer_idle peer (MkWorld s ths) tr = true) ->
  actions_inv peer sid (MkWorld s ths') (tr ++ l).
Proof.
  intros Hinv Hs Hidle. destruct Hs as [p l Hp | i t fuel Ht Hnone | j0 i p t Hj0 Ht _ _]; rewrite ?app_nil_r.
  - pose proof Hinv as [H1 H2 H3 H4 H5 H6]. cbn [server threads] in *.
    assert (Hl : forall a s p i, l <> Accepted a (Action s p) i) by (destruct Hp; done).
    assert (Hfresh : forall lab, (length ths, lab) ∉ tr) by (intros lab Hin%H2; lia).
    assert (Hacc : forall k q, (ths ++ [ThOther p]) !! k = Some (ThOther q) -> dispatch_account k (tr ++ [(length ths, l)]) q).
    { intros k q [Hk | [Hge Hk]]%lookup_app_Some.
      - destruct (H1 _ _ Hk) as (og & st & Hwp & Hok & Hog). exists og, st.
        split_and!; [done | by apply acting_ok_snoc | intros; by apply in_snoc, Hog].
      - apply list_lookup_singleton_Some in Hk as [Hz [= <-]]. assert (k = length ths) as -> by lia.
        exists (entry_origin l), AIdle. split; [by apply entry_acting | split].
        + apply no_action_snoc; [intros a s0 p0 i0; apply Hfresh | done].
        + intros e reply He. apply elem_of_snoc. right. destruct Hp; by inversion He. }
    assert (Hret : forall k u, ths !! k = Some (ThOther (Ret u)) -> (ths ++ [ThOther p]) !! k = Some (ThOther (Ret u)))
      by (intros; by apply lookup_app_l_Some).
    assert (Hcase : (exists e, l = Entered e (Some peer)) \/ forall e, l <> Entered e (Some peer)).
    { destruct Hp as [e [c |] | | | |]; try (by right). destruct (decide (c = peer)) as [-> | Hne]; [left; by exists e | right].
      intros e' [= _ ?]. done. }
    destruct Hcase as [[e ->] | Hne].
    + specialize (Hidle ltac:(eauto)).
      assert (He : entered_by peer (tr ++ [(length ths, Entered e (Some peer))]) = entered_by peer tr ++ [(length ths, e)]).
      { rewrite entered_by_app. cbn. by rewrite decide_True. }
      assert (Ht : taken sid (tr ++ [(length ths, Entered e (Some peer))]) = taken sid tr)
        by (rewrite taken_app; apply app_nil_r).
      split; rewrite ?He, ?Ht; cbn [server threads]; try done.
      * intros k lab. rewrite length_app. cbn. intros [Hin%H2 | [= -> _]]%elem_of_snoc; lia.
      * intros a s0 c Hs. destruct (H3 a s0 c Hs) as [k Hk]. exists k. by apply in_snoc.
      * intros l k e1 [<- _]%app_inj_tail k' e' Hin. unfold peer_idle in Hidle. rewrite forallb_forall in Hidle.
        specialize (Hidle (k', e') ltac:(by apply list_elem_of_In)). cbn in Hidle.
        destruct (ths !! k') as [[| [u |]] |] eqn:Hk; try done. exists u. by apply Hret.
      * intros Ho%only_peer_app. rewrite actions_in_app. by apply sublist_inserts_r, H5.
      * intros l k e1 Ho%only_peer_app [<- _]%app_inj_tail _. by apply H5.
    + apply (actions_inv_quiet peer sid (MkWorld s ths)); try done; cbn; rewrite ?length_app; cbn; try lia.
      intros a s0 c Hs. destruct (H3 a s0 c Hs) as [k Hk]. exists k. by apply in_snoc.
  - apply (actor_threads_inv _ _ _ ths); [done | rewrite length_app; lia | | by intros; apply lookup_app_l_Some].
    intros k q [Hk | [_ Hk]]%lookup_app_Some; [done | by apply list_lookup_singleton_Some in Hk as [_ ?]].
  - apply (actor_threads_inv _ _ _ ths); [done | by rewrite length_insert | |].
    + by intros k q [(_ & ? & _) | [_ Hk]]%list_lookup_insert_Some.
    + intros k u Hu. rewrite list_lookup_insert_ne; [done |]. intros ->. congruence.
Qed.

Lemma orderly_inv peer sid w tr :
  orderly peer w tr -> spawn_bound (server w) -> actions_inv peer sid w tr.
Proof.
  induction 1 as [| w tr l w' Hrun IH Hm Hidle]; intros Hb.
  - split; cbn; try done.
    + by intros j l ?%elem_of_nil.
    + intros l j e Heq. by destruct l.
    + intros l j e _ Heq. by destruct l.
  - pose proof (moves_bound config _ _ _ Hm Hb) as Hb0. specialize (IH Hb0).
    destruct Hm as [s ths j th X e k x s' Hj Hp Hex | s ths l0 ths' Hs].
    + eapply call_actions_inv; [done | | done | done | done].
      eapply execution_inv; [by eapply orderly_execution | done].
    + by eapply starts_actions_inv.
Qed.

(** ** The Actions a task has handled *)
Definition action_of (sid : SessionId) (m : MailboxMessage) : option string :=
  match m with
  | Action sid' p => if decide (sid' = sid) then Some p else None
  | _ => None
  end.

Lemma handled_actions_omap sid i tr : handled_actions sid i tr = omap (action_of sid) (handled i tr).
Proof.
  induction tr as [| [j l] tr IH]; [done |]. unfold handled_actions, handled in *. cbn [omap list_omap snd].
  destruct l as [| | | | i' m ok | |]; try exact IH.
  destruct (decide (i' = i)) as [-> | Hne].
  - cbn. destruct m as [sid' p | |]; cbn; [| exact IH | exact IH]. destruct (decide (sid' = sid)) as [-> |].
    + rewrite decide_True by done. f_equal. exact IH.
    + rewrite decide_False by naive_solver. exact IH.
  - destruct m; cbn; try exact IH. rewrite decide_False by naive_solver. exact IH.
Qed.

Lemma accepted_taken sid i tr : omap (action_of sid) (accepted i tr) `sublist_of` (taken sid tr).*2.
Proof.
  induction tr as [| [j l] tr IH]; [done |]. unfold accepted, taken in *. cbn [omap list_omap snd fst].
  destruct l as [| | | a m i' | | |]; try exact IH. destruct (decide (i' = i)) as [-> | Hne]; cbn.
  - destruct m as [sid' p | |]; cbn; [| exact IH | exact IH]. case_decide; cbn; [by apply sublist_skip | exact IH].
  - destruct m as [sid' p | |]; cbn; [| exact IH | exact IH]. case_decide; cbn; [by apply sublist_cons | exact IH].
Qed.

(** An Actor handles the Actions of a Session in the order in which the envelopes
    of its connection were dispatched. *)
Lemma handled_in_dispatch_order peer sid w tr i :
  orderly peer w tr -> spawn_bound (server w) -> only_peer peer sid tr ->
  handled_actions sid i tr `sublist_of` (actions_in sid (entered_by peer tr)).*2.
Proof.
  intros Hrun Hb Ho. pose proof (orderly_inv peer sid w tr Hrun Hb) as Hinv.
  pose proof (execution_inv config w tr (orderly_execution _ _ _ Hrun) Hb) as Htr.
  rewrite handled_actions_omap. destruct (trace_prefix w tr i Htr) as [l Hl].
  etrans; [| etrans; [apply (accepted_taken sid i) |]].
  - rewrite Hl, omap_app. by apply sublist_inserts_r.
  - apply fmap_sublist. by apply (ai_order _ _ _ _ Hinv).
Qed.
End actions.
