(* ===== verification/AcceptTrace.v ===== *)
(** * The accept task as an execution of the Server

    The worlds of [Accept] with their traces are executions of [RuntimeTrace], and
    of the orderly ones of [RuntimeActions]: what is dispatched for the sender of
    a connection is what its task received, one envelope after the other.  The
    scheduler at the end runs these worlds on concrete scripts. *)

From S2P Require Import Prelude Text Address Transport Session Runtime RuntimeInv RuntimeActor RuntimeWorld RuntimeTrace.
From S2P Require Import RuntimeProps RuntimeOrder Accept RuntimeActions.
Import Registry.

Section trace.
Context (config : ServerConfig).

Inductive accept_execution : accept_world -> trace -> Prop :=
| accept_begin : accept_execution (initial_accept config) []
| accept_next w tr l w' : accept_execution w tr -> accept_step config w l w' -> accept_execution w' (tr ++ l).

Lemma accept_execution_reachable w tr : accept_execution w tr -> accept_reachable config w.
Proof. induction 1 as [| w tr l w' _ IH Hst]; [apply rtc_refl |]. eapply rtc_r; [exact IH | by exists l]. Qed.

Lemma reachable_accept_execution w : accept_reachable config w -> exists tr, accept_execution w tr.
Proof.
  apply (rtc_preserved _ (fun w => exists tr, accept_execution w tr)); [| exists []; constructor].
  intros w1 w2 [tr Htr] [l Hl]. exists (tr ++ l). by eapply accept_next.
Qed.

(** ** Every step is one of the runtime's, or none *)
Lemma conn_moves v c l v' c' : conn_step config v c l v' c' -> moves config v l v' \/ l = [] /\ v' = v.
Proof. intros []; [left; by do 3 constructor | by right | left; by do 3 constructor | by right]. Qed.

Lemma accept_moves w l w' :
  accept_step config w l w' -> moves config (runtime w) l (runtime w') \/ l = [] /\ runtime w' = runtime w.
Proof.
  intros Hst. destruct Hst as [w j th X e k x s' Hj Hp Hex _ w' | w p Hp | w i t fuel Ht Hnew | w j i p t Hj Ht Ha Hc
    | w i c l v c' _ _ Hst w' w'' | | | | | | | | |]; try (right; by split).
  - left. assert (runtime (if is_abort_inbound e then abort_inbound_tasks w' else w') = runtime w') as -> by by destruct (is_abort_inbound e).
    subst w'. cbn. destruct (runtime w). by eapply moves_call.
  - left. cbn. destruct (runtime w) as [s ths]. constructor. constructor. destruct Hp; constructor.
  - left. cbn. destruct (runtime w) as [s ths]. constructor. by constructor.
  - left. cbn. destruct (runtime w) as [s ths]. constructor. by econstructor.
  - assert (runtime (with_connections w'' (<[i := c']> (connections w))) = v) as ->; [| by eapply conn_moves].
    cbn. subst w'' w'. by destruct (is_finished c').
Qed.

Lemma accept_one w l w' : accept_step config w l w' -> l = [] \/ exists j lab, l = [(j, lab)].
Proof. intros []; eauto. match goal with H : conn_step _ _ _ _ _ _ |- _ => destruct H end; eauto. Qed.

(** ** The invariant *)
Definition returned_in (w : accept_world) (j : nat) : Prop := exists u, threads (runtime w) !! j = Some (ThOther (Ret u)).

Record account (w : accept_world) (tr : trace) : Prop := {
  ac_inv : accept_inv w;
  ac_received c : c ∈ connections w -> (entered_by (c_sender c) tr).*2 = c_received c;
  ac_returned c j e : c ∈ connections w -> (j, e) ∈ entered_by (c_sender c) tr ->
    returned_in w j \/ c_phase c = Dispatching j;
  ac_entered j e reply : (j, Entered e reply) ∈ tr -> exists c, c ∈ connections w /\ reply = Some (c_sender c);
  ac_orderly peer : orderly config peer (runtime w) tr
}.

(** Threads that have returned stay. *)
Lemma moves_returned v l v' j u : moves config v l v' ->
  threads v !! j = Some (ThOther (Ret u)) -> threads v' !! j = Some (ThOther (Ret u)).
Proof.
  intros [s ths j' th X e k x s' Hj Hp Hex | s ths l0 ths' [p lab Hp | i t fuel Ht Hn | j' i p t Hj Ht Ha Hc]]; cbn; intros Hu.
  - rewrite list_lookup_insert_ne; [done |]. intros ->. rewrite Hj in Hu. injection Hu as ->. done.
  - by apply lookup_app_l_Some.
  - by apply lookup_app_l_Some.
  - rewrite list_lookup_insert_ne; [done |]. intros ->. congruence.
Qed.

Lemma accept_returned w l w' j : accept_step config w l w' -> returned_in w j -> returned_in w' j.
Proof.
  intros Hst [u Hu]. exists u. destruct (accept_moves _ _ _ Hst) as [Hm | [_ ->]]; [by eapply moves_returned | done].
Qed.

(** What a step that dispatches nothing makes of the connections: they receive
    nothing, leave only dispatches that have returned, and new ones are new. *)
Definition conns_kept (w w' : accept_world) : Prop :=
  (forall c, c ∈ connections w -> exists c', c' ∈ connections w' /\ c_sender c' = c_sender c) /\
  forall c', c' ∈ connections w' ->
    (exists c, c ∈ connections w /\ c_sender c' = c_sender c /\ c_received c' = c_received c /\
       forall j, c_phase c = Dispatching j -> c_phase c' = Dispatching j \/ returned_in w' j) \/
    (c_received c' = [] /\ forall c, c ∈ connections w -> c_sender c <> c_sender c').

Lemma conns_kept_same w w' : connections w' = connections w -> conns_kept w w'.
Proof.
  intros Hc. unfold conns_kept. rewrite Hc. split; [intros c Hin; by exists c |].
  intros c Hin. left. exists c. split_and!; [done.. |]. by left.
Qed.

Lemma conns_kept_abort w w' : connections w' = connections w -> conns_kept w (abort_inbound_tasks w').
Proof.
  intros Hc. split.
  - intros c [i Hi]%list_elem_of_lookup.
    exists ((if decide (i ∈ inbound_tasks w') then abort else id) c). split; [| by destruct (decide _)].
    apply list_elem_of_lookup. exists i. by rewrite abort_inbound_lookup, Hc, Hi.
  - intros c' [i Hi]%list_elem_of_lookup. left. rewrite abort_inbound_lookup, Hc in Hi.
    destruct (connections w !! i) as [c |] eqn:Hl; [| done]. injection Hi as <-. exists c.
    split; [by eapply list_elem_of_lookup_2 |]. destruct (decide _); by (split_and!; [.. | left]).
Qed.

Lemma conns_kept_insert w w' i c c' :
  connections w !! i = Some c -> connections w' = <[i := c']> (connections w) ->
  c_sender c' = c_sender c -> c_received c' = c_received c ->
  (forall j, c_phase c = Dispatching j -> returned_in w' j) -> conns_kept w w'.
Proof.
  intros Hl Hc Hs Hr Hd. unfold conns_kept. rewrite Hc. split.
  - intros c0 [i0 Hi0]%list_elem_of_lookup. destruct (decide (i = i0)) as [<- | Hne].
    + exists c'. split; [eapply list_elem_of_lookup_2, list_lookup_insert_eq; by eapply lookup_lt_Some | congruence].
    + exists c0. split; [| done]. apply list_elem_of_lookup. exists i0. by rewrite list_lookup_insert_ne.
  - intros c0 [-> | Hin]%elem_of_insert_inv; left.
    + exists c. split_and!; [by eapply list_elem_of_lookup_2 | done | done |]. intros j Hj. right. by apply Hd.
    + exists c0. split_and!; [done.. |]. by left.
Qed.

Lemma quiet_entered peer (l : trace) : (forall j e reply, (j, Entered e reply) ∉ l) -> entered_by peer l = [].
Proof.
  intros Hl. apply elem_of_nil_inv. intros [j e] Hin. apply entered_by_elem in Hin. by destruct (Hl j e (Some peer)).
Qed.

Lemma quiet_account w tr l w' :
  account w tr -> accept_step config w l w' -> (forall j e reply, (j, Entered e reply) ∉ l) -> conns_kept w w' ->
  account w' (tr ++ l).
Proof.
  intros Hac Hst Hl [Hold Hnew]. pose proof (fun peer => quiet_entered peer l Hl) as Hnil.
  split.
  - eapply accept_step_inv; [apply (ac_inv _ _ Hac) | exact Hst].
  - intros c' Hin. rewrite entered_by_app, Hnil, app_nil_r.
    destruct (Hnew c' Hin) as [(c & Hc & -> & -> & _) | [-> Hfresh]]; [by apply (ac_received _ _ Hac) |].
    destruct (entered_by (c_sender c') tr) as [| [j e] k] eqn:He; [done | exfalso].
    assert (Hent : (j, Entered e (Some (c_sender c'))) ∈ tr) by (apply entered_by_elem; rewrite He; constructor).
    apply (ac_entered _ _ Hac) in Hent as (c & Hc & [= Heq]). by apply (Hfresh c).
  - intros c' j e Hin. rewrite entered_by_app, Hnil, app_nil_r. intros He.
    destruct (Hnew c' Hin) as [(c & Hc & Hs & _ & Hph) | [_ Hfresh]].
    + rewrite Hs in He. destruct (ac_returned _ _ Hac c j e Hc He) as [Hr | Hd]; [left; by eapply accept_returned |].
      destruct (Hph j Hd); auto.
    + apply entered_by_elem, (ac_entered _ _ Hac) in He as (c & Hc & [= Heq]). by destruct (Hfresh c Hc).
  - intros j e reply [Hin | Hin]%elem_of_app; [| by destruct (Hl j e reply)].
    destruct (ac_entered _ _ Hac _ _ _ Hin) as (c & Hc & ->). destruct (Hold c Hc) as (c' & Hc' & Hs).
    exists c'. by rewrite Hs.
  - intros peer. destruct (accept_moves _ _ _ Hst) as [Hm | [-> ->]]; [| rewrite app_nil_r; apply (ac_orderly _ _ Hac)].
    eapply orderly_moves; [apply (ac_orderly _ _ Hac) | exact Hm |]. intros (j & e & ->).
    destruct (Hl j e (Some peer)). by apply list_elem_of_singleton.
Qed.

(** A connection task receives an envelope and dispatches it. *)
Section recv.
Context (w w' : accept_world) (tr : trace) (i : ConnId) (c : connection) (e : Envelope).
Context (Hac : account w tr) (Hl : connections w !! i = Some c) (Hph : c_phase c = Receiving).
Abbreviation j0 := (length (threads (runtime w))).
Abbreviation c0 := (MkConnection (c_sender c) (Dispatching j0) (c_received c ++ [e]) (c_aborted c)).
Context (Hst : accept_step config w [(j0, Entered e (Some (c_sender c)))] w').
Context (Hc' : connections w' = <[i := c0]> (connections w)).

Lemma recv_new c' : c' ∈ connections w' -> c' = c0 \/ c' ∈ connections w /\ c_sender c' <> c_sender c.
Proof.
  rewrite Hc'. intros [k Hk]%list_elem_of_lookup. apply list_lookup_insert_Some in Hk as [(_ & <- & _) | [Hne Hk]]; [by left |].
  right. split; [by eapply list_elem_of_lookup_2 |]. intros Hs. apply Hne.
  destruct (ac_inv _ _ Hac) as (_ & _ & Hn & _). apply NoDup_app in Hn as (_ & _ & Hn).
  eapply NoDup_lookup; [exact Hn | by rewrite list_lookup_fmap, Hl | rewrite list_lookup_fmap, Hk]. cbn. by rewrite Hs.
Qed.

Lemma entered_recv peer :
  entered_by peer (tr ++ [(j0, Entered e (Some (c_sender c)))]) =
  entered_by peer tr ++ if decide (c_sender c = peer) then [(j0, e)] else [].
Proof. rewrite entered_by_app. f_equal. cbn. by case_decide. Qed.

(** Every dispatch of this connection has returned. *)
Lemma recv_idle : peer_idle (c_sender c) (runtime w) tr = true.
Proof.
  apply forallb_forall. intros [j e'] Hin%list_elem_of_In. cbn.
  destruct (ac_returned _ _ Hac c j e' (list_elem_of_lookup_2 _ _ _ Hl) Hin) as [[u ->] | Hd]; [done | congruence].
Qed.

Lemma recv_account : account w' (tr ++ [(j0, Entered e (Some (c_sender c)))]).
Proof.
  pose proof (list_elem_of_lookup_2 _ _ _ Hl) as Hin0.
  split.
  - eapply accept_step_inv; [apply (ac_inv _ _ Hac) | exact Hst].
  - intros c' [-> | [Hin Hs]]%recv_new; rewrite entered_recv; cbn [c_sender c_received].
    + rewrite decide_True by done. rewrite fmap_app. f_equal. by apply (ac_received _ _ Hac).
    + rewrite decide_False, app_nil_r by congruence. by apply (ac_received _ _ Hac).
  - intros c' j e' [-> | [Hin Hs]]%recv_new; rewrite entered_recv; cbn [c_sender c_phase].
    + rewrite decide_True by done. intros [He | [= -> ->]]%elem_of_snoc; [| by right]. left.
      destruct (ac_returned _ _ Hac c j e' Hin0 He) as [Hr | Hd]; [by eapply accept_returned | congruence].
    + rewrite decide_False, app_nil_r by congruence. intros He.
      destruct (ac_returned _ _ Hac c' j e' Hin He) as [Hr | Hd]; [left; by eapply accept_returned | by right].
  - intros j e' reply [Hin | [= _ _ ->]]%elem_of_snoc.
    + destruct (ac_entered _ _ Hac _ _ _ Hin) as (c1 & [k Hk]%list_elem_of_lookup & ->). rewrite Hc'.
      destruct (decide (i = k)) as [<- | Hne].
      * exists c0. split; [eapply list_elem_of_lookup_2, list_lookup_insert_eq; by eapply lookup_lt_Some | cbn; congruence].
      * exists c1. split; [| done]. apply list_elem_of_lookup. exists k. by rewrite list_lookup_insert_ne.
    + exists c0. split; [| done]. rewrite Hc'. eapply list_elem_of_lookup_2, list_lookup_insert_eq. by eapply lookup_lt_Some.
  - intros peer. destruct (accept_moves _ _ _ Hst) as [Hm | [? _]]; [| done].
    eapply orderly_moves; [apply (ac_orderly _ _ Hac) | exact Hm |]. intros (j & e' & [= _ _ <-]). apply recv_idle.
Qed.
End recv.

Lemma label_not_entered s X (e : runtimeE X) x s' : forall e0 reply, label_of s X e x s' <> Entered e0 reply.
Proof. intros e0 reply. destruct e; cbn; repeat case_match; done. Qed.

Lemma account_step w tr l w' : account w tr -> accept_step config w l w' -> account w' (tr ++ l).
Proof.
  intros Hac Hst.
  assert (Hnil : l = [] -> connections w' = connections w -> account w' (tr ++ l)).
  { intros -> Hc. apply (quiet_account w); [done | done | by intros j e reply ?%elem_of_nil | by apply conns_kept_same]. }
  pose proof Hst as Hst0.
  destruct Hst as [w j th X e k x s' Hj Hp Hex _ w' | w p Hp | w i t fuel Ht Hnew | w j i p t Hj Ht Ha Hc
    | w i c l v c' Hl Hna Hst w' w'' | | | | | | w sender rest Ha Hb | | |]; try by apply Hnil.
  - apply (quiet_account w); [done | done | |].
    + intros j' e' reply [= _ Heq]%list_elem_of_singleton. by destruct (label_not_entered _ _ _ _ _ _ _ (eq_sym Heq)).
    + destruct (is_abort_inbound e); [by apply conns_kept_abort | by apply conns_kept_same].
  - apply (quiet_account w); [done | done | by intros j' e' reply [=]%list_elem_of_singleton | by apply conns_kept_same].
  - set (w3 := with_connections w'' (<[i := c']> (connections w))) in *.
    assert (Hc3 : connections w3 = <[i := c']> (connections w)) by done.
    assert (Hr3 : runtime w3 = v) by (cbn; subst w'' w'; by destruct (is_finished c')).
    assert (Hret : forall j u, threads (runtime w) !! j = Some (ThOther (Ret u)) -> returned_in w3 j).
    { intros j u Hu. eapply accept_returned; [exact Hst0 |]. by exists u. }
    clearbody w3. destruct (runtime w) as [s ths] eqn:Hw.
    inversion Hst as [s0 ths0 c1 e Hp | w0 c1 j u Hp Hj | s0 ths0 c1 Hp | w0 c1 j u Hp Hj]; subst.
    + change (length ths) with (length (threads (MkWorld s ths))) in *. rewrite <- Hw in *. by eapply recv_account.
    + apply (quiet_account w); [done | done | by intros j' e' reply ?%elem_of_nil |].
      apply (conns_kept_insert w w3 i c _ Hl Hc3); [done | done |]. intros j' Hj'. assert (j' = j) as -> by congruence. by eapply Hret.
    + apply (quiet_account w); [done | done | by intros j' e' reply [=]%list_elem_of_singleton |].
      apply (conns_kept_insert w w3 i c _ Hl Hc3); [done | done |]. intros j' Hj'. congruence.
    + apply (quiet_account w); [done | done | by intros j' e' reply ?%elem_of_nil |].
      apply (conns_kept_insert w w3 i c _ Hl Hc3); [done | done |]. intros j' Hj'. congruence.
  - apply (quiet_account w); [done | done | by intros j' e' reply ?%elem_of_nil |]. split.
    + intros c Hc. exists c. split; [| done]. by apply in_snoc.
    + intros c [Hc | ->]%elem_of_snoc; [left | right].
      * exists c. split_and!; [done.. |]. by left.
      * split; [done |]. cbn. intros c Hc <-. destruct (ac_inv _ _ Hac) as (_ & _ & Hn & _). rewrite Hb in Hn.
        apply NoDup_cons in Hn as [Hn _]. apply Hn, elem_of_app. right. apply list_elem_of_fmap. by exists c.
Qed.

Lemma accept_account w tr : accept_execution w tr -> account w tr.
Proof.
  induction 1 as [| w tr l w' _ IH Hst]; [| by eapply account_step].
  split; [apply accept_initial_inv | by intros c ?%elem_of_nil | by intros c j e ?%elem_of_nil | by intros j e r ?%elem_of_nil |].
  intros peer. constructor.
Qed.
End trace.

(** ** The scheduler *)
Inductive accept_action :=
| ARun (x : action)
| AArrive (sender : SenderId)
| AAccept
| ARegister
| AReceive (i : ConnId) (e : Envelope)
| AReturn (i : ConnId)
| AEnd (i : ConnId).

(** Thread [j] is what an aborted connection task awaits. *)
Definition cut_off (w : accept_world) (j : nat) : bool :=
  existsb (fun c => c_aborted c && bool_decide (conn_thread c = Some j)) (connections w).

Definition aborts_next (w : accept_world) (j : nat) : bool :=
  match threads (runtime w) !! j with
  | Some th => match thread_proc th with Call e _ => is_abort_inbound e | Ret _ => false end
  | None => false
  end.

(** A listener takes a stream of [sender]. *)
Definition can_arrive (w : accept_world) (sender : SenderId) : bool :=
  listening w && bool_decide (sender ∉ backlog w) && forallb (fun c => negb (bool_decide (c_sender c = sender))) (connections w).

Definition arrive (w : accept_world) (sender : SenderId) : accept_world := with_listener w (backlog w ++ [sender]) true.

(** A connection task that receives, or has returned from what it awaits. *)
Definition conn_act (config : ServerConfig) (w : accept_world) (i : ConnId) (f : connection -> option (trace * world * connection))
    : option (trace * accept_world) :=
  c ← connections w !! i;
  if c_aborted c then None else
  '(l, v, c') ← f c;
  let w' := with_runtime w v in
  let w' := if is_finished c' then retain_inbound_tasks w' else w' in
  Some (l, with_connections w' (<[i := c']> (connections w))).

Definition receives (config : ServerConfig) (v : world) (e : Envelope) (c : connection) : option (trace * world * connection) :=
  match c_phase c with
  | Receiving =>
      Some ([(length (threads v), Entered e (Some (c_sender c)))],
            MkWorld (server v) (threads v ++ [ThOther (dispatch_inbound config e (Some (c_sender c)))]),
            MkConnection (c_sender c) (Dispatching (length (threads v))) (c_received c ++ [e]) (c_aborted c))
  | _ => None
  end.

Definition ends (v : world) (c : connection) : option (trace * world * connection) :=
  match c_phase c with
  | Receiving =>
      Some ([(length (threads v), Silent)],
            MkWorld (server v) (threads v ++ [ThOther (close_sessions_for_sender (c_sender c))]),
            with_phase c (Closing (length (threads v))))
  | _ => None
  end.

Definition returns (v : world) (c : connection) : option (trace * world * connection) :=
  match c_phase c with
  | Dispatching j => match threads v !! j with Some (ThOther (Ret _)) => Some ([], v, with_phase c Receiving) | _ => None end
  | Closing j => match threads v !! j with Some (ThOther (Ret _)) => Some ([], v, with_phase c Done) | _ => None end
  | _ => None
  end.

Definition run_act (config : ServerConfig) (w : accept_world) (x : action) : option (trace * accept_world) :=
  match x with
  | AInbound _ _ | ADisconnect _ => None
  | AStep j _ =>
      if cut_off w j then None else
      v ← act config (runtime w) x;
      let w' := with_runtime w v in
      Some (act_label config (runtime w) x, if aborts_next w j then abort_inbound_tasks w' else w')
  | x => v ← act config (runtime w) x; Some (act_label config (runtime w) x, with_runtime w v)
  end.

Definition accept_act (config : ServerConfig) (w : accept_world) (x : accept_action) : option (trace * accept_world) :=
  match x with
  | ARun x => run_act config w x
  | AArrive sender => if can_arrive w sender then Some ([], arrive w sender) else None
  | AAccept =>
      match accept w, backlog w with
      | Selecting, sender :: rest =>
          Some ([], with_accept
            (with_connections (with_listener w rest (listening w))
               (connections w ++ [MkConnection sender Receiving [] false]))
            (Registering (length (connections w))))
      | _, _ => None
      end
  | ARegister =>
      match accept w with
      | Registering i => Some ([], with_accept (register_inbound_task w i) Selecting)
      | _ => None
      end
  | AReceive i e => conn_act config w i (receives config (runtime w) e)
  | AReturn i => conn_act config w i (returns (runtime w))
  | AEnd i => conn_act config w i (ends (runtime w))
  end.

Fixpoint accept_run (config : ServerConfig) (w : accept_world) (tr : trace) (l : list accept_action) : option (accept_world * trace) :=
  match l with
  | [] => Some (w, tr)
  | x :: l => '(lab, w') ← accept_act config w x; accept_run config w' (tr ++ lab) l
  end.

Section sound.
Context (config : ServerConfig).

Lemma can_arrive_true w sender : can_arrive w sender = true ->
  listening w = true /\ (sender ∉ backlog w) /\ forall c, c ∈ connections w -> c_sender c <> sender.
Proof.
  unfold can_arrive. intros [[Hl Hb%bool_decide_eq_true]%andb_true_iff Hc]%andb_true_iff. split_and!; [done | done |].
  intros c Hin%list_elem_of_In Hs. rewrite forallb_forall in Hc. specialize (Hc c Hin).
  by rewrite bool_decide_eq_true_2 in Hc.
Qed.

Lemma arrive_step w sender : can_arrive w sender = true -> accept_step config w [] (arrive w sender).
Proof. intros (Hl & Hb & Hc)%can_arrive_true. by apply accept_arrive. Qed.

Lemma cut_off_false w j : cut_off w j = false -> forall c, c ∈ connections w -> c_aborted c = true -> conn_thread c <> Some j.
Proof.
  intros Hf c Hin%list_elem_of_In Ha Ht. assert (cut_off w j = true); [| congruence].
  apply existsb_exists. exists c. split; [done |]. by rewrite Ha, bool_decide_eq_true_2.
Qed.

Lemma run_act_sound w x l w' : run_act config w x = Some (l, w') -> accept_step config w l w'.
Proof.
  destruct x as [j h | | | | | i fuel | j]; try done; cbn [run_act]; destruct (runtime w) as [s ths] eqn:Hw; cbn [act].
  - destruct (cut_off w j) eqn:Hcut; [done |]. destruct (ths !! j) as [th |] eqn:Hj; [| done].
    destruct (thread_proc th) as [| X e k] eqn:Hp; [done |].
    destruct (exec_fn config X s e h) as [[x s'] |] eqn:Hf; [| done]. cbn. intros [= <- <-].
    unfold aborts_next. rewrite Hw. cbn. rewrite Hj, Hp, Hf.
    pose proof (accept_call config w j th X e k x s') as Hstep. rewrite Hw in Hstep. cbn in Hstep.
    apply Hstep; [done | done | by eapply exec_fn_sound | by apply cut_off_false].
  - cbn. intros [= <- <-]. pose proof (accept_entry config w _ server_shutdown) as Hstep. by rewrite Hw in Hstep.
  - cbn. intros [= <- <-]. pose proof (accept_entry config w _ server_fence) as Hstep. by rewrite Hw in Hstep.
  - destruct (tasks s !! i) as [t |] eqn:Ht; [| done]. destruct (has_thread i ths) eqn:Hh; [done |]. cbn. intros [= <- <-].
    pose proof (accept_spawn config w i t fuel) as Hstep. rewrite Hw in Hstep. apply Hstep; [done |].
    intros th Hin Heq. assert (has_thread i ths = true); [| congruence].
    apply existsb_exists. exists th. split; [by apply list_elem_of_In | by apply bool_decide_eq_true_2].
  - destruct (ths !! j) as [[i p |] |] eqn:Hj; try done. destruct (tasks s !! i) as [t |] eqn:Ht; [| done].
    destruct (abort_requested t) eqn:Ha; [| done]. destruct (completed t) eqn:Hc; [done |]. cbn. intros [= <- <-].
    pose proof (accept_abort config w j i p t) as Hstep. rewrite Hw in Hstep. by apply Hstep.
Qed.

Lemma conn_act_sound w i f l w' :
  (forall c l v c', f c = Some (l, v, c') -> conn_step config (runtime w) c l v c') ->
  conn_act config w i f = Some (l, w') -> accept_step config w l w'.
Proof.
  intros Hf. unfold conn_act. destruct (connections w !! i) as [c |] eqn:Hl; [| done]. cbn.
  destruct (c_aborted c) eqn:Ha; [done |]. destruct (f c) as [[[l0 v] c'] |] eqn:He; [| done]. cbn. intros [= <- <-].
  apply (accept_conn config w i c l0 v c' Hl Ha). by apply Hf.
Qed.

Lemma accept_act_sound w x l w' : accept_act config w x = Some (l, w') -> accept_step config w l w'.
Proof.
  destruct x as [x | sender | | | i e | i | i]; cbn [accept_act].
  - apply run_act_sound.
  - destruct (can_arrive w sender) eqn:Hc; [| done]. intros [= <- <-]. by apply arrive_step.
  - destruct (accept w) eqn:Ha; try done. destruct (backlog w) as [| sender rest] eqn:Hb; [done |]. intros [= <- <-].
    by apply accept_accepted.
  - destruct (accept w) eqn:Ha; try done. intros [= <- <-]. by apply accept_register.
  - apply conn_act_sound. unfold receives. intros c l0 v c'. destruct (c_phase c) eqn:Hp; try done. intros [= <- <- <-].
    destruct (runtime w). by apply conn_recv.
  - apply conn_act_sound. unfold returns. intros c l0 v c'. destruct (c_phase c) as [| j | j |] eqn:Hp; try done;
      destruct (threads (runtime w) !! j) as [[| [u |]] |] eqn:Hj; try done; intros [= <- <- <-].
    + by eapply conn_dispatched.
    + by eapply conn_closed.
  - apply conn_act_sound. unfold ends. intros c l0 v c'. destruct (c_phase c) eqn:Hp; try done. intros [= <- <- <-].
    destruct (runtime w). by apply conn_end.
Qed.

Lemma accept_run_sound w tr l w' tr' :
  accept_execution config w tr -> accept_run config w tr l = Some (w', tr') -> accept_execution config w' tr'.
Proof.
  revert w tr. induction l as [| x l IH]; cbn; intros w tr Hw; [by intros [= <- <-] |].
  destruct (accept_act config w x) as [[lab w1] |] eqn:Ha; [| done]. cbn. apply IH.
  eapply accept_next; [done | by eapply accept_act_sound].
Qed.
End sound.

(** A script of the runtime, with what it dispatches received by connection [i]. *)
Definition via (i : ConnId) (x : action) : accept_action := if x is AInbound e _ then AReceive i e else ARun x.

Definition accepting : list accept_action := [AAccept; ARegister].

(** ** Properties *)

(** C17: the accept task and the connection tasks run the Server the way its other
    theorems assume.  In every execution, with any number of connections, ends of
    streams, shutdowns and aborts, the steps of the Server are an execution of the
    runtime of [RuntimeTrace], in which everything that is dispatched was received
    by a connection task and is dispatched with the sender of its connection; for
    each connection exactly the envelopes its task received are dispatched, in
    order and once each, and none before the dispatch of the one before it has
    returned. *)
Theorem accept_refines_runtime (config : ServerConfig) (w : accept_world) (tr : trace)
    (Hrun : accept_execution config w tr) :
  execution config (runtime w) tr /\
  (forall c, c ∈ connections w ->
     orderly config (c_sender c) (runtime w) tr /\ (entered_by (c_sender c) tr).*2 = c_received c) /\
  (forall j e reply, (j, Entered e reply) ∈ tr -> exists c, c ∈ connections w /\ reply = Some (c_sender c)).
Proof.
  pose proof (accept_account config w tr Hrun) as Hac. split_and!.
  - eapply orderly_execution. apply (ac_orderly _ _ _ Hac 0%N).
  - intros c Hc. split; [apply (ac_orderly _ _ _ Hac) | by apply (ac_received _ _ _ Hac)].
  - apply (ac_entered _ _ _ Hac).
Qed.

(** A Client connects, opens a Session and sends an Action. *)
Definition action_envelope : Envelope := envelope_action lobby demo_session "one".

Definition accept_script : list accept_action :=
  [AArrive 7%N] ++ accepting ++ map (via 0) open_script ++ [AReturn 0; AReceive 0 action_envelope] ++ map (via 0) (steps 2 5).

Definition two_received (wt : accept_world * trace) : bool :=
  match connections wt.1 with
  | [c] => bool_decide (length (c_received c) = 2) && bool_decide (last (c_received c) = Some action_envelope)
  | _ => false
  end.

Lemma accept_refines_runtime_witness :
  exists w tr c, accept_execution demo_config w tr /\ c ∈ connections w /\ last (c_received c) = Some action_envelope /\
    length (entered_by (c_sender c) tr) = 2 /\ orderly demo_config (c_sender c) (runtime w) tr.
Proof.
  assert (Hrun : from_option two_received false (accept_run demo_config (initial_accept demo_config) [] accept_script) = true)
    by (vm_compute; reflexivity).
  destruct (accept_run _ _ _ _) as [[w tr] |] eqn:Hw; [| discriminate].
  apply (accept_run_sound demo_config _ _ _ _ _ (accept_begin demo_config)) in Hw.
  cbn in Hrun. unfold two_received in Hrun. cbn [fst] in Hrun. destruct (connections w) as [| c []] eqn:Hc; try discriminate.
  apply andb_true_iff in Hrun as [Hlen%bool_decide_eq_true Hlast%bool_decide_eq_true].
  assert (Hin : c ∈ connections w) by (rewrite Hc; constructor).
  destruct (proj1 (proj2 (accept_refines_runtime demo_config w tr Hw)) c Hin) as [Ho He].
  exists w, tr, c. rewrite <- He, length_fmap in Hlen. split_and!; [exact Hw | | exact Hlast | exact Hlen | exact Ho].
  rewrite Hc. constructor.
Defined.
