(* ===== verification/Client.v ===== *)
(** * The Client runtime: state, effects and procedures

    Models [coactor/src/client/mod.rs] and the sending half of
    [coactor/src/client/session.rs].  The shared state ([ClientInner], the
    connections and the channels it hands out) is [ClientState]; every critical
    section of a lock, every atomic access and every call of code outside the
    Client (the Coordination Store, the Placement Strategy, the transport) is one
    effect of [clientE]; [ClientStep] says what an effect does to the state.  The
    procedures follow the source call by call.  Instants are nanoseconds in [Z]. *)

From S2P Require Import Prelude Text Address Coordination Placement Transport Session.
From S2P Require Runtime.

(** ** Configuration *)
Definition SESSION_RECEIVER_CAPACITY : nat := 64.
Definition PLACEMENT_CACHE_TTL : Z := 3000000000.

Record ClientConfig := MkClientConfig {
  open_timeout : Z;
  transport_connect_timeout : Z;
  max_open_attempts : nat;
  max_connections_per_endpoint : nat
}.

(** [Client::builder], with its defaults. *)
Definition client_builder : ClientConfig := MkClientConfig 3000000000 3000000000 3 4.

Inductive ClientBuildError :=
| InvalidOpenTimeout
| InvalidTransportConnectTimeout
| InvalidMaxOpenAttempts
| InvalidMaxConnectionsPerEndpoint.

(** [ClientBuilder::build] *)
Definition client_build (b : ClientConfig) : result ClientBuildError ClientConfig :=
  if (open_timeout b =? 0)%Z then Err InvalidOpenTimeout
  else if (transport_connect_timeout b =? 0)%Z then Err InvalidTransportConnectTimeout
  else if (max_open_attempts b =? 0)%nat then Err InvalidMaxOpenAttempts
  else if (max_connections_per_endpoint b =? 0)%nat then Err InvalidMaxConnectionsPerEndpoint
  else Ok b.

(** ** State *)
Abbreviation ConnRef := nat (only parsing).     (* an [Arc<TransportConnection>] *)
Abbreviation PoolRef := nat (only parsing).     (* an [Arc<ConnectionPool>] *)
Abbreviation ChannelId := N (only parsing).     (* the event channel of a Session *)
Abbreviation AckId := nat (only parsing).       (* the oneshot of a pending open *)
Abbreviation AckState := Runtime.OneshotState (only parsing).

Record TransportConnection := MkConnection {
  conn_id : Z;
  conn_endpoint : string;
  conn_sender : SenderId;
  conn_sessions : gset SessionId;
  bound_sessions : Z;
  conn_closed : bool
}.

Record PendingOpen := MkPendingOpen {
  connection_id : Z;
  complete : AckId
}.

(** A [ConnectionPool]: its connections, and whether its mutex is held. *)
Record ConnectionPool := MkPool {
  pool_connections : list ConnRef;
  pool_locked : bool
}.

(** The event channel of a Session. *)
Abbreviation Event := (result SendError string).

(** A receive-loop task: its connection, and what its [AbortHandle] shows. *)
Record InboundTask := MkInboundTask {
  task_connection : ConnRef;
  task_finished : bool;
  task_aborted : bool
}.

Inductive ClientStatus := ClientRunning | ClientStopped.

#[export] Instance ClientStatus_eq_dec : EqDecision ClientStatus.
Proof. solve_decision. Defined.

Record ClientState := MkClient {
  receivers : Caller.CallerRegistry;
  channels : list (list Event);
  pools : gmap string PoolRef;
  pool_list : list ConnectionPool;
  connections : list TransportConnection;
  pending_opens : gmap SessionId PendingOpen;
  acks : list AckState;
  placement_cache : option (list PlacementCandidate * Z);
  next_connection_id : Z;
  inbound : list InboundTask;
  inbound_tasks : list nat;
  client_status : ClientStatus;
  sent : list (SenderId * Envelope);
  closed_senders : list SenderId
}.

(** [Client::from_parts] *)
Definition client_initial : ClientState :=
  MkClient ∅ [] ∅ [] [] ∅ [] None 1 [] [] ClientRunning [] [].

(** ** Effects *)
Inductive clientE : Type -> Type :=
| LoadClientStatus : clientE ClientStatus
| SwapStopped : clientE ClientStatus
| Now : clientE Z
| NewSessionId : clientE SessionId
| NewChannel : clientE ChannelId
(* the caller registry *)
| RegisterLocal (sid : SessionId) (ch : ChannelId) : clientE unit
| UnregisterLocal (sid : SessionId) : clientE unit
| Receiver (sid : SessionId) : clientE (option ChannelId)
| TerminateLocal (sid : SessionId) (error : SendError) : clientE unit
| ReceiverValues : clientE (list ChannelId)
| ClearReceivers : clientE unit
| ChannelSend (ch : ChannelId) (item : Event) : clientE unit
(* the Coordination Store, under the deadline of the call *)
| ReadActorOwner (deadline : Z) (a : ActorAddress)
    : clientE (timed (result CoordinationError (option VersionedActorOwnerRecord)))
| ReadNode (deadline : Z) (node_id : string) : clientE (timed (result CoordinationError (option NodeRecord)))
| ListNodes (deadline : Z) : clientE (timed (result CoordinationError (list NodeRecord)))
(* placement *)
| CacheGet : clientE (option (list PlacementCandidate * Z))
| CacheSet (candidates : list PlacementCandidate) (now : Z) : clientE unit
| Candidates (a : ActorAddress) (ctx : PlacementContext) : clientE (list string)
| OnPlacementFailed (endpoint : string) : clientE unit
(* pools *)
| GetPool (endpoint : string) : clientE PoolRef
| FindPool (endpoint : string) : clientE (option PoolRef)
| DrainPools : clientE (list PoolRef)
| LockPool (deadline : option Z) (p : PoolRef) : clientE (timed unit)
| UnlockPool (p : PoolRef) : clientE unit
| RetainOpen (p : PoolRef) : clientE nat
| PushConnection (p : PoolRef) (c : ConnRef) : clientE unit
| MinConnection (p : PoolRef) : clientE (option ConnRef)
| RemoveConnection (p : PoolRef) (c : ConnRef) : clientE unit
| PoolDrain (p : PoolRef) : clientE (list ConnRef)
(* connections *)
| Connect (deadline : Z) (endpoint : string) : clientE (timed (result TransportError SenderId))
| NewConnection (endpoint : string) (sender : SenderId) : clientE ConnRef
| BindInsert (c : ConnRef) (sid : SessionId) : clientE bool
| BoundAdd (c : ConnRef) : clientE unit
| UnbindRemove (c : ConnRef) (sid : SessionId) : clientE bool
| BoundSub (c : ConnRef) : clientE unit
| HasSession (c : ConnRef) (sid : SessionId) : clientE bool
| DrainSessions (c : ConnRef) : clientE (list SessionId)
| BoundClear (c : ConnRef) : clientE unit
| LoadClosed (c : ConnRef) : clientE bool
| StoreClosed (c : ConnRef) : clientE unit
| SwapClosed (c : ConnRef) : clientE bool
| SenderTrySend (c : ConnRef) (e : Envelope) : clientE (result TransportError unit)
| SenderClose (c : ConnRef) : clientE unit
| RecvEnvelope (c : ConnRef) : clientE (option Envelope)
(* pending opens *)
| NewAck : clientE AckId
| InsertPending (sid : SessionId) (c : ConnRef) (o : AckId) : clientE unit
| RemovePending (sid : SessionId) : clientE unit
| TakePending (sid : SessionId) (c : ConnRef) : clientE (option AckId)
| ClearPending : clientE unit
| CompleteAck (o : AckId) (r : result SendError unit) : clientE unit
| AwaitAck (deadline : Z) (o : AckId) : clientE (timed (option (result SendError unit)))
(* receive-loop tasks *)
| SpawnReceive (c : ConnRef) : clientE nat
| FinishReceive (c : ConnRef) : clientE unit
| RetainInbound : clientE unit
| PushInbound (t : nat) : clientE unit
| AbortInbound : clientE unit.

(** ** Connections *)

(** [TransportConnection::bind], [unbind], [try_send], [close] *)
Definition bind (c : ConnRef) (sid : SessionId) : proc clientE unit :=
  call! inserted := BindInsert c sid;
  if (inserted : bool) then (exec! BoundAdd c; Ret ()) else Ret ().

Definition unbind (c : ConnRef) (sid : SessionId) : proc clientE unit :=
  call! removed := UnbindRemove c sid;
  if (removed : bool) then (exec! BoundSub c; Ret ()) else Ret ().

Definition connection_try_send (c : ConnRef) (e : Envelope) : proc clientE (result SendError unit) :=
  call! closed := LoadClosed c;
  if (closed : bool) then Ret (Err RemoteUnavailable)
  else call! r := SenderTrySend c e;
       Ret (map_err (fun _ => RemoteUnavailable) r).

Definition connection_close (c : ConnRef) : proc clientE unit :=
  call! closed := SwapClosed c;
  if (closed : bool) then Ret () else (exec! SenderClose c; Ret ()).

(** ** Ownership resolution and Placement *)

(** [ClientInner::timeout_at] *)
Definition timeout_at {A} (r : timed (result CoordinationError A)) (error : SendError) : result SendError A :=
  match r with
  | Elapsed => Err error
  | Ready (Err _) => Err error
  | Ready (Ok x) => Ok x
  end.

Inductive OwnerResolution :=
| Live (endpoint node_id session_id : string)
| Unowned.

Definition resolve_owner (a : ActorAddress) (deadline : Z) : proc clientE (result SendError OwnerResolution) :=
  call! r := ReadActorOwner deadline a;
  match timeout_at r OwnershipUnavailable with
  | Err e => Ret (Err e)
  | Ok None => Ret (Ok Unowned)
  | Ok (Some current) =>
      match owner (record current) with
      | None => Ret (Ok Unowned)
      | Some owner =>
          call! r := ReadNode deadline (owner_node_id owner);
          match timeout_at r DirectoryUnavailable with
          | Err e => Ret (Err e)
          | Ok None => Ret (Ok Unowned)
          | Ok (Some node) =>
              if negb (bool_decide (Coordination.session_id node = owner_session_id owner)) then Ret (Ok Unowned)
              else if negb (Coordination.protocol_version node =? TRANSPORT_PROTOCOL_VERSION)%Z
                      || trim_is_empty (advertised_endpoint node)
              then Ret (Err RemoteUnavailable)
              else Ret (Ok (Live (advertised_endpoint node) (owner_node_id owner) (owner_session_id owner)))
          end
      end
  end.

(** The filter of [placement_candidates], and its [map]. *)
Definition placement_eligible (node : NodeRecord) : bool :=
  (Coordination.protocol_version node =? TRANSPORT_PROTOCOL_VERSION)%Z
  && negb (trim_is_empty (advertised_endpoint node))
  && negb (pressured node) && negb (draining node)
  && (Coordination.active_actor_count node <? Coordination.max_actor_count node)%Z.

Definition placement_candidate (node : NodeRecord) : PlacementCandidate :=
  MkCandidate (advertised_endpoint node) (Coordination.active_actor_count node) (Coordination.max_actor_count node).

Definition eligible_candidates (nodes : list NodeRecord) : list PlacementCandidate :=
  placement_candidate <$> filter (fun node => placement_eligible node = true) nodes.

Section client.
Context (config : ClientConfig).

Definition placement_candidates (deadline : Z) : proc clientE (result SendError (list PlacementCandidate)) :=
  call! now := Now;
  call! cache := CacheGet;
  let fresh := match cache with
               | Some (candidates, fetched_at) =>
                   if (Z.max (now - fetched_at) 0 <? PLACEMENT_CACHE_TTL)%Z then Some candidates else None
               | None => None
               end in
  match fresh with
  | Some candidates => Ret (Ok candidates)
  | None =>
      call! r := ListNodes deadline;
      match timeout_at r DirectoryUnavailable with
      | Err e => Ret (Err e)
      | Ok nodes =>
          let candidates := eligible_candidates nodes in
          exec! CacheSet candidates now;
          Ret (Ok candidates)
      end
  end.

Definition select_placement_candidate (a : ActorAddress) (excluded : gset string) (deadline : Z)
    : proc clientE (result SendError string) :=
  bind! r := placement_candidates deadline;
  match r with
  | Err e => Ret (Err e)
  | Ok all =>
      match filter (fun c => endpoint c ∉ excluded) all with
      | [] => Ret (Err RuntimeAtCapacity)
      | candidates =>
          let valid : gset string := list_to_set (endpoint <$> candidates) in
          call! ordered := Candidates a candidates;
          Ret (match list_find (fun e => e ∈ valid) ordered with
               | Some (_, e) => Ok e
               | None => Err RuntimeAtCapacity
               end)
      end
  end.

(** ** Connection pools *)

(** [spawn_receive_loop]: the task starts, its handle is registered. *)
Definition spawn_receive_loop (c : ConnRef) : proc clientE unit :=
  call! t := SpawnReceive c;
  exec! RetainInbound;
  exec! PushInbound t;
  Ret ().

Definition acquire_connection (endpoint : string) (sid : SessionId) (deadline : Z)
    : proc clientE (result SendError ConnRef) :=
  call! p := GetPool endpoint;
  call! locked := LockPool (Some deadline) p;
  match locked with
  | Elapsed => Ret (Err RemoteUnavailable)
  | Ready _ =>
      call! n := RetainOpen p;
      if (n <? max_connections_per_endpoint config)%nat then
        call! stream := Connect deadline endpoint;
        match stream with
        | Ready (Ok sender) =>
            call! c := NewConnection endpoint sender;
            exec! PushConnection p c;
            bind! _ := bind c sid;
            bind! _ := spawn_receive_loop c;
            exec! UnlockPool p;
            Ret (Ok c)
        | _ => exec! UnlockPool p; Ret (Err RemoteUnavailable)
        end
      else
        call! best := MinConnection p;
        match best with
        | None => exec! UnlockPool p; Ret (Err RemoteUnavailable)
        | Some c =>
            bind! _ := bind c sid;
            exec! UnlockPool p;
            Ret (Ok c)
        end
  end.

(** ** Opening a Session *)
Definition send_session_open (a : ActorAddress) (sid : SessionId) (c : ConnRef) (deadline : Z)
    : proc clientE (bool * result SendError unit) :=
  call! o := NewAck;
  exec! InsertPending sid c o;
  bind! r := connection_try_send c (envelope_session_open a sid);
  match r with
  | Err error => Ret (false, Err error)
  | Ok _ =>
      call! ack := AwaitAck deadline o;
      Ret (true, match ack with
                 | Ready (Some r) => r
                 | _ => Err RemoteUnavailable
                 end)
  end.

Record ClientSession := MkSession {
  session_address : ActorAddress;
  session_sid : SessionId;
  session_channel : ChannelId;
  session_connection : ConnRef
}.

(** The variables of the loop of [open]. *)
Record OpenLoop := MkOpenLoop {
  attempts : nat;
  excluded : gset string;
  failed_live_owner : option (string * string)
}.

Inductive loop_exit :=
| Break (r : result OpenError ClientSession)
| Continue (l : OpenLoop).

(** What the loop does with the error of a failed attempt. *)
Definition after_failure (error : SendError) (placement_attempt : bool) (endpoint : string)
    (live_owner : option (string * string)) (l : OpenLoop) : loop_exit :=
  let exhausted := (max_open_attempts config <=? attempts l)%nat in
  let exclude := MkOpenLoop (attempts l) ({[endpoint]} ∪ excluded l) (failed_live_owner l) in
  match error with
  | NotOwner => if exhausted then Break (Err AttemptsExhausted) else Continue l
  | RuntimeAtCapacity =>
      if placement_attempt
      then (if exhausted then Break (Err AttemptsExhausted) else Continue exclude)
      else Break (Err (open_error_from RuntimeAtCapacity))
  | RemoteUnavailable =>
      if exhausted then Break (Err AttemptsExhausted)
      else if placement_attempt then Continue exclude
      else Continue (MkOpenLoop (attempts l) (excluded l) live_owner)
  | terminal => Break (Err (open_error_from terminal))
  end.

Definition report_failed (placement_attempt : bool) (endpoint : string) : proc clientE unit :=
  if placement_attempt then (exec! OnPlacementFailed endpoint; Ret ()) else Ret ().

(** The part of the loop body that has chosen an endpoint. *)
Definition open_at (a : ActorAddress) (sid : SessionId) (ch : ChannelId) (deadline : Z)
    (endpoint : string) (placement_attempt : bool) (live_owner : option (string * string)) (l : OpenLoop)
    : proc clientE loop_exit :=
  bind! acquired := acquire_connection endpoint sid deadline;
  match acquired with
  | Err _ =>
      if placement_attempt then
        (exec! OnPlacementFailed endpoint;
         Ret (Continue (MkOpenLoop (attempts l) ({[endpoint]} ∪ excluded l) (failed_live_owner l))))
      else Ret (Continue (MkOpenLoop (attempts l) (excluded l) live_owner))
  | Ok c =>
      if (max_open_attempts config <=? attempts l)%nat then
        bind! _ := unbind c sid;
        bind! _ := report_failed placement_attempt endpoint;
        Ret (Break (Err AttemptsExhausted))
      else
        bind! r := send_session_open a sid c deadline;
        let '(was_sent, outcome) := r in
        let l := if was_sent : bool then MkOpenLoop (S (attempts l)) (excluded l) (failed_live_owner l) else l in
        match outcome with
        | Ok _ => Ret (Break (Ok (MkSession a sid ch c)))
        | Err error =>
            bind! _ := connection_try_send c (envelope_session_close a sid);
            bind! _ := unbind c sid;
            exec! RemovePending sid;
            bind! _ := report_failed placement_attempt endpoint;
            Ret (after_failure error placement_attempt endpoint live_owner l)
        end
  end.

(** One iteration of the loop of [open]. *)
Definition open_iteration (a : ActorAddress) (sid : SessionId) (ch : ChannelId) (deadline : Z) (l : OpenLoop)
    : proc clientE loop_exit :=
  bind! resolution := resolve_owner a deadline;
  match resolution with
  | Err e => Ret (Break (Err (open_error_from e)))
  | Ok (Live endpoint node_id session_id) =>
      if bool_decide (failed_live_owner l = Some (node_id, session_id))
      then Ret (Break (Err OpenRemoteUnavailable))
      else open_at a sid ch deadline endpoint false (Some (node_id, session_id)) l
  | Ok Unowned =>
      bind! selected := select_placement_candidate a (excluded l) deadline;
      match selected with
      | Err e => Ret (Break (Err (open_error_from e)))
      | Ok endpoint => open_at a sid ch deadline endpoint true None l
      end
  end.

(** The loop; [None] when [fuel] iterations were not enough. *)
Fixpoint open_loop (fuel : nat) (a : ActorAddress) (sid : SessionId) (ch : ChannelId) (deadline : Z) (l : OpenLoop)
    : proc clientE (option (result OpenError ClientSession)) :=
  match fuel with
  | O => Ret None
  | S fuel =>
      bind! next := open_iteration a sid ch deadline l;
      match next with
      | Break r => Ret (Some r)
      | Continue l => open_loop fuel a sid ch deadline l
      end
  end.

(** [Client::open] *)
Definition open (fuel : nat) (a : ActorAddress) : proc clientE (option (result OpenError ClientSession)) :=
  call! st := LoadClientStatus;
  if negb (bool_decide (st = ClientRunning)) then Ret (Some (Err OpenRuntimeStopped)) else
  call! now := Now;
  let deadline := (now + open_timeout config)%Z in
  call! sid := NewSessionId;
  call! ch := NewChannel;
  exec! RegisterLocal sid ch;
  bind! r := open_loop fuel a sid ch deadline (MkOpenLoop 0 ∅ None);
  match r with
  | Some (Err e) =>
      exec! RemovePending sid;
      exec! UnregisterLocal sid;
      Ret (Some (Err e))
  | _ => Ret r
  end.

End client.

(** ** The receive loop *)

(** The result an acknowledgement carries. *)
Definition ack_result (outcome : option ack_outcome) : result SendError unit :=
  match outcome with
  | Some (AckOk _) => Ok ()
  | Some (AckFailure failure) => Err (from_wire failure)
  | None => Err (RemoteProtocol MalformedMessage)
  end.

(** An event or an error goes to the Session's receiver if the Session is bound
    to the connection it arrived on. *)
Definition deliver (c : ConnRef) (sid : SessionId) (item : Event) : proc clientE unit :=
  call! bound := HasSession c sid;
  if (bound : bool) then
    call! receiver := Receiver sid;
    match receiver with
    | Some ch => exec! ChannelSend ch item; Ret ()
    | None => Ret ()
    end
  else Ret ().

(** [handle_envelope] *)
Definition handle_envelope (e : Envelope) (c : ConnRef) : proc clientE unit :=
  match env_kind e with
  | None => Ret ()
  | Some kind =>
      match session_id_from_bytes (env_session_id e) with
      | None => Ret ()
      | Some sid =>
          match kind with
          | KEvent payload => deliver c sid (Ok payload)
          | KSessionError failure => deliver c sid (Err (from_wire failure))
          | KSessionOpenedAck outcome =>
              call! pending := TakePending sid c;
              match pending with
              | Some o => exec! CompleteAck o (ack_result outcome); Ret ()
              | None => Ret ()
              end
          | _ => Ret ()
          end
      end
  end.

(** The end of the task for one of the Sessions that were bound. *)
Definition end_session (c : ConnRef) (sid : SessionId) : proc clientE unit :=
  call! pending := TakePending sid c;
  match pending with
  | Some o => exec! CompleteAck o (Err RemoteUnavailable); Ret ()
  | None => exec! TerminateLocal sid RemoteUnavailable; Ret ()
  end.

Fixpoint for_each {A} (f : A -> proc clientE unit) (l : list A) : proc clientE unit :=
  match l with
  | [] => Ret ()
  | x :: l => bind! _ := f x; for_each f l
  end.

(** What follows the [while] of the task: the connection is retired. *)
Definition retire_connection (c : ConnRef) (endpoint : string) : proc clientE unit :=
  exec! StoreClosed c;
  call! pool := FindPool endpoint;
  bind! _ := match pool with
             | Some p =>
                 exec! LockPool None p;
                 exec! RemoveConnection p c;
                 exec! UnlockPool p;
                 Ret ()
             | None => Ret ()
             end;
  call! session_ids := DrainSessions c;
  exec! BoundClear c;
  bind! _ := for_each (end_session c) session_ids;
  exec! RetainInbound;
  exec! FinishReceive c;
  Ret ().

(** The task; [fuel] bounds the envelopes it receives. *)
Fixpoint receive_loop (fuel : nat) (c : ConnRef) (endpoint : string) : proc clientE unit :=
  match fuel with
  | O => Ret ()
  | S fuel =>
      call! e := RecvEnvelope c;
      match e with
      | Some e => bind! _ := handle_envelope e c; receive_loop fuel c endpoint
      | None => retire_connection c endpoint
      end
  end.

(** ** Sessions, shutdown *)

(** [Session::send]; the Session outlives its Client if [alive] is [false]. *)
Definition session_send (alive : bool) (s : ClientSession) (msg : string) : proc clientE (result SendError unit) :=
  if negb alive then Ret (Err RuntimeStopped) else
  call! st := LoadClientStatus;
  if negb (bool_decide (st = ClientRunning)) then Ret (Err RuntimeStopped)
  else connection_try_send (session_connection s) (envelope_action (session_address s) (session_sid s) msg).

(** [impl Drop for Session] *)
Definition session_drop (s : ClientSession) : proc clientE unit :=
  exec! UnregisterLocal (session_sid s);
  bind! _ := unbind (session_connection s) (session_sid s);
  bind! _ := connection_try_send (session_connection s)
               (envelope_session_close (session_address s) (session_sid s));
  Ret ().

(** [CallerRegistry::terminate_all] *)
Definition caller_terminate_all (error : SendError) : proc clientE unit :=
  call! senders := ReceiverValues;
  exec! ClearReceivers;
  for_each (fun ch => exec! ChannelSend ch (Err error); Ret ()) senders.

(** [Client::shutdown] *)
Definition client_shutdown : proc clientE unit :=
  call! st := SwapStopped;
  match st with
  | ClientStopped => Ret ()
  | ClientRunning =>
      call! drained := DrainPools;
      bind! _ := for_each (fun p =>
        exec! LockPool None p;
        call! cs := PoolDrain p;
        bind! _ := for_each connection_close cs;
        exec! UnlockPool p;
        Ret ()) drained;
      exec! AbortInbound;
      exec! ClearPending;
      caller_terminate_all RuntimeStopped
  end.
