(* ===== verification/ClientStep.v ===== *)
(** * The Client runtime: what its effects do

    [client_step] executes one effect of [Client] on the shared state: the
    critical sections of [coactor/src/client/mod.rs] and
    [coactor/src/client/session.rs] as functions, and the replies of the
    environment as the hint of the step.  A [client_world] runs the procedures of
    the Client concurrently, one effect at a time. *)

From S2P Require Import Prelude Text Address Coordination Placement Transport Session Client.
From S2P Require Runtime.

(** ** What an effect does to the state *)
Definition update_connection (c : ConnRef) (f : TransportConnection -> TransportConnection)
    (s : ClientState) : ClientState :=
  MkClient (receivers s) (channels s) (pools s) (pool_list s) (alter f c (connections s)) (pending_opens s)
    (acks s) (placement_cache s) (next_connection_id s) (inbound s) (inbound_tasks s) (client_status s)
    (sent s) (closed_senders s).
Definition update_pool (p : PoolRef) (f : ConnectionPool -> ConnectionPool) (s : ClientState) : ClientState :=
  MkClient (receivers s) (channels s) (pools s) (alter f p (pool_list s)) (connections s) (pending_opens s)
    (acks s) (placement_cache s) (next_connection_id s) (inbound s) (inbound_tasks s) (client_status s)
    (sent s) (closed_senders s).
Definition with_pending (s : ClientState) x y : ClientState :=
  MkClient (receivers s) (channels s) (pools s) (pool_list s) (connections s) x y
    (placement_cache s) (next_connection_id s) (inbound s) (inbound_tasks s) (client_status s)
    (sent s) (closed_senders s).
Definition with_receivers (s : ClientState) x y : ClientState :=
  MkClient x y (pools s) (pool_list s) (connections s) (pending_opens s) (acks s)
    (placement_cache s) (next_connection_id s) (inbound s) (inbound_tasks s) (client_status s)
    (sent s) (closed_senders s).
Definition with_pools (s : ClientState) x y : ClientState :=
  MkClient (receivers s) (channels s) x y (connections s) (pending_opens s) (acks s)
    (placement_cache s) (next_connection_id s) (inbound s) (inbound_tasks s) (client_status s)
    (sent s) (closed_senders s).
Definition with_cache (s : ClientState) x : ClientState :=
  MkClient (receivers s) (channels s) (pools s) (pool_list s) (connections s) (pending_opens s) (acks s)
    x (next_connection_id s) (inbound s) (inbound_tasks s) (client_status s) (sent s) (closed_senders s).
Definition with_inbound (s : ClientState) x y : ClientState :=
  MkClient (receivers s) (channels s) (pools s) (pool_list s) (connections s) (pending_opens s) (acks s)
    (placement_cache s) (next_connection_id s) x y (client_status s) (sent s) (closed_senders s).
Definition stop_client (s : ClientState) : ClientState :=
  MkClient (receivers s) (channels s) (pools s) (pool_list s) (connections s) (pending_opens s) (acks s)
    (placement_cache s) (next_connection_id s) (inbound s) (inbound_tasks s) ClientStopped (sent s)
    (closed_senders s).
Definition with_sent (s : ClientState) x y : ClientState :=
  MkClient (receivers s) (channels s) (pools s) (pool_list s) (connections s) (pending_opens s) (acks s)
    (placement_cache s) (next_connection_id s) (inbound s) (inbound_tasks s) (client_status s) x y.

(** [fetch_add] and [fetch_sub] of an [AtomicUsize] wrap. *)
Definition wrapping_add (x y : Z) : Z := (x + y) mod (U64_MAX + 1).
Definition wrapping_sub (x y : Z) : Z := (x - y) mod (U64_MAX + 1).

Definition set_sessions (f : gset SessionId -> gset SessionId) (c : TransportConnection) : TransportConnection :=
  MkConnection (conn_id c) (conn_endpoint c) (conn_sender c) (f (conn_sessions c)) (bound_sessions c) (conn_closed c).
Definition set_bound (f : Z -> Z) (c : TransportConnection) : TransportConnection :=
  MkConnection (conn_id c) (conn_endpoint c) (conn_sender c) (conn_sessions c) (f (bound_sessions c)) (conn_closed c).
Definition set_closed (c : TransportConnection) : TransportConnection :=
  MkConnection (conn_id c) (conn_endpoint c) (conn_sender c) (conn_sessions c) (bound_sessions c) true.
Definition set_connections (f : list ConnRef -> list ConnRef) (p : ConnectionPool) : ConnectionPool :=
  MkPool (f (pool_connections p)) (pool_locked p).
Definition set_locked (b : bool) (p : ConnectionPool) : ConnectionPool := MkPool (pool_connections p) b.

Definition new_connection (endpoint : string) (sender : SenderId) (s : ClientState) : ConnRef * ClientState :=
  (length (connections s),
   MkClient (receivers s) (channels s) (pools s) (pool_list s)
     (connections s ++ [MkConnection (next_connection_id s) endpoint sender ∅ 0 false])
     (pending_opens s) (acks s) (placement_cache s) (wrapping_add (next_connection_id s) 1) (inbound s)
     (inbound_tasks s) (client_status s) (sent s) (closed_senders s)).

(** [ClientInner::pool] *)
Definition pool (endpoint : string) (s : ClientState) : PoolRef * ClientState :=
  match pools s !! endpoint with
  | Some p => (p, s)
  | None => let p := length (pool_list s) in
            (p, with_pools s (<[endpoint := p]> (pools s)) (pool_list s ++ [MkPool [] false]))
  end.

(** [Iterator::min_by_key]: the first of the least. *)
Fixpoint min_by_key {A} (key : A -> Z) (l : list A) : option A :=
  match l with
  | [] => None
  | x :: l => match min_by_key key l with
              | Some y => Some (if (key x <=? key y)%Z then x else y)
              | None => Some x
              end
  end.

Definition bound_of (s : ClientState) (c : ConnRef) : Z := from_option bound_sessions 0%Z (connections s !! c).
Definition is_closed (s : ClientState) (c : ConnRef) : bool := from_option conn_closed false (connections s !! c).

(** An acknowledgement channel resolves once; dropping its sender is [None]. *)
Definition resolve_ack (o : AckId) (x : AckState) (l : list AckState) : list AckState :=
  alter (fun st => match st with Runtime.Waiting => x | _ => st end) o l.
Definition drop_pending (p : option PendingOpen) (l : list AckState) : list AckState :=
  match p with
  | Some p => resolve_ack (complete p) Runtime.SenderDropped l
  | None => l
  end.

(** The guarded [remove] of [handle_envelope] and of the end of the task. *)
Definition take_pending (sid : SessionId) (c : ConnRef) (s : ClientState) : option AckId * ClientState :=
  match pending_opens s !! sid, connections s !! c with
  | Some p, Some conn =>
      if (connection_id p =? conn_id conn)%Z
      then (Some (complete p), with_pending s (delete sid (pending_opens s)) (acks s)) else (None, s)
  | _, _ => (None, s)
  end.

(** [try_send] on the bounded channel of a Session. *)
Definition channel_send (ch : ChannelId) (item : Event) (s : ClientState) : ClientState :=
  with_receivers s (receivers s)
    (alter (fun q => if (length q <? SESSION_RECEIVER_CAPACITY)%nat then q ++ [item] else q)
       (N.to_nat ch) (channels s)).

Definition terminate_local (sid : SessionId) (error : SendError) (s : ClientState) : ClientState :=
  let '(ch, r) := Caller.terminate (receivers s) sid in
  let s := with_receivers s r (channels s) in
  match ch with
  | Some ch => channel_send ch (Err error) s
  | None => s
  end.

(** What the environment decides in a step: a time, the reply of code outside
    the Client, or the order in which a hash map is drained. *)
Inductive client_hint :=
| CNone
| CElapsed
| CTime (t : Z)
| CSession (sid : SessionId)
| COwner (r : result CoordinationError (option VersionedActorOwnerRecord))
| CNode (r : result CoordinationError (option NodeRecord))
| CNodes (r : result CoordinationError (list NodeRecord))
| CCandidates (l : list string)
| CConnect (r : result TransportError SenderId)
| CEnvelope (e : option Envelope)
| CSent (r : result TransportError unit)
| CSessions (l : list SessionId)
| CPools (l : list PoolRef).

Definition client_step X (s : ClientState) (e : clientE X) (h : client_hint) : option (X * ClientState) :=
  match e in clientE X return option (X * ClientState) with
  | LoadClientStatus => Some (client_status s, s)
  | SwapStopped => Some (client_status s, stop_client s)
  | Now => match h with CTime t => Some (t, s) | _ => None end
  | NewSessionId => match h with CSession sid => Some (sid, s) | _ => None end
  | NewChannel => Some (N.of_nat (length (channels s)), with_receivers s (receivers s) (channels s ++ [[]]))
  | RegisterLocal sid ch => Some ((), with_receivers s (Caller.register_local (receivers s) sid ch) (channels s))
  | UnregisterLocal sid => Some ((), with_receivers s (Caller.unregister_local (receivers s) sid) (channels s))
  | Receiver sid => Some (Caller.receiver (receivers s) sid, s)
  | TerminateLocal sid error => Some ((), terminate_local sid error s)
  | ReceiverValues => Some (Caller.values (receivers s), s)
  | ClearReceivers => Some ((), with_receivers s (Caller.clear (receivers s)) (channels s))
  | ChannelSend ch item => Some ((), channel_send ch item s)
  | ReadActorOwner _ _ =>
      match h with COwner r => Some (Ready r, s) | CElapsed => Some (Elapsed, s) | _ => None end
  | ReadNode _ _ =>
      match h with CNode r => Some (Ready r, s) | CElapsed => Some (Elapsed, s) | _ => None end
  | ListNodes _ =>
      match h with CNodes r => Some (Ready r, s) | CElapsed => Some (Elapsed, s) | _ => None end
  | CacheGet => Some (placement_cache s, s)
  | CacheSet candidates now => Some ((), with_cache s (Some (candidates, now)))
  | Candidates _ _ => match h with CCandidates l => Some (l, s) | _ => None end
  | OnPlacementFailed _ => Some ((), s)
  | GetPool endpoint => Some (pool endpoint s)
  | FindPool endpoint => Some (pools s !! endpoint, s)
  | DrainPools =>
      match h with
      | CPools l => if bool_decide (NoDup l) && bool_decide (list_to_set l =@{gset nat} list_to_set (map_to_list (pools s)).*2)
                    then Some (l, with_pools s ∅ (pool_list s)) else None
      | _ => None
      end
  | LockPool deadline p =>
      match pool_list s !! p with
      | Some q => if pool_locked q
                  then match deadline, h with Some _, CElapsed => Some (Elapsed, s) | _, _ => None end
                  else Some (Ready (), update_pool p (set_locked true) s)
      | None => None
      end
  | UnlockPool p => Some ((), update_pool p (set_locked false) s)
  | RetainOpen p =>
      let keep := filter (fun c => is_closed s c = false) in
      Some (length (keep (from_option pool_connections [] (pool_list s !! p))),
            update_pool p (set_connections keep) s)
  | PushConnection p c => Some ((), update_pool p (set_connections (fun l => l ++ [c])) s)
  | MinConnection p => Some (min_by_key (bound_of s) (from_option pool_connections [] (pool_list s !! p)), s)
  | RemoveConnection p c =>
      let id_of c := conn_id <$> connections s !! c in
      Some ((), update_pool p (set_connections (filter (fun d => id_of d <> id_of c))) s)
  | PoolDrain p =>
      Some (from_option pool_connections [] (pool_list s !! p), update_pool p (set_connections (fun _ => [])) s)
  | Connect _ _ =>
      match h with CConnect r => Some (Ready r, s) | CElapsed => Some (Elapsed, s) | _ => None end
  | NewConnection endpoint sender => Some (new_connection endpoint sender s)
  | BindInsert c sid =>
      conn ← connections s !! c;
      Some (bool_decide (sid ∉ conn_sessions conn), update_connection c (set_sessions (union {[sid]})) s)
  | BoundAdd c => Some ((), update_connection c (set_bound (fun n => wrapping_add n 1)) s)
  | UnbindRemove c sid =>
      conn ← connections s !! c;
      Some (bool_decide (sid ∈ conn_sessions conn), update_connection c (set_sessions (.∖ {[sid]})) s)
  | BoundSub c => Some ((), update_connection c (set_bound (fun n => wrapping_sub n 1)) s)
  | HasSession c sid =>
      conn ← connections s !! c;
      Some (bool_decide (sid ∈ conn_sessions conn), s)
  | DrainSessions c =>
      conn ← connections s !! c;
      match h with
      | CSessions l => if bool_decide (NoDup l) && bool_decide (list_to_set l = conn_sessions conn)
                       then Some (l, update_connection c (set_sessions (fun _ => ∅)) s) else None
      | _ => None
      end
  | BoundClear c => Some ((), update_connection c (set_bound (fun _ => 0%Z)) s)
  | LoadClosed c => conn ← connections s !! c; Some (conn_closed conn, s)
  | StoreClosed c => Some ((), update_connection c set_closed s)
  | SwapClosed c => conn ← connections s !! c; Some (conn_closed conn, update_connection c set_closed s)
  | SenderTrySend c e =>
      conn ← connections s !! c;
      match h with
      | CSent (Ok _) => Some (Ok (), with_sent s (sent s ++ [(conn_sender conn, e)]) (closed_senders s))
      | CSent (Err error) => Some (Err error, s)
      | _ => None
      end
  | SenderClose c =>
      conn ← connections s !! c;
      Some ((), with_sent s (sent s) (closed_senders s ++ [conn_sender conn]))
  | RecvEnvelope _ => match h with CEnvelope e => Some (e, s) | _ => None end
  | NewAck => Some (length (acks s), with_pending s (pending_opens s) (acks s ++ [Runtime.Waiting]))
  | InsertPending sid c o =>
      conn ← connections s !! c;
      Some ((), with_pending s (<[sid := MkPendingOpen (conn_id conn) o]> (pending_opens s))
                  (drop_pending (pending_opens s !! sid) (acks s)))
  | RemovePending sid =>
      Some ((), with_pending s (delete sid (pending_opens s)) (drop_pending (pending_opens s !! sid) (acks s)))
  | TakePending sid c => Some (take_pending sid c s)
  | ClearPending =>
      Some ((), with_pending s ∅ (foldr (fun p => drop_pending (Some p.2)) (acks s) (map_to_list (pending_opens s))))
  | CompleteAck o r => Some ((), with_pending s (pending_opens s) (resolve_ack o (Runtime.Sent r) (acks s)))
  | AwaitAck _ o =>
      match acks s !! o with
      | Some (Runtime.Sent r) => Some (Ready (Some r), s)
      | Some Runtime.SenderDropped => Some (Ready None, s)
      | _ => match h with CElapsed => Some (Elapsed, s) | _ => None end
      end
  | SpawnReceive c =>
      Some (length (inbound s), with_inbound s (inbound s ++ [MkInboundTask c false false]) (inbound_tasks s))
  | FinishReceive c =>
      Some ((), with_inbound s
                  (fmap (fun t => if bool_decide (task_connection t = c)
                                  then MkInboundTask c true (task_aborted t) else t) (inbound s))
                  (inbound_tasks s))
  | RetainInbound =>
      let finished t := from_option task_finished true (inbound s !! t) in
      Some ((), with_inbound s (inbound s) (filter (fun t => finished t = false) (inbound_tasks s)))
  | PushInbound t => Some ((), with_inbound s (inbound s) (inbound_tasks s ++ [t]))
  | AbortInbound =>
      Some ((), with_inbound s
                  (foldr (fun t => alter (fun x => MkInboundTask (task_connection x) (task_finished x) true) t)
                     (inbound s) (inbound_tasks s)) [])
  end.

(** ** Concurrency

    The calls of the application and the receive loops of the connections run
    concurrently; the Sessions an application uses are those it was given by
    [open].  An aborted receive loop stops where its future is suspended: at a
    [recv] of its stream or before it has the mutex of the pool. *)
Inductive client_result :=
| COpened (r : option (result OpenError ClientSession))
| CReplied (r : result SendError unit)
| CDone.

Inductive client_thread :=
| CCaller (p : proc clientE client_result)
| CLoop (t : nat) (p : proc clientE client_result).

Definition client_proc (th : client_thread) : proc clientE client_result :=
  match th with
  | CCaller p => p
  | CLoop _ p => p
  end.

Definition client_continue (th : client_thread) (p : proc clientE client_result) : client_thread :=
  match th with
  | CCaller _ => CCaller p
  | CLoop t _ => CLoop t p
  end.

Record client_world := MkClientWorld {
  client : ClientState;
  client_threads : list client_thread
}.

Definition client_initial_world : client_world := MkClientWorld client_initial [].

(** [Session::recv], with an item in the channel; without one it waits, or ends
    when the sender is gone. *)
Definition session_recv (session : ClientSession) (s : ClientState) : option (Event * ClientState) :=
  let ch := N.to_nat (session_channel session) in
  match channels s !! ch with
  | Some (item :: rest) => Some (item, with_receivers s (receivers s) (<[ch := rest]> (channels s)))
  | _ => None
  end.

Definition returned_session (th : client_thread) : option ClientSession :=
  match th with
  | CCaller (Ret (COpened (Some (Ok session)))) => Some session
  | _ => None
  end.

(** A scheduler's choice. *)
Inductive client_action :=
| CStep (j : nat) (h : client_hint)
| COpen (fuel : nat) (a : ActorAddress)
| CSend (alive : bool) (s : ClientSession) (msg : string)
| CDrop (s : ClientSession)
| CShutdown
| CReceive (t : nat) (fuel : nat)
| CAbort (j : nat)
| CRecv (j : nat).                             (* on the Session that call [j] returned *)

Definition is_loop (t : nat) (th : client_thread) : bool :=
  match th with
  | CLoop t' _ => bool_decide (t = t')
  | CCaller _ => false
  end.

Definition done_after {A} (f : A -> client_result) (p : proc clientE A) : proc clientE client_result :=
  bind! x := p; Ret (f x).

Definition spawn_caller (w : client_world) (p : proc clientE client_result) : client_world :=
  MkClientWorld (client w) (client_threads w ++ [CCaller p]).

#[export] Instance ClientSession_eq_dec : EqDecision ClientSession.
Proof. solve_decision. Defined.

Definition returned (s : ClientSession) (th : client_thread) : bool :=
  match th with
  | CCaller (Ret (COpened (Some (Ok s')))) => bool_decide (s = s')
  | _ => false
  end.

Definition at_await (p : proc clientE client_result) : bool :=
  match p with
  | Call (RecvEnvelope _) _ | Call (LockPool _ _) _ => true
  | _ => false
  end.

Definition client_act (config : ClientConfig) (w : client_world) (x : client_action) : option client_world :=
  match x with
  | CStep j h =>
      match client_threads w !! j with
      | None => None
      | Some th =>
          match client_proc th with
          | Ret _ => None
          | Call e k =>
              match client_step _ (client w) e h with
              | None => None
              | Some (x, s) => Some (MkClientWorld s (<[j := client_continue th (k x)]> (client_threads w)))
              end
          end
      end
  | COpen fuel a => Some (spawn_caller w (done_after COpened (open config fuel a)))
  | CSend alive s msg =>
      if existsb (returned s) (client_threads w)
      then Some (spawn_caller w (done_after CReplied (session_send alive s msg))) else None
  | CDrop s =>
      if existsb (returned s) (client_threads w)
      then Some (spawn_caller w (done_after (fun _ => CDone) (session_drop s))) else None
  | CShutdown => Some (spawn_caller w (done_after (fun _ => CDone) client_shutdown))
  | CReceive t fuel =>
      match inbound (client w) !! t with
      | None => None
      | Some task =>
          match connections (client w) !! task_connection task with
          | None => None
          | Some conn =>
              if existsb (is_loop t) (client_threads w) then None
              else Some (MkClientWorld (client w)
                     (client_threads w ++
                      [CLoop t (done_after (fun _ => CDone)
                                  (receive_loop fuel (task_connection task) (conn_endpoint conn)))]))
          end
      end
  | CAbort j =>
      match client_threads w !! j with
      | Some (CLoop t p) =>
          match inbound (client w) !! t with
          | Some (MkInboundTask _ _ true) =>
              if at_await p
              then Some (MkClientWorld (client w) (<[j := CLoop t (Ret CDone)]> (client_threads w))) else None
          | _ => None
          end
      | _ => None
      end
  | CRecv j =>
      th ← client_threads w !! j;
      session ← returned_session th;
      r ← session_recv session (client w);
      Some (MkClientWorld r.2 (client_threads w))
  end.

Definition client_world_step (config : ClientConfig) (w w' : client_world) : Prop :=
  exists x, client_act config w x = Some w'.

Fixpoint client_run (config : ClientConfig) (w : client_world) (l : list client_action) : option client_world :=
  match l with
  | [] => Some w
  | x :: l => match client_act config w x with
              | Some w => client_run config w l
              | None => None
              end
  end.

Lemma client_run_sound config w l w' : client_run config w l = Some w' -> rtc (client_world_step config) w w'.
Proof.
  revert w. induction l as [| x l IH]; cbn; intros w Hr; [injection Hr as <-; apply rtc_refl |].
  destruct (client_act config w x) as [w1 |] eqn:Ha; [| done].
  eapply rtc_l; [by exists x | by apply IH].
Qed.
