(* ===== verification/ClientOpen.v ===== *)
(** * Opening a Session: discipline and termination of [Client::open]

    Monitors over the effects of [Client.open], and the theorems that hold for
    every reply of the Coordination Store, the Placement Strategy, the transport
    and the other tasks of the Client: where an open goes, what it cleans up,
    how often it tries, and that it ends. *)

From S2P Require Import Prelude Text Address Coordination Placement Transport Session Client.

(** ** What an open knows and owes *)

(** Where the calls since the last read of the owner record allow it to go. *)
Inductive target :=
| TUnknown
| TOwner (o : ActorOwner)
| TLive (endpoint node_id session_id : string)
| TUnowned
| TCandidates (ctx : list PlacementCandidate)
| TServed (node_id session_id : string)
| TPlaced.

Record open_ghost := MkOpenGhost {
  g_session : option SessionId;
  g_registered : bool;                         (* this open has registered it and not taken that back *)
  g_target : target;
  g_failed_live : option (string * string);   (* the live owner that failed last, [NotOwner] apart *)
  g_bound : option ConnRef;
  g_pending : bool;
  g_close_due : bool;                          (* a SessionOpen may need a SessionClose *)
  g_placed : option string;                    (* a placement whose failure is not reported *)
  g_failed : gset string;                      (* placements that failed, [NotOwner] apart *)
  g_last_ack : option (result SendError unit);
  g_sent : nat
}.

Definition open_ghost0 : open_ghost := MkOpenGhost None false TUnknown None None false false None ∅ None 0.

Definition not_owner (g : open_ghost) : bool := bool_decide (g_last_ack g = Some (Err NotOwner)).

(** The failed live owner, once the attempt on it is over. *)
Definition next_failed_live (g : open_ghost) : option (string * string) :=
  match g_target g with
  | TServed n s => if not_owner g then g_failed_live g else Some (n, s)
  | _ => g_failed_live g
  end.

Definition owner_target (x : timed (result CoordinationError (option VersionedActorOwnerRecord))) : target :=
  match x with
  | Ready (Ok None) => TUnowned
  | Ready (Ok (Some v)) => from_option TOwner TUnowned (owner (record v))
  | _ => TUnknown
  end.

Definition node_target (o : option ActorOwner) (x : timed (result CoordinationError (option NodeRecord))) : target :=
  match o, x with
  | _, Ready (Ok None) => TUnowned
  | Some o, Ready (Ok (Some node)) =>
      if bool_decide (session_id node = owner_session_id o)
      then if (Coordination.protocol_version node =? TRANSPORT_PROTOCOL_VERSION)%Z
              && negb (trim_is_empty (advertised_endpoint node))
           then TLive (advertised_endpoint node) (owner_node_id o) (owner_session_id o) else TUnknown
      else TUnowned
  | _, _ => TUnknown
  end.

(** What a call and its reply change. *)
Definition open_observe X (g : open_ghost) (e : clientE X) : X -> open_ghost :=
  let '(MkOpenGhost sid reg t fl b p d pl f ack n) := g in
  match e in clientE X return X -> open_ghost with
  | NewSessionId => fun x => MkOpenGhost (Some x) reg t fl b p d pl f ack n
  | RegisterLocal _ _ => fun _ => MkOpenGhost sid true t fl b p d pl f ack n
  | UnregisterLocal _ => fun _ => MkOpenGhost sid false t fl b p d pl f ack n
  | ReadActorOwner _ _ => fun x => MkOpenGhost sid reg (owner_target x) (next_failed_live g) b p d pl f ack n
  | ReadNode _ _ => fun x =>
      MkOpenGhost sid reg (node_target (match t with TOwner o => Some o | _ => None end) x) fl b p d pl f ack n
  | Candidates _ ctx => fun _ => MkOpenGhost sid reg (TCandidates ctx) fl b p d pl f ack n
  | GetPool endpoint => fun _ =>
      match t with
      | TCandidates _ => MkOpenGhost sid reg TPlaced fl b p d (Some endpoint) f None n
      | TLive _ nid s => MkOpenGhost sid reg (TServed nid s) fl b p d pl f None n
      | _ => MkOpenGhost sid reg t fl b p d pl f None n
      end
  | BindInsert c _ => fun _ => MkOpenGhost sid reg t fl (Some c) p d pl f ack n
  | UnbindRemove _ _ => fun _ => MkOpenGhost sid reg t fl None p d pl f ack n
  | InsertPending _ _ _ => fun _ => MkOpenGhost sid reg t fl b true true pl f ack n
  | RemovePending _ => fun _ => MkOpenGhost sid reg t fl b false d pl f ack n
  | LoadClosed _ => fun x => MkOpenGhost sid reg t fl b p (if x then false else d) pl f ack n
  | SenderTrySend _ e => fun x =>
      if bool_decide (env_kind e = Some KSessionOpen)
      then MkOpenGhost sid reg t fl b p d pl f ack (if is_ok x then S n else n)
      else MkOpenGhost sid reg t fl b p false pl f ack n
  | AwaitAck _ _ => fun x =>
      MkOpenGhost sid reg t fl b p d pl f (match x with Ready r => r | Elapsed => None end) n
  | OnPlacementFailed endpoint => fun _ =>
      MkOpenGhost sid reg t fl b p d None (if not_owner g then f else {[endpoint]} ∪ f) ack n
  | _ => fun _ => g
  end.

(** Symbolic execution of calls that are allowed outright. *)
Ltac sym := repeat (done || (split; [done | intros ? ? ->]; cbn)).

Section discipline.
Context (config : ClientConfig) (a : ActorAddress).

(** What the discipline demands of a call. *)
Definition open_allowed X (g : open_ghost) (e : clientE X) : Prop :=
  match e with
  | RegisterLocal sid _ => g_session g = Some sid
  | UnregisterLocal sid =>
      g_session g = Some sid /\ g_bound g = None /\ g_pending g = false /\ g_placed g = None
  | ReadActorOwner _ b =>
      b = a /\ g_registered g = true /\ g_bound g = None /\ g_pending g = false /\ g_placed g = None
  | ReadNode _ nid => exists o, g_target g = TOwner o /\ nid = owner_node_id o
  | Candidates b ctx =>
      b = a /\ g_target g = TUnowned /\ ctx <> [] /\ forall c, c ∈ ctx -> endpoint c ∉ g_failed g
  | GetPool e =>
      match g_target g with
      | TLive e' n s => e = e' /\ g_failed_live g <> Some (n, s)
      | TCandidates ctx => e ∈ endpoint <$> ctx
      | _ => False
      end
  | Connect _ e =>
      match g_target g with
      | TServed _ _ => g_placed g = None
      | TPlaced => g_placed g = Some e
      | _ => False
      end
  | BindInsert _ sid => g_session g = Some sid /\ g_bound g = None
  | UnbindRemove c sid => g_session g = Some sid /\ g_bound g = Some c /\ g_close_due g = false
  | InsertPending sid c _ => g_session g = Some sid /\ g_bound g = Some c /\ g_registered g = true
  | RemovePending sid => g_session g = Some sid
  | LoadClosed c => g_bound g = Some c
  | SenderTrySend c e =>
      g_bound g = Some c /\ exists sid, g_session g = Some sid /\
      (e = envelope_session_open a sid /\ g_pending g = true /\ g_sent g < max_open_attempts config \/
       e = envelope_session_close a sid)
  | OnPlacementFailed e => g_placed g = Some e /\ g_bound g = None
  | _ => True
  end.

Definition open_monitor : monitor clientE open_ghost :=
  Monitor clientE open_ghost open_allowed (fun X g e x g' => g' = open_observe X g e x).

(** What holds when [open] has returned. *)
Definition open_post (r : option (result OpenError ClientSession)) (g : open_ghost) : Prop :=
  g_sent g <= max_open_attempts config /\
  match r with
  | None => True
  | Some (Err _) =>
      g_registered g = false /\ g_bound g = None /\ g_pending g = false /\ g_close_due g = false /\
      g_placed g = None
  | Some (Ok s) =>
      session_address s = a /\ g_session g = Some (session_sid s) /\ g_registered g = true /\
      g_bound g = Some (session_connection s) /\ g_last_ack g = Some (Ok ()) /\ 0 < g_sent g
  end.

(** The head of the loop. *)
Record ready (sid : SessionId) (l : OpenLoop) (g : open_ghost) : Prop := MkReady {
  rd_session : g_session g = Some sid;
  rd_registered : g_registered g = true;
  rd_bound : g_bound g = None;
  rd_pending : g_pending g = false;
  rd_close : g_close_due g = false;
  rd_placed : g_placed g = None;
  rd_failed : g_failed g ⊆ excluded l;
  rd_sent : g_sent g = attempts l;
  rd_max : g_sent g <= max_open_attempts config;
  rd_live : next_failed_live g = failed_live_owner l
}.

(** *** The parts of an iteration *)
Lemma bind_wp c sid t fl d pl f ack n p :
  wp open_monitor (MkOpenGhost (Some sid) true t fl None p d pl f ack n) (bind c sid)
    (fun _ g => g = MkOpenGhost (Some sid) true t fl (Some c) p d pl f ack n).
Proof.
  unfold bind. cbn. split; [done |]. intros [] g ->; cbn; [| done]. split; [done |]. by intros [] g ->.
Qed.

Lemma unbind_wp c sid t fl pl f ack n p :
  wp open_monitor (MkOpenGhost (Some sid) true t fl (Some c) p false pl f ack n) (unbind c sid)
    (fun _ g => g = MkOpenGhost (Some sid) true t fl None p false pl f ack n).
Proof.
  unfold unbind. cbn. split; [done |]. intros [] g ->; cbn; [| done]. split; [done |]. by intros [] g ->.
Qed.

Lemma close_wp c sid t fl d pl f ack n p :
  wp open_monitor (MkOpenGhost (Some sid) true t fl (Some c) p d pl f ack n)
    (connection_try_send c (envelope_session_close a sid))
    (fun _ g => g = MkOpenGhost (Some sid) true t fl (Some c) p false pl f ack n).
Proof.
  unfold connection_try_send. cbn. split; [done |]. intros [] g ->; cbn; [done |].
  split; [naive_solver |]. by intros r g ->.
Qed.

Lemma spawn_wp c g : wp open_monitor g (spawn_receive_loop c) (fun _ g' => g' = g).
Proof. destruct g. cbn. sym. Qed.

Lemma resolve_owner_wp dl sid l g :
  ready sid l g ->
  wp open_monitor g (resolve_owner a dl)
    (fun r g' => exists t, g' = MkOpenGhost (Some sid) true t (failed_live_owner l) None false false None
                                  (g_failed g) (g_last_ack g) (attempts l) /\
       match r with
       | Ok Unowned => t = TUnowned
       | Ok (Live e n s) => t = TLive e n s
       | Err _ => True
       end).
Proof.
  intros [Hs Hr Hb Hp Hc Hpl Hf Hn Hm Hl]. unfold resolve_owner. destruct g. cbn in *. subst.
  split; [done |]. intros r g ->. rewrite Hl.
  destruct r as [| [[v |] |]]; cbn; [eauto | | eauto | eauto].
  destruct (owner (record v)) as [o |] eqn:Ho; cbn; rewrite ?Ho; [| eauto]. split; [eauto |]. intros r g ->.
  destruct r as [| [[node |] |]]; cbn; [eauto | | eauto | eauto].
  case_bool_decide; cbn; [| eauto]. destruct (_ =? _)%Z; cbn; [| eauto].
  destruct (trim_is_empty _); cbn; eauto.
Qed.

Lemma placement_candidates_wp dl g :
  wp open_monitor g (placement_candidates dl) (fun _ g' => g' = g).
Proof.
  unfold placement_candidates. destruct g. cbn. split; [done |]. intros now g ->. split; [done |].
  intros cache g ->. destruct (match cache with Some _ => _ | None => _ end); cbn; [done |].
  split; [done |]. intros r g ->. destruct r as [| []]; cbn; [done | | done]. split; [done |]. by intros [] g ->.
Qed.

Lemma select_wp dl ex sid fl f ack n :
  f ⊆ ex ->
  wp open_monitor (MkOpenGhost (Some sid) true TUnowned fl None false false None f ack n)
    (select_placement_candidate a ex dl)
    (fun r g' => exists t, g' = MkOpenGhost (Some sid) true t fl None false false None f ack n /\
       match r with
       | Ok e => exists ctx, t = TCandidates ctx /\ e ∈ endpoint <$> ctx
       | Err _ => True
       end).
Proof.
  intros Hex. unfold select_placement_candidate. apply wp_bind.
  eapply wp_mono; [| apply placement_candidates_wp]. intros r g ->. destruct r as [all |]; cbn; [| eauto].
  set (cs := filter _ all). assert (Hcs : forall c, c ∈ cs -> endpoint c ∉ f).
  { intros c [Hc _]%list_elem_of_filter. set_solver. }
  destruct cs as [| c0 cs]; [cbn; eauto |]. split; [done |]. intros ordered g ->.
  destruct (list_find _ ordered) as [[i e] |] eqn:Hfind; cbn; [| eauto].
  apply list_find_Some in Hfind as (_ & He & _). eexists. split; [done |]. eexists. split; [done |].
  change (e ∈ list_to_set (C := gset string) (endpoint <$> c0 :: cs)) in He. by apply elem_of_list_to_set in He.
Qed.

(** A chosen endpoint: what the ghost state knows before and after it is
    entered, whether it is a placement, and the live owner that serves it. *)
Inductive chosen (e : string) (fl : option (string * string))
    : target -> bool -> option (string * string) -> target -> option string -> Prop :=
| chosen_live n s : fl <> Some (n, s) -> chosen e fl (TLive e n s) false (Some (n, s)) (TServed n s) None
| chosen_placed ctx : e ∈ endpoint <$> ctx -> chosen e fl (TCandidates ctx) true None TPlaced (Some e).

Lemma acquire_wp dl sid e t t' fl pa lo pl f ack n :
  chosen e fl t pa lo t' pl ->
  wp open_monitor (MkOpenGhost (Some sid) true t fl None false false None f ack n)
    (acquire_connection config e sid dl)
    (fun r g' => g' = MkOpenGhost (Some sid) true t' fl (match r with Ok c => Some c | Err _ => None end)
                        false false pl f None n).
Proof.
  intros Hch. unfold acquire_connection. split; [by destruct Hch |]. intros p g ->.
  replace (open_observe _ _ _ _) with (MkOpenGhost (Some sid) true t' fl None false false pl f None n)
    by (by destruct Hch).
  cbn. split; [done |]. intros [| []] g ->; [done |]. split; [done |]. intros k g ->.
  match goal with |- wp _ _ (if ?b then _ else _) _ => destruct b end; cbn.
  - split; [by destruct Hch |]. intros [| [sender |]] g ->; cbn;
      [split; [done |]; by intros [] g -> | | split; [done |]; by intros [] g ->].
    do 2 (split; [done |]; intros ? g ->). split; [done |]. intros [] g ->; cbn; sym.
  - split; [done |]. intros [c |] g ->; cbn; [| split; [done |]; by intros [] g ->].
    split; [done |]. intros [] g ->; cbn; sym.
Qed.

Lemma send_session_open_wp dl sid c t fl pl f n :
  n < max_open_attempts config ->
  wp open_monitor (MkOpenGhost (Some sid) true t fl (Some c) false false pl f None n)
    (send_session_open a sid c dl)
    (fun r g' => exists d ack, g' = MkOpenGhost (Some sid) true t fl (Some c) true d pl f ack
                                      (if r.1 : bool then S n else n) /\
       (r.2 = Ok () -> ack = Some (Ok ()) /\ r.1 = true) /\
       (r.2 = Err NotOwner <-> ack = Some (Err NotOwner))).
Proof.
  intros Hn. unfold send_session_open, connection_try_send. cbn. split; [done |]. intros o g ->.
  split; [done |]. intros [] g ->. split; [done |]. intros [] g ->; cbn; [naive_solver |].
  split; [naive_solver |]. intros [[] | e] g ->; cbn; [| naive_solver].
  split; [done |]. intros [| [r |]] g ->; cbn; [naive_solver | | naive_solver].
  do 2 eexists. split; [done |]. destruct r as [[] |]; naive_solver.
Qed.

(** *** The loop *)
Definition exit_post (sid : SessionId) (x : loop_exit) (g : open_ghost) : Prop :=
  g_sent g <= max_open_attempts config /\ g_session g = Some sid /\ g_registered g = true /\
  match x with
  | Continue l => ready sid l g
  | Break (Err _) => g_bound g = None /\ g_pending g = false /\ g_close_due g = false /\ g_placed g = None
  | Break (Ok s) =>
      session_address s = a /\ session_sid s = sid /\ g_bound g = Some (session_connection s) /\
      g_last_ack g = Some (Ok ()) /\ 0 < g_sent g
  end.

Lemma report_failed_wp sid t fl e pa pl f ack n :
  pl = (if pa : bool then Some e else None) ->
  wp open_monitor (MkOpenGhost (Some sid) true t fl None false false pl f ack n) (report_failed pa e)
    (fun _ g => g = MkOpenGhost (Some sid) true t fl None false false None
                      (if pa && negb (bool_decide (ack = Some (Err NotOwner))) then {[e]} ∪ f else f) ack n).
Proof.
  intros ->. unfold report_failed. destruct pa; [| done]. split; [done |]. intros [] g ->. cbn.
  unfold not_owner. cbn. by case_bool_decide.
Qed.

Lemma chosen_report e fl t pa lo t' pl : chosen e fl t pa lo t' pl -> pl = (if pa : bool then Some e else None).
Proof. by destruct 1. Qed.

(** What the loop keeps after a failed attempt is what the ghost state saw. *)
Lemma after_failure_ready sid e fl t pa lo t' pl f ack n l error :
  chosen e fl t pa lo t' pl -> f ⊆ excluded l -> n <= max_open_attempts config ->
  fl = failed_live_owner l -> n = attempts l -> (error = NotOwner <-> ack = Some (Err NotOwner)) ->
  exit_post sid (after_failure config error pa e lo l)
    (MkOpenGhost (Some sid) true t' fl None false false None
       (if pa && negb (bool_decide (ack = Some (Err NotOwner))) then {[e]} ∪ f else f) ack n).
Proof.
  intros Hch Hf Hn -> -> Hack. unfold exit_post, after_failure.
  destruct (max_open_attempts config <=? attempts l), error, Hch; cbn; split_and!; try done;
    (split; cbn; try done; unfold next_failed_live, not_owner; cbn; repeat case_bool_decide; try done;
     [set_solver || naive_solver ..]).
Qed.

Lemma open_at_wp dl sid ch l e t pa lo t' pl f ack :
  chosen e (failed_live_owner l) t pa lo t' pl -> f ⊆ excluded l -> attempts l <= max_open_attempts config ->
  wp open_monitor (MkOpenGhost (Some sid) true t (failed_live_owner l) None false false None f ack (attempts l))
    (open_at config a sid ch dl e pa lo l) (exit_post sid).
Proof.
  intros Hch Hf Hn. unfold open_at. apply wp_bind. eapply wp_mono; [| by eapply acquire_wp].
  intros [c |] g ->.
  - destruct (Nat.leb_spec (max_open_attempts config) (attempts l)).
    + apply wp_bind. eapply wp_mono; [| apply unbind_wp]. intros [] g ->.
      apply wp_bind. eapply wp_mono; [| apply report_failed_wp; by eapply chosen_report]. by intros [] g ->.
    + apply wp_bind. eapply wp_mono; [| by apply send_session_open_wp].
      intros [was_sent outcome] g (d & ack' & -> & Hok & Hno). cbn [fst snd] in *.
      destruct outcome as [[] | error].
      * destruct (Hok eq_refl) as [-> ->]. unfold exit_post. cbn. split_and!; done || lia.
      * apply wp_bind. eapply wp_mono; [| apply close_wp]. intros _ g ->.
        apply wp_bind. eapply wp_mono; [| apply unbind_wp]. intros [] g ->.
        split; [done |]. intros [] g ->. apply wp_bind.
        eapply wp_mono; [| apply report_failed_wp; by eapply chosen_report]. intros [] g ->.
        cbn. eapply after_failure_ready; try done; destruct was_sent; cbn; try done; try lia; naive_solver.
  - destruct Hch; cbn; [| split; [done |]; intros [] g ->]; unfold exit_post; cbn;
      (split_and!; try done); (split; cbn; try done; set_solver).
Qed.

Lemma open_iteration_wp dl sid ch l g :
  ready sid l g -> wp open_monitor g (open_iteration config a sid ch dl l) (exit_post sid).
Proof.
  intros Hr. unfold open_iteration. apply wp_bind. eapply wp_mono; [| by apply resolve_owner_wp].
  destruct Hr as [_ _ _ _ _ _ Hf Hn Hm _]. rewrite Hn in Hm.
  intros r g' (t & -> & Ht). destruct r as [[e n s |] |]; [| | by unfold exit_post].
  - subst t. case_bool_decide; [by unfold exit_post |]. eapply open_at_wp; [by constructor | done | done].
  - subst t. apply wp_bind. eapply wp_mono; [| by apply select_wp].
    intros r g' (t & -> & Ht). destruct r as [e |]; [| by unfold exit_post].
    destruct Ht as (ctx & -> & He). eapply open_at_wp; [by constructor | done | done].
Qed.

Lemma open_loop_wp fuel dl sid ch l g :
  ready sid l g ->
  wp open_monitor g (open_loop config fuel a sid ch dl l)
    (fun r g' => g_sent g' <= max_open_attempts config /\
                 match r with Some r => exit_post sid (Break r) g' | None => True end).
Proof.
  revert l g. induction fuel as [| fuel IH]; intros l g Hr; cbn [open_loop]; [by destruct Hr |].
  apply wp_bind. eapply wp_mono; [| by apply open_iteration_wp].
  intros [r | l'] g' Hx; cbn; [by split; [apply Hx |] | apply IH, Hx].
Qed.
End discipline.

(** ** Properties *)

(** C24: opening a Session goes only where the Coordination Store and the
    Placement Strategy allow, and cleans up after itself, whatever they reply:
    Placement is asked only when the owner record names no live owner, about
    candidates none of which is a Server this open was placed on and that failed
    it for another reason than NotOwner (a Server that answered NotOwner may be
    tried again); a connection is acquired only for the live owner just resolved,
    never for the owner incarnation that was the last to fail for another reason
    than NotOwner, or for a candidate of the placement just made; at most
    [max_open_attempts] SessionOpen messages are sent, each on the one connection
    this open has bound the Session to and with a pending acknowledgement; a failed
    attempt is closed and unbound before the owner is read again, and a failed
    placement is reported to the Strategy exactly once; on error this open leaves
    nothing pending, bound or registered; on success it has registered the Session
    and bound it to the connection it holds, has taken back neither, and the Server
    has acknowledged it.  (Whether another task removes the registration in the
    meantime is not this theorem's business: see [open_returns_unregistered_session].) *)
Theorem open_discipline (config : ClientConfig) (fuel : nat) (a : ActorAddress) :
  wp (open_monitor config a) open_ghost0 (open config fuel a) (open_post config a).
Proof.
  unfold open. split; [done |]. intros st g ->. case_bool_decide; cbn; [| unfold open_post; cbn; split_and!; done || lia].
  do 2 (split; [done |]; intros ? g ->; cbn). do 2 (split; [done |]; intros ? g ->; cbn).
  apply wp_bind. eapply wp_mono; [| by apply open_loop_wp; split; cbn; try done; lia].
  intros [[s | e] |] g [Hn Hx]; cbn in *; [| | done].
  - destruct Hx as (_ & Hs & Hr & Ha & Hsid & Hb & Hack & Hpos). subst. by unfold open_post.
  - destruct Hx as (_ & Hs & Hr & Hb & Hp & Hc & Hpl). destruct g. cbn in *. subst.
    split; [done |]. intros [] g ->. split; [done |]. intros [] g ->. by unfold open_post.
Qed.
