(* ===== verification/ClientEnds.v ===== *)
(** * Opening a Session ends

    A second monitor over [Client.open] counts what drives its retries: the
    SessionOpens it sent, the distinct endpoints it placed on, and how often the
    live owner it resolved changed.  Every iteration that does not end the loop
    uses up one of them. *)

From S2P Require Import Prelude Text Address Coordination Placement Transport Session Client ClientOpen.

Record progress := MkProgress {
  p_owner : option ActorOwner;                 (* the owner record just read *)
  p_placing : bool;
  p_sent : nat;                                (* SessionOpens sent *)
  p_placed : gset string;                      (* endpoints placed on *)
  p_last : option (string * string);           (* the live owner resolved last *)
  p_changes : nat                              (* how often it changed *)
}.

Definition progress0 : progress := MkProgress None false 0 ∅ None 0.

Definition progress_live (x : target) (last : option (string * string)) (changes : nat)
    : option (string * string) * nat :=
  match x with
  | TLive _ n s => if bool_decide (last = Some (n, s)) then (last, changes) else (Some (n, s), S changes)
  | _ => (last, changes)
  end.

Definition progress_observe X (g : progress) (e : clientE X) : X -> progress :=
  let '(MkProgress o pl n placed last ch) := g in
  match e in clientE X return X -> progress with
  | ReadActorOwner _ _ => fun x =>
      MkProgress (match owner_target x with TOwner o => Some o | _ => None end) false n placed last ch
  | ReadNode _ _ => fun x =>
      let '(last, ch) := progress_live (node_target o x) last ch in MkProgress o pl n placed last ch
  | Candidates _ _ => fun _ => MkProgress o true n placed last ch
  | GetPool e => fun _ => MkProgress o pl n (if pl then {[e]} ∪ placed else placed) last ch
  | SenderTrySend _ e => fun x =>
      MkProgress o pl (if bool_decide (env_kind e = Some KSessionOpen) && is_ok x then S n else n) placed last ch
  | _ => fun _ => g
  end.

Definition progress_monitor : monitor clientE progress :=
  Monitor clientE progress (fun _ _ _ => True) (fun X g e x g' => g' = progress_observe X g e x).

(** A live owner that was resolved and has not failed is one change not used. *)
Definition credit (resolved failed : option (string * string)) : nat :=
  if bool_decide (resolved = failed) then 0 else 1.

(** What an open has used up. *)
Definition spent (g : progress) : nat := p_sent g + size (p_placed g) + p_changes g.

Section ends.
Context (config : ClientConfig) (a : ActorAddress).

(** [k] iterations are paid for: by the attempts, the excluded endpoints, and
    [d] failures of live owners, each after a change of the live owner. *)
Record paid (k : nat) (l : OpenLoop) (g : progress) : Prop := MkPaid {
  pd_sent : p_sent g = attempts l;
  pd_max : attempts l <= max_open_attempts config;
  pd_excluded : excluded l ⊆ p_placed g;
  pd_count : exists d, k <= attempts l + size (excluded l) + d /\
    d + credit (p_last g) (failed_live_owner l) <= p_changes g
}.

Lemma paid_spent k l g : paid k l g -> k <= spent g /\ p_sent g <= max_open_attempts config.
Proof.
  intros [Hs Hm He (d & Hk & Hd)]. apply subseteq_size in He. unfold spent. lia.
Qed.

Lemma resolve_progress dl k l g :
  paid k l g ->
  wp progress_monitor g (resolve_owner a dl)
    (fun r g' => paid k l g' /\
       match r with
       | Ok (Live e n s) => p_last g' = Some (n, s) /\ p_placing g' = false
       | _ => True
       end).
Proof.
  intros [Hs Hm He Hc]. unfold resolve_owner. destruct g as [o pl sent placed last ch]. cbn in *.
  split; [done |]. intros r g ->.
  assert (Hp : forall o, paid k l (MkProgress o false sent placed last ch)) by (intros; by split).
  destruct r as [| [[v |] |]]; cbn; eauto. destruct (owner (record v)) as [o' |]; cbn; [| eauto].
  split; [done |]. intros r g ->. destruct r as [| [[node |] |]]; cbn; eauto.
  case_bool_decide; cbn; [| eauto]. destruct (_ =? _)%Z; cbn; [| eauto]. destruct (trim_is_empty _); cbn; [eauto |].
  case_bool_decide as Hlast; cbn; [by split; [apply Hp | subst] |]. split; [| done]. split; cbn; try done.
  destruct Hc as (d & Hk & Hd). exists d. split; [done |]. unfold credit in *. repeat case_bool_decide; lia.
Qed.

Lemma select_progress dl k l g :
  paid k l g ->
  wp progress_monitor g (select_placement_candidate a (excluded l) dl)
    (fun r g' => paid k l g' /\
       match r with Ok e => (e ∉ excluded l) /\ p_placing g' = true | Err _ => True end).
Proof.
  intros Hp. unfold select_placement_candidate. apply wp_bind.
  apply (wp_mono _ _ _ (fun _ g' => g' = g)).
  - intros r g' ->. destruct r as [all |]; cbn; [| done].
    set (cs := filter _ all). assert (Hcs : forall c, c ∈ cs -> endpoint c ∉ excluded l).
    { intros c [Hc _]%list_elem_of_filter. done. }
    destruct cs as [| c0 cs]; [done |]. split; [done |]. intros ordered g' ->.
    destruct g as [o pl sent placed last ch]. destruct Hp. cbn in *. split; [by split |].
    destruct (list_find _ ordered) as [[i e] |] eqn:Hfind; cbn; [| done].
    apply list_find_Some in Hfind as (_ & He & _).
    change (e ∈ list_to_set (C := gset string) (endpoint <$> c0 :: cs)) in He.
    apply elem_of_list_to_set, list_elem_of_fmap in He as (c & -> & Hc). split; [by apply Hcs | done].
  - unfold placement_candidates. destruct g. cbn. split; [done |]. intros now g ->. split; [done |].
    intros cache g ->. destruct (match cache with Some _ => _ | None => _ end); cbn; [done |].
    split; [done |]. intros r g ->. destruct r as [| []]; cbn; sym.
Qed.

(** Acquiring a connection uses up the endpoint of a placement, nothing else. *)
Definition entered (e : string) (g : progress) : progress :=
  MkProgress (p_owner g) (p_placing g) (p_sent g)
    (if p_placing g then {[e]} ∪ p_placed g else p_placed g) (p_last g) (p_changes g).

Lemma acquire_progress dl sid e g :
  wp progress_monitor g (acquire_connection config e sid dl) (fun _ g' => g' = entered e g).
Proof.
  unfold acquire_connection. destruct g as [o pl sent placed last ch]. split; [done |]. intros p g ->. unfold entered. cbn.
  split; [done |]. intros [| []] g ->; [done |]. split; [done |]. intros k g ->.
  match goal with |- wp _ _ (if ?b then _ else _) _ => destruct b end; cbn.
  - split; [done |]. intros [| [sender |]] g ->; cbn; [sym | | sym].
    do 2 (split; [done |]; intros ? g ->). split; [done |]. intros [] g ->; cbn; sym.
  - split; [done |]. intros [c |] g ->; cbn; [| sym]. split; [done |]. intros [] g ->; cbn; sym.
Qed.

Definition sent_more (n : nat) (g : progress) : progress :=
  MkProgress (p_owner g) (p_placing g) (n + p_sent g) (p_placed g) (p_last g) (p_changes g).

Lemma try_send_progress c e g :
  wp progress_monitor g (connection_try_send c e)
    (fun r g' => g' = sent_more (if bool_decide (env_kind e = Some KSessionOpen) && is_ok r then 1 else 0) g /\
                 forall error, r = Err error -> error = RemoteUnavailable).
Proof.
  unfold connection_try_send, sent_more. destruct g. cbn. split; [done |]. intros [] g ->; cbn.
  - rewrite andb_false_r. split; [done | naive_solver].
  - split; [done |]. intros r g ->. cbn. destruct r; cbn; (split; [| naive_solver]);
      by destruct (bool_decide _).
Qed.

Lemma send_session_open_progress dl sid c g :
  wp progress_monitor g (send_session_open a sid c dl)
    (fun r g' => g' = sent_more (if r.1 : bool then 1 else 0) g /\
                 (r.1 = false -> r.2 = Err RemoteUnavailable)).
Proof.
  unfold send_session_open. destruct g as [o pl sent placed last ch]. split; [done |]. intros ack g ->. split; [done |].
  intros [] g ->. apply wp_bind. eapply wp_mono; [| apply try_send_progress].
  intros [[] | e] g [-> He]; cbn.
  - split; [done |]. intros x g ->. cbn. by destruct x as [| []].
  - split; [done |]. intros _. by rewrite (He e eq_refl).
Qed.

Lemma unbind_progress c sid g : wp progress_monitor g (unbind c sid) (fun _ g' => g' = g).
Proof. unfold unbind. destruct g. cbn. split; [done |]. intros [] g ->; cbn; sym. Qed.

Lemma report_progress pa e g : wp progress_monitor g (report_failed pa e) (fun _ g' => g' = g).
Proof. unfold report_failed. destruct pa, g; cbn; sym. Qed.

(** An iteration that goes on has used something up. *)
Lemma after_failure_paid k error pa e lo l g :
  p_sent g = attempts l -> attempts l <= max_open_attempts config -> excluded l ⊆ p_placed g ->
  (pa = true -> e ∈ p_placed g /\ e ∉ excluded l) ->
  (pa = false -> p_last g = lo) ->
  (exists d, k <= attempts l + size (excluded l) + d /\ d + credit (p_last g) (failed_live_owner l) <= p_changes g) ->
  (pa = false -> lo <> failed_live_owner l) ->
  (error = NotOwner -> exists d, S k <= attempts l + size (excluded l) + d /\
                                 d + credit (p_last g) (failed_live_owner l) <= p_changes g) ->
  match after_failure config error pa e lo l with Continue l' => paid (S k) l' g | Break _ => True end.
Proof.
  intros Hs Hm He Hpa Hlast (d & Hk & Hd) Hlo Hno. unfold after_failure.
  assert (Hex : pa = true -> paid (S k) (MkOpenLoop (attempts l) ({[e]} ∪ excluded l) (failed_live_owner l)) g).
  { intros ->. destruct (Hpa eq_refl) as [Hin Hnin]. split; cbn; try done; [set_solver |].
    exists d. split; [| done]. rewrite size_union, size_singleton by set_solver. lia. }
  assert (Hli : pa = false -> paid (S k) (MkOpenLoop (attempts l) (excluded l) lo) g).
  { intros ->. specialize (Hlast eq_refl). specialize (Hlo eq_refl). split; cbn; try done.
    exists (S d). split; [lia |]. unfold credit in *. rewrite Hlast in *.
    rewrite bool_decide_eq_false_2 in Hd by done. rewrite bool_decide_eq_true_2 by done. lia. }
  destruct error; try done; destruct (max_open_attempts config <=? attempts l); try done;
    [by split; [.. | apply Hno] | | |]; destruct pa; auto.
Qed.

Lemma open_at_progress dl sid ch k l e pa lo g :
  paid k l g ->
  p_placing g = pa -> (pa = true -> e ∉ excluded l) ->
  (pa = false -> p_last g = lo /\ lo <> failed_live_owner l) ->
  wp progress_monitor g (open_at config a sid ch dl e pa lo l)
    (fun x g' => p_sent g' <= max_open_attempts config /\
                 match x with Continue l' => paid (S k) l' g' | Break _ => True end).
Proof.
  intros [Hs Hm He Hc] Hpa Hpl Hlo. unfold open_at. apply wp_bind.
  eapply wp_mono; [| apply acquire_progress]. intros r g' ->.
  set (g' := entered e g).
  assert (Hin : pa = true -> e ∈ p_placed g' /\ e ∉ excluded l).
  { intros Ht. split; [| by apply Hpl]. subst g'. unfold entered. cbn. rewrite Hpa, Ht. set_solver. }
  assert (He' : excluded l ⊆ p_placed g') by (subst g'; unfold entered; cbn; destruct (p_placing g); set_solver).
  assert (Hg' : p_sent g' = attempts l /\ p_last g' = p_last g /\ p_changes g' = p_changes g) by done.
  clearbody g'. destruct Hg' as (Hs' & Hl' & Hc').
  destruct r as [c |].
  - destruct (Nat.leb_spec (max_open_attempts config) (attempts l)).
    + apply wp_bind. eapply wp_mono; [| apply unbind_progress]. intros [] g1 ->.
      apply wp_bind. eapply wp_mono; [| apply report_progress]. intros [] g1 ->. cbn. split; [lia | done].
    + apply wp_bind. eapply wp_mono; [| apply send_session_open_progress].
      intros [was_sent outcome] g1 [-> Hunsent]. cbn [fst snd] in *.
      destruct outcome as [[] | error]; [cbn; destruct was_sent; cbn; split; [lia | done | lia | done] |].
      apply wp_bind. eapply wp_mono; [| apply try_send_progress]. intros r g1 [-> _]. cbn [env_kind envelope_session_close client_envelope].
      rewrite bool_decide_eq_false_2 by done. cbn [andb].
      apply wp_bind. eapply wp_mono; [| apply unbind_progress]. intros [] g1 ->.
      split; [done |]. intros [] g1 ->. apply wp_bind. eapply wp_mono; [| apply report_progress]. intros [] g1 ->.
      destruct Hc as (d & Hk & Hd). destruct g' as [o pl n placed last cg]. cbn in *. subst n last cg.
      destruct was_sent; cbn.
      * split; [lia |]. apply after_failure_paid; cbn;
          [lia | lia | done | done | intros Hf; by destruct (Hlo Hf) | exists d; split; [lia | done]
          | intros Hf; by destruct (Hlo Hf) | intros _; exists d; split; [lia | done]].
      * specialize (Hunsent eq_refl) as [= ->]. split; [lia |]. apply after_failure_paid; cbn;
          [lia | lia | done | done | intros Hf; by destruct (Hlo Hf) | exists d; split; [lia | done]
          | intros Hf; by destruct (Hlo Hf) | done].
  - destruct Hc as (d & Hk & Hd). destruct pa; cbn.
    + split; [done |]. intros [] g1 ->. destruct g' as [o pl n placed last cg]. cbn in *. subst.
      destruct (Hin eq_refl). split; [lia |]. split; cbn; try done; [set_solver |].
      exists d. split; [| done]. rewrite size_union, size_singleton by set_solver. lia.
    + destruct (Hlo eq_refl) as [Hlast Hne]. split; [lia |]. split; cbn; try done.
      exists (S d). split; [lia |]. unfold credit in *. rewrite Hl', Hlast, Hc' in *.
      rewrite bool_decide_eq_false_2 in Hd by done. rewrite bool_decide_eq_true_2 by done. lia.
Qed.

Lemma open_iteration_progress dl sid ch k l g :
  paid k l g ->
  wp progress_monitor g (open_iteration config a sid ch dl l)
    (fun x g' => p_sent g' <= max_open_attempts config /\
                 match x with Continue l' => paid (S k) l' g' | Break _ => True end).
Proof.
  intros Hp. unfold open_iteration. apply wp_bind. eapply wp_mono; [| by apply resolve_progress].
  intros r g' [Hp' Hr]. pose proof (proj2 (paid_spent _ _ _ Hp')). destruct r as [[e n s |] |]; [| | done].
  - case_bool_decide; [done |]. destruct Hr as [Hl Hpl]. by apply open_at_progress.
  - apply wp_bind. eapply wp_mono; [| by apply select_progress].
    intros r g1 [Hp1 Hr1]. pose proof (proj2 (paid_spent _ _ _ Hp1)). destruct r as [e |]; [| done].
    destruct Hr1. by apply open_at_progress.
Qed.

Lemma open_loop_progress fuel dl sid ch k l g :
  paid k l g ->
  wp progress_monitor g (open_loop config fuel a sid ch dl l)
    (fun r g' => p_sent g' <= max_open_attempts config /\ (r = None -> k + fuel <= spent g')).
Proof.
  revert k l g. induction fuel as [| fuel IH]; intros k l g Hp; cbn [open_loop].
  - destruct (paid_spent _ _ _ Hp). split; [done |]. lia.
  - apply wp_bind. eapply wp_mono; [| by apply open_iteration_progress].
    intros [r | l'] g' [Hn Hx]; cbn; [done |]. eapply wp_mono; [| by apply IH].
    intros r g1 [Hm Hr]. split; [done |]. intros ->. specialize (Hr eq_refl). lia.
Qed.
End ends.

(** ** Properties *)

(** C25: opening a Session ends: an open that is still retrying after [fuel]
    iterations has sent at most [max_open_attempts] SessionOpens, so the others
    went to as many distinct endpoints it placed on or were driven by as many
    changes of the live owner; with a fixed set of endpoints and a bounded number
    of owner changes the loop returns, however every call is answered and without
    help from its deadline. *)
Theorem open_ends (config : ClientConfig) (fuel : nat) (a : ActorAddress) :
  wp progress_monitor progress0 (open config fuel a)
    (fun r g => p_sent g <= max_open_attempts config /\
       (r = None -> fuel <= p_sent g + size (p_placed g) + p_changes g) /\
       forall (endpoints : gset string) (changes : nat),
         p_placed g ⊆ endpoints -> p_changes g <= changes ->
         max_open_attempts config + size endpoints + changes < fuel -> is_Some r).
Proof.
  unfold open. split; [done |]. intros st g ->. case_bool_decide; cbn; [| split_and!; [lia | done | eauto]].
  sym. apply wp_bind. eapply wp_mono; [| apply (open_loop_progress config a fuel _ _ _ 0)].
  - intros r g [Hn Hr]. assert (Hend : p_sent g <= max_open_attempts config /\
      (r = None -> fuel <= p_sent g + size (p_placed g) + p_changes g) /\
      forall (endpoints : gset string) (changes : nat),
         p_placed g ⊆ endpoints -> p_changes g <= changes ->
         max_open_attempts config + size endpoints + changes < fuel -> is_Some r).
    { split_and!; [done | apply Hr |]. intros es c Hes%subseteq_size Hc Hf. destruct r; [eauto |].
      specialize (Hr eq_refl). unfold spent in Hr. lia. }
    destruct r as [[s | e] |]; cbn; [done | | done]. destruct g. cbn. sym.
  - split; cbn; try done; [lia |]. exists 0. by split.
Qed.
