(* ===== verification/ClientErrors.v ===== *)
(** * The errors of [Client::open]

    Which of its replies makes an open fail, and with which [OpenError]: a
    monitor that keeps the last reply that mattered, the endpoints whose
    placement failed, the owners that were tried and the number of messages
    sent, and the error these determine. *)

From S2P Require Import Prelude Text Address Coordination Placement Transport Session Client.

(** ** What an open has learnt last *)
Inductive fact :=
| FNone
| FStatus (st : ClientStatus)
| FOwner (x : timed (result CoordinationError (option VersionedActorOwnerRecord)))
| FNode (o : ActorOwner) (x : timed (result CoordinationError (option NodeRecord)))
| FCached (l : list PlacementCandidate)
| FListed (x : timed (result CoordinationError (list NodeRecord)))
| FOrdered (ctx : list PlacementCandidate) (ordered : list string)
| FBound
| FAck (x : timed (option (result SendError unit))).

Record why := MkWhy {
  w_fact : fact;
  w_now : Z;
  w_live : option (string * string);     (* the live owner just read *)
  w_placed : bool;                       (* the attempt is a placement *)
  w_tried : list (string * string);      (* the owner incarnations that were tried *)
  w_reported : gset string;              (* the placements that were reported failed *)
  w_sent : nat                           (* the SessionOpen messages the transport took *)
}.

Definition why0 : why := MkWhy FNone 0 None false [] ∅ 0.

Definition with_fact (f : fact) (g : why) : why :=
  MkWhy f (w_now g) (w_live g) (w_placed g) (w_tried g) (w_reported g) (w_sent g).

(** The candidates of the cache, while they are fresh. *)
Definition fresh_candidates (now : Z) (cache : option (list PlacementCandidate * Z)) : option (list PlacementCandidate) :=
  match cache with
  | Some (candidates, fetched_at) =>
      if (Z.max (now - fetched_at) 0 <? PLACEMENT_CACHE_TTL)%Z then Some candidates else None
  | None => None
  end.

Definition owner_of (f : fact) : option ActorOwner :=
  match f with
  | FOwner (Ready (Ok (Some v))) => owner (record v)
  | _ => None
  end.

Definition why_next X (g : why) (e : clientE X) : X -> why :=
  let '(MkWhy f now live placed tried reported sent) := g in
  match e in clientE X return X -> why with
  | LoadClientStatus => fun x => with_fact (FStatus x) g
  | Now => fun x => MkWhy f x live placed tried reported sent
  | ReadActorOwner _ _ => fun x => MkWhy (FOwner x) now None false tried reported sent
  | ReadNode _ _ => fun x =>
      match owner_of f with
      | Some o => MkWhy (FNode o x) now (Some (owner_node_id o, owner_session_id o)) placed tried reported sent
      | None => g
      end
  | CacheGet => fun x =>
      match fresh_candidates now x with
      | Some l => with_fact (FCached l) g
      | None => g
      end
  | ListNodes _ => fun x => with_fact (FListed x) g
  | Candidates _ ctx => fun x => MkWhy (FOrdered ctx x) now None true tried reported sent
  | GetPool _ => fun _ => MkWhy f now live placed (option_list live ++ tried) reported sent
  | BindInsert _ _ => fun _ => with_fact FBound g
  | SenderTrySend _ e => fun x =>
      if bool_decide (env_kind e = Some KSessionOpen) && is_ok x
      then MkWhy f now live placed tried reported (S sent) else g
  | AwaitAck _ _ => fun x => with_fact (FAck x) g
  | OnPlacementFailed endpoint => fun _ => MkWhy f now live placed tried ({[endpoint]} ∪ reported) sent
  | _ => fun _ => g
  end.

Definition why_monitor : monitor clientE why :=
  Monitor clientE why (fun _ _ _ => True) (fun X g e x g' => g' = why_next X g e x).

Ltac why_call := eapply (call_wp (fun _ _ _ => True) why_next); [done | intros ?; cbn [why_next]].
Ltac why_step := split; [exact I |]; intros ? ? ->; cbn.

(** A call to the Coordination Store that brought nothing. *)
Definition failed {A} (x : timed (result CoordinationError A)) : Prop :=
  match x with
  | Ready (Ok _) => False
  | _ => True
  end.

(** The record of a node that serves Sessions of this protocol. *)
Definition serves (node : NodeRecord) : bool :=
  (Coordination.protocol_version node =? TRANSPORT_PROTOCOL_VERSION)%Z && negb (trim_is_empty (advertised_endpoint node)).

(** No acknowledgement in time, or a failure. *)
Definition ack_error (x : timed (option (result SendError unit))) : option SendError :=
  match x with
  | Ready (Some (Ok _)) => None
  | Ready (Some (Err error)) => Some error
  | _ => Some RemoteUnavailable
  end.

Section errors.
Context (config : ClientConfig).

(** The error a refused SessionOpen leads to, when it ends the open. *)
Definition refusal (g : why) (error : SendError) (e : OpenError) : Prop :=
  match error with
  | NotOwner | RemoteUnavailable => w_sent g = max_open_attempts config /\ e = AttemptsExhausted
  | RuntimeAtCapacity =>
      if w_placed g then w_sent g = max_open_attempts config /\ e = AttemptsExhausted
      else e = OpenRuntimeAtCapacity
  | error => e = open_error_from error
  end.

(** The error an open returns after what it has learnt. *)
Definition explains (g : why) (e : OpenError) : Prop :=
  match w_fact g with
  | FNone => False
  | FStatus st => st = ClientStopped /\ e = OpenRuntimeStopped
  | FOwner x => failed x /\ e = OpenOwnershipUnavailable
  | FNode o x =>
      failed x /\ e = OpenDirectoryUnavailable \/
      exists node, x = Ready (Ok (Some node)) /\ Coordination.session_id node = owner_session_id o /\
        e = OpenRemoteUnavailable /\ (serves node = false \/ (owner_node_id o, owner_session_id o) ∈ w_tried g)
  | FListed x =>
      failed x /\ e = OpenDirectoryUnavailable \/
      exists nodes, x = Ready (Ok nodes) /\ e = OpenRuntimeAtCapacity /\
        forall c, c ∈ eligible_candidates nodes -> endpoint c ∈ w_reported g
  | FCached l => e = OpenRuntimeAtCapacity /\ forall c, c ∈ l -> endpoint c ∈ w_reported g
  | FOrdered ctx ordered => e = OpenRuntimeAtCapacity /\ forall c, c ∈ ctx -> endpoint c ∉ ordered
  | FBound => w_sent g = max_open_attempts config /\ e = AttemptsExhausted
  | FAck x => exists error, ack_error x = Some error /\ refusal g error e
  end.

(** The head of the loop. *)
Record looping (l : OpenLoop) (g : why) : Prop := {
  lp_excluded : excluded l ⊆ w_reported g;
  lp_live x : failed_live_owner l = Some x -> x ∈ w_tried g;
  lp_sent : attempts l = w_sent g;
  lp_max : w_sent g <= max_open_attempts config
}.

Definition exit_explained (x : loop_exit) (g : why) : Prop :=
  match x with
  | Break (Ok _) => w_fact g = FAck (Ready (Some (Ok ())))
  | Break (Err e) => explains g e
  | Continue l => looping l g
  end.


(** ** The parts of an iteration *)

(** What an iteration keeps until it fails or succeeds. *)
Definition kept (l : OpenLoop) (live : option (string * string)) (pa : bool) (g : why) : Prop :=
  looping l g /\ w_live g = live /\ w_placed g = pa.

Lemma kept_fact l live pa f g : kept l live pa g -> kept l live pa (with_fact f g).
Proof. intros [[] []]. by repeat split. Qed.

Lemma resolve_owner_why a dl l g :
  looping l g ->
  wp why_monitor g (resolve_owner a dl) (fun r g' => looping l g' /\ w_placed g' = false /\
    match r with
    | Err e => explains g' (open_error_from e)
    | Ok (Live e n s) =>
        w_live g' = Some (n, s) /\ exists o node, w_fact g' = FNode o (Ready (Ok (Some node))) /\
          Coordination.session_id node = owner_session_id o /\ n = owner_node_id o /\ s = owner_session_id o
    | Ok Unowned => True
    end).
Proof.
  intros [He Hl Hs Hm]. unfold resolve_owner. destruct g as [f now live placed tried reported sent]. cbn in He, Hl, Hs, Hm.
  why_call. destruct x as [| [[v |] |]]; cbn; [by repeat split | | by repeat split..].
  destruct (owner (record v)) as [o |] eqn:Ho; [| by repeat split]. why_call. cbn. rewrite Ho.
  destruct x as [| [[node |] |]]; cbn; [split_and!; try done; by left | | by repeat split | split_and!; try done; by left].
  case_bool_decide; cbn; [| by repeat split].
  destruct (negb _ || trim_is_empty _) eqn:Hserves; cbn.
  - split_and!; try done. right. exists node. split_and!; try done. left. unfold serves.
    destruct (_ =? _)%Z; [| done]. cbn in Hserves |- *. by rewrite Hserves.
  - split_and!; try done. eauto 10.
Qed.

(** The candidates at hand, and where they come from. *)
Definition candidates_known (g : why) (l : list PlacementCandidate) : Prop :=
  w_fact g = FCached l \/ exists nodes, w_fact g = FListed (Ready (Ok nodes)) /\ l = eligible_candidates nodes.

Lemma placement_candidates_why dl l g :
  looping l g ->
  wp why_monitor g (placement_candidates dl) (fun r g' => looping l g' /\
    match r with
    | Err e => explains g' (open_error_from e)
    | Ok all => candidates_known g' all
    end).
Proof.
  intros [He Hl Hs Hm]. unfold placement_candidates. destruct g as [f now live placed tried reported sent].
  cbn in He, Hl, Hs, Hm. why_call. why_call. rename x into t, x0 into cache. fold (fresh_candidates t cache).
  cbn [w_fact w_now w_live w_placed w_tried w_reported w_sent with_fact].
  destruct (fresh_candidates t cache) as [all |]; [split; [by split | by left] |]. why_call.
  destruct x as [| [nodes |]]; cbn [timeout_at]; [split; [by split | by left] | | split; [by split | by left]].
  why_call. split; [by split |]. right. eauto.
Qed.

Lemma select_why a dl l g :
  looping l g ->
  wp why_monitor g (select_placement_candidate a (excluded l) dl) (fun r g' => looping l g' /\
    match r with
    | Err e => explains g' (open_error_from e)
    | Ok e => w_live g' = None /\ w_placed g' = true
    end).
Proof.
  intros Hl. unfold select_placement_candidate. apply wp_bind.
  eapply wp_mono; [| by apply placement_candidates_why]. intros [all | e] g' [Hl' Hk]; [| done].
  destruct (filter _ all) as [| c cs] eqn:Hfil.
  - split; [done |]. assert (Hall : forall c, c ∈ all -> endpoint c ∈ w_reported g').
    { intros c Hc. apply (lp_excluded _ _ Hl'). destruct (decide (endpoint c ∈ excluded l)) as [| Hn]; [done |].
      assert (Hin : c ∈ filter (fun c => endpoint c ∉ excluded l) all) by by apply list_elem_of_filter.
      rewrite Hfil in Hin. by apply elem_of_nil in Hin. }
    unfold explains. destruct Hk as [-> | (nodes & -> & ->)]; [done |]. right. eauto.
  - cbn zeta. destruct g', Hl'. why_call. destruct (list_find _ x) as [[i e] |] eqn:Hfind; [by split_and! |]. split; [by split |]. cbn. split; [done |].
    intros c' Hc' Hin. apply list_find_None in Hfind. rewrite Forall_forall in Hfind. apply (Hfind _ Hin).
    change (endpoint c' ∈ list_to_set (C := gset string) (endpoint <$> (c :: cs))). apply elem_of_list_to_set.
    by apply list_elem_of_fmap_2.
Qed.

Lemma acquire_why e sid dl l live pa g :
  kept l live pa g ->
  wp why_monitor g (acquire_connection config e sid dl) (fun r g' =>
    kept l live pa g' /\ (forall x, live = Some x -> x ∈ w_tried g') /\ (is_ok r = true -> w_fact g' = FBound)).
Proof.
  intros [[He Hl Hs Hm] [Hlive Hp]]. unfold acquire_connection. destruct g as [f now live' placed tried reported sent].
  cbn in He, Hl, Hs, Hm, Hlive, Hp. subst live' placed. why_call.
  assert (Hk : forall f', kept l live pa (MkWhy f' now live pa (option_list live ++ tried) reported sent)).
  { intros f'. split; [| done]. split; cbn; [done | | done | done]. intros y Hy. apply elem_of_app. right. by apply Hl. }
  assert (Ht : forall y, live = Some y -> y ∈ option_list live ++ tried) by (intros y ->; cbn; left).
  why_call. destruct x0 as [| []]; [by split; [apply Hk | split] |]. why_call. destruct (x0 <? _).
  - why_call. destruct x1 as [| [sender |]]; cbn.
    + why_step. by split; [apply Hk | split].
    + do 2 why_step. split; [exact I |]. intros [] g ->; cbn; repeat why_step; (split; [apply Hk | by split]).
    + why_step. by split; [apply Hk | split].
  - why_call. destruct x1 as [c |]; cbn.
    + split; [exact I |]. intros [] g ->; cbn; repeat why_step; (split; [apply Hk | by split]).
    + why_step. by split; [apply Hk | split].
Qed.

Definition sent_one (l : OpenLoop) : OpenLoop := MkOpenLoop (S (attempts l)) (excluded l) (failed_live_owner l).

Lemma send_session_open_why a sid c dl l live pa g :
  kept l live pa g -> attempts l < max_open_attempts config ->
  wp why_monitor g (send_session_open a sid c dl) (fun r g' =>
    kept (if r.1 : bool then sent_one l else l) live pa g' /\ w_tried g' = w_tried g /\
    if r.1 : bool
    then exists x, w_fact g' = FAck x /\ r.2 = match ack_error x with None => Ok () | Some error => Err error end
    else r.2 = Err RemoteUnavailable).
Proof.
  intros [[He Hl Hs Hm] [Hlive Hp]] Hlt. destruct g as [f now live' placed tried reported sent].
  cbn in He, Hl, Hs, Hm, Hlive, Hp. subst live' placed. unfold send_session_open, connection_try_send.
  do 2 why_step. split; [exact I |]. intros [] g ->; cbn; [by repeat split |].
  split; [exact I |]. intros [[] | error] g ->; cbn; [| by repeat split].
  rewrite bool_decide_eq_true_2 by done. cbn.
  why_step. split; [split; [split; cbn; [done | done | lia | lia] | done] |]. split; [done |]. eexists. split; [done |].
  match goal with x : timed (option _) |- _ => by destruct x as [| [[[] |] |]] end.
Qed.

(** What the loop makes of a failed attempt is what the account explains. *)
Lemma after_failure_explained error pa e lo l g :
  looping l g -> w_placed g = pa -> (if pa : bool then e ∈ w_reported g else forall x, lo = Some x -> x ∈ w_tried g) ->
  (error = RemoteUnavailable /\ attempts l < max_open_attempts config \/
   exists x, w_fact g = FAck x /\ ack_error x = Some error) ->
  exit_explained (after_failure config error pa e lo l) g.
Proof.
  intros [He Hl Hs Hm] Hp Hpa Hwhy. unfold after_failure.
  assert (Hx : forall e', error <> RemoteUnavailable \/ max_open_attempts config <= attempts l ->
    refusal g error e' -> explains g e').
  { intros e' Hne Hr. destruct Hwhy as [[-> Hlt] | (x & Hf & Ha)]; [destruct Hne; [done | lia] |].
    unfold explains. rewrite Hf. eauto. }
  assert (Hmax : max_open_attempts config <= attempts l -> w_sent g = max_open_attempts config) by lia.
  assert (Hexcl : pa = true -> looping (MkOpenLoop (attempts l) ({[e]} ∪ excluded l) (failed_live_owner l)) g).
  { intros ->. split; cbn; [set_solver | done..]. }
  destruct (Nat.leb_spec (max_open_attempts config) (attempts l)) as [Hge | Hlt];
    destruct error; try (apply Hx; [by left | done]); cbn.
  - apply Hx; [by right |]. cbn. auto.
  - destruct pa; cbn; apply Hx; cbn; rewrite ?Hp; auto.
  - apply Hx; [by right |]. cbn. auto.
  - done.
  - destruct pa; cbn; [by apply Hexcl |]. apply Hx; [by left |]. cbn. by rewrite Hp.
  - destruct pa; cbn; [by apply Hexcl |]. split; cbn; [done | | done | done]. by destruct lo.
Qed.

Lemma cleanup_why {A} (p : proc clientE A) g (Q : A -> why -> Prop) :
  wp why_monitor g p Q ->
  forall a sid c,
  wp why_monitor g (bind! _ := connection_try_send c (envelope_session_close a sid);
                    bind! _ := unbind c sid; exec! RemovePending sid; p) Q.
Proof.
  intros Hp a sid c. destruct g. unfold connection_try_send, unbind.
  split; [exact I |]. intros [] g ->; cbn.
  - split; [exact I |]. intros [] g ->; cbn; repeat why_step; exact Hp.
  - split; [exact I |]. intros r g ->; cbn. split; [exact I |]. intros [] g ->; cbn; repeat why_step; exact Hp.
Qed.

Lemma report_failed_why pa e l live g :
  kept l live pa g ->
  wp why_monitor g (report_failed pa e) (fun _ g' =>
    kept l live pa g' /\ w_fact g' = w_fact g /\ w_tried g' = w_tried g /\ (pa = true -> e ∈ w_reported g')).
Proof.
  intros [[He Hl Hs Hm] Hk]. unfold report_failed. destruct pa; [| by split; [split | ]]. destruct g. why_step.
  split; [split; [split; cbn in *; [set_solver | done..] | done] |]. split_and!; try done. cbn. intros _. set_solver.
Qed.

Lemma open_at_why a sid ch dl e pa lo l g :
  kept l lo pa g -> wp why_monitor g (open_at config a sid ch dl e pa lo l) exit_explained.
Proof.
  intros Hk. unfold open_at. apply wp_bind. eapply wp_mono; [| by eapply acquire_why].
  intros [c | error] g1 (Hk1 & Ht & Hf); [specialize (Hf eq_refl) |].
  - destruct (Nat.leb_spec (max_open_attempts config) (attempts l)) as [Hge | Hlt].
    + apply wp_bind. unfold unbind. destruct g1 as [f now live placed tried reported sent]. cbn in Hf. subst f.
      assert (Hcut : wp why_monitor (MkWhy FBound now live placed tried reported sent)
        (bind! _ := report_failed pa e; Ret (Break (Err AttemptsExhausted))) exit_explained).
      { apply wp_bind. eapply wp_mono; [| by apply (report_failed_why pa e l lo)]. intros _ g2 ([[_ _ Hs Hm] _] & Hf & _).
        cbn. unfold explains. rewrite Hf. cbn. split; [lia | done]. }
      split; [exact I |]. intros [] g1 ->; cbn; [why_step |]; exact Hcut.
    + apply wp_bind. eapply wp_mono; [| by eapply send_session_open_why].
      intros [was_sent outcome] g2 (Hk2 & Ht2 & Hr). cbn [fst snd] in Hk2, Hr.
      destruct outcome as [[] | error].
      * destruct was_sent; [| done]. destruct Hr as (x & Hx & Hr). cbn. rewrite Hx.
        destruct x as [| [[[] |] |]]; done.
      * apply cleanup_why, wp_bind. eapply wp_mono; [| by apply (report_failed_why pa e (if was_sent then sent_one l else l) lo)].
        intros _ g3 (Hk3 & Hf3 & Ht3 & Hrep). unfold sent_one in Hk3. destruct Hk3 as [Hl3 [_ Hp3]].
        apply after_failure_explained; [by destruct was_sent | done | |].
        -- destruct pa; [by apply Hrep |]. intros x Hx. rewrite Ht3, Ht2. by apply Ht.
        -- destruct was_sent; [right | by left; simplify_eq]. destruct Hr as (x & Hx & Hr). exists x. rewrite Hf3.
           split; [done |]. destruct (ack_error x); congruence.
  - destruct pa.
    + destruct g1, Hk1 as [[He Hl Hs Hm] _]. why_step. cbn in *. split; cbn; [set_solver | done..].
    + destruct Hk1 as [[He Hl Hs Hm] _]. by split.
Qed.

Lemma open_iteration_why a sid ch dl l g :
  looping l g -> wp why_monitor g (open_iteration config a sid ch dl l) exit_explained.
Proof.
  intros Hl. unfold open_iteration. apply wp_bind. eapply wp_mono; [| by apply resolve_owner_why].
  intros [[e n s |] | e] g1 (Hl1 & Hp1 & Hr); [| | done].
  - destruct Hr as (Hlive & o & node & Hf & Hsess & -> & ->). case_bool_decide as Hfl.
    + cbn. unfold explains. rewrite Hf. right. exists node. split_and!; try done. right. by apply (lp_live _ _ Hl1).
    + by apply open_at_why.
  - apply wp_bind. eapply wp_mono; [| by apply select_why]. intros [e | e] g2 [Hl2 H2]; [by apply open_at_why | done].
Qed.

Lemma open_loop_why fuel a sid ch dl l g :
  looping l g ->
  wp why_monitor g (open_loop config fuel a sid ch dl l)
    (fun r g' => match r with Some r => exit_explained (Break r) g' | None => True end).
Proof.
  revert l g. induction fuel as [| fuel IH]; intros l g Hl; cbn [open_loop]; [done |].
  apply wp_bind. eapply wp_mono; [| by apply open_iteration_why]. intros [r | l'] g' Hx; [exact Hx | by apply IH].
Qed.
End errors.

(** ** Properties *)

(** C23: an open reports what went wrong.  The last reply that mattered fixes its
    result: a stopped Client is RuntimeStopped; an owner record that could not be
    read is OwnershipUnavailable and a node record or a listing
    DirectoryUnavailable; RuntimeAtCapacity says that every eligible candidate has
    been tried in vain, that the Strategy named none, or that the owner itself is
    full; RemoteUnavailable that the owner has no usable endpoint or that the same
    incarnation of it has been tried before; AttemptsExhausted that exactly
    [max_open_attempts] SessionOpens were sent and the last one was refused in a
    way that another attempt might have helped; any other refusal of the Server is
    reported as the error it names.  An open succeeds when the last reply was a
    positive acknowledgement. *)
Theorem open_reports_its_cause (config : ClientConfig) (fuel : nat) (a : ActorAddress) :
  wp why_monitor why0 (open config fuel a) (fun r g =>
    match r with
    | Some (Ok _) => w_fact g = FAck (Ready (Some (Ok ())))
    | Some (Err e) => explains config g e
    | None => True
    end).
Proof.
  unfold open. split; [exact I |]. intros st g ->. case_bool_decide as Hst; cbn; [| by destruct st].
  subst st. do 2 why_step. do 2 why_step. apply wp_bind.
  eapply wp_mono; [| apply open_loop_why; split; cbn; try done; lia].
  intros [[s | e] |] g Hx; [done | | done]. destruct g. do 2 why_step. done.
Qed.
