(* ===== verification/ClientProps.v ===== *)
(** * Properties of the Client: placement, the receive loop, shutdown

    Monitors over the effects of [Client]: a placement uses a recent listing of
    the nodes, the receive loop delivers to the Sessions of its connection and
    ends them with it, and shutdown ends everything. *)

From S2P Require Import Prelude Text Address Coordination Placement Transport Session Client ClientOpen.

Lemma for_each_wp {A S} (m : monitor clientE S) (f : A -> proc clientE unit) (I : list A -> S -> Prop) l pre s :
  (forall x pre s, I pre s -> wp m s (f x) (fun _ s' => I (pre ++ [x]) s')) ->
  I pre s -> wp m s (for_each f l) (fun _ s' => I (pre ++ l) s').
Proof.
  intros Hf. revert pre s. induction l as [| x l IH]; intros pre s HI; cbn.
  - by rewrite app_nil_r.
  - apply wp_bind. eapply wp_mono; [| by apply Hf]. intros [] s' HI'.
    replace (pre ++ x :: l) with ((pre ++ [x]) ++ l) by (by rewrite <- app_assoc). by apply IH.
Qed.

(** ** Placement *)

(** The listings of the nodes the Client has made, with their times. *)
Record listing_ghost := MkListingGhost {
  l_now : Z;
  l_listings : list (Z * list NodeRecord)
}.

(** A cached value is what a listing made of the nodes. *)
Definition cached (g : listing_ghost) (cs : list PlacementCandidate) (t : Z) : Prop :=
  exists nodes, (t, nodes) ∈ l_listings g /\ cs = eligible_candidates nodes.

Definition listing_observe X (g : listing_ghost) (e : clientE X) : X -> listing_ghost -> Prop :=
  match e in clientE X return X -> listing_ghost -> Prop with
  | Now => fun x g' => g' = MkListingGhost x (l_listings g)
  | ListNodes _ => fun x g' =>
      g' = match x with
           | Ready (Ok nodes) => MkListingGhost (l_now g) ((l_now g, nodes) :: l_listings g)
           | _ => g
           end
  | CacheGet => fun x g' =>
      l_now g' = l_now g /\ l_listings g ⊆ l_listings g' /\
      match x with Some (cs, t) => cached g' cs t | None => True end
  | _ => fun _ g' => g' = g
  end.

Definition listing_monitor : monitor clientE listing_ghost :=
  Monitor clientE listing_ghost
    (fun X g e => match e with CacheSet cs t => cached g cs t | _ => True end)
    listing_observe.

Lemma placement_candidates_listing dl g :
  wp listing_monitor g (placement_candidates dl)
    (fun r g' => match r with
                 | Ok cs => exists t, cached g' cs t /\ (Z.max (l_now g' - t) 0 < PLACEMENT_CACHE_TTL)%Z
                 | Err e => e = DirectoryUnavailable
                 end).
Proof.
  unfold placement_candidates. split; [done |]. intros now g1 ->. split; [done |].
  intros cache g2 (Hnow & _ & Hcache). cbn in Hnow.
  destruct (match cache with Some _ => _ | None => _ end) as [cs |] eqn:Hfresh.
  - destruct cache as [[cs' t] |]; [| done]. destruct (Z.ltb_spec (Z.max (now - t) 0) PLACEMENT_CACHE_TTL); [| done].
    injection Hfresh as ->. cbn. exists t. by rewrite Hnow.
  - split; [done |]. intros [| [nodes |]] g3 ->; cbn; [done | | done].
    assert (Hc : cached (MkListingGhost (l_now g2) ((l_now g2, nodes) :: l_listings g2))
                   (eligible_candidates nodes) now).
    { exists nodes. rewrite Hnow. split; [apply list_elem_of_here | done]. }
    split; [done |]. intros [] g4 ->. exists now. split; [done |]. cbn. rewrite Hnow, Z.sub_diag. reflexivity.
Qed.

(** C29: a placement goes to a node that was fit when it was last listed: the
    endpoint an open selects was advertised, in a listing made less than three
    seconds before the selection began, by a node of the Client's protocol version
    that was neither pressured nor draining and below its maximum of Actors, and
    it had not been excluded; a selection fails only because the directory could
    not be read or nothing was left to select. *)
Theorem placement_fresh_and_eligible (a : ActorAddress) (excluded : gset string) (deadline : Z) (g : listing_ghost) :
  wp listing_monitor g (select_placement_candidate a excluded deadline)
    (fun r g' => match r with
       | Ok e => exists t nodes node,
           (t, nodes) ∈ l_listings g' /\ (Z.max (l_now g' - t) 0 < PLACEMENT_CACHE_TTL)%Z /\ node ∈ nodes /\
           advertised_endpoint node = e /\ (e ∉ excluded) /\
           Coordination.protocol_version node = TRANSPORT_PROTOCOL_VERSION /\
           trim_is_empty e = false /\ pressured node = false /\ draining node = false /\
           (Coordination.active_actor_count node < Coordination.max_actor_count node)%Z
       | Err e => e = DirectoryUnavailable \/ e = RuntimeAtCapacity
       end).
Proof.
  unfold select_placement_candidate. apply wp_bind. eapply wp_mono; [| apply placement_candidates_listing].
  intros [all | e] g1 Hr; [| by left]. destruct Hr as (t & (nodes & Hin & ->) & Ht).
  set (cs := filter _ (eligible_candidates nodes)).
  assert (Hcs : forall c, c ∈ cs -> (endpoint c ∉ excluded) /\ exists node,
    node ∈ nodes /\ placement_eligible node = true /\ c = placement_candidate node).
  { intros c [Hc (node & -> & [Hn Hm]%list_elem_of_filter)%list_elem_of_fmap]%list_elem_of_filter. eauto. }
  destruct cs as [| c0 cs]; [by right |]. split; [done |]. intros ordered g2 ->. cbn.
  destruct (list_find _ ordered) as [[i e] |] eqn:Hfind; cbn; [| by right].
  apply list_find_Some in Hfind as (_ & He & _).
  change (e ∈ list_to_set (C := gset string) (endpoint <$> c0 :: cs)) in He.
  apply elem_of_list_to_set, list_elem_of_fmap in He as (c & -> & Hc).
  destruct (Hcs c Hc) as (Hex & node & Hnode & Hel & ->). unfold placement_eligible in Hel.
  rewrite !andb_true_iff, !negb_true_iff, Z.eqb_eq, Z.ltb_lt in Hel. exists t, nodes, node. naive_solver.
Qed.

(** ** The receive loop *)

(** What the task of connection [c] has seen: the envelope it handles and the
    replies that entitle it to act on it, and, once the stream has ended, how far
    the retirement of the connection is. *)
Record receive_ghost := MkReceiveGhost {
  r_envelope : option Envelope;
  r_bound : option SessionId;
  r_channel : option ChannelId;
  r_taken : option AckId;
  r_taken_for : option SessionId;
  r_ended : bool;                              (* the stream has ended *)
  r_closed : bool;                             (* the connection is marked closed *)
  r_locked : option PoolRef;
  r_drained : option (list SessionId);
  r_terminated : list SessionId
}.

Definition option_list {A} (x : option A) : list A := from_option (fun x => [x]) [] x.

Definition receive_ghost0 : receive_ghost :=
  MkReceiveGhost None None None None None false false None None [].

Definition receive_observe X (g : receive_ghost) (e : clientE X) : X -> receive_ghost :=
  let '(MkReceiveGhost env b ch tk tf en cl lk dr tm) := g in
  match e in clientE X return X -> receive_ghost with
  | RecvEnvelope _ => fun x =>
      MkReceiveGhost x None None None None (negb (bool_decide (is_Some x))) cl lk dr tm
  | HasSession _ sid => fun x =>
      MkReceiveGhost env (if x : bool then Some sid else None) None tk tf en cl lk dr tm
  | Receiver sid => fun x => MkReceiveGhost env b (if bool_decide (b = Some sid) then x else None) tk tf en cl lk dr tm
  | TakePending sid _ => fun x => MkReceiveGhost env b ch x (Some sid) en cl lk dr tm
  | CompleteAck _ _ => fun _ =>
      MkReceiveGhost env b ch None tf en cl lk dr (if en then tm ++ option_list tf else tm)
  | TerminateLocal sid _ => fun _ => MkReceiveGhost env b ch tk tf en cl lk dr (tm ++ [sid])
  | StoreClosed _ => fun _ => MkReceiveGhost env b ch tk tf en true lk dr tm
  | LockPool _ p => fun _ => MkReceiveGhost env b ch tk tf en cl (Some p) dr tm
  | UnlockPool _ => fun _ => MkReceiveGhost env b ch tk tf en cl None dr tm
  | DrainSessions _ => fun x => MkReceiveGhost env b ch tk tf en cl lk (Some x) tm
  | _ => fun _ => g
  end.

Section receive.
Context (c : ConnRef) (endpoint : string).

(** The envelope being handled is for Session [sid] and carries [kind]. *)
Definition handles (g : receive_ghost) (sid : SessionId) (kind : Kind) : Prop :=
  exists e, r_envelope g = Some e /\ env_kind e = Some kind /\
            session_id_from_bytes (env_session_id e) = Some sid.

Definition receive_allowed X (g : receive_ghost) (e : clientE X) : Prop :=
  match e with
  | RecvEnvelope c' => c' = c /\ r_ended g = false
  | HasSession c' _ => c' = c
  | Receiver _ => True
  | ChannelSend ch item =>
      r_channel g = Some ch /\ exists sid, r_bound g = Some sid /\
      match item with
      | Ok payload => handles g sid (KEvent payload)
      | Err error => exists n, handles g sid (KSessionError n) /\ error = from_wire n
      end
  | TakePending sid c' => c' = c /\ (r_ended g = true \/ exists o, handles g sid (KSessionOpenedAck o))
  | CompleteAck o r =>
      r_taken g = Some o /\ exists sid, r_taken_for g = Some sid /\
      (if r_ended g then r = Err RemoteUnavailable
       else exists outcome, handles g sid (KSessionOpenedAck outcome) /\ r = ack_result outcome)
  | TerminateLocal sid error =>
      r_ended g = true /\ r_taken g = None /\ r_taken_for g = Some sid /\ error = RemoteUnavailable
  | StoreClosed c' => c' = c /\ r_ended g = true
  | FindPool e => e = endpoint
  | LockPool d _ => d = None /\ r_locked g = None
  | RemoveConnection p c' => c' = c /\ r_locked g = Some p /\ r_closed g = true
  | UnlockPool p => r_locked g = Some p
  | DrainSessions c' => c' = c /\ r_closed g = true /\ r_locked g = None
  | BoundClear c' => c' = c /\ is_Some (r_drained g)
  | FinishReceive c' => c' = c /\ r_drained g = Some (r_terminated g)
  | RetainInbound => True
  | _ => False
  end.

Definition receive_monitor : monitor clientE receive_ghost :=
  Monitor clientE receive_ghost receive_allowed (fun X g e x g' => g' = receive_observe X g e x).

(** Before the stream ends. *)
Definition receiving (g : receive_ghost) : Prop :=
  r_ended g = false /\ r_closed g = false /\ r_locked g = None /\ r_drained g = None /\ r_terminated g = [].

Lemma handle_envelope_wp e g :
  receiving g -> r_envelope g = Some e ->
  wp receive_monitor g (handle_envelope e c) (fun _ => receiving).
Proof.
  destruct g as [env b ch tk tf en cl lk dr tm]. intros (? & ? & ? & ? & ?) ?. cbn in *. subst. unfold handle_envelope.
  destruct (env_kind e) as [kind |] eqn:Hk; [| done].
  destruct (session_id_from_bytes (env_session_id e)) as [sid |] eqn:Hsid; [| done].
  assert (Hh : forall g, r_envelope g = Some e -> handles g sid kind) by (intros; by exists e).
  destruct kind; try done; unfold deliver; cbn.
  - split; [done |]. intros [] g ->; cbn; [| done]. split; [done |]. intros [ch' |] g ->; cbn; [| done].
    rewrite bool_decide_eq_true_2 by done. split; [split; [done |]; exists sid; split; [done | by apply Hh] |].
    by intros [] g ->.
  - split; [done |]. intros [] g ->; cbn; [| done]. split; [done |]. intros [ch' |] g ->; cbn; [| done].
    rewrite bool_decide_eq_true_2 by done.
    split; [split; [done |]; exists sid; split; [done | exists failure; split; [by apply Hh | done]] |].
    by intros [] g ->.
  - split; [split; [done |]; right; exists outcome; by apply Hh |]. intros [o |] g ->; cbn; [| done].
    split; [split; [done |]; exists sid; split; [done | exists outcome; split; [by apply Hh | done]] |].
    by intros [] g ->.
Qed.

(** After the sessions were drained: [pre] of them are over. *)
Definition retiring (l pre : list SessionId) (g : receive_ghost) : Prop :=
  r_ended g = true /\ r_closed g = true /\ r_locked g = None /\ r_drained g = Some l /\ r_terminated g = pre.

Lemma end_session_wp l sid pre g :
  retiring l pre g -> wp receive_monitor g (end_session c sid) (fun _ => retiring l (pre ++ [sid])).
Proof.
  destruct g as [env b ch tk tf en cl lk dr tm]. intros (? & ? & ? & ? & ?). cbn in *. subst. unfold end_session. cbn.
  split; [by split; [| left] |]. intros [o |] g ->; cbn.
  - split; [naive_solver |]. by intros [] g ->.
  - split; [done |]. by intros [] g ->.
Qed.

Definition receive_post (g : receive_ghost) : Prop :=
  receiving g \/ exists l, retiring l l g.

Lemma retire_connection_wp g :
  r_ended g = true -> r_locked g = None -> r_terminated g = [] ->
  wp receive_monitor g (retire_connection c endpoint) (fun _ => receive_post).
Proof.
  destruct g as [env b ch tk tf en cl lk dr tm]. cbn. intros -> -> ->. split; [done |]. intros [] g ->. split; [done |].
  intros found g ->. apply wp_bind.
  apply (wp_mono _ _ _ (fun _ g => r_ended g = true /\ r_locked g = None /\ r_terminated g = [] /\ r_closed g = true)).
  - intros [] [env' b' ch' tk' tf' en' cl' lk' dr' tm'] (? & ? & ? & ?). cbn in *. subst. split; [done |].
    intros l g ->. split; [split; [done | by exists l] |]. intros [] g ->. apply wp_bind.
    eapply wp_mono; [| apply (for_each_wp _ _ (retiring l) l []); [intros; by apply end_session_wp | done]].
    intros [] [env2 b2 ch2 tk2 tf2 en2 cl2 lk2 dr2 tm2] (? & ? & ? & ? & ?). cbn in *. subst.
    sym. right. by exists l.
  - destruct found as [p |]; [| done]. cbn. sym.
Qed.
End receive.

(** The receive loop of a connection acts for the Sessions of that
    connection only, and ends them with it: an Event or an error is delivered to a
    Session only if the Session is bound to the connection the envelope arrived
    on, as the envelope says; an acknowledgement completes only a pending open of
    that connection, with the outcome it carries; when the stream ends, the
    connection is marked closed, taken out of its pool under the pool's mutex,
    and every Session that was bound to it has its pending open failed or is
    terminated, with [RemoteUnavailable], exactly once. *)
Theorem receive_loop_discipline (fuel : nat) (c : ConnRef) (endpoint : string) :
  wp (receive_monitor c endpoint) receive_ghost0 (receive_loop fuel c endpoint) (fun _ => receive_post).
Proof.
  enough (H : forall g, receiving g ->
    wp (receive_monitor c endpoint) g (receive_loop fuel c endpoint) (fun _ => receive_post)) by (by apply H).
  induction fuel as [| fuel IH]; intros g Hg; [by left |]. destruct g as [env b ch tk tf en cl lk dr tm].
  destruct Hg as (? & ? & ? & ? & ?). cbn in *. subst. split; [done |]. intros [e |] g ->.
  - apply wp_bind. eapply wp_mono; [| by apply handle_envelope_wp]. intros [] g. apply IH.
  - by apply retire_connection_wp.
Qed.

(** ** Shutdown *)

Record stop_ghost := MkStopGhost {
  s_was : option ClientStatus;                 (* the status [swap] returned *)
  s_pools : option (list PoolRef);
  s_emptied : list PoolRef;                    (* pools drained, their mutex released *)
  s_holding : option PoolRef;
  s_connections : list ConnRef;                (* connections drained *)
  s_closed : list ConnRef;                     (* connections closed *)
  s_aborted : bool;
  s_cleared : bool;
  s_values : option (list ChannelId);
  s_notified : list ChannelId
}.

Definition stop_ghost0 : stop_ghost := MkStopGhost None None [] None [] [] false false None [].

Definition stop_observe X (g : stop_ghost) (e : clientE X) : X -> stop_ghost :=
  let '(MkStopGhost st ps em hd cs cl ab cr vs nt) := g in
  match e in clientE X return X -> stop_ghost with
  | SwapStopped => fun x => MkStopGhost (Some x) ps em hd cs cl ab cr vs nt
  | DrainPools => fun x => MkStopGhost st (Some x) em hd cs cl ab cr vs nt
  | LockPool _ p => fun _ => MkStopGhost st ps em (Some p) cs cl ab cr vs nt
  | PoolDrain _ => fun x => MkStopGhost st ps em hd (cs ++ x) cl ab cr vs nt
  | SwapClosed c => fun _ => MkStopGhost st ps em hd cs (cl ++ [c]) ab cr vs nt
  | UnlockPool p => fun _ => MkStopGhost st ps (em ++ [p]) None cs cl ab cr vs nt
  | AbortInbound => fun _ => MkStopGhost st ps em hd cs cl true cr vs nt
  | ClearPending => fun _ => MkStopGhost st ps em hd cs cl ab true vs nt
  | ReceiverValues => fun x => MkStopGhost st ps em hd cs cl ab cr (Some x) nt
  | ChannelSend ch _ => fun _ => MkStopGhost st ps em hd cs cl ab cr vs (nt ++ [ch])
  | _ => fun _ => g
  end.

Definition stop_allowed X (g : stop_ghost) (e : clientE X) : Prop :=
  match e with
  | SwapStopped => g = stop_ghost0
  | DrainPools => s_was g = Some ClientRunning
  | LockPool d _ => d = None /\ s_holding g = None
  | PoolDrain p => s_holding g = Some p /\ s_closed g = s_connections g
  | SwapClosed c => exists rest, s_connections g = s_closed g ++ c :: rest
  | SenderClose c => last (s_closed g) = Some c
  | UnlockPool p => s_holding g = Some p /\ s_closed g = s_connections g
  | AbortInbound => s_pools g = Some (s_emptied g) /\ s_holding g = None
  | ClearPending => s_aborted g = true
  | ReceiverValues => s_cleared g = true
  | ClearReceivers => is_Some (s_values g) /\ s_notified g = []
  | ChannelSend _ item => is_Some (s_values g) /\ item = Err RuntimeStopped
  | _ => False
  end.

Definition stop_monitor : monitor clientE stop_ghost :=
  Monitor clientE stop_ghost stop_allowed (fun X g e x g' => g' = stop_observe X g e x).

(** Closing the connections a pool held. *)
Lemma connection_close_wp st ps em hd pre c rest :
  wp stop_monitor (MkStopGhost st ps em hd (pre ++ c :: rest) pre false false None []) (connection_close c)
    (fun _ g => g = MkStopGhost st ps em hd (pre ++ c :: rest) (pre ++ [c]) false false None []).
Proof.
  unfold connection_close. cbn. split; [by exists rest |]. intros [] g ->; cbn; [done |].
  split; [by rewrite last_snoc |]. by intros [] g ->.
Qed.

Lemma close_all_wp st ps em hd pre cs :
  wp stop_monitor (MkStopGhost st ps em hd (pre ++ cs) pre false false None []) (for_each connection_close cs)
    (fun _ g => g = MkStopGhost st ps em hd (pre ++ cs) (pre ++ cs) false false None []).
Proof.
  revert pre. induction cs as [| c cs IH]; intros pre; cbn [for_each]; [by rewrite app_nil_r |].
  apply wp_bind. eapply wp_mono; [| apply connection_close_wp]. intros [] g ->.
  replace (pre ++ c :: cs) with ((pre ++ [c]) ++ cs) by (by rewrite <- app_assoc). apply IH.
Qed.

(** Shutting a Client down ends everything it holds, once: a second shutdown
    does nothing; the first closes every connection of every pool while it holds
    the pool's mutex (the sender of a connection is closed only by whoever marks
    it closed first), then aborts the receive loops, drops the pending opens and
    tells every registered Session that the runtime has stopped. *)
Theorem client_shutdown_ends_everything :
  wp stop_monitor stop_ghost0 client_shutdown
    (fun _ g => s_was g = Some ClientStopped /\ g = MkStopGhost (s_was g) None [] None [] [] false false None [] \/
       s_was g = Some ClientRunning /\ s_pools g = Some (s_emptied g) /\ s_holding g = None /\
       s_closed g = s_connections g /\ s_aborted g = true /\ s_cleared g = true /\
       s_values g = Some (s_notified g)).
Proof.
  split; [done |]. intros [] g ->; [| by left]. split; [done |]. intros pools g ->. apply wp_bind.
  eapply wp_mono; [| apply (for_each_wp _ _ (fun pre g => exists cs,
    g = MkStopGhost (Some ClientRunning) (Some pools) pre None cs cs false false None []) pools []); [| by exists []]].
  - intros [] g (cs & ->). do 2 (split; [done |]; intros ? g ->). split; [done |]. intros values g ->. split; [done |]. intros [] g ->.
    set (I pre g := exists cs, g = MkStopGhost (Some ClientRunning) (Some pools) pools None cs cs true true (Some values) pre).
    eapply wp_mono; [| apply (for_each_wp _ _ I values []); [| by exists cs]].
    + intros [] g (cs' & ->). right. cbn. done.
    + intros ch pre g (cs' & ->). split; [done |]. intros [] g ->. by exists cs'.
  - intros p pre g (cs & ->). split; [done |]. intros locked g ->. split; [done |]. intros cs' g ->. cbn [stop_observe].
    apply wp_bind. eapply wp_mono; [| apply close_all_wp]. intros [] g ->. split; [done |].
    intros [] g ->. by exists (cs ++ cs').
Qed.
