(* ===== verification/ClientRace.v ===== *)
(** * Executions of the Client

    Executions of [ClientStep] by the scheduler: an open that succeeds and
    receives an Event, and a race between an open and the receive loop of the
    connection it has just acquired, after which [Client::open] returns a Session
    that is not registered. *)

From S2P Require Import Prelude Text Address Coordination Placement Transport Session Client ClientStep.
From S2P Require Runtime.

Definition demo_client : ClientConfig := MkClientConfig 3000000000 3000000000 3 1.
Definition demo_address : ActorAddress := MkActorAddress "room" "lobby".
Definition demo_sid : SessionId := MkSessionId "0123456789abcdef".

Definition demo_node (id : string) : NodeRecord :=
  MkNodeRecord id "s1" id TRANSPORT_PROTOCOL_VERSION 1 0 0 10 false false.

(** [n] steps of thread [j] without a choice. *)
Definition csteps (j n : nat) : list client_action := repeat (CStep j CNone) n.
Definition cstep (j : nat) (h : client_hint) : client_action := CStep j h.

(** Thread [j] opens, finds the Actor unowned and places it on [e]: up to the
    connection it acquires, with the pool's mutex released. *)
Definition begin_open (j : nat) : list client_action :=
  COpen 5 demo_address :: csteps j 1 ++ [cstep j (CTime 0); cstep j (CSession demo_sid)] ++ csteps j 2.

Definition place (j : nat) (t : Z) (nodes : list NodeRecord) (e : string) (sender : SenderId) : list client_action :=
  [cstep j (COwner (Ok None)); cstep j (CTime t)] ++ csteps j 1 ++
  (if nodes is [] then [] else [cstep j (CNodes (Ok nodes))] ++ csteps j 1) ++
  [cstep j (CCandidates [e])] ++ csteps j 3 ++ [cstep j (CConnect (Ok sender))] ++
  csteps j 8.

(** The SessionOpen is sent, and answered through the receive loop [k] of the connection. *)
Definition acknowledge (j k t : nat) : list client_action :=
  csteps j 3 ++ [cstep j (CSent (Ok ())); CReceive t 5;
                 cstep k (CEnvelope (Some (envelope_opened_ack (session_id_as_bytes demo_sid) (Ok ()))))] ++
  csteps k 2 ++ csteps j 1.

Definition opened (w : client_world) (j : nat) : bool :=
  match client_threads w !! j with
  | Some (CCaller (Ret (COpened (Some (Ok s))))) => bool_decide (session_sid s = demo_sid)
  | _ => false
  end.

Definition good_script : list client_action :=
  begin_open 0 ++ place 0 0 [demo_node "n1"] "n1" 7 ++ acknowledge 0 1 0 ++
  [cstep 1 (CEnvelope (Some (envelope_event demo_sid "hello")))] ++ csteps 1 3.

(** The connection ends as soon as it is made; its receive loop runs between
    the binding of the Session and the registration of the pending open. *)
Definition race_script : list client_action :=
  begin_open 0 ++ place 0 0 [demo_node "n1"; demo_node "n2"] "n1" 7 ++
  [CReceive 0 5; cstep 1 (CEnvelope None)] ++ csteps 1 5 ++ [cstep 1 (CSessions [demo_sid])] ++ csteps 1 5 ++
  csteps 0 7 ++
  place 0 1 [] "n2" 8 ++ acknowledge 0 2 1.

Definition ends_with (l : list client_action) (f : client_world -> bool) : bool :=
  match client_run demo_client client_initial_world l with
  | Some w => f w
  | None => false
  end.

Lemma ends_with_reaches l f :
  ends_with l f = true ->
  exists w, rtc (client_world_step demo_client) client_initial_world w /\ f w = true.
Proof.
  unfold ends_with. destruct (client_run _ _ l) as [w |] eqn:Hr; [| done]. intros Hf.
  exists w. split; [by eapply client_run_sound | done].
Qed.

Lemma opened_session w j :
  opened w j = true ->
  exists s, client_threads w !! j = Some (CCaller (Ret (COpened (Some (Ok s))))) /\ session_sid s = demo_sid.
Proof.
  unfold opened. destruct (client_threads w !! j) as [[[[[[s |] |] | |] |] |] |]; try done.
  intros H%bool_decide_eq_true. by exists s.
Qed.

(** The usual course: the Session is opened and receives the Event. *)
Definition good_end (w : client_world) : bool :=
  opened w 0 && bool_decide (channels (client w) = [[Ok "hello"]])
  && bool_decide (Caller.receiver (receivers (client w)) demo_sid = Some 0%N).

Example open_receives_events : ends_with good_script good_end = true.
Proof. vm_compute. reflexivity. Qed.

(** The race: the receiver of the Session holds the error of the first connection,
    and the registry knows nothing of the Session. *)
Definition race_end (w : client_world) : bool :=
  opened w 0 && bool_decide (client_status (client w) = ClientRunning)
  && bool_decide (Caller.receiver (receivers (client w)) demo_sid = None)
  && bool_decide (channels (client w) = [[Err RemoteUnavailable]])
  && forallb (fun c => negb (conn_closed c)) (drop 1 (connections (client w))).

Lemma race_script_ends : ends_with race_script race_end = true.
Proof. vm_compute. reflexivity. Qed.

(** C40: [Client::open] can return a Session that is not registered: the connection of
    a first attempt ends after the Session is bound to it and before its open is
    pending, the receive loop terminates the Session and removes it from the
    registry, and a second attempt succeeds without registering it again.  No
    Event reaches the Session, which is open for the Server. *)
Theorem open_returns_unregistered_session :
  exists w s,
    rtc (client_world_step demo_client) client_initial_world w /\
    client_threads w !! 0 = Some (CCaller (Ret (COpened (Some (Ok s))))) /\
    client_status (client w) = ClientRunning /\
    Caller.receiver (receivers (client w)) (session_sid s) = None /\
    channels (client w) = [[Err RemoteUnavailable]].
Proof.
  destruct (ends_with_reaches _ _ race_script_ends) as (w & Hw & Hend).
  unfold race_end in Hend. rewrite !andb_true_iff, !bool_decide_eq_true in Hend.
  destruct Hend as [[[[Ho Hst] Hreg] Hch] _]. apply opened_session in Ho as (s & Hth & Hs).
  exists w, s. rewrite Hs. done.
Qed.
