(* ===== verification/ClientWorld.v ===== *)
(** * Invariants of the concurrent Client

    The world of [ClientStep], for any interleaving of opens, sends, drops, a
    shutdown and the receive loops: the mutex of a pool has one holder, a pool
    never holds more connections than configured nor a connection to another
    Server, the load counter of an open connection counts its Sessions, and no
    thread can be stuck.  A thread is described by a ghost: what it knows of the
    state, the mutex it holds, and the half of [bind] or [unbind] it still owes. *)

From S2P Require Import Prelude Text Address Coordination Placement Transport Session Client ClientStep ClientRace.
From S2P Require Runtime.

(** ** The discipline of a thread *)
Record thread_ghost := MkThread {
  t_named : list (PoolRef * string);       (* pools, by the endpoint they were looked up with *)
  t_pools : list PoolRef;
  t_conns : list ConnRef;
  t_fresh : option (ConnRef * string);     (* the connection it made last *)
  t_held : option PoolRef;                 (* the mutex it holds *)
  t_room : bool;                           (* the pool it holds has room for one more *)
  t_owes : option (ConnRef * bool);        (* a [fetch_add] ([true]) or [fetch_sub] to come *)
  t_retired : option ConnRef               (* the connection it has closed for good *)
}.

Definition thread_ghost0 : thread_ghost := MkThread [] [] [] None None false None None.

Definition know_pool (g : thread_ghost) (p : PoolRef) (e : string) : thread_ghost :=
  MkThread ((p, e) :: t_named g) (p :: t_pools g) (t_conns g) (t_fresh g) (t_held g) (t_room g) (t_owes g) (t_retired g).
Definition know_pools (g : thread_ghost) (l : list PoolRef) : thread_ghost :=
  MkThread (t_named g) (l ++ t_pools g) (t_conns g) (t_fresh g) (t_held g) (t_room g) (t_owes g) (t_retired g).
Definition know_conns (g : thread_ghost) (l : list ConnRef) : thread_ghost :=
  MkThread (t_named g) (t_pools g) (l ++ t_conns g) (t_fresh g) (t_held g) (t_room g) (t_owes g) (t_retired g).
Definition set_fresh (g : thread_ghost) x : thread_ghost :=
  MkThread (t_named g) (t_pools g) (t_conns g) x (t_held g) (t_room g) (t_owes g) (t_retired g).
Definition set_held (g : thread_ghost) x room : thread_ghost :=
  MkThread (t_named g) (t_pools g) (t_conns g) (t_fresh g) x room (t_owes g) (t_retired g).
Definition set_owes (g : thread_ghost) x : thread_ghost :=
  MkThread (t_named g) (t_pools g) (t_conns g) (t_fresh g) (t_held g) (t_room g) x (t_retired g).
Definition set_retired (g : thread_ghost) x : thread_ghost :=
  MkThread (t_named g) (t_pools g) (t_conns g) (t_fresh g) (t_held g) (t_room g) (t_owes g) x.

(** Between calls a thread holds no mutex and owes nothing. *)
Definition idle (g : thread_ghost) : Prop := t_held g = None /\ t_owes g = None.

Section discipline.
Context (config : ClientConfig).

Definition call_allowed X (g : thread_ghost) (e : clientE X) : Prop :=
  match e with
  | RecvEnvelope _ => idle g
  | LockPool _ p => p ∈ t_pools g /\ idle g
  | UnlockPool p | RetainOpen p | MinConnection p | RemoveConnection p _ | PoolDrain p => t_held g = Some p
  | PushConnection p c =>
      t_held g = Some p /\ t_room g = true /\ exists e, (p, e) ∈ t_named g /\ t_fresh g = Some (c, e)
  | BindInsert c _ | UnbindRemove c _ => c ∈ t_conns g /\ t_owes g = None
  | BoundAdd c => t_owes g = Some (c, true)
  | BoundSub c => t_owes g = Some (c, false)
  | HasSession c _ | LoadClosed c | StoreClosed c | SwapClosed c | SenderTrySend c _ | SenderClose c
  | InsertPending _ c _ | SpawnReceive c => c ∈ t_conns g
  | DrainSessions c | BoundClear c => t_retired g = Some c /\ c ∈ t_conns g
  | _ => True
  end.

(** What is owed is paid with the next call. *)
Definition pays X (g : thread_ghost) (e : clientE X) : Prop :=
  match e with
  | BoundAdd _ | BoundSub _ => True
  | _ => t_owes g = None
  end.

Definition lock_allowed X (g : thread_ghost) (e : clientE X) : Prop := pays X g e /\ call_allowed X g e.

Definition lock_after X (g : thread_ghost) (e : clientE X) : X -> thread_ghost :=
  match e in clientE X return X -> thread_ghost with
  | GetPool endpoint => fun p => know_pool g p endpoint
  | FindPool endpoint => from_option (fun p => know_pool g p endpoint) g
  | DrainPools => know_pools g
  | LockPool _ p => fun r => match r with Ready _ => set_held g (Some p) false | Elapsed => g end
  | UnlockPool _ => fun _ => set_held g None false
  | RetainOpen p => fun n => set_held g (Some p) (n <? max_connections_per_endpoint config)%nat
  | PushConnection p _ => fun _ => set_held g (Some p) false
  | MinConnection _ => from_option (fun c => know_conns g [c]) g
  | PoolDrain _ => know_conns g
  | NewConnection endpoint _ => fun c => set_fresh (know_conns g [c]) (Some (c, endpoint))
  | BindInsert c _ => fun b => set_owes g (if b then Some (c, true) else None)
  | UnbindRemove c _ => fun b => set_owes g (if b then Some (c, false) else None)
  | BoundAdd _ | BoundSub _ => fun _ => set_owes g None
  | StoreClosed c => fun _ => set_retired g (Some c)
  | _ => fun _ => g
  end.

(** Replies are arbitrary; a wait for a mutex without a deadline does not elapse. *)
Definition lock_observe X (g : thread_ghost) (e : clientE X) (x : X) (g' : thread_ghost) : Prop :=
  g' = lock_after X g e x /\
  match e in clientE X return X -> Prop with
  | LockPool None _ => fun r => r <> Elapsed
  | _ => fun _ => True
  end x.

Definition lock_monitor : monitor clientE thread_ghost := Monitor clientE thread_ghost lock_allowed lock_observe.

(** A thread ends idle; the Session it returns is bound to a connection it knows. *)
Definition thread_post (r : client_result) (g : thread_ghost) : Prop :=
  idle g /\
  match r with
  | COpened (Some (Ok s)) => session_connection s ∈ t_conns g
  | _ => True
  end.

(** What a procedure leaves: it knows no less. *)
Record extends (g g' : thread_ghost) : Prop := MkExtends {
  ext_held : t_held g' = t_held g;
  ext_owes : t_owes g' = t_owes g;
  ext_pools : t_pools g ⊆ t_pools g';
  ext_conns : t_conns g ⊆ t_conns g'
}.

Lemma extends_refl g : extends g g.
Proof. done. Qed.

Lemma extends_trans g1 g2 g3 : extends g1 g2 -> extends g2 g3 -> extends g1 g3.
Proof. intros [] []. split; [congruence | congruence | set_solver | set_solver]. Qed.

Lemma extends_idle g g' : extends g g' -> idle g -> idle g'.
Proof. intros [] []. split; congruence. Qed.
End discipline.

#[export] Hint Resolve extends_refl : coactor.

(** ** Every procedure keeps to the discipline *)
Ltac lock_step :=
  cbn [wp lock_monitor allowed observe lock_allowed pays call_allowed];
  split; [| let x := fresh "x" in let g := fresh "g" in let Hg := fresh "Hg" in
            intros x g [-> Hg]; cbn [lock_after] in *].

(** Runs a procedure whose calls leave the ghost alone. *)
Ltac lock_quiet :=
  repeat (cbn [wp proc_bind lock_monitor allowed observe lock_allowed pays call_allowed];
          first [ done
                | split; [done |]; let x := fresh "x" in intros x ? [-> _]; cbn [lock_after]
                | case_match ]).

Section threads.
Context (config : ClientConfig).
Abbreviation mon := (lock_monitor config).

(** A procedure that leaves the ghost alone. *)
Definition silent {A} (g : thread_ghost) (p : proc clientE A) : Prop :=
  t_owes g = None -> wp mon g p (fun _ g' => g' = g).

Lemma silent_bind {A B} g (p : proc clientE A) (f : A -> proc clientE B) Q :
  silent g p -> t_owes g = None -> (forall a, wp mon g (f a) Q) -> wp mon g (proc_bind p f) Q.
Proof. intros Hp Ho Hf. apply wp_bind. eapply wp_mono; [| by apply Hp]. intros a ? ->. apply Hf. Qed.

Lemma try_send_silent c e g : c ∈ t_conns g -> silent g (connection_try_send c e).
Proof. intros Hc Ho. unfold connection_try_send. lock_quiet. Qed.

Lemma close_silent c g : c ∈ t_conns g -> silent g (connection_close c).
Proof. intros Hc Ho. unfold connection_close. lock_quiet. Qed.

Lemma resolve_owner_silent a deadline g : silent g (resolve_owner a deadline).
Proof. intros Ho. unfold resolve_owner. lock_quiet. Qed.

Lemma candidates_silent deadline g : silent g (placement_candidates deadline).
Proof. intros Ho. unfold placement_candidates. lock_quiet. Qed.

Lemma select_silent a excluded deadline g : silent g (select_placement_candidate a excluded deadline).
Proof.
  intros Ho. unfold select_placement_candidate. apply silent_bind; [apply candidates_silent | done |]. intros [all | e]; lock_quiet.
Qed.

Lemma report_silent b e g : silent g (report_failed b e).
Proof. intros Ho. unfold report_failed. lock_quiet. Qed.

Lemma spawn_silent c g : c ∈ t_conns g -> silent g (spawn_receive_loop c).
Proof. intros Hc Ho. unfold spawn_receive_loop. lock_quiet. Qed.

Lemma send_open_silent a sid c deadline g : c ∈ t_conns g -> silent g (send_session_open a sid c deadline).
Proof.
  intros Hc Ho. unfold send_session_open. lock_step; [done |]. lock_step; [done |].
  apply silent_bind; [by apply try_send_silent | done |]. intros [r | e]; lock_quiet.
Qed.

Lemma bind_silent c sid g : c ∈ t_conns g -> t_owes g = None -> silent g (bind c sid).
Proof.
  intros Hc Ho _. unfold bind. lock_step; [done |]. destruct x; [lock_step; [done |] |]; by destruct g; cbn in *; subst.
Qed.

Lemma unbind_silent c sid g : c ∈ t_conns g -> t_owes g = None -> silent g (unbind c sid).
Proof.
  intros Hc Ho _. unfold unbind. lock_step; [done |]. destruct x; [lock_step; [done |] |]; by destruct g; cbn in *; subst.
Qed.

Lemma acquire_lock endpoint sid deadline g :
  idle g ->
  wp mon g (acquire_connection config endpoint sid deadline)
    (fun r g' => extends g g' /\ forall c, r = Ok c -> c ∈ t_conns g').
Proof.
  intros [Hh Ho]. unfold acquire_connection.
  lock_step; [done |]. rename x into p.
  lock_step; [split; [done | split; [cbn; by constructor | done]] |].
  destruct x as [| _]. { split; [| done]. split; try done. cbn. set_solver. }
  lock_step; [done |]. destruct (x <? max_connections_per_endpoint config)%nat.
  - lock_step; [done |]. destruct x0 as [| [sender | e]].
    1, 3: lock_step; [done |]; split; [split; cbn; [done | done | set_solver | set_solver] | done].
    lock_step; [done |]. rename x0 into c. lock_step.
    { split; [done |]. split_and!; [done | done |]. exists endpoint. split; [cbn; by constructor | done]. }
    apply silent_bind; [apply bind_silent; [cbn; by constructor | done] | done |]. intros [].
    apply silent_bind; [apply spawn_silent; cbn; by constructor | done |]. intros [].
    lock_step; [done |]. split; [split; cbn; [done | done | set_solver | set_solver] |].
    intros c' [= <-]. cbn. by constructor.
  - lock_step; [done |]. destruct x0 as [c |]; cbn [from_option].
    + apply silent_bind; [apply bind_silent; [cbn; by constructor | done] | done |]. intros [].
      lock_step; [done |]. split; [split; cbn; [done | done | set_solver | set_solver] |].
      intros c' [= <-]. cbn. by constructor.
    + lock_step; [done |]. split; [split; cbn; [done | done | set_solver | set_solver] | done].
Qed.

Definition exit_ok (x : loop_exit) (g : thread_ghost) : Prop :=
  match x with
  | Break (Ok s) => session_connection s ∈ t_conns g
  | _ => True
  end.

Lemma after_failure_ok error pa e lo l g : exit_ok (after_failure config error pa e lo l) g.
Proof. unfold after_failure. repeat case_match; done. Qed.

Lemma open_at_lock a sid ch deadline endpoint pa lo l g :
  idle g ->
  wp mon g (open_at config a sid ch deadline endpoint pa lo l) (fun x g' => extends g g' /\ exit_ok x g').
Proof.
  intros Hi. unfold open_at. apply wp_bind. eapply wp_mono; [| by apply acquire_lock].
  intros r g1 [Hext Hc]. pose proof (extends_idle _ _ Hext Hi) as [Hh Ho].
  destruct r as [c | e]; [| destruct pa; [lock_step; [done |] |]; done].
  specialize (Hc c eq_refl). destruct (max_open_attempts config <=? attempts l)%nat.
  - apply silent_bind; [by apply unbind_silent | done |]. intros []. apply silent_bind; [apply report_silent | done |]. by intros [].
  - apply silent_bind; [by apply send_open_silent | done |]. intros [was_sent [[] | error]]; [by cbn |].
    apply silent_bind; [by apply try_send_silent | done |]. intros _.
    apply silent_bind; [by apply unbind_silent | done |]. intros []. lock_step; [done |].
    apply silent_bind; [apply report_silent | done |]. intros []. split; [done | apply after_failure_ok].
Qed.

Lemma open_loop_lock fuel a sid ch deadline l g :
  idle g ->
  wp mon g (open_loop config fuel a sid ch deadline l)
    (fun r g' => extends g g' /\ forall s, r = Some (Ok s) -> session_connection s ∈ t_conns g').
Proof.
  revert l g. induction fuel as [| fuel IH]; intros l g Hi; [done |]. cbn [open_loop].
  apply wp_bind. eapply (wp_mono _ _ _ (fun x g' => extends g g' /\ exit_ok x g')).
  - intros [[s | e] | l'] g1 [Hext Hx]; cbn in Hx |- *; [split; [done | by intros ? [= <-]] | done |].
    eapply wp_mono; [| apply IH; by eapply extends_idle]. intros r g2 [Hext' Hr]. split; [by eapply extends_trans | done].
  - pose proof (proj2 Hi) as Ho. unfold open_iteration. apply silent_bind; [apply resolve_owner_silent | done |].
    intros [[endpoint id session |] | e]; [| | done].
    + case_bool_decide; [done |]. by apply open_at_lock.
    + apply silent_bind; [apply select_silent | done |]. intros [endpoint | e]; [by apply open_at_lock | done].
Qed.

Lemma open_thread fuel a g : idle g -> wp mon g (done_after COpened (open config fuel a)) thread_post.
Proof.
  intros Hi. apply wp_bind. eapply (wp_mono _ _ _ (fun r g' => extends g g' /\ forall s, r = Some (Ok s) -> session_connection s ∈ t_conns g')).
  { intros r g' [Hext Hr]. cbn. split; [by eapply extends_idle |]. destruct r as [[s |] |]; [by apply Hr | done | done]. }
  pose proof (proj2 Hi) as Ho. unfold open. lock_step; [done |]. destruct (negb _); [done |].
  do 4 (lock_step; [done |]). apply wp_bind. eapply wp_mono; [| by apply open_loop_lock].
  intros r g' Hr. assert (Ho' : t_owes g' = None) by exact (proj2 (extends_idle _ _ (proj1 Hr) Hi)).
  destruct r as [[s | e] |]; cbn beta iota; [done | | done].
  do 2 (lock_step; [done |]). split; [apply Hr | done].
Qed.

Lemma send_thread alive s msg g :
  idle g -> session_connection s ∈ t_conns g -> wp mon g (done_after CReplied (session_send alive s msg)) thread_post.
Proof.
  intros Hi Hc. pose proof (proj2 Hi) as Ho. apply silent_bind; [intros _ | done | by intros]. unfold session_send. destruct (negb alive); [done |].
  lock_step; [done |]. destruct (negb _); [done |]. by apply try_send_silent.
Qed.

Lemma drop_thread s g :
  idle g -> session_connection s ∈ t_conns g -> wp mon g (done_after (fun _ => CDone) (session_drop s)) thread_post.
Proof.
  intros Hi Hc. pose proof (proj2 Hi) as Ho. apply silent_bind; [intros _ | done | by intros]. unfold session_drop. lock_step; [done |].
  apply silent_bind; [apply unbind_silent; [done | apply Hi] | done |]. intros _.
  apply silent_bind; [by apply try_send_silent | done |]. done.
Qed.

Lemma for_each_silent {A} (f : A -> proc clientE unit) l g :
  (forall x, x ∈ l -> silent g (f x)) -> silent g (for_each f l).
Proof.
  induction l as [| x l IH]; intros Hf Ho; [done |]. cbn [for_each].
  apply silent_bind; [apply Hf; constructor | done |]. intros []. apply IH; [| done]. intros y Hy. apply Hf. by constructor.
Qed.

Lemma terminate_all_silent error g : silent g (caller_terminate_all error).
Proof.
  intros Ho. unfold caller_terminate_all. do 2 (lock_step; [done |]). apply for_each_silent; [| done]. intros ch _ _. lock_quiet.
Qed.

(** The pools a shutdown drains, one after the other. *)
Lemma drain_pools_lock l g :
  idle g -> l ⊆ t_pools g ->
  wp mon g (for_each (fun p =>
      exec! LockPool None p; call! cs := PoolDrain p; bind! _ := for_each connection_close cs; exec! UnlockPool p; Ret ()) l)
    (fun _ g' => idle g').
Proof.
  revert g. induction l as [| p l IH]; intros g [Hh Ho] Hl; [done |]. cbn [for_each proc_bind].
  lock_step; [split; [done | split; [set_solver | done]] |]. destruct x as [| []]; [done |].
  lock_step; [done |]. rename x into cs. apply wp_bind.
  apply silent_bind; [apply for_each_silent; intros c Hc; apply close_silent; cbn; set_solver | done |]. intros [].
  lock_step; [done |]. apply IH; [done | cbn; set_solver].
Qed.

Lemma shutdown_thread g : idle g -> wp mon g (done_after (fun _ => CDone) client_shutdown) thread_post.
Proof.
  intros Hi. pose proof (proj2 Hi) as Ho. apply wp_bind. eapply (wp_mono _ _ _ (fun _ g' => idle g')); [done |].
  unfold client_shutdown. lock_step; [done |]. destruct x; [| done].
  lock_step; [done |]. rename x into drained. apply wp_bind.
  eapply wp_mono; [| apply drain_pools_lock; [done | cbn; set_solver]]. intros [] g1 Hi1. pose proof (proj2 Hi1) as Ho1.
  do 2 (lock_step; [done |]). eapply wp_mono; [| by apply terminate_all_silent]. by intros [] ? ->.
Qed.

Lemma handle_envelope_silent e c g : c ∈ t_conns g -> silent g (handle_envelope e c).
Proof. intros Hc Ho. unfold handle_envelope, deliver. lock_quiet. Qed.

Lemma end_session_silent c sid g : silent g (end_session c sid).
Proof. intros Ho. unfold end_session. lock_quiet. Qed.

Lemma retire_lock c endpoint g :
  idle g -> c ∈ t_conns g -> wp mon g (retire_connection c endpoint) (fun _ g' => idle g').
Proof.
  intros [Hh Ho] Hc. unfold retire_connection. lock_step; [done |]. lock_step; [done |]. apply wp_bind.
  eapply (wp_mono _ _ _ (fun _ g' => idle g' /\ c ∈ t_conns g' /\ t_retired g' = Some c)).
  - intros [] g1 ([Hh1 Ho1] & Hc1 & Hr). do 2 (lock_step; [done |]).
    apply silent_bind; [apply for_each_silent; intros; apply end_session_silent | done |]. intros [].
    by do 2 (lock_step; [done |]).
  - destruct x0 as [p |]; cbn [from_option]; [| done].
    lock_step; [split; [done | split; [cbn; by constructor | done]] |]. destruct x0 as [| []]; [done |].
    lock_step; [done |]. lock_step; [done |]. split; [done | split; [cbn; set_solver | done]].
Qed.

Lemma receive_loop_thread fuel c endpoint g :
  idle g -> c ∈ t_conns g -> wp mon g (done_after (fun _ => CDone) (receive_loop fuel c endpoint)) thread_post.
Proof.
  intros Hi Hc. apply wp_bind. eapply (wp_mono _ _ _ (fun _ g' => idle g')); [done |].
  induction fuel as [| fuel IH]; [done |]. pose proof (proj2 Hi) as Ho. cbn [receive_loop]. lock_step; [done |].
  destruct x as [e |]; [apply silent_bind; [by apply handle_envelope_silent | apply Hi | by intros []] | by apply retire_lock].
Qed.
End threads.

(** ** The invariant of the world *)
Section world.
Context (config : ClientConfig).
Abbreviation mon := (lock_monitor config).
Abbreviation maximum := (max_connections_per_endpoint config).

(** [names]: the endpoint each pool was made for.  A pool holds at most the
    configured number of connections, all of them to its endpoint. *)
Record state_ok (names : list string) (s : ClientState) : Prop := MkStateOk {
  so_names : length names = length (pool_list s);
  so_pools : forall e p, pools s !! e = Some p -> names !! p = Some e;
  so_full : forall p q, pool_list s !! p = Some q -> length (pool_connections q) <= maximum;
  so_conns : forall p q c, pool_list s !! p = Some q -> c ∈ pool_connections q ->
    exists conn, connections s !! c = Some conn /\ names !! p = Some (conn_endpoint conn);
  so_tasks : forall t task, inbound s !! t = Some task -> task_connection task < length (connections s)
}.

(** What a thread knows is so. *)
Record knows (names : list string) (s : ClientState) (g : thread_ghost) : Prop := MkKnows {
  k_named : forall p e, (p, e) ∈ t_named g -> names !! p = Some e;
  k_pools : forall p, p ∈ t_pools g -> p < length (pool_list s);
  k_conns : forall c, c ∈ t_conns g -> c < length (connections s);
  k_fresh : forall c e, t_fresh g = Some (c, e) -> exists conn, connections s !! c = Some conn /\ conn_endpoint conn = e;
  k_owes : forall c b, t_owes g = Some (c, b) -> c < length (connections s);
  k_retired : forall c, t_retired g = Some c -> is_closed s c = true
}.

(** The mutex a thread holds is locked, and room it has seen is still there. *)
Definition holds (s : ClientState) (g : thread_ghost) : Prop :=
  forall p, t_held g = Some p ->
    exists q, pool_list s !! p = Some q /\ pool_locked q = true /\
              (t_room g = true -> length (pool_connections q) < maximum).

(** What a thread will still add to the load counter of a connection. *)
Definition debt (c : ConnRef) (g : thread_ghost) : Z :=
  match t_owes g with
  | Some (c', b) => if decide (c = c') then (if b then 1 else -1) else 0
  | None => 0
  end.

Definition owed (c : ConnRef) (gs : list thread_ghost) : Z := foldr (fun g n => debt c g + n)%Z 0%Z gs.

(** The load counter, up to what is owed to it. *)
Definition counts (conn : TransportConnection) (owing : Z) : Prop :=
  bound_sessions conn = ((Z.of_nat (size (conn_sessions conn)) - owing) mod (U64_MAX + 1))%Z.

Definition thread_ok (names : list string) (s : ClientState) (th : client_thread) (g : thread_ghost) : Prop :=
  wp mon g (client_proc th) thread_post /\ knows names s g /\ holds s g.

Record world_ok (names : list string) (gs : list thread_ghost) (w : client_world) : Prop := MkWorldOk {
  wo_state : state_ok names (client w);
  wo_threads : Forall2 (thread_ok names (client w)) (client_threads w) gs;
  wo_exclusive : forall i j gi gj p, gs !! i = Some gi -> gs !! j = Some gj ->
    t_held gi = Some p -> t_held gj = Some p -> i = j;
  wo_holder : forall p q, pool_list (client w) !! p = Some q -> pool_locked q = true ->
    exists i g, gs !! i = Some g /\ t_held g = Some p;
  wo_counts : forall c conn, connections (client w) !! c = Some conn -> conn_closed conn = false ->
    counts conn (owed c gs)
}.

(** ** One step *)

(** The state only grows: pools and connections keep their endpoints, a closed
    connection stays closed. *)
Record grows (names : list string) (s : ClientState) (names' : list string) (s' : ClientState) : Prop := MkGrows {
  gr_names : forall p e, names !! p = Some e -> names' !! p = Some e;
  gr_pools : length (pool_list s) <= length (pool_list s');
  gr_conns : forall c conn, connections s !! c = Some conn ->
    exists conn', connections s' !! c = Some conn' /\ conn_endpoint conn' = conn_endpoint conn /\
                  (conn_closed conn = true -> conn_closed conn' = true)
}.

(** What a step of a thread does to the state and to its own ghost; the other
    threads see that pools it does not hold are left alone. *)
Record step_ok (names : list string) (s : ClientState) (g : thread_ghost)
    (names' : list string) (s' : ClientState) (g' : thread_ghost) : Prop := MkStepOk {
  st_grows : grows names s names' s';
  st_state : state_ok names' s';
  st_knows : knows names' s' g';
  st_holds : holds s' g';
  st_frame : forall p q, pool_list s !! p = Some q -> pool_list s' !! p = Some q \/ t_held g = Some p \/ pool_locked q = false;
  st_taken : forall p, t_held g' = Some p -> t_held g = Some p \/
    exists q, pool_list s !! p = Some q /\ pool_locked q = false;
  st_holder : forall p q', pool_list s' !! p = Some q' -> pool_locked q' = true ->
    t_held g' = Some p \/ (exists q, pool_list s !! p = Some q /\ pool_locked q = true /\ t_held g <> Some p);
  st_counts : forall c conn', connections s' !! c = Some conn' -> conn_closed conn' = false ->
    (exists conn, connections s !! c = Some conn /\ conn_closed conn = false /\
       forall rest, counts conn (debt c g + rest)%Z -> counts conn' (debt c g' + rest)%Z) \/
    (connections s !! c = None /\ bound_sessions conn' = 0%Z /\ conn_sessions conn' = ∅ /\ debt c g' = 0%Z)
}.

Lemma lookup_is_closed s c : is_closed s c = true <-> exists conn, connections s !! c = Some conn /\ conn_closed conn = true.
Proof. unfold is_closed. destruct (connections s !! c); cbn; naive_solver. Qed.

Lemma grows_length names s names' s' c :
  grows names s names' s' -> c < length (connections s) -> c < length (connections s').
Proof.
  intros Hg [conn Hc]%lookup_lt_is_Some. destruct (gr_conns _ _ _ _ Hg _ _ Hc) as (conn' & Hc' & _). by eapply lookup_lt_Some.
Qed.

Lemma knows_grows names s names' s' g : grows names s names' s' -> knows names s g -> knows names' s' g.
Proof.
  intros Hg [Hn Hp Hc Hf Ho Hr]. split.
  - intros p e Hin. by apply (gr_names _ _ _ _ Hg), Hn.
  - intros p Hin. pose proof (gr_pools _ _ _ _ Hg). specialize (Hp p Hin). lia.
  - intros c Hin. by eapply grows_length, Hc.
  - intros c e Hce. destruct (Hf c e Hce) as (conn & Hl & He).
    destruct (gr_conns _ _ _ _ Hg _ _ Hl) as (conn' & Hl' & He' & _). exists conn'. split; [done | congruence].
  - intros c b Hcb. by eapply grows_length, Ho.
  - intros c Hc'. apply lookup_is_closed. apply Hr, lookup_is_closed in Hc' as (conn & Hl & Hcl).
    destruct (gr_conns _ _ _ _ Hg _ _ Hl) as (conn' & Hl' & _ & Hcl'). exists conn'. auto.
Qed.

Lemma grows_refl names s s' :
  pool_list s' = pool_list s -> connections s' = connections s -> grows names s names s'.
Proof. intros Hp Hc. split; [done | by rewrite Hp | rewrite Hc; eauto]. Qed.

(** The step leaves pools and connections alone. *)
Lemma quiet_ok names s g s' g' :
  state_ok names s -> holds s g ->
  pools s' = pools s -> pool_list s' = pool_list s -> connections s' = connections s ->
  (forall t task, inbound s' !! t = Some task -> task_connection task < length (connections s)) ->
  knows names s g' -> t_held g' = t_held g -> t_room g' = t_room g -> t_owes g' = t_owes g ->
  step_ok names s g names s' g'.
Proof.
  intros [H1 H2 H3 H4 H5] Hh Hps Hpl Hcs Hin Hk He Hr Ho. pose proof (grows_refl names s s' Hpl Hcs) as Hg. split.
  - done.
  - split; rewrite ?Hps, ?Hpl, ?Hcs; auto.
  - by eapply knows_grows.
  - unfold holds. rewrite He, Hr, Hpl. exact Hh.
  - rewrite Hpl. auto.
  - rewrite He. auto.
  - rewrite Hpl, He. intros p q' Hp Hl. destruct (decide (t_held g = Some p)); [by left | right; eauto].
  - rewrite Hcs. intros c conn Hc Hcl. left. exists conn. unfold debt. rewrite Ho. auto.
Qed.

Lemma list_alter_Some {A} (f : A -> A) (l : list A) i j y :
  alter f i l !! j = Some y <-> (j = i /\ exists x, l !! i = Some x /\ y = f x) \/ (j <> i /\ l !! j = Some y).
Proof.
  destruct (decide (j = i)) as [-> | Hne].
  - rewrite list_lookup_alter_eq, fmap_Some. naive_solver.
  - rewrite list_lookup_alter_ne by done. naive_solver.
Qed.

(** A pool is updated by the holder of its mutex, or by who takes it. *)
Lemma update_pool_ok names s g g' p f q :
  state_ok names s -> knows names s g ->
  pool_list s !! p = Some q -> t_held g = Some p \/ (t_held g = None /\ pool_locked q = false) ->
  length (pool_connections (f q)) <= maximum ->
  (forall c, c ∈ pool_connections (f q) -> c ∈ pool_connections q \/
     exists conn, connections s !! c = Some conn /\ names !! p = Some (conn_endpoint conn)) ->
  knows names s g' -> t_owes g' = t_owes g ->
  t_held g' = (if pool_locked (f q) then Some p else None) ->
  (t_room g' = true -> length (pool_connections (f q)) < maximum) ->
  step_ok names s g names (update_pool p f s) g'.
Proof.
  intros [H1 H2 H3 H4 H5] Hk Hp Hg Hlen Hin Hk' Ho Hh Hr.
  assert (Hgr : grows names s names (update_pool p f s)).
  { split; [done | cbn; by rewrite length_alter | cbn; eauto]. }
  split.
  - done.
  - split; cbn; [by rewrite length_alter | done | | | done].
    + intros p' q' [[-> (q1 & Hq1 & ->)] | [Hne Hq']]%list_alter_Some; [| by eapply H3].
      rewrite Hp in Hq1. by injection Hq1 as <-.
    + intros p' q' c [[-> (q1 & Hq1 & ->)] | [Hne Hq']]%list_alter_Some Hc; [| by eapply H4].
      rewrite Hp in Hq1. injection Hq1 as <-. destruct (Hin c Hc) as [Hc' | ?]; [by eapply H4 | done].
  - by eapply knows_grows.
  - intros p' Hp'. rewrite Hh in Hp'. destruct (pool_locked (f q)) eqn:Hl; [injection Hp' as <- | done].
    exists (f q). cbn. rewrite list_lookup_alter_eq, Hp. cbn. auto.
  - intros p' q' Hq'. destruct (decide (p' = p)) as [-> | Hne].
    + rewrite Hp in Hq'. injection Hq' as <-. destruct Hg as [? | [_ ?]]; auto.
    + left. cbn. by rewrite list_lookup_alter_ne.
  - intros p' Hp'. rewrite Hh in Hp'. destruct (pool_locked (f q)); [injection Hp' as <- | done].
    destruct Hg as [? | [_ ?]]; [by left | right; eauto].
  - cbn. intros p' q' [[-> (q1 & Hq1 & ->)] | [Hne Hq']]%list_alter_Some Hl.
    + rewrite Hp in Hq1. injection Hq1 as <-. left. by rewrite Hh, Hl.
    + right. exists q'. split_and!; [done | done |]. destruct Hg as [-> | [-> _]]; congruence.
  - cbn. intros c conn Hc Hcl. left. exists conn. unfold debt. rewrite Ho. auto.
Qed.

(** A connection is updated: it keeps its endpoint and its counter accounts for
    the change. *)
Lemma update_connection_ok names s g g' c f :
  state_ok names s -> holds s g ->
  (grows names s names (update_connection c f s) -> knows names (update_connection c f s) g') ->
  t_held g' = t_held g -> t_room g' = t_room g ->
  (forall conn, conn_endpoint (f conn) = conn_endpoint conn) ->
  (forall conn, conn_closed conn = true -> conn_closed (f conn) = true) ->
  (forall d, d <> c -> debt d g' = debt d g) ->
  (forall conn rest, connections s !! c = Some conn -> conn_closed (f conn) = false ->
     conn_closed conn = false /\ (counts conn (debt c g + rest) -> counts (f conn) (debt c g' + rest)))%Z ->
  step_ok names s g names (update_connection c f s) g'.
Proof.
  intros [H1 H2 H3 H4 H5] Hh Hk He Hr Hep Hcl Hd Hcount.
  assert (Hlook : forall d conn, connections s !! d = Some conn ->
    exists conn', connections (update_connection c f s) !! d = Some conn' /\
                  conn_endpoint conn' = conn_endpoint conn /\ (conn_closed conn = true -> conn_closed conn' = true)).
  { intros d conn Hc. cbn. destruct (decide (d = c)) as [-> | Hne].
    - exists (f conn). rewrite list_lookup_alter_eq, Hc. auto.
    - exists conn. by rewrite list_lookup_alter_ne. }
  assert (Hgr : grows names s names (update_connection c f s)) by (by split).
  split.
  - done.
  - split; cbn; [done | done | done | | by rewrite length_alter].
    intros p q d Hp Hd'. destruct (H4 p q d Hp Hd') as (conn & Hc & Hn).
    destruct (Hlook d conn Hc) as (conn' & Hc' & He' & _). exists conn'. split; [exact Hc' | congruence].
  - by apply Hk.
  - unfold holds. cbn. rewrite He, Hr. exact Hh.
  - auto.
  - rewrite He. auto.
  - cbn. rewrite He. intros p q' Hp Hl. destruct (decide (t_held g = Some p)); [by left | right; eauto].
  - cbn. intros d conn' [[-> (conn & Hc & ->)] | [Hne Hc]]%list_alter_Some Hcl'; left.
    + exists conn. destruct (Hcount conn 0%Z Hc Hcl') as [Ho _]. split_and!; [done | done |].
      intros rest. by apply Hcount.
    + exists conn'. rewrite Hd by done. auto.
Qed.

(** A pool is made for an endpoint that has none. *)
Lemma pool_ok names s g endpoint :
  state_ok names s -> knows names s g -> holds s g ->
  exists names', step_ok names s g names' (snd (pool endpoint s)) (know_pool g (fst (pool endpoint s)) endpoint).
Proof.
  intros Hs Hk Hh. unfold pool. destruct (pools s !! endpoint) as [p |] eqn:Hp.
  - exists names. apply quiet_ok; try done; [apply Hs |]. pose proof (so_pools _ _ Hs _ _ Hp) as Hn.
    assert (p < length (pool_list s)) by (rewrite <- (so_names _ _ Hs); by eapply lookup_lt_Some).
    destruct Hk. split; cbn; try done.
    + intros p' e [[= -> ->] | Hin]%elem_of_cons; auto.
    + intros p' [-> | Hin]%elem_of_cons; auto.
  - exists (names ++ [endpoint]). cbn. set (s' := with_pools s _ _).
    pose proof (so_names _ _ Hs) as Hlen.
    assert (Hgr : grows names s (names ++ [endpoint]) s').
    { split; [intros p e Hp'; by apply lookup_app_l_Some | cbn; rewrite length_app; lia | cbn; eauto]. }
    assert (Hnew : (names ++ [endpoint]) !! length (pool_list s) = Some endpoint).
    { rewrite <- Hlen, lookup_app_r by done. by rewrite Nat.sub_diag. }
    destruct Hs as [H1 H2 H3 H4 H5]. split.
    + done.
    + split; cbn.
      * rewrite !length_app. cbn. lia.
      * intros e p [[<- <-] | [Hne Hp']]%lookup_insert_Some; [done | by apply lookup_app_l_Some, H2].
      * intros p q [Hq | [_ Hq]]%lookup_app_Some; [by eapply H3 |]. apply list_lookup_singleton_Some in Hq as [_ <-]. cbn. lia.
      * intros p q c [Hq | [_ Hq]]%lookup_app_Some Hc.
        -- destruct (H4 p q c Hq Hc) as (conn & Hl & Hn). exists conn. split; [done | by apply lookup_app_l_Some].
        -- apply list_lookup_singleton_Some in Hq as [_ <-]. by apply not_elem_of_nil in Hc.
      * done.
    + apply (knows_grows _ _ _ _ _ Hgr) in Hk as [K1 K2 K3 K4 K5 K6]. split; cbn; try done.
      * intros p e [[= -> ->] | Hin]%elem_of_cons; [done | by apply K1].
      * intros p [-> | Hin]%elem_of_cons; [rewrite length_app; cbn; lia | by apply K2].
    + intros p Hp'. destruct (Hh p Hp') as (q & Hq & Hl). exists q. split; [by apply lookup_app_l_Some | done].
    + intros p q Hq. left. by apply lookup_app_l_Some.
    + auto.
    + cbn. intros p q' [Hq | [_ Hq]]%lookup_app_Some Hl.
      * destruct (decide (t_held g = Some p)); [by left | right; eauto].
      * apply list_lookup_singleton_Some in Hq as [_ <-]. done.
    + cbn. intros c conn Hc Hcl. left. eauto.
Qed.

(** A connection is made. *)
Lemma new_connection_ok names s g endpoint sender :
  state_ok names s -> knows names s g -> holds s g ->
  step_ok names s g names (snd (new_connection endpoint sender s))
    (set_fresh (know_conns g [fst (new_connection endpoint sender s)]) (Some (fst (new_connection endpoint sender s), endpoint))).
Proof.
  intros Hs Hk Hh. cbn. set (s' := snd (new_connection endpoint sender s)).
  assert (Hgr : grows names s names s').
  { split; [done | done |]. intros c conn Hc. exists conn. split; [by apply lookup_app_l_Some | done]. }
  assert (Hnew : connections s' !! length (connections s) = Some (MkConnection (next_connection_id s) endpoint sender ∅ 0 false)).
  { cbn. rewrite lookup_app_r by done. by rewrite Nat.sub_diag. }
  destruct Hs as [H1 H2 H3 H4 H5]. split.
  - done.
  - split; cbn; [done | done | done | |].
    + intros p q c Hq Hc. destruct (H4 p q c Hq Hc) as (conn & Hl & Hn). exists conn. split; [by apply lookup_app_l_Some | done].
    + intros t task Ht. specialize (H5 t task Ht). rewrite length_app. cbn. lia.
  - pose proof Hk as [_ _ _ _ K5' _]. apply (knows_grows _ _ _ _ _ Hgr) in Hk as [K1 K2 K3 K4 K5 K6]. split; cbn; try done.
    + intros c [-> | Hin]%elem_of_cons; [rewrite length_app; cbn; lia | by apply K3].
    + intros c e [= <- <-]. eauto.
  - exact Hh.
  - auto.
  - auto.
  - cbn. intros p q' Hp Hl. destruct (decide (t_held g = Some p)); [by left | right; eauto].
  - cbn. intros c conn [Hc | [Hle Hc]]%lookup_app_Some Hcl; [left; eauto |].
    right. assert (c = length (connections s)) as ->.
    { apply lookup_lt_Some in Hc. cbn in Hc. lia. }
    apply list_lookup_singleton_Some in Hc as [_ <-]. cbn. split_and!; [by apply lookup_ge_None | done | done |].
    destruct Hk as [_ _ _ _ K5 _]. unfold debt. cbn. destruct (t_owes g) as [[c' b] |] eqn:Ho; [| done].
    specialize (K5 c' b eq_refl). case_decide; [lia | done].
Qed.

Lemma debt_other c c' g x b : t_owes g = None -> c <> c' -> debt c (set_owes g (if x : bool then Some (c', b) else None)) = debt c g.
Proof. intros Ho Hne. unfold debt. cbn. rewrite Ho. destruct x; [by rewrite decide_False | done]. Qed.

Lemma debt_paid c c' g b : t_owes g = Some (c', b) -> c <> c' -> debt c (set_owes g None) = debt c g.
Proof. intros Ho Hne. unfold debt. cbn. rewrite Ho. by rewrite decide_False. Qed.

Lemma debt_own c g b : t_owes g = Some (c, b) -> debt c g = (if b then 1 else -1)%Z.
Proof. intros Ho. unfold debt. rewrite Ho. by rewrite decide_True. Qed.

(** The two halves of [bind] and [unbind] keep the account. *)
Lemma counts_insert conn sid n :
  counts conn n ->
  counts (set_sessions (union {[sid]}) conn) ((if bool_decide (sid ∉ conn_sessions conn) then 1 else 0) + n)%Z.
Proof.
  unfold counts. cbn. intros ->. f_equal. case_bool_decide as Hin.
  - rewrite size_union by set_solver. rewrite size_singleton. lia.
  - replace ({[sid]} ∪ conn_sessions conn) with (conn_sessions conn) by set_solver. lia.
Qed.

Lemma counts_remove conn sid n :
  counts conn n ->
  counts (set_sessions (.∖ {[sid]}) conn) ((if bool_decide (sid ∈ conn_sessions conn) then -1 else 0) + n)%Z.
Proof.
  unfold counts. cbn. intros ->. f_equal. case_bool_decide as Hin.
  - rewrite size_difference by set_solver. rewrite size_singleton.
    assert (size (conn_sessions conn) <> 0); [| lia]. intros Hz%size_empty_inv. set_solver.
  - replace (conn_sessions conn ∖ {[sid]}) with (conn_sessions conn) by set_solver. lia.
Qed.

Lemma counts_add conn n : counts conn (1 + n)%Z -> counts (set_bound (fun n => wrapping_add n 1) conn) n.
Proof.
  unfold counts, wrapping_add. cbn. intros ->. rewrite Zplus_mod_idemp_l. f_equal. lia.
Qed.

Lemma counts_sub conn n : counts conn (-1 + n)%Z -> counts (set_bound (fun n => wrapping_sub n 1) conn) n.
Proof.
  unfold counts, wrapping_sub. cbn. intros ->. rewrite Zminus_mod_idemp_l. f_equal. lia.
Qed.

Lemma terminate_local_core sid error s :
  let s' := terminate_local sid error s in
  pools s' = pools s /\ pool_list s' = pool_list s /\ connections s' = connections s /\ inbound s' = inbound s.
Proof. unfold terminate_local. destruct (Caller.terminate (receivers s) sid) as [[ch |] r]; done. Qed.

Lemma take_pending_core sid c s :
  let s' := snd (take_pending sid c s) in
  pools s' = pools s /\ pool_list s' = pool_list s /\ connections s' = connections s /\ inbound s' = inbound s.
Proof. unfold take_pending. repeat case_match; done. Qed.

Lemma knows_conns names s g l : knows names s g -> (forall c, c ∈ l -> c < length (connections s)) -> knows names s (know_conns g l).
Proof. intros [] Hl. split; cbn; try done. intros c [? | ?]%elem_of_app; auto. Qed.

Lemma knows_owes names s g c b : knows names s g -> c < length (connections s) -> knows names s (set_owes g (Some (c, b))).
Proof. intros [] Hc. split; cbn; try done. by intros c' b' [= <- <-]. Qed.

Lemma knows_owes_none names s g : knows names s g -> knows names s (set_owes g None).
Proof. intros []. by split. Qed.

Lemma knows_held names s g x room : knows names s g -> knows names s (set_held g x room).
Proof. intros []. by split. Qed.

Lemma retired_closed names s g c conn :
  knows names s g -> t_retired g = Some c -> connections s !! c = Some conn -> conn_closed conn = true.
Proof. intros Hk Hr Hc. apply (k_retired _ _ _ Hk), lookup_is_closed in Hr as (conn' & Hc' & Hcl). congruence. Qed.

(** The pools are taken out of the registry. *)
Lemma drained_ok names s g g' :
  state_ok names s -> holds s g -> knows names s g' ->
  t_held g' = t_held g -> t_room g' = t_room g -> t_owes g' = t_owes g ->
  step_ok names s g names (with_pools s ∅ (pool_list s)) g'.
Proof.
  intros Hs Hh Hk He Hr Ho.
  destruct (quiet_ok names s g s g' Hs Hh eq_refl eq_refl eq_refl (so_tasks _ _ Hs) Hk He Hr Ho)
    as [[] [] [] ? ? ? ? ?].
  split; try done; by split.
Qed.

(** The holder of the mutex takes connections out of its pool. *)
Lemma shrink_pool_ok names s g g' p f :
  state_ok names s -> knows names s g -> holds s g -> t_held g = Some p ->
  (forall q, pool_locked (f q) = pool_locked q) ->
  (forall q, length (pool_connections (f q)) <= length (pool_connections q)) ->
  (forall q, pool_connections (f q) ⊆ pool_connections q) ->
  knows names s g' -> t_owes g' = t_owes g -> t_held g' = Some p ->
  (forall q, pool_list s !! p = Some q -> t_room g' = true ->
     t_room g = true \/ length (pool_connections (f q)) < maximum) ->
  step_ok names s g names (update_pool p f s) g'.
Proof.
  intros Hs Hk Hh Hp Hl Hlen Hsub Hk' Ho Hp' Hr. destruct (Hh p Hp) as (q & Hq & Hlock & Hroom).
  pose proof (so_full _ _ Hs _ _ Hq). specialize (Hlen q). apply (update_pool_ok names s g g' p f q); try done.
  - by left.
  - lia.
  - intros c Hc. left. by apply Hsub.
  - by rewrite Hl, Hlock.
  - intros Hr'. destruct (Hr q Hq Hr') as [Hr0 | ?]; [| done]. specialize (Hroom Hr0). lia.
Qed.

Lemma min_by_key_elem {A} (key : A -> Z) (l : list A) x : min_by_key key l = Some x -> x ∈ l.
Proof.
  revert x. induction l as [| y l IH]; intros x; cbn; [done |].
  destruct (min_by_key key l) as [z |]; [| intros [= ->]; by constructor].
  case_match; intros [= <-]; [by constructor | constructor; by apply IH].
Qed.

Lemma pool_conns_range names s p q c :
  state_ok names s -> pool_list s !! p = Some q -> c ∈ pool_connections q -> c < length (connections s).
Proof. intros Hs Hq Hc. destruct (so_conns _ _ Hs _ _ _ Hq Hc) as (conn & Hl & _). by eapply lookup_lt_Some. Qed.

(** The calls on the pools. *)
Definition pool_call X (e : clientE X) : bool :=
  match e with
  | GetPool _ | FindPool _ | DrainPools | LockPool _ _ | UnlockPool _ | RetainOpen _ | PushConnection _ _
  | MinConnection _ | RemoveConnection _ _ | PoolDrain _ => true
  | _ => false
  end.

(** The map of pools names pools that exist. *)
Lemma named_pool_range names s p :
  state_ok names s -> p ∈ (map_to_list (pools s)).*2 -> p < length (pool_list s).
Proof.
  intros Hs ([e q] & -> & Hin%elem_of_map_to_list)%list_elem_of_fmap. cbn.
  rewrite <- (so_names _ _ Hs). eapply lookup_lt_Some. by apply (so_pools _ _ Hs e).
Qed.

(** A reserved place takes a connection to the endpoint of its pool. *)
Lemma push_pool_ok names s g p c :
  state_ok names s -> knows names s g -> holds s g -> call_allowed unit g (PushConnection p c) ->
  step_ok names s g names (update_pool p (set_connections (fun l => l ++ [c])) s) (set_held g (Some p) false).
Proof.
  intros Hs Hk Hh (Hp & Hr & e & Hin & Hf). destruct (Hh p Hp) as (q & Hq & Hl & Hroom).
  apply (update_pool_ok names s g _ p _ q); try done; [by left | | | by apply knows_held | cbn; by rewrite Hl].
  - cbn. rewrite length_app. cbn. specialize (Hroom Hr). lia.
  - cbn. intros c' [? | ->%list_elem_of_singleton]%elem_of_app; [by left | right].
    destruct (k_fresh _ _ _ Hk _ _ Hf) as (conn & Hc & <-). exists conn. split; [done |]. by apply (k_named _ _ _ Hk).
Qed.

Lemma pool_call_keeps names X (e : clientE X) s h x s' g :
  pool_call X e = true -> state_ok names s -> knows names s g -> holds s g ->
  call_allowed X g e -> client_step X s e h = Some (x, s') ->
  exists names' g', lock_observe config X g e x g' /\ step_ok names s g names' s' g'.
Proof.
  intros Hpc Hs Hk Hh Hal Hst. destruct e; try done; cbn [client_step call_allowed] in *.
  - injection Hst as Hst. destruct (pool_ok names s g endpoint Hs Hk Hh) as (names' & Hok).
    rewrite Hst in Hok. exists names', (know_pool g x endpoint). by split.
  - injection Hst as <- <-. destruct (pools s !! endpoint) as [p |] eqn:Hp.
    + destruct (pool_ok names s g endpoint Hs Hk Hh) as (names' & Hok). unfold pool in Hok. rewrite Hp in Hok.
      exists names', (know_pool g p endpoint). by split.
    + exists names, g. split; [by split |]. by apply quiet_ok; try apply Hs.
  - destruct h; try done. case_match eqn:Hd; [| done]. simplify_eq.
    apply andb_true_iff in Hd as [_ Hd%bool_decide_eq_true].
    exists names, (know_pools g x). split; [by split |].
    assert (Hx : forall p, p ∈ x -> p < length (pool_list s)).
    { intros p Hp. rewrite <- (elem_of_list_to_set (C := gset nat)), Hd, elem_of_list_to_set in Hp.
      by eapply named_pool_range. }
    apply drained_ok; try done. destruct Hk. split; cbn; try done. intros p [? | ?]%elem_of_app; auto.
  - destruct Hal as [Hp [Hn _]]. destruct (pool_list s !! p) as [q |] eqn:Hq; [| done].
    destruct (pool_locked q) eqn:Hl.
    + destruct deadline; [| done]. destruct h; try done. simplify_eq. exists names, g. split; [by split |].
      by apply quiet_ok; try apply Hs.
    + simplify_eq. exists names, (set_held g (Some p) false). split; [split; [done | by destruct deadline] |].
      apply (update_pool_ok names s g _ p _ q); try done; [by right | exact (so_full _ _ Hs _ _ Hq) | by left | by apply knows_held].
  - injection Hst as <- <-. exists names, (set_held g None false). split; [by split |].
    destruct (Hh p Hal) as (q & Hq & _). apply (update_pool_ok names s g _ p _ q); try done;
      [by left | exact (so_full _ _ Hs _ _ Hq) | by left | by apply knows_held].
  - injection Hst as <- <-. eexists names, _. split; [by split |]. cbn [lock_after].
    apply shrink_pool_ok; try done; [intros; apply length_filter | intros q c Hc; by apply (list_elem_of_filter _ _ c) in Hc as [_ ?] | by apply knows_held |].
    cbn. intros q -> Hr%Nat.ltb_lt. by right.
  - injection Hst as <- <-. exists names, (set_held g (Some p) false). split; [by split |]. by apply push_pool_ok.
  - injection Hst as <- <-. destruct (Hh p Hal) as (q & Hq & _). rewrite Hq. cbn [from_option].
    destruct (min_by_key (bound_of s) (pool_connections q)) as [c |] eqn:Hm; cbn [from_option].
    + exists names, (know_conns g [c]). split; [by split |]. apply quiet_ok; try done; [apply Hs |].
      apply knows_conns; [done |]. intros c' ->%list_elem_of_singleton. eapply pool_conns_range; [done | done | by eapply min_by_key_elem].
    + exists names, g. split; [by split |]. by apply quiet_ok; try apply Hs.
  - injection Hst as <- <-. exists names, g. split; [by split |].
    apply shrink_pool_ok; try done; [intros; apply length_filter | intros q c' Hc; by apply (list_elem_of_filter _ _ c') in Hc as [_ ?] |].
    intros q _ Hr. by left.
  - injection Hst as <- <-. destruct (Hh p Hal) as (q & Hq & _). rewrite Hq. cbn [from_option].
    exists names, (know_conns g (pool_connections q)). split; [by split |].
    apply shrink_pool_ok; try done; [intros; cbn; lia | intros q' c Hc; by apply not_elem_of_nil in Hc | | by left].
    apply knows_conns; [done |]. intros c Hc. by eapply pool_conns_range.
Qed.

(** Aborting tasks changes none of their connections. *)
Lemma aborted_tasks (P : ConnRef -> Prop) (ts : list nat) (l : list InboundTask) :
  (forall t task, l !! t = Some task -> P (task_connection task)) ->
  forall t task,
    foldr (fun t => alter (fun x => MkInboundTask (task_connection x) (task_finished x) true) t) l ts !! t = Some task ->
    P (task_connection task).
Proof.
  intros Hl. induction ts as [| t0 ts IH]; cbn; [done |].
  intros t task [[-> (x & Hx & ->)] | [_ Ht]]%list_alter_Some; [exact (IH t0 x Hx) | exact (IH t task Ht)].
Qed.

(** The calls on a connection that change it. *)
Definition connection_call X (e : clientE X) : bool :=
  match e with
  | BindInsert _ _ | BoundAdd _ | UnbindRemove _ _ | BoundSub _ | DrainSessions _ | BoundClear _
  | StoreClosed _ | SwapClosed _ => true
  | _ => false
  end.

(** A connection that is closed needs no account. *)
Lemma closed_connection_ok names s g c f :
  state_ok names s -> knows names s g -> holds s g -> t_retired g = Some c ->
  (forall conn, conn_endpoint (f conn) = conn_endpoint conn) ->
  (forall conn, conn_closed (f conn) = conn_closed conn) ->
  step_ok names s g names (update_connection c f s) g.
Proof.
  intros Hs Hk Hh Hr He Hc. apply update_connection_ok; try done; [intros; by eapply knows_grows | intros conn; by rewrite Hc |].
  intros conn rest Hl Hcl. rewrite Hc in Hcl. pose proof (retired_closed _ _ _ _ _ Hk Hr Hl). congruence.
Qed.

Lemma connection_call_keeps names X (e : clientE X) s h x s' g :
  connection_call X e = true -> state_ok names s -> knows names s g -> holds s g ->
  call_allowed X g e -> client_step X s e h = Some (x, s') ->
  exists names' g', lock_observe config X g e x g' /\ step_ok names s g names' s' g'.
Proof.
  intros Hcc Hs Hk Hh Hal Hst. destruct e; try done; cbn [client_step call_allowed] in *.
  - destruct Hal as [Hc Ho]. destruct (connections s !! c) as [conn |] eqn:Hl; [| done]. cbn in Hst. simplify_eq.
    eexists names, _. split; [by split |]. cbn [lock_after]. apply update_connection_ok; try done.
    + intros Hg. apply (knows_grows _ _ _ _ _ Hg) in Hk. case_bool_decide; [| by apply knows_owes_none].
      apply knows_owes; [done |]. cbn. rewrite length_alter. by eapply lookup_lt_Some.
    + intros d Hd. by apply debt_other.
    + intros conn' rest Hl' Hcl. rewrite Hl in Hl'. injection Hl' as <-. split; [exact Hcl |]. unfold debt. rewrite Ho. cbn [t_owes set_owes].
      intros Hn. apply (counts_insert _ sid) in Hn. revert Hn. case_bool_decide; [by rewrite decide_True |]. done.
  - injection Hst as <- <-. exists names, (set_owes g None). split; [by split |]. apply update_connection_ok; try done.
    + intros Hg. by apply knows_owes_none, (knows_grows _ _ _ _ _ Hg).
    + intros d Hd. by eapply debt_paid.
    + intros conn rest Hl Hcl. split; [exact Hcl |]. rewrite (debt_own _ _ _ Hal). apply counts_add.
  - destruct Hal as [Hc Ho]. destruct (connections s !! c) as [conn |] eqn:Hl; [| done]. cbn in Hst. simplify_eq.
    eexists names, _. split; [by split |]. cbn [lock_after]. apply update_connection_ok; try done.
    + intros Hg. apply (knows_grows _ _ _ _ _ Hg) in Hk. case_bool_decide; [| by apply knows_owes_none].
      apply knows_owes; [done |]. cbn. rewrite length_alter. by eapply lookup_lt_Some.
    + intros d Hd. by apply debt_other.
    + intros conn' rest Hl' Hcl. rewrite Hl in Hl'. injection Hl' as <-. split; [exact Hcl |]. unfold debt. rewrite Ho. cbn [t_owes set_owes].
      intros Hn. apply (counts_remove _ sid) in Hn. revert Hn. case_bool_decide; [by rewrite decide_True |]. done.
  - injection Hst as <- <-. exists names, (set_owes g None). split; [by split |]. apply update_connection_ok; try done.
    + intros Hg. by apply knows_owes_none, (knows_grows _ _ _ _ _ Hg).
    + intros d Hd. by eapply debt_paid.
    + intros conn rest Hl Hcl. split; [exact Hcl |]. rewrite (debt_own _ _ _ Hal). apply counts_sub.
  - destruct Hal as [Hr Hc]. destruct (connections s !! c) as [conn |] eqn:Hl; [| done]. cbn in Hst.
    destruct h; try done. case_match; [| done]. simplify_eq. exists names, g. split; [by split |]. by apply closed_connection_ok.
  - destruct Hal as [Hr Hc]. injection Hst as <- <-. exists names, g. split; [by split |]. by apply closed_connection_ok.
  - injection Hst as <- <-. exists names, (set_retired g (Some c)). split; [by split |]. apply update_connection_ok; try done.
    intros Hg. pose proof (k_conns _ _ _ Hk c Hal) as [conn Hl]%lookup_lt_is_Some.
    apply (knows_grows _ _ _ _ _ Hg) in Hk as [K1 K2 K3 K4 K5 K6]. split; try done. intros c' [= <-].
    apply lookup_is_closed. exists (set_closed conn). cbn. by rewrite list_lookup_alter_eq, Hl.
  - destruct (connections s !! c) as [conn |] eqn:Hl; [| done]. cbn in Hst. simplify_eq.
    exists names, g. split; [by split |]. apply update_connection_ok; try done. intros Hg. by eapply knows_grows.
Qed.

(** Every call of a thread that keeps to the discipline. *)
Lemma step_keeps names X (e : clientE X) s h x s' g :
  state_ok names s -> knows names s g -> holds s g ->
  lock_allowed X g e -> client_step X s e h = Some (x, s') ->
  exists names' g', lock_observe config X g e x g' /\ step_ok names s g names' s' g'.
Proof.
  intros Hs Hk Hh [_ Hal] Hst.
  destruct (pool_call X e) eqn:Hpc; [by eapply pool_call_keeps |].
  destruct (connection_call X e) eqn:Hcc; [by eapply connection_call_keeps |].
  assert (Hquiet : forall s1,
    pools s1 = pools s /\ pool_list s1 = pool_list s /\ connections s1 = connections s /\ inbound s1 = inbound s ->
    step_ok names s g names s1 g).
  { intros s1 (H1 & H2 & H3 & H4). apply quiet_ok; try done. rewrite H4. apply Hs. }
  destruct e; try done; clear Hpc Hcc; cbn [client_step call_allowed] in *.
  all: try (injection Hst as <- <-).
  all: try (exists names, g; split; [by split | by apply Hquiet]).
  all: try (destruct (connections s !! c) as [conn |] eqn:Hc; cbn in Hst; [| done]).
  all: try (repeat case_match; simplify_eq; exists names, g; (split; [by split | by apply Hquiet])).
  - exists names, g. split; [by split |]. apply Hquiet, terminate_local_core.
  - eexists names, _. split; [by split |]. by apply new_connection_ok.
  - exists names, g. injection Hst as Hst. split; [by split |]. apply Hquiet.
    pose proof (take_pending_core sid c s) as Ht. by rewrite Hst in Ht.
  - exists names, g. split; [by split |]. apply quiet_ok; try done. cbn. intros t task [Ht | [_ Ht]]%lookup_app_Some.
    + exact (so_tasks _ _ Hs t task Ht).
    + apply list_lookup_singleton_Some in Ht as [_ <-]. by apply (k_conns _ _ _ Hk).
  - exists names, g. split; [by split |]. apply quiet_ok; try done. cbn. intros t task (task' & -> & Ht)%list_lookup_fmap_Some.
    pose proof (so_tasks _ _ Hs _ _ Ht). case_bool_decide as Hd; cbn; [by rewrite <- Hd | done].
  - exists names, g. split; [by split |]. apply quiet_ok; try done. exact (aborted_tasks (fun c => c < length (connections s)) (inbound_tasks s) _ (so_tasks _ _ Hs)).
Qed.

(** ** Every step of the world *)
Lemma owed_insert c gs j g :
  gs !! j = Some g ->
  exists rest, owed c gs = (debt c g + rest)%Z /\ forall g', owed c (<[j := g']> gs) = (debt c g' + rest)%Z.
Proof.
  revert j. induction gs as [| g0 gs IH]; intros [| j] Hj; cbn in Hj; try done.
  - injection Hj as ->. by exists (owed c gs).
  - destruct (IH j Hj) as (rest & Ho & Hi). exists (debt c g0 + rest)%Z.
    split; [cbn; fold (owed c gs); lia |]. intros g'.
    change (owed c (<[S j := g']> (g0 :: gs))) with (debt c g0 + owed c (<[j := g']> gs))%Z. rewrite Hi. lia.
Qed.

Lemma owed_app c gs g : owed c (gs ++ [g]) = (owed c gs + debt c g)%Z.
Proof. unfold owed. induction gs as [| g0 gs IH]; cbn; [lia |]. rewrite IH. lia. Qed.

Lemma owed_zero c gs : (forall i g, gs !! i = Some g -> debt c g = 0%Z) -> owed c gs = 0%Z.
Proof.
  induction gs as [| g gs IH]; intros Hz; [done |]. cbn. fold (owed c gs). rewrite IH by (intros i; apply (Hz (S i))).
  by rewrite (Hz 0 g).
Qed.

Lemma debt_range names s g c : knows names s g -> length (connections s) <= c -> debt c g = 0%Z.
Proof.
  intros Hk Hle. unfold debt. destruct (t_owes g) as [[c' b] |] eqn:Ho; [| done].
  pose proof (k_owes _ _ _ Hk _ _ Ho). case_decide; [lia | done].
Qed.

(** The step of one thread, seen from the world. *)
Lemma thread_step_ok names gs w j th g names' s' g' p :
  world_ok names gs w -> client_threads w !! j = Some th -> gs !! j = Some g ->
  step_ok names (client w) g names' s' g' -> wp mon g' p thread_post ->
  world_ok names' (<[j := g']> gs) (MkClientWorld s' (<[j := client_continue th p]> (client_threads w))).
Proof.
  intros [Hs Hts Hex Hho Hco] Hth Hg [Hgr Hs' Hk' Hh' Hfr Hta Hhol Hct] Hwp.
  assert (Hj : j < length gs) by (by eapply lookup_lt_Some). split; cbn.
  - done.
  - apply Forall2_same_length_lookup. rewrite !length_insert. split; [by eapply Forall2_length |].
    intros i th' gi. destruct (decide (i = j)) as [-> | Hne].
    + rewrite !list_lookup_insert_eq by (rewrite <- ?(Forall2_length _ _ _ Hts) in *; lia).
      intros [= <-] [= <-]. split; [by destruct th | done].
    + rewrite !list_lookup_insert_ne by done. intros Hti Hgi.
      destruct (Forall2_lookup_lr _ _ _ _ _ _ Hts Hti Hgi) as (Hw & Hk & Hh). split_and!; [done | by eapply knows_grows |].
      intros q Hq. destruct (Hh q Hq) as (pl & Hpl & Hl & Hroom). destruct (Hfr q pl Hpl) as [? | [Hgj | ?]]; [by exists pl | | congruence].
      destruct Hne. by eapply Hex.
  - intros i k gi gk q. destruct (decide (i = j)) as [-> | Hi], (decide (k = j)) as [-> | Hk];
      rewrite ?list_lookup_insert_eq, ?list_lookup_insert_ne by done; [done | | | by eauto].
    + intros [= <-] Hgk Hq Hqk. destruct (Hta q Hq) as [? | (pl & Hpl & Hl)]; [by eapply Hex |].
      destruct (Forall2_lookup_r _ _ _ _ _ Hts Hgk) as (thk & _ & _ & _ & Hh). destruct (Hh q Hqk) as (? & ? & ? & _). congruence.
    + intros Hgi [= <-] Hqi Hq. destruct (Hta q Hq) as [? | (pl & Hpl & Hl)]; [by eapply Hex |].
      destruct (Forall2_lookup_r _ _ _ _ _ Hts Hgi) as (thi & _ & _ & _ & Hh). destruct (Hh q Hqi) as (? & ? & ? & _). congruence.
  - intros q pl Hpl Hl. destruct (Hhol q pl Hpl Hl) as [Hq | (pl0 & Hpl0 & Hl0 & Hn)].
    + exists j, g'. by rewrite list_lookup_insert_eq.
    + destruct (Hho q pl0 Hpl0 Hl0) as (i & gi & Hgi & Hq). exists i, gi. split; [| done].
      rewrite list_lookup_insert_ne; [done |]. intros ->. congruence.
  - intros c conn Hc Hcl. destruct (owed_insert c gs j g Hg) as (rest & Ho & Hi). rewrite Hi.
    destruct (Hct c conn Hc Hcl) as [(conn0 & Hc0 & Hcl0 & Hcount) | (Hn & Hb & He & Hd)].
    + apply Hcount. rewrite <- Ho. by apply Hco.
    + assert (Hz : owed c gs = 0%Z).
      { apply owed_zero. intros i gi Hgi. destruct (Forall2_lookup_r _ _ _ _ _ Hts Hgi) as (thi & _ & _ & Hk & _).
        eapply debt_range; [exact Hk | by apply lookup_ge_None]. }
      assert (debt c g = 0%Z).
      { destruct (Forall2_lookup_r _ _ _ _ _ Hts Hg) as (thj & _ & _ & Hk & _). eapply debt_range; [exact Hk | by apply lookup_ge_None]. }
      unfold counts. rewrite Hb, He, Hd, size_empty. replace rest with 0%Z by lia. done.
Qed.

(** A new thread starts idle. *)
Lemma spawn_ok names gs w th l :
  world_ok names gs w -> (forall c, c ∈ l -> c < length (connections (client w))) ->
  wp mon (know_conns thread_ghost0 l) (client_proc th) thread_post ->
  world_ok names (gs ++ [know_conns thread_ghost0 l]) (MkClientWorld (client w) (client_threads w ++ [th])).
Proof.
  intros [Hs Hts Hex Hho Hco] Hl Hwp. split; cbn.
  - done.
  - apply Forall2_app; [done |]. constructor; [| constructor]. split_and!; [done | | done].
    split; cbn; try (intros; set_solver); try done.
  - intros i j gi gj p [Hi | [_ Hi]]%lookup_app_Some [Hj | [_ Hj]]%lookup_app_Some Hp Hq; [by eapply Hex | ..];
      try (apply list_lookup_singleton_Some in Hi as [_ <-]; done);
      try (apply list_lookup_singleton_Some in Hj as [_ <-]; done).
  - intros p q Hp Hq. destruct (Hho p q Hp Hq) as (i & g & Hg & Hh). exists i, g. split; [by apply lookup_app_l_Some | done].
  - intros c conn Hc Hcl. rewrite owed_app. unfold debt. cbn. rewrite Z.add_0_r. by apply Hco.
Qed.

Lemma returned_range names gs w s :
  world_ok names gs w -> existsb (returned s) (client_threads w) = true ->
  session_connection s < length (connections (client w)).
Proof.
  intros Hw (th & Hin & Hr)%existsb_exists. apply list_elem_of_In, list_elem_of_lookup in Hin as (i & Hi).
  destruct (Forall2_lookup_l _ _ _ _ _ (wo_threads _ _ _ Hw) Hi) as (g & _ & Hwp & Hk & _).
  destruct th as [[[[[s' |] |] | |] |] |]; try done. apply bool_decide_eq_true in Hr as <-.
  destruct Hwp as [_ Hc]. by apply (k_conns _ _ _ Hk).
Qed.

Lemma act_ok names gs w x w' :
  world_ok names gs w -> client_act config w x = Some w' -> exists names' gs', world_ok names' gs' w'.
Proof.
  intros Hw Hact. assert (Hi : forall l, idle (know_conns thread_ghost0 l)) by done. destruct x; cbn in Hact.
  - destruct (client_threads w !! j) as [th |] eqn:Hth; [| done].
    destruct (Forall2_lookup_l _ _ _ _ _ (wo_threads _ _ _ Hw) Hth) as (g & Hg & Hwp & Hk & Hh).
    destruct (client_proc th) as [| X e k]; [done |]. destruct Hwp as [Hal Hwp].
    destruct (client_step X (client w) e h) as [[x s'] |] eqn:Hst; [| done]. injection Hact as <-.
    destruct (step_keeps _ _ _ _ _ _ _ _ (wo_state _ _ _ Hw) Hk Hh Hal Hst) as (names' & g' & Hob & Hok).
    exists names', (<[j := g']> gs). eapply thread_step_ok; [done | done | done | exact Hok | by apply Hwp].
  - injection Hact as <-. exists names; eexists; apply (spawn_ok names gs w _ []); [done | intros c Hc; by apply not_elem_of_nil in Hc |].
    by apply open_thread.
  - destruct (existsb _ _) eqn:Hr; [| done]. injection Hact as <-. pose proof (returned_range _ _ _ _ Hw Hr).
    exists names; eexists; apply (spawn_ok names gs w _ [session_connection s]); [done | by intros c ->%list_elem_of_singleton |].
    apply send_thread; [done | cbn; by constructor].
  - destruct (existsb _ _) eqn:Hr; [| done]. injection Hact as <-. pose proof (returned_range _ _ _ _ Hw Hr).
    exists names; eexists; apply (spawn_ok names gs w _ [session_connection s]); [done | by intros c ->%list_elem_of_singleton |].
    apply drop_thread; [done | cbn; by constructor].
  - injection Hact as <-. exists names; eexists; apply (spawn_ok names gs w _ []); [done | intros c Hc; by apply not_elem_of_nil in Hc |].
    by apply shutdown_thread.
  - destruct (inbound (client w) !! t) as [task |] eqn:Ht; [| done].
    destruct (connections (client w) !! task_connection task) as [conn |] eqn:Hc; [| done].
    destruct (existsb _ _); [done |]. injection Hact as <-.
    exists names; eexists; apply (spawn_ok names gs w _ [task_connection task]); [done | intros c ->%list_elem_of_singleton; by eapply lookup_lt_Some |].
    apply receive_loop_thread; [done | cbn; by constructor].
  - destruct (client_threads w !! j) as [[p | t p] |] eqn:Hth; [done | | done].
    destruct (inbound (client w) !! t) as [[c f []] |]; [| done..]. destruct (at_await p) eqn:Hp; [| done]. injection Hact as <-.
    destruct (Forall2_lookup_l _ _ _ _ _ (wo_threads _ _ _ Hw) Hth) as (g & Hg & Hwp & Hk & Hh). cbn in Hwp.
    assert (Hidle : idle g) by (destruct p as [| X e k]; [done |]; destruct e; try done; destruct Hwp as [Hal _]; by apply Hal).
    exists names, (<[j := g]> gs). apply (thread_step_ok names gs w j (CLoop t p) g names (client w) g (Ret CDone)); try done.
    apply quiet_ok; try done; apply Hw.
  - destruct (client_threads w !! j) as [th |] eqn:Hth; [| done]. cbn in Hact.
    destruct (returned_session th) as [session |]; [| done]. cbn in Hact.
    destruct (session_recv session (client w)) as [[item s'] |] eqn:Hr; [| done]. injection Hact as <-. cbn [snd].
    destruct (Forall2_lookup_l _ _ _ _ _ (wo_threads _ _ _ Hw) Hth) as (g & Hg & Hwp & Hk & Hh).
    exists names, (<[j := g]> gs). rewrite <- (list_insert_id (client_threads w) j th Hth).
    replace th with (client_continue th (client_proc th)) at 1 by (by destruct th).
    assert (Hsame : exists x, s' = with_receivers (client w) (receivers (client w)) x).
    { unfold session_recv in Hr. destruct (channels (client w) !! _) as [[] |]; [done | | done]. injection Hr as _ <-. eauto. }
    destruct Hsame as [x ->]. apply (thread_step_ok names gs w j th g); [done | done | done | | done].
    apply quiet_ok; try done; apply Hw.
Qed.

Lemma world_reachable_ok w :
  rtc (client_world_step config) client_initial_world w -> exists names gs, world_ok names gs w.
Proof.
  apply (rtc_preserved _ (fun w => exists names gs, world_ok names gs w)).
  - intros w1 w2 (names & gs & Hw) [x Hx]. by eapply act_ok.
  - exists [], []. split; done.
Qed.

(** ** Progress *)

(** The mutex a call waits for. *)
Definition waits X (e : clientE X) : option PoolRef :=
  match e with
  | LockPool _ p => Some p
  | _ => None
  end.

(** A call of a thread that keeps to the discipline returns, for some choice of
    the environment, unless it waits for a mutex. *)
Lemma call_steps names X (e : clientE X) s g :
  state_ok names s -> knows names s g -> call_allowed X g e -> waits X e = None ->
  exists h x s', client_step X s e h = Some (x, s').
Proof.
  intros Hs Hk Hal Hw.
  assert (Hc : forall c, c ∈ t_conns g -> exists conn, connections s !! c = Some conn).
  { intros c Hc. by apply lookup_lt_is_Some, (k_conns _ _ _ Hk). }
  destruct e; try done; cbn [client_step call_allowed] in *.
  all: try (by exists CNone; do 2 eexists).
  all: try (by exists CElapsed; do 2 eexists).
  all: try (destruct (Hc c ltac:(apply Hal)) as [conn ->]; by exists CNone; do 2 eexists).
  - by exists (CTime 0); do 2 eexists.
  - by exists (CSession demo_sid); do 2 eexists.
  - by exists (CCandidates []); do 2 eexists.
  - exists CNone, (fst (pool endpoint s)), (snd (pool endpoint s)). by destruct (pool endpoint s).
  - exists (CPools (elements (list_to_set (map_to_list (pools s)).*2 : gset nat))). cbn.
    do 2 eexists. rewrite bool_decide_eq_true_2 by apply NoDup_elements.
    by rewrite bool_decide_eq_true_2 by apply list_to_set_elements_L.
  - destruct (Hc c (proj2 Hal)) as [conn ->]. exists (CSessions (elements (conn_sessions conn))). cbn.
    do 2 eexists. rewrite bool_decide_eq_true_2 by apply NoDup_elements.
    by rewrite bool_decide_eq_true_2 by apply list_to_set_elements_L.
  - destruct (Hc c Hal) as [conn ->]. by exists (CSent (Ok ())); do 2 eexists.
  - by exists (CEnvelope None); do 2 eexists.
  - exists CNone, (fst (take_pending sid c s)), (snd (take_pending sid c s)). by destruct (take_pending sid c s).
  - exists CElapsed. repeat case_match; by do 2 eexists.
Qed.

(** *** What the next call of a thread shows of its ghost *)

(** The [fetch_add] or [fetch_sub] a thread is about to do. *)
Definition in_flight (c : ConnRef) (th : client_thread) : Z :=
  match client_proc th with
  | Call (BoundAdd c') _ => if decide (c = c') then 1 else 0
  | Call (BoundSub c') _ => if decide (c = c') then -1 else 0
  | _ => 0
  end.

Definition waits_for (th : client_thread) : option PoolRef :=
  match client_proc th with
  | Ret _ => None
  | Call e _ => waits _ e
  end.

Lemma debt_in_flight names s th g c : thread_ok names s th g -> debt c g = in_flight c th.
Proof.
  intros (Hwp & _ & _). unfold debt, in_flight. destruct (client_proc th) as [r | X e k].
  - destruct Hwp as [[_ ->] _]. done.
  - destruct Hwp as [[Hp Hal] _]. destruct e; cbn in Hp, Hal; rewrite ?Hp, ?Hal; done.
Qed.

Lemma owed_in_flight names s ths gs c :
  Forall2 (thread_ok names s) ths gs -> owed c gs = foldr (fun th n => in_flight c th + n)%Z 0%Z ths.
Proof.
  induction 1 as [| th g ths gs Hok Hts IH]; [done |]. cbn. fold (owed c gs). rewrite IH. by erewrite debt_in_flight.
Qed.
End world.

(** ** Properties *)

(** C26: in every state a Client can reach, however its opens, sends, drops, its
    shutdown and its receive loops interleave, a connection pool holds at most the
    configured number of connections, and the pool of an endpoint holds only
    connections to that endpoint: a Session is never put on a connection to
    another Server. *)
Theorem pools_bounded (config : ClientConfig) (w : client_world) :
  rtc (client_world_step config) client_initial_world w ->
  (forall p q, pool_list (client w) !! p = Some q ->
     length (pool_connections q) <= max_connections_per_endpoint config) /\
  (forall endpoint p, pools (client w) !! endpoint = Some p ->
     exists q, pool_list (client w) !! p = Some q /\
       forall c, c ∈ pool_connections q ->
         exists conn, connections (client w) !! c = Some conn /\ conn_endpoint conn = endpoint).
Proof.
  intros (names & gs & Hw)%world_reachable_ok. pose proof (wo_state _ _ _ _ Hw) as Hs. split; [apply Hs |].
  intros endpoint p Hp. pose proof (so_pools _ _ _ Hs _ _ Hp) as Hn.
  assert (exists q, pool_list (client w) !! p = Some q) as [q Hq].
  { apply lookup_lt_is_Some. rewrite <- (so_names _ _ _ Hs). by eapply lookup_lt_Some. }
  exists q. split; [done |]. intros c Hc. destruct (so_conns _ _ _ Hs _ _ _ Hq Hc) as (conn & Hl & He).
  exists conn. split; [done | congruence].
Qed.

(** One connection, and the Session bound to it. *)
Definition one_bound (w : client_world) : bool :=
  bool_decide (pools (client w) !! "n1" = Some 0) && bool_decide (bound_of (client w) 0 = 1%Z)
  && forallb (fun c => negb (conn_closed c)) (connections (client w))
  && bool_decide (length (connections (client w)) = 1).

Lemma pools_bounded_witness :
  exists w q, rtc (client_world_step demo_client) client_initial_world w /\
    pool_list (client w) !! 0 = Some q /\ length (pool_connections q) <= 1.
Proof.
  destruct (ends_with_reaches good_script one_bound ltac:(vm_compute; reflexivity)) as (w & Hw & Hb).
  destruct (pools_bounded demo_client w Hw) as [Hlen Hend].
  unfold one_bound in Hb. rewrite !andb_true_iff, !bool_decide_eq_true in Hb. destruct Hb as [[[Hp _] _] _].
  destruct (Hend "n1" 0 Hp) as (q & Hq & _). exists w, q. split; [exact Hw | split; [exact Hq | exact (Hlen 0 q Hq)]].
Defined.

(** C28: the load counter by which the Client chooses the least loaded connection
    is exact, although it is kept beside the set of Sessions and wraps: in every
    reachable state, the counter of an open connection is the number of Sessions
    bound to it, less the increments and plus the decrements that running threads
    are about to do, modulo [2^64]. *)
Theorem load_counter_exact (config : ClientConfig) (w : client_world) (c : ConnRef) (conn : TransportConnection) :
  rtc (client_world_step config) client_initial_world w ->
  connections (client w) !! c = Some conn -> conn_closed conn = false ->
  bound_sessions conn =
    ((Z.of_nat (size (conn_sessions conn)) - foldr (fun th n => in_flight c th + n) 0 (client_threads w))
       mod (U64_MAX + 1))%Z.
Proof.
  intros (names & gs & Hw)%world_reachable_ok Hc Hcl.
  rewrite <- (owed_in_flight _ _ _ _ _ c (wo_threads _ _ _ _ Hw)). exact (wo_counts _ _ _ _ Hw c conn Hc Hcl).
Qed.

Lemma load_counter_exact_witness :
  exists w conn, rtc (client_world_step demo_client) client_initial_world w /\
    connections (client w) !! 0 = Some conn /\
    1%Z = ((Z.of_nat (size (conn_sessions conn)) - foldr (fun th n => in_flight 0 th + n) 0 (client_threads w))
             mod (U64_MAX + 1))%Z.
Proof.
  destruct (ends_with_reaches good_script one_bound ltac:(vm_compute; reflexivity)) as (w & Hw & Hb).
  unfold one_bound in Hb. rewrite !andb_true_iff, !bool_decide_eq_true in Hb. destruct Hb as [[[_ Hone] Hop] Hlen].
  unfold bound_of in Hone. destruct (connections (client w)) as [| conn l] eqn:Hcs; [discriminate Hlen |].
  assert (Hc : connections (client w) !! 0 = Some conn) by (rewrite Hcs; reflexivity).
  cbn in Hop, Hone. apply andb_true_iff in Hop as [Hcl%negb_true_iff _].
  exists w, conn. split; [exact Hw | split; [exact Hc |]].
  etransitivity; [symmetry; exact Hone | exact (load_counter_exact demo_client w 0 conn Hw Hc Hcl)].
Defined.

(** C27: a Client never deadlocks and never uses a connection or a pool it does not
    have.  In every reachable state, each thread that has not ended can do its next
    call, whatever the connections and the Server did, unless the call waits for the
    mutex of a pool; then another thread, which waits for no mutex itself, can go
    on, so that the mutex is released in the end. *)
Theorem client_never_stuck (config : ClientConfig) (w : client_world) (j : nat) (th : client_thread) :
  rtc (client_world_step config) client_initial_world w ->
  client_threads w !! j = Some th -> (forall r, client_proc th <> Ret r) ->
  (exists h w', client_act config w (CStep j h) = Some w') \/
  (exists p i th', waits_for th = Some p /\ client_threads w !! i = Some th' /\ i <> j /\ waits_for th' = None /\
     exists h w', client_act config w (CStep i h) = Some w').
Proof.
  intros (names & gs & Hw)%world_reachable_ok Hth Hret.
  assert (Hgo : forall i thi gi, client_threads w !! i = Some thi -> gs !! i = Some gi ->
    (forall r, client_proc thi <> Ret r) -> waits_for thi = None ->
    exists h w', client_act config w (CStep i h) = Some w').
  { intros i thi gi Hi Hgi Hr Hn. destruct (Forall2_lookup_lr _ _ _ _ _ _ (wo_threads _ _ _ _ Hw) Hi Hgi) as (Hwp & Hk & _).
    cbn. rewrite Hi. unfold waits_for in Hn. destruct (client_proc thi) as [r | X e k]; [by destruct (Hr r) |].
    destruct Hwp as [[_ Hal] _]. destruct (call_steps _ _ _ _ _ _ (wo_state _ _ _ _ Hw) Hk Hal Hn) as (h & x & s' & Hst).
    exists h. rewrite Hst. by eexists. }
  destruct (Forall2_lookup_l _ _ _ _ _ (wo_threads _ _ _ _ Hw) Hth) as (g & Hg & Hwp & Hk & _).
  destruct (waits_for th) as [p |] eqn:Hwait; [| left; by eapply Hgo].
  unfold waits_for in Hwait. destruct (client_proc th) as [r | X e k] eqn:Hp; [done |].
  destruct e; try done. injection Hwait as ->. destruct Hwp as [[_ [Hin [Hh _]]] _].
  destruct (lookup_lt_is_Some_2 _ _ (k_pools _ _ _ Hk _ Hin)) as [q Hq]. destruct (pool_locked q) eqn:Hl.
  - right. destruct (wo_holder _ _ _ _ Hw p q Hq Hl) as (i & gi & Hgi & Hhi).
    destruct (Forall2_lookup_r _ _ _ _ _ (wo_threads _ _ _ _ Hw) Hgi) as (thi & Hi & Hwpi & _).
    assert (Hri : (forall r, client_proc thi <> Ret r) /\ waits_for thi = None).
    { unfold waits_for. destruct (client_proc thi) as [r | Y e k']; [destruct Hwpi as [[Hn _] _]; congruence |].
      split; [done |]. destruct e; try done. destruct Hwpi as [[_ [_ [Hn _]]] _]. congruence. }
    exists p, i, thi. split_and!; [done | done | congruence | apply Hri |].
    destruct Hri as [Hri Hni]. by apply (Hgo i thi gi).
  - left. exists CNone. cbn. rewrite Hth, Hp. cbn. rewrite Hq, Hl. by eexists.
Qed.

Lemma client_never_stuck_witness :
  exists w, rtc (client_world_step demo_client) client_initial_world w /\
    (exists th, client_threads w !! 0 = Some th) /\
    ((exists h w', client_act demo_client w (CStep 0 h) = Some w') \/
     (exists p i th', waits_for (CCaller (done_after COpened (open demo_client 5 demo_address))) = Some p /\
        client_threads w !! i = Some th' /\ i <> 0 /\ waits_for th' = None /\
        exists h w', client_act demo_client w (CStep i h) = Some w')).
Proof.
  set (th := CCaller (done_after COpened (open demo_client 5 demo_address))).
  set (w := MkClientWorld client_initial [th]).
  assert (Hw : rtc (client_world_step demo_client) client_initial_world w)
    by (eapply rtc_l; [exists (COpen 5 demo_address); reflexivity | apply rtc_refl]).
  exists w. split; [exact Hw | split; [exists th; reflexivity |]].
  apply (client_never_stuck demo_client w 0 th Hw eq_refl). intros r. discriminate.
Defined.
