(* ===== verification/ClientTrace.v ===== *)
(** * Executions of the Client, with what happened in them

    An execution is a run of the world of [ClientStep] with a trace: which thread
    drew a session id, made a connection, registered a pending open, had an
    envelope taken by the transport or received one.  An open succeeds only on an
    acknowledgement of its Session that was received on its connection. *)

From S2P Require Import Prelude Text Address Coordination Placement Transport Session Client ClientStep ClientRace.
From S2P Require Runtime.

(** ** Traces *)
Inductive clabel :=
| Drawn (sid : SessionId)
| Connected (c : ConnRef) (endpoint : string)
| AckMade (o : AckId)
| Pending (sid : SessionId) (c : ConnRef) (o : AckId)
| Offered (c : ConnRef) (e : Envelope)     (* the transport took [e] *)
| Received (c : ConnRef) (e : Envelope)
| ChannelMade (ch : ChannelId)
| Listening (sid : SessionId) (ch : ChannelId)
| Delivered (ch : ChannelId) (item : Event)  (* handed to the channel, which may be full *)
| Taken (ch : ChannelId) (item : Event)      (* by the application *)
| CSilent.

Definition clabel_of X (e : clientE X) : X -> clabel :=
  match e in clientE X return X -> clabel with
  | NewSessionId => fun sid => Drawn sid
  | NewConnection endpoint _ => fun c => Connected c endpoint
  | NewAck => fun o => AckMade o
  | NewChannel => fun ch => ChannelMade ch
  | RegisterLocal sid ch => fun _ => Listening sid ch
  | ChannelSend ch item => fun _ => Delivered ch item
  | InsertPending sid c o => fun _ => Pending sid c o
  | SenderTrySend c e => fun r => if r is Ok _ then Offered c e else CSilent
  | RecvEnvelope c => fun r => if r is Some e then Received c e else CSilent
  | _ => fun _ => CSilent
  end.

Abbreviation ctrace := (list (nat * clabel)).

Definition client_label (w : client_world) (x : client_action) : ctrace :=
  match x with
  | CStep j h =>
      match client_threads w !! j with
      | Some th =>
          match client_proc th with
          | Call e _ =>
              match client_step _ (client w) e h with
              | Some (x, _) => [(j, clabel_of _ e x)]
              | None => []
              end
          | Ret _ => []
          end
      | None => []
      end
  | CRecv j =>
      match client_threads w !! j ≫= returned_session with
      | Some session =>
          match session_recv session (client w) with
          | Some (item, _) => [(j, Taken (session_channel session) item)]
          | None => []
          end
      | None => []
      end
  | _ => []
  end.

Fixpoint client_trace (config : ClientConfig) (w : client_world) (l : list client_action) : ctrace :=
  match l with
  | [] => []
  | x :: l => client_label w x ++ match client_act config w x with
                                  | Some w => client_trace config w l
                                  | None => []
                                  end
  end.

Inductive client_execution (config : ClientConfig) : client_world -> ctrace -> Prop :=
| client_execution_initial : client_execution config client_initial_world []
| client_execution_act w tr x w' :
    client_execution config w tr -> client_act config w x = Some w' ->
    client_execution config w' (tr ++ client_label w x).

Lemma client_run_execution config w l w' tr :
  client_execution config w tr -> client_run config w l = Some w' ->
  client_execution config w' (tr ++ client_trace config w l).
Proof.
  revert w tr. induction l as [| x l IH]; cbn; intros w tr Hw Hr; [injection Hr as <-; by rewrite app_nil_r |].
  destruct (client_act config w x) as [w1 |] eqn:Ha; [| done]. rewrite app_assoc. apply IH; [| done].
  by eapply client_execution_act.
Qed.

(** ** What a step does to the connections, the pending opens and their channels *)
Definition conn_ids (s : ClientState) : list Z := conn_id <$> connections s.
Definition conn_endpoints (s : ClientState) : list string := conn_endpoint <$> connections s.
Definition ack_ok (o : AckId) (s : ClientState) : Prop := acks s !! o = Some (Runtime.Sent (Ok ())).

(** No channel is lost, and none succeeds. *)
Definition no_success (l l' : list AckState) : Prop :=
  length l <= length l' /\ forall o, l' !! o = Some (Runtime.Sent (Ok ())) -> l !! o = Some (Runtime.Sent (Ok ())).

Lemma no_success_refl l : no_success l l.
Proof. done. Qed.

Lemma resolve_no_success o x l : x <> Runtime.Sent (Ok ()) -> no_success l (resolve_ack o x l).
Proof.
  intros Hx. unfold resolve_ack. split; [by rewrite length_alter |]. intros o'.
  destruct (decide (o' = o)) as [-> | Hne]; [| by rewrite list_lookup_alter_ne].
  rewrite list_lookup_alter_eq. destruct (l !! o) as [[] |]; cbn; [| done..]. by intros [= ->].
Qed.

Lemma drop_no_success p l : no_success l (drop_pending p l).
Proof. destruct p; [by apply resolve_no_success | apply no_success_refl]. Qed.

Lemma clear_no_success (ps : list (SessionId * PendingOpen)) l :
  no_success l (foldr (fun p => drop_pending (Some p.2)) l ps).
Proof.
  induction ps as [| p ps [IH1 IH2]]; [apply no_success_refl |]. cbn [foldr].
  destruct (drop_no_success (Some p.2) (foldr (fun p => drop_pending (Some p.2)) l ps)) as [H1 H2].
  split; [lia |]. intros o Ho. by apply IH2, H2.
Qed.

(** The connection a call makes. *)
Definition makes X (e : clientE X) (s : ClientState) : list (Z * string) :=
  match e with
  | NewConnection endpoint _ => [(next_connection_id s, endpoint)]
  | _ => []
  end.

Record step_frame X (e : clientE X) (s s' : ClientState) : Prop := {
  sf_ids : conn_ids s' = conn_ids s ++ (makes X e s).*1;
  sf_endpoints : conn_endpoints s' = conn_endpoints s ++ (makes X e s).*2;
  sf_next : next_connection_id s' = foldr (fun _ n => wrapping_add n 1) (next_connection_id s) (makes X e s);
  sf_pending sid p : pending_opens s' !! sid = Some p -> pending_opens s !! sid = Some p \/
    match e with
    | InsertPending sid' c o => sid' = sid /\ complete p = o /\ conn_ids s !! c = Some (connection_id p)
    | _ => False
    end;
  sf_acks : length (acks s) <= length (acks s');
  sf_ok o : ack_ok o s' -> ack_ok o s \/
    match e with
    | CompleteAck o' r => o' = o /\ r = Ok ()
    | _ => False
    end
}.

(** A step that leaves all of this alone. *)
Lemma step_frame_same X (e : clientE X) s s' :
  makes X e s = [] -> conn_ids s' = conn_ids s -> conn_endpoints s' = conn_endpoints s ->
  next_connection_id s' = next_connection_id s -> pending_opens s' = pending_opens s -> acks s' = acks s ->
  step_frame X e s s'.
Proof.
  intros Hm Hi He Hn Hp Ha. split; rewrite ?Hm; cbn; rewrite ?app_nil_r; try done.
  - rewrite Hp. by left.
  - by rewrite Ha.
  - unfold ack_ok. rewrite Ha. by left.
Qed.

Lemma alter_fmap_same {A B} (g : A -> B) (f : A -> A) i (l : list A) :
  (forall x, g (f x) = g x) -> g <$> alter f i l = g <$> l.
Proof.
  intros Hg. apply list_eq. intros j. rewrite !list_lookup_fmap. destruct (decide (j = i)) as [-> | Hne].
  - rewrite list_lookup_alter_eq. destruct (l !! i); [by cbn; rewrite Hg | done].
  - by rewrite list_lookup_alter_ne.
Qed.

Lemma update_connection_frame X (e : clientE X) c f s :
  makes X e s = [] -> (forall x, conn_id (f x) = conn_id x) -> (forall x, conn_endpoint (f x) = conn_endpoint x) ->
  step_frame X e s (update_connection c f s).
Proof. intros Hm H1 H2. apply step_frame_same; try done; by apply alter_fmap_same. Qed.

Lemma with_pending_frame X (e : clientE X) s x y :
  makes X e s = [] -> (forall sid p, x !! sid = Some p -> pending_opens s !! sid = Some p) -> no_success (acks s) y ->
  step_frame X e s (with_pending s x y).
Proof.
  intros Hm Hp [Hl Ho]. split; rewrite ?Hm; cbn; rewrite ?app_nil_r; try done.
  - intros. left. by apply Hp.
  - intros o H. left. by apply Ho.
Qed.

Lemma channel_send_frame X (e : clientE X) ch item s s0 :
  makes X e s0 = [] -> step_frame X e s0 s -> step_frame X e s0 (channel_send ch item s).
Proof. intros Hm [H1 H2 H3 H4 H5 H6]. by split. Qed.

Lemma client_step_frame X s (e : clientE X) h x s' : client_step X s e h = Some (x, s') -> step_frame X e s s'.
Proof.
  intros Hst.
  destruct e; cbn in Hst;
    repeat match type of Hst with
           | (?o ≫= _) = _ => let E := fresh "E" in destruct o eqn:E; cbn in Hst; [| done]
           | match ?h with _ => _ end = _ => let E := fresh "E" in destruct h eqn:E; try done
           | (if ?b then _ else _) = _ => let E := fresh "E" in destruct b eqn:E; try done
           end;
    try (injection Hst as <- <-); try (by apply step_frame_same); try (by apply update_connection_frame).
  - destruct (receivers s !! sid); by apply step_frame_same.
  - injection Hst as Hst. unfold pool in Hst. destruct (pools s !! endpoint); injection Hst as <- <-; by apply step_frame_same.
  - unfold conn_ids, conn_endpoints. split; cbn; try done; [by rewrite fmap_app | by rewrite fmap_app | by left | by left].
  - split; cbn; rewrite ?app_nil_r; try done; [by left | rewrite length_app; lia |].
    intros o. unfold ack_ok. cbn. intros [Ho | [_ Ho]]%lookup_app_Some; [by left |].
    by apply list_lookup_singleton_Some in Ho as [_ ?].
  - destruct (drop_no_success (pending_opens s !! sid) (acks s)) as [Hl Ho].
    split; cbn; rewrite ?app_nil_r; try done; [| by intros o' Ho'; left; apply Ho].
    intros sid' p [(<- & <-) | [_ Hp]]%lookup_insert_Some; [right | by left]. cbn. split_and!; [done | done |].
    unfold conn_ids. by rewrite list_lookup_fmap, E.
  - apply with_pending_frame; [done | | apply drop_no_success]. by intros sid' p [_ ?]%lookup_delete_Some.
  - injection Hst as Hst. unfold take_pending in Hst.
    repeat case_match; injection Hst as <- <-; try (by apply step_frame_same).
    apply with_pending_frame; [done | | apply no_success_refl]. by intros sid' p' [_ ?]%lookup_delete_Some.
  - apply with_pending_frame; [done | | apply clear_no_success]. intros sid p. by rewrite lookup_empty.
  - split; cbn; rewrite ?app_nil_r; try done; [by left | unfold resolve_ack; by rewrite length_alter |].
    intros o'. unfold ack_ok. cbn. unfold resolve_ack. destruct (decide (o' = o)) as [-> | Hne].
    + rewrite list_lookup_alter_eq. destruct (acks s !! o) as [[] |]; cbn; [| by left..]. intros [= ->]. by right.
    + rewrite list_lookup_alter_ne by done. by left.
Qed.

(** ** The account of a caller *)
Inductive attempt :=
| KNone
| KMade (o : AckId)
| KPending (sid : SessionId) (c : ConnRef) (o : AckId)
| KSent (sid : SessionId) (c : ConnRef) (o : AckId)
| KOpened (sid : SessionId) (c : ConnRef).

(** The Session id it drew, and how far its open is. *)
Abbreviation progress := (option SessionId * attempt)%type.

Definition caller_allowed (a : ActorAddress) X (st : progress) (e : clientE X) : Prop :=
  match e with
  | NewSessionId => st.1 = None
  | InsertPending sid c o => st.2 = KMade o
  | SenderTrySend c e => env_kind e = Some KSessionOpen ->
      exists sid o, e = envelope_session_open a sid /\ st = (Some sid, KPending sid c o)
  | CompleteAck _ _ | RecvEnvelope _ => False
  | _ => True
  end.

Definition caller_next X (st : progress) (e : clientE X) : X -> progress :=
  match e in clientE X return X -> progress with
  | NewSessionId => fun sid => (Some sid, st.2)
  | NewAck => fun o => (st.1, KMade o)
  | InsertPending sid c o => fun _ => (st.1, KPending sid c o)
  | SenderTrySend _ e => fun r =>
      match r, st.2 with
      | Ok _, KPending sid c o => if decide (env_kind e = Some KSessionOpen) then (st.1, KSent sid c o) else st
      | _, _ => st
      end
  | AwaitAck _ o => fun r =>
      match r, st.2 with
      | Ready (Some (Ok _)), KSent sid c o' => if decide (o' = o) then (st.1, KOpened sid c) else st
      | _, _ => st
      end
  | _ => fun _ => st
  end.

Definition caller_monitor (a : ActorAddress) : monitor clientE progress :=
  Monitor clientE progress (caller_allowed a) (fun X st e x st' => st' = caller_next X st e x).

(** A Session is returned by the thread that opened it. *)
Definition caller_post (a : ActorAddress) (r : client_result) (st : progress) : Prop :=
  match r with
  | COpened (Some (Ok s)) => session_address s = a /\ st = (Some (session_sid s), KOpened (session_sid s) (session_connection s))
  | _ => True
  end.

(** Calls no account takes note of. *)
Definition unnoticed X (e : clientE X) : Prop :=
  match e with
  | NewSessionId | NewAck | InsertPending _ _ _ | AwaitAck _ _ | CompleteAck _ _ | RecvEnvelope _ | TakePending _ _ => False
  | NewChannel | RegisterLocal _ _ | Receiver _ => False
  | ChannelSend _ item => is_ok item = false
  | SenderTrySend _ e => env_kind e <> Some KSessionOpen
  | _ => True
  end.

Ltac unnoticed_calls :=
  repeat first [ done
               | split; [done | intros ?]
               | progress cbn [calls unnoticed proc_bind]
               | case_match
               | apply calls_bind; [| intros ?] ].

Lemma bind_unnoticed c sid : calls unnoticed (bind c sid).
Proof. unfold bind. unnoticed_calls. Qed.
Lemma unbind_unnoticed c sid : calls unnoticed (unbind c sid).
Proof. unfold unbind. unnoticed_calls. Qed.
Lemma try_send_unnoticed c e : env_kind e <> Some KSessionOpen -> calls unnoticed (connection_try_send c e).
Proof. intros He. unfold connection_try_send. unnoticed_calls. Qed.
Lemma close_unnoticed c : calls unnoticed (connection_close c).
Proof. unfold connection_close. unnoticed_calls. Qed.
Lemma resolve_unnoticed a deadline : calls unnoticed (resolve_owner a deadline).
Proof. unfold resolve_owner. unnoticed_calls. Qed.
Lemma spawn_unnoticed c : calls unnoticed (spawn_receive_loop c).
Proof. unfold spawn_receive_loop. unnoticed_calls. Qed.
Lemma select_unnoticed a excluded deadline : calls unnoticed (select_placement_candidate a excluded deadline).
Proof. unfold select_placement_candidate, placement_candidates. unnoticed_calls. Qed.
Lemma report_unnoticed b e : calls unnoticed (report_failed b e).
Proof. unfold report_failed. unnoticed_calls. Qed.
Lemma acquire_unnoticed config endpoint sid deadline : calls unnoticed (acquire_connection config endpoint sid deadline).
Proof.
  unfold acquire_connection. unnoticed_calls; try apply bind_unnoticed; try apply spawn_unnoticed; unnoticed_calls.
Qed.
Lemma for_each_unnoticed {A} (f : A -> proc clientE unit) l :
  (forall x, calls unnoticed (f x)) -> calls unnoticed (for_each f l).
Proof. intros Hf. induction l as [| x l IH]; [done |]. cbn [for_each]. by apply calls_bind. Qed.

Ltac caller_call := eapply (call_wp (caller_allowed _) caller_next); [try done | intros ?; cbn [caller_next fst snd]].

Lemma caller_quiet {A B} a (p : proc clientE A) (f : A -> proc clientE B) st Q :
  calls unnoticed p -> (forall x, wp (caller_monitor a) st (f x) Q) -> wp (caller_monitor a) st (proc_bind p f) Q.
Proof.
  intros Hp Hf. apply wp_bind. eapply (wp_mono _ _ _ (fun _ st' => st' = st)); [by intros x ? -> |].
  apply (calls_wp _ unnoticed); [| done]. intros X e He. destruct e; cbn in He |- *; split; try done.
  intros r st' ->. destruct r; [| done]. destruct (st.2) eqn:E; try done. by rewrite decide_False.
Qed.

Lemma send_open_account a sid c deadline k :
  wp (caller_monitor a) (Some sid, k) (send_session_open a sid c deadline)
    (fun r st => st.1 = Some sid /\ (r.2 = Ok () -> st = (Some sid, KOpened sid c))).
Proof.
  unfold send_session_open. do 2 caller_call. unfold connection_try_send. cbn [proc_bind].
  caller_call. destruct x1; [done |]. cbn [proc_bind]. caller_call; [by intros _; exists sid, x |].
  destruct x1 as [[] | e]; [| done]. cbn [map_err proc_bind fst]. rewrite decide_True by done.
  caller_call. destruct x1 as [| [[[] | e] |]]; try done. cbn. by rewrite decide_True.
Qed.

Definition exit_account (a : ActorAddress) (sid : SessionId) (x : loop_exit) (st : progress) : Prop :=
  st.1 = Some sid /\
  match x with
  | Break (Ok s) => session_address s = a /\ session_sid s = sid /\ st = (Some sid, KOpened sid (session_connection s))
  | _ => True
  end.

Lemma after_failure_account config a sid error pa e lo l st :
  st.1 = Some sid -> exit_account a sid (after_failure config error pa e lo l) st.
Proof. intros Hst. split; [done |]. unfold after_failure. repeat case_match; done. Qed.

Lemma open_at_account config a sid ch deadline endpoint pa lo l st :
  st.1 = Some sid ->
  wp (caller_monitor a) st (open_at config a sid ch deadline endpoint pa lo l) (exit_account a sid).
Proof.
  intros Hst. unfold open_at. apply caller_quiet; [apply acquire_unnoticed |]. intros [c | e].
  2: { destruct pa; [by caller_call | done]. }
  destruct (max_open_attempts config <=? attempts l)%nat.
  { apply caller_quiet; [apply unbind_unnoticed |]. intros _. apply caller_quiet; [apply report_unnoticed |]. by intros _. }
  apply wp_bind. destruct st as [d k]. cbn in Hst. subst d. eapply wp_mono; [| apply send_open_account].
  intros [was_sent outcome] st [Hst Ho]. destruct outcome as [[] | error]; [by rewrite Ho |].
  apply caller_quiet; [by apply try_send_unnoticed |]. intros _. apply caller_quiet; [apply unbind_unnoticed |]. intros _.
  caller_call. apply caller_quiet; [apply report_unnoticed |]. intros _. by apply after_failure_account.
Qed.

Lemma open_loop_account config fuel a sid ch deadline l st :
  st.1 = Some sid ->
  wp (caller_monitor a) st (open_loop config fuel a sid ch deadline l) (fun r st => caller_post a (COpened r) st).
Proof.
  revert l st. induction fuel as [| fuel IH]; intros l st Hst; [done |]. cbn [open_loop]. apply wp_bind.
  eapply (wp_mono _ _ _ (exit_account a sid)).
  - intros [[s | e] | l'] st' [Hs Hx]; [| done | by apply IH]. destruct Hx as (H1 & H2 & H3). cbn. by rewrite H2.
  - unfold open_iteration. apply caller_quiet; [apply resolve_unnoticed |]. intros [[endpoint id session |] | e]; [| | done].
    + case_bool_decide; [done | by apply open_at_account].
    + apply caller_quiet; [apply select_unnoticed |]. intros [endpoint | e]; [by apply open_at_account | done].
Qed.

Lemma open_account config fuel a :
  wp (caller_monitor a) (None, KNone) (done_after COpened (open config fuel a)) (caller_post a).
Proof.
  apply wp_bind. unfold open. caller_call. destruct (negb _); [done |]. do 4 caller_call. apply wp_bind.
  eapply wp_mono; [| by apply open_loop_account]. intros [[s | e] |] st Hp; [exact Hp | | done].
  do 2 caller_call. done.
Qed.

(** Other calls of the application open nothing. *)
Lemma send_account a alive s msg :
  wp (caller_monitor a) (None, KNone) (done_after CReplied (session_send alive s msg)) (caller_post a).
Proof.
  apply caller_quiet; [| done]. unfold session_send. unnoticed_calls.
Qed.

Lemma drop_account a s :
  wp (caller_monitor a) (None, KNone) (done_after (fun _ => CDone) (session_drop s)) (caller_post a).
Proof.
  apply caller_quiet; [| done]. unfold session_drop. unnoticed_calls.
Qed.

Lemma shutdown_account a :
  wp (caller_monitor a) (None, KNone) (done_after (fun _ => CDone) client_shutdown) (caller_post a).
Proof.
  apply caller_quiet; [| done]. unfold client_shutdown. unnoticed_calls; apply for_each_unnoticed; unnoticed_calls.
  apply for_each_unnoticed, close_unnoticed.
Qed.

(** ** The account of a receive loop *)
Inductive reception :=
| LIdle
| LGot (c : ConnRef) (e : Envelope)
| LTook (c : ConnRef) (e : Envelope) (sid : SessionId) (o : AckId).

(** [e] says that Session [sid] is open. *)
Definition acknowledges (e : Envelope) (sid : SessionId) : Prop :=
  positive_ack e = true /\ session_id_from_bytes (env_session_id e) = Some sid.

Definition loop_allowed X (st : reception) (e : clientE X) : Prop :=
  match e with
  | CompleteAck o r => r = Ok () -> exists c e sid, st = LTook c e sid o /\ acknowledges e sid
  | TakePending _ _ | RecvEnvelope _ | Receiver _ | ChannelSend _ _ => True
  | _ => unnoticed X e
  end.

Definition loop_next X (st : reception) (e : clientE X) : X -> reception :=
  match e in clientE X return X -> reception with
  | RecvEnvelope c => fun r => if r is Some e then LGot c e else LIdle
  | TakePending sid c => fun r =>
      match r, st with
      | Some o, LGot c' e => if decide (c' = c) then LTook c e sid o else LIdle
      | _, _ => LIdle
      end
  | _ => fun _ => st
  end.

Definition loop_monitor : monitor clientE reception :=
  Monitor clientE reception loop_allowed (fun X st e x st' => st' = loop_next X st e x).

Ltac loop_call := apply (call_wp loop_allowed loop_next); [try done | intros ?; cbn [loop_next]].

Lemma loop_quiet {A B} (p : proc clientE A) (f : A -> proc clientE B) st Q :
  calls unnoticed p -> (forall x, wp loop_monitor st (f x) Q) -> wp loop_monitor st (proc_bind p f) Q.
Proof.
  intros Hp Hf. apply wp_bind. eapply (wp_mono _ _ _ (fun _ st' => st' = st)); [by intros x ? -> |].
  apply (calls_wp _ unnoticed); [| done]. intros X e He. by destruct e.
Qed.

Lemma handle_envelope_account e c :
  wp loop_monitor (LGot c e) (handle_envelope e c) (fun _ _ => True).
Proof.
  unfold handle_envelope. destruct (env_kind e) as [kind |] eqn:Hk; [| done].
  destruct (session_id_from_bytes (env_session_id e)) as [sid |] eqn:Hs; [| done].
  destruct kind as [| | | payload | failure | outcome]; try done.
  - unfold deliver. loop_call. destruct x; [| done]. loop_call. destruct x; [by loop_call | done].
  - unfold deliver. loop_call. destruct x; [| done]. loop_call. destruct x; [by loop_call | done].
  - loop_call. destruct x as [o |]; [| done]. rewrite decide_True by done. loop_call; [| done].
    intros Hok. exists c, e, sid. split; [done |]. split; [| done]. unfold positive_ack. rewrite Hk.
    by destruct outcome as [[] |].
Qed.

Lemma end_sessions_account c l st :
  wp loop_monitor st (for_each (end_session c) l) (fun _ _ => True).
Proof.
  revert st. induction l as [| sid l IH]; intros st; [done |]. cbn [for_each]. unfold end_session. cbn [proc_bind].
  loop_call. destruct x as [o |]; cbn [proc_bind]; loop_call; by apply IH.
Qed.

Lemma receive_loop_account fuel c endpoint st :
  wp loop_monitor st (done_after (fun _ => CDone) (receive_loop fuel c endpoint)) (fun _ _ => True).
Proof.
  apply wp_bind. eapply (wp_mono _ _ _ (fun _ _ => True)); [done |].
  revert st. induction fuel as [| fuel IH]; intros st; [done |]. cbn [receive_loop]. loop_call.
  destruct x as [e |].
  - apply wp_bind. eapply wp_mono; [| apply handle_envelope_account]. intros [] st' _. apply IH.
  - unfold retire_connection. do 2 loop_call. apply loop_quiet; [unnoticed_calls |]. intros [].
    do 2 loop_call. apply wp_bind. eapply wp_mono; [| apply end_sessions_account]. intros [] st' _. by do 2 loop_call.
Qed.

(** ** The invariant of an execution *)

(** [o] was made pending for [sid] on a connection that has the id of [c]. *)
Definition pending_on (sid : SessionId) (o : AckId) (c : ConnRef) (s : ClientState) (tr : ctrace) : Prop :=
  exists j c0 id, (j, Pending sid c0 o) ∈ tr /\ conn_ids s !! c0 = Some id /\ conn_ids s !! c = Some id.

Definition answered (o : AckId) (s : ClientState) (tr : ctrace) : Prop :=
  exists j sid c e, (j, Received c e) ∈ tr /\ acknowledges e sid /\ pending_on sid o c s tr.

(** An acknowledgement of [sid] was received on a connection that has the id of [c]. *)
Definition acknowledged_on (sid : SessionId) (c : ConnRef) (s : ClientState) (tr : ctrace) : Prop :=
  exists j c' e id, (j, Received c' e) ∈ tr /\ acknowledges e sid /\
    conn_ids s !! c = Some id /\ conn_ids s !! c' = Some id.

Definition attempt_ok (a : ActorAddress) (j : nat) (k : attempt) (s : ClientState) (tr : ctrace) : Prop :=
  match k with
  | KNone => True
  | KMade o => (j, AckMade o) ∈ tr /\ forall j' sid c, (j', Pending sid c o) ∉ tr
  | KPending sid c o =>
      (j, AckMade o) ∈ tr /\ forall j' sid' c', (j', Pending sid' c' o) ∈ tr -> sid' = sid /\ c' = c
  | KSent sid c o =>
      (j, Offered c (envelope_session_open a sid)) ∈ tr /\
      (j, AckMade o) ∈ tr /\ forall j' sid' c', (j', Pending sid' c' o) ∈ tr -> sid' = sid /\ c' = c
  | KOpened sid c => (j, Offered c (envelope_session_open a sid)) ∈ tr /\ acknowledged_on sid c s tr
  end.

Definition reception_ok (j : nat) (st : reception) (s : ClientState) (tr : ctrace) : Prop :=
  match st with
  | LIdle => True
  | LGot c e => (j, Received c e) ∈ tr
  | LTook c e sid o => (j, Received c e) ∈ tr /\ pending_on sid o c s tr
  end.

(** The opens thread [j] has sent are of one Session and one Actor. *)
Definition sends_only (a : ActorAddress) (j : nat) (drawn : option SessionId) (tr : ctrace) : Prop :=
  forall c e, (j, Offered c e) ∈ tr -> env_kind e = Some KSessionOpen ->
    exists sid, drawn = Some sid /\ e = envelope_session_open a sid.

Definition caller_account (j : nat) (s : ClientState) (tr : ctrace) (p : proc clientE client_result)
    (a : ActorAddress) (st : progress) : Prop :=
  wp (caller_monitor a) st p (caller_post a) /\ attempt_ok a j st.2 s tr /\
  (forall sid, st.1 = Some sid -> (j, Drawn sid) ∈ tr) /\ sends_only a j st.1 tr.

Definition loop_account (j : nat) (s : ClientState) (tr : ctrace) (p : proc clientE client_result) : Prop :=
  (exists st, wp loop_monitor st p (fun _ _ => True) /\ reception_ok j st s tr) /\
  forall c e, (j, Offered c e) ∈ tr -> env_kind e <> Some KSessionOpen.

Definition caccount (j : nat) (s : ClientState) (tr : ctrace) (th : client_thread) : Prop :=
  match th with
  | CCaller p => exists a st, caller_account j s tr p a st
  | CLoop _ p => loop_account j s tr p
  end.

Record ctrace_inv (w : client_world) (tr : ctrace) : Prop := {
  ct_account j th : client_threads w !! j = Some th -> caccount j (client w) tr th;
  ct_thread j l : (j, l) ∈ tr -> j < length (client_threads w);
  ct_made j o : (j, AckMade o) ∈ tr -> o < length (acks (client w));
  ct_maker j j' o : (j, AckMade o) ∈ tr -> (j', AckMade o) ∈ tr -> j = j';
  ct_registered j sid c o : (j, Pending sid c o) ∈ tr -> (j, AckMade o) ∈ tr;
  ct_pending sid p : pending_opens (client w) !! sid = Some p ->
    exists j c, (j, Pending sid c (complete p)) ∈ tr /\ conn_ids (client w) !! c = Some (connection_id p);
  ct_ok o : ack_ok o (client w) -> answered o (client w) tr;
  ct_ids c id : conn_ids (client w) !! c = Some id -> id = wrapping_add (Z.of_nat c) 1;
  ct_next : next_connection_id (client w) = wrapping_add (Z.of_nat (length (connections (client w)))) 1;
  ct_connected j c endpoint : (j, Connected c endpoint) ∈ tr -> conn_endpoints (client w) !! c = Some endpoint
}.

(** *** What others do *)
Definition grows (s s' : ClientState) : Prop := conn_ids s `prefix_of` conn_ids s'.

Lemma grows_lookup s s' c id : grows s s' -> conn_ids s !! c = Some id -> conn_ids s' !! c = Some id.
Proof. intros [l ->] Hl. by apply lookup_app_l_Some. Qed.

Lemma frame_grows X (e : clientE X) s s' : step_frame X e s s' -> grows s s'.
Proof. intros Hf. eexists. apply (sf_ids _ _ _ _ Hf). Qed.

Lemma pending_on_mono sid o c s s' tr l : grows s s' -> pending_on sid o c s tr -> pending_on sid o c s' (tr ++ l).
Proof.
  intros Hg (j & c0 & id & H1 & H2 & H3). exists j, c0, id.
  split_and!; [apply elem_of_app; by left | by eapply grows_lookup..].
Qed.

Lemma answered_mono o s s' tr l : grows s s' -> answered o s tr -> answered o s' (tr ++ l).
Proof.
  intros Hg (j & sid & c & e & H1 & H2 & H3). exists j, sid, c, e.
  split_and!; [apply elem_of_app; by left | done | by eapply pending_on_mono].
Qed.

Lemma acknowledged_mono sid c s s' tr l :
  grows s s' -> acknowledged_on sid c s tr -> acknowledged_on sid c s' (tr ++ l).
Proof.
  intros Hg (j & c' & e & id & H1 & H2 & H3 & H4). exists j, c', e, id.
  split_and!; [apply elem_of_app; by left | done | by eapply grows_lookup..].
Qed.

Lemma attempt_mono a j k s s' tr j0 l :
  grows s s' -> (forall sid c o, l = Pending sid c o -> (j, AckMade o) ∉ tr) ->
  attempt_ok a j k s tr -> attempt_ok a j k s' (tr ++ [(j0, l)]).
Proof.
  intros Hg Hl Hk.
  assert (Hp : forall j' sid c o, (j, AckMade o) ∈ tr -> (j', Pending sid c o) ∈ tr ++ [(j0, l)] -> (j', Pending sid c o) ∈ tr).
  { intros j' sid c o Hm [Hi | [= -> <-]]%elem_of_snoc; [done | by destruct (Hl _ _ _ eq_refl)]. }
  destruct k as [| o | sid c o | sid c o | sid c]; cbn in Hk |- *.
  - done.
  - destruct Hk as [Hm Hn]. split; [by apply in_snoc |]. intros j' sid c Hi. by eapply Hn, Hp.
  - destruct Hk as [Hm Hu]. split; [by apply in_snoc |]. intros j' sid' c' Hi. by eapply Hu, Hp.
  - destruct Hk as (Ho & Hm & Hu). split_and!; [by apply in_snoc | by apply in_snoc |]. intros j' sid' c' Hi. by eapply Hu, Hp.
  - destruct Hk as [Ho Ha]. split; [by apply in_snoc | by eapply acknowledged_mono].
Qed.

Lemma reception_mono j st s s' tr l : grows s s' -> reception_ok j st s tr -> reception_ok j st s' (tr ++ l).
Proof.
  intros Hg. destruct st; cbn; [done | intros; apply elem_of_app; by left |].
  intros [H1 H2]. split; [apply elem_of_app; by left | by eapply pending_on_mono].
Qed.

(** A caller draws its Session id once. *)
Lemma caller_next_drawn X st (e : clientE X) x :
  (caller_next X st e x).1 = st.1 \/
  exists sid, (caller_next X st e x).1 = Some sid /\ clabel_of X e x = Drawn sid /\
              forall a, caller_allowed a X st e -> st.1 = None.
Proof.
  destruct e; cbn; auto; try (repeat case_match; by auto). right. by exists x.
Qed.

(** *** One step *)
Section preservation.
Context (config : ClientConfig) (s s' : ClientState) (ths : list client_thread) (tr : ctrace) (j : nat) (th : client_thread).
Context (X : Type) (e : clientE X) (k : X -> proc clientE client_result) (h : client_hint) (x : X).
Context (Hinv : ctrace_inv (MkClientWorld s ths) tr).
Context (Hj : ths !! j = Some th) (Hp : client_proc th = Call e k) (Hst : client_step X s e h = Some (x, s')).
Abbreviation tr' := (tr ++ [(j, clabel_of X e x)]).

Lemma step_grows : grows s s'.
Proof. eapply frame_grows, client_step_frame, Hst. Qed.

(** What a thread's account says of its next call. *)
Lemma call_earned :
  (forall sid c o, clabel_of X e x = Pending sid c o -> (j, AckMade o) ∈ tr) /\
  (forall o r, match e with CompleteAck o' r' => o' = o /\ r' = r | _ => False end -> r = Ok () -> answered o s tr).
Proof.
  pose proof (ct_account _ _ Hinv j th Hj) as Ha. destruct th as [p | t p]; cbn in Ha, Hp; subst p.
  - destruct Ha as (a & st & [Hal _] & Hk & _). destruct e; cbn in Hal |- *; (split; [| done]); try done; try (by destruct x).
    intros sid' c' o' [= <- <- <-]. rewrite Hal in Hk. apply Hk.
  - destruct Ha as ((st & [Hal _] & Hr) & _). destruct e; cbn in Hal |- *; try done; (split; [by destruct x |]); try done.
    intros o' r' [-> ->] Hok. destruct (Hal Hok) as (c & e0 & sid & -> & Hack). destruct Hr as [Hrec Hpend].
    by exists j, sid, c, e0.
Qed.

Lemma attempt_step a st :
  caller_allowed a X st e -> attempt_ok a j st.2 s tr -> attempt_ok a j (caller_next X st e x).2 s' tr'.
Proof.
  intros Hal Hk. pose proof step_grows as Hgrow.
  assert (Hkeep : (forall sid c o, clabel_of X e x <> Pending sid c o) -> attempt_ok a j st.2 s' tr').
  { intros Hl. eapply attempt_mono; [exact Hgrow | | done]. intros sid c o Heq. by destruct (Hl sid c o). }
  destruct e; cbn [caller_next caller_allowed clabel_of] in *; try (by apply Hkeep).
  - destruct x as [[] | error]; [| by apply Hkeep]. destruct (st.2) as [| | sid c' o | |] eqn:E; try (rewrite ?E; by apply Hkeep).
    destruct (decide (env_kind e0 = Some KSessionOpen)) as [Hopen |]; [| rewrite E; by apply Hkeep].
    destruct (Hal Hopen) as (sid0 & o0 & -> & Hst0). rewrite Hst0 in E. injection E as -> -> ->.
    cbn in Hk |- *. destruct Hk as [Hm Hu]. split_and!; [apply elem_of_snoc; by right | by apply in_snoc |].
    intros j' sid' c2 [Hi | [=]]%elem_of_snoc. by eapply Hu.
  - cbn in Hst. injection Hst as <- <-. cbn. split; [apply elem_of_snoc; by right |].
    intros j' sid c [Hi | [=]]%elem_of_snoc. apply (ct_registered _ _ Hinv), (ct_made _ _ Hinv) in Hi. cbn in Hi. lia.
  - rewrite Hal in Hk. cbn in Hk |- *. destruct Hk as [Hm Hn]. split; [by apply in_snoc |].
    intros j' sid' c' [Hi | [= -> -> ->]]%elem_of_snoc; [by destruct (Hn _ _ _ Hi) | done].
  - destruct x as [| [[[] | error] |]]; try (by apply Hkeep). destruct (st.2) as [| | | sid c o' |] eqn:E; try (rewrite ?E; by apply Hkeep).
    destruct (decide (o' = o)) as [-> |]; [| rewrite E; by apply Hkeep].
    assert (Hok : ack_ok o s).
    { cbn in Hst. unfold ack_ok. repeat case_match; by simplify_eq. }
    destruct Hk as (Ho & Hm & Hu). cbn. split; [by apply in_snoc |].
    destruct (ct_ok _ _ Hinv o Hok) as (j1 & sid1 & c1 & e1 & Hrec & Hack & j2 & c0 & id & Hpend & Hi0 & Hi1).
    destruct (Hu _ _ _ Hpend) as [-> ->]. eapply acknowledged_mono; [exact Hgrow |]. by exists j1, c1, e1, id.
Qed.

Lemma reception_step st : reception_ok j st s tr -> reception_ok j (loop_next X st e x) s' tr'.
Proof.
  intros Hr. pose proof step_grows as Hgrow.
  assert (Hkeep : reception_ok j st s' tr') by (eapply reception_mono; [exact Hgrow | done]).
  destruct e; cbn [loop_next clabel_of] in *; try exact Hkeep.
  - destruct x; cbn; [apply elem_of_snoc; by right | done].
  - destruct x as [o |]; [| done]. destruct st as [| c' e0 |]; try done. destruct (decide (c' = c)) as [-> |]; [| done].
    cbn in Hr, Hst |- *. split; [by apply in_snoc |]. injection Hst as Hst. unfold take_pending in Hst.
    destruct (pending_opens s !! sid) as [p |] eqn:Hpo; [| done].
    destruct (connections s !! c) as [conn |] eqn:Hc; [| done].
    destruct (Z.eqb_spec (connection_id p) (conn_id conn)) as [Hid | ?]; [| done]. injection Hst as <- <-.
    destruct (ct_pending _ _ Hinv sid p Hpo) as (j' & c0 & Hpend & Hc0).
    eapply pending_on_mono; [exact Hgrow |]. exists j', c0, (connection_id p). split_and!; [done | done |].
    unfold conn_ids. by rewrite list_lookup_fmap, Hc, Hid.
Qed.

Lemma step_account : caccount j s' tr' (client_continue th (k x)).
Proof.
  pose proof (ct_account _ _ Hinv j th Hj) as Ha. pose proof attempt_step as Hast. pose proof reception_step as Hrst.
  assert (Hold : forall c e0, (j, Offered c e0) ∈ tr' -> (j, Offered c e0) ∈ tr \/ clabel_of X e x = Offered c e0).
  { intros c e0 [? | [= ->]]%elem_of_snoc; [by left | by right]. }
  destruct th as [p | t p]; cbn in Ha, Hp |- *; subst p.
  - destruct Ha as (a & st & [Hal Hk] & Hok & Hd & Hs). exists a, (caller_next X st e x). split_and!.
    + by apply Hk.
    + by apply Hast.
    + intros sid Hsid. destruct (caller_next_drawn X st e x) as [He | (sid' & He & Hl & _)]; rewrite He in Hsid.
      * by apply in_snoc, Hd.
      * injection Hsid as ->. apply elem_of_snoc. right. by rewrite Hl.
    + intros c e0 Hin Hopen. apply Hold in Hin as [Hin | Hl].
      * destruct (Hs _ _ Hin Hopen) as (sid & Hsid & ->). exists sid. split; [| done].
        destruct (caller_next_drawn X st e x) as [-> | (_ & _ & _ & Hn)]; [done |]. by rewrite (Hn a Hal) in Hsid.
      * destruct e; cbn in Hl, Hal |- *; try done; destruct x; try done. injection Hl as -> ->.
        destruct (Hal Hopen) as (sid & o & -> & ->). exists sid. cbn. by case_decide.
  - destruct Ha as ((st & [Hal Hk] & Hr) & Hs). split.
    + exists (loop_next X st e x). split; [by apply Hk | by apply Hrst].
    + intros c e0 [Hin | Hl]%Hold; [by eapply Hs |]. destruct e; cbn in Hl, Hal; try done; destruct x; try done.
      by injection Hl as -> ->.
Qed.

Lemma bystander_account j' th' : j' <> j -> ths !! j' = Some th' -> caccount j' s' tr' th'.
Proof.
  intros Hne Hj'. pose proof step_grows as Hgrow. pose proof (ct_account _ _ Hinv j' th' Hj') as Ha.
  assert (Hold : forall l, (j', l) ∈ tr' -> (j', l) ∈ tr) by (intros l [? | [= ->]]%elem_of_snoc; done).
  destruct th' as [p | t p]; cbn in Ha |- *.
  - destruct Ha as (a & st & Hk & Hok & Hd & Hs). exists a, st. split_and!; [done | | |].
    + eapply attempt_mono; [exact Hgrow | | done]. intros sid c o Hl Hm. apply Hne.
      exact (ct_maker _ _ Hinv _ _ o Hm (proj1 call_earned _ _ _ Hl)).
    + intros sid Hsid. by apply in_snoc, Hd.
    + intros c e0 Hin Hopen. by apply (Hs c); [apply Hold |].
  - destruct Ha as ((st & Hk & Hr) & Hs). split.
    + exists st. split; [done | by eapply reception_mono; [exact Hgrow |]].
    + intros c e0 Hin. by apply (Hs c), Hold.
Qed.

(** The acknowledgements a step makes, and the ids of its connections. *)
Lemma step_made j' o : (j', AckMade o) ∈ tr' ->
  (j', AckMade o) ∈ tr /\ o < length (acks s) \/ j' = j /\ o = length (acks s) /\ length (acks s') = S (length (acks s)).
Proof.
  intros [Hin | [= -> Hl]]%elem_of_snoc; [left; split; [done | by apply (ct_made _ _ Hinv) in Hin] |].
  right. split; [done |]. clear - Hst Hl. destruct e; cbn in Hl; try done; try (by destruct x).
  injection Hl as ->. cbn in Hst. injection Hst as <- <-. cbn. rewrite length_app. split; [done | cbn; lia].
Qed.

Lemma step_ids c id : conn_ids s' !! c = Some id -> id = wrapping_add (Z.of_nat c) 1.
Proof.
  rewrite (sf_ids _ _ _ _ (client_step_frame _ _ _ _ _ _ Hst)).
  intros [Hc | [Hge Hc]]%lookup_app_Some; [by apply (ct_ids _ _ Hinv) |].
  pose proof (ct_next _ _ Hinv) as Hnext. unfold conn_ids in *. rewrite length_fmap in Hge, Hc. cbn in Hnext.
  destruct (makes X e s) as [| y [|]] eqn:Hm; [done | | by destruct e].
  cbn in Hc. apply list_lookup_singleton_Some in Hc as [Hz <-].
  replace (Z.of_nat c) with (Z.of_nat (length (connections s))) by lia. rewrite <- Hnext.
  clear - Hm. destruct e; try done. by injection Hm as <-.
Qed.

Lemma step_next : next_connection_id s' = wrapping_add (Z.of_nat (length (connections s'))) 1.
Proof.
  pose proof (client_step_frame _ _ _ _ _ _ Hst) as Hf.
  rewrite (sf_next _ _ _ _ Hf). pose proof (ct_next _ _ Hinv) as Hnext. cbn in Hnext. rewrite Hnext.
  replace (length (connections s')) with (length (connections s) + length (makes X e s)).
  2: { pose proof (f_equal length (sf_ids _ _ _ _ Hf)) as Hl. unfold conn_ids in Hl.
       rewrite length_app, !length_fmap in Hl. lia. }
  destruct (makes X e s) as [| y [|]] eqn:Hm; [cbn; f_equal; lia | | by destruct e].
  cbn. unfold wrapping_add. rewrite Zplus_mod_idemp_l. f_equal. lia.
Qed.

Lemma step_trace_inv : ctrace_inv (MkClientWorld s' (<[j := client_continue th (k x)]> ths)) tr'.
Proof.
  pose proof (client_step_frame _ _ _ _ _ _ Hst) as Hf. pose proof step_grows as Hgrow.
  pose proof call_earned as [Hpend Hcomp].
  pose proof (sf_acks _ _ _ _ Hf) as Hacks.
  split; cbn [client client_threads].
  - intros j' th' [(Heq & <- & _) | [Hne Hj']]%list_lookup_insert_Some;
      [rewrite <- Heq; apply step_account | apply bystander_account; [congruence | done]].
  - intros j' l. rewrite length_insert. intros [Hin | [= -> _]]%elem_of_snoc; [by apply (ct_thread _ _ Hinv) in Hin |].
    by eapply lookup_lt_Some.
  - intros j' o [[_ ?] | (_ & -> & ?)]%step_made; lia.
  - intros j1 j2 o H1 H2. apply step_made in H1 as [[H1 L1] | (-> & L1 & _)]; apply step_made in H2 as [[H2 L2] | (-> & L2 & _)].
    + by eapply (ct_maker _ _ Hinv).
    + lia.
    + lia.
    + done.
  - intros j' sid c o Hin. apply in_snoc.
    apply elem_of_snoc in Hin as [Hin | [= -> Hl]]; [by eapply (ct_registered _ _ Hinv) | by eapply Hpend].
  - intros sid p Hpo. destruct (sf_pending _ _ _ _ Hf sid p Hpo) as [Hold | Hnew].
    + destruct (ct_pending _ _ Hinv sid p Hold) as (j' & c & Hin & Hc). exists j', c.
      split; [by apply in_snoc | by eapply grows_lookup].
    + destruct e; try done. destruct Hnew as (-> & <- & Hc). exists j, c.
      split; [apply elem_of_snoc; by right | by eapply grows_lookup].
  - intros o Ho. eapply answered_mono; [exact Hgrow |]. destruct (sf_ok _ _ _ _ Hf o Ho) as [Hold | Hnew].
    + by apply (ct_ok _ _ Hinv).
    + destruct e; try done. destruct Hnew as [-> ->]. by apply (Hcomp _ (Ok ())).
  - exact step_ids.
  - exact step_next.
  - intros j' c endpoint Hin. apply elem_of_snoc in Hin as [Hin | [= -> Hl]].
    + rewrite (sf_endpoints _ _ _ _ Hf). apply lookup_app_l_Some. by eapply (ct_connected _ _ Hinv).
    + clear - Hst Hl. destruct e; cbn in Hl; try done; try (by destruct x). injection Hl as -> ->.
      cbn in Hst. injection Hst as <- <-. unfold conn_endpoints. cbn. rewrite fmap_app.
      rewrite lookup_app_r by (by rewrite length_fmap). by rewrite length_fmap, Nat.sub_diag.
Qed.
End preservation.

(** A thread that starts, or is cut off. *)
Lemma start_account tr (ths : list client_thread) (w : client_world) th :
  ctrace_inv w tr -> client_threads w = ths ->
  match th with
  | CCaller p => exists a, wp (caller_monitor a) (None, KNone) p (caller_post a)
  | CLoop _ p => wp loop_monitor LIdle p (fun _ _ => True)
  end ->
  ctrace_inv (MkClientWorld (client w) (ths ++ [th])) tr.
Proof.
  intros Hinv <- Hth.
  assert (Hnew : forall l, (length (client_threads w), l) ∉ tr) by (intros l Hin%(ct_thread _ _ Hinv); lia).
  pose proof Hinv as [H1 H2 H3 H4 H5 H6 H7 H8 H9 H10]. split; cbn [client client_threads]; try assumption.
  - intros j th' [Hj | [Hge Hj]]%lookup_app_Some; [by apply (ct_account _ _ Hinv) |].
    apply list_lookup_singleton_Some in Hj as [Hz <-]. assert (j = length (client_threads w)) as -> by lia.
    destruct th as [p | t p].
    + destruct Hth as [a Hth]. exists a, (None, KNone). split_and!; [done | exact I | done |].
      intros c e Hin. by destruct (Hnew _ Hin).
    + split; [by exists LIdle |]. intros c e Hin. by destruct (Hnew _ Hin).
  - intros j l Hin%(ct_thread _ _ Hinv). rewrite length_app. lia.
Qed.

(** The application takes an item from a channel. *)
Lemma recv_trace_inv w tr j ch item s' :
  ctrace_inv w tr -> j < length (client_threads w) ->
  (exists rest, s' = with_receivers (client w) (receivers (client w)) (<[N.to_nat ch := rest]> (channels (client w)))) ->
  ctrace_inv (MkClientWorld s' (client_threads w)) (tr ++ [(j, Taken ch item)]).
Proof.
  intros [H1 H2 H3 H4 H5 H6 H7 H8 H9 H10] Hj [rest ->].
  set (s' := with_receivers _ _ _).
  assert (Hold : forall j' l, (j', l) ∈ tr ++ [(j, Taken ch item)] -> l <> Taken ch item -> (j', l) ∈ tr).
  { intros j' l [? | [= -> ->]]%elem_of_snoc Hl; [done | by destruct Hl]. }
  assert (Hg : grows (client w) s') by (unfold grows; reflexivity).
  split; cbn [client client_threads]; try assumption.
  - intros j' th Hth. specialize (H1 j' th Hth). destruct th as [p | t p]; cbn in H1 |- *.
    + destruct H1 as (a & st & Hwp & Hk & Hd & Hs). exists a, st. split_and!; [done | apply (attempt_mono a j' _ (client w)); [done | by intros | done] | |].
      * intros sid Hsid. by apply in_snoc, Hd.
      * intros c e Hin. by apply (Hs c), Hold.
    + destruct H1 as ((st & Hwp & Hr) & Hs). split; [exists st; split; [done | by apply reception_mono with (s := client w)] |].
      intros c e Hin. by apply (Hs c), Hold.
  - intros j' l [Hin | [= -> ->]]%elem_of_snoc; [by eapply H2 | done].
  - intros j' o Hin. by eapply H3, Hold.
  - intros j1 j2 o Hi1 Hi2. by eapply (H4 j1 j2 o); apply Hold.
  - intros j' sid c o Hin. by apply in_snoc, (H5 j' sid c), Hold.
  - intros sid p Hp. destruct (H6 sid p Hp) as (j' & c & Hin & Hc). exists j', c. split; [by apply in_snoc | done].
  - intros o Ho. apply answered_mono with (s := client w); [done | by apply H7].
  - intros j' c endpoint Hin. by eapply (H10 j'), Hold.
Qed.

Lemma act_trace_inv config w x w' tr :
  ctrace_inv w tr -> client_act config w x = Some w' -> ctrace_inv w' (tr ++ client_label w x).
Proof.
  intros Hinv Hact. destruct x; cbn in Hact |- *; rewrite ?app_nil_r.
  - destruct (client_threads w !! j) as [th |] eqn:Hj; [| done].
    destruct (client_proc th) as [| X e k] eqn:Hp; [done |].
    destruct (client_step X (client w) e h) as [[x s'] |] eqn:Hst; [| done]. injection Hact as <-.
    destruct w as [s ths]. by eapply step_trace_inv.
  - injection Hact as <-. apply start_account; [done | done |]. exists a. apply open_account.
  - destruct (existsb _ _); [| done]. injection Hact as <-. apply start_account; [done | done |].
    exists (session_address s). apply send_account.
  - destruct (existsb _ _); [| done]. injection Hact as <-. apply start_account; [done | done |].
    exists (session_address s). apply drop_account.
  - injection Hact as <-. apply start_account; [done | done |]. exists demo_address. apply shutdown_account.
  - destruct (inbound (client w) !! t) as [task |]; [| done].
    destruct (connections (client w) !! task_connection task) as [conn |]; [| done].
    destruct (existsb _ _); [done |]. injection Hact as <-. apply start_account; [done | done |].
    apply receive_loop_account.
  - destruct (client_threads w !! j) as [[p | t p] |] eqn:Hj; try done.
    destruct (inbound (client w) !! t) as [[c f []] |]; try done. destruct (at_await p); [| done]. injection Hact as <-.
    pose proof Hinv as [Hacc Hth H3 H4 H5 H6 H7 H8 H9 H10]. split; cbn [client client_threads]; try assumption.
    + intros j' th' [(-> & <- & _) | [Hne Hj']]%list_lookup_insert_Some; [| by apply Hacc].
      destruct (Hacc _ _ Hj) as [_ Hs]. split; [by exists LIdle | done].
    + intros j' l Hin. rewrite length_insert. by eapply Hth.
  - destruct (client_threads w !! j) as [th |] eqn:Hj; [| done]. cbn in Hact |- *.
    destruct (returned_session th) as [session |]; [| done]. cbn in Hact.
    destruct (session_recv session (client w)) as [[item s'] |] eqn:Hr; [| done]. injection Hact as <-.
    apply recv_trace_inv; [done | by eapply lookup_lt_Some |]. unfold session_recv in Hr.
    destruct (channels (client w) !! _) as [[] |]; [done | | done]. injection Hr as _ <-. by eexists.
Qed.

Lemma client_execution_inv config w tr : client_execution config w tr -> ctrace_inv w tr.
Proof.
  induction 1 as [| w tr x w' _ IH Hact]; [| by eapply act_trace_inv].
  split; cbn; try done; by intros; exfalso; eapply not_elem_of_nil.
Qed.

(** ** What an execution says of a Session that [open] returned *)
Section opened.
Context (w : client_world) (tr : ctrace) (Hinv : ctrace_inv w tr).

(** Session ids drawn by different opens differ. *)
Definition draws_differ : Prop := forall j j' sid, (j, Drawn sid) ∈ tr -> (j', Drawn sid) ∈ tr -> j = j'.

(** Its open was sent on its connection, and acknowledged on it. *)
Lemma returned_acknowledged j s :
  client_threads w !! j = Some (CCaller (Ret (COpened (Some (Ok s))))) ->
  (Z.of_nat (length (connections (client w))) <= U64_MAX + 1)%Z ->
  (j, Offered (session_connection s) (envelope_session_open (session_address s) (session_sid s))) ∈ tr /\
  exists j' e, (j', Received (session_connection s) e) ∈ tr /\ acknowledges e (session_sid s).
Proof.
  intros Hj Hb. destruct (ct_account _ _ Hinv j _ Hj) as (a & st & [<- ->] & [Ho Ha] & _). split; [done |].
  destruct Ha as (j' & c' & e & id & Hr & Hack & Hc & Hc'). exists j', e. split; [| done].
  assert (c' = session_connection s) as <-; [| done].
  assert (Hlt : forall c, conn_ids (client w) !! c = Some id -> (Z.of_nat c < U64_MAX + 1)%Z).
  { intros c Hl%lookup_lt_Some. unfold conn_ids in Hl. rewrite length_fmap in Hl. lia. }
  pose proof (Hlt _ Hc). pose proof (Hlt _ Hc'). apply (ct_ids _ _ Hinv) in Hc, Hc'. subst id.
  unfold wrapping_add, U64_MAX in *. apply Nat2Z.inj. Z.to_euclidean_division_equations. lia.
Qed.

(** Two opens of one Session are the same open. *)
Lemma one_open j j' c c' e e' :
  draws_differ -> (j, Offered c e) ∈ tr -> (j', Offered c' e') ∈ tr ->
  env_kind e = Some KSessionOpen -> env_kind e' = Some KSessionOpen -> env_session_id e = env_session_id e' -> e = e'.
Proof.
  intros Hd H1 H2 Hk1 Hk2 Hs.
  assert (Hacc : forall j c e, (j, Offered c e) ∈ tr -> env_kind e = Some KSessionOpen ->
            exists p a st, client_threads w !! j = Some (CCaller p) /\ caller_account j (client w) tr p a st).
  { intros i ci ei Hin Hk. pose proof (ct_thread _ _ Hinv _ _ Hin) as [th Hth]%lookup_lt_is_Some.
    pose proof (ct_account _ _ Hinv i th Hth) as Ha. destruct th as [p | t p].
    - destruct Ha as (a & st & Ha). eauto.
    - by destruct (proj2 Ha _ _ Hin). }
  destruct (Hacc _ _ _ H1 Hk1) as (p & a & st & Hj & _ & _ & Hd1 & Hs1).
  destruct (Hacc _ _ _ H2 Hk2) as (p' & a' & st' & Hj' & _ & _ & Hd2 & Hs2).
  destruct (Hs1 _ _ H1 Hk1) as (sid & Hsid & ->), (Hs2 _ _ H2 Hk2) as (sid' & Hsid' & ->).
  cbn in Hs. assert (sid' = sid) as -> by (destruct sid, sid'; cbn in Hs; congruence).
  assert (j' = j) as -> by (by eapply (Hd _ _ sid); [apply Hd2 | apply Hd1]).
  destruct (Hs1 _ _ H2 Hk2) as (sid2 & _ & Heq). unfold envelope_session_open, client_envelope in Heq |- *.
  by injection Heq as -> -> ->.
Qed.
End opened.
