(* ===== verification/ClientEvents.v ===== *)
(** * The Events of a Session

    What the application takes from a Session in the executions of [ClientTrace]:
    each receive loop hands the Events of the Session on in the order in which it
    received them, none twice, and the application takes what was handed on in
    that order. *)

From S2P Require Import Prelude Text Address Coordination Placement Transport Session Client ClientStep ClientRace ClientTrace.

(** ** Traces of Events *)

(** The payload of an Event for Session [sid]. *)
Definition event_payload (sid : SessionId) (e : Envelope) : option string :=
  match env_kind e with
  | Some (KEvent p) => if decide (session_id_from_bytes (env_session_id e) = Some sid) then Some p else None
  | _ => None
  end.

(** What thread [j] received. *)
Definition received_by (j : nat) (tr : ctrace) : list Envelope :=
  omap (fun l => match l.2 with Received _ e => if decide (l.1 = j) then Some e else None | _ => None end) tr.

(** The Events handed to channel [ch], by the thread that did it. *)
Definition delivered (ch : ChannelId) (tr : ctrace) : list (nat * string) :=
  omap (fun l => match l.2 with
                 | Delivered ch' (Ok p) => if decide (ch' = ch) then Some (l.1, p) else None
                 | _ => None
                 end) tr.

(** The Events the application took from it. *)
Definition taken_events (ch : ChannelId) (tr : ctrace) : list string :=
  omap (fun l => match l.2 with
                 | Taken ch' (Ok p) => if decide (ch' = ch) then Some p else None
                 | _ => None
                 end) tr.

Definition tagged (j : nat) (l : list (nat * string)) : list string :=
  omap (fun jp => if decide (jp.1 = j) then Some jp.2 else None) l.

Definition events_of (q : list Event) : list string := omap (fun item => if item is Ok p then Some p else None) q.

Lemma received_by_app j tr1 tr2 : received_by j (tr1 ++ tr2) = received_by j tr1 ++ received_by j tr2.
Proof. apply omap_app. Qed.
Lemma delivered_app ch tr1 tr2 : delivered ch (tr1 ++ tr2) = delivered ch tr1 ++ delivered ch tr2.
Proof. apply omap_app. Qed.
Lemma taken_events_app ch tr1 tr2 : taken_events ch (tr1 ++ tr2) = taken_events ch tr1 ++ taken_events ch tr2.
Proof. apply omap_app. Qed.
Lemma tagged_app j l1 l2 : tagged j (l1 ++ l2) = tagged j l1 ++ tagged j l2.
Proof. apply omap_app. Qed.
Lemma events_of_app q1 q2 : events_of (q1 ++ q2) = events_of q1 ++ events_of q2.
Proof. apply omap_app. Qed.

Lemma delivered_elem j ch p tr : (j, p) ∈ delivered ch tr <-> (j, Delivered ch (Ok p)) ∈ tr.
Proof.
  unfold delivered. rewrite list_elem_of_omap. split.
  - intros ([j' l] & Hin & Hl). cbn in Hl. destruct l as [| | | | | | | | ch' [q |] | |]; try done.
    case_decide; [| done]. by simplify_eq.
  - intros Hin. eexists. split; [exact Hin |]. cbn. by rewrite decide_True.
Qed.

(** ** The account of a caller *)
Inductive listening :=
| CNew
| CMade (ch : ChannelId)
| CListening (sid : SessionId) (ch : ChannelId).

Definition listener_allowed X (st : listening) (e : clientE X) : Prop :=
  match e with
  | NewChannel => st = CNew
  | RegisterLocal _ ch => st = CMade ch
  | ChannelSend _ item => is_ok item = false
  | RecvEnvelope _ => False
  | _ => True
  end.

Definition listener_next X (st : listening) (e : clientE X) : X -> listening :=
  match e in clientE X return X -> listening with
  | NewChannel => fun ch => CMade ch
  | RegisterLocal sid ch => fun _ => CListening sid ch
  | _ => fun _ => st
  end.

Definition listener_monitor : monitor clientE listening :=
  Monitor clientE listening listener_allowed (fun X st e x st' => st' = listener_next X st e x).

(** Calls that neither listen, nor hand on an Event, nor receive. *)
Definition mute X (e : clientE X) : Prop :=
  match e with
  | NewChannel | RegisterLocal _ _ | RecvEnvelope _ => False
  | ChannelSend _ item => is_ok item = false
  | _ => True
  end.

Lemma unnoticed_mute {A} (p : proc clientE A) : calls unnoticed p -> calls mute p.
Proof. apply calls_mono. by intros X []. Qed.

Lemma mute_listener {A} (p : proc clientE A) st : calls mute p -> wp listener_monitor st p (fun _ st' => st' = st).
Proof. apply calls_wp. intros X e He. destruct e; by split; [| intros ? ? ->]. Qed.

Lemma send_open_mute a sid c deadline : calls mute (send_session_open a sid c deadline).
Proof. unfold send_session_open, connection_try_send. repeat (done || (split; [done | intros ?]) || cbn || case_match). Qed.

Lemma open_at_mute config a sid ch deadline endpoint pa lo l : calls mute (open_at config a sid ch deadline endpoint pa lo l).
Proof.
  unfold open_at. apply calls_bind; [apply unnoticed_mute, acquire_unnoticed |]. intros [c | e]; [| by destruct pa].
  destruct (_ <=? _)%nat.
  - apply calls_bind; [apply unnoticed_mute, unbind_unnoticed |]. intros _.
    apply calls_bind; [apply unnoticed_mute, report_unnoticed | done].
  - apply calls_bind; [apply send_open_mute |]. intros [was_sent [[] | error]]; [done |].
    apply calls_bind; [by apply unnoticed_mute, try_send_unnoticed |]. intros _.
    apply calls_bind; [apply unnoticed_mute, unbind_unnoticed |]. intros _. split; [done |]. intros _.
    apply calls_bind; [apply unnoticed_mute, report_unnoticed | done].
Qed.

Lemma open_loop_mute config fuel a sid ch deadline l : calls mute (open_loop config fuel a sid ch deadline l).
Proof.
  revert l. induction fuel as [| fuel IH]; intros l; [done |]. cbn [open_loop].
  apply calls_bind; [| intros [r | l']; [done | apply IH]]. unfold open_iteration.
  apply calls_bind; [apply unnoticed_mute, resolve_unnoticed |]. intros [[endpoint id session |] | e]; [| | done].
  - case_bool_decide; [done | apply open_at_mute].
  - apply calls_bind; [apply unnoticed_mute, select_unnoticed |]. intros [endpoint | e]; [apply open_at_mute | done].
Qed.

(** The Session it opens is of the id and the channel it was given. *)
Definition opens_as (sid : SessionId) (ch : ChannelId) (x : loop_exit) : Prop :=
  match x with
  | Break (Ok s) => session_sid s = sid /\ session_channel s = ch
  | _ => True
  end.

Lemma open_at_yields config a sid ch deadline endpoint pa lo l :
  yields (opens_as sid ch) (open_at config a sid ch deadline endpoint pa lo l).
Proof.
  unfold open_at. eapply yields_bind; [apply yields_any |]. intros [c | e] _; [| by destruct pa]. destruct (_ <=? _)%nat.
  - by do 2 (eapply yields_bind; [apply yields_any |]; intros ? _).
  - eapply yields_bind; [apply yields_any |]. intros [was_sent [[] | error]] _; [done |].
    do 2 (eapply yields_bind; [apply yields_any |]; intros ? _). intros [].
    eapply yields_bind; [apply yields_any |]. intros ? _. cbn. unfold after_failure. by repeat case_match.
Qed.

Lemma open_loop_yields config fuel a sid ch deadline l :
  yields (fun r => forall s, r = Some (Ok s) -> session_sid s = sid /\ session_channel s = ch)
    (open_loop config fuel a sid ch deadline l).
Proof.
  revert l. induction fuel as [| fuel IH]; intros l; [done |]. cbn [open_loop].
  apply (yields_bind (opens_as sid ch)); [| intros [[s | e] | l'] Hs; cbn; [by intros ? [= <-] | done | apply IH]].
  unfold open_iteration. eapply yields_bind; [apply yields_any |]. intros [[endpoint id session |] | e] _; [| | done].
  - case_bool_decide; [done | apply open_at_yields].
  - eapply yields_bind; [apply yields_any |]. intros [endpoint | e] _; [apply open_at_yields | done].
Qed.

Definition listener_post (r : client_result) (st : listening) : Prop :=
  match r with
  | COpened (Some (Ok s)) => st = CListening (session_sid s) (session_channel s)
  | _ => True
  end.

Lemma open_listener config fuel a : wp listener_monitor CNew (done_after COpened (open config fuel a)) listener_post.
Proof.
  apply wp_bind. unfold open. split; [done |]. intros st ? ->. destruct (negb _); [done |].
  do 2 (split; [done |]; intros ? ? ->). split; [done |]. intros ch ? ->. split; [done |]. intros [] ? ->.
  apply wp_bind. eapply (wp_mono _ _ _ (fun r st => (forall s, r = Some (Ok s) -> session_sid s = x0 /\ session_channel s = ch) /\ _)).
  2: { apply yields_wp; [apply open_loop_yields | apply mute_listener, open_loop_mute]. }
  intros [[s | e] |] ? [Hs ->]; [| | done].
  - by destruct (Hs s eq_refl) as [<- <-].
  - do 2 (split; [done |]; intros ? ? ->). done.
Qed.

(** The other calls of the application. *)
Definition not_opened (r : client_result) : Prop := if r is COpened _ then False else True.

Lemma quiet_listener {A} (p : proc clientE A) f :
  calls unnoticed p -> (forall x, not_opened (f x)) -> wp listener_monitor CNew (done_after f p) listener_post.
Proof.
  intros Hp Hf. apply wp_bind. eapply wp_mono; [| by apply mute_listener, unnoticed_mute].
  intros x st _. cbn. specialize (Hf x). by destruct (f x).
Qed.

Lemma session_send_listener alive s msg : wp listener_monitor CNew (done_after CReplied (session_send alive s msg)) listener_post.
Proof. apply quiet_listener; [| done]. unfold session_send. unnoticed_calls. Qed.

Lemma session_drop_listener s : wp listener_monitor CNew (done_after (fun _ => CDone) (session_drop s)) listener_post.
Proof. apply quiet_listener; [| done]. unfold session_drop. unnoticed_calls. Qed.

Lemma shutdown_listener : wp listener_monitor CNew (done_after (fun _ => CDone) client_shutdown) listener_post.
Proof.
  apply quiet_listener; [| done]. unfold client_shutdown.
  unnoticed_calls; apply for_each_unnoticed; unnoticed_calls. apply for_each_unnoticed, close_unnoticed.
Qed.

(** ** The account of a receive loop *)
Inductive passing :=
| EIdle
| EGot (e : Envelope)
| EFound (e : Envelope) (sid : SessionId) (ch : ChannelId).

Definition passing_allowed (c : ConnRef) X (st : passing) (e : clientE X) : Prop :=
  match e with
  | RecvEnvelope c' => c' = c
  | ChannelSend ch (Ok p) => exists e sid, st = EFound e sid ch /\ event_payload sid e = Some p
  | NewChannel | RegisterLocal _ _ => False
  | _ => True
  end.

Definition passing_next X (st : passing) (e : clientE X) : X -> passing :=
  match e in clientE X return X -> passing with
  | RecvEnvelope _ => fun r => if r is Some e then EGot e else EIdle
  | Receiver sid => fun r =>
      match r, st with
      | Some ch, EGot e | Some ch, EFound e _ _ => EFound e sid ch
      | _, _ => st
      end
  | ChannelSend _ item => fun _ => if item is Ok _ then EIdle else st
  | _ => fun _ => st
  end.

Definition passing_monitor (c : ConnRef) : monitor clientE passing :=
  Monitor clientE passing (passing_allowed c) (fun X st e x st' => st' = passing_next X st e x).

Ltac passing_call := split; [try done | intros ? ? ->; cbn [passing_next]].

Lemma handle_envelope_passing c e : wp (passing_monitor c) (EGot e) (handle_envelope e c) (fun _ _ => True).
Proof.
  unfold handle_envelope. destruct (env_kind e) as [kind |] eqn:Hk; [| done].
  destruct (session_id_from_bytes (env_session_id e)) as [sid |] eqn:Hs; [| done].
  destruct kind as [| | | payload | failure | outcome]; try done.
  - unfold deliver. passing_call. destruct x; [| done]. passing_call. destruct x as [ch |]; [| done]. passing_call; [| done].
    exists e, sid. split; [done |]. unfold event_payload. by rewrite Hk, Hs, decide_True.
  - unfold deliver. passing_call. destruct x; [| done]. passing_call. destruct x as [ch |]; [| done]. by passing_call.
  - passing_call. destruct x; [| done]. by passing_call.
Qed.

Lemma quiet_passing {A} c (p : proc clientE A) st :
  calls unnoticed p -> wp (passing_monitor c) st p (fun _ st' => st' = st).
Proof.
  apply calls_wp. intros X e He. destruct e; try done; (split; [try done | try by intros ? ? ->]).
  - by destruct item.
  - intros x s' ->. by destruct item.
Qed.

Lemma receive_loop_passing fuel c endpoint st :
  wp (passing_monitor c) st (done_after (fun _ => CDone) (receive_loop fuel c endpoint)) (fun _ _ => True).
Proof.
  apply wp_bind. eapply (wp_mono _ _ _ (fun _ _ => True)); [done |].
  revert st. induction fuel as [| fuel IH]; intros st; [done |]. cbn [receive_loop]. passing_call.
  destruct x as [e |].
  - apply wp_bind. eapply wp_mono; [| apply handle_envelope_passing]. intros [] st' _. apply IH.
  - unfold retire_connection. do 2 passing_call. apply wp_bind.
    eapply wp_mono; [| apply quiet_passing; unnoticed_calls]. intros [] ? ->. do 2 passing_call. apply wp_bind.
    assert (Hend : forall l st, wp (passing_monitor c) st (for_each (end_session c) l) (fun _ _ => True)).
    { intros l. induction l as [| sid l IHl]; intros st'; [done |]. cbn [for_each]. unfold end_session. cbn [proc_bind].
      split; [done |]. intros o ? ->. destruct o; cbn [proc_bind passing_next]; passing_call; apply IHl. }
    eapply wp_mono; [| apply Hend]. intros [] st' _. by do 2 passing_call.
Qed.

(** ** What a step does to the channels *)
Definition queue (s : ClientState) (ch : ChannelId) : list Event := default [] (channels s !! N.to_nat ch).

Record channel_frame X (e : clientE X) (x : X) (s s' : ClientState) : Prop := {
  cf_receivers sid ch : receivers s' !! sid = Some ch -> receivers s !! sid = Some ch \/ clabel_of X e x = Listening sid ch;
  cf_queue ch : events_of (queue s' ch) = events_of (queue s ch) \/
    exists p, clabel_of X e x = Delivered ch (Ok p) /\ events_of (queue s' ch) = events_of (queue s ch) ++ [p];
  cf_length : length (channels s) <= length (channels s');
  cf_made ch : clabel_of X e x = ChannelMade ch -> N.to_nat ch = length (channels s) /\ length (channels s) < length (channels s')
}.

Lemma channel_frame_same X (e : clientE X) x s s' :
  (forall sid ch, receivers s' !! sid = Some ch -> receivers s !! sid = Some ch) -> channels s' = channels s ->
  (forall ch, clabel_of X e x <> ChannelMade ch) -> channel_frame X e x s s'.
Proof.
  intros Hr Hc Hm. split; [by left; apply Hr | | by rewrite Hc | by intros ch ?%Hm].
  intros ch. left. unfold queue. by rewrite Hc.
Qed.

Lemma queue_channel_send ch item s ch' :
  events_of (queue (channel_send ch item s) ch') = events_of (queue s ch') \/
  ch' = ch /\ events_of (queue (channel_send ch item s) ch') = events_of (queue s ch') ++ events_of [item].
Proof.
  unfold queue, channel_send. cbn. destruct (decide (ch' = ch)) as [-> | Hne].
  - rewrite list_lookup_alter_eq. destruct (channels s !! N.to_nat ch) as [q |]; cbn; [| by left].
    case_match; [right; split; [done | apply events_of_app] | by left].
  - left. rewrite list_lookup_alter_ne; [done |]. by intros ?%N2Nat.inj.
Qed.

Lemma channel_send_lookup ch item s sid : receivers (channel_send ch item s) !! sid = receivers s !! sid.
Proof. done. Qed.

Lemma client_step_channels X s (e : clientE X) h x s' : client_step X s e h = Some (x, s') -> channel_frame X e x s s'.
Proof.
  intros Hst.
  destruct e; cbn in Hst;
    repeat match type of Hst with
           | (?o ≫= _) = _ => let E := fresh "E" in destruct o eqn:E; cbn in Hst; [| done]
           | match ?h with _ => _ end = _ => let E := fresh "E" in destruct h eqn:E; try done
           | (if ?b then _ else _) = _ => let E := fresh "E" in destruct b eqn:E; try done
           end;
    try (injection Hst as <- <-); try (by apply channel_frame_same).
  - (* a new channel, empty *)
    split; cbn; [by left | | rewrite length_app; lia | ].
    + intros ch. left. unfold queue. cbn. destruct (channels s !! N.to_nat ch) as [q |] eqn:Hq.
      * by rewrite (lookup_app_l_Some _ _ _ _ Hq).
      * apply lookup_ge_None in Hq. rewrite lookup_app_r by done.
        by destruct (N.to_nat ch - length (channels s)) as [| [| n]].
    + intros ch [= <-]. rewrite length_app, Nat2N.id. cbn. lia.
  - split; cbn; [| by left | done | done]. unfold Caller.register_local. intros sid' ch' [(<- & <-) | [_ Hr]]%lookup_insert_Some; [by right | by left].
  - apply channel_frame_same; [| done | done]. cbn. unfold Caller.unregister_local. by intros sid' ch' [_ Hr]%lookup_delete_Some.
  - unfold terminate_local, Caller.terminate. destruct (receivers s !! sid) as [ch0 |] eqn:Hr.
    2: { apply channel_frame_same; [| done | done]. cbn. by intros sid' ch' [_ ?]%lookup_delete_Some. }
    split; cbn [clabel_of]; [| | by cbn; rewrite length_alter | done].
    + intros sid' ch'. rewrite channel_send_lookup. cbn. by intros [_ ?]%lookup_delete_Some; left.
    + intros ch'. left. destruct (queue_channel_send ch0 (Err error) (with_receivers s (delete sid (receivers s)) (channels s)) ch')
        as [-> | [_ ->]]; [done |]. cbn. by rewrite app_nil_r.
  - split; cbn [clabel_of]; [by left | | by cbn; rewrite length_alter | done].
    intros ch'. destruct (queue_channel_send ch item s ch') as [-> | [-> ->]]; [by left |].
    destruct item as [p | error]; [right; by exists p | left; cbn; by rewrite app_nil_r].
  - injection Hst as Hst. unfold pool in Hst. destruct (pools s !! endpoint); injection Hst as <- <-; by apply channel_frame_same.
  - apply channel_frame_same; [done | done |]. intros ch. cbn. by case_match.
  - injection Hst as Hst. unfold take_pending in Hst. repeat case_match; injection Hst as <- <-; by apply channel_frame_same.
Qed.

(** ** The invariant *)

(** What thread [j] handed on for each Session are, in order, Events of that
    Session in [l]. *)
Definition passes (j : nat) (tr : ctrace) (l : list Envelope) : Prop :=
  forall j' sid ch, (j', Listening sid ch) ∈ tr -> tagged j (delivered ch tr) `sublist_of` omap (event_payload sid) l.

Definition passing_account (j : nat) (tr : ctrace) (st : passing) : Prop :=
  match st with
  | EIdle => passes j tr (received_by j tr)
  | EGot e => exists l, received_by j tr = l ++ [e] /\ passes j tr l
  | EFound e sid ch => (exists j', (j', Listening sid ch) ∈ tr) /\ exists l, received_by j tr = l ++ [e] /\ passes j tr l
  end.

Definition listener_account (j : nat) (tr : ctrace) (st : listening) : Prop :=
  match st with
  | CNew => forall sid ch, (j, Listening sid ch) ∉ tr
  | CMade ch => (j, ChannelMade ch) ∈ tr /\ forall sid ch', (j, Listening sid ch') ∉ tr
  | CListening sid ch =>
      (j, Listening sid ch) ∈ tr /\ forall sid' ch', (j, Listening sid' ch') ∈ tr -> sid' = sid /\ ch' = ch
  end.

Definition eaccount (j : nat) (tr : ctrace) (th : client_thread) : Prop :=
  match th with
  | CCaller p =>
      (exists st, wp listener_monitor st p listener_post /\ listener_account j tr st) /\
      received_by j tr = [] /\ forall ch, tagged j (delivered ch tr) = []
  | CLoop _ p =>
      exists c, (exists st, wp (passing_monitor c) st p (fun _ _ => True) /\ passing_account j tr st) /\
      (forall sid ch, (j, Listening sid ch) ∉ tr) /\ forall c' e, (j, Received c' e) ∈ tr -> c' = c
  end.

Record events_inv (w : client_world) (tr : ctrace) : Prop := {
  ev_account j th : client_threads w !! j = Some th -> eaccount j tr th;
  ev_thread j l : (j, l) ∈ tr -> j < length (client_threads w);
  ev_made j ch : (j, ChannelMade ch) ∈ tr -> N.to_nat ch < length (channels (client w));
  ev_maker j j' ch : (j, ChannelMade ch) ∈ tr -> (j', ChannelMade ch) ∈ tr -> j = j';
  ev_listening j sid ch : (j, Listening sid ch) ∈ tr -> (j, ChannelMade ch) ∈ tr;
  ev_receivers sid ch : receivers (client w) !! sid = Some ch -> exists j, (j, Listening sid ch) ∈ tr;
  ev_delivered j ch p : (j, Delivered ch (Ok p)) ∈ tr -> exists j' sid, (j', Listening sid ch) ∈ tr;
  ev_queue ch : exists D, D `sublist_of` delivered ch tr /\ D.*2 = taken_events ch tr ++ events_of (queue (client w) ch)
}.

Lemma passing_passes j tr st : passing_account j tr st -> passes j tr (received_by j tr).
Proof.
  assert (H : (exists l e, received_by j tr = l ++ [e] /\ passes j tr l) -> passes j tr (received_by j tr)).
  { intros (l & e & -> & Hl) j' sid ch Hin. rewrite omap_app. apply sublist_inserts_r. by eapply Hl. }
  destruct st; cbn; [done | intros (l & ? & ?) | intros (_ & l & ? & ?)]; apply H; eauto.
Qed.

(** *** What a label leaves alone *)
Definition quiet_label (l : clabel) : Prop :=
  match l with
  | Received _ _ | Listening _ _ | Delivered _ (Ok _) => False
  | _ => True
  end.

Lemma received_by_snoc j j0 l tr :
  received_by j (tr ++ [(j0, l)]) =
  received_by j tr ++ match l with Received _ e => if decide (j0 = j) then [e] else [] | _ => [] end.
Proof. rewrite received_by_app. f_equal. unfold received_by. cbn. destruct l; try done. by case_decide. Qed.

Lemma tagged_snoc j ch j0 l tr :
  tagged j (delivered ch (tr ++ [(j0, l)])) =
  tagged j (delivered ch tr) ++
  match l with Delivered ch' (Ok p) => if decide (ch' = ch) then if decide (j0 = j) then [p] else [] else [] | _ => [] end.
Proof.
  rewrite delivered_app, tagged_app. f_equal. unfold delivered. cbn. destruct l as [| | | | | | | | ch' [p |] | |]; try done.
  case_decide; [| done]. unfold tagged. cbn. by case_decide.
Qed.

Section neutral.
Context (tr : ctrace) (j j0 : nat) (l : clabel).
Context (Hq : j0 <> j \/ quiet_label l).

Lemma received_by_neutral : received_by j (tr ++ [(j0, l)]) = received_by j tr.
Proof.
  rewrite received_by_snoc. destruct l; try (by rewrite app_nil_r). destruct Hq as [? | []]. by rewrite decide_False, app_nil_r.
Qed.

Lemma tagged_neutral ch : tagged j (delivered ch (tr ++ [(j0, l)])) = tagged j (delivered ch tr).
Proof.
  rewrite tagged_snoc. destruct l as [| | | | | | | | ch' [p |] | |]; try (by rewrite app_nil_r).
  destruct Hq as [? | []]. rewrite (decide_False (P := j0 = j)) by done. case_decide; by rewrite app_nil_r.
Qed.

Lemma neutral_listening sid ch : (j, Listening sid ch) ∈ tr ++ [(j0, l)] -> (j, Listening sid ch) ∈ tr.
Proof. intros [? | [= -> <-]]%elem_of_snoc; [done | by destruct Hq]. Qed.

Lemma neutral_received c e : (j, Received c e) ∈ tr ++ [(j0, l)] -> (j, Received c e) ∈ tr.
Proof. intros [? | [= -> <-]]%elem_of_snoc; [done | by destruct Hq]. Qed.

(** A channel someone starts to listen on was not listened on. *)
Context (Hfresh : forall sid ch, l = Listening sid ch -> tagged j (delivered ch tr) = []).

Lemma passes_neutral k : passes j tr k -> passes j (tr ++ [(j0, l)]) k.
Proof.
  intros Hp j' sid ch. rewrite tagged_neutral. intros [Hin | [= _ Hl]]%elem_of_snoc; [by eapply Hp |].
  rewrite (Hfresh sid ch) by done. apply sublist_nil_l.
Qed.

Lemma passing_neutral st : passing_account j tr st -> passing_account j (tr ++ [(j0, l)]) st.
Proof.
  destruct st; cbn; rewrite received_by_neutral.
  - apply passes_neutral.
  - intros (k & Hk & Hp). exists k. split; [done | by apply passes_neutral].
  - intros ((j' & Hin) & k & Hk & Hp). split; [exists j'; by apply in_snoc |].
    exists k. split; [done | by apply passes_neutral].
Qed.

Lemma listener_neutral st : listener_account j tr st -> listener_account j (tr ++ [(j0, l)]) st.
Proof.
  destruct st; cbn.
  - by intros Hn sid ch ?%neutral_listening%Hn.
  - intros [Hm Hn]. split; [by apply in_snoc | by intros sid ch' ?%neutral_listening%Hn].
  - intros [Hm Hn]. split; [by apply in_snoc | by intros sid' ch' ?%neutral_listening%Hn].
Qed.

Lemma eaccount_neutral th : eaccount j tr th -> eaccount j (tr ++ [(j0, l)]) th.
Proof.
  destruct th as [p | t p]; cbn.
  - intros ((st & Hwp & Hst) & Hr & Hd). rewrite received_by_neutral. split_and!; [| done | intros ch; by rewrite tagged_neutral].
    exists st. split; [done | by apply listener_neutral].
  - intros (c & (st & Hwp & Hst) & Hn & Hc). exists c. split_and!.
    + exists st. split; [done | by apply passing_neutral].
    + by intros sid ch ?%neutral_listening%Hn.
    + by intros c' e ?%neutral_received%Hc.
Qed.
End neutral.

(** *** Channels *)
Section channels.
Context (w : client_world) (tr : ctrace) (Hinv : events_inv w tr).

(** A thread listens at most once, and on a channel of its own. *)
Lemma channel_listener j j' sid sid' ch :
  (j, Listening sid ch) ∈ tr -> (j', Listening sid' ch) ∈ tr -> j' = j /\ sid' = sid.
Proof.
  intros H1 H2.
  assert (j' = j) as -> by (by eapply (ev_maker _ _ Hinv); eapply (ev_listening _ _ Hinv)). split; [done |].
  destruct (lookup_lt_is_Some_2 _ _ (ev_thread _ _ Hinv _ _ H1)) as [th Hth].
  pose proof (ev_account _ _ Hinv _ _ Hth) as Ha. destruct th as [p | t p].
  - destruct Ha as ((st & _ & Hst) & _). destruct st as [| ch0 | sid0 ch0].
    + by destruct (Hst _ _ H1).
    + by destruct (proj2 Hst _ _ H1).
    + destruct (proj2 Hst _ _ H1) as [-> _]. by destruct (proj2 Hst _ _ H2) as [-> _].
  - destruct Ha as (c & _ & Hn & _). by destruct (Hn _ _ H1).
Qed.

Lemma silent_channel ch : (forall j sid, (j, Listening sid ch) ∉ tr) -> delivered ch tr = [].
Proof.
  intros Hn. destruct (delivered ch tr) as [| [j p] l] eqn:Hd; [done | exfalso].
  assert (Hin : (j, p) ∈ delivered ch tr) by (rewrite Hd; constructor).
  apply delivered_elem, (ev_delivered _ _ Hinv) in Hin as (j' & sid & Hin). by eapply Hn.
Qed.

Lemma every_passes j th : client_threads w !! j = Some th -> passes j tr (received_by j tr).
Proof.
  intros Hth. pose proof (ev_account _ _ Hinv _ _ Hth) as Ha. destruct th as [p | t p].
  - destruct Ha as (_ & Hr & Hd). intros j' sid ch _. rewrite Hd. apply sublist_nil_l.
  - destruct Ha as (c & (st & _ & Hst) & _). by eapply passing_passes.
Qed.
End channels.

(** *** One step *)
Section step.
Context (s s' : ClientState) (ths : list client_thread) (tr : ctrace) (j : nat) (th : client_thread).
Context (X : Type) (e : clientE X) (k : X -> proc clientE client_result) (h : client_hint) (x : X).
Context (Hinv : events_inv (MkClientWorld s ths) tr).
Context (Hj : ths !! j = Some th) (Hp : client_proc th = Call e k) (Hst : client_step X s e h = Some (x, s')).
Abbreviation lab := (clabel_of X e x).
Abbreviation tr' := (tr ++ [(j, lab)]).

Lemma label_listening sid ch :
  lab = Listening sid ch -> (j, ChannelMade ch) ∈ tr /\ forall j' sid', (j', Listening sid' ch) ∉ tr.
Proof.
  intros Hl. pose proof (ev_account _ _ Hinv j th Hj) as Ha.
  destruct th as [p | t p]; cbn in Ha, Hp; subst p.
  - destruct Ha as ((st & [Hal _] & Hs) & _). destruct e; cbn in Hl, Hal; try done; try (by destruct x).
    injection Hl as -> ->. rewrite Hal in Hs. destruct Hs as [Hm Hn]. split; [done |]. intros j' sid' Hin.
    assert (j' = j) as -> by (eapply (ev_maker _ _ Hinv); [by eapply (ev_listening _ _ Hinv) | done]). by destruct (Hn _ _ Hin).
  - destruct Ha as (c & (st & [Hal _] & _) & _). by destruct e; cbn in Hl, Hal; try done; destruct x.
Qed.

Lemma label_fresh j' sid ch : lab = Listening sid ch -> tagged j' (delivered ch tr) = [].
Proof. intros [_ Hn]%label_listening. by rewrite (silent_channel _ _ Hinv). Qed.

(** The Event thread [j] hands on is of the Session that listens. *)
Lemma passing_step c st :
  passing_allowed c X st e -> passing_account j tr st -> passing_account j tr' (passing_next X st e x).
Proof.
  intros Hal Hs. pose proof (passing_passes _ _ _ Hs) as Hall.
  assert (Hkeep : quiet_label lab -> passing_account j tr' st).
  { intros Hq. apply passing_neutral; [by right | apply label_fresh | done]. }
  destruct e; cbn [passing_allowed passing_next clabel_of] in *; try (by apply Hkeep); try done.
  - cbn in Hst. injection Hst as <- <-. destruct (Caller.receiver (receivers s) sid) as [ch |] eqn:Hr; [| by apply Hkeep].
    destruct (ev_receivers _ _ Hinv sid ch Hr) as [j' Hin].
    assert (Hl : exists j', (j', Listening sid ch) ∈ tr ++ [(j, CSilent)]) by (exists j'; by apply in_snoc).
    destruct st as [| e0 | e0 sid0 ch0]; [by apply Hkeep | |]; (split; [exact Hl | by apply Hkeep]).
  - destruct item as [p | error]; [| by apply Hkeep]. destruct Hal as (e0 & sid & -> & Hpay).
    destruct Hs as ((j1 & Hin1) & l & Hl & Hpass). cbn. intros j2 sid2 ch2 [Hin2 | [=]]%elem_of_snoc.
    rewrite tagged_snoc, received_by_snoc, app_nil_r, Hl, omap_app. cbn. rewrite (decide_True (P := j = j)) by done.
    destruct (decide (ch = ch2)) as [<- | Hne].
    + destruct (channel_listener _ _ Hinv _ _ _ _ _ Hin1 Hin2) as [_ ->]. rewrite Hpay.
      apply sublist_app; [by eapply Hpass | done].
    + rewrite app_nil_r. apply sublist_inserts_r. by eapply Hpass.
  - destruct x; by apply Hkeep.
  - destruct x as [e0 |]; cbn.
    + exists (received_by j tr). rewrite received_by_snoc, decide_True by done. split; [done |].
      intros j2 sid2 ch2. rewrite tagged_snoc, app_nil_r. intros [Hin2 | [=]]%elem_of_snoc. by eapply Hall.
    + rewrite received_by_snoc, app_nil_r. intros j2 sid2 ch2. rewrite tagged_snoc, app_nil_r.
      intros [Hin2 | [=]]%elem_of_snoc. by eapply Hall.
Qed.

Lemma listener_step st :
  listener_allowed X st e -> listener_account j tr st -> listener_account j tr' (listener_next X st e x).
Proof.
  intros Hal Hs.
  assert (Hkeep : quiet_label lab -> listener_account j tr' st).
  { intros Hq. apply listener_neutral; [by right | done]. }
  destruct e; cbn [listener_allowed listener_next clabel_of] in *; try (by apply Hkeep); try done.
  - rewrite Hal in Hs. cbn in Hs |- *. split; [apply elem_of_snoc; by right |].
    by intros sid ch' [?%Hs | [=]]%elem_of_snoc.
  - rewrite Hal in Hs. destruct Hs as [_ Hn]. cbn. split; [apply elem_of_snoc; by right |].
    by intros sid' ch' [?%Hn | [= -> ->]]%elem_of_snoc.
  - destruct item; [done | by apply Hkeep].
  - destruct x; by apply Hkeep.
Qed.

Lemma stepper_eaccount : eaccount j tr' (client_continue th (k x)).
Proof.
  pose proof (ev_account _ _ Hinv j th Hj) as Ha. pose proof passing_step as Hps. pose proof listener_step as Hls.
  destruct th as [p | t p]; cbn in Ha, Hp |- *; subst p.
  - destruct Ha as ((st & [Hal Hk] & Hs) & Hr & Hd). split.
    { exists (listener_next X st e x). split; [by apply Hk | by apply Hls]. }
    split; [rewrite received_by_snoc, Hr | intros ch; rewrite tagged_snoc, Hd].
    + destruct e; cbn in Hal |- *; try done. by destruct x.
    + destruct e; cbn in Hal |- *; try done; [by destruct item | by destruct x..].
  - destruct Ha as (c & (st & [Hal Hk] & Hs) & Hn & Hc). exists c. split_and!.
    + exists (passing_next X st e x). split; [by apply Hk | exact (Hps c st Hal Hs)].
    + intros sid ch [Hin | Hl]%elem_of_snoc; [by destruct (Hn _ _ Hin) |].
      injection Hl as Hl. by destruct e; cbn in Hl, Hal; try done; destruct x.
    + intros c' e0 [Hin | Hl]%elem_of_snoc; [by eapply Hc |]. injection Hl as Hl.
      destruct e; cbn in Hl, Hal; try done; destruct x; try done. by injection Hl as -> _.
Qed.

Lemma bystander_eaccount j' th' : j' <> j -> ths !! j' = Some th' -> eaccount j' tr' th'.
Proof.
  intros Hne Hj'. apply eaccount_neutral; [by left | intros sid ch; apply label_fresh | by apply (ev_account _ _ Hinv)].
Qed.

Lemma label_not_taken ch item : lab <> Taken ch item.
Proof. destruct e; cbn; try done; by destruct x. Qed.

Lemma step_queue ch : exists D, D `sublist_of` delivered ch tr' /\ D.*2 = taken_events ch tr' ++ events_of (queue s' ch).
Proof.
  destruct (ev_queue _ _ Hinv ch) as (D & Hsub & HD). cbn in HD.
  assert (Ht : taken_events ch tr' = taken_events ch tr).
  { rewrite taken_events_app. unfold taken_events at 2. cbn. pose proof label_not_taken as Hn.
    destruct lab as [| | | | | | | | | ch' item |]; try apply app_nil_r. by destruct (Hn ch' item). }
  rewrite Ht, delivered_app. destruct (cf_queue _ _ _ _ _ (client_step_channels _ _ _ _ _ _ Hst) ch) as [-> | (p & Hl & ->)].
  - exists D. split; [by apply sublist_inserts_r | done].
  - exists (D ++ [(j, p)]). rewrite Hl. unfold delivered at 2. cbn. rewrite decide_True by done.
    split; [by apply sublist_app |]. by rewrite fmap_app, HD, <- app_assoc.
Qed.

Lemma step_events_inv : events_inv (MkClientWorld s' (<[j := client_continue th (k x)]> ths)) tr'.
Proof.
  pose proof (client_step_channels _ _ _ _ _ _ Hst) as Hf.
  assert (Hmade : forall j' ch, (j', ChannelMade ch) ∈ tr' -> (j', ChannelMade ch) ∈ tr \/ j' = j /\ lab = ChannelMade ch).
  { intros j' ch [? | [= -> ?]]%elem_of_snoc; [by left | by right]. }
  assert (Hnew : forall ch j', lab = ChannelMade ch -> (j', ChannelMade ch) ∉ tr).
  { intros ch j' [Hl _]%(cf_made _ _ _ _ _ Hf) Hin%(ev_made _ _ Hinv). cbn in Hin. lia. }
  split; cbn [client client_threads].
  - intros j' th' [(Heq & <- & _) | [Hne Hj']]%list_lookup_insert_Some;
      [rewrite <- Heq; apply stepper_eaccount | by apply bystander_eaccount].
  - intros j' l. rewrite length_insert. intros [Hin | [= -> _]]%elem_of_snoc; [by eapply (ev_thread _ _ Hinv) |].
    by eapply lookup_lt_Some.
  - intros j' ch [Hin | [_ Hl]]%Hmade.
    + apply (ev_made _ _ Hinv) in Hin. cbn in Hin. pose proof (cf_length _ _ _ _ _ Hf). lia.
    + apply (cf_made _ _ _ _ _ Hf) in Hl. lia.
  - intros j1 j2 ch [H1 | [-> H1]]%Hmade [H2 | [-> H2]]%Hmade;
      [by eapply (ev_maker _ _ Hinv) | by destruct (Hnew _ _ H2 H1) | by destruct (Hnew _ _ H1 H2) | done].
  - intros j' sid ch [Hin | [= -> Hl]]%elem_of_snoc; apply in_snoc; [by eapply (ev_listening _ _ Hinv) |].
    symmetry in Hl. by apply label_listening in Hl as [? _].
  - intros sid ch [[j' Hin]%(ev_receivers _ _ Hinv) | Hl]%(cf_receivers _ _ _ _ _ Hf).
    + exists j'. by apply in_snoc.
    + exists j. rewrite <- Hl. apply elem_of_snoc. by right.
  - intros j' ch p [Hin | [= -> Hl]]%elem_of_snoc.
    + destruct (ev_delivered _ _ Hinv _ _ _ Hin) as (j1 & sid & Hin1). exists j1, sid. by apply in_snoc.
    + pose proof (ev_account _ _ Hinv j th Hj) as Ha. destruct th as [q | t q]; cbn in Ha, Hp; subst q.
      * destruct Ha as ((st & [Hal _] & _) & _). destruct e; cbn in Hl, Hal; try done; try (by destruct x).
        by injection Hl as _ <-.
      * destruct Ha as (c & (st & [Hal _] & Hs) & _). destruct e; cbn in Hl, Hal; try done; try (by destruct x).
        injection Hl as -> <-. destruct Hal as (e0 & sid & -> & _). destruct Hs as ((j1 & Hin1) & _).
        exists j1, sid. by apply in_snoc.
  - apply step_queue.
Qed.
End step.

(** A thread that has not started has done nothing. *)
Lemma unstarted tr j :
  (forall l, (j, l) ∉ tr) -> received_by j tr = [] /\ forall ch, tagged j (delivered ch tr) = [].
Proof.
  intros Hnew. split; [| intros ch]; apply elem_of_nil_inv; intros y ([j' l'] & Hin & Hl)%list_elem_of_omap; cbn in Hl.
  - destruct l'; try done. case_decide; [| done]. subst. by eapply Hnew.
  - case_decide; [| done]. subst. apply delivered_elem in Hin. by eapply Hnew.
Qed.

(** A thread that starts. *)
Lemma start_eaccount w tr th :
  events_inv w tr ->
  match th with
  | CCaller p => wp listener_monitor CNew p listener_post
  | CLoop _ p => exists c, wp (passing_monitor c) EIdle p (fun _ _ => True)
  end ->
  events_inv (MkClientWorld (client w) (client_threads w ++ [th])) tr.
Proof.
  intros Hinv Hth. assert (Hnew : forall l, (length (client_threads w), l) ∉ tr) by (intros l Hin%(ev_thread _ _ Hinv); lia).
  set (j := length (client_threads w)) in *.
  destruct (unstarted tr j Hnew) as [Hr Hd].
  pose proof Hinv as [H1 H2 H3 H4 H5 H6 H7 H8]. split; cbn [client client_threads]; try assumption.
  - intros j' th' [Hj | [Hge Hj]]%lookup_app_Some; [by apply H1 |].
    apply list_lookup_singleton_Some in Hj as [Hz <-]. assert (j' = j) as -> by (unfold j; lia).
    destruct th as [p | t p]; cbn.
    + split_and!; [| done | done]. exists CNew. split; [done |]. intros sid ch. apply Hnew.
    + destruct Hth as [c Hth]. exists c. split_and!.
      * exists EIdle. split; [done |]. intros j' sid ch _. rewrite Hd. apply sublist_nil_l.
      * intros sid ch. apply Hnew.
      * intros c' e Hin. by destruct (Hnew _ Hin).
  - intros j' l Hin%H2. rewrite length_app. lia.
Qed.

(** The application takes an item. *)
Lemma recv_events_inv w tr j session item s' :
  events_inv w tr -> j < length (client_threads w) -> session_recv session (client w) = Some (item, s') ->
  events_inv (MkClientWorld s' (client_threads w)) (tr ++ [(j, Taken (session_channel session) item)]).
Proof.
  intros Hinv Hj Hr. unfold session_recv in Hr.
  destruct (channels (client w) !! N.to_nat (session_channel session)) as [[| it rest] |] eqn:Hq; [done | | done].
  injection Hr as -> <-. set (ch0 := session_channel session) in *.
  assert (Hold : forall j' l, (j', l) ∈ tr ++ [(j, Taken ch0 item)] -> l <> Taken ch0 item -> (j', l) ∈ tr).
  { intros j' l [? | [= -> ->]]%elem_of_snoc Hl; [done | by destruct Hl]. }
  pose proof Hinv as [H1 H2 H3 H4 H5 H6 H7 H8]. split; cbn [client client_threads].
  - intros j' th Hth. apply eaccount_neutral; [by right | done | by apply H1].
  - intros j' l [Hin | [= -> _]]%elem_of_snoc; [by eapply H2 | done].
  - intros j' ch Hin%Hold; [| done]. cbn. rewrite length_insert. by eapply H3.
  - intros j1 j2 ch I1%Hold I2%Hold; [by eapply H4 | done..].
  - intros j' sid ch Hin%Hold; [| done]. by eapply in_snoc, H5.
  - intros sid ch [j' Hin]%H6. exists j'. by apply in_snoc.
  - intros j' ch p Hin%Hold; [| done]. destruct (H7 _ _ _ Hin) as (j1 & sid & Hin1). exists j1, sid. by apply in_snoc.
  - intros ch. destruct (H8 ch) as (D & Hs & HD). exists D. rewrite delivered_app, taken_events_app, HD.
    split; [by apply sublist_inserts_r |].
    assert (Ht : taken_events ch [(j, Taken ch0 item)] = if decide (ch0 = ch) then events_of [item] else []).
    { unfold taken_events. cbn. destruct item; [by case_decide | by case_decide]. }
    rewrite Ht, <- app_assoc. f_equal. unfold queue. cbn. destruct (decide (ch0 = ch)) as [<- | Hne].
    + rewrite list_lookup_insert_eq by (by eapply lookup_lt_Some). rewrite Hq. cbn. by destruct item.
    + by rewrite list_lookup_insert_ne by (by intros ?%N2Nat.inj).
Qed.

Lemma act_events_inv config w x w' tr :
  events_inv w tr -> client_act config w x = Some w' -> events_inv w' (tr ++ client_label w x).
Proof.
  intros Hinv Hact. destruct x; cbn in Hact |- *; rewrite ?app_nil_r.
  - destruct (client_threads w !! j) as [th |] eqn:Hj; [| done].
    destruct (client_proc th) as [| X e k] eqn:Hp; [done |].
    destruct (client_step X (client w) e h) as [[x s'] |] eqn:Hst; [| done]. injection Hact as <-.
    destruct w as [s ths]. by eapply step_events_inv.
  - injection Hact as <-. apply start_eaccount; [done | apply open_listener].
  - destruct (existsb _ _); [| done]. injection Hact as <-. apply start_eaccount; [done | apply session_send_listener].
  - destruct (existsb _ _); [| done]. injection Hact as <-. apply start_eaccount; [done | apply session_drop_listener].
  - injection Hact as <-. apply start_eaccount; [done | apply shutdown_listener].
  - destruct (inbound (client w) !! t) as [task |]; [| done].
    destruct (connections (client w) !! task_connection task) as [conn |]; [| done].
    destruct (existsb _ _); [done |]. injection Hact as <-. apply start_eaccount; [done |].
    eexists. apply receive_loop_passing.
  - destruct (client_threads w !! j) as [[p | t p] |] eqn:Hj; try done.
    destruct (inbound (client w) !! t) as [[c f []] |]; try done. destruct (at_await p); [| done]. injection Hact as <-.
    pose proof Hinv as [H1 H2 H3 H4 H5 H6 H7 H8]. split; cbn [client client_threads]; try assumption.
    + intros j' th' [(-> & <- & _) | [_ Hj']]%list_lookup_insert_Some; [| by apply H1].
      destruct (H1 _ _ Hj) as (c0 & (st & _ & Hst) & Hn & Hc). exists c0. split_and!; [| done | done].
      exists EIdle. split; [done | by eapply passing_passes].
    + intros j' l Hin. rewrite length_insert. by eapply H2.
  - destruct (client_threads w !! j) as [th |] eqn:Hj; [| done]. cbn in Hact |- *.
    destruct (returned_session th) as [session |]; [| done]. cbn in Hact.
    destruct (session_recv session (client w)) as [[item s'] |] eqn:Hr; [| done]. injection Hact as <-.
    apply recv_events_inv; [done | by eapply lookup_lt_Some | done].
Qed.

Lemma client_execution_events config w tr : client_execution config w tr -> events_inv w tr.
Proof.
  induction 1 as [| w tr x w' _ IH Hact]; [| by eapply act_events_inv].
  split; cbn; try done; try (by intros; exfalso; eapply not_elem_of_nil).
  intros ch. exists []. split; [done |]. unfold queue. cbn. by rewrite lookup_nil.
Qed.

(** ** What the application took

    The Events the application took from a Session it was returned are [D], in
    order; those that one receive loop handed on are, in order, Events of the
    Session it received, all on one connection. *)
Lemma events_taken w tr j session :
  events_inv w tr -> client_threads w !! j = Some (CCaller (Ret (COpened (Some (Ok session))))) ->
  exists D, taken_events (session_channel session) tr = D.*2 /\
    forall i, exists c, (forall c' e, (i, Received c' e) ∈ tr -> c' = c) /\
      tagged i D `sublist_of` omap (event_payload (session_sid session)) (received_by i tr).
Proof.
  intros Hinv Hj. destruct (ev_account _ _ Hinv _ _ Hj) as ((st & Hpost & Hst) & _). cbn in Hpost. subst st.
  destruct Hst as [Hl _]. destruct (ev_queue _ _ Hinv (session_channel session)) as (D & Hsub & HD).
  exists (take (length (taken_events (session_channel session) tr)) D).
  split; [by rewrite fmap_take, HD, take_app_length |]. intros i.
  assert (Hd : tagged i (take (length (taken_events (session_channel session) tr)) D)
                 `sublist_of` tagged i (delivered (session_channel session) tr)).
  { apply omap_sublist. etrans; [apply sublist_take | exact Hsub]. }
  destruct (client_threads w !! i) as [th |] eqn:Hi.
  - pose proof (every_passes _ _ Hinv _ _ Hi _ _ _ Hl) as Hp. destruct th as [p | t p].
    + destruct (ev_account _ _ Hinv _ _ Hi) as (_ & Hr & _). exists 0. split; [| by etrans].
      intros c' e Hin. assert (He : e ∈ received_by i tr); [| rewrite Hr in He; by apply elem_of_nil in He].
      apply list_elem_of_omap. eexists. split; [exact Hin |]. cbn. by rewrite decide_True.
    + destruct (ev_account _ _ Hinv _ _ Hi) as (c & _ & _ & Hc). exists c. split; [done | by etrans].
  - assert (Hnone : forall l, (i, l) ∉ tr) by (intros l Hin%(ev_thread _ _ Hinv); apply lookup_ge_None in Hi; lia).
    exists 0. split; [intros c' e Hin; by destruct (Hnone _ Hin) |].
    destruct (unstarted tr i Hnone) as [_ Hnil]. rewrite Hnil in Hd. apply sublist_nil_r in Hd as ->. apply sublist_nil_l.
Qed.
