(* ===== verification/ClientLoops.v ===== *)
(** * Every connection has one receive loop

    [acquire_connection] spawns the receive loop of a connection it has just made,
    and nothing else spawns one: in every execution of [ClientTrace] all that is
    received on a connection is received by the same task. *)

From S2P Require Import Prelude Text Address Coordination Placement Transport Session Client ClientStep ClientTrace ClientEvents.

(** ** The account of a caller: the connection it made and has no loop for *)
Definition fresh_allowed X (g : option ConnRef) (e : clientE X) : Prop :=
  match e with
  | NewConnection _ _ => g = None
  | SpawnReceive c => g = Some c
  | RecvEnvelope _ => False
  | _ => True
  end.

Definition fresh_next X (g : option ConnRef) (e : clientE X) : X -> option ConnRef :=
  match e in clientE X return X -> option ConnRef with
  | NewConnection _ _ => fun c => Some c
  | SpawnReceive _ => fun _ => None
  | _ => fun _ => g
  end.

Definition fresh_monitor : monitor clientE (option ConnRef) :=
  Monitor clientE (option ConnRef) fresh_allowed (fun X g e x g' => g' = fresh_next X g e x).

(** Calls that neither make a connection, nor spawn a loop, nor receive. *)
Definition loopless X (e : clientE X) : Prop :=
  match e with
  | NewConnection _ _ | SpawnReceive _ | RecvEnvelope _ => False
  | _ => True
  end.

Ltac loopless_calls :=
  repeat first [ done
               | split; [done | intros ?]
               | progress cbn [calls loopless proc_bind]
               | case_match
               | apply calls_bind; [| intros ?] ].

Lemma loopless_same {A} (p : proc clientE A) g : calls loopless p -> wp fresh_monitor g p (fun _ g' => g' = g).
Proof. apply calls_wp. intros X e He. destruct e; try done; by split; [| intros x g' ->]. Qed.

Lemma loopless_bind {A B} (p : proc clientE A) (f : A -> proc clientE B) g Q :
  calls loopless p -> (forall x, wp fresh_monitor g (f x) Q) -> wp fresh_monitor g (proc_bind p f) Q.
Proof. intros Hp Hf. apply wp_bind. eapply wp_mono; [| by apply loopless_same]. by intros x g' ->. Qed.

Lemma acquire_fresh {A} config e sid deadline (f : _ -> proc clientE A) Q :
  (forall x, wp fresh_monitor None (f x) Q) -> wp fresh_monitor None (proc_bind (acquire_connection config e sid deadline) f) Q.
Proof.
  intros Hf. unfold acquire_connection. split; [done |]. intros p ? ->. split; [done |]. intros [| []] ? ->; [apply Hf |].
  split; [done |]. intros n ? ->. cbn [proc_bind fresh_next]. destruct (_ <? _)%nat.
  - split; [done |]. intros [| [sender | error]] ? ->; [split; [done |]; intros ? ? ->; apply Hf | |
      split; [done |]; intros ? ? ->; apply Hf].
    split; [done |]. intros c ? ->. split; [done |]. intros [] ? ->. cbn [proc_bind fresh_next]. rewrite bind_assoc.
    apply loopless_bind; [unfold bind; loopless_calls |]. intros []. cbn [proc_bind].
    split; [done |]. intros t ? ->. do 3 (split; [done |]; intros [] ? ->). apply Hf.
  - split; [done |]. intros [c |] ? ->; [| split; [done |]; intros ? ? ->; apply Hf]. cbn [proc_bind fresh_next]. rewrite bind_assoc.
    apply loopless_bind; [unfold bind; loopless_calls |]. intros []. split; [done |]. intros [] ? ->. apply Hf.
Qed.

Lemma report_loopless b e : calls loopless (report_failed b e).
Proof. unfold report_failed. loopless_calls. Qed.
Lemma unbind_loopless c sid : calls loopless (unbind c sid).
Proof. unfold unbind. loopless_calls. Qed.
Lemma send_loopless c e : calls loopless (connection_try_send c e).
Proof. unfold connection_try_send. loopless_calls. Qed.

Lemma open_at_fresh config a sid ch deadline e b lo l :
  wp fresh_monitor None (open_at config a sid ch deadline e b lo l) (fun _ g => g = None).
Proof.
  unfold open_at. apply acquire_fresh. intros [c | error].
  - destruct (_ <=? _)%nat.
    + apply loopless_bind; [apply unbind_loopless |]. intros []. by apply loopless_bind; [apply report_loopless |].
    + apply loopless_bind; [unfold send_session_open, connection_try_send; loopless_calls |]. intros [was_sent [[] | error]]; [done |].
      apply loopless_bind; [apply send_loopless |]. intros ?.
      apply loopless_bind; [apply unbind_loopless |]. intros []. split; [done |]. intros [] ? ->.
      by apply loopless_bind; [apply report_loopless |].
  - destruct b; [| done]. split; [done |]. by intros [] ? ->.
Qed.

Lemma open_fresh config fuel a : wp fresh_monitor None (done_after COpened (open config fuel a)) (fun _ _ => True).
Proof.
  apply wp_bind. eapply (wp_mono _ _ _ (fun _ _ => True)); [done |].
  unfold open. split; [done |]. intros status ? ->. destruct (negb _); [done |].
  do 4 (split; [done |]; intros ? ? ->). apply wp_bind.
  assert (Hloop : forall l, wp fresh_monitor None (open_loop config fuel a x0 x1 (x + open_timeout config) l) (fun _ g => g = None)).
  { induction fuel as [| n IH]; intros l; [done |]. cbn [open_loop]. apply wp_bind.
    eapply (wp_mono _ _ _ (fun _ g => g = None)); [intros [r | l'] g ->; [done | apply IH] |]. unfold open_iteration.
    apply loopless_bind; [unfold resolve_owner; loopless_calls |]. intros [[endpoint id session |] | e]; [| | done].
    - case_bool_decide; [done | apply open_at_fresh].
    - apply loopless_bind; [unfold select_placement_candidate, placement_candidates; loopless_calls |].
      intros [endpoint | e]; [apply open_at_fresh | done]. }
  eapply wp_mono; [| apply Hloop]. intros [[s | e] |] g ->; [done | by do 2 (split; [done |]; intros ? ? ->) | done].
Qed.

Lemma for_each_loopless {A} (f : A -> proc clientE unit) l : (forall x, calls loopless (f x)) -> calls loopless (for_each f l).
Proof. intros Hf. induction l as [| x l IH]; [done |]. cbn [for_each]. by apply calls_bind. Qed.

Lemma shutdown_loopless : calls loopless client_shutdown.
Proof.
  unfold client_shutdown. loopless_calls; apply for_each_loopless; loopless_calls.
  apply for_each_loopless. intros c. unfold connection_close. loopless_calls.
Qed.

Lemma caller_fresh {A} (p : proc clientE A) f : calls loopless p -> wp fresh_monitor None (done_after f p) (fun _ _ => True).
Proof. intros Hp. by apply loopless_bind. Qed.

(** ** The account of a loop: it receives on its own connection *)
Definition loop_call (c : ConnRef) X (e : clientE X) : Prop :=
  match e with
  | NewConnection _ _ | SpawnReceive _ => False
  | RecvEnvelope c' => c' = c
  | _ => True
  end.

Lemma loopless_loop c {A} (p : proc clientE A) : calls loopless p -> calls (loop_call c) p.
Proof. apply calls_mono. by intros X []. Qed.

Lemma receive_loop_calls fuel c endpoint : calls (loop_call c) (receive_loop fuel c endpoint).
Proof.
  induction fuel as [| fuel IH]; [done |]. cbn [receive_loop]. split; [done |]. intros [e |].
  - apply calls_bind; [| intros _; apply IH]. apply loopless_loop. unfold handle_envelope, deliver. loopless_calls.
  - apply loopless_loop. unfold retire_connection.
    loopless_calls; apply for_each_loopless; intros sid; unfold end_session; loopless_calls.
Qed.

(** ** The invariant *)
Definition loop_conns (s : ClientState) : list ConnRef := task_connection <$> inbound s.

Definition loop_account (s : ClientState) (th : client_thread) (g : option ConnRef) : Prop :=
  match th with
  | CCaller p => wp fresh_monitor g p (fun _ _ => True)
  | CLoop t p => g = None /\ exists c, loop_conns s !! t = Some c /\ calls (loop_call c) p
  end.

Record loops_inv (gs : list (option ConnRef)) (w : client_world) (tr : ctrace) : Prop := {
  lo_account : Forall2 (loop_account (client w)) (client_threads w) gs;
  lo_fresh j j' c : gs !! j = Some (Some c) -> gs !! j' = Some (Some c) -> j = j';
  lo_spawned j c : gs !! j = Some (Some c) -> c ∉ loop_conns (client w);
  lo_once : NoDup (loop_conns (client w));
  lo_made c : (exists j, gs !! j = Some (Some c)) \/ c ∈ loop_conns (client w) -> c < length (connections (client w));
  lo_loop j j' t p p' : client_threads w !! j = Some (CLoop t p) -> client_threads w !! j' = Some (CLoop t p') -> j = j';
  lo_received j c e : (j, Received c e) ∈ tr ->
    exists t p, client_threads w !! j = Some (CLoop t p) /\ loop_conns (client w) !! t = Some c
}.

Lemma aborts_conns l (ts : list InboundTask) :
  task_connection <$> foldr (fun t => alter (fun x => MkInboundTask (task_connection x) (task_finished x) true) t) ts l
  = task_connection <$> ts.
Proof.
  induction l as [| t l IH]; [done |]. cbn. rewrite <- IH. apply list_eq. intros i. rewrite !list_lookup_fmap.
  destruct (decide (i = t)) as [-> | Hne]; [| by rewrite list_lookup_alter_ne].
  rewrite list_lookup_alter_eq. by destruct (_ !! t).
Qed.

(** Only [SpawnReceive] adds a task, only [NewConnection] a connection. *)
Lemma client_step_loops X s (e : clientE X) h x s' :
  client_step X s e h = Some (x, s') -> loop_conns s' = loop_conns s ++ (if e is SpawnReceive c then [c] else []).
Proof.
  assert (Hsame : inbound s' = inbound s -> loop_conns s' = loop_conns s ++ []) by (unfold loop_conns; by intros ->; rewrite app_nil_r).
  intros Hst.
  destruct e; cbn in Hst;
    repeat match type of Hst with
           | (?o ≫= _) = _ => let E := fresh "E" in destruct o eqn:E; cbn in Hst; [| done]
           | match ?h with _ => _ end = _ => let E := fresh "E" in destruct h eqn:E; try done
           | (if ?b then _ else _) = _ => let E := fresh "E" in destruct b eqn:E; try done
           end;
    try (injection Hst as <- <-); try (by apply Hsame).
  - apply Hsame. unfold terminate_local, Caller.terminate. by destruct (receivers s !! sid).
  - apply Hsame. injection Hst as Hst. unfold pool in Hst. by destruct (pools s !! endpoint); injection Hst as <- <-.
  - apply Hsame. injection Hst as Hst. unfold take_pending in Hst. repeat case_match; by injection Hst as <- <-.
  - unfold loop_conns. cbn. by rewrite fmap_app.
  - unfold loop_conns. cbn. rewrite app_nil_r. apply list_eq. intros i. rewrite !list_lookup_fmap.
    destruct (inbound s !! i) as [t |]; [| done]. cbn. case_bool_decide; cbn; congruence.
  - unfold loop_conns. cbn. rewrite app_nil_r. apply aborts_conns.
Qed.

Lemma client_step_made X s (e : clientE X) h x s' :
  client_step X s e h = Some (x, s') -> length (connections s) <= length (connections s').
Proof.
  intros Hst. pose proof (f_equal length (sf_endpoints _ _ _ _ (client_step_frame _ _ _ _ _ _ Hst))) as Hl.
  unfold conn_endpoints in Hl. rewrite length_app, !length_fmap in Hl. lia.
Qed.

Lemma new_connection_ref s endpoint sender h c s' :
  client_step _ s (NewConnection endpoint sender) h = Some (c, s') ->
  c = length (connections s) /\ c < length (connections s').
Proof.
  intros Hst. pose proof (f_equal length (sf_endpoints _ _ _ _ (client_step_frame _ _ _ _ _ _ Hst))) as Hl.
  unfold conn_endpoints in Hl. rewrite length_app, !length_fmap in Hl. cbn in Hst, Hl. injection Hst as <- _. lia.
Qed.

Lemma loop_account_later s s' l th g :
  loop_conns s' = loop_conns s ++ l -> loop_account s th g -> loop_account s' th g.
Proof.
  intros Hl. destruct th as [p | t p]; [done |]. intros [-> (c & Hc & Hp)]. split; [done |]. exists c. rewrite Hl.
  split; [by apply lookup_app_l_Some | done].
Qed.

(** *** A call *)
Section step.
Context (gs : list (option ConnRef)) (s s' : ClientState) (ths : list client_thread) (tr : ctrace).
Context (j : nat) (th : client_thread) (g : option ConnRef).
Context (X : Type) (e : clientE X) (h : client_hint) (k : X -> proc clientE client_result) (x : X).
Context (Hinv : loops_inv gs (MkClientWorld s ths) tr).
Context (Hj : ths !! j = Some th) (Hg : gs !! j = Some g) (Hp : client_proc th = Call e k).
Context (Hst : client_step X s e h = Some (x, s')).
Abbreviation g' := (fresh_next X g e x).
Abbreviation gs' := (<[j := g']> gs).

Lemma loop_step_account : loop_account s th g.
Proof. exact (Forall2_lookup_lr _ _ _ _ _ _ (lo_account _ _ _ Hinv) Hj Hg). Qed.

Lemma step_loop_account : loop_account s' (client_continue th (k x)) g'.
Proof.
  eapply (loop_account_later s); [by eapply client_step_loops |]. pose proof loop_step_account as Hac. clear Hg.
  destruct th as [p | t p]; cbn in Hp, Hac |- *; subst p.
  - destruct Hac as [_ Hk]. by apply Hk.
  - destruct Hac as [-> (c & Hc & He & Hk)]. split; [by destruct e | by exists c].
Qed.

(** What the call makes of the connection without a loop. *)
Lemma step_fresh c : g' = Some c -> g = Some c \/ (c = length (connections s) /\ c < length (connections s') /\ loop_conns s' = loop_conns s).
Proof.
  pose proof (client_step_loops _ _ _ _ _ _ Hst) as Hl. clear - Hl Hst. intros Hg. destruct e; try (by left); cbn [fresh_next] in Hg.
  injection Hg as <-. right. rewrite app_nil_r in Hl. destruct (new_connection_ref _ _ _ _ _ _ Hst). done.
Qed.

(** The tasks after it. *)
Lemma step_conns : loop_conns s' = loop_conns s \/ exists c, loop_conns s' = loop_conns s ++ [c] /\ g = Some c /\ g' = None.
Proof.
  pose proof (client_step_loops _ _ _ _ _ _ Hst) as Hl. pose proof loop_step_account as Hac. clear - Hl Hac Hp Hst.
  destruct e; rewrite ?app_nil_r in Hl; try (by left). right. exists c. split; [done |].
  destruct th as [p | t p]; cbn in Hac, Hp; subst p; [by destruct Hac | by destruct Hac as [_ (c' & _ & [] & _)]].
Qed.

Lemma step_inserted i c : gs' !! i = Some (Some c) ->
  gs !! i = Some (Some c) /\ (i = j -> g' = Some c) \/
  (i = j /\ c = length (connections s) /\ c < length (connections s') /\ loop_conns s' = loop_conns s).
Proof.
  intros [(<- & Heq & _) | [Hne Hi]]%list_lookup_insert_Some; [| left; split; [done | congruence]].
  destruct (step_fresh c Heq) as [-> | ?]; [left; split; [done |]; by intros _ | by right].
Qed.

Lemma step_spawned i c : gs' !! i = Some (Some c) -> c ∉ loop_conns s'.
Proof.
  intros Hi Hin. destruct (step_inserted i c Hi) as [[Hold Hsame] | (-> & -> & _ & Hl)].
  - pose proof (lo_spawned _ _ _ Hinv i c Hold) as Hn. destruct step_conns as [Hl | (c0 & Hl & Hg0 & Hnone)]; rewrite Hl in Hin; [done |].
    apply elem_of_snoc in Hin as [Hin | ->]; [done |]. rewrite Hg0 in Hg.
    rewrite (lo_fresh _ _ _ Hinv i j c0 Hold Hg) in Hsame. specialize (Hsame eq_refl). congruence.
  - rewrite Hl in Hin. pose proof (lo_made _ _ _ Hinv _ (or_intror Hin)) as Hlt. cbn in Hlt. lia.
Qed.

Lemma step_received i c e0 : (i, Received c e0) ∈ tr ++ [(j, clabel_of X e x)] ->
  exists t p, <[j := client_continue th (k x)]> ths !! i = Some (CLoop t p) /\ loop_conns s' !! t = Some c.
Proof.
  pose proof (client_step_loops _ _ _ _ _ _ Hst) as Hl. intros [Hin | [= -> Heq]]%elem_of_snoc.
  - destruct (lo_received _ _ _ Hinv _ _ _ Hin) as (t & p & Hi & Hc). cbn in Hi, Hc.
    destruct (decide (i = j)) as [-> | Hne].
    + rewrite Hj in Hi. injection Hi as ->. exists t, (k x).
      rewrite list_lookup_insert_eq by (by eapply lookup_lt_Some). split; [done |]. rewrite Hl. by apply lookup_app_l_Some.
    + exists t, p. rewrite list_lookup_insert_ne by done. split; [done |]. rewrite Hl. by apply lookup_app_l_Some.
  - pose proof loop_step_account as Hac. rewrite list_lookup_insert_eq by (by eapply lookup_lt_Some).
    assert (Hrecv : match e with RecvEnvelope c' => c' = c | _ => False end).
    { clear - Heq. destruct e; cbn in Heq; repeat case_match; try done. congruence. }
    destruct th as [p | t p]; cbn in Hac, Hp; subst p.
    + destruct Hac as [Hal _]. by destruct e.
    + destruct Hac as [_ (c0 & Hc & Hcall & _)]. exists t, (k x). split; [done |]. rewrite Hl.
      apply lookup_app_l_Some. destruct e; try done. cbn in Hcall. congruence.
Qed.

Lemma step_loops_inv : loops_inv gs' (MkClientWorld s' (<[j := client_continue th (k x)]> ths)) (tr ++ [(j, clabel_of X e x)]).
Proof.
  pose proof (client_step_made _ _ _ _ _ _ Hst) as Hlen. pose proof step_conns as Hconns.
  split; cbn [client client_threads].
  - apply Forall2_insert; [| apply step_loop_account]. eapply Forall2_impl; [apply (lo_account _ _ _ Hinv) |].
    intros th0 g0. eapply loop_account_later. by eapply client_step_loops.
  - intros i i' c Hi Hi'. destruct (step_inserted i c Hi) as [[Ho _] | (-> & Hc & _ & _)],
      (step_inserted i' c Hi') as [[Ho' _] | (-> & Hc' & _ & _)]; [by eapply (lo_fresh _ _ _ Hinv) | | | done].
    + pose proof (lo_made _ _ _ Hinv c (or_introl (ex_intro _ i Ho))) as Hlt. cbn in Hlt. lia.
    + pose proof (lo_made _ _ _ Hinv c (or_introl (ex_intro _ i' Ho'))) as Hlt. cbn in Hlt. lia.
  - apply step_spawned.
  - destruct Hconns as [-> | (c & -> & -> & _)]; [apply (lo_once _ _ _ Hinv) |].
    apply NoDup_app. split_and!; [apply (lo_once _ _ _ Hinv) | | apply NoDup_singleton].
    intros c' Hin ->%list_elem_of_singleton. by apply (lo_spawned _ _ _ Hinv j c).
  - intros c Hc. pose proof (lo_made _ _ _ Hinv c) as Hm. cbn in Hm.
    destruct Hc as [[i Hi] | Hin].
    + destruct (step_inserted i c Hi) as [[Ho _] | (_ & _ & Hlt & _)]; [| done].
      apply (Nat.lt_le_trans _ (length (connections s))); [apply Hm; left; by exists i | done].
    + apply (Nat.lt_le_trans _ (length (connections s))); [apply Hm | done].
      destruct Hconns as [Heq | (c0 & Heq & -> & _)]; rewrite Heq in Hin; [by right |].
      apply elem_of_snoc in Hin as [Hin | ->]; [by right | left; by exists j].
  - assert (Hback : forall i t p, <[j := client_continue th (k x)]> ths !! i = Some (CLoop t p) -> exists p', ths !! i = Some (CLoop t p')).
    { intros i t p [(<- & Heq & _) | [_ Hi]]%list_lookup_insert_Some; [| by exists p]. destruct th as [q | t' q]; [done |].
      injection Heq as -> _. by exists q. }
    intros i i' t p p' (q & Hq)%Hback (q' & Hq')%Hback. by eapply (lo_loop _ _ _ Hinv).
  - apply step_received.
Qed.
End step.

(** *** A thread starts, is cut off, or takes *)
Lemma start_loops_inv gs w tr th g :
  loops_inv gs w tr -> loop_account (client w) th g -> g = None ->
  (forall t p, th = CLoop t p -> existsb (is_loop t) (client_threads w) = false) ->
  loops_inv (gs ++ [g]) (MkClientWorld (client w) (client_threads w ++ [th])) tr.
Proof.
  intros [H1 H2 H3 H4 H5 H6 H7] Hth -> Hnew. pose proof (Forall2_length _ _ _ H1) as Hlen.
  assert (Hold : forall i c, (gs ++ [None]) !! i = Some (Some c) -> gs !! i = Some (Some c)).
  { intros i c [Hi | [_ Hi]]%lookup_app_Some; [done | by apply list_lookup_singleton_Some in Hi as [_ ?]]. }
  assert (Hloop : forall i i' t p p', client_threads w !! i = Some (CLoop t p) -> (client_threads w ++ [th]) !! i' = Some (CLoop t p') -> i = i').
  { intros i i' t p p' Hi [Hi' | [_ [_ Heq]%list_lookup_singleton_Some]]%lookup_app_Some; [by eapply H6 |].
    specialize (Hnew _ _ Heq). assert (existsb (is_loop t) (client_threads w) = true); [| congruence].
    apply existsb_exists. exists (CLoop t p). split; [by apply list_elem_of_In; eapply list_elem_of_lookup_2 | by apply bool_decide_eq_true_2]. }
  split; cbn [client client_threads]; try assumption.
  - apply Forall2_app; [done |]. by repeat constructor.
  - intros i i' c Hi%Hold Hi'%Hold. by eapply H2.
  - intros i c Hi%Hold. by eapply H3.
  - intros c [[i Hi%Hold] | Hin]; apply H5; [left; by exists i | by right].
  - intros i i' t p p' Hi Hi'. pose proof Hi as Hi0. apply lookup_app_Some in Hi as [Hi | [Hge [Hz Heq]%list_lookup_singleton_Some]];
      [by eapply Hloop |]. apply lookup_app_Some in Hi' as [Hi' | [Hge' [Hz' _]%list_lookup_singleton_Some]];
      [symmetry; by eapply Hloop | lia].
  - intros i c e Hin. destruct (H7 i c e Hin) as (t & p & Hi & Hc). exists t, p. split; [by apply lookup_app_l_Some | done].
Qed.

Lemma cut_loops_inv gs w tr j t p p' :
  loops_inv gs w tr -> client_threads w !! j = Some (CLoop t p) -> (forall c, calls (loop_call c) p') ->
  loops_inv gs (MkClientWorld (client w) (<[j := CLoop t p']> (client_threads w))) tr.
Proof.
  intros [H1 H2 H3 H4 H5 H6 H7] Hj Hp. destruct (Forall2_lookup_l _ _ _ _ _ H1 Hj) as (g & Hg & -> & c & Hc & _).
  assert (Hback : forall i t0 q, <[j := CLoop t p']> (client_threads w) !! i = Some (CLoop t0 q) ->
    exists q', client_threads w !! i = Some (CLoop t0 q')).
  { intros i t0 q [(<- & [= <- _] & _) | [_ Hi]]%list_lookup_insert_Some; [by exists p | by exists q]. }
  split; cbn [client client_threads]; try assumption.
  - rewrite <- (list_insert_id gs j None Hg). apply Forall2_insert; [done |]. split; [done |]. exists c. by split.
  - intros i i' t0 q q' (r & Hr)%Hback (r' & Hr')%Hback. by eapply H6.
  - intros i c0 e Hin. destruct (H7 i c0 e Hin) as (t0 & q & Hi & Hc0). destruct (decide (i = j)) as [-> | Hne].
    + rewrite Hj in Hi. injection Hi as <- <-. exists t, p'. rewrite list_lookup_insert_eq by (by eapply lookup_lt_Some). done.
    + exists t0, q. by rewrite list_lookup_insert_ne.
Qed.

(** Labels that are not receptions; the client's tasks and connections stay. *)
Lemma quiet_loops_inv gs s ths s' tr j l :
  loops_inv gs (MkClientWorld s ths) tr -> inbound s' = inbound s -> connections s' = connections s ->
  (forall c e, l <> Received c e) -> loops_inv gs (MkClientWorld s' ths) (tr ++ [(j, l)]).
Proof.
  intros [H1 H2 H3 H4 H5 H6 H7] Hi Hc Hl. cbn [client client_threads] in *.
  assert (Hlc : loop_conns s' = loop_conns s) by (unfold loop_conns; by rewrite Hi).
  split; cbn [client client_threads]; rewrite ?Hlc, ?Hc; try done.
  - eapply Forall2_impl; [exact H1 |]. intros th g. eapply loop_account_later. by rewrite Hlc, app_nil_r.
  - intros i c e [Hin | [= _ Heq]]%elem_of_snoc; [by apply (H7 i c e) | by destruct (Hl c e)].
Qed.

Lemma act_loops_inv config gs w x w' tr :
  loops_inv gs w tr -> client_act config w x = Some w' -> exists gs', loops_inv gs' w' (tr ++ client_label w x).
Proof.
  intros Hinv Hact.
  assert (Hcaller : forall p, wp fresh_monitor None p (fun _ _ => True) ->
    exists gs', loops_inv gs' (MkClientWorld (client w) (client_threads w ++ [CCaller p])) tr).
  { intros p Hp. eexists. by apply (start_loops_inv gs w tr (CCaller p) None). }
  destruct x; cbn in Hact |- *; rewrite ?app_nil_r.
  - destruct (client_threads w !! j) as [th |] eqn:Hj; [| done].
    destruct (client_proc th) as [| X e k] eqn:Hp; [done |].
    destruct (client_step X (client w) e h) as [[x s'] |] eqn:Hst; [| done]. injection Hact as <-.
    destruct (Forall2_lookup_l _ _ _ _ _ (lo_account _ _ _ Hinv) Hj) as (g & Hg & _).
    destruct w as [s ths]. eexists. by eapply step_loops_inv.
  - injection Hact as <-. apply Hcaller, open_fresh.
  - destruct (existsb _ _); [| done]. injection Hact as <-. refine (Hcaller _ (caller_fresh (session_send alive s msg) CReplied _)).
    unfold session_send, connection_try_send. loopless_calls.
  - destruct (existsb _ _); [| done]. injection Hact as <-. refine (Hcaller _ (caller_fresh (session_drop s) (fun _ => CDone) _)).
    unfold session_drop, unbind, connection_try_send. loopless_calls.
  - injection Hact as <-. refine (Hcaller _ (caller_fresh client_shutdown (fun _ => CDone) shutdown_loopless)).
  - destruct (inbound (client w) !! t) as [task |] eqn:Ht; [| done].
    destruct (connections (client w) !! task_connection task) as [conn |]; [| done].
    destruct (existsb _ _) eqn:Hno; [done |]. injection Hact as <-. eexists. apply (start_loops_inv gs w tr _ None); [done | | done |].
    + split; [done |]. exists (task_connection task). unfold loop_conns. rewrite list_lookup_fmap, Ht. split; [done |].
      apply calls_bind; [apply receive_loop_calls | done].
    + by intros t' p [= <- _].
  - destruct (client_threads w !! j) as [[p | t p] |] eqn:Hj; try done.
    destruct (inbound (client w) !! t) as [[c f []] |]; try done. destruct (at_await p); [| done]. injection Hact as <-.
    exists gs. by eapply cut_loops_inv.
  - destruct (client_threads w !! j) as [th |] eqn:Hj; [| done]. cbn in Hact |- *.
    destruct (returned_session th) as [session |]; [| done]. cbn in Hact.
    destruct (session_recv session (client w)) as [[item s'] |] eqn:Hr; [| done]. injection Hact as <-. exists gs.
    unfold session_recv in Hr. destruct w as [s ths]. cbn [client] in Hr. destruct (channels s !! _) as [[] |]; [done | | done].
    injection Hr as _ <-. by eapply quiet_loops_inv.
Qed.

Lemma client_execution_loops config w tr : client_execution config w tr -> exists gs, loops_inv gs w tr.
Proof.
  induction 1 as [| w tr x w' _ [gs IH] Hact]; [| by eapply act_loops_inv].
  exists []. split; cbn; try done; [constructor | | by intros j c e ?%elem_of_nil].
  intros c [[j Hj] | Hin]; [done | by apply elem_of_nil in Hin].
Qed.

(** All that is received on a connection is received by one task. *)
Lemma one_receiver config w tr i i' c e e' :
  client_execution config w tr -> (i, Received c e) ∈ tr -> (i', Received c e') ∈ tr -> i = i'.
Proof.
  intros [gs Hinv]%client_execution_loops Hin Hin'.
  destruct (lo_received _ _ _ Hinv _ _ _ Hin) as (t & p & Hi & Hc), (lo_received _ _ _ Hinv _ _ _ Hin') as (t' & p' & Hi' & Hc').
  assert (t = t') as -> by (eapply NoDup_lookup; [apply (lo_once _ _ _ Hinv) | done | done]).
  by eapply (lo_loop _ _ _ Hinv).
Qed.
