(* ===== verification/Strategy.v ===== *)
(** * The Placement Strategy of a Client

    The trait [PlacementStrategy] as a type class with the law the Client relies
    on, [P2cPlacement] as its instance, and the Client of [ClientStep] with a
    strategy in place of arbitrary replies: the opens that run concurrently share
    the accounting of placements in flight. *)

From S2P Require Import Prelude Text Address Coordination Placement Transport Session Client ClientStep ClientRace ClientEvents.

(** ** The trait *)

(** [I]: what a call draws from its environment (the time); [None]: the random
    source of the call ran out.  [on_placement_failed] does nothing by default. *)
Class PlacementStrategy (I S : Type) := {
  candidates : ActorAddress -> PlacementContext -> I -> S -> option (list string * S);
  placement_failed : string -> S -> S
}.

Definition placement_failed_default {S : Type} (target : string) (s : S) : S := s.

(** Some of the candidates, and none only when there are none. *)
Definition ordered_from (ctx : PlacementContext) (l : list string) : Prop :=
  l ⊆ endpoint <$> ctx /\ (l = [] -> ctx = []).

Class LawfulStrategy (I S : Type) `{PlacementStrategy I S} := {
  candidates_lawful a ctx (i : I) s l s' : candidates a ctx i s = Some (l, s') -> ordered_from ctx l
}.

(** ** P2cPlacement *)
Record P2cPlacement := MkP2c {
  rng : list Z;                 (* the draws the random source will make *)
  in_flight : InFlight
}.

(** [P2cPlacement::new], with the draws of the operating system, and [with_rng] *)
Definition p2c_new (draws : list Z) : P2cPlacement := MkP2c draws ∅.

Definition p2c_candidates (a : ActorAddress) (ctx : PlacementContext) (now : Z) (s : P2cPlacement)
    : option (list string * P2cPlacement) :=
  '(l, draws, m) ← pick ctx now (rng s) (in_flight s);
  Some (l, MkP2c draws m).

Definition p2c_placement_failed (target : string) (s : P2cPlacement) : P2cPlacement :=
  MkP2c (rng s) (on_placement_failed target (in_flight s)).

#[export] Instance p2c_strategy : PlacementStrategy Z P2cPlacement := {
  candidates := p2c_candidates;
  placement_failed := p2c_placement_failed
}.

(** [default_placement] *)
Definition default_placement : list Z -> P2cPlacement := p2c_new.

Lemma p2c_candidates_Some a ctx now s l s' :
  p2c_candidates a ctx now s = Some (l, s') ->
  exists draws, pick ctx now (rng s) (in_flight s) = Some (l, draws, in_flight s').
Proof.
  unfold p2c_candidates. destruct (pick _ _ _ _) as [[[l0 draws] m] |]; [| done]. cbn. intros [= <- <-]. by exists draws.
Qed.

#[export] Instance p2c_lawful : LawfulStrategy Z P2cPlacement.
Proof.
  split. intros a ctx now s l s' (draws & Hp)%p2c_candidates_Some.
  apply pick_power_of_two in Hp as [(-> & -> & _) | (c & ps & Hok & -> & _)]; [done |]. split; [| done].
  destruct ps as [| c2 [| ? ?]]; cbn in Hok; [by subst ctx | | done].
  destruct Hok as [(i & j & _ & Hi & Hj) _]. apply list_elem_of_lookup_2, (list_elem_of_fmap_2 endpoint) in Hi, Hj. cbn. set_solver.
Qed.

(** ** The Client against the interface

    What an open has had placed and not reported: the strategy's first choice,
    which is where it goes. *)
Definition placing_allowed X (st : option string) (e : clientE X) : Prop :=
  match e with
  | Candidates _ _ => st = None
  | GetPool e => st = None \/ st = Some e
  | OnPlacementFailed e => st = Some e
  | _ => True
  end.

Definition placing_observe X (st : option string) (e : clientE X) : X -> option string -> Prop :=
  match e in clientE X return X -> option string -> Prop with
  | Candidates _ ctx => fun l st' => ordered_from ctx l /\ st' = head l
  | OnPlacementFailed _ => fun _ st' => st' = None
  | _ => fun _ st' => st' = st
  end.

Definition placing_monitor : monitor clientE (option string) :=
  Monitor clientE (option string) placing_allowed placing_observe.

(** Calls that do not concern the strategy. *)
Definition unplaced X (e : clientE X) : Prop :=
  match e with
  | Candidates _ _ | OnPlacementFailed _ | GetPool _ => False
  | _ => True
  end.

Lemma unplaced_wp {A} (p : proc clientE A) st : calls unplaced p -> wp placing_monitor st p (fun _ st' => st' = st).
Proof. apply calls_wp. intros X e He. destruct e; try done; by split; [| intros x st' ->]. Qed.

Ltac unplaced_calls :=
  repeat first [ done
               | split; [done | intros ?]
               | progress cbn [calls unplaced proc_bind]
               | case_match
               | apply calls_bind; [| intros ?] ].

Lemma send_open_unplaced a sid c deadline : calls unplaced (send_session_open a sid c deadline).
Proof. unfold send_session_open, connection_try_send. unplaced_calls. Qed.
Lemma unbind_unplaced c sid : calls unplaced (unbind c sid).
Proof. unfold unbind. unplaced_calls. Qed.
Lemma try_send_unplaced c e : calls unplaced (connection_try_send c e).
Proof. unfold connection_try_send. unplaced_calls. Qed.
Lemma resolve_unplaced a deadline : calls unplaced (resolve_owner a deadline).
Proof. unfold resolve_owner. unplaced_calls. Qed.
Lemma listed_unplaced deadline : calls unplaced (placement_candidates deadline).
Proof. unfold placement_candidates. unplaced_calls. Qed.
Lemma for_each_unplaced {A} (f : A -> proc clientE unit) l : (forall x, calls unplaced (f x)) -> calls unplaced (for_each f l).
Proof. intros Hf. induction l as [| x l IH]; [done |]. cbn [for_each]. by apply calls_bind. Qed.

Lemma unplaced_bind {A B} (p : proc clientE A) (f : A -> proc clientE B) st Q :
  calls unplaced p -> (forall x, wp placing_monitor st (f x) Q) -> wp placing_monitor st (proc_bind p f) Q.
Proof. intros Hp Hf. apply wp_bind. eapply wp_mono; [| by apply unplaced_wp]. by intros x ? ->. Qed.

Lemma acquire_placing {A} config e sid deadline (f : _ -> proc clientE A) (st : option string) Q :
  st = None \/ st = Some e -> (forall x, wp placing_monitor st (f x) Q) ->
  wp placing_monitor st (proc_bind (acquire_connection config e sid deadline) f) Q.
Proof.
  intros Hst Hf. unfold acquire_connection. split; [exact Hst |]. intros p ? ->.
  apply unplaced_bind; [| exact Hf]. unfold bind, spawn_receive_loop. unplaced_calls.
Qed.

Lemma report_placing (b : bool) e (st : option string) :
  st = (if b then Some e else None) -> wp placing_monitor st (report_failed b e) (fun _ st' => st' = None).
Proof. intros ->. destruct b; [| done]. cbn. split; [done |]. by intros x st ->. Qed.

(** An open keeps its placement when it succeeds, and reports it otherwise. *)
Definition exit_placed (x : loop_exit) (st : option string) : Prop := if x is Break (Ok _) then True else st = None.

Lemma open_at_placing config a sid ch deadline e b lo l (st : option string) :
  st = (if b : bool then Some e else None) -> wp placing_monitor st (open_at config a sid ch deadline e b lo l) exit_placed.
Proof.
  intros Hst. unfold open_at. apply acquire_placing; [destruct b; auto |]. intros [c | error].
  - destruct (_ <=? _)%nat.
    + apply unplaced_bind; [apply unbind_unplaced |]. intros _. apply wp_bind.
      eapply wp_mono; [| by apply report_placing]. by intros [] ? ->.
    + apply unplaced_bind; [apply send_open_unplaced |]. intros [was_sent [[] | error]]; [done |].
      apply unplaced_bind; [apply try_send_unplaced |]. intros _.
      apply unplaced_bind; [apply unbind_unplaced |]. intros _. split; [done |]. intros [] ? ->. apply wp_bind.
      eapply wp_mono; [| by apply report_placing]. intros [] ? ->. cbn. unfold after_failure. by repeat case_match.
  - destruct b; [| done]. subst st. split; [done |]. by intros [] ? ->.
Qed.

(** With a lawful strategy the Client goes where the strategy wants it first. *)
Lemma select_placing a excluded deadline :
  wp placing_monitor None (select_placement_candidate a excluded deadline)
    (fun r st => st = match r with Ok e => Some e | Err _ => None end).
Proof.
  unfold select_placement_candidate. apply unplaced_bind; [apply listed_unplaced |]. intros [all | error]; [| done].
  destruct (filter _ all) as [| c cs] eqn:Hf; [done |]. split; [done |]. intros l st [[Hsub Hne] ->].
  destruct l as [| e l]; [by specialize (Hne eq_refl) |]. cbn.
  assert (He : e ∈ endpoint <$> c :: cs) by (apply Hsub; constructor).
  rewrite decide_True; [done |].
  change (e ∈ list_to_set (C := gset string) (endpoint <$> c :: cs)). by apply elem_of_list_to_set.
Qed.

Definition placing_post (r : client_result) (st : option string) : Prop :=
  if r is COpened (Some (Ok _)) then True else st = None.

Lemma open_placing config fuel a : wp placing_monitor None (done_after COpened (open config fuel a)) placing_post.
Proof.
  apply wp_bind. eapply (wp_mono _ _ _ (fun r st => if r is Some (Ok _) then True else st = None)).
  { by intros [[s | e] |] st Hst. }
  unfold open. split; [done |]. intros status ? ->. destruct (negb _); [done |].
  do 4 (split; [done |]; intros ? ? ->). apply wp_bind.
  assert (Hloop : forall l, wp placing_monitor None (open_loop config fuel a x0 x1 (x + open_timeout config) l)
    (fun r st => if r is Some (Ok _) then True else st = None)).
  { induction fuel as [| n IH]; intros l; [done |]. cbn [open_loop]. apply wp_bind.
    eapply (wp_mono _ _ _ exit_placed).
    - intros [[s | e] | l'] st Hst; [done | done |]. cbn in Hst. subst st. apply IH.
    - unfold open_iteration. apply unplaced_bind; [apply resolve_unplaced |]. intros [[endpoint id session |] | e]; [| | done].
      + case_bool_decide; [done | by apply open_at_placing].
      + apply wp_bind. eapply wp_mono; [| apply select_placing]. intros [endpoint | e] ? ->; [by apply open_at_placing | done]. }
  eapply wp_mono; [| apply Hloop]. intros [[s | e] |] st Hst; [done | | by cbn; subst].
  cbn in Hst. subst st. by do 2 (split; [done |]; intros ? ? ->).
Qed.

Lemma session_send_unplaced alive s msg : calls unplaced (session_send alive s msg).
Proof. unfold session_send, connection_try_send. unplaced_calls. Qed.
Lemma session_drop_unplaced s : calls unplaced (session_drop s).
Proof. unfold session_drop, unbind, connection_try_send. unplaced_calls. Qed.
Lemma shutdown_unplaced : calls unplaced client_shutdown.
Proof.
  unfold client_shutdown. unplaced_calls; apply for_each_unplaced; unplaced_calls.
  apply for_each_unplaced. intros c. unfold connection_close. unplaced_calls.
Qed.
Lemma receive_loop_unplaced fuel c endpoint : calls unplaced (receive_loop fuel c endpoint).
Proof.
  induction fuel as [| fuel IH]; [done |]. cbn [receive_loop]. split; [done |]. intros [e |].
  - apply calls_bind; [| intros _; apply IH]. unfold handle_envelope, deliver. unplaced_calls.
  - unfold retire_connection. unplaced_calls; apply for_each_unplaced; intros sid; unfold end_session; unplaced_calls.
Qed.

(** Each thread's placement. *)
Definition thread_placed (th : client_thread) (st : option string) : Prop :=
  match th with
  | CCaller p => wp placing_monitor st p placing_post
  | CLoop _ p => st = None /\ calls unplaced p
  end.

Lemma quiet_placing {A} (p : proc clientE A) f :
  calls unplaced p -> (forall x, not_opened (f x)) -> thread_placed (CCaller (done_after f p)) None.
Proof.
  intros Hp Hf. apply wp_bind. eapply wp_mono; [| by apply unplaced_wp]. intros x ? ->. cbn. specialize (Hf x). by destruct (f x).
Qed.

Lemma session_send_placed alive s msg : thread_placed (CCaller (done_after CReplied (session_send alive s msg))) None.
Proof. apply quiet_placing; [apply session_send_unplaced | done]. Qed.
Lemma session_drop_placed s : thread_placed (CCaller (done_after (fun _ => CDone) (session_drop s))) None.
Proof. apply quiet_placing; [apply session_drop_unplaced | done]. Qed.
Lemma shutdown_placed : thread_placed (CCaller (done_after (fun _ => CDone) client_shutdown)) None.
Proof. apply quiet_placing; [apply shutdown_unplaced | done]. Qed.
Lemma receive_loop_placed t fuel c endpoint :
  thread_placed (CLoop t (done_after (fun _ => CDone) (receive_loop fuel c endpoint))) None.
Proof. split; [done |]. apply calls_bind; [apply receive_loop_unplaced | done]. Qed.

(** ** The Client with its strategy *)
Section world.
Context {I S : Type} `{LawfulStrategy I S} (config : ClientConfig).

(** What an open does with the strategy: it was given the order [l], goes to the
    Server at [e], or reports that its placement failed. *)
Inductive placement_event :=
| Ordered (l : list string)
| Went (e : string)
| Reported.

Record placing := MkPlacing {
  placing_client : client_world;
  strategy : S;
  placing_log : list (nat * placement_event)     (* by which thread, in order *)
}.

(** Where an open stands: no placement of its own; ordered, before it goes; placed. *)
Inductive placement :=
| Unplaced
| Choosing (first : option string)
| PlacedAt (e : string).

Definition placement_next (st : placement) (x : placement_event) : placement :=
  match x, st with
  | Ordered l, _ => Choosing (head l)
  | Went e, Choosing (Some _) => PlacedAt e
  | Went _, _ => st
  | Reported, _ => Unplaced
  end.

Definition placement_server (st : placement) : option string :=
  match st with
  | Unplaced => None
  | Choosing first => first
  | PlacedAt e => Some e
  end.

Definition events_of (j : nat) (log : list (nat * placement_event)) : list placement_event :=
  omap (fun x => if decide (x.1 = j) then Some x.2 else None) log.

Definition placement_of (log : list (nat * placement_event)) (j : nat) : placement :=
  fold_left placement_next (events_of j log) Unplaced.

(** The Server that each of the first [n] threads has its open placed on. *)
Definition placed_list (log : list (nat * placement_event)) (n : nat) : list (option string) :=
  (fun j => placement_server (placement_of log j)) <$> seq 0 n.

Definition placements (p : placing) : list (option string) :=
  placed_list (placing_log p) (length (client_threads (placing_client p))).

Lemma placement_of_snoc log j x i :
  placement_of (log ++ [(j, x)]) i = if decide (j = i) then placement_next (placement_of log j) x else placement_of log i.
Proof.
  unfold placement_of, events_of. rewrite omap_app, fold_left_app. cbn. case_decide as Hji; [by subst i | done].
Qed.

Lemma placed_list_lookup log n j : j < n -> placed_list log n !! j = Some (placement_server (placement_of log j)).
Proof. intros Hj. unfold placed_list. by rewrite list_lookup_fmap, lookup_seq_lt. Qed.

Lemma length_placed_list log n : length (placed_list log n) = n.
Proof. unfold placed_list. by rewrite length_fmap, length_seq. Qed.

Lemma placed_list_snoc log n j x :
  placed_list (log ++ [(j, x)]) n = <[j := placement_server (placement_next (placement_of log j) x)]> (placed_list log n).
Proof.
  apply list_eq_same_length with n; [by rewrite length_insert, length_placed_list | by rewrite length_placed_list |].
  intros i y z Hi. rewrite placed_list_lookup by done. rewrite placement_of_snoc. case_decide as Hji.
  - subst i. rewrite list_lookup_insert_eq by (by rewrite length_placed_list). congruence.
  - rewrite list_lookup_insert_ne, placed_list_lookup by done. congruence.
Qed.

(** A thread that has just started has nothing placed. *)
Lemma placed_list_start log n : Forall (fun x => x.1 < n) log -> placed_list log (n + 1) = placed_list log n ++ [None].
Proof.
  intros Hl. unfold placed_list. rewrite seq_app, fmap_app. cbn. f_equal. f_equal. unfold placement_of.
  replace (events_of n log) with (@nil placement_event); [done |]. unfold events_of.
  induction Hl as [| x l Hx _ IH]; [done |]. cbn. rewrite decide_False by lia. exact IH.
Qed.

Lemma placed_list_went log n j e :
  placed_list log n !! j = Some None \/ placed_list log n !! j = Some (Some e) ->
  placed_list (log ++ [(j, Went e)]) n = placed_list log n.
Proof.
  intros Hj. assert (Hn : j < n) by (rewrite <- (length_placed_list log n); destruct Hj; by eapply lookup_lt_Some).
  rewrite placed_list_snoc. apply list_insert_id. rewrite placed_list_lookup in Hj |- * by done.
  destruct (placement_of log j) as [| [f |] | f]; cbn in Hj |- *; [done | | done | done]. destruct Hj; congruence.
Qed.

(** What a step of the Client that does not ask the strategy adds. *)
Definition event_of (w : client_world) (x : client_action) : list (nat * placement_event) :=
  match x with
  | CStep j _ =>
      match client_threads w !! j with
      | Some th =>
          match client_proc th with
          | Call (GetPool e) _ => [(j, Went e)]
          | Call (OnPlacementFailed _) _ => [(j, Reported)]
          | _ => []
          end
      | None => []
      end
  | _ => []
  end.

(** The call of the strategy that thread [j] makes next. *)
Definition strategy_call (w : client_world) (j : nat) : option ((ActorAddress * PlacementContext) + string) :=
  match client_threads w !! j with
  | Some th =>
      match client_proc th with
      | Call (Candidates a ctx) _ => Some (inl (a, ctx))
      | Call (OnPlacementFailed e) _ => Some (inr e)
      | _ => None
      end
  | None => None
  end.

(** A step of the Client that does not ask the strategy, or one that does. *)
Inductive placing_action :=
| PAct (x : client_action)
| PPick (j : nat) (i : I).

Definition placing_act (p : placing) (x : placing_action) : option placing :=
  let w := placing_client p in
  match x with
  | PPick j i =>
      match strategy_call w j with
      | Some (inl (a, ctx)) =>
          '(l, s) ← candidates a ctx i (strategy p);
          w' ← client_act config w (CStep j (CCandidates l));
          Some (MkPlacing w' s (placing_log p ++ [(j, Ordered l)]))
      | _ => None
      end
  | PAct x =>
      match (if x is CStep j _ then strategy_call w j else None) with
      | Some (inl _) => None
      | Some (inr e) =>
          w' ← client_act config w x; Some (MkPlacing w' (placement_failed e (strategy p)) (placing_log p ++ event_of w x))
      | None => w' ← client_act config w x; Some (MkPlacing w' (strategy p) (placing_log p ++ event_of w x))
      end
  end.

(** An execution in which every pick satisfies [keeps]. *)
Inductive placing_reachable (keeps : I -> S -> Prop) (s0 : S) : placing -> Prop :=
| placing_initial : placing_reachable keeps s0 (MkPlacing client_initial_world s0 [])
| placing_step p x p' :
    placing_reachable keeps s0 p -> (if x is PPick _ i then keeps i (strategy p) else True) ->
    placing_act p x = Some p' -> placing_reachable keeps s0 p'.

(** A run, as long as every pick satisfies [check]. *)
Definition pick_kept (check : I -> S -> bool) (p : placing) (x : placing_action) : bool :=
  if x is PPick _ i then check i (strategy p) else true.

Fixpoint placing_run (check : I -> S -> bool) (p : placing) (l : list placing_action) : option placing :=
  match l with
  | [] => Some p
  | x :: l => if pick_kept check p x then p' ← placing_act p x; placing_run check p' l else None
  end.

Lemma placing_run_reachable check s0 p l p' :
  placing_reachable (fun i s => check i s = true) s0 p -> placing_run check p l = Some p' ->
  placing_reachable (fun i s => check i s = true) s0 p'.
Proof.
  revert p. induction l as [| x l IH]; cbn; intros p Hp; [by intros [= <-] |].
  destruct (pick_kept check p x) eqn:Hk; [| done]. destruct (placing_act p x) as [p1 |] eqn:Ha; [| done].
  apply IH. apply (placing_step _ _ p x); [done | by destruct x | done].
Qed.

Definition threads_placed (w : client_world) (placed : list (option string)) : Prop :=
  Forall2 thread_placed (client_threads w) placed.

(** What a step does to a thread's placement. *)
Lemma thread_step w j th st placed X (e : clientE X) k x s' :
  threads_placed w placed -> client_threads w !! j = Some th -> placed !! j = Some st -> client_proc th = Call e k ->
  placing_allowed X st e /\ forall st', placing_observe X st e x st' ->
    threads_placed (MkClientWorld s' (<[j := client_continue th (k x)]> (client_threads w))) (<[j := st']> placed).
Proof.
  intros Hf Hj Hst Hp. pose proof (Forall2_lookup_lr _ _ _ _ _ _ Hf Hj Hst) as Hth.
  destruct th as [p | t p]; cbn in Hth, Hp; subst p.
  - destruct Hth as [Hal Hk]. split; [done |]. intros st' Ho. apply Forall2_insert; [done | by apply Hk].
  - destruct Hth as [-> [He Hk]]. split; [by destruct e |]. intros st' Ho. apply Forall2_insert; [done |].
    split; [by destruct e | apply Hk].
Qed.

Lemma start_placed w placed th :
  threads_placed w placed -> thread_placed th None ->
  threads_placed (MkClientWorld (client w) (client_threads w ++ [th])) (placed ++ [None]).
Proof. intros Hf Hth. apply Forall2_app; [done |]. by repeat constructor. Qed.

(** Everything but a call of the strategy. *)
Lemma act_placed w placed x w' :
  threads_placed w placed -> client_act config w x = Some w' ->
  (if x is CStep j _ then strategy_call w j else None) = None ->
  (threads_placed w' placed /\
    (event_of w x = [] \/ exists j e, event_of w x = [(j, Went e)] /\ (placed !! j = Some None \/ placed !! j = Some (Some e)))) \/
  (threads_placed w' (placed ++ [None]) /\ event_of w x = []).
Proof.
  intros Hf Hact Hno. destruct x; cbn in Hact.
  - left. destruct (client_threads w !! j) as [th |] eqn:Hj; [| done].
    destruct (client_proc th) as [| X e k] eqn:Hp; [done |].
    destruct (client_step X (client w) e h) as [[x s'] |] eqn:Hst; [| done]. injection Hact as <-.
    destruct (Forall2_lookup_l _ _ _ _ _ Hf Hj) as (st & Hs & _).
    destruct (thread_step _ _ _ _ _ _ _ _ x s' Hf Hj Hs Hp) as [Hal Hk].
    unfold strategy_call in Hno. cbn [event_of]. rewrite Hj, Hp in Hno |- *. split.
    { rewrite <- (list_insert_id placed j st Hs). apply Hk. by destruct e. }
    destruct e; try (by left). right. exists j, endpoint. split; [done |]. destruct Hal as [-> | ->]; auto.
  - right. injection Hact as <-. split; [| done]. apply start_placed; [done | apply open_placing].
  - destruct (existsb _ _); [| done]. right. injection Hact as <-. split; [| done]. apply start_placed; [done | apply session_send_placed].
  - destruct (existsb _ _); [| done]. right. injection Hact as <-. split; [| done]. apply start_placed; [done | apply session_drop_placed].
  - right. injection Hact as <-. split; [| done]. apply start_placed; [done | apply shutdown_placed].
  - destruct (inbound (client w) !! t) as [task |]; [| done].
    destruct (connections (client w) !! task_connection task) as [conn |]; [| done].
    destruct (existsb _ _); [done |]. right. injection Hact as <-. split; [| done]. apply start_placed; [done | apply receive_loop_placed].
  - left. split; [| by left]. destruct (client_threads w !! j) as [[p | t p] |] eqn:Hj; try done.
    destruct (inbound (client w) !! t) as [[c f []] |]; try done. destruct (at_await p); [| done]. injection Hact as <-.
    destruct (Forall2_lookup_l _ _ _ _ _ Hf Hj) as (st & Hs & -> & _). cbn.
    rewrite <- (list_insert_id placed j None Hs). by apply Forall2_insert.
  - left. split; [| by left]. destruct (client_threads w !! j) as [th |]; [| done]. cbn in Hact. destruct (returned_session th) as [session |]; [| done].
    cbn in Hact. destruct (session_recv session (client w)) as [[item s'] |]; [| done]. by injection Hact as <-.
Qed.

(** A step leaves the strategy alone, asks it for a thread that has nothing
    placed, or reports what a thread has placed. *)
Definition pick_step (p : placing) (placed : list (option string)) (x : placing_action) (p' : placing) : Prop :=
  exists j a ctx i l, x = PPick j i /\ placed !! j = Some None /\ candidates a ctx i (strategy p) = Some (l, strategy p') /\
    placing_log p' = placing_log p ++ [(j, Ordered l)] /\ threads_placed (placing_client p') (<[j := head l]> placed).

Definition report_step (p : placing) (placed : list (option string)) (p' : placing) : Prop :=
  exists j e, placed !! j = Some (Some e) /\ strategy p' = placement_failed e (strategy p) /\
    placing_log p' = placing_log p ++ [(j, Reported)] /\ threads_placed (placing_client p') (<[j := None]> placed).

Definition quiet_step (p : placing) (placed : list (option string)) (p' : placing) : Prop :=
  strategy p' = strategy p /\
  ((threads_placed (placing_client p') placed /\
     (placing_log p' = placing_log p \/
      exists j e, placing_log p' = placing_log p ++ [(j, Went e)] /\ (placed !! j = Some None \/ placed !! j = Some (Some e)))) \/
   (threads_placed (placing_client p') (placed ++ [None]) /\ placing_log p' = placing_log p)).

Lemma placing_act_placed p placed x p' :
  threads_placed (placing_client p) placed -> placing_act p x = Some p' ->
  quiet_step p placed p' \/ pick_step p placed x p' \/ report_step p placed p'.
Proof.
  intros Hf Hact. destruct x as [x | j i]; cbn in Hact.
  - destruct (if x is CStep j _ then strategy_call (placing_client p) j else None) as [[[a ctx] | e] |] eqn:Hcall; [done | |].
    + destruct (client_act config (placing_client p) x) as [w' |] eqn:Ha; [| done]. cbn in Hact. injection Hact as <-.
      right; right. destruct x; try done. cbn in Ha. unfold strategy_call in Hcall.
      destruct (client_threads (placing_client p) !! j) as [th |] eqn:Hj; [| done].
      destruct (client_proc th) as [| X e0 k] eqn:Hp; [done |].
      destruct (client_step X (client (placing_client p)) e0 h) as [[x s'] |]; [| done]. injection Ha as <-.
      destruct (Forall2_lookup_l _ _ _ _ _ Hf Hj) as (st & Hs & _).
      destruct (thread_step _ _ _ _ _ _ _ _ x s' Hf Hj Hs Hp) as [Hal Hk].
      destruct e0; try done. injection Hcall as ->. cbn in Hal. subst st. exists j, e.
      split_and!; [done | done | cbn; by rewrite Hj, Hp | by apply Hk].
    + destruct (client_act config (placing_client p) x) as [w' |] eqn:Ha; [| done]. cbn in Hact. injection Hact as <-.
      left. split; [done |]. cbn. destruct (act_placed _ _ _ _ Hf Ha Hcall) as [[Ht [-> | (j & e & -> & He)]] | [Ht ->]].
      * left. rewrite app_nil_r. auto.
      * left. split; [done |]. right. by exists j, e.
      * right. by rewrite app_nil_r.
  - right; left. destruct (strategy_call (placing_client p) j) as [[[a ctx] | e] |] eqn:Hcall; [| done | done].
    destruct (candidates a ctx i (strategy p)) as [[l s] |] eqn:Hc; [| done]. cbn in Hact.
    unfold strategy_call in Hcall. destruct (client_threads (placing_client p) !! j) as [th |] eqn:Hj; [| done].
    destruct (client_proc th) as [| X e0 k] eqn:Hp; [done |].
    destruct (client_step X (client (placing_client p)) e0 (CCandidates l)) as [[x s'] |] eqn:Hst; [| done].
    cbn in Hact. injection Hact as <-.
    destruct (Forall2_lookup_l _ _ _ _ _ Hf Hj) as (st & Hs & _).
    destruct (thread_step _ _ _ _ _ _ _ _ x s' Hf Hj Hs Hp) as [Hal Hk].
    destruct e0; try done. injection Hcall as -> ->. cbn in Hal, Hst. subst st. injection Hst as <- <-.
    exists j, a, ctx, i, l. split_and!; [done | done | done | done |]. apply Hk. split; [by eapply candidates_lawful | done].
Qed.

(** Every thread is placed where the log says, and only threads there are log. *)
Definition log_placed (p : placing) : Prop :=
  threads_placed (placing_client p) (placements p) /\
  Forall (fun x => x.1 < length (client_threads (placing_client p))) (placing_log p).

Lemma log_placed_same p p' j x :
  log_placed p -> placing_log p' = placing_log p ++ [(j, x)] ->
  j < length (client_threads (placing_client p)) ->
  threads_placed (placing_client p') (placed_list (placing_log p') (length (client_threads (placing_client p)))) -> log_placed p'.
Proof.
  intros [_ Hlog] Hl Hj Ht.
  assert (Hlen : length (client_threads (placing_client p')) = length (client_threads (placing_client p)))
    by (by rewrite (Forall2_length _ _ _ Ht), length_placed_list).
  split; unfold placements; rewrite Hlen; [done |]. rewrite Hl. apply Forall_app. by repeat constructor.
Qed.

Lemma placed_thread p j st :
  placements p !! j = Some st ->
  j < length (client_threads (placing_client p)) /\ st = placement_server (placement_of (placing_log p) j).
Proof.
  intros Hj. assert (Hn : j < length (client_threads (placing_client p)))
    by (rewrite <- (length_placed_list (placing_log p)); by eapply lookup_lt_Some).
  split; [done |]. unfold placements in Hj. rewrite placed_list_lookup in Hj by done. congruence.
Qed.

(** What a step does to the placements of the log. *)
Lemma placing_act_log p x p' :
  log_placed p -> placing_act p x = Some p' -> log_placed p' /\
  ((strategy p' = strategy p /\ (placements p' = placements p \/ placements p' = placements p ++ [None])) \/
   (exists j a ctx i l, x = PPick j i /\ placements p !! j = Some None /\
      candidates a ctx i (strategy p) = Some (l, strategy p') /\ placements p' = <[j := head l]> (placements p)) \/
   (exists j e, placements p !! j = Some (Some e) /\ strategy p' = placement_failed e (strategy p) /\
      placements p' = <[j := None]> (placements p))).
Proof.
  intros Hok Hact. pose proof Hok as [Hf Hlog].
  destruct (placing_act_placed p _ x p' Hf Hact) as [[Hs [[Ht Hl] | [Ht Hl]]] | [(j & a & ctx & i & l & -> & Hj & Hc & Hl & Ht) | (j & e & Hj & Hs & Hl & Ht)]].
  - assert (Hlen : length (client_threads (placing_client p')) = length (client_threads (placing_client p)))
      by (by rewrite (Forall2_length _ _ _ Ht); unfold placements; rewrite length_placed_list).
    assert (Hsame : placements p' = placements p).
    { unfold placements. rewrite Hlen. destruct Hl as [-> | (j & e & -> & He)]; [done | by apply placed_list_went]. }
    split; [| left; auto]. split; [by rewrite Hsame |]. rewrite Hlen. destruct Hl as [-> | (j & e & -> & He)]; [done |].
    apply Forall_app. split; [done |]. constructor; [| done]. destruct He as [He | He]; by apply placed_thread in He as [He _].
  - assert (Hlen : length (client_threads (placing_client p')) = length (client_threads (placing_client p)) + 1).
    { rewrite (Forall2_length _ _ _ Ht), length_app. unfold placements. by rewrite length_placed_list. }
    assert (Hsame : placements p' = placements p ++ [None]) by (unfold placements; by rewrite Hlen, Hl, placed_list_start).
    split; [| left; auto]. split; [by rewrite Hsame |]. rewrite Hlen, Hl. eapply Forall_impl; [exact Hlog |]. intros y Hy. cbn in Hy. lia.
  - pose proof (placed_thread _ _ _ Hj) as [Hn _].
    assert (Hp : placed_list (placing_log p') (length (client_threads (placing_client p))) = <[j := head l]> (placements p))
      by (by rewrite Hl, placed_list_snoc).
    assert (Hok' : log_placed p') by (eapply log_placed_same; [done | done | done | by rewrite Hp]). split; [done |].
    right; left. exists j, a, ctx, i, l. split_and!; [done | done | done |]. rewrite <- Hp. unfold placements. f_equal.
    rewrite (Forall2_length _ _ _ Ht), length_insert. apply length_placed_list.
  - pose proof (placed_thread _ _ _ Hj) as [Hn _].
    assert (Hp : placed_list (placing_log p') (length (client_threads (placing_client p))) = <[j := None]> (placements p))
      by (by rewrite Hl, placed_list_snoc).
    assert (Hok' : log_placed p') by (eapply log_placed_same; [done | done | done | by rewrite Hp]). split; [done |].
    right; right. exists j, e. split_and!; [done | done |]. rewrite <- Hp. unfold placements. f_equal.
    rewrite (Forall2_length _ _ _ Ht), length_insert. apply length_placed_list.
Qed.
End world.

(** ** The accounting of P2cPlacement under concurrent opens *)
Definition placed_at (e : string) (placed : list (option string)) : nat := length (filter (fun st => st = Some e) placed).

Lemma placed_at_insert e placed j old new :
  placed !! j = Some old ->
  placed_at e (<[j := new]> placed) + (if decide (old = Some e) then 1 else 0)
  = placed_at e placed + (if decide (new = Some e) then 1 else 0).
Proof.
  intros Hj. rewrite <- (take_drop_middle _ _ _ Hj) at 2. rewrite insert_take_drop by (by eapply lookup_lt_Some).
  unfold placed_at. rewrite !filter_app, !length_app, !filter_cons. repeat case_decide; cbn; lia.
Qed.

Lemma placed_at_app e placed : placed_at e (placed ++ [None]) = placed_at e placed.
Proof. unfold placed_at. rewrite filter_app, length_app. cbn. rewrite decide_False by done. cbn. lia. Qed.

Definition counts_placed (m : InFlight) (placed : list (option string)) : Prop :=
  forall e, (0 <= in_flight_count m e <= Z.of_nat (placed_at e placed))%Z.

Lemma retain_count now m e : (0 <= in_flight_count m e)%Z -> (0 <= in_flight_count (retain_fresh now m) e <= in_flight_count m e)%Z.
Proof.
  unfold in_flight_count. rewrite retain_fresh_lookup. destruct (m !! e) as [[c t] |]; [| lia].
  intros Hc. case_bool_decide; lia.
Qed.

Lemma pick_counts ctx now draws m l draws' m' placed j :
  pick ctx now draws m = Some (l, draws', m') -> placed !! j = Some None -> counts_placed m placed ->
  counts_placed m' (<[j := head l]> placed).
Proof.
  intros Hp Hj Hc e. specialize (Hc e). pose proof (placed_at_insert e _ _ _ (head l) Hj) as Hi.
  rewrite (decide_False (P := None = Some e)) in Hi by done.
  apply pick_power_of_two in Hp as [(-> & -> & ->) | (c & ps & _ & -> & Hcount)]; cbn in Hi |- *.
  - rewrite decide_False in Hi by done. lia.
  - pose proof (retain_count now m e (proj1 Hc)). rewrite Hcount. case_bool_decide as He.
    + subst e. rewrite decide_True in Hi by done. unfold U64_MAX in *.
      pose proof (Z.mod_pos_bound (in_flight_count (retain_fresh now m) (endpoint c) + 1) (18446744073709551615 + 1)).
      pose proof (Z.mod_le (in_flight_count (retain_fresh now m) (endpoint c) + 1) (18446744073709551615 + 1)). lia.
    + rewrite decide_False in Hi by congruence. lia.
Qed.

Lemma failed_counts m e0 placed j :
  placed !! j = Some (Some e0) -> counts_placed m placed -> counts_placed (on_placement_failed e0 m) (<[j := None]> placed).
Proof.
  intros Hj Hc e. specialize (Hc e). pose proof (placed_at_insert e _ _ _ None Hj) as Hi.
  rewrite (decide_False (P := None = Some e)) in Hi by done.
  unfold on_placement_failed, in_flight_count in *. destruct (decide (Some e0 = Some e)) as [[= ->] | Hne].
  - rewrite lookup_alter_eq. destruct (m !! e) as [[c t] |]; cbn in *; [unfold saturating_sub |]; lia.
  - rewrite lookup_alter_ne by congruence. lia.
Qed.

(** Nothing is dropped that is still counted. *)
Definition unexpired (now : Z) (s : P2cPlacement) : Prop := retain_fresh now (in_flight s) = in_flight s.

Definition counts_exact (m : InFlight) (placed : list (option string)) : Prop :=
  forall e, in_flight_count m e = Z.of_nat (placed_at e placed).

Lemma pick_exact ctx now draws m l draws' m' placed j :
  pick ctx now draws m = Some (l, draws', m') -> retain_fresh now m = m -> placed !! j = Some None ->
  (Z.of_nat (length placed) <= U64_MAX)%Z -> counts_exact m placed -> counts_exact m' (<[j := head l]> placed).
Proof.
  intros Hp Hm Hj Hlen Hc e. specialize (Hc e). pose proof (placed_at_insert e _ _ _ (head l) Hj) as Hi.
  rewrite (decide_False (P := None = Some e)) in Hi by done.
  apply pick_power_of_two in Hp as [(-> & -> & ->) | (c & ps & _ & -> & Hcount)]; cbn in Hi |- *.
  - rewrite decide_False in Hi by done. lia.
  - rewrite Hcount, Hm. case_bool_decide as He.
    + subst e. rewrite decide_True in Hi by done. rewrite Hc, Z.mod_small; [lia |].
      assert (placed_at (endpoint c) (<[j := Some (endpoint c)]> placed) <= length placed).
      { unfold placed_at. rewrite <- (length_insert placed j (Some (endpoint c))). apply length_filter. }
      lia.
    + rewrite decide_False in Hi by congruence. lia.
Qed.

Lemma failed_exact m e0 placed j :
  placed !! j = Some (Some e0) -> counts_exact m placed -> counts_exact (on_placement_failed e0 m) (<[j := None]> placed).
Proof.
  intros Hj Hc e. specialize (Hc e). pose proof (placed_at_insert e _ _ _ None Hj) as Hi.
  rewrite (decide_False (P := None = Some e)) in Hi by done.
  unfold on_placement_failed, in_flight_count in *. destruct (decide (Some e0 = Some e)) as [[= ->] | Hne].
  - rewrite lookup_alter_eq. destruct (m !! e) as [[c t] |]; cbn in *; [unfold saturating_sub |]; lia.
  - rewrite lookup_alter_ne by congruence. lia.
Qed.

Lemma placing_reachable_counts config keeps draws p :
  placing_reachable config keeps (p2c_new draws) p ->
  log_placed p /\ counts_placed (in_flight (strategy p)) (placements p) /\
    ((forall now s, keeps now s -> unexpired now s) -> (Z.of_nat (length (placements p)) <= U64_MAX)%Z ->
     counts_exact (in_flight (strategy p)) (placements p)).
Proof.
  induction 1 as [| p x p' _ (Hf & Hc & Hx) Hkeep Hact]; [by repeat constructor |].
  apply (placing_act_log config p x p' Hf) in Hact
    as [Hf' [[Hs [-> | ->]] | [(j & a & ctx & i & l & -> & Hj & Hp & ->) | (j & e & Hj & Hs & ->)]]]; (split; [done |]).
  - by rewrite Hs.
  - rewrite Hs, length_app.
    split; [intros e; rewrite placed_at_app; apply Hc |]. intros Hk Hl e. rewrite placed_at_app. apply Hx; [done | lia].
  - apply p2c_candidates_Some in Hp as [draws' Hp]. rewrite length_insert.
    split; [by eapply pick_counts |]. intros Hk Hl. eapply pick_exact; [done | by apply Hk | done | done | by apply Hx].
  - rewrite Hs, length_insert.
    split; [by apply failed_counts |]. intros Hk Hl. apply failed_exact; [done | by apply Hx].
Qed.

(** ** Properties *)

(** Nothing is placed by a thread that has ended, unless its open succeeded. *)
Definition settled (th : client_thread) (st : option string) : Prop :=
  match th with
  | CCaller (Ret (COpened (Some (Ok _)))) | CCaller (Call _ _) => True
  | CCaller (Ret _) | CLoop _ _ => st = None
  end.

Lemma placed_settled th st : thread_placed th st -> settled th st.
Proof. by destruct th as [[[[[s | e] |] | r |] | X e k] | t p]; cbn; [.. | intros [? _]]. Qed.

(** C33: the accounting of placements in flight is exact.  The log of an execution
    records, for every thread, the orders the strategy gave it, the Servers it then
    asked the pool of, and the failures it reported; an open is placed on the
    Server it goes to after an order, the first of the order until it goes, and on
    none after a report.  For any opens that run concurrently with everything else
    a Client does, only an open in progress or ended with a Session has a
    placement, and for every Server the default strategy counts no more placements
    than there are opens placed on it: the Server counted is the one the open goes
    to, what failed is taken back and nothing is counted twice.  As long as no
    account expires (and fewer than 2^64 calls were made) it counts exactly those. *)
Theorem placements_in_flight_exact (config : ClientConfig) (keeps : Z -> P2cPlacement -> Prop) (draws : list Z)
    (p : placing) (Hr : placing_reachable config keeps (p2c_new draws) p) :
  Forall2 settled (client_threads (placing_client p)) (placements p) /\
  (forall e, 0 <= in_flight_count (in_flight (strategy p)) e <= Z.of_nat (placed_at e (placements p)))%Z /\
  ((forall now s, keeps now s -> retain_fresh now (in_flight s) = in_flight s) ->
   (Z.of_nat (length (client_threads (placing_client p))) <= U64_MAX)%Z ->
   forall e, in_flight_count (in_flight (strategy p)) e = Z.of_nat (placed_at e (placements p))).
Proof.
  destruct (placing_reachable_counts _ _ _ _ Hr) as ([Hf _] & Hc & Hx).
  split; [by eapply Forall2_impl; [| apply placed_settled] |]. split; [exact Hc |].
  intros Hk Hl. apply Hx; [exact Hk |]. by rewrite <- (Forall2_length _ _ _ Hf).
Qed.

(** Two opens are placed on the same Server; the connection of one fails. *)
Definition placed_open (j : nat) (t : Z) (nodes : list NodeRecord) : list placing_action :=
  map PAct (begin_open j ++ [cstep j (COwner (Ok None)); cstep j (CTime t)] ++ csteps j 1 ++
            (if nodes is [] then [] else [cstep j (CNodes (Ok nodes))] ++ csteps j 1)) ++
  [PPick j t].

Definition placing_script : list placing_action :=
  placed_open 0 0 [demo_node "n1"] ++ placed_open 1 1 [] ++
  map PAct (csteps 0 3 ++ [cstep 0 (CConnect (Err Closed))] ++ csteps 0 2).

Definition kept_fresh (now : Z) (s : P2cPlacement) : bool := bool_decide (retain_fresh now (in_flight s) = in_flight s).

Definition placing_start : placing := MkPlacing client_initial_world (p2c_new [0; 0; 0; 0]%Z) [].

Definition one_placed (p : placing) : bool :=
  (in_flight_count (in_flight (strategy p)) "n1" =? 1)%Z && (length (client_threads (placing_client p)) =? 2)%nat &&
  bool_decide (placements p = [None; Some "n1"]).

Definition placing_ends : bool :=
  match placing_run demo_client kept_fresh placing_start placing_script with
  | Some p => one_placed p
  | None => false
  end.

Lemma placing_ends_reaches :
  placing_ends = true ->
  exists p, placing_reachable demo_client (fun now s => kept_fresh now s = true) (p2c_new [0; 0; 0; 0]%Z) p /\ one_placed p = true.
Proof.
  unfold placing_ends. destruct (placing_run _ _ _ _) as [p |] eqn:Hr; [| done]. intros He. exists p.
  split; [by eapply placing_run_reachable; [apply placing_initial |] | done].
Qed.

Lemma placements_in_flight_exact_witness :
  exists p, in_flight_count (in_flight (strategy p)) "n1" = 1%Z /\ placements p = [None; Some "n1"] /\
    Forall2 settled (client_threads (placing_client p)) (placements p) /\
    forall e, in_flight_count (in_flight (strategy p)) e = Z.of_nat (placed_at e (placements p)).
Proof.
  destruct (placing_ends_reaches ltac:(vm_compute; reflexivity)) as (p & Hr & He).
  unfold one_placed in He. apply andb_true_iff in He as [[Hc%Z.eqb_eq Hl%Nat.eqb_eq]%andb_true_iff Hp%bool_decide_eq_true].
  destruct (placements_in_flight_exact demo_client _ _ p Hr) as (Hf & _ & Hx).
  exists p. split; [exact Hc | split; [exact Hp | split; [exact Hf |]]]. apply Hx.
  - intros now s Hk. by apply bool_decide_eq_true in Hk.
  - rewrite Hl. vm_compute. discriminate.
Defined.
