(* ===== verification/System.v ===== *)
(** * A Client, its Servers and the connections between them

    The worlds of [ClientStep] and [Accept] side by side, joined by wires: for each
    connection of the Client two queues, to the Server at its endpoint and back.
    A connection of the Client is a stream that arrives at the listener of its
    Server; what the Client's transport takes enters the one queue, and the
    connection task that the Server's accept task starts for the stream receives
    from it; what the Server sends to the stream's sender enters the other.  Other
    Clients of the Servers may connect and send anything.  A Session that
    [Client::open] returns has been opened by its Actor. *)

From S2P Require Import Prelude Text Address Coordination Placement Transport Session Client ClientStep ClientRace ClientTrace.
From S2P Require Import Runtime RuntimeInv RuntimeActor RuntimeWorld RuntimeTrace RuntimeProps RuntimeOrder RuntimeActions AcceptTrace.
From S2P Require Accept.

(** ** The system *)
Record wire := MkWire {
  wire_endpoint : string;       (* the Server it leads to *)
  wire_peer : SenderId;         (* the sender the Server answers on *)
  wire_up : list Envelope;
  wire_down : list Envelope;
  wire_log : list Envelope      (* all the Server has put on it, in order *)
}.

(** A Server: its accept task with the runtime, and what has happened there. *)
Record node := MkNode {
  node_accept : Accept.accept_world;
  node_trace : RuntimeTrace.trace
}.

Definition node_world (n : node) : world := Accept.runtime (node_accept n).

Record system := MkSystem {
  sys_client : client_world;
  sys_trace : ctrace;
  sys_nodes : gmap string node;
  sys_wires : gmap ConnRef wire
}.

Definition set_up (l : list Envelope) (w : wire) : wire := MkWire (wire_endpoint w) (wire_peer w) l (wire_down w) (wire_log w).
Definition set_down (l : list Envelope) (w : wire) : wire := MkWire (wire_endpoint w) (wire_peer w) (wire_up w) l (wire_log w).
Definition put_down (e : Envelope) (w : wire) : wire :=
  MkWire (wire_endpoint w) (wire_peer w) (wire_up w) (wire_down w ++ [e]) (wire_log w ++ [e]).

(** The wire on which the Server at [endpoint] answers to [peer]. *)
Definition is_wire (endpoint : string) (peer : SenderId) (w : wire) : bool :=
  bool_decide (wire_endpoint w = endpoint) && bool_decide (wire_peer w = peer).

Definition find_wire (endpoint : string) (peer : SenderId) (ws : gmap ConnRef wire) : option (ConnRef * wire) :=
  snd <$> list_find (fun cw => is_wire endpoint peer cw.2 = true) (map_to_list ws).

(** What a step of the Client does to the wires; [peer] is the sender a Server
    makes for a new connection. *)
Definition client_effect (s : system) (peer : SenderId) (l : clabel) : option (gmap ConnRef wire) :=
  let ws := sys_wires s in
  match l with
  | Connected c endpoint =>
      match ws !! c, sys_nodes s !! endpoint, find_wire endpoint peer ws with
      | None, Some n, None =>
          if can_arrive (node_accept n) peer then Some (<[c := MkWire endpoint peer [] [] []]> ws) else None
      | _, _, _ => None
      end
  | Offered c e => w ← ws !! c; Some (<[c := set_up (wire_up w ++ [e]) w]> ws)
  | Received c e =>
      w ← ws !! c;
      match wire_down w with
      | e' :: rest => if decide (e' = e) then Some (<[c := set_down rest w]> ws) else None
      | [] => None
      end
  | _ => Some ws
  end.

(** A new connection arrives at the listener of its Server. *)
Definition arrive_at (peer : SenderId) (n : node) : node := MkNode (arrive (node_accept n) peer) (node_trace n).

Definition arrivals (peer : SenderId) (nodes : gmap string node) (l : ctrace) : gmap string node :=
  match l with
  | [(_, Connected _ endpoint)] => alter (arrive_at peer) endpoint nodes
  | _ => nodes
  end.

(** What a step of the Server at [endpoint] does to them: a connection task
    receives the next envelope of its wire. *)
Definition server_effect (ws : gmap ConnRef wire) (endpoint : string) (l : label) : option (gmap ConnRef wire) :=
  match l with
  | Entered e (Some peer) =>
      match find_wire endpoint peer ws with
      | Some (c, w) =>
          match wire_up w with
          | e' :: rest => if decide (e' = e) then Some (<[c := set_up rest w]> ws) else None
          | [] => None
          end
      | None => Some ws          (* from another Client *)
      end
  | Emitted peer e true =>
      match find_wire endpoint peer ws with
      | Some (c, w) => Some (<[c := put_down e w]> ws)
      | None => Some ws
      end
  | _ => Some ws
  end.

(** The effect of what a step adds to a trace: at most one label. *)
Definition effect_of {L} (f : L -> option (gmap ConnRef wire)) (ws : gmap ConnRef wire) (l : list (nat * L))
    : option (gmap ConnRef wire) :=
  match l with
  | [] => Some ws
  | [(_, l)] => f l
  | _ => None
  end.

Section system.
Context (config : ClientConfig) (servers : gmap string ServerConfig).

Definition system_initial : system :=
  MkSystem client_initial_world [] ((fun c => MkNode (Accept.initial_accept c) []) <$> servers) ∅.

Inductive system_step : system -> system -> Prop :=
| step_client s x peer w' ws' :
    client_act config (sys_client s) x = Some w' ->
    effect_of (client_effect s peer) (sys_wires s) (client_label (sys_client s) x) = Some ws' ->
    system_step s (MkSystem w' (sys_trace s ++ client_label (sys_client s) x)
                     (arrivals peer (sys_nodes s) (client_label (sys_client s) x)) ws')
| step_server s endpoint c n l w' ws' :
    sys_nodes s !! endpoint = Some n -> servers !! endpoint = Some c ->
    Accept.accept_step c (node_accept n) l w' ->
    effect_of (server_effect (sys_wires s) endpoint) (sys_wires s) l = Some ws' ->
    system_step s (MkSystem (sys_client s) (sys_trace s)
                     (<[endpoint := MkNode w' (node_trace n ++ l)]> (sys_nodes s)) ws')
(* an Actor sends an Event through a Session it keeps *)
| step_event s c w sid payload :
    sys_wires s !! c = Some w ->
    system_step s (MkSystem (sys_client s) (sys_trace s) (sys_nodes s)
                     (<[c := put_down (envelope_event sid payload) w]> (sys_wires s)))
(* a connection breaks: what was under way is lost *)
| step_lost s c w up down :
    sys_wires s !! c = Some w -> up `prefix_of` wire_up w -> down `prefix_of` wire_down w ->
    system_step s (MkSystem (sys_client s) (sys_trace s) (sys_nodes s)
                     (<[c := set_down down (set_up up w)]> (sys_wires s))).

Definition system_reachable (s : system) : Prop := rtc system_step system_initial s.

(** *** The scheduler *)
Inductive system_action :=
| SClient (x : client_action) (peer : SenderId)
| SServer (endpoint : string) (x : accept_action)
| SEvent (c : ConnRef) (sid : SessionId) (payload : string).

Definition system_act (s : system) (x : system_action) : option system :=
  match x with
  | SClient x peer =>
      w' ← client_act config (sys_client s) x;
      ws' ← effect_of (client_effect s peer) (sys_wires s) (client_label (sys_client s) x);
      Some (MkSystem w' (sys_trace s ++ client_label (sys_client s) x)
              (arrivals peer (sys_nodes s) (client_label (sys_client s) x)) ws')
  | SServer endpoint x =>
      n ← sys_nodes s !! endpoint;
      c ← servers !! endpoint;
      '(l, w') ← accept_act c (node_accept n) x;
      ws' ← effect_of (server_effect (sys_wires s) endpoint) (sys_wires s) l;
      Some (MkSystem (sys_client s) (sys_trace s)
              (<[endpoint := MkNode w' (node_trace n ++ l)]> (sys_nodes s)) ws')
  | SEvent c sid payload =>
      w ← sys_wires s !! c;
      Some (MkSystem (sys_client s) (sys_trace s) (sys_nodes s)
              (<[c := put_down (envelope_event sid payload) w]> (sys_wires s)))
  end.

Fixpoint system_run (s : system) (l : list system_action) : option system :=
  match l with
  | [] => Some s
  | x :: l => s' ← system_act s x; system_run s' l
  end.

Lemma system_act_sound s x s' : system_act s x = Some s' -> system_step s s'.
Proof.
  destruct x; cbn.
  - destruct (client_act config (sys_client s) x) as [w' |] eqn:Ha; [| done]. cbn.
    destruct (effect_of _ _ _) as [ws' |] eqn:He; [| done]. intros [= <-]. by eapply step_client.
  - destruct (sys_nodes s !! endpoint) as [n |] eqn:Hn; [| done].
    destruct (servers !! endpoint) as [c |] eqn:Hc; [| done]. cbn.
    destruct (accept_act c (node_accept n) x) as [[l w'] |] eqn:Ha; [| done]. cbn.
    destruct (effect_of _ _ _) as [ws' |] eqn:He; [| done]. intros [= <-].
    eapply step_server; [done | done | by eapply accept_act_sound | done].
  - destruct (sys_wires s !! c) as [w |] eqn:Hw; [| done]. intros [= <-]. by apply step_event.
Qed.

Lemma system_run_sound s l s' : system_run s l = Some s' -> rtc system_step s s'.
Proof.
  revert s. induction l as [| x l IH]; cbn; intros s; [intros [= <-]; apply rtc_refl |].
  destruct (system_act s x) as [s1 |] eqn:Ha; [| done]. intros Hr.
  eapply rtc_l; [by eapply system_act_sound | by apply IH].
Qed.

(** ** The invariant *)

(** [e] was sent on the wire [w] by its Server, or is an Event. *)
Definition sent_down (s : system) (w : wire) (e : Envelope) : Prop :=
  (exists payload, env_kind e = Some (KEvent payload)) \/
  exists n j, sys_nodes s !! wire_endpoint w = Some n /\ (j, Emitted (wire_peer w) e true) ∈ node_trace n.

(** [e] was sent on connection [c] by the Client. *)
Definition sent_up (s : system) (c : ConnRef) (e : Envelope) : Prop := exists j, (j, Offered c e) ∈ sys_trace s.

Record system_inv (s : system) : Prop := {
  si_client : client_execution config (sys_client s) (sys_trace s);
  si_node endpoint n : sys_nodes s !! endpoint = Some n ->
    exists c, servers !! endpoint = Some c /\ accept_execution c (node_accept n) (node_trace n);
  si_wire c w : sys_wires s !! c = Some w ->
    is_Some (sys_nodes s !! wire_endpoint w) /\ conn_endpoints (client (sys_client s)) !! c = Some (wire_endpoint w);
  si_peer c c' w w' : sys_wires s !! c = Some w -> sys_wires s !! c' = Some w' ->
    wire_endpoint w = wire_endpoint w' -> wire_peer w = wire_peer w' -> c = c';
  si_up c w e : sys_wires s !! c = Some w -> e ∈ wire_up w -> sent_up s c e;
  si_down c w e : sys_wires s !! c = Some w -> e ∈ wire_down w -> sent_down s w e;
  si_received j c e : (j, Received c e) ∈ sys_trace s -> exists w, sys_wires s !! c = Some w /\ sent_down s w e;
  si_entered c w n j e : sys_wires s !! c = Some w -> sys_nodes s !! wire_endpoint w = Some n ->
    (j, Entered e (Some (wire_peer w))) ∈ node_trace n -> sent_up s c e
}.

Lemma find_wire_Some endpoint peer ws c w :
  find_wire endpoint peer ws = Some (c, w) -> ws !! c = Some w /\ wire_endpoint w = endpoint /\ wire_peer w = peer.
Proof.
  unfold find_wire. destruct (list_find _ _) as [[i [c' w']] |] eqn:Hf; [| done]. intros [= -> ->].
  apply list_find_Some in Hf as (Hl & Hw & _). cbn in Hw. unfold is_wire in Hw.
  apply andb_true_iff in Hw as [H1%bool_decide_eq_true H2%bool_decide_eq_true].
  split; [| done]. apply elem_of_map_to_list. by eapply list_elem_of_lookup_2.
Qed.

Lemma find_wire_None endpoint peer ws c w :
  find_wire endpoint peer ws = None -> ws !! c = Some w -> wire_endpoint w = endpoint -> wire_peer w <> peer.
Proof.
  unfold find_wire. destruct (list_find _ _) as [[i [c' w']] |] eqn:Hf; [done |]. intros _ Hl He Hp.
  apply list_find_None in Hf. rewrite Forall_forall in Hf. apply (Hf (c, w)); [by apply elem_of_map_to_list |].
  unfold is_wire. cbn. by rewrite !bool_decide_eq_true_2.
Qed.

(** A sender that can arrive has sent nothing. *)
Lemma arriving_new c n peer j e :
  accept_execution c (node_accept n) (node_trace n) -> can_arrive (node_accept n) peer = true ->
  (j, Entered e (Some peer)) ∉ node_trace n.
Proof.
  intros Hex (_ & _ & Hnew)%can_arrive_true Hin.
  apply (ac_entered _ _ _ (accept_account _ _ _ Hex)) in Hin as (c0 & Hc & [= Heq]). by apply (Hnew c0 Hc).
Qed.

(** *** What a change of the queues keeps

    The wires are the same, up to what is in their queues. *)
Definition same_wires (ws ws' : gmap ConnRef wire) : Prop :=
  forall c, (fun w => (wire_endpoint w, wire_peer w)) <$> ws' !! c = (fun w => (wire_endpoint w, wire_peer w)) <$> ws !! c.

Lemma same_wires_refl ws : same_wires ws ws.
Proof. done. Qed.

Lemma same_wires_insert ws c w w' :
  ws !! c = Some w -> wire_endpoint w' = wire_endpoint w -> wire_peer w' = wire_peer w -> same_wires ws (<[c := w']> ws).
Proof.
  intros Hw He Hp c'. destruct (decide (c' = c)) as [-> | Hne].
  - rewrite lookup_insert_eq, Hw. cbn. by rewrite He, Hp.
  - by rewrite lookup_insert_ne.
Qed.

Lemma same_wires_lookup ws ws' c w' :
  same_wires ws ws' -> ws' !! c = Some w' ->
  exists w, ws !! c = Some w /\ wire_endpoint w' = wire_endpoint w /\ wire_peer w' = wire_peer w.
Proof.
  intros Hs Hw'. specialize (Hs c). rewrite Hw' in Hs. destruct (ws !! c) as [w |]; [| done].
  injection Hs as He Hp. eauto.
Qed.

Lemma same_wires_sym ws ws' : same_wires ws ws' -> same_wires ws' ws.
Proof. intros Hs c. by rewrite Hs. Qed.

(** What happened before has happened after. *)
Record later (s s' : system) : Prop := {
  lt_trace : sys_trace s ⊆ sys_trace s';
  lt_nodes endpoint n : sys_nodes s !! endpoint = Some n ->
    exists n', sys_nodes s' !! endpoint = Some n' /\ node_trace n ⊆ node_trace n';
  lt_endpoints c endpoint : conn_endpoints (client (sys_client s)) !! c = Some endpoint ->
    conn_endpoints (client (sys_client s')) !! c = Some endpoint
}.

Lemma sent_up_later s s' c e : later s s' -> sent_up s c e -> sent_up s' c e.
Proof. intros Hl [j Hj]. exists j. by apply (lt_trace _ _ Hl). Qed.

Lemma sent_down_later s s' w w' e :
  later s s' -> wire_endpoint w' = wire_endpoint w -> wire_peer w' = wire_peer w -> sent_down s w e -> sent_down s' w' e.
Proof.
  intros Hl He Hp [Hk | (n & j & Hn & Hj)]; [by left |]. right.
  destruct (lt_nodes _ _ Hl _ _ Hn) as (n' & Hn' & Hsub). exists n', j. rewrite He, Hp. split; [done | by apply Hsub].
Qed.

(** A step that makes no wire. *)
Lemma system_inv_step s s' :
  system_inv s -> later s s' -> same_wires (sys_wires s) (sys_wires s') ->
  client_execution config (sys_client s') (sys_trace s') ->
  (forall endpoint n, sys_nodes s' !! endpoint = Some n ->
     exists c, servers !! endpoint = Some c /\ accept_execution c (node_accept n) (node_trace n)) ->
  (forall c w e, sys_wires s' !! c = Some w -> e ∈ wire_up w -> sent_up s' c e) ->
  (forall c w e, sys_wires s' !! c = Some w -> e ∈ wire_down w -> sent_down s' w e) ->
  (forall j c e, (j, Received c e) ∈ sys_trace s' ->
     (j, Received c e) ∈ sys_trace s \/ exists w, sys_wires s !! c = Some w /\ sent_down s w e) ->
  (forall c w n' j e, sys_wires s' !! c = Some w -> sys_nodes s' !! wire_endpoint w = Some n' ->
     (j, Entered e (Some (wire_peer w))) ∈ node_trace n' ->
     (exists n, sys_nodes s !! wire_endpoint w = Some n /\ (j, Entered e (Some (wire_peer w))) ∈ node_trace n) \/
     sent_up s' c e) ->
  system_inv s'.
Proof.
  intros Hinv Hl Hs Hc Hn Hu Hd Hr He. split; try done.
  - intros c w' Hw'. destruct (same_wires_lookup _ _ _ _ Hs Hw') as (w & Hw & -> & _).
    destruct (si_wire _ Hinv _ _ Hw) as [[n Hn'] Hep]. destruct (lt_nodes _ _ Hl _ _ Hn') as (n' & -> & _).
    split; [by eexists | by apply (lt_endpoints _ _ Hl)].
  - intros c1 c2 w1 w2 H1 H2 H3 H4. destruct (same_wires_lookup _ _ _ _ Hs H1) as (v1 & Hv1 & E1 & P1).
    destruct (same_wires_lookup _ _ _ _ Hs H2) as (v2 & Hv2 & E2 & P2).
    eapply (si_peer _ Hinv); [exact Hv1 | exact Hv2 | congruence | congruence].
  - intros j c e Hin.
    assert (Hold : exists w, sys_wires s !! c = Some w /\ sent_down s w e).
    { destruct (Hr _ _ _ Hin) as [Hin' | ?]; [by eapply (si_received _ Hinv) | done]. }
    destruct Hold as (w & Hw & Hsent). destruct (same_wires_lookup _ _ c w (same_wires_sym _ _ Hs) Hw) as (w' & Hw' & E & P).
    exists w'. split; [done |]. by eapply sent_down_later.
  - intros c w' n' j e Hw' Hn' Hin. destruct (He _ _ _ _ _ Hw' Hn' Hin) as [(n & Hn0 & Hin') | ?]; [| done].
    destruct (same_wires_lookup _ _ _ _ Hs Hw') as (w & Hw & E & P). rewrite E in Hn0. rewrite P in Hin'.
    eapply sent_up_later; [done |]. by eapply (si_entered _ Hinv).
Qed.

(** *** The steps of the Client *)
Lemma client_label_one w x : client_label w x = [] \/ exists j l, client_label w x = [(j, l)].
Proof. destruct x; cbn; auto; repeat case_match; eauto. Qed.

Lemma client_act_endpoints w x w' c endpoint :
  client_act config w x = Some w' -> conn_endpoints (client w) !! c = Some endpoint ->
  conn_endpoints (client w') !! c = Some endpoint.
Proof.
  intros Hact Hc. destruct x; cbn in Hact.
  - destruct (client_threads w !! j) as [th |]; [| done]. destruct (client_proc th) as [| X e k]; [done |].
    destruct (client_step X (client w) e h) as [[x s'] |] eqn:Hst; [| done]. injection Hact as <-. cbn.
    rewrite (sf_endpoints _ _ _ _ (client_step_frame _ _ _ _ _ _ Hst)). by apply lookup_app_l_Some.
  - by injection Hact as <-.
  - destruct (existsb _ _); [| done]. by injection Hact as <-.
  - destruct (existsb _ _); [| done]. by injection Hact as <-.
  - by injection Hact as <-.
  - destruct (inbound (client w) !! t) as [task |]; [| done].
    destruct (connections (client w) !! task_connection task); [| done]. destruct (existsb _ _); [done |]. by injection Hact as <-.
  - destruct (client_threads w !! j) as [[p | t p] |]; try done.
    destruct (inbound (client w) !! t) as [[c' f []] |]; try done. destruct (at_await p); [| done]. by injection Hact as <-.
  - destruct (client_threads w !! j ≫= returned_session) as [session |] eqn:Hs; [| by destruct (client_threads w !! j); cbn in *; [rewrite Hs in Hact |]].
    destruct (client_threads w !! j) as [th |]; [| done]. cbn in Hact, Hs. rewrite Hs in Hact. cbn in Hact.
    unfold session_recv in Hact. destruct (channels (client w) !! _) as [[] |]; [done | | done]. by injection Hact as <-.
Qed.

Lemma arrivals_later peer (nodes : gmap string node) l endpoint n :
  nodes !! endpoint = Some n -> exists n', arrivals peer nodes l !! endpoint = Some n' /\ node_trace n ⊆ node_trace n'.
Proof.
  intros Hn. destruct l as [| [j []] []]; cbn; eauto.
  match goal with |- context [alter _ ?k _] => destruct (decide (k = endpoint)) as [-> | Hne] end.
  - exists (arrive_at peer n). by rewrite lookup_alter_eq, Hn.
  - exists n. by rewrite lookup_alter_ne.
Qed.

Lemma step_connected_inv s s' j c endpoint peer n :
  system_inv s -> later s s' -> client_execution config (sys_client s') (sys_trace s') ->
  sys_nodes s' = alter (arrive_at peer) endpoint (sys_nodes s) ->
  sys_trace s' = sys_trace s ++ [(j, Connected c endpoint)] ->
  sys_wires s' = <[c := MkWire endpoint peer [] [] []]> (sys_wires s) ->
  sys_wires s !! c = None -> sys_nodes s !! endpoint = Some n -> find_wire endpoint peer (sys_wires s) = None ->
  can_arrive (node_accept n) peer = true -> system_inv s'.
Proof.
  intros Hinv Hl Hex Hns Htr Hws Hnone Hn Hfind Hcan.
  assert (Hnodes : forall k n', sys_nodes s' !! k = Some n' -> exists n0, sys_nodes s !! k = Some n0 /\
    node_trace n' = node_trace n0 /\ forall c, accept_execution c (node_accept n0) (node_trace n0) ->
      accept_execution c (node_accept n') (node_trace n')).
  { intros k n'. rewrite Hns. intros [(<- & n0 & Hk & ->) | [_ Hk]]%lookup_alter_Some; [| by exists n'].
    exists n0. split_and!; [done | done |]. assert (n0 = n) as -> by congruence. intros c0 He. cbn.
    rewrite <- (app_nil_r (node_trace n)). eapply accept_next; [exact He | by apply arrive_step]. }
  destruct (si_node _ Hinv _ _ Hn) as (sc & _ & Hexn).
  split; try done.
  - intros k n' (n0 & Hk & _ & He)%Hnodes. destruct (si_node _ Hinv _ _ Hk) as (c0 & Hc0 & Hx). exists c0. split; [done | by apply He].
  - intros c' w; rewrite Hws; intros [(<- & <-) | [_ Hw]]%lookup_insert_Some; cbn.
    + split; [rewrite Hns, lookup_alter_eq, Hn; by eexists |]. eapply (ct_connected _ _ (client_execution_inv _ _ _ Hex) j). rewrite Htr.
      apply elem_of_snoc. by right.
    + destruct (si_wire _ Hinv _ _ Hw) as [[n0 Hn0] Hep]. destruct (lt_nodes _ _ Hl _ _ Hn0) as (n' & -> & _).
      split; [by eexists | by apply (lt_endpoints _ _ Hl)].
  - intros c1 c2 w1 w2; rewrite Hws; intros H1 H2 He Hp.
    apply lookup_insert_Some in H1 as [(<- & <-) | [_ H1]], H2 as [(<- & <-) | [_ H2]]; cbn in He, Hp.
    + done.
    + by destruct (find_wire_None _ _ _ _ _ Hfind H2 (eq_sym He)).
    + by destruct (find_wire_None _ _ _ _ _ Hfind H1 He).
    + by eapply (si_peer _ Hinv).
  - intros c' w e; rewrite Hws; intros [(<- & <-) | [_ Hw]]%lookup_insert_Some He; [by apply elem_of_nil in He |].
    eapply sent_up_later; [done |]. by eapply (si_up _ Hinv).
  - intros c' w e; rewrite Hws; intros [(<- & <-) | [_ Hw]]%lookup_insert_Some He; [by apply elem_of_nil in He |].
    eapply sent_down_later; [done | done | done |]. by eapply (si_down _ Hinv).
  - intros j' c' e. rewrite Htr. intros [Hin | [=]]%elem_of_snoc.
    destruct (si_received _ Hinv _ _ _ Hin) as (w & Hw & Hsent).
    exists w. rewrite Hws. split; [rewrite lookup_insert_ne; [done | congruence] | by eapply sent_down_later].
  - intros c' w n' j' e; rewrite Hws; intros [(<- & <-) | [_ Hw]]%lookup_insert_Some Hn' Hin; cbn in *.
    + destruct (Hnodes _ _ Hn') as (n0 & Hn0 & Ht & _). rewrite Ht in Hin. assert (n0 = n) as -> by congruence.
      by destruct (arriving_new _ _ _ _ _ Hexn Hcan Hin).
    + destruct (Hnodes _ _ Hn') as (n0 & Hn0 & Ht & _). rewrite Ht in Hin.
      eapply sent_up_later; [done |]. by eapply (si_entered _ Hinv).
Qed.

Lemma step_received_inv s s' j c e w rest :
  system_inv s -> later s s' -> client_execution config (sys_client s') (sys_trace s') -> sys_nodes s' = sys_nodes s ->
  sys_trace s' = sys_trace s ++ [(j, Received c e)] -> sys_wires s' = <[c := set_down rest w]> (sys_wires s) ->
  sys_wires s !! c = Some w -> wire_down w = e :: rest -> system_inv s'.
Proof.
  intros Hinv Hl Hex Hns Htr Hws Hw Hd. assert (Hin : forall y, y ∈ e :: rest -> y ∈ wire_down w) by (by rewrite Hd).
  assert (Hdown : forall c w e, sys_wires s !! c = Some w -> e ∈ wire_down w -> sent_down s' w e).
  { intros c0 w0 e0 Hw0 He. eapply sent_down_later; [done | done | done |]. by eapply (si_down _ Hinv). }
  apply (system_inv_step s); try done.
  - rewrite Hws. by eapply same_wires_insert.
  - rewrite Hns. apply Hinv.
  - intros c' v e'; rewrite Hws; intros [(<- & <-) | [_ Hw']]%lookup_insert_Some He; (eapply sent_up_later; [done |]);
      by eapply (si_up _ Hinv).
  - intros c' v e'; rewrite Hws; intros [(<- & <-) | [_ Hw']]%lookup_insert_Some He; [| by eapply Hdown].
    apply (Hdown c w); [done |]. apply Hin. by constructor.
  - intros j' c' e'. rewrite Htr. intros [? | [= _ -> ->]]%elem_of_snoc; [by left | right]. exists w. split; [done |].
    apply (si_down _ Hinv c); [done |]. apply Hin. by constructor.
  - rewrite Hns. intros. left. eauto.
Qed.

Lemma step_offered_inv s s' j c e w :
  system_inv s -> later s s' -> client_execution config (sys_client s') (sys_trace s') -> sys_nodes s' = sys_nodes s ->
  sys_trace s' = sys_trace s ++ [(j, Offered c e)] -> sys_wires s' = <[c := set_up (wire_up w ++ [e]) w]> (sys_wires s) ->
  sys_wires s !! c = Some w -> system_inv s'.
Proof.
  intros Hinv Hl Hex Hns Htr Hws Hw.
  assert (Hup : forall c w e, sys_wires s !! c = Some w -> e ∈ wire_up w -> sent_up s' c e).
  { intros c0 w0 e0 Hw0 He. eapply sent_up_later; [done |]. by eapply (si_up _ Hinv). }
  assert (Hdown : forall c w e, sys_wires s !! c = Some w -> e ∈ wire_down w -> sent_down s' w e).
  { intros c0 w0 e0 Hw0 He. eapply sent_down_later; [done | done | done |]. by eapply (si_down _ Hinv). }
  apply (system_inv_step s); try done.
  - rewrite Hws. by eapply same_wires_insert.
  - rewrite Hns. apply Hinv.
  - intros c' v e'; rewrite Hws; intros [(<- & <-) | [_ Hw']]%lookup_insert_Some He; [| by eapply Hup]. cbn in He.
    apply elem_of_snoc in He as [He | ->]; [by eapply Hup |]. exists j. rewrite Htr. apply elem_of_snoc. by right.
  - intros c' v e'; rewrite Hws; intros [(<- & <-) | [_ Hw']]%lookup_insert_Some He; [by apply (Hdown c w) | by eapply Hdown].
  - intros j' c' e'. rewrite Htr. intros [? | [=]]%elem_of_snoc. by left.
  - rewrite Hns. intros. left. eauto.
Qed.

Lemma step_client_inv s x peer w' ws' :
  system_inv s -> client_act config (sys_client s) x = Some w' ->
  effect_of (client_effect s peer) (sys_wires s) (client_label (sys_client s) x) = Some ws' ->
  system_inv (MkSystem w' (sys_trace s ++ client_label (sys_client s) x)
                (arrivals peer (sys_nodes s) (client_label (sys_client s) x)) ws').
Proof.
  intros Hinv Hact Heff. set (s' := MkSystem _ _ _ _).
  assert (Hws : sys_wires s' = ws') by done.
  assert (Hex : client_execution config (sys_client s') (sys_trace s')) by (eapply client_execution_act; [apply Hinv | done]).
  assert (Hl : later s s').
  { split; cbn; [set_solver | apply arrivals_later |]. intros c endpoint. by eapply client_act_endpoints. }
  assert (Hquiet : ws' = sys_wires s -> sys_nodes s' = sys_nodes s ->
    (forall j c e, (j, Received c e) ∈ sys_trace s' -> (j, Received c e) ∈ sys_trace s) -> system_inv s').
  { intros -> Hns Hr. apply (system_inv_step s); try done; rewrite ?Hns; [apply Hinv | | | intros; left; eauto ..].
    - intros c w e Hw He. eapply sent_up_later; [done |]. by eapply (si_up _ Hinv).
    - intros c w e Hw He. eapply sent_down_later; [done | done | done |]. by eapply (si_down _ Hinv). }
  destruct (client_label_one (sys_client s) x) as [Hx | (j & l & Hx)]; rewrite Hx in Heff; cbn in Heff.
  { injection Heff as <-. apply Hquiet; [done | cbn; by rewrite Hx |]. cbn. by rewrite Hx, app_nil_r. }
  assert (Htr : sys_trace s' = sys_trace s ++ [(j, l)]) by (cbn; by rewrite Hx).
  assert (Hns : sys_nodes s' = arrivals peer (sys_nodes s) [(j, l)]) by (cbn; by rewrite Hx).
  assert (Hrec : forall j' c e, (j', Received c e) ∈ sys_trace s' -> (j', Received c e) ∈ sys_trace s \/ l = Received c e).
  { intros j' c e. rewrite Htr. intros [? | [= _ ->]]%elem_of_snoc; auto. }
  assert (Hold : (forall c e, l <> Received c e) ->
    forall j' c e, (j', Received c e) ∈ sys_trace s' -> (j', Received c e) ∈ sys_trace s).
  { intros Hne j' c e [? | Heq]%Hrec; [done | by destruct (Hne c e)]. }
  destruct l as [sid | c endpoint | o | sid c o | c e | c e | ch | sid ch | ch item | ch item |]; cbn in Heff;
    try (apply Hquiet; [congruence | done | by apply Hold]).
  - (* a new connection *)
    destruct (sys_wires s !! c) as [|] eqn:Hnone; [done |].
    destruct (sys_nodes s !! endpoint) as [n |] eqn:Hn; [| done].
    destruct (find_wire endpoint peer (sys_wires s)) eqn:Hfind; [done |].
    destruct (can_arrive (node_accept n) peer) eqn:Hcan; [| done]. injection Heff as <-.
    by eapply (step_connected_inv s s' j).
  - (* an envelope enters the wire *)
    destruct (sys_wires s !! c) as [w |] eqn:Hw; [| done]. injection Heff as <-. by eapply (step_offered_inv s s' j).
  - (* an envelope leaves it *)
    destruct (sys_wires s !! c) as [w |] eqn:Hw; [| done]. cbn in Heff.
    destruct (wire_down w) as [| e' rest] eqn:Hd; [done |]. destruct (decide (e' = e)) as [-> |]; [| done].
    injection Heff as <-. by eapply (step_received_inv s s' j).
Qed.

(** *** The steps of a Server *)
Section server_step.
Context (s : system) (endpoint : string) (c : ServerConfig) (n : node) (l : RuntimeTrace.trace) (w' : Accept.accept_world).
Context (ws' : gmap ConnRef wire).
Context (Hinv : system_inv s) (Hn : sys_nodes s !! endpoint = Some n) (Hc : servers !! endpoint = Some c).
Context (Hm : Accept.accept_step c (node_accept n) l w').

Definition after_move : system :=
  MkSystem (sys_client s) (sys_trace s) (<[endpoint := MkNode w' (node_trace n ++ l)]> (sys_nodes s)) ws'.

Lemma after_move_later : later s after_move.
Proof.
  split; cbn; [set_solver | | done]. intros k n0 Hk. destruct (decide (k = endpoint)) as [-> | Hne].
  - rewrite lookup_insert_eq. eexists. split; [done |]. assert (n0 = n) as -> by congruence. cbn. set_solver.
  - rewrite lookup_insert_ne by done. by exists n0.
Qed.

(** The rest of the invariant follows from what the step did to the queues. *)
Lemma after_move_inv :
  same_wires (sys_wires s) ws' ->
  (forall c w e, ws' !! c = Some w -> e ∈ wire_up w -> sent_up s c e) ->
  (forall c w e, ws' !! c = Some w -> e ∈ wire_down w -> sent_down after_move w e) ->
  (forall c w j e, ws' !! c = Some w -> wire_endpoint w = endpoint -> (j, Entered e (Some (wire_peer w))) ∈ l -> sent_up s c e) ->
  system_inv after_move.
Proof.
  intros Hs Hu Hd He. apply (system_inv_step s); try done.
  - apply after_move_later.
  - apply Hinv.
  - intros k n0; cbn; intros [(<- & <-) | [_ Hk]]%lookup_insert_Some; [| by apply (si_node _ Hinv)]. exists c. split; [done |].
    destruct (si_node _ Hinv _ _ Hn) as (c' & Hc' & Hex). assert (c' = c) as -> by congruence.
    by eapply accept_next.
  - intros. by left.
  - intros c0 w n' j e Hw; cbn; intros [(Hk & <-) | [_ Hk]]%lookup_insert_Some Hin; [| left; eauto]. cbn in Hin.
    apply elem_of_app in Hin as [Hin | Hin]; [left; exists n; by rewrite <- Hk |]. right. by eapply (He c0 w).
Qed.

(** A dispatch takes the first envelope of a wire. *)
Lemma step_entered_inv c0 w j e rest :
  sys_wires s !! c0 = Some w -> wire_endpoint w = endpoint -> wire_up w = e :: rest ->
  l = [(j, Entered e (Some (wire_peer w)))] -> ws' = <[c0 := set_up rest w]> (sys_wires s) -> system_inv after_move.
Proof.
  intros Hw He Hu Hx Heq.
  assert (Hup : forall c w e, sys_wires s !! c = Some w -> e ∈ wire_up w -> sent_up s c e) by apply Hinv.
  assert (Hdown : forall c w e, sys_wires s !! c = Some w -> e ∈ wire_down w -> sent_down after_move w e).
  { intros c1 v e1 Hv H1. eapply sent_down_later; [apply after_move_later | done | done |]. by eapply (si_down _ Hinv). }
  assert (Hin : forall y, y ∈ e :: rest -> y ∈ wire_up w) by (by rewrite Hu).
  apply after_move_inv; rewrite Heq.
  - by eapply same_wires_insert.
  - intros c1 v e1 [(<- & <-) | [_ Hv]]%lookup_insert_Some H1; [| by eapply Hup].
    apply (Hup c0 w); [done |]. apply Hin. by constructor.
  - intros c1 v e1 [(<- & <-) | [_ Hv]]%lookup_insert_Some H1; [by apply (Hdown c0 w) | by eapply Hdown].
  - intros c1 v j' e1 Hv Hve. rewrite Hx. intros [= _ -> Hpv]%list_elem_of_singleton.
    assert (c1 = c0) as ->.
    { destruct (decide (c1 = c0)) as [| Hne]; [done |]. rewrite lookup_insert_ne in Hv by done.
      eapply (si_peer _ Hinv); [exact Hv | exact Hw | congruence | congruence]. }
    apply (Hup c0 w); [done |]. apply Hin. by constructor.
Qed.

Lemma step_server_inv :
  effect_of (server_effect (sys_wires s) endpoint) (sys_wires s) l = Some ws' -> system_inv after_move.
Proof.
  intros Heff. pose proof after_move_later as Hl.
  assert (Hup : forall c w e, sys_wires s !! c = Some w -> e ∈ wire_up w -> sent_up s c e) by apply Hinv.
  assert (Hdown : forall c w e, sys_wires s !! c = Some w -> e ∈ wire_down w -> sent_down after_move w e).
  { intros c0 w e Hw He. eapply sent_down_later; [done | done | done |]. by eapply (si_down _ Hinv). }
  assert (Hquiet : ws' = sys_wires s ->
    (forall c w j e, sys_wires s !! c = Some w -> wire_endpoint w = endpoint -> (j, Entered e (Some (wire_peer w))) ∈ l -> sent_up s c e) ->
    system_inv after_move).
  { intros Heq He. apply after_move_inv; rewrite Heq; done. }
  destruct (accept_one _ _ _ _ Hm) as [Hx | (j & lab & Hx)]; rewrite Hx in Heff, Hquiet; cbn in Heff.
  { injection Heff as <-. apply Hquiet; [done |]. by intros ? ? ? ? _ _ ?%elem_of_nil. }
  assert (Hother : (forall e p, lab <> Entered e (Some p)) -> forall c w j' e, sys_wires s !! c = Some w ->
    wire_endpoint w = endpoint -> (j', Entered e (Some (wire_peer w))) ∈ [(j, lab)] -> sent_up s c e).
  { intros Hne c0 w j' e _ _ [= _ Heq]%list_elem_of_singleton. by destruct (Hne e (wire_peer w)). }
  destruct lab as [e [peer |] | | | | | peer e [] |]; cbn in Heff;
    try (injection Heff as <-; apply Hquiet; [done | by apply Hother]).
  - (* a dispatch starts *)
    destruct (find_wire endpoint peer (sys_wires s)) as [[c0 w] |] eqn:Hf.
    + apply find_wire_Some in Hf as (Hw & He & Hp). destruct (wire_up w) as [| e' rest] eqn:Hu; [done |].
      destruct (decide (e' = e)) as [-> |]; [| done]. injection Heff as <-. subst peer. by eapply (step_entered_inv c0 w j).
    + injection Heff as Heq. apply Hquiet; [done |].
      intros c1 v j' e1 Hv Hve [= _ -> Hpv]%list_elem_of_singleton. by destruct (find_wire_None _ _ _ _ _ Hf Hv Hve).
  - (* an envelope enters the wire *)
    destruct (find_wire endpoint peer (sys_wires s)) as [[c0 w] |] eqn:Hf.
    + apply find_wire_Some in Hf as (Hw & He & Hp). injection Heff as Heq. apply after_move_inv; rewrite <- Heq.
      * by eapply same_wires_insert.
      * intros c1 v e1 [(<- & <-) | [_ Hv]]%lookup_insert_Some H1; [by apply (Hup c0 w) | by eapply Hup].
      * intros c1 v e1 [(<- & <-) | [_ Hv]]%lookup_insert_Some H1; [| by eapply Hdown]. cbn in H1.
        apply elem_of_snoc in H1 as [H1 | ->]; [by apply (Hdown c0 w) |]. right. cbn. rewrite He, lookup_insert_eq.
        eexists _, j. split; [done |]. cbn. rewrite Hx, Hp. apply elem_of_snoc. by right.
      * intros c1 v j' e1 _ _. rewrite Hx. by intros [=]%list_elem_of_singleton.
    + injection Heff as Heq. apply Hquiet; [done | by apply Hother].
Qed.
End server_step.

(** *** Queues alone *)
Lemma step_queues_inv s c w v :
  system_inv s -> sys_wires s !! c = Some w -> wire_endpoint v = wire_endpoint w -> wire_peer v = wire_peer w ->
  wire_up v ⊆ wire_up w ->
  (forall e, e ∈ wire_down v -> e ∈ wire_down w \/ exists payload, env_kind e = Some (KEvent payload)) ->
  system_inv (MkSystem (sys_client s) (sys_trace s) (sys_nodes s) (<[c := v]> (sys_wires s))).
Proof.
  intros Hinv Hw Hep Hpe Hu Hd. set (s' := MkSystem _ _ _ _).
  assert (Hl : later s s') by (split; cbn; [done | eauto | done]).
  assert (Hws : sys_wires s' = <[c := v]> (sys_wires s)) by done.
  apply (system_inv_step s); try done.
  - by eapply same_wires_insert.
  - apply Hinv.
  - apply Hinv.
  - intros c' v' e; rewrite Hws; intros [(<- & <-) | [_ Hv]]%lookup_insert_Some He; eapply sent_up_later; try done; [| by eapply (si_up _ Hinv)].
    apply (si_up _ Hinv c w); [done | by apply Hu].
  - intros c' v' e; rewrite Hws; intros [(<- & <-) | [_ Hv]]%lookup_insert_Some He.
    + destruct (Hd e He) as [Hin | ?]; [| by left]. apply (sent_down_later s s' w); [done | done | done |].
      by eapply (si_down _ Hinv).
    + eapply sent_down_later; [done | done | done |]. by eapply (si_down _ Hinv).
  - intros. by left.
  - intros. left. eauto.
Qed.

Lemma system_initial_inv : system_inv system_initial.
Proof.
  split; cbn; try (by intros ? ? ?; rewrite lookup_empty); try (intros; set_solver).
  - constructor.
  - intros endpoint n (c & Hc & Hn)%lookup_fmap_Some. rewrite <- Hc. exists c. split; [done | constructor].
Qed.

Lemma system_step_inv s s' : system_inv s -> system_step s s' -> system_inv s'.
Proof.
  intros Hinv Hst.
  destruct Hst as [s0 x peer w' ws' | s0 endpoint c n l w' ws' | s0 c w sid payload Hw | s0 c w up down Hw Hu Hd].
  - by eapply step_client_inv.
  - by eapply (step_server_inv s0 endpoint c n).
  - apply (step_queues_inv s0 c w); try done.
    intros e [He | ->]%elem_of_snoc; [by left | right; by exists payload].
  - apply (step_queues_inv s0 c w); try done; cbn.
    + destruct Hu as [l ->]. set_solver.
    + destruct Hd as [l ->]. set_solver.
Qed.

(** ** The order of what a connection carries *)

(** What the transport took for connection [c], in order. *)
Definition offered (c : ConnRef) (tr : ctrace) : list Envelope :=
  omap (fun l => match l.2 with Offered c' e => if decide (c' = c) then Some e else None | _ => None end) tr.

Lemma offered_app c tr1 tr2 : offered c (tr1 ++ tr2) = offered c tr1 ++ offered c tr2.
Proof. apply omap_app. Qed.

(** What the Server has dispatched and what is under way, in order, is some of
    what was sent. *)
Definition wire_ok (nodes : gmap string node) (tr : ctrace) (c : ConnRef) (w : wire) : Prop :=
  forall n, nodes !! wire_endpoint w = Some n ->
    (entered_by (wire_peer w) (node_trace n)).*2 ++ wire_up w `sublist_of` offered c tr.

Definition order_inv (s : system) : Prop :=
  forall c w, sys_wires s !! c = Some w -> wire_ok (sys_nodes s) (sys_trace s) c w.

Lemma wire_ok_up nodes tr c w up :
  wire_ok nodes tr c w -> up `sublist_of` wire_up w -> wire_ok nodes tr c (set_up up w).
Proof. intros Hw Hu n Hn. etrans; [| exact (Hw n Hn)]. by apply sublist_app. Qed.

Lemma wire_ok_client peer nodes tr l c w : wire_ok nodes tr c w -> wire_ok (arrivals peer nodes l) (tr ++ l) c w.
Proof.
  intros Hw n Hn. rewrite offered_app. apply sublist_inserts_r.
  assert (Ht : exists n0, nodes !! wire_endpoint w = Some n0 /\ node_trace n = node_trace n0); [| destruct Ht as (n0 & Hn0 & ->); by apply Hw].
  destruct l as [| [j []] []]; cbn in Hn; try (by exists n).
  apply lookup_alter_Some in Hn as [(_ & n0 & Hn0 & ->) | [_ Hn0]]; [exists n0 | exists n]; done.
Qed.

Lemma step_client_order s x peer w' ws' :
  system_inv s -> order_inv s ->
  effect_of (client_effect s peer) (sys_wires s) (client_label (sys_client s) x) = Some ws' ->
  order_inv (MkSystem w' (sys_trace s ++ client_label (sys_client s) x)
               (arrivals peer (sys_nodes s) (client_label (sys_client s) x)) ws').
Proof.
  intros Hinv Ho Heff c0 w0; cbn [sys_wires sys_nodes sys_trace]; intros Hw0.
  assert (Hsame : sys_wires s !! c0 = Some w0 ->
    wire_ok (arrivals peer (sys_nodes s) (client_label (sys_client s) x)) (sys_trace s ++ client_label (sys_client s) x) c0 w0) by (intros; by apply wire_ok_client, Ho).
  destruct (client_label_one (sys_client s) x) as [Hx | (j & l & Hx)]; rewrite Hx in Heff, Hsame |- *; cbn in Heff.
  { injection Heff as <-. by apply Hsame. }
  destruct l as [sid | c endpoint | o | sid c o | c e | c e | ch | sid ch | ch item | ch item |]; cbn in Heff; try (injection Heff as <-; by apply Hsame).
  - destruct (sys_wires s !! c) as [|] eqn:Hnone; [done |].
    destruct (sys_nodes s !! endpoint) as [n |] eqn:Hn; [| done].
    destruct (find_wire endpoint peer (sys_wires s)); [done |].
    destruct (can_arrive (node_accept n) peer) eqn:Hcan; [| done]. injection Heff as <-.
    apply lookup_insert_Some in Hw0 as [(<- & <-) | [_ Hw0]]; [| by apply Hsame].
    intros n' Hn'. cbn in Hn'. rewrite lookup_alter_eq, Hn in Hn'. injection Hn' as <-.
    cbn [arrive_at node_trace wire_peer wire_up].
    assert (entered_by peer (node_trace n) = []) as ->; [| apply sublist_nil_l].
    destruct (entered_by peer (node_trace n)) as [| [j0 e0] l] eqn:He; [done |].
    destruct (si_node _ Hinv _ _ Hn) as (sc & _ & Hex). destruct (arriving_new _ _ _ j0 e0 Hex Hcan).
    apply entered_by_elem. rewrite He. by constructor.
  - destruct (sys_wires s !! c) as [w |] eqn:Hw; [| done]. injection Heff as <-.
    apply lookup_insert_Some in Hw0 as [(<- & <-) | [_ Hw0]]; [| by apply Hsame].
    intros n Hn. cbn. rewrite offered_app, app_assoc. cbn. rewrite decide_True by done. apply sublist_app; [exact (Ho c w Hw n Hn) | done].
  - destruct (sys_wires s !! c) as [w |] eqn:Hw; [| done]. cbn in Heff. destruct (wire_down w) as [| e' rest]; [done |].
    destruct (decide (e' = e)); [| done]. injection Heff as <-.
    apply lookup_insert_Some in Hw0 as [(<- & <-) | [_ Hw0]]; [| by apply Hsame].
    exact (wire_ok_client peer _ _ _ c w (Ho c w Hw)).
Qed.

(** A wire that a Server's step leaves alone, or takes an envelope down from. *)
Lemma wire_kept s endpoint c n l w' c0 v w0 :
  order_inv s -> sys_nodes s !! endpoint = Some n -> Accept.accept_step c (node_accept n) l w' ->
  sys_wires s !! c0 = Some v ->
  wire_endpoint w0 = wire_endpoint v -> wire_peer w0 = wire_peer v -> wire_up w0 = wire_up v ->
  (wire_endpoint v = endpoint -> forall j e, l <> [(j, Entered e (Some (wire_peer v)))]) ->
  wire_ok (<[endpoint := MkNode w' (node_trace n ++ l)]> (sys_nodes s)) (sys_trace s) c0 w0.
Proof.
  intros Ho Hn Hm Hv He Hpv Hup Hl n0. rewrite He, Hpv, Hup.
  intros [[Hep <-] | [_ Hn0]]%lookup_insert_Some; [subst endpoint | exact (Ho c0 v Hv n0 Hn0)].
  specialize (Hl eq_refl). cbn [node_trace].
  assert (entered_by (wire_peer v) l = []) as Hnil.
  { destruct (accept_one _ _ _ _ Hm) as [-> | (j & lab & ->)]; [done |]. cbn.
    destruct lab as [e [q |] | | | | | |]; try done. case_decide as Hq; [subst q; by destruct (Hl j e) | done]. }
  rewrite entered_by_app, Hnil, app_nil_r. exact (Ho c0 v Hv n Hn).
Qed.

Lemma step_server_order s endpoint c n l w' ws' :
  system_inv s -> order_inv s -> sys_nodes s !! endpoint = Some n ->
  Accept.accept_step c (node_accept n) l w' ->
  effect_of (server_effect (sys_wires s) endpoint) (sys_wires s) l = Some ws' ->
  order_inv (after_move s endpoint n l w' ws').
Proof.
  intros Hinv Ho Hn Hm Heff c0 w0; unfold after_move; cbn [sys_wires sys_nodes sys_trace]; intros Hw0.
  pose proof (fun v => wire_kept s endpoint c n l w' c0 v w0 Ho Hn Hm) as Hkeep.
  destruct (accept_one _ _ _ _ Hm) as [Hx | (j & lab & Hx)]; rewrite Hx in Heff; cbn in Heff.
  { injection Heff as <-. apply (Hkeep w0); try done. rewrite Hx. by intros. }
  assert (Hquiet : (forall e p, lab <> Entered e (Some p)) -> forall v, sys_wires s !! c0 = Some v ->
    wire_endpoint w0 = wire_endpoint v -> wire_peer w0 = wire_peer v -> wire_up w0 = wire_up v ->
    wire_ok (<[endpoint := MkNode w' (node_trace n ++ l)]> (sys_nodes s)) (sys_trace s) c0 w0).
  { intros Hne v Hv He Hpv Hup. apply (Hkeep v); try done. rewrite Hx. intros _ j' e [= _ Heq]. by destruct (Hne e (wire_peer v)). }
  destruct lab as [e [peer |] | | | | | peer e [] |]; cbn in Heff;
    try (injection Heff as <-; by apply (Hquiet ltac:(done) w0)).
  - destruct (find_wire endpoint peer (sys_wires s)) as [[c1 w1] |] eqn:Hf.
    + apply find_wire_Some in Hf as (Hw1 & He1 & Hp1).
      destruct (wire_up w1) as [| e' rest] eqn:Hu; [done |]. destruct (decide (e' = e)) as [-> |]; [| done].
      injection Heff as <-. apply lookup_insert_Some in Hw0 as [(<- & <-) | [Hne Hw0]].
      * intros n0 Hn0. cbn [set_up wire_endpoint wire_peer wire_up] in *. rewrite He1 in Hn0.
        rewrite lookup_insert_eq in Hn0. injection Hn0 as <-. cbn [node_trace].
        pose proof (Ho c1 w1 Hw1 n) as Hs. rewrite He1 in Hs. specialize (Hs Hn).
        rewrite entered_by_app, fmap_app, Hx. cbn. rewrite decide_True by done. cbn.
        rewrite <- app_assoc. cbn. by rewrite Hu in Hs.
      * apply (Hkeep w0); try done. intros Hep j' e' [= _ _ Hpq]%(eq_trans (eq_sym Hx)). apply Hne.
        eapply (si_peer _ Hinv); [exact Hw1 | exact Hw0 | congruence | congruence].
    + injection Heff as <-. apply (Hkeep w0); try done. intros Hep j' e' [= _ _ Hpq]%(eq_trans (eq_sym Hx)).
      by destruct (find_wire_None _ _ _ _ _ Hf Hw0 Hep).
  - destruct (find_wire endpoint peer (sys_wires s)) as [[c1 w1] |] eqn:Hf; [| injection Heff as <-; by apply (Hquiet ltac:(done) w0)].
    apply find_wire_Some in Hf as (Hw1 & _ & _). injection Heff as <-.
    apply lookup_insert_Some in Hw0 as [(<- & <-) | [_ Hw0]]; [by apply (Hquiet ltac:(done) w1) | by apply (Hquiet ltac:(done) w0)].
Qed.

Lemma system_step_order s s' : system_inv s -> order_inv s -> system_step s s' -> order_inv s'.
Proof.
  intros Hinv Ho Hst.
  destruct Hst as [s0 x peer w' ws' | s0 endpoint c n l w' ws' | s0 c w sid payload Hw | s0 c w up down Hw Hu Hd].
  - by eapply step_client_order.
  - by eapply (step_server_order s0 endpoint c n).
  - intros c0 w0; cbn [sys_wires sys_nodes sys_trace]. intros [(<- & <-) | [_ Hw0]]%lookup_insert_Some; [exact (Ho c w Hw) | by apply Ho].
  - intros c0 w0; cbn [sys_wires sys_nodes sys_trace]. intros [(<- & <-) | [_ Hw0]]%lookup_insert_Some; [| by apply Ho].
    apply (wire_ok_up _ _ c w up); [by apply Ho | destruct Hu as [l ->]; by apply sublist_inserts_r].
Qed.

Lemma system_reachable_inv s : system_reachable s -> system_inv s /\ order_inv s.
Proof.
  apply (rtc_preserved _ (fun s => system_inv s /\ order_inv s)).
  - intros s1 s2 [Hinv Ho] Hst. split; [by eapply system_step_inv | by eapply system_step_order].
  - split; [apply system_initial_inv | intros c w; cbn; by rewrite lookup_empty].
Qed.
End system.

(** ** Properties *)

(** The Actor [a] of the Server [n] has opened Session [sid] for the sender [peer]. *)
Definition actor_opened (n : node) (a : ActorAddress) (sid : SessionId) (peer : SenderId) : Prop :=
  exists j j' i o,
    (j, Registered a sid peer) ∈ node_trace n /\
    (j, Accepted a (SessionOpened sid o) i) ∈ node_trace n /\
    (j', Handled i (SessionOpened sid o) true) ∈ node_trace n.

Lemma opens_parse request a sid :
  opens request a sid ->
  env_kind request = Some KSessionOpen /\ env_session_id request = session_id_as_bytes sid /\
  a = MkActorAddress (env_actor_type request) (env_actor_id request).
Proof.
  intros [v Hp]. unfold parse_inbound in Hp. destruct (env_kind request) as [kind |]; [| done].
  destruct (session_id_from_bytes _) as [sid' |] eqn:Hs; [| done].
  destruct (actor_address_from_envelope _ _) as [a' |] eqn:Ha; [| done]. injection Hp as -> -> _ ->.
  apply session_id_from_bytes_Some in Hs as [<- _]. by apply actor_address_from_envelope_Some in Ha as [-> _].
Qed.

(** C4: when [Client::open] returns a Session, the Session is open.  Whatever the
    calls of the application, the Servers, other Clients, broken connections,
    shutdowns and fences do meanwhile, the Server at the other end of the
    Session's connection has bound the Session to the sender it answers that
    connection on (the peer of its wire), and the handler [on_session_opened] of the Actor the
    application named has run for the Session there and succeeded.  The Session
    ids the opens draw are assumed to differ (they are random UUIDs); the other
    hypotheses exclude counters of connections and of tasks that wrap. *)
Theorem session_returned_is_open (config : ClientConfig) (servers : gmap string ServerConfig) (s : system)
    (j : nat) (session : ClientSession)
    (Hr : system_reachable config servers s)
    (Hret : client_threads (sys_client s) !! j = Some (CCaller (Ret (COpened (Some (Ok session))))))
    (Hids : draws_differ (sys_trace s))
    (Hconns : (Z.of_nat (length (connections (client (sys_client s)))) <= U64_MAX + 1)%Z)
    (Htasks : forall endpoint n, sys_nodes s !! endpoint = Some n -> spawn_bound (server (node_world n))) :
  exists conn n w,
    connections (client (sys_client s)) !! session_connection session = Some conn /\
    sys_nodes s !! conn_endpoint conn = Some n /\
    sys_wires s !! session_connection session = Some w /\ wire_endpoint w = conn_endpoint conn /\
    actor_opened n (session_address session) (session_sid session) (wire_peer w).
Proof.
  destruct (system_reachable_inv _ _ _ Hr) as [Hinv _]. pose proof (client_execution_inv _ _ _ (si_client _ _ _ Hinv)) as Hct.
  destruct (returned_acknowledged _ _ Hct j session Hret Hconns) as (Ho & j1 & e & Hrec & Hack & Hsid).
  destruct (si_received _ _ _ Hinv _ _ _ Hrec) as (w & Hw & Hsent).
  destruct Hsent as [[payload Hk] | (n & j2 & Hn & Hem)].
  { unfold positive_ack in Hack. by rewrite Hk in Hack. }
  destruct (si_wire _ _ _ Hinv _ _ Hw) as [_ Hep]. unfold conn_endpoints in Hep.
  rewrite list_lookup_fmap in Hep. destruct (connections _ !! _) as [conn |] eqn:Hc; [| done]. injection Hep as Hep.
  destruct (si_node _ _ _ Hinv _ _ Hn) as (sc & _ & Hacc).
  pose proof (orderly_execution _ _ _ _ (ac_orderly _ _ _ (accept_account _ _ _ Hacc) 0%N)) as Hex. clear Hacc.
  apply list_elem_of_split in Hem as (tr1 & tr2 & Htr).
  rewrite Htr in Hex.
  destruct (execution_ack sc _ tr1 tr2 j2 _ e true Hex (Htasks _ _ Hn) Hack)
    as (a & sid & request & i & o & j3 & Hb & Hent & Hop & Hreg & Hacc & Hh).
  assert (sid = session_sid session) as ->.
  { apply session_id_from_bytes_Some in Hsid as [Hu _]. unfold session_id_as_bytes in Hb.
    destruct sid, (session_sid session); cbn in *; congruence. }
  rewrite <- Htr in Hent. destruct (si_entered _ _ _ Hinv _ _ _ _ _ Hw Hn Hent) as [j4 Hj4].
  destruct (opens_parse _ _ _ Hop) as (Hk & Hs & Ha).
  pose proof (one_open _ _ Hct _ _ _ _ _ _ Hids Ho Hj4 eq_refl Hk (eq_sym Hs)) as <-.
  assert (a = session_address session) as -> by (rewrite Ha; by destruct (session_address session)).
  exists conn, n, w. rewrite Hep. split_and!; [done.. |].
  exists j2, j3, i, o. rewrite Htr. split_and!; apply elem_of_app; by left.
Qed.

(** One Client opens a Session at the Server "n1". *)
Definition demo_servers : gmap string ServerConfig := {["n1" := demo_config]}.

Definition by_client : list client_action -> list system_action := map (fun x => SClient x 7).

Definition system_script : list system_action :=
  by_client (begin_open 0 ++ place 0 0 [demo_node "n1"] "n1" 7 ++ csteps 0 3 ++ [cstep 0 (CSent (Ok ()))]) ++
  map (SServer "n1") (accepting ++ map (via 0) open_script ++ [AReturn 0]) ++
  by_client ([CReceive 0 5; cstep 1 (CEnvelope (Some (envelope_opened_ack (session_id_as_bytes demo_sid) (Ok ()))))] ++
             csteps 1 2 ++ csteps 0 1).

Definition draws (tr : ctrace) : list (nat * SessionId) :=
  omap (fun l => match l.2 with Drawn sid => Some (l.1, sid) | _ => None end) tr.

Definition system_end (s : system) : bool :=
  ClientRace.opened (sys_client s) 0 && bool_decide (draws (sys_trace s) = [(0, demo_sid)])
  && bool_decide (length (connections (client (sys_client s))) = 1)
  && forallb (fun kn => (length (tasks (server (node_world kn.2))) <=? 5)%nat) (map_to_list (sys_nodes s)).

Definition system_ends : bool :=
  match system_run demo_client demo_servers (system_initial demo_servers) system_script with
  | Some s => system_end s
  | None => false
  end.

Lemma system_end_facts s :
  system_end s = true ->
  (exists session, client_threads (sys_client s) !! 0 = Some (CCaller (Ret (COpened (Some (Ok session))))) /\
     session_sid session = demo_sid) /\
  draws_differ (sys_trace s) /\ length (connections (client (sys_client s))) = 1 /\
  forall endpoint n, sys_nodes s !! endpoint = Some n -> spawn_bound (server (node_world n)).
Proof.
  unfold system_end. rewrite !andb_true_iff, !bool_decide_eq_true. intros [[[Ho Hd] Hl] Hn].
  split; [by apply opened_session |]. split; [| split; [done |]].
  - assert (H : forall j sid, (j, Drawn sid) ∈ sys_trace s -> j = 0).
    { intros j sid Hin. assert (Hin' : (j, sid) ∈ draws (sys_trace s)).
      { apply list_elem_of_omap. by exists (j, Drawn sid). }
      rewrite Hd in Hin'. by apply list_elem_of_singleton in Hin' as [= -> ->]. }
    intros j j' sid Hj%H Hj'%H. congruence.
  - intros endpoint n Hk. apply (proj1 (forallb_forall _ _)) with (x := (endpoint, n)) in Hn.
    + cbn in Hn. apply Nat.leb_le in Hn. unfold spawn_bound, U64_MAX. lia.
    + by apply list_elem_of_In, elem_of_map_to_list.
Qed.

Lemma system_ends_reaches : system_ends = true -> exists s, system_reachable demo_client demo_servers s /\ system_end s = true.
Proof.
  unfold system_ends. destruct (system_run _ _ _ _) as [s |] eqn:Hr; [| done]. intros He. exists s.
  split; [by eapply system_run_sound | done].
Qed.

Lemma session_returned_is_open_witness :
  exists s session, system_reachable demo_client demo_servers s /\ session_sid session = demo_sid /\
  exists conn n w,
    connections (client (sys_client s)) !! session_connection session = Some conn /\
    sys_nodes s !! conn_endpoint conn = Some n /\
    sys_wires s !! session_connection session = Some w /\ wire_endpoint w = conn_endpoint conn /\
    actor_opened n (session_address session) (session_sid session) (wire_peer w).
Proof.
  destruct (system_ends_reaches ltac:(vm_compute; reflexivity)) as (s & Hr & He).
  destruct (system_end_facts s He) as ((session & Hret & Hsid) & Hd & Hl & Hb).
  exists s, session. split; [exact Hr | split; [exact Hsid |]].
  apply (session_returned_is_open demo_client demo_servers s 0 session Hr Hret Hd); [rewrite Hl; vm_compute; discriminate | exact Hb].
Defined.

(** ** Actions arrive in order *)
Lemma actions_in_payloads sid l : (actions_in sid l).*2 = omap (action_for sid) l.*2.
Proof.
  induction l as [| [j e] l IH]; [done |]. unfold actions_in in *. cbn. destruct (action_for sid e); cbn; [by rewrite IH | exact IH].
Qed.

(** C5: the Actions of a Session are handled in the order in which they were
    sent, none twice.  The Actions that one activation of an Actor has handled
    for a Session are, in order, some of those that the transport took from the
    Client for the connection: concurrent sends, the tasks that dispatch for
    other Clients, broken connections that lose what is under way, closes, aborts
    and shutdowns may lose Actions, and reorder none.  That the Server dispatches
    the envelopes of a connection one after the other is what its connection task
    does ([Accept.conn_step]).  No other sender is assumed to
    have opened the Session, whose id is a random UUID, and the counter of tasks
    not to wrap. *)
Theorem session_actions_in_order (config : ClientConfig) (servers : gmap string ServerConfig) (s : system)
    (c : ConnRef) (w : wire) (n : node) (sid : SessionId) (i : TaskId)
    (Hr : system_reachable config servers s)
    (Hw : sys_wires s !! c = Some w) (Hn : sys_nodes s !! wire_endpoint w = Some n)
    (Htasks : spawn_bound (server (node_world n)))
    (Honly : only_peer (wire_peer w) sid (node_trace n)) :
  handled_actions sid i (node_trace n) `sublist_of` omap (action_for sid) (offered c (sys_trace s)).
Proof.
  destruct (system_reachable_inv _ _ _ Hr) as [Hinv Ho]. pose proof (Ho c w Hw n Hn) as Hs.
  destruct (si_node _ _ _ Hinv _ _ Hn) as (sc & _ & Hacc).
  pose proof (ac_orderly _ _ _ (accept_account _ _ _ Hacc) (wire_peer w)) as Hor.
  etrans; [by eapply handled_in_dispatch_order |]. rewrite actions_in_payloads. apply omap_sublist.
  etrans; [| exact Hs]. by apply sublist_inserts_r.
Qed.

(** The application sends two Actions through the Session; the Actor handles both. *)
Definition send_two_script : list system_action :=
  let s := MkSession demo_address demo_sid 0 0 in
  system_script ++
  by_client ([CSend true s "one"] ++ csteps 2 2 ++ [cstep 2 (CSent (Ok ()))] ++
             [CSend true s "two"] ++ csteps 3 2 ++ [cstep 3 (CSent (Ok ()))]) ++
  map (SServer "n1")
    ([AReceive 0 (envelope_action lobby demo_session "one")] ++ map ARun (steps 2 5) ++ [AReturn 0] ++
     [AReceive 0 (envelope_action lobby demo_session "two")] ++ map ARun (steps 3 5) ++ [AReturn 0] ++
     map ARun (steps 1 1 ++ [AStep 1 (HBool true)] ++ steps 1 1 ++ [AStep 1 (HBool true)])).

Definition registered_by (sid : SessionId) (tr : RuntimeTrace.trace) : list SenderId :=
  omap (fun l => match l.2 with Registered _ s p => if decide (s = sid) then Some p else None | _ => None end) tr.

(** The wire 0 leads to "n1", whose Actor has handled both; the Session was opened once. *)
Definition both_handled (s : system) : bool :=
  match sys_wires s !! 0, sys_nodes s !! "n1" with
  | Some w, Some n =>
      bool_decide (wire_endpoint w = "n1") && bool_decide (registered_by demo_sid (node_trace n) = [wire_peer w])
      && bool_decide (handled_actions demo_sid 0 (node_trace n) = ["one"; "two"])
      && (length (tasks (server (node_world n))) <=? 5)%nat
  | _, _ => false
  end.

Definition send_two_ends : bool :=
  match system_run demo_client demo_servers (system_initial demo_servers) send_two_script with
  | Some s => both_handled s
  | None => false
  end.

Lemma both_handled_facts s :
  both_handled s = true ->
  exists w n, sys_wires s !! 0 = Some w /\ sys_nodes s !! wire_endpoint w = Some n /\
    spawn_bound (server (node_world n)) /\ only_peer (wire_peer w) demo_sid (node_trace n) /\
    handled_actions demo_sid 0 (node_trace n) = ["one"; "two"].
Proof.
  unfold both_handled. destruct (sys_wires s !! 0) as [w |]; [| done]. destruct (sys_nodes s !! "n1") as [n |] eqn:Hn; [| done].
  rewrite !andb_true_iff, !bool_decide_eq_true. intros [[[He Hreg] Hh] Ht]. exists w, n. rewrite He.
  split_and!; [done | done | | | done].
  - apply Nat.leb_le in Ht. unfold spawn_bound, U64_MAX. lia.
  - intros j a c Hin. assert (Hc : c ∈ registered_by demo_sid (node_trace n)).
    { apply list_elem_of_omap. exists (j, Registered a demo_sid c). split; [done |]. cbn. by rewrite decide_True. }
    rewrite Hreg in Hc. by apply list_elem_of_singleton in Hc.
Qed.

Lemma send_two_reaches :
  send_two_ends = true -> exists s, system_reachable demo_client demo_servers s /\ both_handled s = true.
Proof.
  unfold send_two_ends. destruct (system_run _ _ _ _) as [s |] eqn:Hr; [| done]. intros He. exists s.
  split; [by eapply system_run_sound | done].
Qed.

Lemma session_actions_in_order_witness :
  exists s n, system_reachable demo_client demo_servers s /\
    handled_actions demo_sid 0 (node_trace n) = ["one"; "two"] /\
    handled_actions demo_sid 0 (node_trace n) `sublist_of` omap (action_for demo_sid) (offered 0 (sys_trace s)).
Proof.
  destruct (send_two_reaches ltac:(vm_compute; reflexivity)) as (s & Hr & He).
  destruct (both_handled_facts s He) as (w & n & Hw & Hn & Hb & Ho & Hh).
  exists s, n. split; [exact Hr | split; [exact Hh |]].
  exact (session_actions_in_order demo_client demo_servers s 0 w n demo_sid 0 Hr Hw Hn Hb Ho).
Defined.
