(* ===== verification/SystemEvents.v ===== *)
(** * The Events of a Session, from the Server to the application

    In the system of [System]: what the application takes from a Session are,
    in order, Events the Server put on the Session's connections. *)

From S2P Require Import Prelude Text Address Coordination Placement Transport Session Client ClientStep ClientRace ClientTrace ClientEvents ClientLoops.
From S2P Require Import Runtime RuntimeInv RuntimeActor RuntimeWorld RuntimeTrace RuntimeProps RuntimeOrder RuntimeActions AcceptTrace System.
From S2P Require Accept.

(** What was received on connection [c], in order. *)
Definition received_on (c : ConnRef) (tr : ctrace) : list Envelope :=
  omap (fun l => match l.2 with Received c' e => if decide (c' = c) then Some e else None | _ => None end) tr.

Lemma received_on_snoc c tr j l :
  received_on c (tr ++ [(j, l)]) =
  received_on c tr ++ match l with Received c' e => if decide (c' = c) then [e] else [] | _ => [] end.
Proof. unfold received_on. rewrite omap_app. f_equal. cbn. destruct l; try done. by case_decide. Qed.

Lemma received_by_on i c tr : (forall c' e, (i, Received c' e) ∈ tr -> c' = c) -> received_by i tr `sublist_of` received_on c tr.
Proof.
  induction tr as [| [j l] tr IH] using rev_ind; intros Hc; [done |].
  rewrite received_by_snoc, received_on_snoc. apply sublist_app; [apply IH; intros; by eapply Hc, in_snoc |].
  destruct l as [| | | | | c' e | | | | |]; try done. destruct (decide (j = i)) as [-> |]; [| apply sublist_nil_l].
  by rewrite decide_True by (eapply Hc; apply elem_of_snoc; by right).
Qed.

Section down.
Context (config : ClientConfig) (servers : gmap string ServerConfig).

(** What was received and what is under way are, in order, some of what the Server put on the wire. *)
Definition down_inv (s : system) : Prop :=
  forall c w, sys_wires s !! c = Some w -> received_on c (sys_trace s) ++ wire_down w `sublist_of` wire_log w.

(** A step of a Server only adds to the wires. *)
Lemma server_down s endpoint l ws' :
  down_inv s -> effect_of (server_effect (sys_wires s) endpoint) (sys_wires s) l = Some ws' ->
  forall c w, ws' !! c = Some w -> received_on c (sys_trace s) ++ wire_down w `sublist_of` wire_log w.
Proof.
  intros Hd Heff.
  assert (Hput : forall c w v, sys_wires s !! c = Some w ->
    wire_down v = wire_down w /\ wire_log v = wire_log w \/ (exists e, v = put_down e w) ->
    forall c' w', <[c := v]> (sys_wires s) !! c' = Some w' -> received_on c' (sys_trace s) ++ wire_down w' `sublist_of` wire_log w').
  { intros c w v Hw Hv c' w' [(<- & <-) | [_ Hw']]%lookup_insert_Some; [| by apply Hd].
    destruct Hv as [[-> ->] | [e ->]]; [by apply Hd |]. cbn. rewrite app_assoc. apply sublist_app; [by apply Hd | done]. }
  destruct l as [| [j lab] [|]]; cbn in Heff; [by injection Heff as <- | | done].
  destruct lab as [e [peer |] | | | | | peer e [] |]; cbn in Heff; try (by injection Heff as <-).
  - destruct (find_wire endpoint peer (sys_wires s)) as [[c w] |] eqn:Hf; [| by injection Heff as <-].
    apply find_wire_Some in Hf as (Hw & _ & _).
    destruct (wire_up w) as [| e' rest]; [done |]. destruct (decide (e' = e)); [| done]. injection Heff as <-.
    apply (Hput c w); [done | by left].
  - destruct (find_wire endpoint peer (sys_wires s)) as [[c w] |] eqn:Hf; [| by injection Heff as <-].
    apply find_wire_Some in Hf as (Hw & _ & _). injection Heff as <-. apply (Hput c w); [done | right; by exists e].
Qed.

Lemma client_down s peer j l ws' :
  system_inv config servers s -> down_inv s -> client_effect s peer l = Some ws' ->
  forall c w, ws' !! c = Some w -> received_on c (sys_trace s ++ [(j, l)]) ++ wire_down w `sublist_of` wire_log w.
Proof.
  intros Hinv Hd Heff c0 w0 Hw0.
  assert (Hsame : forall v, (forall e, l <> Received c0 e) -> sys_wires s !! c0 = Some v -> wire_down w0 = wire_down v ->
    wire_log w0 = wire_log v -> received_on c0 (sys_trace s ++ [(j, l)]) ++ wire_down w0 `sublist_of` wire_log w0).
  { intros v Hl Hv -> ->. rewrite received_on_snoc. destruct l; try (rewrite app_nil_r; by apply Hd).
    rewrite decide_False by congruence. rewrite app_nil_r. by apply Hd. }
  destruct l as [sid | c endpoint | o | sid c o | c e | c e | ch | sid ch | ch item | ch item |]; cbn in Heff;
    try (injection Heff as <-; by apply (Hsame w0)).
  - destruct (sys_wires s !! c) as [|] eqn:Hnone; [done |].
    destruct (sys_nodes s !! endpoint) as [n |] eqn:Hn; [| done].
    destruct (find_wire endpoint peer (sys_wires s)); [done |].
    destruct (can_arrive (node_accept n) peer); [| done]. injection Heff as <-.
    apply lookup_insert_Some in Hw0 as [(<- & <-) | [_ Hw0]]; [| by apply (Hsame w0)].
    rewrite received_on_snoc, !app_nil_r. cbn.
    assert (received_on c (sys_trace s) = []) as ->; [| done]. apply elem_of_nil_inv.
    intros e ([j' l'] & Hin & Hl)%list_elem_of_omap. destruct l'; try done. cbn in Hl. case_decide; [| done]. subst.
    destruct (si_received _ _ _ Hinv _ _ _ Hin) as (w & Hw & _). congruence.
  - destruct (sys_wires s !! c) as [w |] eqn:Hw; [| done]. injection Heff as <-.
    apply lookup_insert_Some in Hw0 as [(<- & <-) | [_ Hw0]]; [by apply (Hsame w) | by apply (Hsame w0)].
  - destruct (sys_wires s !! c) as [w |] eqn:Hw; [| done]. cbn in Heff. destruct (wire_down w) as [| e' rest] eqn:Hdn; [done |].
    destruct (decide (e' = e)) as [-> |]; [| done]. injection Heff as <-.
    apply lookup_insert_Some in Hw0 as [(<- & <-) | [Hne Hw0]]; [| by apply (Hsame w0); [congruence | ..]].
    rewrite received_on_snoc, decide_True by done. cbn. rewrite <- app_assoc. cbn. rewrite <- Hdn. by apply Hd.
Qed.

Lemma system_step_down s s' :
  system_inv config servers s -> down_inv s -> system_step config servers s s' -> down_inv s'.
Proof.
  intros Hinv Hd Hst.
  destruct Hst as [s0 x peer w' ws' _ Heff | s0 endpoint c n l w' ws' _ _ _ Heff | s0 c w sid payload Hw | s0 c w up down Hw Hu Hdn];
    intros c0 w0; cbn [sys_wires sys_nodes sys_trace].
  - destruct (client_label_one (sys_client s0) x) as [Hx | (j & l & Hx)]; rewrite Hx in Heff |- *.
    + injection Heff as <-. rewrite app_nil_r. apply Hd.
    + by eapply client_down.
  - by eapply server_down.
  - intros [(<- & <-) | [_ Hw0]]%lookup_insert_Some; [| by apply Hd]. cbn. rewrite app_assoc.
    apply sublist_app; [by apply Hd | done].
  - intros [(<- & <-) | [_ Hw0]]%lookup_insert_Some; [| by apply Hd]. cbn. etrans; [| by apply (Hd c w)].
    apply sublist_app; [done |]. destruct Hdn as [k ->]. by apply sublist_inserts_r.
Qed.

Lemma system_reachable_down s : system_reachable config servers s -> down_inv s.
Proof.
  intros Hr. apply (rtc_preserved (system_step config servers)
    (fun s => (system_inv config servers s /\ order_inv s) /\ down_inv s)) in Hr as [_ Hd]; [done | |].
  - intros s1 s2 [[Hinv Ho] Hd] Hst.
    split; [split; [by eapply system_step_inv | by eapply system_step_order] | by eapply system_step_down].
  - split; [split; [apply system_initial_inv | intros c w; cbn; by rewrite lookup_empty] | intros c w; cbn; by rewrite lookup_empty].
Qed.
End down.

(** What each receive loop has handed on to the application. *)
Lemma events_by_loop config servers s j session :
  system_reachable config servers s ->
  client_threads (sys_client s) !! j = Some (CCaller (Ret (COpened (Some (Ok session))))) ->
  exists D : list (nat * string),
    taken_events (session_channel session) (sys_trace s) = D.*2 /\
    forall i, tagged i D = [] \/ (received_by i (sys_trace s) <> [] /\
      exists c w, sys_wires s !! c = Some w /\ (forall c' e, (i, Received c' e) ∈ sys_trace s -> c' = c) /\
        tagged i D `sublist_of` omap (event_payload (session_sid session)) (wire_log w)).
Proof.
  intros Hr Hret.
  destruct (system_reachable_inv _ _ _ Hr) as [Hinv _]. pose proof (system_reachable_down _ _ _ Hr) as Hd.
  pose proof (client_execution_events _ _ _ (si_client _ _ _ Hinv)) as He.
  destruct (events_taken _ _ _ _ He Hret) as (D & HD & Hi). exists D. split; [done |]. intros i.
  destruct (Hi i) as (c & Hc & Hs). destruct (tagged i D) as [| p l]; [by left | right].
  destruct (received_by i (sys_trace s)) as [| e k] eqn:Hrec; [by apply sublist_nil_r in Hs |]. split; [done |].
  assert (Hin : e ∈ received_by i (sys_trace s)) by (rewrite Hrec; constructor).
  apply list_elem_of_omap in Hin as ([i' l'] & Hin & Hl). cbn in Hl. destruct l' as [| | | | | c' e' | | | | |]; try done.
  case_decide; [| done]. subst i'. assert (c' = c) as -> by (by eapply Hc).
  destruct (si_received _ _ _ Hinv _ _ _ Hin) as (w & Hw & _). exists c, w. split_and!; [done | exact Hc |].
  etrans; [exact Hs |]. apply omap_sublist. rewrite <- Hrec. etrans; [by apply received_by_on |].
  etrans; [| by apply (Hd c w)]. by apply sublist_inserts_r.
Qed.

(** ** Properties *)

(** The connection that task [i] receives on. *)
Definition receives_on (tr : ctrace) (i : nat) : ConnRef :=
  default 0 (head (omap (fun l => match l.2 with Received c _ => if decide (l.1 = i) then Some c else None | _ => None end) tr)).

Lemma receives_on_received tr i : received_by i tr <> [] -> exists e, (i, Received (receives_on tr i) e) ∈ tr.
Proof.
  unfold receives_on, received_by. induction tr as [| [j l] tr IH]; [done |]. cbn.
  assert (Hrest : forall b : bool, b = true -> received_by i tr <> [] ->
    exists e, (i, Received (default 0 (head (omap (fun l => match l.2 with Received c _ => if decide (l.1 = i) then Some c else None | _ => None end) tr))) e) ∈ (j, l) :: tr).
  { intros _ _ Hne. destruct (IH Hne) as [e He]. exists e. by constructor. }
  destruct l as [| | | | | c e | | | | |]; try by apply (Hrest true). destruct (decide (j = i)) as [-> |]; [| by apply (Hrest true)].
  intros _. exists e. cbn. constructor.
Qed.

Lemma tagged_elem i p D : (i, p) ∈ D -> tagged i D <> [].
Proof.
  intros Hin Hnil. assert (Hp : p ∈ tagged i D); [| rewrite Hnil in Hp; by apply elem_of_nil in Hp].
  apply list_elem_of_omap. exists (i, p). split; [done |]. cbn. by rewrite decide_True.
Qed.

(** Renamed one to one, what has a tag is what had it. *)
Lemma tagged_renamed f c i (D : list (nat * string)) :
  (forall i' p, (i', p) ∈ D -> f i' = c <-> i' = i) -> tagged c ((fun ip => (f ip.1, ip.2)) <$> D) = tagged i D.
Proof.
  unfold tagged. induction D as [| [i' p] D IH]; intros Hf; [done |]. cbn.
  rewrite IH by (intros; eapply Hf; by constructor). pose proof (Hf i' p ltac:(constructor)) as Heq.
  by repeat case_decide; tauto || done.
Qed.

(** C6: the Events of a Session reach the application in the order in which the
    Server sent them, none twice.  What the application has taken, with
    [Session::recv], from a Session that [open] returned is a sequence [D] of
    Events, each received on one connection; those of a connection are, in order
    and without repetition, some of the Events of that Session that the Server put
    on it, whichever tasks of the Client received them.  Other Sessions on the
    connection, sends, drops, full channels, broken connections that lose what is
    under way, aborted loops and shutdowns may lose Events; none reorders, repeats
    or misdirects one. *)
Theorem session_events_in_order (config : ClientConfig) (servers : gmap string ServerConfig) (s : system)
    (j : nat) (session : ClientSession)
    (Hr : system_reachable config servers s)
    (Hret : client_threads (sys_client s) !! j = Some (CCaller (Ret (COpened (Some (Ok session)))))) :
  exists D : list (ConnRef * string),
    taken_events (session_channel session) (sys_trace s) = D.*2 /\
    forall c, tagged c D = [] \/
      exists w, sys_wires s !! c = Some w /\
        tagged c D `sublist_of` omap (event_payload (session_sid session)) (wire_log w).
Proof.
  destruct (system_reachable_inv _ _ _ Hr) as [Hinv _].
  destruct (events_by_loop _ _ _ _ _ Hr Hret) as (D & HD & Hi).
  set (f := receives_on (sys_trace s)). exists ((fun ip => (f ip.1, ip.2)) <$> D). split.
  { rewrite HD, <- list_fmap_compose. done. }
  assert (Hf : forall i p, (i, p) ∈ D -> exists e, (i, Received (f i) e) ∈ sys_trace s).
  { intros i p Hin. destruct (Hi i) as [Hnil | (Hrec & _)]; [by destruct (tagged_elem _ _ _ Hin) | by apply receives_on_received]. }
  intros c. destruct (decide (Exists (fun ip => f ip.1 = c) D)) as [([i p] & Hin & Hc)%Exists_exists | Hno].
  - cbn in Hc. right. destruct (Hi i) as [Hnil | (_ & c' & w & Hw & Hall & Hsub)]; [by destruct (tagged_elem _ _ _ Hin) |].
    destruct (Hf i p Hin) as [e He]. assert (c' = c) as -> by (rewrite <- Hc; symmetry; by eapply Hall).
    exists w. split; [done |]. rewrite (tagged_renamed f c i); [done |]. intros i' p' Hin'.
    split; [| by intros ->]. intros Hc'. destruct (Hf i' p' Hin') as [e' He']. rewrite Hc' in He'. rewrite Hc in He.
    by eapply one_receiver; [apply (si_client _ _ _ Hinv) | |].
  - left. apply elem_of_nil_inv. intros q ([c0 p] & ([i p'] & [= -> ->] & Hin)%list_elem_of_fmap & Hq)%list_elem_of_omap.
    cbn in Hq. case_decide as Hc; [| done]. apply Hno, Exists_exists. by exists (i, p').
Qed.

(** The Actor sends two Events, between them one of another Session; the
    application takes both. *)
Definition one_event (sid : SessionId) (payload : string) (n : nat) : list system_action :=
  [SEvent 0 sid payload] ++ by_client ([cstep 1 (CEnvelope (Some (envelope_event sid payload)))] ++ csteps 1 n).

Definition events_script : list system_action :=
  system_script ++ one_event demo_sid "one" 3 ++ one_event demo_session2 "other" 1 ++
  one_event demo_sid "two" 3 ++ by_client [CRecv 0; CRecv 0].

Definition both_taken (s : system) : bool :=
  match client_threads (sys_client s) !! 0 with
  | Some (CCaller (Ret (COpened (Some (Ok session))))) =>
      bool_decide (taken_events (session_channel session) (sys_trace s) = ["one"; "two"])
  | _ => false
  end.

Definition events_end : bool :=
  match system_run demo_client demo_servers (system_initial demo_servers) events_script with
  | Some s => both_taken s
  | None => false
  end.

Lemma both_taken_facts s :
  both_taken s = true ->
  exists session, client_threads (sys_client s) !! 0 = Some (CCaller (Ret (COpened (Some (Ok session))))) /\
    taken_events (session_channel session) (sys_trace s) = ["one"; "two"].
Proof.
  unfold both_taken. destruct (client_threads (sys_client s) !! 0) as [[[[[[session | e] |] | r |] |] | t p] |]; try done.
  rewrite bool_decide_eq_true. eauto.
Qed.

Lemma events_end_reaches :
  events_end = true -> exists s, system_reachable demo_client demo_servers s /\ both_taken s = true.
Proof.
  unfold events_end. destruct (system_run _ _ _ _) as [s |] eqn:Hr; [| done]. intros He. exists s.
  split; [by eapply system_run_sound | done].
Qed.

Lemma session_events_in_order_witness :
  exists s session, system_reachable demo_client demo_servers s /\
    taken_events (session_channel session) (sys_trace s) = ["one"; "two"] /\
    exists D : list (ConnRef * string),
      taken_events (session_channel session) (sys_trace s) = D.*2 /\
      forall c, tagged c D = [] \/
        exists w, sys_wires s !! c = Some w /\
          tagged c D `sublist_of` omap (event_payload (session_sid session)) (wire_log w).
Proof.
  destruct (events_end_reaches ltac:(vm_compute; reflexivity)) as (s & Hr & He).
  destruct (both_taken_facts s He) as (session & Hret & Ht).
  exists s, session. split; [exact Hr | split; [exact Ht |]].
  exact (session_events_in_order demo_client demo_servers s 0 session Hr Hret).
Defined.
