(* ===== verification/Inmem.v ===== *)
(** * The in-memory transport

    Models [coactor/src/transport/inmem.rs]: logical forwarding of envelopes
    through bounded channels, with a registry of endpoints and of connections.
    Each operation is a function on the registry and the channels it made; its
    sender implements [TransportSender] of [Transport].  What it records of the
    envelopes is kept for the tests of the repository. *)

From S2P Require Import Prelude Text Address Transport.

Definition INMEM_CHANNEL_CAPACITY : nat := 1024.
Definition INMEM_ACCEPT_CAPACITY : nat := 32.

Abbreviation QueueRef := nat (only parsing).    (* an [mpsc] channel of envelopes *)
Abbreviation FlagRef := nat (only parsing).     (* the [closed] flag and watch of a connection *)
Abbreviation ListenerRef := nat (only parsing). (* an [mpsc] channel of accepted streams *)

Record RecordedEnvelope := MkRecordedEnvelope {
  recorded_connection_id : Z;
  recorded_session_id : string
}.

Record InmemTransportSender := MkInmemSender {
  queue : QueueRef;
  sender_connection_id : Z;
  record_envelopes : bool;
  closed_flag : FlagRef
}.

Record InmemTransportStream := MkInmemStream {
  stream_sender : InmemTransportSender;
  stream_receiver : QueueRef;
  stream_closed : FlagRef
}.

(** [InmemConnection]: its endpoint, and the flag and watch it shares. *)
Record InmemConnection := MkInmemConnection {
  inmem_endpoint : string;
  inmem_flag : FlagRef
}.

(** [InmemRegistry], with the channels, flags and watches made from it. *)
Record InmemRegistry := MkInmem {
  endpoints : gmap string ListenerRef;
  inmem_next_connection_id : Z;
  inmem_connections : gmap Z InmemConnection;
  envelopes : list RecordedEnvelope;
  listeners : list (channel InmemTransportStream);
  queues : list (channel Envelope);
  flags : gmap FlagRef bool;
  watches : gmap FlagRef bool;
  seen : gset QueueRef;                        (* streams whose [changed()] has returned *)
  next_flag : FlagRef
}.

Definition inmem_initial : InmemRegistry := MkInmem ∅ 0 ∅ [] [] [] ∅ ∅ ∅ 0.

Definition flag (w : InmemRegistry) (f : FlagRef) : bool := default false (flags w !! f).
Definition watch (w : InmemRegistry) (f : FlagRef) : bool := default false (watches w !! f).

Definition with_envelopes (w : InmemRegistry) x : InmemRegistry :=
  MkInmem (endpoints w) (inmem_next_connection_id w) (inmem_connections w) x (listeners w) (queues w)
    (flags w) (watches w) (seen w) (next_flag w).
Definition with_queues (w : InmemRegistry) x : InmemRegistry :=
  MkInmem (endpoints w) (inmem_next_connection_id w) (inmem_connections w) (envelopes w) (listeners w) x
    (flags w) (watches w) (seen w) (next_flag w).
Definition with_listeners (w : InmemRegistry) x y : InmemRegistry :=
  MkInmem x (inmem_next_connection_id w) (inmem_connections w) (envelopes w) y (queues w)
    (flags w) (watches w) (seen w) (next_flag w).
Definition with_flags (w : InmemRegistry) x y z : InmemRegistry :=
  MkInmem (endpoints w) (inmem_next_connection_id w) x (envelopes w) (listeners w) (queues w) y z (seen w) (next_flag w).

(** [InmemTransportSender::try_send] *)
Definition inmem_try_send (w : InmemRegistry) (s : InmemTransportSender) (e : Envelope)
    : result TransportError unit * InmemRegistry :=
  if flag w (closed_flag s) then (Err Closed, w) else
  let w := if record_envelopes s
           then with_envelopes w (envelopes w ++ [MkRecordedEnvelope (sender_connection_id s) (env_session_id e)])
           else w in
  match queues w !! queue s with
  | None => (Err Closed, w)
  | Some q => match channel_push INMEM_CHANNEL_CAPACITY e q with
              | Ok q => (Ok (), with_queues w (<[queue s := q]> (queues w)))
              | Err error => (Err error, w)
              end
  end.

(** [InmemTransportSender::close] *)
Definition inmem_close (w : InmemRegistry) (s : InmemTransportSender) : InmemRegistry :=
  let was := flag w (closed_flag s) in
  let w := with_flags w (inmem_connections w) (<[closed_flag s := true]> (flags w)) (watches w) in
  if was then w else
  match inmem_connections w !! sender_connection_id s with
  | None => w
  | Some c => with_flags w (delete (sender_connection_id s) (inmem_connections w))
                (<[inmem_flag c := true]> (flags w)) (<[inmem_flag c := true]> (watches w))
  end.

Definition with_seen (w : InmemRegistry) x : InmemRegistry :=
  MkInmem (endpoints w) (inmem_next_connection_id w) (inmem_connections w) (envelopes w) (listeners w) (queues w)
    (flags w) (watches w) x (next_flag w).

(** [InmemTransportStream::recv], when it may return: first the end of the
    stream if the connection was closed, whatever is still queued. *)
Definition inmem_recv (w : InmemRegistry) (s : InmemTransportStream) : option (option Envelope * InmemRegistry) :=
  if watch w (stream_closed s) && bool_decide (stream_receiver s ∉ seen w)
  then Some (None, with_seen w ({[stream_receiver s]} ∪ seen w)) else
  match queues w !! stream_receiver s with
  | Some (MkChannel (e :: es) d) =>
      Some (Some e, with_queues w (<[stream_receiver s := MkChannel es d]> (queues w)))
  | _ => None
  end.

(** Dropping a stream drops its receiver. *)
Definition inmem_drop_stream (w : InmemRegistry) (s : InmemTransportStream) : InmemRegistry :=
  with_queues w (alter (fun q => MkChannel [] true) (stream_receiver s) (queues w)).

(** [InmemTransport::listen]; the error carries no more than its kind here. *)
Definition inmem_listen (w : InmemRegistry) (advertised : string) : result TransportError ListenerRef * InmemRegistry :=
  let l := length (listeners w) in
  match endpoints w !! advertised with
  | None => (Ok l, with_listeners w (<[advertised := l]> (endpoints w)) (listeners w ++ [MkChannel [] false]))
  | Some _ =>
      (* the receiver just made is dropped with the error *)
      (Err BindFailed, with_listeners w (<[advertised := l]> (endpoints w)) (listeners w ++ [MkChannel [] true]))
  end.

(** [InmemTransportListener::shutdown] and [accept], when it may return: no
    stream once nothing in the registry can send one. *)
Definition inmem_listener_shutdown (w : InmemRegistry) (endpoint : string) : InmemRegistry :=
  with_listeners w (delete endpoint (endpoints w)) (listeners w).

Definition reachable_listener (w : InmemRegistry) (l : ListenerRef) : bool :=
  existsb (fun e => (e.2 =? l)%nat) (map_to_list (endpoints w)).

Definition inmem_accept (w : InmemRegistry) (l : ListenerRef) : option (option InmemTransportStream * InmemRegistry) :=
  match listeners w !! l with
  | Some (MkChannel (s :: ss) d) =>
      Some (Some s, with_listeners w (endpoints w) (<[l := MkChannel ss d]> (listeners w)))
  | Some (MkChannel [] _) => if reachable_listener w l then None else Some (None, w)
  | None => None
  end.

(** [InmemTransport::connect] *)
Definition inmem_connect (w : InmemRegistry) (endpoint : string)
    : result TransportError InmemTransportStream * InmemRegistry :=
  match endpoints w !! endpoint with
  | None => (Err ConnectFailed, w)
  | Some accepted =>
      let id := inmem_next_connection_id w in
      let f := next_flag w in
      let client_out := length (queues w) in
      let server_out := S (length (queues w)) in
      let server_stream := MkInmemStream (MkInmemSender server_out id false f) client_out f in
      let client_stream := MkInmemStream (MkInmemSender client_out id true f) server_out f in
      let w := MkInmem (endpoints w) ((id + 1) mod (U64_MAX + 1)) (<[id := MkInmemConnection endpoint f]> (inmem_connections w))
                 (envelopes w) (listeners w) (queues w ++ [MkChannel [] false; MkChannel [] false])
                 (<[f := false]> (flags w)) (<[f := false]> (watches w)) (seen w) (S f) in
      let refused := (Err Closed, with_flags w (delete id (inmem_connections w)) (<[f := true]> (flags w))
                                    (<[f := true]> (watches w))) in
      match listeners w !! accepted with
      | None => refused
      | Some l => match channel_push INMEM_ACCEPT_CAPACITY server_stream l with
                  | Ok l => (Ok client_stream, with_listeners w (endpoints w) (<[accepted := l]> (listeners w)))
                  | Err _ => refused
                  end
      end
  end.

(** *** What the tests ask of the registry *)

(** [connection_ids], in the order of the map's iteration *)
Definition connection_ids (w : InmemRegistry) (endpoint : string) : list Z :=
  omap (fun c => if bool_decide (inmem_endpoint c.2 = endpoint) then Some c.1 else None) (map_to_list (inmem_connections w)).

(** [Vec::dedup] *)
Fixpoint dedup (l : list Z) : list Z :=
  match l with
  | x :: l' => match l' with
               | y :: _ => if (x =? y)%Z then dedup l' else x :: dedup l'
               | [] => l
               end
  | [] => []
  end.

Definition session_connection_ids (w : InmemRegistry) (sid : SessionId) : list Z :=
  dedup (merge_sort Z.le
    (omap (fun r => if bool_decide (recorded_session_id r = session_id_as_bytes sid) then Some (recorded_connection_id r) else None)
       (envelopes w))).

Definition connection_session_counts (w : InmemRegistry) (endpoint : string) : list nat :=
  merge_sort Nat.le
    (map (fun id => size (list_to_set (C := gset string)
                            (recorded_session_id <$> filter (fun r => recorded_connection_id r = id) (envelopes w))))
       (connection_ids w endpoint)).

Definition close_connection (w : InmemRegistry) (id : Z) : InmemRegistry :=
  match inmem_connections w !! id with
  | None => w
  | Some c => with_flags w (delete id (inmem_connections w)) (<[inmem_flag c := true]> (flags w))
                (<[inmem_flag c := true]> (watches w))
  end.

(** A test that closes a connection does what a sender of it does. *)
Lemma close_connection_close w s c :
  inmem_connections w !! sender_connection_id s = Some c -> inmem_flag c = closed_flag s -> flag w (closed_flag s) = false ->
  close_connection w (sender_connection_id s) = inmem_close w s.
Proof. intros Hc Hf Hopen. unfold close_connection, inmem_close. rewrite Hopen. cbn. rewrite Hc, Hf. by rewrite insert_insert_eq. Qed.

Lemma dedup_elem x l : x ∈ dedup l <-> x ∈ l.
Proof.
  induction l as [| a [| b l] IH]; [done | done |]. change (dedup (a :: b :: l)) with (if (a =? b)%Z then dedup (b :: l) else a :: dedup (b :: l)).
  destruct (Z.eqb_spec a b) as [-> |]; rewrite ?elem_of_cons, IH, ?elem_of_cons; naive_solver.
Qed.

(** The connections of a Session are those its envelopes were recorded on. *)
Lemma session_connection_ids_elem w sid id :
  id ∈ session_connection_ids w sid <->
  exists r, r ∈ envelopes w /\ recorded_session_id r = session_id_as_bytes sid /\ recorded_connection_id r = id.
Proof.
  unfold session_connection_ids. rewrite dedup_elem, (merge_sort_Permutation Z.le), list_elem_of_omap. split.
  - intros (r & Hr & Hid). case_bool_decide; [| done]. injection Hid as <-. eauto.
  - intros (r & Hr & Hs & <-). exists r. by rewrite bool_decide_eq_true_2.
Qed.

(** ** The interface *)
Lemma inmem_try_send_flags w s e f : flag (inmem_try_send w s e).2 f = flag w f.
Proof.
  unfold inmem_try_send. destruct (flag w (closed_flag s)); [done |].
  destruct (record_envelopes s); cbn; (destruct (queues w !! queue s) as [q |]; [| done]);
    by destruct (channel_push _ _ _).
Qed.

Lemma inmem_close_flags w s f : flag (inmem_close w s) f = true <-> f = closed_flag s \/ flag w f = true \/
  (flag w (closed_flag s) = false /\ exists c, inmem_connections w !! sender_connection_id s = Some c /\ inmem_flag c = f).
Proof.
  unfold inmem_close, flag. destruct (default false (flags w !! closed_flag s)) eqn:Hs; cbn.
  - destruct (decide (f = closed_flag s)) as [-> |]; [rewrite lookup_insert_eq | rewrite lookup_insert_ne by done]; naive_solver.
  - destruct (inmem_connections w !! sender_connection_id s) as [c |]; cbn.
    + destruct (decide (f = inmem_flag c)) as [-> |]; [rewrite lookup_insert_eq; naive_solver | rewrite lookup_insert_ne by done].
      destruct (decide (f = closed_flag s)) as [-> |]; [rewrite lookup_insert_eq | rewrite lookup_insert_ne by done]; naive_solver.
    + destruct (decide (f = closed_flag s)) as [-> |]; [rewrite lookup_insert_eq | rewrite lookup_insert_ne by done]; naive_solver.
Qed.

#[export] Instance inmem_sender : TransportSender InmemRegistry InmemTransportSender.
Proof.
  refine {| try_send := inmem_try_send; close := inmem_close; is_closed w s := flag w (closed_flag s) |}.
  - intros w s. apply inmem_close_flags. by left.
  - intros w s s' H. apply inmem_close_flags. by right; left.
  - intros w s e H. unfold inmem_try_send. by rewrite H.
  - intros w s e s' H. by rewrite inmem_try_send_flags.
Defined.

(** ** A connection as two queues *)
Inductive wire_op :=
| ClientSends (e : Envelope)
| ServerReceives
| ServerSends (e : Envelope)
| ClientReceives
| CloseWire.

Record wire := MkWire {
  wire_world : InmemRegistry;
  accepted_up : list Envelope;                 (* accepted from the Client *)
  received_up : list Envelope;                 (* received by the Server *)
  accepted_down : list Envelope;
  received_down : list Envelope
}.

Section wire.
Context (client server : InmemTransportStream).

Definition wire_step (w : wire) (op : wire_op) : wire :=
  let '(MkWire r au ru ad rd) := w in
  match op with
  | ClientSends e =>
      let '(x, r) := inmem_try_send r (stream_sender client) e in
      MkWire r (if is_ok x then au ++ [e] else au) ru ad rd
  | ServerSends e =>
      let '(x, r) := inmem_try_send r (stream_sender server) e in
      MkWire r au ru (if is_ok x then ad ++ [e] else ad) rd
  | ServerReceives =>
      match inmem_recv r server with
      | Some (Some e, r) => MkWire r au (ru ++ [e]) ad rd
      | Some (None, r) => MkWire r au ru ad rd
      | None => w
      end
  | ClientReceives =>
      match inmem_recv r client with
      | Some (Some e, r) => MkWire r au ru ad (rd ++ [e])
      | Some (None, r) => MkWire r au ru ad rd
      | None => w
      end
  | CloseWire => MkWire (inmem_close r (stream_sender client)) au ru ad rd
  end.

Definition wire_run (w : InmemRegistry) (ops : list wire_op) : wire := foldl wire_step (MkWire w [] [] [] []) ops.

(** The two ends share two queues, one per direction. *)
Definition paired : Prop :=
  stream_receiver server = queue (stream_sender client) /\
  stream_receiver client = queue (stream_sender server) /\
  queue (stream_sender client) <> queue (stream_sender server).

Definition holds (r : InmemRegistry) (q : QueueRef) (l : list Envelope) : Prop :=
  queues r !! q = Some (MkChannel l false).

Definition wire_inv (w : wire) : Prop := exists up down,
  holds (wire_world w) (queue (stream_sender client)) up /\
  holds (wire_world w) (queue (stream_sender server)) down /\
  accepted_up w = received_up w ++ up /\ accepted_down w = received_down w ++ down /\
  (length up <= INMEM_CHANNEL_CAPACITY)%nat /\ (length down <= INMEM_CHANNEL_CAPACITY)%nat.

Lemma try_send_holds r s e q l l' :
  holds r (queue s) l -> holds r q l' -> queue s <> q -> length l <= INMEM_CHANNEL_CAPACITY ->
  let '(x, r') := inmem_try_send r s e in
  holds r' q l' /\ exists k, holds r' (queue s) k /\ k = (if is_ok x then l ++ [e] else l) /\
  length k <= INMEM_CHANNEL_CAPACITY.
Proof.
  unfold holds, inmem_try_send. intros Hs Hq Hne Hlen. destruct (flag r (closed_flag s)); [eauto |].
  assert (Hw : forall r1, queues r1 = queues r ->
    let '(x, r') := match queues r1 !! queue s with
      | None => (Err Closed, r1)
      | Some c => match channel_push INMEM_CHANNEL_CAPACITY e c with
                  | Ok c => (Ok (), with_queues r1 (<[queue s := c]> (queues r1)))
                  | Err error => (Err error, r1)
                  end
      end in
    queues r' !! q = Some (MkChannel l' false) /\ exists k, queues r' !! queue s = Some (MkChannel k false) /\
    k = (if is_ok x then l ++ [e] else l) /\ length k <= INMEM_CHANNEL_CAPACITY).
  { intros r1 Hr1. rewrite Hr1, Hs. unfold channel_push. cbn [dropped items].
    destruct (Nat.ltb_spec (length l) INMEM_CHANNEL_CAPACITY); cbn [is_ok queues with_queues].
    - split; [by rewrite list_lookup_insert_ne |]. eexists. split; [| split; [done |]].
      + rewrite list_lookup_insert_eq; [done |]. by eapply lookup_lt_Some.
      + rewrite length_app. cbn [length]. lia.
    - rewrite Hr1. eauto. }
  destruct (record_envelopes s); by apply Hw.
Qed.

Lemma inmem_close_queues r s : queues (inmem_close r s) = queues r.
Proof. unfold inmem_close. destruct (flag r _); [done |]. by destruct (inmem_connections _ !! _). Qed.

Lemma recv_holds r st p q l l' :
  stream_receiver st = p -> holds r p l -> holds r q l' -> p <> q ->
  match inmem_recv r st with
  | Some (Some e, r') => exists k, l = e :: k /\ holds r' p k /\ holds r' q l'
  | Some (None, r') => holds r' p l /\ holds r' q l'
  | None => True
  end.
Proof.
  unfold holds, inmem_recv. intros <- Hs Hq Hne. destruct (watch _ _ && _); [done |]. rewrite Hs.
  destruct l as [| e k]; [done |]. cbn. exists k. split; [done |].
  rewrite list_lookup_insert_eq by (by eapply lookup_lt_Some). by rewrite list_lookup_insert_ne.
Qed.

Lemma wire_step_inv w op : paired -> wire_inv w -> wire_inv (wire_step w op).
Proof.
  intros (Hsr & Hcr & Hne) (up & down & Hu & Hd & Hau & Had & Hlu & Hld). destruct w as [r au ru ad rd]. cbn in *.
  destruct op; cbn [wire_step].
  - pose proof (try_send_holds r (stream_sender client) e _ _ _ Hu Hd Hne Hlu) as Hs.
    destruct (inmem_try_send r (stream_sender client) e) as [x r']. destruct Hs as (Hd' & k & Hk & -> & Hlk).
    eexists _, _. cbn. split_and!; try done. rewrite Hau. destruct (is_ok x); [by rewrite app_assoc | done].
  - pose proof (recv_holds r server _ _ _ _ Hsr Hu Hd Hne) as Hs.
    destruct (inmem_recv r server) as [[[e |] r'] |]; [| |by exists up, down].
    + destruct Hs as (k & -> & Hk & Hd'). exists k, down. cbn in *. split_and!; try done; [| lia].
      by rewrite Hau, <- app_assoc.
    + destruct Hs. by exists up, down.
  - pose proof (try_send_holds r (stream_sender server) e _ _ _ Hd Hu (not_eq_sym Hne) Hld) as Hs.
    destruct (inmem_try_send r (stream_sender server) e) as [x r']. destruct Hs as (Hu' & k & Hk & -> & Hlk).
    eexists _, _. cbn. split_and!; try done. rewrite Had. destruct (is_ok x); [by rewrite app_assoc | done].
  - pose proof (recv_holds r client _ _ _ _ Hcr Hd Hu (not_eq_sym Hne)) as Hs.
    destruct (inmem_recv r client) as [[[e |] r'] |]; [| |by exists up, down].
    + destruct Hs as (k & -> & Hk & Hu'). exists up, k. cbn in *. split_and!; try done; [| lia].
      by rewrite Had, <- app_assoc.
    + destruct Hs. by exists up, down.
  - exists up, down. cbn. unfold holds in *. rewrite inmem_close_queues. done.
Qed.
End wire.

(** Nothing but a close ends a connection. *)
Definition open_wire (client server : InmemTransportStream) (w : wire) : Prop :=
  forall s, s = client \/ s = server ->
    flag (wire_world w) (closed_flag (stream_sender s)) = false /\ watch (wire_world w) (stream_closed s) = false.

Lemma inmem_try_send_watches w s e f : watch (inmem_try_send w s e).2 f = watch w f.
Proof.
  unfold inmem_try_send. destruct (flag w (closed_flag s)); [done |].
  destruct (record_envelopes s); cbn; (destruct (queues w !! queue s) as [q |]; [| done]);
    by destruct (channel_push _ _ _).
Qed.

Lemma inmem_recv_flags w st f :
  match inmem_recv w st with Some (_, w') => flag w' f = flag w f /\ watch w' f = watch w f | None => True end.
Proof.
  unfold inmem_recv. destruct (_ && _); [done |]. by destruct (queues w !! stream_receiver st) as [[[] ?] |].
Qed.

Lemma wire_step_open client server w op :
  op <> CloseWire -> open_wire client server w -> open_wire client server (wire_step client server w op).
Proof.
  intros Hop Hw s Hs. destruct w as [r au ru ad rd]. specialize (Hw s Hs). cbn in Hw.
  assert (Hsend : forall t e, flag (inmem_try_send r t e).2 (closed_flag (stream_sender s)) = false /\
                              watch (inmem_try_send r t e).2 (stream_closed s) = false)
    by (intros; by rewrite inmem_try_send_flags, inmem_try_send_watches).
  assert (Hrecv : forall t, match inmem_recv r t with
      | Some (_, r') => flag r' (closed_flag (stream_sender s)) = false /\ watch r' (stream_closed s) = false
      | None => True end).
  { intros t. pose proof (inmem_recv_flags r t) as Ht. destruct (inmem_recv r t) as [[x r'] |]; [| done].
    by rewrite (proj1 (Ht _)), (proj2 (Ht _)). }
  destruct op; cbn [wire_step]; try done.
  - specialize (Hsend (stream_sender client) e). by destruct (inmem_try_send _ _ _).
  - specialize (Hrecv server). by destruct (inmem_recv r server) as [[[] ?] |].
  - specialize (Hsend (stream_sender server) e). by destruct (inmem_try_send _ _ _).
  - specialize (Hrecv client). by destruct (inmem_recv r client) as [[[] ?] |].
Qed.

Lemma wire_fold client server (I : wire -> Prop) (allowed : wire_op -> Prop) ops w :
  (forall op w, allowed op -> I w -> I (wire_step client server w op)) -> I w -> Forall allowed ops ->
  I (foldl (wire_step client server) w ops).
Proof. intros Hstep. revert w. induction ops; cbn; intros w HI Hf; [done |]. inversion Hf. eauto. Qed.

Lemma try_send_accepts r s e l :
  holds r (queue s) l -> flag r (closed_flag s) = false -> length l < INMEM_CHANNEL_CAPACITY ->
  (inmem_try_send r s e).1 = Ok ().
Proof.
  unfold holds, inmem_try_send. intros Hs -> Hl. assert (Hp : channel_push INMEM_CHANNEL_CAPACITY e (MkChannel l false)
    = Ok (MkChannel (l ++ [e]) false)).
  { unfold channel_push. cbn [dropped items]. by destruct (Nat.ltb_spec (length l) INMEM_CHANNEL_CAPACITY); [| lia]. }
  destruct (record_envelopes s); cbn [queues with_envelopes]; by rewrite Hs, Hp.
Qed.

Lemma recv_next r st l :
  holds r (stream_receiver st) l -> watch r (stream_closed st) = false ->
  fst <$> inmem_recv r st = Some <$> head l.
Proof. unfold holds, inmem_recv. intros Hs ->. cbn. rewrite Hs. by destruct l. Qed.

(** What [connect] sets up. *)
Lemma connect_pairs r endpoint client r' :
  inmem_connect r endpoint = (Ok client, r') ->
  exists server l accepted,
    endpoints r' !! endpoint = Some l /\ listeners r' !! l = Some (MkChannel (accepted ++ [server]) false) /\
    paired client server /\ wire_inv client server (MkWire r' [] [] [] []) /\
    open_wire client server (MkWire r' [] [] [] []).
Proof.
  unfold inmem_connect. destruct (endpoints r !! endpoint) as [l |] eqn:Hl; [| done].
  cbn [listeners]. destruct (listeners r !! l) as [c |] eqn:Hc; [| done].
  unfold channel_push. destruct (dropped c) eqn:Hd; [done |]. destruct (_ <? _); [| done]. intros [= <- <-].
  eexists (MkInmemStream (MkInmemSender _ _ _ _) _ _), l, (items c). cbn [with_listeners endpoints listeners].
  split_and!; [done | apply list_lookup_insert_eq; by eapply lookup_lt_Some | by split_and!; cbn; [.. | lia] | |].
  - exists [], []. unfold holds. cbn. split_and!; try done; try (unfold INMEM_CHANNEL_CAPACITY; lia).
    + rewrite lookup_app_r by done. by rewrite Nat.sub_diag.
    + rewrite lookup_app_r by lia. by replace (S _ - _) with 1 by lia.
  - intros s [-> | ->]; unfold flag, watch; cbn; by rewrite !lookup_insert_eq.
Qed.

(** ** Properties *)

(** The in-memory transport is a faithful wire: a [connect] hands its listener
    a stream that is paired with the Client's, and then, whatever the two ends do,
    what each end receives is what the other had accepted, in order and without
    loss or duplication; until the connection is closed an envelope is accepted
    unless 1024 are waiting, and a stream with something waiting returns it. *)
Theorem inmem_connection_forwards r endpoint client r' (Hconn : inmem_connect r endpoint = (Ok client, r')) :
  exists server l accepted,
    endpoints r' !! endpoint = Some l /\ listeners r' !! l = Some (MkChannel (accepted ++ [server]) false) /\
    forall ops, let w := wire_run client server r' ops in
      received_up w `prefix_of` accepted_up w /\ received_down w `prefix_of` accepted_down w /\
      (CloseWire ∉ ops ->
       (length (accepted_up w) < INMEM_CHANNEL_CAPACITY + length (received_up w) ->
        forall e, (inmem_try_send (wire_world w) (stream_sender client) e).1 = Ok ()) /\
       (length (accepted_down w) < INMEM_CHANNEL_CAPACITY + length (received_down w) ->
        forall e, (inmem_try_send (wire_world w) (stream_sender server) e).1 = Ok ()) /\
       fst <$> inmem_recv (wire_world w) server = Some <$> (accepted_up w !! length (received_up w)) /\
       fst <$> inmem_recv (wire_world w) client = Some <$> (accepted_down w !! length (received_down w))).
Proof.
  destruct (connect_pairs _ _ _ _ Hconn) as (server & l & accepted & He & Hl & Hp & Hinv & Hopen).
  exists server, l, accepted. split; [done |]. split; [done |]. intros ops w.
  assert (Hw : wire_inv client server w).
  { apply (wire_fold _ _ _ (fun _ => True)); [intros; by apply wire_step_inv | done | by apply Forall_true]. }
  destruct Hw as (up & down & Hu & Hd & Hau & Had & _). rewrite Hau, Had.
  split; [by exists up |]. split; [by exists down |]. intros Hnc.
  assert (Hw : open_wire client server w).
  { apply (wire_fold _ _ _ (fun op => op <> CloseWire)); [intros; by apply wire_step_open | done |].
    apply Forall_forall. by intros op Hop ->. }
  destruct (Hw client (or_introl eq_refl)) as [Hcf Hcw]. destruct (Hw server (or_intror eq_refl)) as [Hsf Hsw].
  destruct Hp as (Hsr & Hcr & _).
  split_and!.
  - intros Hlen e. rewrite length_app in Hlen. eapply try_send_accepts; [done | done | lia].
  - intros Hlen e. rewrite length_app in Hlen. eapply try_send_accepts; [done | done | lia].
  - rewrite (recv_next _ server up); [| by rewrite Hsr | done]. rewrite lookup_app_r, Nat.sub_diag by done. by destruct up.
  - rewrite (recv_next _ client down); [| by rewrite Hcr | done]. rewrite lookup_app_r, Nat.sub_diag by done. by destruct down.
Qed.

(** A listener on ["server"], and a Client connected to it. *)
Definition demo_wire : result TransportError InmemTransportStream * InmemRegistry :=
  inmem_connect (inmem_listen inmem_initial "server").2 "server".

Lemma inmem_connection_forwards_witness :
  exists client r', demo_wire = (Ok client, r') /\ exists server l,
    endpoints r' !! "server" = Some l /\
    received_up (wire_run client server r' []) `prefix_of` accepted_up (wire_run client server r' []).
Proof.
  eexists _, _. split; [reflexivity |].
  edestruct (inmem_connection_forwards (inmem_listen inmem_initial "server").2 "server")
    as (server & l & accepted & He & _ & Hops); [reflexivity |].
  exists server, l. split; [exact He |]. exact (proj1 (Hops [])).
Defined.

(** A sender that was closed refuses from then on, whatever is sent and
    closed afterwards on it and on others: for any transport that implements the
    sender interface, the in-memory one among them. *)
Lemma closed_sender_refuses {W S} `{TransportSender W S} (w : W) (s : S) (ops : list (S * option Envelope)) (e : Envelope) :
  let act w op := match op.2 with Some e => (try_send w op.1 e).2 | None => close w op.1 end in
  (try_send (foldl act (close w s) ops) s e).1 = Err Closed.
Proof.
  intros act. apply try_send_closed. pose proof (close_closes w s) as Hc. revert Hc. generalize (close w s).
  induction ops as [| [s' [e' |]] ops IH]; intros w' Hc; cbn; [done | |]; apply IH.
  - by apply try_send_keeps_closed.
  - by apply close_monotone.
Qed.

(** A second [listen] on an endpoint fails, and takes the endpoint from the
    first listener all the same: it was neither shut down nor dropped, but it will
    accept nothing more, and connects to the endpoint are refused. *)
Theorem failed_listen_breaks_endpoint r endpoint l r1 (Hl : inmem_listen r endpoint = (Ok l, r1)) :
  exists r2, inmem_listen r1 endpoint = (Err BindFailed, r2) /\
    (inmem_connect r2 endpoint).1 = Err Closed /\
    ((forall e, e <> endpoint -> endpoints r !! e <> Some l) -> fst <$> inmem_accept r2 l = Some None).
Proof.
  revert Hl. unfold inmem_listen. destruct (endpoints r !! endpoint) eqn:He; [done |]. intros [= <- <-].
  cbn [with_listeners endpoints listeners]. rewrite lookup_insert_eq. eexists. split; [done |]. split.
  - unfold inmem_connect. cbn [with_listeners endpoints listeners]. rewrite lookup_insert_eq, lookup_app_r by lia.
    by rewrite Nat.sub_diag.
  - intros Hfresh. unfold inmem_accept. cbn [with_listeners endpoints listeners].
    rewrite lookup_app_l by (rewrite length_app; cbn; lia). rewrite lookup_app_r, Nat.sub_diag by done. cbn.
    unfold reachable_listener. cbn [with_listeners endpoints]. destruct (existsb _ _) eqn:Hex; [| done].
    apply existsb_exists in Hex as ([e l'] & Hin & Heq%Nat.eqb_eq). cbn in Heq. subst l'.
    apply list_elem_of_In, elem_of_map_to_list in Hin. rewrite insert_insert_eq in Hin.
    apply lookup_insert_Some in Hin as [[_ Hl] | [Hne Hl]]; [rewrite length_app in Hl; cbn in Hl; lia |].
    by destruct (Hfresh e (not_eq_sym Hne)).
Qed.

Lemma failed_listen_breaks_endpoint_witness :
  (inmem_listen (inmem_listen inmem_initial "server").2 "server").1 = Err BindFailed /\
  exists r2, (inmem_connect r2 "server").1 = Err Closed /\ fst <$> inmem_accept r2 0 = Some None.
Proof.
  destruct (failed_listen_breaks_endpoint inmem_initial "server" 0 (inmem_listen inmem_initial "server").2 eq_refl)
    as (r2 & Hl & Hc & Ha).
  split; [exact (f_equal fst Hl) |]. exists r2. split; [exact Hc |]. apply Ha. intros e _. cbn [endpoints inmem_initial]. by rewrite lookup_empty.
Defined.
