(* ===== verification/Grpc.v ===== *)
(** * The gRPC transport

    Models [coactor/src/transport/grpc.rs]: the sender and the stream of a
    connection, the service that accepts streams, the listener and [connect].
    [tonic] is not part of the program: it appears as the replies to the effects
    of [grpc_connect], and as the steps that move envelopes from the outbound
    channel of one end into the inbound stream of the other, in order, and that
    may fail a stream at any time, as gRPC documents of a stream. *)

From S2P Require Import Prelude Text Address Transport.

Definition TRANSPORT_CHANNEL_CAPACITY : nat := 1024.

(** The [mpsc::channel(1)] of [exchange] and the [mpsc::channel(32)] of [listen]. *)
Definition EXCHANGE_OUTBOUND_CAPACITY : nat := 1.
Definition ACCEPT_BACKLOG : nat := 32.

Abbreviation OutRef := nat (only parsing).      (* an [mpsc] channel whose receiver tonic polls *)
Abbreviation PipeRef := nat (only parsing).     (* one direction of an HTTP/2 stream *)
Abbreviation SenderRef := nat (only parsing).   (* an [Arc<GrpcTransportSender>] *)
Abbreviation ListenRef := nat (only parsing).

Record outbound := MkOutbound {
  capacity : nat;
  out_channel : channel Envelope
}.

(** What has arrived and is not read yet; [finished]: the direction ended,
    cleanly or with a status. *)
Record pipe := MkPipe {
  arriving : list Envelope;
  finished : option (result unit unit)
}.

Record GrpcTransportStream := MkGrpcStream {
  stream_sender : SenderRef;
  inbound : PipeRef
}.

(** [senders]: the [Mutex<Option<mpsc::Sender>>] of each [GrpcTransportSender]. *)
Record grpc_world := MkGrpc {
  outbounds : list outbound;
  senders : list (option OutRef);
  pipes : list pipe;
  accepted : list (channel GrpcTransportStream);
  shutdowns : list bool
}.

Definition grpc_initial : grpc_world := MkGrpc [] [] [] [] [].

Definition with_outbounds (w : grpc_world) x := MkGrpc x (senders w) (pipes w) (accepted w) (shutdowns w).
Definition with_senders (w : grpc_world) x := MkGrpc (outbounds w) x (pipes w) (accepted w) (shutdowns w).
Definition with_pipes (w : grpc_world) x := MkGrpc (outbounds w) (senders w) x (accepted w) (shutdowns w).
Definition with_accepted (w : grpc_world) x := MkGrpc (outbounds w) (senders w) (pipes w) x (shutdowns w).
Definition with_shutdowns (w : grpc_world) x := MkGrpc (outbounds w) (senders w) (pipes w) (accepted w) x.

(** [GrpcTransportSender::try_send], [close] *)
Definition grpc_try_send (w : grpc_world) (s : SenderRef) (e : Envelope)
    : result TransportError unit * grpc_world :=
  match senders w !! s with
  | Some (Some q) =>
      match outbounds w !! q with
      | Some o =>
          match channel_push (capacity o) e (out_channel o) with
          | Ok c => (Ok (), with_outbounds w (<[q := MkOutbound (capacity o) c]> (outbounds w)))
          | Err error => (Err error, w)
          end
      | None => (Err Closed, w)
      end
  | _ => (Err Closed, w)
  end.

Definition grpc_close (w : grpc_world) (s : SenderRef) : grpc_world :=
  with_senders w (<[s := None]> (senders w)).

(** [Streaming::next], when it may return. *)
Definition streaming_next (p : pipe) : option (option (result unit Envelope) * pipe) :=
  match arriving p with
  | e :: es => Some (Some (Ok e), MkPipe es (finished p))
  | [] =>
      match finished p with
      | None => None
      | Some (Ok _) => Some (None, p)
      | Some (Err _) => Some (Some (Err ()), MkPipe [] (Some (Ok ())))
      end
  end.

(** [GrpcTransportStream::recv] *)
Definition grpc_recv (w : grpc_world) (st : GrpcTransportStream) : option (option Envelope * grpc_world) :=
  match pipes w !! inbound st with
  | None => None
  | Some p =>
      match streaming_next p with
      | None => None
      | Some (item, p) =>
          Some (match item with Some (Ok e) => Some e | _ => None end,
                with_pipes w (<[inbound st := p]> (pipes w)))
      end
  end.

(** [GrpcTransportService::exchange]: [Ok] is the outbound channel of the
    response, [Err] the status [resource_exhausted]. *)
Definition grpc_exchange (w : grpc_world) (l : ListenRef) (request : PipeRef)
    : result unit OutRef * grpc_world :=
  let q := length (outbounds w) in
  let s := length (senders w) in
  let w := with_outbounds w (outbounds w ++ [MkOutbound EXCHANGE_OUTBOUND_CAPACITY (MkChannel [] false)]) in
  let stream := MkGrpcStream s request in
  match accepted w !! l with
  | Some c =>
      match channel_push ACCEPT_BACKLOG stream c with
      | Ok c => (Ok q, with_accepted (with_senders w (senders w ++ [Some q])) (<[l := c]> (accepted w)))
      | Err _ => (Err (), with_senders w (senders w ++ [None]))
      end
  | None => (Err (), with_senders w (senders w ++ [None]))
  end.

(** [GrpcTransport::listen], given whether a socket was bound; the listener's
    [accept] (when it may return a stream), [shutdown] and [drop]. *)
Definition grpc_listen (w : grpc_world) (listener : bool) : result TransportError ListenRef * grpc_world :=
  if listener then
    (Ok (length (accepted w)),
     with_shutdowns (with_accepted w (accepted w ++ [MkChannel [] false])) (shutdowns w ++ [false]))
  else (Err BindFailed, w).

Definition grpc_accept (w : grpc_world) (l : ListenRef) : option (GrpcTransportStream * grpc_world) :=
  match accepted w !! l with
  | Some (MkChannel (s :: ss) d) => Some (s, with_accepted w (<[l := MkChannel ss d]> (accepted w)))
  | _ => None
  end.

Definition grpc_listener_shutdown (w : grpc_world) (l : ListenRef) : grpc_world :=
  with_shutdowns w (<[l := true]> (shutdowns w)).

Definition grpc_listener_drop (w : grpc_world) (l : ListenRef) : grpc_world :=
  let w := with_shutdowns w (<[l := true]> (shutdowns w)) in
  with_accepted w (alter (fun _ => MkChannel [] true) l (accepted w)).

(** [GrpcTransport::connect] *)
Inductive grpcE : Type -> Type :=
| EndpointNew (url : string) : grpcE (result string unit)
| ConnectChannel (timeout : Z) (url : string) : grpcE (timed (result string unit))
| NewOutbound (capacity : nat) : grpcE OutRef
| Exchange (q : OutRef) : grpcE (result string PipeRef)
| NewSender (q : OutRef) : grpcE SenderRef.

Definition connect_url (endpoint : string) : string :=
  if contains_str "://" endpoint then endpoint else "http://" +:+ endpoint.

Definition grpc_connect (transport_connect_timeout : Z) (endpoint : string)
    : proc grpcE (result TransportError GrpcTransportStream) :=
  let url := connect_url endpoint in
  call! r := EndpointNew url;
  match r with
  | Err _ => Ret (Err ConnectFailed)
  | Ok _ =>
      call! channel := ConnectChannel transport_connect_timeout url;
      match channel with
      | Elapsed | Ready (Err _) => Ret (Err ConnectFailed)
      | Ready (Ok _) =>
          call! outbound := NewOutbound TRANSPORT_CHANNEL_CAPACITY;
          call! response := Exchange outbound;
          match response with
          | Err _ => Ret (Err ConnectFailed)
          | Ok inbound => call! s := NewSender outbound; Ret (Ok (MkGrpcStream s inbound))
          end
      end
  end.

(** ** The sender interface *)
Definition grpc_is_closed (w : grpc_world) (s : SenderRef) : bool :=
  match senders w !! s with
  | Some (Some _) => false
  | _ => true
  end.

Lemma grpc_try_send_senders w s e : senders (grpc_try_send w s e).2 = senders w.
Proof.
  unfold grpc_try_send. destruct (senders w !! s) as [[q |] |]; [| done ..].
  destruct (outbounds w !! q) as [o |]; [| done]. by destruct (channel_push _ _ _).
Qed.

#[export] Instance grpc_sender : TransportSender grpc_world SenderRef.
Proof.
  refine {| try_send := grpc_try_send; close := grpc_close; is_closed := grpc_is_closed |}.
  - intros w s. unfold grpc_is_closed, grpc_close. cbn.
    destruct (decide (s < length (senders w))).
    + by rewrite list_lookup_insert_eq.
    + by rewrite lookup_ge_None_2 by (rewrite length_insert; lia).
  - intros w s s'. unfold grpc_is_closed, grpc_close. cbn.
    destruct (decide (s = s')) as [<- |]; [| by rewrite list_lookup_insert_ne].
    intros H. destruct (decide (s < length (senders w))).
    + by rewrite list_lookup_insert_eq.
    + by rewrite lookup_ge_None_2 by (rewrite length_insert; lia).
  - intros w s e. unfold grpc_is_closed, grpc_try_send. by destruct (senders w !! s) as [[q |] |].
  - intros w s e s' H. unfold grpc_is_closed in *. by rewrite grpc_try_send_senders.
Defined.

(** ** A connection, with what tonic does to it *)

(** One direction of a connection: who sends, through which channel, who reads. *)
Record direction := MkDirection {
  d_from : GrpcTransportStream;
  d_out : OutRef;
  d_to : GrpcTransportStream
}.

(** Tonic polls the outbound stream: the next envelope goes to the peer; once no
    sender is left and nothing is queued, the direction ends. *)
Definition transmit (w : grpc_world) (d : direction) : nat * grpc_world :=
  match outbounds w !! d_out d, pipes w !! inbound (d_to d) with
  | Some o, Some p =>
      match finished p, items (out_channel o) with
      | Some _, _ => (0, w)
      | None, e :: es =>
          (1, with_pipes (with_outbounds w (<[d_out d := MkOutbound (capacity o) (MkChannel es (dropped (out_channel o)))]> (outbounds w)))
                (<[inbound (d_to d) := MkPipe (arriving p ++ [e]) None]> (pipes w)))
      | None, [] =>
          if bool_decide (Some (d_out d) ∈ senders w) then (0, w)
          else (0, with_pipes w (<[inbound (d_to d) := MkPipe (arriving p) (Some (Ok ()))]> (pipes w)))
      end
  | _, _ => (0, w)
  end.

(** The stream fails: what is not read yet may be lost from some point on, the
    reader gets a status, and the outbound channel is dropped. *)
Definition fail_stream (w : grpc_world) (d : direction) (n : nat) : grpc_world :=
  match outbounds w !! d_out d, pipes w !! inbound (d_to d) with
  | Some o, Some p =>
      match finished p with
      | Some _ => w
      | None =>
          with_pipes (with_outbounds w (<[d_out d := MkOutbound (capacity o) (MkChannel [] true)]> (outbounds w)))
            (<[inbound (d_to d) := MkPipe (take n (arriving p)) (Some (Err ()))]> (pipes w))
      end
  | _, _ => w
  end.

Inductive flow_op :=
| Send (e : Envelope)
| Receive
| CloseSender
| Transmit
| FailStream (n : nat).

(** What happened in one direction: what was accepted, how much of it tonic
    took, what was received, whether the end of the stream was. *)
Record flow := MkFlow {
  sent : list Envelope;
  moved : nat;
  got : list Envelope;
  ended : bool
}.

Definition flow_step (d : direction) (wf : grpc_world * flow) (op : flow_op) : grpc_world * flow :=
  let '(w, f) := wf in
  match op with
  | Send e =>
      let '(x, w) := grpc_try_send w (stream_sender (d_from d)) e in
      (w, if is_ok x then MkFlow (sent f ++ [e]) (moved f) (got f) (ended f) else f)
  | Receive =>
      match grpc_recv w (d_to d) with
      | Some (Some e, w) => (w, MkFlow (sent f) (moved f) (got f ++ [e]) (ended f))
      | Some (None, w) => (w, MkFlow (sent f) (moved f) (got f) true)
      | None => (w, f)
      end
  | CloseSender => (grpc_close w (stream_sender (d_from d)), f)
  | Transmit => let '(n, w) := transmit w d in (w, MkFlow (sent f) (moved f + n) (got f) (ended f))
  | FailStream n => (fail_stream w d n, f)
  end.

Inductive side := Up | Down.

Record wire := MkWire {
  wire_world : grpc_world;
  up : flow;
  down : flow
}.

Section wire.
Context (d_up d_down : direction).

Definition wire_step (w : wire) (op : side * flow_op) : wire :=
  match op.1 with
  | Up => let '(g, f) := flow_step d_up (wire_world w, up w) op.2 in MkWire g f (down w)
  | Down => let '(g, f) := flow_step d_down (wire_world w, down w) op.2 in MkWire g (up w) f
  end.

Definition no_flow : flow := MkFlow [] 0 [] false.

Definition wire_run (w : grpc_world) (ops : list (side * flow_op)) : wire :=
  foldl wire_step (MkWire w no_flow no_flow) ops.
End wire.

(** ** Establishing a connection

    The handler of the effects of [grpc_connect] when tonic reaches the listener
    [l]: the request stream goes to [grpc_exchange] on the other side. *)
Definition grpc_handler (l : ListenRef) X (e : grpcE X) (w : grpc_world) : X * grpc_world :=
  match e in grpcE X return X * grpc_world with
  | EndpointNew _ => (Ok (), w)
  | ConnectChannel _ _ => (Ready (Ok ()), w)
  | NewOutbound n => (length (outbounds w), with_outbounds w (outbounds w ++ [MkOutbound n (MkChannel [] false)]))
  | Exchange _ =>
      let request := length (pipes w) in
      let w := with_pipes w (pipes w ++ [MkPipe [] None]) in
      match grpc_exchange w l request with
      | (Ok _, w) => (Ok (length (pipes w)), with_pipes w (pipes w ++ [MkPipe [] None]))
      | (Err _, w) => (Err "transport accept backlog full", w)
      end
  | NewSender q => (length (senders w), with_senders w (senders w ++ [Some q]))
  end.

Definition grpc_dial (l : ListenRef) (timeout : Z) (endpoint : string) (w : grpc_world)
    : result TransportError GrpcTransportStream * grpc_world :=
  run (grpc_handler l) (grpc_connect timeout endpoint) w.

(** ** The invariant of a direction *)
Definition flow_live (so : option OutRef) (c : channel Envelope) (p : pipe) (f : flow) : Prop :=
  dropped c = false /\ sent f = got f ++ arriving p ++ items c /\
  moved f = length (got f ++ arriving p) /\
  ((finished p = None /\ ended f = false) \/
   (finished p = Some (Ok ()) /\ items c = [] /\ so = None /\ (ended f = true -> arriving p = []))).

Definition flow_failed (c : channel Envelope) (p : pipe) (f : flow) : Prop :=
  dropped c = true /\ items c = [] /\ is_Some (finished p) /\ (got f ++ arriving p) `prefix_of` sent f.

Definition flow_inv (may_fail : bool) (cap : nat) (w : grpc_world) (d : direction) (f : flow) : Prop :=
  exists so c p,
    senders w !! stream_sender (d_from d) = Some so /\ (so = Some (d_out d) \/ so = None) /\
    (forall s, senders w !! s = Some (Some (d_out d)) -> s = stream_sender (d_from d)) /\
    outbounds w !! d_out d = Some (MkOutbound cap c) /\ pipes w !! inbound (d_to d) = Some p /\
    (length (items c) <= cap)%nat /\
    (flow_live so c p f \/ (may_fail = true /\ flow_failed c p f)).

Definition separate (d d' : direction) : Prop :=
  stream_sender (d_from d) <> stream_sender (d_from d') /\ d_out d <> d_out d' /\
  inbound (d_to d) <> inbound (d_to d').

Lemma lookup_insert_here {A} (l : list A) i x y : l !! i = Some x -> <[i := y]> l !! i = Some y.
Proof. intros H. apply list_lookup_insert_eq. by eapply lookup_lt_Some. Qed.

(** What sending does to a direction. *)
Lemma flow_send b cap w d f e :
  flow_inv b cap w d f ->
  let '(w', f') := flow_step d (w, f) (Send e) in flow_inv b cap w' d f'.
Proof.
  intros Hinv. pose proof Hinv as (so & c & p & Hs & Hso & Hu & Ho & Hp & Hlen & Hst). cbn [flow_step].
  unfold grpc_try_send. rewrite Hs. destruct Hso as [-> | ->]; [| done]. rewrite Ho. cbn [capacity out_channel].
  unfold channel_push. destruct (dropped c) eqn:Hd; [done |].
  destruct (Nat.ltb_spec (length (items c)) cap); [| done].
  destruct Hst as [(_ & Hsent & Hm & Hfin) | (_ & Hd' & _)]; [| congruence].
  exists (Some (d_out d)), (MkChannel (items c ++ [e]) false), p. cbn.
  split_and!; [done | by left | done | by eapply lookup_insert_here | done | rewrite length_app; cbn; lia |].
  left. destruct Hfin as [Hfin | (_ & _ & ? & _)]; [| done].
  split_and!; [done | | done | by left]. cbn. by rewrite Hsent, <- !app_assoc.
Qed.

Lemma flow_receive b cap w d f :
  flow_inv b cap w d f ->
  let '(w', f') := flow_step d (w, f) Receive in flow_inv b cap w' d f'.
Proof.
  intros Hinv. pose proof Hinv as (so & c & p & Hs & Hso & Hu & Ho & Hp & Hlen & Hst).
  cbn [flow_step]. unfold grpc_recv, streaming_next. rewrite Hp.
  destruct p as [[| e es] fin]; cbn [arriving finished] in *.
  - destruct fin as [[[] | []] |]; [| | done].
    + eexists so, c, (MkPipe [] (Some (Ok ()))). cbn.
      split_and!; [done .. | by eapply lookup_insert_here | done |].
      destruct Hst as [(Hd & Hsent & Hm & Hfin) | (Hb & Hf)]; [left | by right].
      destruct Hfin as [[] | (? & ? & ? & _)]; [done |]. split_and!; [done .. |]. right. by split_and!.
    + eexists so, c, (MkPipe [] (Some (Ok ()))). cbn.
      split_and!; [done .. | by eapply lookup_insert_here | done |].
      destruct Hst as [(Hd & Hsent & Hm & Hfin) | (Hb & Hd & Hi & _ & Hpre)].
      * destruct Hfin as [[] | []]; done.
      * right. split; [done |]. by split_and!.
  - eexists so, c, (MkPipe es fin). cbn.
    split_and!; [done .. | by eapply lookup_insert_here | done |].
    destruct Hst as [(Hd & Hsent & Hm & Hfin) | (Hb & Hd & Hi & Hf & Hpre)].
    + left. split_and!; cbn; [done | by rewrite Hsent, <- app_assoc | rewrite Hm, !length_app; cbn; lia |].
      destruct Hfin as [? | (? & ? & ? & He)]; [by left | right]. split_and!; [done .. |]. by intros ?%He.
    + right. split; [done |]. split_and!; try done. cbn. by rewrite <- app_assoc.
Qed.

Lemma flow_close b cap w d f :
  flow_inv b cap w d f ->
  let '(w', f') := flow_step d (w, f) CloseSender in flow_inv b cap w' d f'.
Proof.
  intros (so & c & p & Hs & Hso & Hu & Ho & Hp & Hlen & Hst). cbn [flow_step].
  exists None, c, p. cbn. split_and!; [by eapply lookup_insert_here | by right | | done .. |].
  - intros s. destruct (decide (stream_sender (d_from d) = s)) as [<- |]; [done |].
    rewrite list_lookup_insert_ne by done. apply Hu.
  - destruct Hst as [(? & ? & ? & Hfin) | ?]; [left | by right]. split_and!; [done .. |].
    destruct Hfin as [? | (? & ? & ? & ?)]; [by left | right]. by split_and!.
Qed.

Lemma flow_transmit b cap w d f :
  flow_inv b cap w d f ->
  let '(w', f') := flow_step d (w, f) Transmit in flow_inv b cap w' d f'.
Proof.
  intros Hinv. pose proof Hinv as (so & c & p & Hs & Hso & Hu & Ho & Hp & Hlen & Hst).
  cbn [flow_step]. unfold transmit. rewrite Ho, Hp. cbn [out_channel capacity].
  assert (Hsame : flow_inv b cap w d (MkFlow (sent f) (moved f + 0) (got f) (ended f))).
  { by rewrite Nat.add_0_r; destruct f. }
  destruct (finished p) eqn:Hfin; [done |].
  destruct Hst as [(Hd & Hsent & Hm & Hfin') | (_ & _ & _ & [? ?] & _)]; [| congruence].
  destruct Hfin' as [[_ He] | [? _]]; [| congruence].
  destruct c as [[| e es] dr]; cbn [items dropped] in *; subst dr.
  - destruct (bool_decide_reflect (Some (d_out d) ∈ senders w)) as [| Hnone]; [done |].
    assert (so = None) as ->.
    { destruct Hso as [-> |]; [| done]. destruct Hnone. by eapply list_elem_of_lookup_2. }
    exists None, (MkChannel [] false), (MkPipe (arriving p) (Some (Ok ()))). cbn.
    split_and!; [done | by right | done | done | by eapply lookup_insert_here | done |].
    left. split_and!; cbn; [done | done | lia |]. right. split_and!; [done .. |]. by rewrite He.
  - exists so, (MkChannel es false), (MkPipe (arriving p ++ [e]) None). cbn in *.
    split_and!; [done .. | by eapply lookup_insert_here | by eapply lookup_insert_here | lia |].
    left. split_and!; cbn; [done | by rewrite Hsent, <- app_assoc | | by left].
    rewrite Hm, !length_app. cbn. lia.
Qed.

Lemma flow_fail cap w d f n :
  flow_inv true cap w d f ->
  let '(w', f') := flow_step d (w, f) (FailStream n) in flow_inv true cap w' d f'.
Proof.
  intros Hinv. pose proof Hinv as (so & c & p & Hs & Hso & Hu & Ho & Hp & Hlen & Hst).
  cbn [flow_step]. unfold fail_stream. rewrite Ho, Hp. cbn [capacity].
  destruct (finished p) eqn:Hfin; [done |].
  destruct Hst as [(Hd & Hsent & Hm & Hfin') | (_ & _ & _ & [? ?] & _)]; [| congruence].
  exists so, (MkChannel [] true), (MkPipe (take n (arriving p)) (Some (Err ()))). cbn.
  split_and!; [done .. | by eapply lookup_insert_here | by eapply lookup_insert_here | lia |].
  right. split; [done |]. split_and!; [done | done | by eexists |]. cbn. rewrite Hsent.
  apply prefix_app. etrans; [apply prefix_take | by eexists].
Qed.

Lemma flow_step_inv b cap w d f op :
  (b = false -> forall n, op <> FailStream n) -> flow_inv b cap w d f ->
  let '(w', f') := flow_step d (w, f) op in flow_inv b cap w' d f'.
Proof.
  intros Hb. destruct op as [e | | | | n].
  - apply flow_send.
  - apply flow_receive.
  - apply flow_close.
  - apply flow_transmit.
  - destruct b; [apply flow_fail |]. by destruct (Hb eq_refl n).
Qed.

(** A step in one direction does not touch the other. *)
Definition agree_at (d : direction) (w w' : grpc_world) : Prop :=
  senders w' !! stream_sender (d_from d) = senders w !! stream_sender (d_from d) /\
  (forall s, senders w' !! s = Some (Some (d_out d)) -> senders w !! s = Some (Some (d_out d))) /\
  outbounds w' !! d_out d = outbounds w !! d_out d /\
  pipes w' !! inbound (d_to d) = pipes w !! inbound (d_to d).

Lemma agree_inv b cap d w w' f : agree_at d w w' -> flow_inv b cap w d f -> flow_inv b cap w' d f.
Proof.
  intros (Hs' & Hu' & Ho' & Hp') (so & c & p & Hs & Hso & Hu & Ho & Hp & Hlen & Hst).
  exists so, c, p. rewrite Hs', Ho', Hp'. split_and!; try done. intros s Hin%Hu'. by apply Hu.
Qed.

Lemma flow_step_frame d d' b cap w f op :
  separate d d' -> flow_inv b cap w d f ->
  let '(w', _) := flow_step d (w, f) op in agree_at d' w w'.
Proof.
  intros (Hs & Hq & Hp) (so & c & p & Hls & Hso & _ & Ho & Hpp & _ & _).
  assert (Hrefl : agree_at d' w w) by done.
  destruct op as [e | | | | n]; cbn [flow_step].
  - unfold grpc_try_send. rewrite Hls. destruct Hso as [-> | ->]; [| done]. rewrite Ho.
    destruct (channel_push _ _ _); [| done]. split_and!; cbn; try done. by rewrite list_lookup_insert_ne.
  - unfold grpc_recv. rewrite Hpp. destruct (streaming_next p) as [[[[e | []] |] p'] |]; [| | | done];
      split_and!; cbn; try done; by rewrite list_lookup_insert_ne.
  - split_and!; cbn; try done; [by rewrite list_lookup_insert_ne |]. intros s.
    destruct (decide (stream_sender (d_from d) = s)) as [<- |]; [| by rewrite list_lookup_insert_ne].
    intros Hin. rewrite list_lookup_insert_eq in Hin by (by eapply lookup_lt_Some). done.
  - unfold transmit. rewrite Ho, Hpp. destruct (finished p); [done |]. destruct (items _) as [| e es].
    + case_bool_decide; [done |]. split_and!; cbn; try done. by rewrite list_lookup_insert_ne.
    + split_and!; cbn; try done; by rewrite list_lookup_insert_ne.
  - unfold fail_stream. rewrite Ho, Hpp. destruct (finished p); [done |].
    split_and!; cbn; try done; by rewrite list_lookup_insert_ne.
Qed.

Section wire_inv.
Context (d_up d_down : direction) (b_up b_down : bool) (cap_up cap_down : nat).
Hypothesis Hsep : separate d_up d_down.

Definition wire_inv (w : wire) : Prop :=
  flow_inv b_up cap_up (wire_world w) d_up (up w) /\
  flow_inv b_down cap_down (wire_world w) d_down (down w).

(** A side that cannot fail in a list of operations. *)
Definition fails_only_if (op : side * flow_op) : Prop :=
  forall n, op.2 = FailStream n -> match op.1 with Up => b_up = true | Down => b_down = true end.

Lemma grpc_wire_step_inv w op : fails_only_if op -> wire_inv w -> wire_inv (wire_step d_up d_down w op).
Proof.
  intros Hf [Hu Hd]. destruct w as [g fu fd], op as [[] op];
    unfold wire_step, wire_inv in *; cbn [fst snd wire_world up down] in *.
  - pose proof (flow_step_frame d_up d_down b_up cap_up g fu op Hsep Hu) as Hfr.
    assert (Hb : b_up = false -> forall n, op <> FailStream n).
    { intros Hb n ->. pose proof (Hf n eq_refl). cbn in *. congruence. }
    pose proof (flow_step_inv b_up cap_up g d_up fu op Hb Hu) as Hi.
    destruct (flow_step d_up (g, fu) op) as [g' f']. split; [exact Hi | by eapply agree_inv].
  - assert (Hsep' : separate d_down d_up) by (destruct Hsep as (? & ? & ?); split_and!; congruence).
    pose proof (flow_step_frame d_down d_up b_down cap_down g fd op Hsep' Hd) as Hfr.
    assert (Hb : b_down = false -> forall n, op <> FailStream n).
    { intros Hb n ->. pose proof (Hf n eq_refl). cbn in *. congruence. }
    pose proof (flow_step_inv b_down cap_down g d_down fd op Hb Hd) as Hi.
    destruct (flow_step d_down (g, fd) op) as [g' f']. split; [by eapply agree_inv | exact Hi].
Qed.

Lemma wire_run_inv w ops :
  wire_inv (MkWire w no_flow no_flow) -> Forall fails_only_if ops -> wire_inv (wire_run d_up d_down w ops).
Proof.
  unfold wire_run. generalize (MkWire w no_flow no_flow). intros w0 Hi Hf.
  revert w0 Hi. induction Hf as [| op ops Hop Hops IH]; intros w0 Hi; cbn; [done |].
  by apply IH, grpc_wire_step_inv.
Qed.
End wire_inv.

(** What the invariant says of a direction. *)
Definition flow_faithful (f : flow) : Prop := got f `prefix_of` sent f.

(** While its stream has not failed: what a send, a receive and an end mean. *)
Definition flow_exact (cap : nat) (w : grpc_world) (d : direction) (f : flow) : Prop :=
  (forall e, (grpc_try_send w (stream_sender (d_from d)) e).1 =
     if grpc_is_closed w (stream_sender (d_from d)) then Err Closed
     else if (length (sent f) - moved f <? cap)%nat then Ok () else Err Full) /\
  (length (got f) < moved f -> fst <$> grpc_recv w (d_to d) = Some <$> (sent f !! length (got f))) /\
  (ended f = true -> got f = sent f /\ grpc_is_closed w (stream_sender (d_from d)) = true).

Lemma flow_inv_faithful b cap w d f : flow_inv b cap w d f -> flow_faithful f.
Proof.
  unfold flow_faithful.
  intros (so & c & p & _ & _ & _ & _ & _ & _ & [(_ & -> & _) | (_ & _ & _ & _ & Hpre)]).
  - by eexists.
  - etrans; [| exact Hpre]. by eexists.
Qed.

Lemma flow_inv_exact cap w d f : flow_inv false cap w d f -> flow_exact cap w d f.
Proof.
  intros (so & c & p & Hs & Hso & Hu & Ho & Hp & Hlen & [(Hd & Hsent & Hm & Hfin) | [? _]]); [| done].
  split_and!.
  - intros e. unfold grpc_try_send, grpc_is_closed. rewrite Hs. destruct Hso as [-> | ->]; [| done].
    rewrite Ho. cbn [capacity out_channel]. unfold channel_push. rewrite Hd.
    replace (length (sent f) - moved f) with (length (items c)); [by destruct (_ <? _) |].
    rewrite Hsent, Hm, !length_app. lia.
  - intros Hlt. unfold grpc_recv, streaming_next. rewrite Hp, Hsent, Hm, length_app in *.
    rewrite lookup_app_r, Nat.sub_diag by done. destruct (arriving p); [cbn in Hlt; lia | done].
  - intros He. destruct Hfin as [[_ ?] | (_ & Hi & -> & Ha)]; [congruence |].
    rewrite Hsent, Hi, (Ha He), !app_nil_r. split; [done |]. unfold grpc_is_closed. by rewrite Hs.
Qed.

Lemma flow_inv_weaken b cap w d f : flow_inv false cap w d f -> flow_inv b cap w d f.
Proof.
  intros (so & c & p & ? & ? & ? & ? & ? & ? & [Hl | [? _]]); [| done].
  exists so, c, p. split_and!; try done. by left.
Qed.

(** *** What [connect] sets up *)
Definition grpc_wf (w : grpc_world) : Prop :=
  forall s q, senders w !! s = Some (Some q) -> q < length (outbounds w).

Lemma dial_pairs l timeout endpoint w client w' :
  grpc_wf w -> grpc_dial l timeout endpoint w = (Ok client, w') ->
  exists server q_up q_down before,
    accepted w' !! l = Some (MkChannel (before ++ [server]) false) /\
    let d_up := MkDirection client q_up server in
    let d_down := MkDirection server q_down client in
    separate d_up d_down /\
    flow_inv false TRANSPORT_CHANNEL_CAPACITY w' d_up no_flow /\
    flow_inv false EXCHANGE_OUTBOUND_CAPACITY w' d_down no_flow.
Proof.
  intros Hwf. unfold grpc_dial, grpc_connect. cbn [run grpc_handler].
  unfold grpc_exchange. cbn [with_pipes with_outbounds accepted senders outbounds pipes].
  destruct (accepted w !! l) as [c |] eqn:Hc; [| done].
  unfold channel_push. destruct (dropped c) eqn:Hd; [done |]. destruct (_ <? _); [| done].
  cbn [run grpc_handler with_pipes with_senders with_accepted senders pipes]. intros [= <- <-].
  rewrite !length_app. cbn [length].
  eexists (MkGrpcStream (length (senders w)) (length (pipes w))), (length (outbounds w)),
    (length (outbounds w) + 1), (items c).
  cbn [with_pipes with_senders with_accepted accepted senders pipes outbounds].
  split; [by eapply lookup_insert_here |]. cbn zeta.
  split; [split_and!; cbn; lia |].
  assert (Hown : forall s q, length (outbounds w) <= q ->
            ((senders w ++ [Some (length (outbounds w) + 1)]) ++ [Some (length (outbounds w))]) !! s = Some (Some q) ->
            (q = length (outbounds w) + 1 /\ s = length (senders w)) \/
            (q = length (outbounds w) /\ s = length (senders w) + 1)).
  { intros s q Hq. rewrite !lookup_app_Some, !list_lookup_singleton_Some, length_app. cbn.
    intros [[Hin | (? & ? & [= <-])] | (? & ? & [= <-])]; [| left; lia | right; lia].
    pose proof (Hwf _ _ Hin). lia. }
  split.
  - eexists (Some (length (outbounds w))), (MkChannel [] false), (MkPipe [] None). cbn.
    split_and!; [| by left | | | | lia | by left; split_and!; try left].
    + rewrite lookup_app_r by (rewrite length_app; cbn; lia). rewrite length_app; cbn. by rewrite Nat.sub_diag.
    + intros s Hin. destruct (Hown s _ ltac:(done) Hin) as [[? ?] | [? ?]]; lia.
    + rewrite lookup_app_l by (rewrite length_app; cbn; lia). by rewrite lookup_app_r, Nat.sub_diag by done.
    + rewrite lookup_app_l by (rewrite length_app; cbn; lia). by rewrite lookup_app_r, Nat.sub_diag by done.
  - eexists (Some (length (outbounds w) + 1)), (MkChannel [] false), (MkPipe [] None). cbn.
    split_and!; [| by left | | | | lia | by left; split_and!; try left].
    + rewrite lookup_app_l by (rewrite length_app; cbn; lia). by rewrite lookup_app_r, Nat.sub_diag by done.
    + intros s Hin. destruct (Hown s (length (outbounds w) + 1) ltac:(lia) Hin) as [[? ?] | [? ?]]; lia.
    + rewrite lookup_app_r by (rewrite length_app; cbn; lia). rewrite length_app; cbn. by rewrite Nat.sub_diag.
    + rewrite lookup_app_r by (rewrite length_app; cbn; lia). rewrite length_app; cbn. by rewrite Nat.sub_diag.
Qed.

(** ** Properties *)

(** C30: a gRPC connection is a faithful wire whatever tonic does: [connect] hands
    the listener a stream paired with the Client's, and what each end receives is
    a prefix of what the other end had accepted, in order and without loss or
    duplication in between.  While the stream has not failed, an open sender
    refuses only when its channel is full (1024 envelopes not yet taken by tonic
    on the Client, one on the Server), a closed one always refuses, what arrived is
    returned, and the stream ends only after a close and after everything accepted
    was received. *)
Theorem grpc_connection_forwards l timeout endpoint w client w'
    (Hwf : grpc_wf w) (Hdial : grpc_dial l timeout endpoint w = (Ok client, w')) :
  exists server q_up q_down before,
    accepted w' !! l = Some (MkChannel (before ++ [server]) false) /\
    let d_up := MkDirection client q_up server in
    let d_down := MkDirection server q_down client in
    forall ops, let x := wire_run d_up d_down w' ops in
      flow_faithful (up x) /\ flow_faithful (down x) /\
      ((forall n, (Up, FailStream n) ∉ ops) ->
       flow_exact TRANSPORT_CHANNEL_CAPACITY (wire_world x) d_up (up x)) /\
      ((forall n, (Down, FailStream n) ∉ ops) ->
       flow_exact EXCHANGE_OUTBOUND_CAPACITY (wire_world x) d_down (down x)).
Proof.
  destruct (dial_pairs _ _ _ _ _ _ Hwf Hdial) as (server & q_up & q_down & before & Hacc & Hsep & Hu & Hd).
  exists server, q_up, q_down, before. split; [exact Hacc |]. intros d_up d_down ops x.
  assert (Hrun : forall b_up b_down,
    (b_up = false -> forall n, (Up, FailStream n) ∉ ops) ->
    (b_down = false -> forall n, (Down, FailStream n) ∉ ops) ->
    wire_inv d_up d_down b_up b_down TRANSPORT_CHANNEL_CAPACITY EXCHANGE_OUTBOUND_CAPACITY x).
  { intros b_up b_down Hbu Hbd. apply wire_run_inv; [exact Hsep | |].
    - split; by apply flow_inv_weaken.
    - apply Forall_forall. intros [sd op] Hin n Hop. cbn in *. subst op.
      destruct sd; [destruct b_up | destruct b_down]; [done | by destruct (Hbu eq_refl n) | done | by destruct (Hbd eq_refl n)]. }
  destruct (Hrun true true) as [Hxu Hxd]; [done | done |].
  split; [by eapply flow_inv_faithful |]. split; [by eapply flow_inv_faithful |]. split; intros Hno.
  - destruct (Hrun false true) as [Hx _]; [done | done |]. by apply flow_inv_exact.
  - destruct (Hrun true false) as [_ Hx]; [done | done |]. by apply flow_inv_exact.
Qed.

(** A listener, and a Client that connects to it. *)
Definition demo_listening : grpc_world := (grpc_listen grpc_initial true).2.

Lemma grpc_connection_forwards_witness :
  exists client w', grpc_dial 0 3000 "127.0.0.1:7000" demo_listening = (Ok client, w') /\
    exists server q_up q_down,
      flow_faithful (up (wire_run (MkDirection client q_up server) (MkDirection server q_down client) w' [])).
Proof.
  eexists _, _. split; [reflexivity |].
  edestruct (grpc_connection_forwards 0 3000 "127.0.0.1:7000" demo_listening)
    as (server & q_up & q_down & before & _ & Hops); [done | reflexivity |].
  exists server, q_up, q_down. exact (proj1 (Hops [])).
Defined.
