(* ===== verification/Events.v ===== *)
(** * What a Server sends to its Sessions

    Runs the sending half of [SessionRegistry] ([broadcast_event],
    [terminate_all], [terminate_all_sessions] of [Runtime], from
    [coactor/src/runtime/session.rs] and [core.rs]) alone against a registry and
    any transport that implements [TransportSender]: which envelopes are handed to
    which sender, and what becomes of the registry.  The last theorem puts the
    gRPC sender of [Grpc] below it. *)

From S2P Require Import Prelude Text Address Transport Session Runtime Grpc.
Import Registry.

(** The envelopes handed to a transport, with its answers. *)
Fixpoint send_all {W S : Type} `{TransportSender W S} (sender : SenderId -> S) (w : W)
    (l : list (SenderId * Envelope)) : list (SenderId * Envelope * bool) * W :=
  match l with
  | [] => ([], w)
  | (c, e) :: l =>
      let '(x, w) := try_send w (sender c) e in
      let '(t, w) := send_all sender w l in
      ((c, e, is_ok x) :: t, w)
  end.

(** What a broadcast and a termination hand out: one envelope per Session. *)
Definition to_sessions (r : SessionRegistry) (a : ActorAddress) (f : SessionId -> Envelope)
    : list (SenderId * Envelope) :=
  omap (fun sid => (fun c => (c, f sid)) <$> sink r a sid) (by_actor_snapshot r a).

Definition event_for (payload : string) (sid : SessionId) : Envelope := envelope_event sid payload.
Definition error_for (error : SendError) (sid : SessionId) : Envelope :=
  envelope_session_error (session_id_as_bytes sid) error.

Section events.
Context {W S : Type} {T : TransportSender W S} (sender : SenderId -> S).

Record events := MkEvents {
  e_registry : SessionRegistry;
  e_transport : W;
  e_sent : list (SenderId * Envelope * bool)
}.

Definition events_allowed X (s : events) (e : runtimeE X) : Prop :=
  match e with
  | Sink _ _ | ActorSnapshot _ | ActorAddresses | UnregisterActor _ _ | TrySend _ _ => True
  | _ => False
  end.

Definition events_observe X (s : events) (e : runtimeE X) : X -> events -> Prop :=
  match e in runtimeE X return X -> events -> Prop with
  | Sink a sid => fun x s' => x = sink (e_registry s) a sid /\ s' = s
  | ActorSnapshot a => fun x s' => x = by_actor_snapshot (e_registry s) a /\ s' = s
  | ActorAddresses => fun x s' => x = by_actor_addresses (e_registry s) /\ s' = s
  | UnregisterActor a sid => fun x s' =>
      let '(ok, r) := unregister_actor (e_registry s) a sid in
      x = ok /\ s' = MkEvents r (e_transport s) (e_sent s)
  | TrySend c e => fun x s' =>
      let '(y, w) := try_send (e_transport s) (sender c) e in
      x = is_ok y /\ s' = MkEvents (e_registry s) w (e_sent s ++ [(c, e, is_ok y)])
  | _ => fun _ _ => False
  end.

Definition events_monitor : monitor runtimeE events := Monitor runtimeE events events_allowed events_observe.

(** The state after some envelopes were handed out. *)
Definition sent_from (s : events) (r : SessionRegistry) (l : list (SenderId * Envelope)) : events :=
  MkEvents r (send_all sender (e_transport s) l).2
    (e_sent s ++ (send_all sender (e_transport s) l).1).

(** ** Lemmas *)
Lemma send_all_app w l l' :
  send_all sender w (l ++ l') =
    ((send_all sender w l).1 ++ (send_all sender (send_all sender w l).2 l').1,
     (send_all sender (send_all sender w l).2 l').2).
Proof.
  revert w. induction l as [| [c e] l IH]; intros w; cbn; [by destruct (send_all _ _ _) |].
  destruct (try_send w (sender c) e) as [x w1]. rewrite IH. by destruct (send_all sender w1 l).
Qed.

Lemma sent_from_nil s r : e_registry s = r -> sent_from s r [] = s.
Proof. destruct s. cbn. intros <-. unfold sent_from. cbn. by rewrite app_nil_r. Qed.

Lemma sent_from_app s r r' l l' : sent_from (sent_from s r l) r' l' = sent_from s r' (l ++ l').
Proof. unfold sent_from. cbn. rewrite send_all_app. cbn. by rewrite app_assoc. Qed.

Lemma sent_from_one s c e :
  let '(y, w) := try_send (e_transport s) (sender c) e in
  MkEvents (e_registry s) w (e_sent s ++ [(c, e, is_ok y)]) = sent_from s (e_registry s) [(c, e)].
Proof. unfold sent_from. cbn. by destruct (try_send _ _ _). Qed.

Ltac events_step :=
  cbn [wp events_monitor allowed observe events_allowed events_observe];
  split; [done |]; let x := fresh "x" in let s := fresh "s" in let Hs := fresh "Hs" in
  intros x s Hs.

Lemma send_wp s c e k (Q : unit -> events -> Prop) :
  (forall b, wp events_monitor (sent_from s (e_registry s) [(c, e)]) (k b) Q) ->
  wp events_monitor s (Call (TrySend c e) k) Q.
Proof.
  intros Hk. events_step. pose proof (sent_from_one s c e) as H.
  destruct (try_send (e_transport s) (sender c) e) as [y w]. destruct Hs as [-> ->]. rewrite H. apply Hk.
Qed.

Lemma deliver_events_wp a payload sids s :
  wp events_monitor s (deliver_events a sids payload)
    (fun _ s' => s' = sent_from s (e_registry s)
       (omap (fun sid => (fun c => (c, event_for payload sid)) <$> sink (e_registry s) a sid) sids)).
Proof.
  revert s. induction sids as [| sid sids IH]; intros s; cbn [deliver_events omap list_omap].
  - cbn [wp]. by rewrite sent_from_nil.
  - apply wp_bind. unfold deliver_event. events_step. destruct Hs as [-> ->].
    destruct (sink (e_registry s) a sid) as [c |] eqn:Hc; cbn.
    + split; [done |]. intros b s1 Hs1. pose proof (sent_from_one s c (event_for payload sid)) as H.
      unfold event_for in H at 1. destruct (try_send _ _ _) as [y w]. destruct Hs1 as [-> ->]. cbn in H.
      unfold event_for in H at 1. rewrite H. eapply wp_mono; [| apply IH]. cbn. intros _ s' ->.
      by rewrite sent_from_app.
    + apply IH.
Qed.

(** *** Terminations *)

(** A registry without some Sessions of [a]. *)
Definition without (r : SessionRegistry) (a : ActorAddress) (sids : list SessionId) (r' : SessionRegistry) : Prop :=
  (wf r -> wf r') /\
  forall b tid, sink r' b tid = if decide (a = b /\ tid ∈ sids) then None else sink r b tid.

Definition errors_for (r : SessionRegistry) (a : ActorAddress) (error : SendError) (sids : list SessionId)
    : list (SenderId * Envelope) :=
  omap (fun sid => (fun c => (c, error_for error sid)) <$> sink r a sid) sids.

Lemma errors_for_ext r r' a error sids :
  (forall sid, sid ∈ sids -> sink r' a sid = sink r a sid) -> errors_for r' a error sids = errors_for r a error sids.
Proof.
  induction sids as [| sid sids IH]; intros Hs; [done |]. unfold errors_for in *. cbn.
  rewrite (Hs sid) by left. rewrite IH; [done |]. intros sid' Hin. apply Hs. by right.
Qed.

Lemma terminate_told a sid error s :
  wp events_monitor s (terminate a sid error)
    (fun _ s' => s' = sent_from s (unregister_actor (e_registry s) a sid).2
                        (errors_for (e_registry s) a error [sid])).
Proof.
  unfold terminate. events_step. destruct Hs as [-> ->].
  events_step. destruct (unregister_actor (e_registry s) a sid) as [ok r] eqn:Hu. destruct Hs as [-> ->].
  cbn [errors_for omap list_omap]. destruct (sink (e_registry s) a sid) as [c |]; cbn [fmap option_fmap option_map].
  - apply send_wp. intros b. cbn [wp]. cbn [e_registry snd]. destruct s. reflexivity.
  - cbn [wp]. unfold sent_from. cbn. by rewrite app_nil_r.
Qed.

Lemma terminate_each_told a sids error s :
  NoDup sids ->
  wp events_monitor s (terminate_each a sids error)
    (fun _ s' => exists r', without (e_registry s) a sids r' /\
                            s' = sent_from s r' (errors_for (e_registry s) a error sids)).
Proof.
  revert s. induction sids as [| sid sids IH]; intros s Hnd; cbn [terminate_each].
  - cbn [wp]. exists (e_registry s). split; [| by rewrite sent_from_nil].
    split; [done |]. intros b tid. rewrite decide_False; [done |]. by intros [_ ?%elem_of_nil].
  - apply NoDup_cons in Hnd as [Hnin Hnd]. apply wp_bind.
    eapply wp_mono; [| apply terminate_told]. cbn beta. intros _ s1 ->.
    pose proof (unregister_sink (e_registry s) a sid) as Hun.
    pose proof (unregister_wf (e_registry s) a sid) as Hwf.
    destruct (unregister_actor (e_registry s) a sid) as [ok r1]. cbn [snd] in *.
    eapply wp_mono; [| by apply IH]. cbn beta. intros _ s2 (r' & [Hw' Hr'] & ->). exists r'.
    cbn [sent_from e_registry] in *. split.
    + split; [auto |]. intros b tid. rewrite Hr'. destruct (Hun b tid) as [_ ->].
      destruct (decide (a = b /\ tid ∈ sids)) as [[-> Hin] |].
      * rewrite decide_True; [done |]. split; [done | by right].
      * destruct (decide (a = b /\ sid = tid)) as [[-> ->] |]; [rewrite decide_True; [done |]; split; [done | left] |].
        rewrite decide_False; [done |]. rewrite elem_of_cons. naive_solver.
    + rewrite sent_from_app. f_equal. change (errors_for (e_registry s) a error (sid :: sids)) with
        (errors_for (e_registry s) a error ([sid] ++ sids)).
      unfold errors_for at 3. rewrite omap_app. f_equal. apply errors_for_ext.
      intros sid' Hin. destruct (Hun a sid') as [_ ->]. rewrite decide_False; [done |]. naive_solver.
Qed.

Lemma snapshot_NoDup r a : NoDup (by_actor_snapshot r a).
Proof. apply NoDup_fst_map_to_list. Qed.

Lemma terminate_all_told a error s :
  wp events_monitor s (terminate_all a error)
    (fun _ s' => exists r', without (e_registry s) a (by_actor_snapshot (e_registry s) a) r' /\
                            s' = sent_from s r' (to_sessions (e_registry s) a (error_for error))).
Proof.
  unfold terminate_all. events_step. destruct Hs as [-> ->].
  apply terminate_each_told, snapshot_NoDup.
Qed.

(** Terminating every Session of an Actor empties its entry and no other. *)
Lemma without_all r a r' :
  without r a (by_actor_snapshot r a) r' ->
  forall b tid, sink r' b tid = if decide (a = b) then None else sink r b tid.
Proof.
  intros [_ Hr'] b tid. rewrite Hr'. destruct (decide (a = b)) as [<- | Hne].
  - destruct (decide (a = a /\ tid ∈ by_actor_snapshot r a)) as [| Hnot]; [done |].
    destruct (sink r a tid) eqn:Hs; [| done]. destruct Hnot. split; [done |].
    apply by_actor_snapshot_elem. by rewrite Hs.
  - by rewrite decide_False by naive_solver.
Qed.

Lemma to_sessions_ext r r' a f :
  (forall sid, sink r' a sid = sink r a sid) -> to_sessions r' a f = to_sessions r a f.
Proof.
  intros Hs. unfold to_sessions, by_actor_snapshot.
  assert (sessions_of r' a = sessions_of r a) as ->.
  { apply map_eq. intros sid. by rewrite <- !sink_sessions_of. }
  induction ((map_to_list (sessions_of r a)).*1) as [| sid l IH]; cbn; [done |]. by rewrite Hs, IH.
Qed.

Lemma terminate_addresses_wp l error s :
  NoDup l ->
  wp events_monitor s (terminate_addresses l error)
    (fun _ s' => exists r', (wf (e_registry s) -> wf r') /\
       (forall b tid, sink r' b tid = if decide (b ∈ l) then None else sink (e_registry s) b tid) /\
       s' = sent_from s r' (l ≫= fun a => to_sessions (e_registry s) a (error_for error))).
Proof.
  revert s. induction l as [| a l IH]; intros s Hnd; cbn [terminate_addresses].
  - cbn [wp]. exists (e_registry s). split_and!; [done | | by rewrite sent_from_nil].
    intros b tid. by rewrite decide_False by apply not_elem_of_nil.
  - apply NoDup_cons in Hnd as [Hnin Hnd]. apply wp_bind.
    eapply wp_mono; [| apply terminate_all_told]. cbn beta. intros _ s1 (r1 & Hr1 & ->).
    pose proof (without_all _ _ _ Hr1) as Hs1. destruct Hr1 as [Hw1 _].
    eapply wp_mono; [| by apply IH]. cbn beta. intros _ s2 (r' & Hw' & Hr' & ->).
    exists r'. cbn [sent_from e_registry] in *. split_and!; [auto | |].
    + intros b tid. rewrite Hr', Hs1. destruct (decide (b ∈ l)) as [Hin |].
      * by rewrite decide_True by (by right).
      * destruct (decide (a = b)) as [<- |]; [by rewrite decide_True by left |].
        rewrite decide_False; [done |]. rewrite elem_of_cons. naive_solver.
    + rewrite sent_from_app. f_equal. cbn. f_equal.
      clear - Hs1 Hnin. induction l as [| b l IH]; cbn; [done |].
      rewrite not_elem_of_cons in Hnin. rewrite IH by tauto. f_equal. apply to_sessions_ext.
      intros sid. rewrite Hs1. by rewrite decide_False by tauto.
Qed.
End events.

Arguments MkEvents {W} e_registry e_transport e_sent.
Arguments e_registry {W} e.
Arguments e_transport {W} e.
Arguments e_sent {W} e.
Arguments events_monitor {W S T} sender.
Arguments sent_from {W S T} sender s r l.

Lemma to_sessions_length r a f : length (to_sessions r a f) = session_count r a.
Proof.
  unfold to_sessions, session_count. transitivity (length (by_actor_snapshot r a)).
  - assert (Hall : forall sid, sid ∈ by_actor_snapshot r a -> is_Some (sink r a sid)) by (intros; by apply by_actor_snapshot_elem).
    induction (by_actor_snapshot r a) as [| sid l IH]; cbn; [done |].
    destruct (Hall sid) as [c ->]; [left |]. cbn. f_equal. apply IH. intros sid' Hin. apply Hall. by right.
  - unfold by_actor_snapshot. by rewrite length_fmap, length_map_to_list.
Qed.

Lemma to_sessions_elem r a f c e :
  (c, e) ∈ to_sessions r a f <-> exists sid, sink r a sid = Some c /\ e = f sid.
Proof.
  unfold to_sessions. rewrite list_elem_of_omap. split.
  - intros (sid & _ & Hs). destruct (sink r a sid) as [c' |] eqn:Hc; [| done]. cbn in Hs. simplify_eq. eauto.
  - intros (sid & Hs & ->). exists sid. split; [apply by_actor_snapshot_elem; by rewrite Hs | by rewrite Hs].
Qed.

(** ** Bursts on one gRPC connection *)
Lemma full_refuses (sender : SenderId -> SenderRef) ref q o w l :
  (forall c e, (c, e) ∈ l -> sender c = ref) ->
  senders w !! ref = Some (Some q) -> outbounds w !! q = Some o ->
  dropped (out_channel o) = false -> (Grpc.capacity o <= length (items (out_channel o)))%nat ->
  (send_all sender w l).1 = (fun x => (x, false)) <$> l /\ (send_all sender w l).2 = w.
Proof.
  intros Hl Hs Ho Hd Hfull. induction l as [| [c e] l IH]; cbn; [done |].
  rewrite (Hl c e) by left. unfold grpc_try_send. rewrite Hs, Ho. unfold channel_push. rewrite Hd.
  destruct (Nat.ltb_spec (length (items (out_channel o))) (Grpc.capacity o)); [lia |].
  destruct IH as [H1 H2]; [intros c' e' Hin; apply (Hl c' e'); by right |].
  destruct (send_all sender w l) as [t w']. cbn in *. by subst.
Qed.

Lemma burst_sends_one (sender : SenderId -> SenderRef) ref q w c e l :
  (forall c' e', (c', e') ∈ (c, e) :: l -> sender c' = ref) ->
  senders w !! ref = Some (Some q) ->
  outbounds w !! q = Some (MkOutbound EXCHANGE_OUTBOUND_CAPACITY (MkChannel [] false)) ->
  (send_all sender w ((c, e) :: l)).1 = (c, e, true) :: ((fun x => (x, false)) <$> l).
Proof.
  intros Hl Hs Ho. cbn. rewrite (Hl c e) by left. unfold grpc_try_send. rewrite Hs, Ho. cbn.
  match goal with |- context [send_all _ ?w' l] => set (w1 := w') end.
  destruct (full_refuses sender ref q (MkOutbound 1 (MkChannel [e] false)) w1 l) as [H1 _]; cbn; try done.
  - intros c' e' Hin. apply (Hl c' e'). by right.
  - by eapply lookup_insert_here.
  - destruct (send_all sender w1 l). cbn in *. by subst.
Qed.

(** ** Properties *)

(** On any transport, a broadcast hands each live Session of the Actor one
    Event, on the sender the Session is bound to, whatever became of the others,
    and leaves the registry alone; terminating an Actor, and all Sessions, hands
    each of their Sessions one error and unregisters exactly them, whether or not
    the transport took the error. *)
Theorem sessions_are_told {W S : Type} {T : TransportSender W S} (sender : SenderId -> S)
    (s : @events W) (a : ActorAddress) (payload : string) (error : SendError) :
  wp (events_monitor sender) s (broadcast_event a payload)
    (fun _ s' => s' = sent_from sender s (e_registry s) (to_sessions (e_registry s) a (event_for payload))) /\
  wp (events_monitor sender) s (terminate_all a error)
    (fun _ s' => exists r', s' = sent_from sender s r' (to_sessions (e_registry s) a (error_for error)) /\
       forall b tid, sink r' b tid = if decide (a = b) then None else sink (e_registry s) b tid) /\
  (wf (e_registry s) -> wp (events_monitor sender) s (terminate_all_sessions error)
    (fun _ s' => s' = sent_from sender s ∅
       (by_actor_addresses (e_registry s) ≫= fun b => to_sessions (e_registry s) b (error_for error)))) /\
  (forall f c e, (c, e) ∈ to_sessions (e_registry s) a f <->
                 exists sid, sink (e_registry s) a sid = Some c /\ e = f sid) /\
  (forall f, length (to_sessions (e_registry s) a f) = session_count (e_registry s) a).
Proof.
  split_and!; [| | | apply to_sessions_elem | intros; apply to_sessions_length].
  - unfold broadcast_event. cbn [wp events_monitor allowed observe events_allowed events_observe].
    split; [done |]. intros x s1 [-> ->]. apply deliver_events_wp.
  - eapply wp_mono; [| apply terminate_all_told]. cbn beta. intros _ s' (r' & Hr' & ->).
    exists r'. split; [done |]. by apply without_all.
  - intros Hwf. unfold terminate_all_sessions.
    cbn [wp events_monitor allowed observe events_allowed events_observe].
    split; [done |]. intros x s1 [-> ->].
    eapply wp_mono; [| apply terminate_addresses_wp, NoDup_fst_map_to_list].
    cbn beta. intros _ s' (r' & Hw' & Hr' & ->). f_equal. apply map_empty. intros b.
    destruct (r' !! b) as [m |] eqn:Hb; [| done].
    destruct (map_choose m) as (sid & c & Hc); [intros ->; by apply (Hw' Hwf b) |].
    assert (Hsome : sink r' b sid = Some c) by (unfold sink; by rewrite Hb).
    rewrite Hr' in Hsome. destruct (decide (b ∈ by_actor_addresses (e_registry s))) as [| Hnot]; [done |].
    destruct Hnot. apply by_actor_addresses_elem; eauto.
Qed.

(** C37: on the Server side of a gRPC connection whose channel is empty, a
    broadcast to the Sessions that share the connection delivers one Event, to the
    first Session; unless tonic polls the channel in between, every other Event of
    the burst is dropped, because the channel of [exchange] holds one envelope. *)
Theorem grpc_broadcast_reaches_one (sender : SenderId -> SenderRef) (s : @events grpc_world)
    (a : ActorAddress) (payload : string) (ref : SenderRef) (q : OutRef)
    (Hone : forall sid c, sink (e_registry s) a sid = Some c -> sender c = ref)
    (Hs : senders (e_transport s) !! ref = Some (Some q))
    (Ho : outbounds (e_transport s) !! q = Some (MkOutbound EXCHANGE_OUTBOUND_CAPACITY (MkChannel [] false)))
    (Hsent : e_sent s = []) :
  wp (events_monitor sender) s (broadcast_event a payload)
    (fun _ s' => length (e_sent s') = session_count (e_registry s) a /\
                 forall i c e ok, e_sent s' !! i = Some (c, e, ok) -> ok = bool_decide (i = 0)).
Proof.
  unfold broadcast_event. cbn [wp events_monitor allowed observe events_allowed events_observe].
  split; [done |]. intros x s1 [-> ->]. eapply wp_mono; [| apply deliver_events_wp]. cbn beta. intros _ s' ->.
  change (omap _ _) with (to_sessions (e_registry s) a (event_for payload)).
  rewrite <- (to_sessions_length _ _ (event_for payload)).
  assert (Hall : forall c e, (c, e) ∈ to_sessions (e_registry s) a (event_for payload) -> sender c = ref).
  { intros c e (sid & Hc & _)%to_sessions_elem. eauto. }
  unfold sent_from. cbn [e_sent]. rewrite Hsent, app_nil_l.
  destruct (to_sessions (e_registry s) a (event_for payload)) as [| [c e] l]; [split; [done | by intros ????]|].
  rewrite (burst_sends_one _ _ _ _ _ _ _ Hall Hs Ho). split; [cbn; by rewrite length_fmap |].
  intros [| i] c' e' ok Hi; cbn in Hi; [by injection Hi as _ _ <- |].
  apply list_lookup_fmap_Some in Hi as ([c1 e1] & [= -> -> ->] & _). done.
Qed.

(** Two Sessions of one Client on a fresh connection. *)
Definition demo_registry : SessionRegistry :=
  {[MkActorAddress "room" "lobby" :=
      {[MkSessionId "0123456789abcdef" := 7%N; MkSessionId "fedcba9876543210" := 7%N]}]}.
Definition demo_connection : grpc_world :=
  MkGrpc [MkOutbound EXCHANGE_OUTBOUND_CAPACITY (MkChannel [] false)] [Some 0] [] [] [].

Lemma grpc_broadcast_reaches_one_witness :
  session_count demo_registry (MkActorAddress "room" "lobby") = 2 /\
  wp (events_monitor (fun _ => 0)) (MkEvents demo_registry demo_connection [])
    (broadcast_event (MkActorAddress "room" "lobby") "hello")
    (fun _ s' => length (e_sent s') = 2 /\
                 forall i c e ok, e_sent s' !! i = Some (c, e, ok) -> ok = bool_decide (i = 0)).
Proof.
  split; [reflexivity |].
  apply (grpc_broadcast_reaches_one (fun _ => 0) (MkEvents demo_registry demo_connection [])
           (MkActorAddress "room" "lobby") "hello" 0 0); done.
Defined.
