(* ===== verification/Endpoint.v ===== *)
(** * Endpoints: socket addresses and canonical endpoints

    Models [canonical_endpoint] of [coactor/src/cluster/authority.rs] and
    [parse_listen_address] of [coactor/src/runtime.rs], with what they use of the
    standard library: the parser and the printer of [std::net::SocketAddr], the
    parser of [u16] and a few [str] operations. *)

From stdpp Require Import pretty.
From S2P Require Import Prelude Text Address.

(** ** [std::net]: parsing

    A parser takes the rest of the input and returns a value and what follows, or
    fails and leaves the input alone ([read_atomically]). *)
Abbreviation parser A := (list ascii -> option (A * list ascii)).

Inductive IpAddr :=
| V4 (octets : list Z)
| V6 (segments : list Z) (scope_id : Z).

Record SocketAddr := MkSocketAddr {
  ip : IpAddr;
  port : Z
}.

(** [char::to_digit] *)
Definition to_digit (radix : Z) (c : ascii) : option Z :=
  let b := Z.of_N (byte_code c) in
  let d := (if is_ascii_digit c then b - 48
            else if is_ascii_lowercase c then b - 87
            else if is_ascii_uppercase c then b - 55 else 255)%Z in
  if (d <? radix)%Z then Some d else None.

Fixpoint read_digits (radix : Z) (acc : Z) (s : list ascii) : Z * nat * list ascii :=
  match s with
  | c :: s' =>
      match to_digit radix c with
      | Some d => let '(v, n, rest) := read_digits radix (acc * radix + d) s' in (v, S n, rest)
      | None => (acc, O, s)
      end
  | [] => (acc, O, s)
  end.

(** [read_number]: at most [max_digits] digits, a value of at most [limit]. *)
Definition read_number (radix : Z) (max_digits : option nat) (allow_zero_prefix : bool) (limit : Z) : parser Z :=
  fun s =>
    let '(v, n, rest) := read_digits radix 0 s in
    if (n =? 0)%nat then None
    else if (if max_digits is Some m then (m <? n)%nat else false) then None
    else if negb allow_zero_prefix && bool_decide (head s = Some "0"%char) && (1 <? n)%nat then None
    else if (limit <? v)%Z then None
    else Some (v, rest).

Definition read_given_char (c : ascii) : parser unit := fun s =>
  match s with
  | d :: s => if bool_decide (d = c) then Some ((), s) else None
  | [] => None
  end.

Definition parser_bind {A B} (p : parser A) (f : A -> parser B) : parser B := fun s =>
  match p s with
  | Some (x, s) => f x s
  | None => None
  end.
Definition parser_ret {A} (x : A) : parser A := fun s => Some (x, s).

Notation "'read!' x := p ; q" := (parser_bind p (fun x => q))
  (at level 10, x pattern, p at level 100, q at level 200) : coactor_scope.

(** [read_separator]: no separator before the first item. *)
Definition read_separator {A} (sep : ascii) (index : nat) (p : parser A) : parser A :=
  match index with
  | O => p
  | S _ => read! _ := read_given_char sep; p
  end.

(** [read_ipv4_addr] *)
Definition read_ipv4_addr : parser (list Z) :=
  let octet i := read_separator "."%char i (read_number 10 (Some 3) false 255) in
  read! a := octet 0; read! b := octet 1; read! c := octet 2; read! d := octet 3;
  parser_ret [a; b; c; d].

(** [read_groups]: the groups read, and whether they end in an IPv4 address;
    [n] groups are left of [limit]. *)
Fixpoint read_groups (n : nat) (limit : nat) (s : list ascii) : list Z * bool * list ascii :=
  match n with
  | O => ([], false, s)
  | S n' =>
      let i := limit - n in
      let group s := match read_separator ":"%char i (read_number 16 (Some 4) true 65535) s with
                     | Some (g, s) => let '(gs, v4, s) := read_groups n' limit s in (g :: gs, v4, s)
                     | None => ([], false, s)
                     end in
      if (i <? limit - 1)%nat then
        match read_separator ":"%char i read_ipv4_addr s with
        | Some ([a; b; c; d], s) => ([a * 256 + b; c * 256 + d]%Z, true, s)
        | _ => group s
        end
      else group s
  end.

(** [read_ipv6_addr] *)
Definition read_ipv6_addr : parser (list Z) := fun s =>
  let '(front, v4, s) := read_groups 8 8 s in
  if (length front =? 8)%nat then Some (front, s)
  else if v4 then None
  else match (read! _ := read_given_char ":"%char; read_given_char ":"%char) s with
       | None => None
       | Some (_, s) =>
           let limit := 8 - (length front + 1) in
           let '(tail, _, s) := read_groups limit limit s in
           Some (front ++ replicate (8 - length front - length tail) 0%Z ++ tail, s)
       end.

Definition read_port : parser Z :=
  read! _ := read_given_char ":"%char; read_number 10 None true U16_MAX.

Definition read_socket_addr_v4 : parser SocketAddr :=
  read! octets := read_ipv4_addr; read! port := read_port; parser_ret (MkSocketAddr (V4 octets) port).

Definition read_scope_id : parser Z :=
  read! _ := read_given_char "%"%char; read_number 10 None true U32_MAX.

Definition read_socket_addr_v6 : parser SocketAddr :=
  read! _ := read_given_char "["%char;
  read! segments := read_ipv6_addr;
  read! scope_id := (fun s => match read_scope_id s with Some r => Some r | None => Some (0%Z, s) end);
  read! _ := read_given_char "]"%char;
  read! port := read_port;
  parser_ret (MkSocketAddr (V6 segments scope_id) port).

(** [str::parse::<SocketAddr>] *)
Definition parse_socket_addr (value : string) : option SocketAddr :=
  let s := as_bytes value in
  match (match read_socket_addr_v4 s with Some r => Some r | None => read_socket_addr_v6 s end) with
  | Some (address, []) => Some address
  | _ => None
  end.

(** ** [std::net]: printing *)
Definition decimal (x : Z) : string := pretty (Z.to_N x).

Definition hex_digit (d : Z) : ascii :=
  ascii_of_N (Z.to_N (if (d <? 10)%Z then d + 48 else d + 87)).

(** [{:x}] of a [u16] *)
Fixpoint hex_digits (n : nat) (x : Z) : string :=
  match n with
  | O => ""
  | S n => if (x <? 16)%Z then String (hex_digit x) ""
           else hex_digits n (x / 16) +:+ String (hex_digit (x mod 16)) ""
  end.
Definition lower_hex (x : Z) : string := hex_digits 4 x.

Definition display_ipv4 (octets : list Z) : string := String.concat "." (decimal <$> octets).

(** The longest run of zero segments, the first of them: its start and length. *)
Fixpoint longest_zeroes (i start len : nat) (best : nat * nat) (segments : list Z) : nat * nat :=
  match segments with
  | [] => best
  | s :: segments =>
      if (s =? 0)%Z then
        let start := if (len =? 0)%nat then i else start in
        let len := S len in
        longest_zeroes (S i) start len (if (best.2 <? len)%nat then (start, len) else best) segments
      else longest_zeroes (S i) 0 0 best segments
  end.

Definition display_groups (segments : list Z) : string := String.concat ":" (lower_hex <$> segments).

Definition display_ipv6 (segments : list Z) : string :=
  match segments with
  | [0; 0; 0; 0; 0; 65535; ab; cd]%Z =>
      "::ffff:" +:+ display_ipv4 [ab / 256; ab mod 256; cd / 256; cd mod 256]%Z
  | _ =>
      let '(start, len) := longest_zeroes 0 0 0 (0, 0) segments in
      if (1 <? len)%nat
      then display_groups (take start segments) +:+ "::" +:+ display_groups (drop (start + len) segments)
      else display_groups segments
  end.

Definition display_socket_addr (a : SocketAddr) : string :=
  match ip a with
  | V4 octets => display_ipv4 octets +:+ ":" +:+ decimal (port a)
  | V6 segments scope_id =>
      "[" +:+ display_ipv6 segments +:+ (if (scope_id =? 0)%Z then "" else "%" +:+ decimal scope_id) +:+
      "]:" +:+ decimal (port a)
  end.

(** ** Other pieces of the standard library *)

(** [str::parse::<u16>]: an optional plus sign, then digits. *)
Definition parse_u16 (s : string) : option Z :=
  let digits := match as_bytes s with "+"%char :: l => l | l => l end in
  match read_number 10 None true U16_MAX digits with
  | Some (v, []) => Some v
  | _ => None
  end.

(** [str::rsplit_once(c)] *)
Fixpoint rsplit_once (c : ascii) (s : string) : option (string * string) :=
  match s with
  | EmptyString => None
  | String d s =>
      match rsplit_once c s with
      | Some (l, r) => Some (String d l, r)
      | None => if bool_decide (d = c) then Some ("", s) else None
      end
  end.

(** [str::to_ascii_lowercase] *)
Definition ascii_lower (c : ascii) : ascii :=
  if is_ascii_uppercase c then ascii_of_N (byte_code c + 32) else c.
Fixpoint to_ascii_lowercase (s : string) : string :=
  match s with
  | EmptyString => EmptyString
  | String c s => String (ascii_lower c) (to_ascii_lowercase s)
  end.

(** ** The code *)

(** [canonical_endpoint] *)
Definition canonical_endpoint (value : string) : option string :=
  if bool_decide (value = "") || contains_str "://" value || contains_char "/"%char value
     || contains_char "?"%char value || contains_char "#"%char value then None
  else match parse_socket_addr value with
  | Some address => if (port address =? 0)%Z then None else Some (display_socket_addr address)
  | None =>
      match rsplit_once ":"%char value with
      | None => None
      | Some (host, port) =>
          if bool_decide (host = "") || starts_with "[" host || ends_with "]" host || contains_char ":"%char host
          then None
          else match parse_u16 port with
          | None => None
          | Some port =>
              let host := to_ascii_lowercase host in
              if (port =? 0)%Z || (253 <? String.length host)%nat
                 || existsb (fun label => negb (is_dns_label label)) (split_on "."%char host)
              then None
              else Some (host +:+ ":" +:+ decimal port)
          end
      end
  end.

(** [parse_listen_address]; [None] is [ServerError::InvalidListenAddress]. *)
Definition parse_listen_address (address : string) : option SocketAddr :=
  match strip_prefix ":" address with
  | Some port =>
      if bool_decide (port = "") || contains_char ":"%char port then None
      else parse_socket_addr ("0.0.0.0:" +:+ port)
  | None => parse_socket_addr address
  end.

Example listen_port : parse_listen_address ":8080" = Some (MkSocketAddr (V4 [0; 0; 0; 0]%Z) 8080).
Proof. reflexivity. Qed.
Example listen_no_host : parse_listen_address "localhost:80" = None.
Proof. reflexivity. Qed.
Example canonical_v6 :
  canonical_endpoint "[2001:0DB8:0:0:1:0:0:1]:00080" = Some "[2001:db8::1:0:0:1]:80".
Proof. vm_compute. reflexivity. Qed.
Example canonical_mapped : canonical_endpoint "[::FFFF:10.0.0.1%7]:9" = Some "[::ffff:10.0.0.1%7]:9".
Proof. vm_compute. reflexivity. Qed.
Example canonical_host : canonical_endpoint "Node-1.Example:+080" = Some "node-1.example:80".
Proof. vm_compute. reflexivity. Qed.
Example canonical_v4 : canonical_endpoint "10.0.0.1:1" = Some "10.0.0.1:1".
Proof. vm_compute. reflexivity. Qed.
Example canonical_v4_zeros : canonical_endpoint "10.0.0.01:1" = Some "10.0.0.01:1".
Proof. vm_compute. reflexivity. Qed.
