(* ===== verification/EndpointProps.v ===== *)
(** * Canonical endpoints are canonical

    The parser and the printer of [Endpoint] are inverse on socket addresses, and
    what [canonical_endpoint] returns is a normal form: it is accepted, left as it
    is, and the same for every text of one socket address.  An endpoint is a key of the connection pools and the default node id,
    so two spellings of an address must not survive as two endpoints. *)

From stdpp Require Import pretty.
From S2P Require Import Prelude Text Address Endpoint.

(** ** Numbers

    [value radix acc ds]: the value of digits, read from the left. *)
Definition no_digit (radix : Z) (rest : list ascii) : Prop :=
  match rest with
  | c :: _ => to_digit radix c = None
  | [] => True
  end.

(** [reads radix acc ds v]: all of [ds] are digits, and reading them takes [acc] to [v]. *)
Definition reads (radix acc : Z) (ds : list ascii) (v : Z) : Prop :=
  read_digits radix acc ds = (v, length ds, []).

Lemma reads_nil radix acc v : reads radix acc [] v <-> v = acc.
Proof. unfold reads. cbn. split; [by intros [= <-] | by intros ->]. Qed.

Lemma reads_cons radix acc c ds v :
  reads radix acc (c :: ds) v <-> exists d, to_digit radix c = Some d /\ reads radix (acc * radix + d) ds v.
Proof.
  unfold reads. cbn. destruct (to_digit radix c) as [d |]; [| split; [done | by intros (? & ? & _)]].
  destruct (read_digits radix (acc * radix + d) ds) as [[v' n] rest] eqn:Hr. split.
  - intros [= -> -> ->]. by exists d.
  - intros (d' & [= <-] & Hd). rewrite Hr in Hd. by injection Hd as -> -> ->.
Qed.

Lemma reads_app radix acc ds1 ds2 v :
  reads radix acc (ds1 ++ ds2) v <-> exists u, reads radix acc ds1 u /\ reads radix u ds2 v.
Proof.
  revert acc. induction ds1 as [| c ds1 IH]; intros acc; cbn [app].
  - split; [intros H; exists acc; by rewrite reads_nil | by intros (u & ->%reads_nil & H)].
  - rewrite reads_cons. split.
    + intros (d & Hd & (u & H1 & H2)%IH). exists u. rewrite reads_cons. eauto.
    + intros (u & (d & Hd & H1)%reads_cons & H2). exists d. rewrite IH. eauto.
Qed.

(** Reading goes on to the first character that is no digit. *)
Lemma read_digits_rest radix acc ds v rest :
  reads radix acc ds v -> no_digit radix rest -> read_digits radix acc (ds ++ rest) = (v, length ds, rest).
Proof.
  revert acc. induction ds as [| c ds IH]; intros acc Hr Hn.
  - apply reads_nil in Hr as ->. destruct rest as [| c rest]; [done |]. cbn in *. by rewrite Hn.
  - apply reads_cons in Hr as (d & Hd & Hr). cbn. rewrite Hd. by rewrite (IH _ Hr Hn).
Qed.

Lemma read_digits_inv radix acc s v n rest :
  read_digits radix acc s = (v, n, rest) ->
  exists ds, s = ds ++ rest /\ n = length ds /\ reads radix acc ds v /\ no_digit radix rest.
Proof.
  revert acc v n. induction s as [| c s IH]; intros acc v n; cbn.
  - intros [= <- <- <-]. exists []. by rewrite reads_nil.
  - destruct (to_digit radix c) as [d |] eqn:Hd.
    + destruct (read_digits radix (acc * radix + d) s) as [[v' n'] rest'] eqn:Hr. intros [= <- <- <-].
      destruct (IH _ _ _ Hr) as (ds & -> & -> & Hds & Hn). exists (c :: ds). split_and!; [done | done | | done].
      apply reads_cons. eauto.
    + intros [= <- <- <-]. exists []. split_and!; [done | done | by apply reads_nil | done].
Qed.

Lemma read_number_ok radix m zero limit ds v rest :
  reads radix 0 ds v -> no_digit radix rest -> ds <> [] ->
  (forall k, m = Some k -> length ds <= k) ->
  (zero = false -> head ds = Some "0"%char -> length ds = 1) -> (v <= limit)%Z ->
  read_number radix m zero limit (ds ++ rest) = Some (v, rest).
Proof.
  intros Hr Hn Hne Hm Hz Hl. unfold read_number. rewrite (read_digits_rest _ _ _ _ _ Hr Hn).
  destruct ds as [| c ds]; [done |]. cbn [length app head Nat.eqb].
  replace (if m is Some k then (k <? S (length ds))%nat else false) with false; cycle 1.
  { destruct m as [k |]; [| done]. symmetry. apply Nat.ltb_ge. by apply Hm. }
  replace (negb zero && bool_decide (Some c = Some "0"%char) && (1 <? S (length ds))%nat) with false; cycle 1.
  { destruct zero; [done |]. case_bool_decide as Hc; [| done]. cbn in Hz. rewrite (Hz eq_refl Hc). done. }
  by destruct (Z.ltb_spec limit v); [lia |].
Qed.

Lemma read_number_inv radix m zero limit s v rest :
  read_number radix m zero limit s = Some (v, rest) ->
  exists ds, s = ds ++ rest /\ ds <> [] /\ reads radix 0 ds v /\ no_digit radix rest /\
             (zero = false -> head ds = Some "0"%char -> length ds = 1) /\ (v <= limit)%Z.
Proof.
  unfold read_number. destruct (read_digits radix 0 s) as [[v' n] rest'] eqn:Hr.
  destruct (read_digits_inv _ _ _ _ _ _ Hr) as (ds & -> & -> & Hds & Hn).
  destruct ds as [| c ds]; [done |]. cbn [length app head Nat.eqb].
  destruct (if m is Some k then (k <? S (length ds))%nat else false); [done |].
  destruct (negb zero && bool_decide (Some c = Some "0"%char) && (1 <? S (length ds))%nat) eqn:Hz; [done |].
  destruct (Z.ltb_spec limit v'); [done |]. intros [= <- <-].
  exists (c :: ds). split_and!; try done. cbn [head]. intros -> Hc. rewrite bool_decide_eq_true_2 in Hz by done.
  cbn in Hz. destruct ds; [done | by cbn in Hz].
Qed.

(** A digit has a value below the radix. *)
Lemma to_digit_bounds radix c d : to_digit radix c = Some d -> (0 <= d < radix)%Z.
Proof.
  unfold to_digit, is_ascii_digit, is_ascii_lowercase, is_ascii_uppercase. intros H.
  repeat case_match; simplify_eq;
    repeat match goal with
    | H : (_ <? _)%Z = true |- _ => apply Z.ltb_lt in H
    | H : _ && _ = true |- _ => apply andb_true_iff in H as [?%N.leb_le ?%N.leb_le]
    end; lia.
Qed.

Lemma reads_bound radix acc ds v : (0 < radix)%Z -> (0 <= acc)%Z -> reads radix acc ds v -> (acc <= v)%Z.
Proof.
  intros Hr. revert acc. induction ds as [| c ds IH]; intros acc Ha; [rewrite reads_nil; lia |].
  intros (d & Hd%to_digit_bounds & Hv)%reads_cons. apply IH in Hv; nia.
Qed.

(** ** Decimal numbers *)
Lemma pretty_N_char_digit c d : to_digit 10 c = Some d -> pretty_N_char (Z.to_N d) = c.
Proof. destruct c as [[] [] [] [] [] [] [] []]; first [done | by intros [= <-]]. Qed.

Lemma to_digit_pretty x : (x < 10)%N -> to_digit 10 (pretty_N_char x) = Some (Z.of_N x).
Proof.
  intros Hx. assert (x = 0 \/ x = 1 \/ x = 2 \/ x = 3 \/ x = 4 \/ x = 5 \/ x = 6 \/ x = 7 \/ x = 8 \/ x = 9)%N by lia.
  by repeat match goal with H : _ \/ _ |- _ => destruct H as [-> | H] | H : _ = _ |- _ => subst end.
Qed.

Lemma as_bytes_app s t : as_bytes (s +:+ t) = as_bytes s ++ as_bytes t.
Proof. induction s as [| c s IH]; [done |]. rewrite string_app_cons. cbn. f_equal. exact IH. Qed.

Lemma as_bytes_cons c s : as_bytes (String c s) = c :: as_bytes s.
Proof. done. Qed.

Lemma as_bytes_of l : as_bytes (string_of_list_ascii l) = l.
Proof. apply list_ascii_of_string_of_list_ascii. Qed.

Lemma as_bytes_inj s t : as_bytes s = as_bytes t -> s = t.
Proof.
  intros H. rewrite <- (string_of_list_ascii_of_string s), <- (string_of_list_ascii_of_string t). by f_equal.
Qed.

Lemma leading_digit c ds v : reads 10 0 (c :: ds) v -> c <> "0"%char -> (1 <= v)%Z.
Proof.
  intros (d & Hd & Hv)%reads_cons Hc. pose proof (to_digit_bounds _ _ _ Hd).
  assert (d <> 0%Z) by (intros ->; apply Hc; symmetry; exact (pretty_N_char_digit _ _ Hd)).
  apply reads_bound in Hv; lia.
Qed.

(** The digits of a number: what the printer puts in front of [s]. *)
Lemma pretty_N_go_digits x s :
  exists ds, as_bytes (pretty_N_go x s) = ds ++ as_bytes s /\ reads 10 0 ds (Z.of_N x) /\
    head ds <> Some "0"%char /\ (x <> 0%N -> ds <> []) /\
    (forall k, (x < 10 ^ N.of_nat k)%N -> length ds <= k).
Proof.
  revert s. induction (N.lt_wf_0 x) as [x _ IH]; intros s. destruct (decide (x = 0%N)) as [-> | Hx].
  { exists []. split_and!; [done | by apply reads_nil | done | done | intros; cbn; lia]. }
  rewrite pretty_N_go_step by lia. set (c := pretty_N_char (x `mod` 10)).
  destruct (IH (x `div` 10)%N ltac:(apply N.div_lt; lia) (String c s)) as (ds & Hds & Hr & Hh & Hne & Hlen).
  pose proof (N.div_mod x 10 ltac:(lia)) as Hdm. pose proof (N.mod_lt x 10 ltac:(lia)) as Hm.
  pose proof (to_digit_pretty _ Hm) as Hc.
  exists (ds ++ [c]). split_and!.
  - rewrite Hds, <- app_assoc. done.
  - apply reads_app. exists (Z.of_N (x `div` 10)). split; [done |]. apply reads_cons.
    exists (Z.of_N (x `mod` 10)). split; [done |]. apply reads_nil. lia.
  - destruct (decide ((x `div` 10)%N = 0%N)) as [Hz | Hz].
    + destruct ds as [| d ds]; [| done]. cbn. intros [= H0]. fold c in Hc. rewrite H0 in Hc. cbn in Hc.
      injection Hc as Hc. lia.
    + specialize (Hne Hz). by destruct ds.
  - intros _ Happ. by apply app_eq_nil in Happ as [_ ?].
  - intros k Hk. rewrite length_app. cbn. destruct k as [| k]; [cbn in Hk; lia |].
    assert (length ds <= k); [| lia]. apply Hlen. rewrite Nat2N.inj_succ, N.pow_succ_r' in Hk.
    apply N.Div0.div_lt_upper_bound. lia.
Qed.

Lemma decimal_digits x :
  (0 <= x)%Z ->
  let ds := as_bytes (decimal x) in
  reads 10 0 ds x /\ ds <> [] /\ (head ds = Some "0"%char -> length ds = 1) /\
  (forall k, (x < 10 ^ Z.of_nat (S k))%Z -> length ds <= S k).
Proof.
  intros Hx. unfold decimal, pretty, pretty_N. destruct (decide (Z.to_N x = 0%N)) as [H0 | H0].
  - assert (x = 0%Z) as -> by lia. cbn. split_and!; [done | done | done | intros; lia].
  - destruct (pretty_N_go_digits (Z.to_N x) "") as (ds & -> & Hr & Hh & Hne & Hlen). cbn zeta.
    change (as_bytes "") with (@nil ascii). rewrite app_nil_r, Z2N.id in * by lia.
    split_and!; [done | by apply Hne | done |]. intros k Hk. apply Hlen.
    apply N2Z.inj_lt. rewrite Z2N.id, N2Z.inj_pow by lia. rewrite nat_N_Z. exact Hk.
Qed.

(** Digits without a leading zero are the digits the printer gives. *)
Lemma digits_unique ds v s :
  reads 10 0 ds v -> ds <> [] -> head ds <> Some "0"%char ->
  as_bytes (pretty_N_go (Z.to_N v) s) = ds ++ as_bytes s.
Proof.
  revert v s. induction ds as [| c ds IH] using rev_ind; intros v s Hr Hne Hh; [done |].
  apply reads_app in Hr as (u & Hu & (d & Hd & Hv)%reads_cons). apply reads_nil in Hv as ->.
  pose proof (to_digit_bounds _ _ _ Hd) as Hb. pose proof (pretty_N_char_digit _ _ Hd) as Hc.
  destruct ds as [| c0 ds].
  - apply reads_nil in Hu as ->. assert (d <> 0%Z) by (intros ->; by rewrite <- Hc in Hh).
    rewrite pretty_N_go_step by lia. replace (Z.to_N (0 * 10 + d) `div` 10)%N with 0%N
      by (symmetry; apply N.div_small; lia). rewrite pretty_N_go_0.
    rewrite N.mod_small by lia. cbn [as_bytes list_ascii_of_string app]. by rewrite <- Hc.
  - assert (Hc0 : c0 <> "0"%char) by (intros ->; by apply Hh). pose proof (leading_digit _ _ _ Hu Hc0).
    rewrite pretty_N_go_step by lia.
    replace (Z.to_N (u * 10 + d) `div` 10)%N with (Z.to_N u); cycle 1.
    { apply N2Z.inj. rewrite N2Z.inj_div, !Z2N.id by lia. cbn. rewrite Z.div_add_l by lia. rewrite Z.div_small by lia. lia. }
    replace (Z.to_N (u * 10 + d) `mod` 10)%N with (Z.to_N d); cycle 1.
    { apply N2Z.inj. rewrite N2Z.inj_mod, !Z2N.id by lia. cbn. rewrite Z.add_comm, Z.mod_add by lia. by rewrite Z.mod_small. }
    rewrite Hc. rewrite (IH u (String c s) Hu ltac:(done) ltac:(intros [= ?]; done)).
    cbn [as_bytes list_ascii_of_string]. by rewrite <- app_assoc.
Qed.

Lemma decimal_unique ds v :
  reads 10 0 ds v -> ds <> [] -> (head ds = Some "0"%char -> length ds = 1) -> ds = as_bytes (decimal v).
Proof.
  intros Hr Hne Hz. unfold decimal, pretty, pretty_N. destruct (decide (head ds = Some "0"%char)) as [Hh | Hh].
  - specialize (Hz Hh). destruct ds as [| c [| c' ds]]; [done | | done]. injection Hh as ->.
    apply reads_cons in Hr as (d & [= <-] & ->%reads_nil). done.
  - pose proof (digits_unique ds v "" Hr Hne Hh) as Hu. destruct ds as [| c ds]; [done |].
    assert (c <> "0"%char) by (intros ->; by apply Hh). pose proof (leading_digit _ _ _ Hr ltac:(done)).
    rewrite decide_False by lia. rewrite Hu. by rewrite app_nil_r.
Qed.

(** ** Hexadecimal groups *)
Lemma to_digit_hex d : (0 <= d < 16)%Z -> to_digit 16 (hex_digit d) = Some d.
Proof.
  intros Hd. assert (d = 0 \/ d = 1 \/ d = 2 \/ d = 3 \/ d = 4 \/ d = 5 \/ d = 6 \/ d = 7 \/ d = 8 \/ d = 9 \/
                     d = 10 \/ d = 11 \/ d = 12 \/ d = 13 \/ d = 14 \/ d = 15)%Z by lia.
  by repeat match goal with H : _ \/ _ |- _ => destruct H as [-> | H] | H : _ = _ |- _ => subst end.
Qed.

Lemma hex_digits_reads n x :
  (0 <= x < 16 ^ Z.of_nat (S n))%Z ->
  reads 16 0 (as_bytes (hex_digits (S n) x)) x /\ as_bytes (hex_digits (S n) x) <> [] /\
  length (as_bytes (hex_digits (S n) x)) <= S n.
Proof.
  revert x. induction n as [| n IH]; intros x Hx; cbn [hex_digits]; destruct (Z.ltb_spec x 16) as [Hlt | Hge].
  1, 3: cbn [as_bytes list_ascii_of_string length]; split_and!; [| done | lia];
    apply reads_cons; exists x; split; [apply to_digit_hex; lia | by apply reads_nil].
  - rewrite Z.pow_1_r in Hx. lia.
  - rewrite as_bytes_app, length_app. cbn [as_bytes list_ascii_of_string length].
    assert (Hdiv : (0 <= x / 16 < 16 ^ Z.of_nat (S n))%Z).
    { rewrite Nat2Z.inj_succ, Z.pow_succ_r in Hx by lia. split; [apply Z.div_pos; lia | apply Z.div_lt_upper_bound; lia]. }
    destruct (IH _ Hdiv) as (Hr & Hne & Hlen). pose proof (Z.div_mod x 16 ltac:(lia)).
    pose proof (Z.mod_pos_bound x 16 ltac:(lia)). split_and!.
    + apply reads_app. exists (x / 16)%Z. split; [exact Hr |]. apply reads_cons. exists (x mod 16)%Z.
      split; [by apply to_digit_hex |]. apply reads_nil. lia.
    + intros [_ ?]%app_eq_nil. done.
    + change (length (as_bytes (hex_digits (S n) (x / 16))) <= S n) in Hlen. cbn [hex_digits] in Hlen |- *. lia.
Qed.

Definition group (x : Z) : Prop := (0 <= x <= U16_MAX)%Z.

Lemma read_group x rest :
  group x -> no_digit 16 rest ->
  read_number 16 (Some 4) true 65535 (as_bytes (lower_hex x) ++ rest) = Some (x, rest).
Proof.
  unfold group, U16_MAX. intros Hx Hn. destruct (hex_digits_reads 3 x) as (Hr & Hne & Hlen); [cbn; lia |].
  apply read_number_ok; try done; [| lia]. intros k [= <-]. exact Hlen.
Qed.

(** ** IPv4 addresses and ports *)
Definition octet (x : Z) : Prop := (0 <= x <= 255)%Z.

Lemma byte_pair x : group x -> octet (x / 256) /\ octet (x mod 256).
Proof.
  unfold group, octet, U16_MAX. intros Hx. pose proof (Z.mod_pos_bound x 256 ltac:(lia)). split; [| lia].
  split; [apply Z.div_pos; lia |]. assert (x / 256 < 256)%Z; [apply Z.div_lt_upper_bound; lia | lia].
Qed.

Lemma read_octet x rest :
  octet x -> no_digit 10 rest ->
  read_number 10 (Some 3) false 255 (as_bytes (decimal x) ++ rest) = Some (x, rest).
Proof.
  unfold octet. intros Hx Hn. destruct (decimal_digits x ltac:(lia)) as (Hr & Hne & Hz & Hlen).
  apply read_number_ok; try done; [| lia]. intros k [= <-]. apply (Hlen 2). cbn. lia.
Qed.

Lemma read_octet_inv s x rest :
  read_number 10 (Some 3) false 255 s = Some (x, rest) ->
  octet x /\ s = as_bytes (decimal x) ++ rest /\ no_digit 10 rest.
Proof.
  intros (ds & -> & Hne & Hr & Hn & Hz & Hl)%read_number_inv.
  assert (0 <= x)%Z by (apply reads_bound in Hr; lia). split_and!; [by split | | done].
  f_equal. apply decimal_unique; auto.
Qed.

Lemma display_ipv4_bytes a b c d :
  as_bytes (display_ipv4 [a; b; c; d]) =
  as_bytes (decimal a) ++ "."%char :: as_bytes (decimal b) ++ "."%char :: as_bytes (decimal c) ++ "."%char ::
  as_bytes (decimal d).
Proof. unfold display_ipv4. cbn [fmap list_fmap String.concat]. by rewrite !as_bytes_app. Qed.

Lemma parser_bind_ok {A B} (p : parser A) (f : A -> parser B) s x rest :
  p s = Some (x, rest) -> parser_bind p f s = f x rest.
Proof. unfold parser_bind. by intros ->. Qed.

Lemma parser_bind_inv {A B} (p : parser A) (f : A -> parser B) s r :
  parser_bind p f s = Some r -> exists x rest, p s = Some (x, rest) /\ f x rest = Some r.
Proof. unfold parser_bind. destruct (p s) as [[x rest] |]; [eauto | done]. Qed.

Lemma read_given_char_inv c s x rest : read_given_char c s = Some (x, rest) -> s = c :: rest.
Proof. destruct s as [| d s]; [done |]. cbn. case_bool_decide; [| done]. by intros [= <-]; subst. Qed.

Lemma read_dot_octet i x rest :
  octet x -> no_digit 10 rest ->
  read_separator "."%char (S i) (read_number 10 (Some 3) false 255) ("."%char :: as_bytes (decimal x) ++ rest) = Some (x, rest).
Proof.
  intros Hx Hn. cbn [read_separator]. erewrite parser_bind_ok by done. by apply read_octet.
Qed.

Lemma read_ipv4_display a b c d rest :
  octet a -> octet b -> octet c -> octet d -> no_digit 10 rest ->
  read_ipv4_addr (as_bytes (display_ipv4 [a; b; c; d]) ++ rest) = Some ([a; b; c; d], rest).
Proof.
  intros Ha Hb Hc Hd Hn. rewrite display_ipv4_bytes. repeat (rewrite <- app_assoc; cbn [app]).
  unfold read_ipv4_addr. erewrite parser_bind_ok by by apply read_octet.
  do 3 (erewrite parser_bind_ok by by apply read_dot_octet). done.
Qed.

Lemma read_ipv4_inv s os rest :
  read_ipv4_addr s = Some (os, rest) ->
  exists a b c d, os = [a; b; c; d] /\ octet a /\ octet b /\ octet c /\ octet d /\
    s = as_bytes (display_ipv4 [a; b; c; d]) ++ rest /\ no_digit 10 rest.
Proof.
  assert (Hdot : forall i s x rest, read_separator "."%char (S i) (read_number 10 (Some 3) false 255) s = Some (x, rest) ->
    octet x /\ s = "."%char :: as_bytes (decimal x) ++ rest /\ no_digit 10 rest).
  { intros i s1 x r (? & s2 & Hdot & (H1 & -> & H2)%read_octet_inv)%parser_bind_inv.
    by apply read_given_char_inv in Hdot as ->. }
  unfold read_ipv4_addr. intros (a & s1 & Ha & (b & s2 & Hb & (c & s3 & Hc & (d & s4 & Hd & H)%parser_bind_inv)%parser_bind_inv)%parser_bind_inv)%parser_bind_inv.
  injection H as <- <-.
  apply read_octet_inv in Ha as (Ha & -> & _). apply Hdot in Hb as (Hb & -> & _).
  apply Hdot in Hc as (Hc & -> & _). apply Hdot in Hd as (Hd & -> & Hn).
  exists a, b, c, d. split_and!; try done. rewrite display_ipv4_bytes.
  repeat (rewrite <- app_assoc; cbn [app]). done.
Qed.

Definition port_ok (p : Z) : Prop := (0 <= p <= U16_MAX)%Z.

Lemma read_port_display p : port_ok p -> read_port (":"%char :: as_bytes (decimal p)) = Some (p, []).
Proof.
  unfold port_ok, read_port, parser_bind. intros Hp. cbn [read_given_char]. rewrite bool_decide_eq_true_2 by done.
  destruct (decimal_digits p ltac:(lia)) as (Hr & Hne & Hz & _). rewrite <- (app_nil_r (as_bytes (decimal p))).
  apply read_number_ok; try done. lia.
Qed.

Lemma read_port_inv s p rest :
  read_port s = Some (p, rest) -> port_ok p /\ exists ds, s = ":"%char :: ds ++ rest /\ reads 10 0 ds p.
Proof.
  intros (? & s1 & ->%read_given_char_inv & (ds & -> & _ & Hr & _ & _ & Hl)%read_number_inv)%parser_bind_inv.
  pose proof (reads_bound 10 0 ds p ltac:(lia) ltac:(lia) Hr). split; [by split | eauto].
Qed.

(** ** IPv6 addresses *)

(** What may follow a group: neither a digit nor the start of an IPv4 address. *)
Definition ends (rest : list ascii) : Prop :=
  match rest with
  | c :: _ => to_digit 16 c = None /\ c <> "."%char
  | [] => False
  end.

Lemma to_digit_16_10 c : to_digit 16 c = None -> to_digit 10 c = None.
Proof. unfold to_digit. cbv zeta. repeat case_match; rewrite ?Z.ltb_lt, ?Z.ltb_ge in *; done || lia. Qed.

Lemma reads_excludes radix acc ds v c : reads radix acc ds v -> to_digit radix c = None -> Forall (fun d => d <> c) ds.
Proof.
  revert acc. induction ds as [| d ds IH]; intros acc Hr Hc; [constructor |].
  apply reads_cons in Hr as (x & Hd & Hr). constructor; [intros ->; congruence | by eapply IH].
Qed.

Lemma read_number_none radix m zero limit rest :
  no_digit radix rest -> read_number radix m zero limit rest = None.
Proof.
  intros Hn. unfold read_number. pose proof (read_digits_rest radix 0 [] 0 rest) as Hr. cbn [app] in Hr.
  rewrite Hr; [done | by apply reads_nil | done].
Qed.

(** An IPv4 address starts with digits and a dot. *)
Lemma read_ipv4_none (l : list ascii) c r :
  Forall (fun d => d <> "."%char) l -> to_digit 10 c = None -> c <> "."%char -> read_ipv4_addr (l ++ c :: r) = None.
Proof.
  intros Hl Hc Hdot. destruct (read_ipv4_addr (l ++ c :: r)) as [[os rest] |] eqn:H; [| done]. exfalso.
  apply read_ipv4_inv in H as (x & ? & ? & ? & _ & Hx & _ & _ & _ & Heq & _). rewrite display_ipv4_bytes, <- app_assoc in Heq.
  destruct (decimal_digits x ltac:(destruct Hx; lia)) as (Hr & _). revert Hr Heq. generalize (as_bytes (decimal x)) 0%Z.
  induction l as [| d l IH]; intros ds acc Hr Heq.
  - destruct ds as [| d ds]; cbn in Heq; [congruence |]. injection Heq as -> _. apply reads_cons in Hr as (y & Hy & _). congruence.
  - apply Forall_cons in Hl as [Hd Hl]. destruct ds as [| d' ds]; cbn in Heq; [congruence |].
    injection Heq as -> Heq. apply reads_cons in Hr as (y & _ & Hr). by eapply IH.
Qed.

Fixpoint groups_text (i : nat) (gs : list Z) : list ascii :=
  match gs with
  | [] => []
  | g :: gs => (if i is O then [] else [":"%char]) ++ as_bytes (lower_hex g) ++ groups_text (S i) gs
  end.

Lemma display_groups_text gs : as_bytes (display_groups gs) = groups_text 0 gs.
Proof.
  assert (Hs : forall gs i, groups_text (S i) gs = match gs with [] => [] | _ => ":"%char :: as_bytes (display_groups gs) end).
  { clear gs. induction gs as [| g gs IH]; intros i; [done |]. cbn [groups_text]. rewrite IH. cbn [app]. f_equal.
    unfold display_groups. cbn [fmap list_fmap String.concat]. destruct gs; cbn [list_fmap fmap]; [by rewrite app_nil_r |].
    by rewrite !as_bytes_app. }
  destruct gs as [| g gs]; [done |]. cbn [groups_text]. rewrite Hs. unfold display_groups.
  cbn [fmap list_fmap String.concat app]. destruct gs; cbn [list_fmap fmap]; [by rewrite app_nil_r |]. by rewrite !as_bytes_app.
Qed.

Lemma text_ends i gs rest : ends rest -> ends (groups_text (S i) gs ++ rest).
Proof. intros He. destruct gs; [done |]. by split. Qed.

Lemma ends_no_digit rest : ends rest -> no_digit 16 rest.
Proof. destruct rest; [done |]. by intros [? _]. Qed.

Lemma hex_then_no_ipv4 g rest : group g -> ends rest -> read_ipv4_addr (as_bytes (lower_hex g) ++ rest) = None.
Proof.
  unfold group, U16_MAX. intros Hg He. destruct rest as [| c r]; [done |]. destruct He as [Hc Hdot].
  destruct (hex_digits_reads 3 g) as (Hr & _); [cbn; lia |].
  apply read_ipv4_none; [by eapply reads_excludes | by apply to_digit_16_10 | done].
Qed.

(** No group can be read at index [i]. *)
Definition stops (i : nat) (rest : list ascii) : Prop :=
  read_separator ":"%char i (read_number 16 (Some 4) true 65535) rest = None /\
  read_separator ":"%char i read_ipv4_addr rest = None.

Lemma read_groups_text gs n limit rest :
  length gs <= n -> n <= limit -> Forall group gs -> ends rest ->
  (length gs < n -> stops (limit - (n - length gs)) rest) ->
  read_groups n limit (groups_text (limit - n) gs ++ rest) = (gs, false, rest).
Proof.
  revert n. induction gs as [| g gs IH]; intros n Hlen Hle Hall He Hst.
  - destruct n as [| n]; [done |]. cbn [groups_text app]. destruct (Hst ltac:(cbn; lia)) as [H1 H2].
    cbn [length] in H1, H2. rewrite Nat.sub_0_r in H1, H2. cbn [read_groups]. rewrite H1, H2. by destruct (_ <? _)%nat.
  - destruct n as [| n]; [cbn in Hlen; lia |]. apply Forall_cons in Hall as [Hg Hall]. cbn [length] in *.
    set (i := limit - S n). assert (Hi : S i = limit - n) by lia.
    assert (Hsep : forall A (p : parser A), read_separator ":"%char i p
      (groups_text i (g :: gs) ++ rest) = p (as_bytes (lower_hex g) ++ groups_text (limit - n) gs ++ rest)).
    { intros A p. cbn [groups_text]. rewrite Hi. destruct i; cbn [app read_separator]; [by rewrite <- app_assoc |].
      erewrite parser_bind_ok by done. by rewrite <- app_assoc. }
    assert (Hends : ends (groups_text (limit - n) gs ++ rest)) by (rewrite <- Hi; by apply text_ends).
    cbn [read_groups]. fold i. rewrite !Hsep. rewrite (hex_then_no_ipv4 g _ Hg Hends).
    rewrite (read_group g _ Hg (ends_no_digit _ Hends)). rewrite (IH n); [| lia | lia | done | done |].
    + by destruct (_ <? _)%nat.
    + intros Hlt. replace (limit - (n - length gs)) with (limit - (S n - S (length gs))) by lia. apply Hst. lia.
Qed.

Lemma stops_colon i r : stops 0 (":"%char :: r) /\ stops (S i) (":"%char :: ":"%char :: r).
Proof.
  assert (H1 : forall r, read_number 16 (Some 4) true 65535 (":"%char :: r) = None) by (intros; by apply read_number_none).
  assert (H2 : forall r, read_ipv4_addr (":"%char :: r) = None) by (intros r'; by apply (read_ipv4_none [] ":"%char r')).
  split; split; cbn [read_separator]; rewrite ?H1, ?H2; try done; erewrite parser_bind_ok by done; by rewrite ?H1, ?H2.
Qed.

Lemma stops_other i c r : to_digit 16 c = None -> c <> "."%char -> c <> ":"%char -> stops i (c :: r).
Proof.
  intros Hc Hdot Hcol. destruct i as [| i]; split; cbn [read_separator].
  - by apply read_number_none.
  - apply (read_ipv4_none []); [constructor | by apply to_digit_16_10 | done].
  - unfold parser_bind. cbn [read_given_char]. by rewrite bool_decide_eq_false_2.
  - unfold parser_bind. cbn [read_given_char]. by rewrite bool_decide_eq_false_2.
Qed.

(** [zeroes segments (s, l)]: [l] segments from [s] on are zero. *)
Definition zeroes (segments : list Z) (run : nat * nat) : Prop :=
  take run.2 (drop run.1 segments) = replicate run.2 0%Z.

Lemma longest_zeroes_sound pre segments start len best :
  zeroes (pre ++ segments) best -> len <= length pre -> (len = 0 \/ start = length pre - len) ->
  drop (length pre - len) pre = replicate len 0%Z ->
  zeroes (pre ++ segments) (longest_zeroes (length pre) start len best segments).
Proof.
  revert pre start len best. induction segments as [| s segments IH]; intros pre start len best Hb Hlen Hst Hrun; [done |].
  cbn [longest_zeroes]. replace (S (length pre)) with (length (pre ++ [s])) by (rewrite length_app; cbn; lia).
  assert (Happ : pre ++ s :: segments = (pre ++ [s]) ++ segments) by by rewrite <- app_assoc. rewrite Happ in Hb |- *.
  destruct (Z.eqb_spec s 0) as [-> | Hs]; cycle 1.
  { apply IH; [done | lia | by left |]. rewrite Nat.sub_0_r, drop_all. done. }
  assert (Hstart : (if (len =? 0)%nat then length pre else start) = length (pre ++ [0%Z]) - S len).
  { rewrite length_app. cbn. destruct (Nat.eqb_spec len 0) as [-> | ?]; [lia | destruct Hst; lia]. }
  assert (Hrun' : drop (length (pre ++ [0%Z]) - S len) (pre ++ [0%Z]) = replicate (S len) 0%Z).
  { rewrite length_app. cbn [length]. replace (length pre + 1 - S len) with (length pre - len) by lia.
    rewrite drop_app_le by lia. rewrite Hrun. by rewrite replicate_S_end. }
  assert (S len <= length (pre ++ [0%Z])) by (rewrite length_app; cbn; lia).
  apply IH; [| done | by right | done].
  destruct (best.2 <? S len)%nat; [| done]. unfold zeroes. cbn [fst snd]. rewrite Hstart.
  rewrite drop_app_le by lia. rewrite Hrun'. rewrite take_app_le by (by rewrite length_replicate).
  by rewrite take_replicate, Nat.min_id.
Qed.

Lemma zero_run segments start len :
  longest_zeroes 0 0 0 (0, 0) segments = (start, len) ->
  segments = take start segments ++ replicate len 0%Z ++ drop (start + len) segments.
Proof.
  intros H. pose proof (longest_zeroes_sound [] segments 0 0 (0, 0) eq_refl ltac:(done) ltac:(by left) eq_refl) as Hz.
  cbn [length app] in Hz. rewrite H in Hz. unfold zeroes in Hz. cbn [fst snd] in Hz.
  rewrite <- Hz, <- drop_drop, take_drop, take_drop. done.
Qed.

(** The text of an IPv6 address with its zero run cut out, and as a whole. *)
Definition ipv6_text (segments : list Z) : string :=
  let '(start, len) := longest_zeroes 0 0 0 (0, 0) segments in
  if (1 <? len)%nat
  then display_groups (take start segments) +:+ "::" +:+ display_groups (drop (start + len) segments)
  else display_groups segments.

Lemma display_ipv6_cases segments :
  (exists ab cd, segments = [0; 0; 0; 0; 0; 65535; ab; cd]%Z /\
     display_ipv6 segments = "::ffff:" +:+ display_ipv4 [ab / 256; ab mod 256; cd / 256; cd mod 256]%Z) \/
  display_ipv6 segments = ipv6_text segments.
Proof.
  unfold display_ipv6. fold (ipv6_text segments). repeat case_match; subst; first [by right | left; by do 2 eexists].
Qed.

(** What ends an IPv6 address in the text of a socket address. *)
Definition closes (rest : list ascii) : Prop := exists r, rest = "]"%char :: r \/ rest = "%"%char :: r.

Lemma closes_ends rest i : closes rest -> ends rest /\ stops i rest /\ no_digit 10 rest.
Proof. intros [r [-> | ->]]; (split; [by split | split; [by apply stops_other | done]]). Qed.

Lemma read_ipv6_text segments rest :
  length segments = 8 -> Forall group segments -> closes rest ->
  read_ipv6_addr (as_bytes (ipv6_text segments) ++ rest) = Some (segments, rest).
Proof.
  intros Hlen Hall Hcl. unfold ipv6_text, read_ipv6_addr.
  destruct (longest_zeroes 0 0 0 (0, 0) segments) as [start len] eqn:Hz. apply zero_run in Hz.
  destruct (Nat.ltb_spec 1 len) as [Hl | Hl].
  - set (front := take start segments) in *. set (tail := drop (start + len) segments) in *.
    assert (Hsum : length front + len + length tail = 8).
    { rewrite <- Hlen, Hz at 1. rewrite !length_app, length_replicate. lia. }
    rewrite Hz in Hall. apply Forall_app in Hall as [Hf [_ Ht]%Forall_app].
    rewrite !as_bytes_app, !display_groups_text. cbn [as_bytes list_ascii_of_string]. rewrite <- !app_assoc. cbn [app].
    rewrite (read_groups_text front 8 8); [| lia | done | done | by split | ]; cycle 1.
    { intros _. replace (8 - (8 - length front)) with (length front) by lia.
      destruct (length front) as [| i]; [exact (proj1 (stops_colon 0 _)) | exact (proj2 (stops_colon i _))]. }
    replace (length front =? 8)%nat with false by (symmetry; apply Nat.eqb_neq; lia).
    erewrite parser_bind_ok by done. change (read_given_char ":"%char (":"%char :: groups_text 0 tail ++ rest)) with (Some ((), groups_text 0 tail ++ rest)).
    cbv beta iota zeta. set (limit := 8 - (length front + 1)). pose proof (read_groups_text tail limit limit rest) as Hread.
    rewrite Nat.sub_diag in Hread.
    rewrite Hread; [| lia | done | done | by apply (closes_ends _ 0) | by intros; apply closes_ends].
    rewrite Hz at 1. replace (8 - length front - length tail) with len by lia. done.
  - rewrite display_groups_text. rewrite (read_groups_text segments 8 8); [| lia | done | done | by apply (closes_ends _ 0) | lia].
    by rewrite Hlen.
Qed.

(** One round of [read_groups], at index [i]. *)
Lemma read_groups_group n i s g rest :
  read_separator ":"%char i read_ipv4_addr s = None ->
  read_separator ":"%char i (read_number 16 (Some 4) true 65535) s = Some (g, rest) ->
  read_groups (S n) (i + S n) s = (g :: (read_groups n (i + S n) rest).1.1, (read_groups n (i + S n) rest).1.2, (read_groups n (i + S n) rest).2).
Proof.
  intros H4 H16. cbn [read_groups]. replace (i + S n - S n) with i by lia. rewrite H4, H16.
  destruct (read_groups n (i + S n) rest) as [[gs v4] s']. by destruct (_ <? _)%nat.
Qed.

Lemma read_groups_ipv4 n i s a b c d rest :
  read_separator ":"%char i read_ipv4_addr s = Some ([a; b; c; d], rest) ->
  read_groups (S (S n)) (i + S (S n)) s = ([a * 256 + b; c * 256 + d]%Z, true, rest).
Proof.
  intros H4. cbn [read_groups]. replace (i + S (S n) - S (S n)) with i by lia.
  replace (i <? i + S (S n) - 1)%nat with true by (symmetry; apply Nat.ltb_lt; lia). by rewrite H4.
Qed.

Lemma read_groups_mapped a b c d rest :
  octet a -> octet b -> octet c -> octet d -> no_digit 10 rest ->
  read_groups 7 7 (as_bytes "ffff:" ++ as_bytes (display_ipv4 [a; b; c; d]) ++ rest) =
  ([65535; a * 256 + b; c * 256 + d]%Z, true, rest).
Proof.
  intros Ha Hb Hc Hd Hn. set (s := as_bytes (display_ipv4 _) ++ rest).
  change (as_bytes "ffff:" ++ s) with (as_bytes (lower_hex 65535) ++ ":"%char :: s).
  rewrite (read_groups_group 6 0 _ 65535 (":"%char :: s));
    [| exact (hex_then_no_ipv4 65535 (":"%char :: s) ltac:(done) ltac:(done)) | by apply read_group].
  cbn [Nat.add]. pose proof (read_groups_ipv4 4 1 (":"%char :: s) a b c d rest) as H4. cbn [Nat.add] in H4.
  rewrite H4; [done |]. cbn [read_separator]. erewrite parser_bind_ok by done. by apply read_ipv4_display.
Qed.

Lemma read_ipv6_display segments rest :
  length segments = 8 -> Forall group segments -> closes rest ->
  read_ipv6_addr (as_bytes (display_ipv6 segments) ++ rest) = Some (segments, rest).
Proof.
  intros Hlen Hall Hcl. destruct (display_ipv6_cases segments) as [(ab & cd & -> & ->) | ->]; [| by apply read_ipv6_text].
  do 6 apply Forall_inv_tail in Hall. apply Forall_cons in Hall as [Hab [Hcd _]%Forall_cons].
  destruct (byte_pair ab Hab), (byte_pair cd Hcd). rewrite as_bytes_app, <- app_assoc.
  set (s := as_bytes (display_ipv4 _) ++ rest). change (as_bytes "::ffff:" ++ s) with (":"%char :: ":"%char :: as_bytes "ffff:" ++ s).
  unfold read_ipv6_addr. pose proof (read_groups_text [] 8 8 (":"%char :: ":"%char :: as_bytes "ffff:" ++ s)) as Hr.
  cbn [groups_text app] in Hr. rewrite Hr; [| cbn; lia | lia | constructor | by split | intros _; exact (proj1 (stops_colon 0 _))].
  cbn [length Nat.eqb]. erewrite parser_bind_ok by done.
  change (read_given_char ":"%char (":"%char :: as_bytes "ffff:" ++ s)) with (Some ((), as_bytes "ffff:" ++ s)).
  cbv beta iota zeta. change (8 - (0 + 1)) with 7. unfold s.
  rewrite read_groups_mapped; [| done | done | done | done | by apply (closes_ends _ 0)].
  cbn [length replicate app Nat.sub]. do 2 f_equal. repeat f_equal; rewrite Z.mul_comm; symmetry; apply Z.div_mod; lia.
Qed.

(** ** Socket addresses *)
Definition addr_ok (a : SocketAddr) : Prop :=
  port_ok (port a) /\
  match ip a with
  | V4 os => exists a b c d, os = [a; b; c; d] /\ octet a /\ octet b /\ octet c /\ octet d
  | V6 segments scope_id => length segments = 8 /\ Forall group segments /\ (0 <= scope_id <= U32_MAX)%Z
  end.

Lemma display_v6_bytes segments scope_id p :
  as_bytes (display_socket_addr (MkSocketAddr (V6 segments scope_id) p)) =
  "["%char :: as_bytes (display_ipv6 segments) ++
  as_bytes (if (scope_id =? 0)%Z then "" else "%" +:+ decimal scope_id) ++ "]"%char :: ":"%char :: as_bytes (decimal p).
Proof. unfold display_socket_addr. cbn [ip port]. by rewrite !as_bytes_app. Qed.

Lemma display_v4_bytes os p :
  as_bytes (display_socket_addr (MkSocketAddr (V4 os) p)) =
  as_bytes (display_ipv4 os) ++ ":"%char :: as_bytes (decimal p).
Proof. unfold display_socket_addr. cbn [ip port]. by rewrite !as_bytes_app. Qed.

Lemma read_scope scope_id rest :
  (0 <= scope_id <= U32_MAX)%Z ->
  (fun s => match read_scope_id s with Some r => Some r | None => Some (0%Z, s) end)
    (as_bytes (if (scope_id =? 0)%Z then "" else "%" +:+ decimal scope_id) ++ "]"%char :: rest) =
  Some (scope_id, "]"%char :: rest).
Proof.
  intros Hs. destruct (Z.eqb_spec scope_id 0) as [-> | Hne]; [done |].
  destruct (decimal_digits scope_id ltac:(lia)) as (Hr & Hd & _). cbn beta. rewrite as_bytes_app.
  change (as_bytes "%" ++ as_bytes (decimal scope_id)) with ("%"%char :: as_bytes (decimal scope_id)). cbn [app].
  unfold read_scope_id. erewrite parser_bind_ok by done.
  rewrite (read_number_ok 10 None true U32_MAX _ scope_id ("]"%char :: rest)); done || lia.
Qed.

(** The parser reads what the printer prints. *)
Lemma parse_display a : addr_ok a -> parse_socket_addr (display_socket_addr a) = Some a.
Proof.
  destruct a as [[os | segments scope_id] p]; intros [Hp Ha]; cbn [ip port] in *; unfold parse_socket_addr.
  - destruct Ha as (a & b & c & d & -> & Ha & Hb & Hc & Hd). rewrite display_v4_bytes. unfold read_socket_addr_v4.
    erewrite parser_bind_ok by by apply read_ipv4_display. by erewrite parser_bind_ok by by apply read_port_display.
  - destruct Ha as (Hlen & Hall & Hs). rewrite display_v6_bytes.
    assert (Hv4 : forall r, read_socket_addr_v4 ("["%char :: r) = None).
    { intros r. unfold read_socket_addr_v4, parser_bind. pose proof (read_ipv4_none [] "["%char r) as Hn. cbn [app] in Hn. by rewrite Hn. }
    rewrite Hv4. unfold read_socket_addr_v6. erewrite parser_bind_ok by done.
    erewrite parser_bind_ok; [| apply read_ipv6_display; [done | done |]].
    + erewrite parser_bind_ok by by apply read_scope. erewrite parser_bind_ok by done.
      by erewrite parser_bind_ok by by apply read_port_display.
    + destruct (scope_id =? 0)%Z; eexists; [by left | by right].
Qed.

(** *** What the parser returns is well formed *)
Lemma read_groups_ok n limit s gs v4 rest :
  read_groups n limit s = (gs, v4, rest) -> length gs <= n /\ Forall group gs.
Proof.
  revert s gs v4 rest. induction n as [| n IH]; intros s gs v4 rest; cbn [read_groups]; [by intros [= <- _ _] |].
  set (i := limit - S n).
  assert (Hgroup : forall gs v4 rest,
    match read_separator ":"%char i (read_number 16 (Some 4) true 65535) s with
    | Some (g, s) => let '(gs, v4, s) := read_groups n limit s in (g :: gs, v4, s)
    | None => ([], false, s)
    end = (gs, v4, rest) -> length gs <= S n /\ Forall group gs).
  { clear gs v4 rest. intros gs v4 rest.
    destruct (read_separator _ _ _ s) as [[g s1] |] eqn:Hg; [| by intros [= <- _ _]; split; [cbn; lia | constructor]].
    destruct (read_groups n limit s1) as [[gs1 v1] s2] eqn:Hr. intros [= <- _ _]. destruct (IH _ _ _ _ Hr) as [Hlen Hall].
    split; [cbn; lia |]. constructor; [| done].
    assert (exists s0, read_number 16 (Some 4) true 65535 s0 = Some (g, s1)) as (s0 & (ds & _ & _ & Hv & _ & _ & Hle)%read_number_inv).
    { destruct i; cbn [read_separator] in Hg; [eauto |]. apply parser_bind_inv in Hg as (? & ? & _ & Hg). eauto. }
    apply reads_bound in Hv; [by split | lia | lia]. }
  destruct (Nat.ltb_spec i (limit - 1)) as [Hi | _]; [| by apply Hgroup].
  destruct (read_separator _ _ read_ipv4_addr s) as [[os s1] |] eqn:H4; [| by apply Hgroup].
  assert (exists s0, read_ipv4_addr s0 = Some (os, s1)) as (s0 & (a & b & c & d & -> & Ha & Hb & Hc & Hd & _)%read_ipv4_inv).
  { destruct i; cbn [read_separator] in H4; [eauto |]. apply parser_bind_inv in H4 as (? & ? & _ & H4). eauto. }
  intros [= <- _ _]. unfold octet in *. split; [cbn; lia |].
  unfold group, U16_MAX. repeat constructor; lia.
Qed.

Lemma read_ipv6_ok s segments rest :
  read_ipv6_addr s = Some (segments, rest) -> length segments = 8 /\ Forall group segments.
Proof.
  unfold read_ipv6_addr. destruct (read_groups 8 8 s) as [[front v4] s1] eqn:Hf.
  apply read_groups_ok in Hf as [Hlen Hall]. destruct (Nat.eqb_spec (length front) 8); [by intros [= <- _] |].
  destruct v4; [done |]. destruct (parser_bind _ _ s1) as [[[] s2] |]; [| done].
  destruct (read_groups _ _ s2) as [[tail v6] s3] eqn:Ht. apply read_groups_ok in Ht as [Htl Hta]. intros [= <- _]. split.
  - rewrite !length_app, length_replicate. lia.
  - apply Forall_app. split; [done |]. apply Forall_app. split; [| done]. apply Forall_replicate. by unfold group, U16_MAX.
Qed.

Lemma read_v4_inv s a rest :
  read_socket_addr_v4 s = Some (a, rest) ->
  exists os ds, a = MkSocketAddr (V4 os) (port a) /\ addr_ok a /\ reads 10 0 ds (port a) /\
                s = as_bytes (display_ipv4 os) ++ ":"%char :: ds ++ rest.
Proof.
  intros (os & s1 & (w & x & y & z & -> & Hw & Hx & Hy & Hz & -> & _)%read_ipv4_inv &
          (p & s2 & (Hp & ds & -> & Hr)%read_port_inv & [= <- <-])%parser_bind_inv)%parser_bind_inv.
  exists [w; x; y; z], ds. split_and!; [done | | done | done]. split; [done |]. cbn. eauto 10.
Qed.

Lemma read_v6_inv s a rest :
  read_socket_addr_v6 s = Some (a, rest) -> addr_ok a /\ exists s', s = "["%char :: s'.
Proof.
  intros (? & s1 & ->%read_given_char_inv & (segments & s2 & [Hlen Hall]%read_ipv6_ok &
          (scope_id & s3 & Hsc & (? & s4 & _ & (p & s5 & [Hp _]%read_port_inv & [= <- <-])%parser_bind_inv)%parser_bind_inv)
            %parser_bind_inv)%parser_bind_inv)%parser_bind_inv.
  assert (0 <= scope_id <= U32_MAX)%Z.
  { destruct (read_scope_id s2) as [[v s6] |] eqn:Hv; injection Hsc as <- <-; [| unfold U32_MAX; lia].
    apply parser_bind_inv in Hv as (? & s7 & _ & (ds & _ & _ & Hr & _ & _ & Hl)%read_number_inv).
    apply reads_bound in Hr; lia. }
  split; [split; [done | by cbn [ip]] | eauto].
Qed.

Lemma parse_ok value a : parse_socket_addr value = Some a -> addr_ok a.
Proof.
  unfold parse_socket_addr.
  destruct (read_socket_addr_v4 (as_bytes value)) as [[a' rest] |] eqn:H4.
  - apply read_v4_inv in H4 as (os & ds & _ & Hok & _). destruct rest; [by intros [= <-] | done].
  - destruct (read_socket_addr_v6 (as_bytes value)) as [[a' rest] |] eqn:H6; [| done].
    apply read_v6_inv in H6 as [Hok _]. destruct rest; [by intros [= <-] | done].
Qed.

(** *** The characters of an endpoint *)

(** No character that [canonical_endpoint] refuses anywhere. *)
Definition clean (l : list ascii) : Prop :=
  Forall (fun c => c <> "/"%char /\ c <> "?"%char /\ c <> "#"%char) l.

Lemma clean_app l1 l2 : clean (l1 ++ l2) <-> clean l1 /\ clean l2.
Proof. apply Forall_app. Qed.

Lemma clean_cons c l : c <> "/"%char -> c <> "?"%char -> c <> "#"%char -> clean l -> clean (c :: l).
Proof. intros. by constructor. Qed.

Lemma reads_clean radix acc ds v : (radix <= 16)%Z -> reads radix acc ds v -> clean ds.
Proof.
  intros Hr. revert acc. induction ds as [| c ds IH]; intros acc; [constructor |].
  intros (d & Hd & Hv)%reads_cons. apply clean_cons; [.. | by eapply IH]; intros ->;
    change (to_digit radix _) with (if (255 <? radix)%Z then Some 255%Z else None) in Hd;
    destruct (Z.ltb_spec 255 radix); done || lia.
Qed.

Lemma clean_decimal x : (0 <= x)%Z -> clean (as_bytes (decimal x)).
Proof. intros Hx. destruct (decimal_digits x Hx) as [Hr _]. by eapply reads_clean in Hr. Qed.

Lemma clean_ipv4 a b c d : octet a -> octet b -> octet c -> octet d -> clean (as_bytes (display_ipv4 [a; b; c; d])).
Proof.
  unfold octet. intros. rewrite display_ipv4_bytes.
  repeat (apply clean_app; split; [apply clean_decimal; lia |]; apply clean_cons; [done.. |]). apply clean_decimal; lia.
Qed.

Lemma clean_groups gs : Forall group gs -> clean (as_bytes (display_groups gs)).
Proof.
  intros Hall. rewrite display_groups_text. generalize 0%nat. induction Hall as [| g gs Hg _ IH]; intros i; [constructor |].
  cbn [groups_text]. apply clean_app. split; [destruct i; [constructor | by repeat constructor] |].
  apply clean_app. split; [| apply IH]. unfold group, U16_MAX in Hg.
  destruct (hex_digits_reads 3 g) as [Hr _]; [cbn; lia |]. by eapply reads_clean in Hr.
Qed.

Lemma clean_ipv6 segments : Forall group segments -> clean (as_bytes (display_ipv6 segments)).
Proof.
  intros Hall. destruct (display_ipv6_cases segments) as [(ab & cd & -> & ->) | ->].
  - do 6 apply Forall_inv_tail in Hall. apply Forall_cons in Hall as [Hab [Hcd _]%Forall_cons].
    apply byte_pair in Hab as [], Hcd as []. rewrite as_bytes_app. apply clean_app.
    split; [by repeat constructor | by apply clean_ipv4].
  - unfold ipv6_text. destruct (longest_zeroes 0 0 0 (0, 0) segments) as [start len].
    destruct (1 <? len)%nat; [| by apply clean_groups]. rewrite !as_bytes_app. apply clean_app.
    split; [by apply clean_groups, Forall_take |]. apply clean_app.
    split; [by repeat constructor | by apply clean_groups, Forall_drop].
Qed.

Lemma clean_display a : addr_ok a -> clean (as_bytes (display_socket_addr a)).
Proof.
  destruct a as [[os | segments scope_id] p]; intros [Hp Ha]; unfold port_ok in Hp; cbn [ip port] in *.
  - destruct Ha as (a & b & c & d & -> & Ha & Hb & Hc & Hd). rewrite display_v4_bytes. apply clean_app.
    split; [by apply clean_ipv4 |]. apply clean_cons; [done.. |]. apply clean_decimal; lia.
  - destruct Ha as (_ & Hall & Hs). rewrite display_v6_bytes. apply clean_cons; [done.. |]. apply clean_app.
    split; [by apply clean_ipv6 |]. apply clean_app. split.
    + destruct (scope_id =? 0)%Z; [constructor |]. rewrite as_bytes_app. apply clean_app.
      split; [by repeat constructor | apply clean_decimal; lia].
    + do 2 (apply clean_cons; [done.. |]). apply clean_decimal; lia.
Qed.

Lemma starts_with_spec p s : starts_with p s = true <-> exists r, s = p +:+ r.
Proof.
  unfold starts_with. rewrite bool_decide_eq_true. unfold is_Some. by setoid_rewrite strip_prefix_Some.
Qed.

Lemma contains_str_char c p s : contains_char c p = true -> contains_str p s = true -> contains_char c s = true.
Proof.
  intros Hc. induction s as [| d s IH]; cbn [contains_str]; rewrite orb_true_iff, starts_with_spec.
  - intros [[r Hr] | ?]; [| done]. rewrite Hr, contains_char_app, Hc. done.
  - intros [[r Hr] | H]; [rewrite Hr, contains_char_app, Hc; done |]. cbn. by rewrite (IH H), orb_true_r.
Qed.

Lemma excludes c s : Forall (fun d => d <> c) (as_bytes s) -> contains_char c s = false.
Proof.
  intros Hall. destruct (contains_char c s) eqn:H; [| done]. apply contains_char_In in H.
  rewrite List.Forall_forall in Hall. by destruct (Hall c H).
Qed.

(** A clean text that is not empty passes the first guard. *)
Lemma guard_passes s :
  s <> "" -> clean (as_bytes s) ->
  bool_decide (s = "") || contains_str "://" s || contains_char "/"%char s
  || contains_char "?"%char s || contains_char "#"%char s = false.
Proof.
  intros Hne Hc. rewrite bool_decide_eq_false_2 by done.
  assert (Hs : contains_char "/"%char s = false /\ contains_char "?"%char s = false /\ contains_char "#"%char s = false).
  { split_and!; apply excludes; refine (Forall_impl _ _ _ Hc _); cbn; tauto. }
  destruct Hs as (H1 & -> & ->). rewrite H1.
  destruct (contains_str "://" s) eqn:Hstr; [| done]. by rewrite (contains_str_char "/"%char "://" s eq_refl Hstr) in H1.
Qed.

Lemma canonical_display a :
  addr_ok a -> port a <> 0%Z -> canonical_endpoint (display_socket_addr a) = Some (display_socket_addr a).
Proof.
  intros Ha Hp. unfold canonical_endpoint. rewrite guard_passes; [| | by apply clean_display].
  - rewrite parse_display by done. by destruct (Z.eqb_spec (port a) 0).
  - intros He. pose proof (parse_display a Ha) as Hd. by rewrite He in Hd.
Qed.

(** *** The parsers consume clean text *)
Definition consumes (s rest : list ascii) : Prop := exists pre, s = pre ++ rest /\ clean pre.

Lemma consumes_refl s : consumes s s.
Proof. exists []. split; [done | constructor]. Qed.

Lemma consumes_trans s1 s2 s3 : consumes s1 s2 -> consumes s2 s3 -> consumes s1 s3.
Proof. intros (p1 & -> & H1) (p2 & -> & H2). exists (p1 ++ p2). split; [apply app_assoc | by apply clean_app]. Qed.

Lemma consumes_char c s x rest :
  clean [c] -> read_given_char c s = Some (x, rest) -> consumes s rest.
Proof. intros Hc ->%read_given_char_inv. by exists [c]. Qed.

Lemma consumes_number radix m zero limit s v rest :
  (radix <= 16)%Z -> read_number radix m zero limit s = Some (v, rest) -> consumes s rest.
Proof. intros Hr (ds & -> & _ & Hds & _)%read_number_inv. exists ds. split; [done | by eapply reads_clean]. Qed.

Lemma consumes_ipv4 s os rest : read_ipv4_addr s = Some (os, rest) -> consumes s rest.
Proof.
  intros (a & b & c & d & -> & Ha & Hb & Hc & Hd & -> & _)%read_ipv4_inv.
  exists (as_bytes (display_ipv4 [a; b; c; d])). split; [done | by apply clean_ipv4].
Qed.

Lemma consumes_separator {A} i (p : parser A) s x rest :
  (forall s x rest, p s = Some (x, rest) -> consumes s rest) ->
  read_separator ":"%char i p s = Some (x, rest) -> consumes s rest.
Proof.
  intros Hp. destruct i; cbn [read_separator]; [apply Hp |]. intros (? & s1 & Hc & Hr)%parser_bind_inv.
  eapply consumes_trans; [eapply consumes_char, Hc; by repeat constructor | by eapply Hp].
Qed.

Lemma consumes_groups n limit s gs v4 rest : read_groups n limit s = (gs, v4, rest) -> consumes s rest.
Proof.
  revert s gs v4 rest. induction n as [| n IH]; intros s gs v4 rest; cbn [read_groups]; [intros [= _ _ <-]; apply consumes_refl |].
  assert (Hgroup : forall i gs v4 rest,
    match read_separator ":"%char i (read_number 16 (Some 4) true 65535) s with
    | Some (g, s) => let '(gs, v4, s) := read_groups n limit s in (g :: gs, v4, s)
    | None => ([], false, s)
    end = (gs, v4, rest) -> consumes s rest).
  { clear gs v4 rest. intros i gs v4 rest. destruct (read_separator _ _ _ s) as [[g s1] |] eqn:Hg; [| intros [= _ _ <-]; apply consumes_refl].
    destruct (read_groups n limit s1) as [[gs1 v1] s2] eqn:Hr. intros [= _ _ <-].
    eapply consumes_trans; [eapply consumes_separator, Hg | by eapply IH]. intros ???. by apply consumes_number. }
  destruct (_ <? _)%nat; [| by eapply Hgroup]. destruct (read_separator _ _ read_ipv4_addr s) as [[os s1] |] eqn:H4; [| by eapply Hgroup].
  apply consumes_separator in H4; [| exact consumes_ipv4].
  destruct os as [| a [| b [| c [| d [| ? ?]]]]]; try by eapply Hgroup. by intros [= _ _ <-].
Qed.

Lemma consumes_ipv6 s segments rest : read_ipv6_addr s = Some (segments, rest) -> consumes s rest.
Proof.
  unfold read_ipv6_addr. destruct (read_groups 8 8 s) as [[front v4] s1] eqn:Hf. apply consumes_groups in Hf.
  destruct (_ =? _)%nat; [by intros [= _ <-] |]. destruct v4; [done |].
  destruct (parser_bind _ _ s1) as [[[] s2] |] eqn:Hc; [| done]. apply parser_bind_inv in Hc as (? & s3 & H1 & H2).
  destruct (read_groups _ _ s2) as [[tail v6] s4] eqn:Ht. apply consumes_groups in Ht. intros [= _ <-].
  apply consumes_char in H1, H2; [| by repeat constructor..]. eauto using consumes_trans.
Qed.

Lemma consumes_port s p rest : read_port s = Some (p, rest) -> consumes s rest.
Proof.
  intros (_ & ds & -> & Hr)%read_port_inv. exists (":"%char :: ds). split; [done |]. apply clean_cons; [done.. | by apply (reads_clean 10 0 ds p)].
Qed.

(** What parses as a socket address passes the first guard. *)
Lemma parse_clean value a : parse_socket_addr value = Some a -> clean (as_bytes value).
Proof.
  assert (Hall : forall s, consumes s [] -> clean s) by (intros s (p & -> & Hp); by rewrite app_nil_r).
  unfold parse_socket_addr. intros H. apply Hall. destruct (read_socket_addr_v4 _) as [[a' rest] |] eqn:H4.
  - destruct rest; [| done]. apply parser_bind_inv in H4 as (os & s1 & H1 & (p & s2 & H2 & [= _ <-])%parser_bind_inv).
    eauto using consumes_trans, consumes_ipv4, consumes_port.
  - destruct (read_socket_addr_v6 _) as [[a' rest] |] eqn:H6; [| done]. destruct rest; [| done].
    apply parser_bind_inv in H6 as (? & s1 & H1 & (segments & s2 & H2 & (scope_id & s3 & H3 & (? & s4 & H5 &
      (p & s5 & H6 & [= _ <-])%parser_bind_inv)%parser_bind_inv)%parser_bind_inv)%parser_bind_inv).
    apply consumes_char in H1, H5; [| by repeat constructor..]. apply consumes_ipv6 in H2. apply consumes_port in H6.
    assert (consumes s2 s3).
    { destruct (read_scope_id s2) as [[v s6] |] eqn:Hv; injection H3 as _ <-; [| apply consumes_refl].
      apply parser_bind_inv in Hv as (? & s7 & Hc & Hn%consumes_number); [| lia].
      apply consumes_char in Hc; [| by repeat constructor]. eauto using consumes_trans. }
    eauto 10 using consumes_trans.
Qed.

(** ** Host names *)
Definition host_char (c : ascii) : Prop :=
  is_ascii_lowercase c = true \/ is_ascii_digit c = true \/ c = "-"%char \/ c = "."%char.

Lemma split_on_chars c s b :
  In b (as_bytes s) -> b = c \/ exists piece, In piece (split_on c s) /\ In b (as_bytes piece).
Proof.
  induction s as [| d s IH]; cbn [as_bytes list_ascii_of_string In split_on]; [done |]. case_bool_decide as Hd.
  - intros [-> | Hb]; [by left |]. destruct (IH Hb) as [-> | (p & Hp & Hbp)]; [by left |]. right. exists p. by split; [right |].
  - destruct (split_on c s) as [| piece rest] eqn:Hs.
    + intros [-> | Hb]; [right; exists (String b ""); split; by left |]. destruct (IH Hb) as [? | (p & [] & _)]. by left.
    + intros [-> | Hb]; [right; exists (String b piece); split; by left |].
      destruct (IH Hb) as [-> | (p & [-> | Hp] & Hbp)]; [by left | right..].
      * exists (String d p). split; [by left | by right].
      * exists p. split; [by right | done].
Qed.

Lemma host_chars host :
  existsb (fun label => negb (is_dns_label label)) (split_on "."%char host) = false ->
  host <> "" /\ Forall host_char (as_bytes host).
Proof.
  intros Hl. assert (Hlabel : forall l, In l (split_on "."%char host) -> is_dns_label l = true).
  { intros l Hin. destruct (is_dns_label l) eqn:Hn; [done |]. exfalso. rewrite <- not_true_iff_false in Hl.
    apply Hl, existsb_exists. exists l. by rewrite Hn. }
  split; [intros ->; specialize (Hlabel "" (or_introl eq_refl)); done |].
  apply List.Forall_forall. intros c Hc. apply (split_on_chars "."%char) in Hc as [-> | (l & Hin & Hc)].
  - by do 3 right.
  - destruct (is_dns_label_bytes l c (Hlabel l Hin) Hc) as [? | [? | ?]]; unfold host_char; auto.
Qed.

Lemma host_excludes c host :
  Forall host_char (as_bytes host) -> is_ascii_lowercase c = false -> is_ascii_digit c = false ->
  c <> "-"%char -> c <> "."%char -> contains_char c host = false.
Proof.
  intros Hall H1 H2 H3 H4. apply excludes. refine (Forall_impl _ _ _ Hall _). unfold host_char. intros x Hx ->.
  naive_solver congruence.
Qed.

Lemma host_clean host : Forall host_char (as_bytes host) -> clean (as_bytes host).
Proof.
  intros Hall. refine (Forall_impl _ _ _ Hall _). unfold host_char. intros x Hx. by split_and!; intros ->; naive_solver.
Qed.

Lemma host_lower host : Forall host_char (as_bytes host) -> to_ascii_lowercase host = host.
Proof.
  induction host as [| c host IH]; cbn [as_bytes list_ascii_of_string]; [done |]. intros [Hc Hall]%Forall_cons.
  cbn [to_ascii_lowercase]. rewrite (IH Hall). f_equal. unfold ascii_lower.
  destruct (is_ascii_uppercase c) eqn:Hu; [| done]. exfalso. revert Hu.
  destruct Hc as [Hc | [Hc | [-> | ->]]]; [.. | done | done]; revert Hc;
    unfold is_ascii_lowercase, is_ascii_digit, is_ascii_uppercase; rewrite !andb_true_iff, !N.leb_le; lia.
Qed.

Lemma rsplit_once_none c s : contains_char c s = false -> rsplit_once c s = None.
Proof.
  induction s as [| d s IH]; cbn; [done |]. intros [Hd Hs]%orb_false_iff. rewrite (IH Hs).
  apply bool_decide_eq_false in Hd. by rewrite bool_decide_eq_false_2.
Qed.

Lemma rsplit_once_last c s r : contains_char c r = false -> rsplit_once c (s +:+ String c r) = Some (s, r).
Proof.
  intros Hr. induction s as [| d s IH].
  - rewrite string_app_nil. cbn. rewrite (rsplit_once_none _ _ Hr). by rewrite bool_decide_eq_true_2.
  - rewrite string_app_cons. cbn. by rewrite IH.
Qed.

Lemma parse_u16_decimal p : port_ok p -> parse_u16 (decimal p) = Some p.
Proof.
  unfold port_ok. intros Hp. destruct (decimal_digits p ltac:(lia)) as (Hr & Hne & Hz & _). unfold parse_u16.
  assert (match as_bytes (decimal p) with "+"%char :: l => l | l => l end = as_bytes (decimal p)) as ->.
  { destruct (as_bytes (decimal p)) as [| c ds]; [done |]. apply reads_cons in Hr as (d & Hd & _).
    destruct c as [[] [] [] [] [] [] [] []]; done. }
  rewrite <- (app_nil_r (as_bytes (decimal p))). rewrite (read_number_ok 10 None true U16_MAX _ p []); done || lia.
Qed.

Lemma decimal_excludes p c : (0 <= p)%Z -> to_digit 10 c = None -> contains_char c (decimal p) = false.
Proof. intros Hp Hc. destruct (decimal_digits p Hp) as [Hr _]. apply excludes. by eapply reads_excludes. Qed.

Lemma starts_with_char c s : contains_char c s = false -> starts_with (String c "") s = false.
Proof.
  intros Hc. apply not_true_iff_false. rewrite starts_with_spec. intros [r ->]. rewrite contains_char_app in Hc.
  cbn in Hc. by rewrite bool_decide_eq_true_2 in Hc.
Qed.

Lemma ends_with_char c s : contains_char c s = false -> ends_with (String c "") s = false.
Proof.
  intros Hc. unfold ends_with. apply bool_decide_eq_false_2. intros [r ->%strip_suffix_Some].
  rewrite contains_char_app in Hc. cbn in Hc. rewrite bool_decide_eq_true_2 in Hc by done. by rewrite orb_true_r in Hc.
Qed.

(** A host name and a port that also read as a socket address are its text. *)
Lemma parse_host host p a :
  Forall host_char (as_bytes host) -> port_ok p ->
  parse_socket_addr (host +:+ ":" +:+ decimal p) = Some a ->
  port a = p /\ display_socket_addr a = host +:+ ":" +:+ decimal p.
Proof.
  intros Hhost Hp Ha. unfold port_ok in Hp. destruct (decimal_digits p ltac:(lia)) as [Hrp _].
  unfold parse_socket_addr in Ha. destruct (read_socket_addr_v4 _) as [[a' rest] |] eqn:H4.
  - destruct rest; [| done]. injection Ha as ->. apply read_v4_inv in H4 as (os & ds & Hv4 & [Hpa Hos] & Hr & Htext).
    rewrite app_nil_r in Htext. rewrite Hv4 in Hos. cbn [ip] in Hos.
    destruct Hos as (w & x & y & z & -> & Hw & Hx & Hy & Hz).
    assert (Hcut : host +:+ String ":"%char (decimal p) =
                   display_ipv4 [w; x; y; z] +:+ String ":"%char (string_of_list_ascii ds)).
    { apply as_bytes_inj. rewrite (as_bytes_app _ (String _ (string_of_list_ascii ds))), as_bytes_cons, as_bytes_of.
      exact Htext. }
    apply cut_at_separator in Hcut as [-> Hds].
    + apply (f_equal as_bytes) in Hds. rewrite as_bytes_of in Hds. subst ds. unfold reads in Hr, Hrp. rewrite Hr in Hrp. injection Hrp as Hport.
      split; [done |]. rewrite Hv4. unfold display_socket_addr. cbn [ip port]. by rewrite Hport.
    + by apply host_excludes.
    + unfold octet in *. unfold display_ipv4. cbn [fmap list_fmap String.concat].
      rewrite !contains_char_app, !decimal_excludes by (lia || done). done.
  - exfalso. destruct (read_socket_addr_v6 _) as [[a' rest] |] eqn:H6; [| done].
    apply read_v6_inv in H6 as [_ [s' Hs]]. destruct host as [| c host]; [done |].
    rewrite string_app_cons in Hs. injection Hs as -> _. apply Forall_cons in Hhost as [Hc _].
    unfold host_char in Hc. naive_solver.
Qed.

Lemma canonical_host_name host p :
  (253 <? String.length host)%nat = false ->
  existsb (fun label => negb (is_dns_label label)) (split_on "."%char host) = false ->
  port_ok p -> p <> 0%Z ->
  canonical_endpoint (host +:+ ":" +:+ decimal p) = Some (host +:+ ":" +:+ decimal p).
Proof.
  intros Hlen Hlabels Hp Hnz. destruct (host_chars host Hlabels) as [Hne Hall]. unfold canonical_endpoint.
  pose proof Hp as [Hp0 _]. rewrite guard_passes; cycle 1.
  { intros He. by destruct host. }
  { rewrite !as_bytes_app. apply clean_app. split; [by apply host_clean |]. apply clean_app.
    split; [by repeat constructor | by apply clean_decimal]. }
  destruct (parse_socket_addr _) as [a |] eqn:Ha.
  - destruct (parse_host host p a Hall Hp Ha) as [Hport ->]. by destruct (Z.eqb_spec (port a) 0); [lia |].
  - change (":" +:+ decimal p) with (String ":"%char (decimal p)). rewrite rsplit_once_last by by apply decimal_excludes.
    rewrite bool_decide_eq_false_2, starts_with_char, ends_with_char, (host_excludes ":"%char host) by (done || by apply host_excludes).
    cbn [orb]. rewrite parse_u16_decimal, host_lower, Hlen, Hlabels by done.
    by destruct (Z.eqb_spec p 0).
Qed.

(** ** [canonical_endpoint] *)

(** C34: [canonical_endpoint] picks one text per endpoint.  What it returns, an
    IPv4 or IPv6 socket address or a host name and a port, it accepts again and
    leaves as it is; a socket address keeps its address, scope id and port; and
    every text that parses as the same socket address has the same endpoint.  So
    nodes that compare endpoints as text compare addresses. *)
Theorem canonical_endpoint_canonical value e :
  canonical_endpoint value = Some e ->
  canonical_endpoint e = Some e /\
  (forall a, parse_socket_addr value = Some a ->
     parse_socket_addr e = Some a /\
     (forall value', parse_socket_addr value' = Some a -> canonical_endpoint value' = Some e)).
Proof.
  intros Hc. pose proof Hc as Hc'. revert Hc'. unfold canonical_endpoint at 1. destruct (_ || _ || _ || _ || _); [done |].
  destruct (parse_socket_addr value) as [a |] eqn:Ha.
  - destruct (Z.eqb_spec (port a) 0) as [| Hport]; [done |]. intros [= <-]. pose proof (parse_ok _ _ Ha) as Hok.
    split; [by apply canonical_display |]. intros ? [= <-]. split; [by apply parse_display |]. intros value' Ha'.
    unfold canonical_endpoint. rewrite guard_passes; [| by intros -> | by eapply parse_clean].
    rewrite Ha'. by destruct (Z.eqb_spec (port a) 0).
  - destruct (rsplit_once ":"%char value) as [[host p] |]; [| done]. destruct (_ || _ || _ || _); [done |].
    destruct (parse_u16 p) as [q |] eqn:Hq; [| done]. destruct (Z.eqb_spec q 0); [done |].
    destruct (253 <? _)%nat eqn:Hlen; [done |]. destruct (existsb _ _) eqn:Hl; [done |]. intros [= <-].
    split; [| done]. apply canonical_host_name; [done | done | | done].
    unfold parse_u16 in Hq. destruct (read_number _ _ _ _ _) as [[v rest] |] eqn:Hr; [| done].
    destruct rest; [| done]. injection Hq as ->. apply read_number_inv in Hr as (ds & _ & _ & Hr & _ & _ & Hle).
    apply reads_bound in Hr; [by split | lia | lia].
Qed.

Lemma canonical_endpoint_canonical_witness :
  canonical_endpoint "[2001:0DB8:0:0:1:0:0:1]:00080" = Some "[2001:db8::1:0:0:1]:80" /\
  canonical_endpoint "[2001:db8::1:0:0:1]:80" = Some "[2001:db8::1:0:0:1]:80".
Proof.
  split; [vm_compute; reflexivity |].
  apply (canonical_endpoint_canonical "[2001:0DB8:0:0:1:0:0:1]:00080"). vm_compute. reflexivity.
Defined.
