(* ===== verification/Config.v ===== *)
(** * Configuration of a Server

    Models the builder of [coactor/src/runtime.rs] ([ServerBuilderCore::validate]
    and [build_with_authority], the methods of [ServerBuilder] and
    [ServerBuilder::into_starter]) with [ServerRuntimeConfig] of
    [coactor/src/cluster/authority.rs].  [Start] starts a Server from them. *)

From S2P Require Import Prelude Text Address Coordination Endpoint.
From S2P Require Runtime.

(** [Registration] as the builder holds it; durations are nanoseconds. *)
Record RegistrationEntry := MkRegistrationEntry {
  name : string;
  entry_mailbox_capacity : option nat;
  entry_idle_timeout : option Z
}.

Record ServerBuilderCore := MkBuilderCore {
  entries : list RegistrationEntry;
  default_mailbox_capacity : nat;
  builder_max_active_actors : nat;
  default_idle_timeout : Z;
  deactivation_timeout : Z;
  shutdown_timeout : Z;
  builder_protocol_version : Z
}.

Inductive ServerError :=
| InvalidListenAddress
| MissingAdvertisedEndpoint
| InvalidActorTypeName (name : string)
| DuplicateActorType (name : string)
| InvalidMailboxCapacity
| InvalidMaxActiveActors
| InvalidNodeId
| InvalidAdvertisedEndpoint
| InvalidNodeLeaseTtl
| InvalidCoordinationTimeout
| InvalidDeactivationTimeout
| InvalidShutdownTimeout
| BindFailed
| LeaseConflict
| LeaseUnconfirmed
| CoordinationUnavailable (e : CoordinationError)   (* [Coordination] *)
| ServiceStopped
| Fenced
| ShutdownTimedOut.

(** [ActorConfig::new], [mailbox_capacity], [idle_timeout] *)
Definition actor_config (name : string) : RegistrationEntry := MkRegistrationEntry name None None.
Definition with_mailbox_capacity (e : RegistrationEntry) (capacity : nat) : RegistrationEntry :=
  MkRegistrationEntry (name e) (Some capacity) (entry_idle_timeout e).
Definition with_idle_timeout (e : RegistrationEntry) (timeout : Z) : RegistrationEntry :=
  MkRegistrationEntry (name e) (entry_mailbox_capacity e) (Some timeout).

(** The trait [IntoActorConfig]: an Actor Type is registered by its name, or with
    its own policy. *)
Class IntoActorConfig (C : Type) := into_actor_config : C -> RegistrationEntry.
#[export] Instance name_into_actor_config : IntoActorConfig string := actor_config.
#[export] Instance config_into_actor_config : IntoActorConfig RegistrationEntry := fun config => config.

(** [ServerBuilderCore::base], [add_actor] *)
Definition builder_base : ServerBuilderCore :=
  MkBuilderCore [] 32 (Z.to_nat 10000) 60000000000 5000000000 30000000000 Transport.TRANSPORT_PROTOCOL_VERSION.

Definition add_actor (b : ServerBuilderCore) (e : RegistrationEntry) : ServerBuilderCore :=
  MkBuilderCore (entries b ++ [e]) (default_mailbox_capacity b) (builder_max_active_actors b)
    (default_idle_timeout b) (deactivation_timeout b) (shutdown_timeout b) (builder_protocol_version b).

(** The loop of [validate] over the registrations. *)
Fixpoint validate_entries (names : gset string) (es : list RegistrationEntry) : result ServerError unit :=
  match es with
  | [] => Ok ()
  | e :: es =>
      if negb (is_dns_label (name e)) then Err (InvalidActorTypeName (name e))
      else if bool_decide (entry_mailbox_capacity e = Some 0) then Err InvalidMailboxCapacity
      else if bool_decide (name e ∈ names) then Err (DuplicateActorType (name e))
      else validate_entries ({[name e]} ∪ names) es
  end.

(** [ServerBuilderCore::validate] *)
Definition validate (b : ServerBuilderCore) : result ServerError unit :=
  if (default_mailbox_capacity b =? 0)%nat then Err InvalidMailboxCapacity
  else if (builder_max_active_actors b =? 0)%nat then Err InvalidMaxActiveActors
  else if (deactivation_timeout b =? 0)%Z then Err InvalidDeactivationTimeout
  else if (shutdown_timeout b =? 0)%Z then Err InvalidShutdownTimeout
  else validate_entries ∅ (entries b).

(** The registration with the defaults of the builder filled in. *)
Definition effective (b : ServerBuilderCore) (e : RegistrationEntry) : Runtime.Registration :=
  Runtime.MkRegistration (default (default_mailbox_capacity b) (entry_mailbox_capacity e))
    (default (default_idle_timeout b) (entry_idle_timeout e)).

(** [build_with_authority], the configuration part; [clustered]: a router is given. *)
Definition build_with_authority (b : ServerBuilderCore) (clustered : bool) : result ServerError Runtime.ServerConfig :=
  try! _ := validate b;
  let registrations := foldl (fun m e => <[name e := effective b e]> m) (∅ : gmap string Runtime.Registration) (entries b) in
  Ok (Runtime.MkServerConfig registrations (builder_max_active_actors b) clustered (builder_protocol_version b)).

(** ** The starter *)
Record ServerBuilder := MkServerBuilder {
  core : ServerBuilderCore;
  advertised_endpoint : option string;
  builder_node_id : option string;
  node_lease_ttl : Z;
  coordination_timeout : Z
}.

(** [Server::builder], and the methods of [ServerBuilder] that set a field. *)
Definition server_builder : ServerBuilder := MkServerBuilder builder_base None None 10000000000 15000000000.

Definition map_core (f : ServerBuilderCore -> ServerBuilderCore) (b : ServerBuilder) : ServerBuilder :=
  MkServerBuilder (f (core b)) (advertised_endpoint b) (builder_node_id b) (node_lease_ttl b)
    (coordination_timeout b).

Definition set_core (mailbox maximum : nat) (idle deactivation shutdown : Z) (b : ServerBuilderCore)
    : ServerBuilderCore :=
  MkBuilderCore (entries b) mailbox maximum idle deactivation shutdown (builder_protocol_version b).

Definition actor (config : RegistrationEntry) : ServerBuilder -> ServerBuilder :=
  map_core (fun b => add_actor b config).
Definition set_default_mailbox_capacity (capacity : nat) : ServerBuilder -> ServerBuilder :=
  map_core (fun b => set_core capacity (builder_max_active_actors b) (default_idle_timeout b)
                       (deactivation_timeout b) (shutdown_timeout b) b).
Definition set_max_active_actors (maximum : nat) : ServerBuilder -> ServerBuilder :=
  map_core (fun b => set_core (default_mailbox_capacity b) maximum (default_idle_timeout b)
                       (deactivation_timeout b) (shutdown_timeout b) b).
Definition set_default_idle_timeout (timeout : Z) : ServerBuilder -> ServerBuilder :=
  map_core (fun b => set_core (default_mailbox_capacity b) (builder_max_active_actors b) timeout
                       (deactivation_timeout b) (shutdown_timeout b) b).
Definition set_deactivation_timeout (timeout : Z) : ServerBuilder -> ServerBuilder :=
  map_core (fun b => set_core (default_mailbox_capacity b) (builder_max_active_actors b)
                       (default_idle_timeout b) timeout (shutdown_timeout b) b).
Definition set_shutdown_timeout (timeout : Z) : ServerBuilder -> ServerBuilder :=
  map_core (fun b => set_core (default_mailbox_capacity b) (builder_max_active_actors b)
                       (default_idle_timeout b) (deactivation_timeout b) timeout b).
Definition set_advertised_endpoint (endpoint : string) (b : ServerBuilder) : ServerBuilder :=
  MkServerBuilder (core b) (Some endpoint) (builder_node_id b) (node_lease_ttl b) (coordination_timeout b).
Definition set_node_id (node_id : string) (b : ServerBuilder) : ServerBuilder :=
  MkServerBuilder (core b) (advertised_endpoint b) (Some node_id) (node_lease_ttl b) (coordination_timeout b).
Definition set_node_lease_ttl (ttl : Z) (b : ServerBuilder) : ServerBuilder :=
  MkServerBuilder (core b) (advertised_endpoint b) (builder_node_id b) ttl (coordination_timeout b).
Definition set_coordination_timeout (timeout : Z) (b : ServerBuilder) : ServerBuilder :=
  MkServerBuilder (core b) (advertised_endpoint b) (builder_node_id b) (node_lease_ttl b) timeout.

(** The [Arc<dyn ServerTransport>] of the configuration. *)
Inductive ServerTransport :=
| GrpcTransport
| InmemTransport.

Record ServerRuntimeConfig := MkServerRuntimeConfig {
  config_node_id : string;
  bind_address : option SocketAddr;
  config_endpoint : string;
  config_node_lease_ttl : Z;
  config_coordination_timeout : Z;
  server_transport : ServerTransport
}.

(** [ServerRuntimeConfig::production] and [inmem] *)
Definition production (node_id : string) (bind_address : SocketAddr) (endpoint : string)
    (node_lease_ttl coordination_timeout : Z) : ServerRuntimeConfig :=
  MkServerRuntimeConfig node_id (Some bind_address) endpoint node_lease_ttl coordination_timeout GrpcTransport.

Definition inmem (node_id endpoint : string) : ServerRuntimeConfig :=
  MkServerRuntimeConfig node_id None endpoint 10000000000 15000000000 InmemTransport.

(** [into_starter], after [parse_listen_address] of [serve_with_state]. *)
Definition into_starter (b : ServerBuilder) (address : string) : result ServerError ServerRuntimeConfig :=
  try! bind_address := ok_or InvalidListenAddress (parse_listen_address address);
  try! raw_endpoint := ok_or MissingAdvertisedEndpoint (advertised_endpoint b);
  try! endpoint := ok_or InvalidAdvertisedEndpoint (canonical_endpoint raw_endpoint);
  try! node_id :=
    match builder_node_id b with
    | Some node_id => if is_dns_label node_id then Ok node_id else Err InvalidNodeId
    | None => Ok endpoint
    end;
  if (node_lease_ttl b =? 0)%Z then Err InvalidNodeLeaseTtl
  else if (coordination_timeout b =? 0)%Z then Err InvalidCoordinationTimeout
  else Ok (production node_id bind_address endpoint (node_lease_ttl b) (coordination_timeout b)).

(** [renewal_interval] *)
Definition renewal_interval (c : ServerRuntimeConfig) : Z := (config_node_lease_ttl c / 3)%Z.

(** ** Lemmas *)
Definition entry_valid (e : RegistrationEntry) : Prop :=
  is_dns_label (name e) = true /\ entry_mailbox_capacity e <> Some 0.

(** What the documentation of the builder asks for. *)
Definition builder_valid (b : ServerBuilderCore) : Prop :=
  0 < default_mailbox_capacity b /\ 0 < builder_max_active_actors b /\
  deactivation_timeout b <> 0%Z /\ shutdown_timeout b <> 0%Z /\
  Forall entry_valid (entries b) /\ NoDup (name <$> entries b).

(** What an error of [validate] says of the builder. *)
Definition explains (b : ServerBuilderCore) (e : ServerError) : Prop :=
  match e with
  | InvalidMailboxCapacity =>
      default_mailbox_capacity b = 0 \/ exists r, r ∈ entries b /\ entry_mailbox_capacity r = Some 0
  | InvalidMaxActiveActors => builder_max_active_actors b = 0
  | InvalidDeactivationTimeout => deactivation_timeout b = 0%Z
  | InvalidShutdownTimeout => shutdown_timeout b = 0%Z
  | InvalidActorTypeName n => is_dns_label n = false /\ exists r, r ∈ entries b /\ name r = n
  | DuplicateActorType n => exists i j r r', i <> j /\ entries b !! i = Some r /\ entries b !! j = Some r' /\
                                             name r = n /\ name r' = n
  | _ => False
  end.

Lemma validate_entries_ok names es :
  validate_entries names es = Ok () <->
  Forall entry_valid es /\ NoDup (name <$> es) /\ forall e, e ∈ es -> name e ∉ names.
Proof.
  revert names. induction es as [| e es IH]; intros names; cbn.
  - split; [intros _; split_and!; [constructor | constructor | by intros e He%not_elem_of_nil] | done].
  - rewrite Forall_cons, NoDup_cons. unfold entry_valid at 1.
    destruct (is_dns_label (name e)); cbn; [| split; [done | naive_solver]].
    case_bool_decide as Hm; [split; [done | naive_solver] |].
    case_bool_decide as Hn; [split; [done |]; intros (_ & _ & H); by destruct (H e (list_elem_of_here _ _)) |].
    rewrite IH. split.
    + intros (Hf & Hd & Hu). split_and!; try done.
      * intros (e' & He' & Hin)%list_elem_of_fmap. destruct (Hu e' Hin). set_solver.
      * intros e' [-> | Hin]%elem_of_cons; [done |]. specialize (Hu e' Hin). set_solver.
    + intros ((_ & Hf) & (Hnin & Hd) & Hu). split_and!; try done. intros e' Hin.
      specialize (Hu e' ltac:(by constructor)). apply not_elem_of_union. split; [| done].
      intros Heq%elem_of_singleton. apply Hnin. rewrite <- Heq. by apply list_elem_of_fmap_2.
Qed.

(** The loop fails at an entry that is invalid, or whose name it has met. *)
Lemma validate_entries_err pre es e :
  validate_entries (list_to_set (name <$> pre)) es = Err e ->
  (exists n, e = InvalidActorTypeName n /\ is_dns_label n = false /\ exists r, r ∈ es /\ name r = n) \/
  (e = InvalidMailboxCapacity /\ exists r, r ∈ es /\ entry_mailbox_capacity r = Some 0) \/
  (exists n, e = DuplicateActorType n /\
     exists i j r r', i <> j /\ (pre ++ es) !! i = Some r /\ (pre ++ es) !! j = Some r' /\ name r = n /\ name r' = n).
Proof.
  revert pre. induction es as [| r es IH]; intros pre; cbn; [done |].
  destruct (is_dns_label (name r)) eqn:Hdns; cbn.
  2: { intros [= <-]. left. exists (name r). split_and!; [done | done |]. exists r. split; [constructor | done]. }
  case_bool_decide as Hm.
  { intros [= <-]. right; left. split; [done |]. exists r. split; [constructor | done]. }
  case_bool_decide as Hn.
  - intros [= <-]. right; right. exists (name r). split; [done |].
    apply elem_of_list_to_set, list_elem_of_fmap in Hn as (r' & Hr' & (i & Hi)%list_elem_of_lookup).
    exists i, (length pre), r', r. pose proof (lookup_lt_Some _ _ _ Hi). split; [lia |].
    rewrite lookup_app_l by done. rewrite lookup_app_r, Nat.sub_diag by done. done.
  - intros He. specialize (IH (pre ++ [r])). rewrite fmap_app, list_to_set_app_L in IH. cbn in IH.
    replace (list_to_set (name <$> pre) ∪ ({[name r]} ∪ ∅)) with (({[name r]} : gset string) ∪ list_to_set (name <$> pre))
      in IH by set_solver.
    destruct (IH He) as [(n & -> & Hd & r' & Hr' & Hn') | [(-> & r' & Hr' & Hm') | (n & -> & Hdup)]].
    + left. exists n. split_and!; [done | done |]. exists r'. split; [by constructor | done].
    + right; left. split; [done |]. exists r'. split; [by constructor | done].
    + right; right. exists n. split; [done |]. by rewrite <- app_assoc in Hdup.
Qed.

Lemma validate_ok b : validate b = Ok () <-> builder_valid b.
Proof.
  unfold validate, builder_valid.
  destruct (Nat.eqb_spec (default_mailbox_capacity b) 0); [split; [done | lia] |].
  destruct (Nat.eqb_spec (builder_max_active_actors b) 0); [split; [done | lia] |].
  destruct (Z.eqb_spec (deactivation_timeout b) 0); [split; [done | naive_solver] |].
  destruct (Z.eqb_spec (shutdown_timeout b) 0); [split; [done | naive_solver] |].
  rewrite validate_entries_ok. split; [intros (? & ? & _) | intros (_ & _ & _ & _ & ? & ?)]; split_and!; try done; try lia.
Qed.

Lemma validate_err b e : validate b = Err e -> explains b e.
Proof.
  unfold validate.
  destruct (Nat.eqb_spec (default_mailbox_capacity b) 0); [intros [= <-]; by left |].
  destruct (Nat.eqb_spec (builder_max_active_actors b) 0); [by intros [= <-] |].
  destruct (Z.eqb_spec (deactivation_timeout b) 0); [by intros [= <-] |].
  destruct (Z.eqb_spec (shutdown_timeout b) 0); [by intros [= <-] |].
  intros [(m & -> & Hr) | [(-> & Hr) | (m & -> & Hr)]]%(validate_entries_err []); [done | by right | done].
Qed.

Lemma fold_registrations b (es : list RegistrationEntry) (m : gmap string Runtime.Registration) t r :
  NoDup (name <$> es) ->
  foldl (fun m e => <[name e := effective b e]> m) m es !! t = Some r <->
  (exists e, e ∈ es /\ name e = t /\ r = effective b e) \/ ((t ∉ (name <$> es)) /\ m !! t = Some r).
Proof.
  revert m. induction es as [| e es IH]; intros m Hd; cbn.
  - split; [intros Hm; right; split; [apply not_elem_of_nil | done] | intros [(e & He%not_elem_of_nil & _) | [_ ?]]; done].
  - apply NoDup_cons in Hd as [Hnin Hd]. rewrite (IH _ Hd). rewrite not_elem_of_cons. split.
    + intros [(e' & He' & Hn & ->) | [Ht Hm]]; [left; exists e'; split; [by constructor | done] |].
      apply lookup_insert_Some in Hm as [[<- <-] | [Hne Hm]]; [left; exists e; split; [constructor | done] |].
      right. done.
    + intros [(e' & [-> | He']%elem_of_cons & Hn & ->) | [[Ht Hnt] Hm]].
      * right. rewrite <- Hn. by rewrite lookup_insert_eq.
      * left. eauto.
      * right. by rewrite lookup_insert_ne.
Qed.

Lemma into_starter_production b address c :
  into_starter b address = Ok c ->
  exists node_id bind_address endpoint ttl timeout, c = production node_id bind_address endpoint ttl timeout.
Proof.
  unfold into_starter. intros H.
  repeat (apply result_bind_ok in H as (? & _ & H) || case_match); simplify_eq; eauto 6.
Qed.

Lemma into_starter_ttl b address c :
  into_starter b address = Ok c -> config_node_lease_ttl c = node_lease_ttl b /\ node_lease_ttl b <> 0%Z.
Proof.
  unfold into_starter. intros H.
  repeat (apply result_bind_ok in H as (? & _ & H)).
  destruct (Z.eqb_spec (node_lease_ttl b) 0); [done |]. destruct (coordination_timeout b =? 0)%Z; [done |].
  by injection H as <-.
Qed.

(** ** Properties *)

(** A Server is built exactly from the configurations the builder asks for,
    and gets the registrations it was given: the build succeeds if and only if
    capacities and timeouts are not zero, every Actor Type is a DNS label with a
    mailbox of its own or the default size, and no type is registered twice; each
    registered type then has exactly its own values, the builder's where it gave
    none, and a mailbox that can hold a message; otherwise the error names a fault
    that is there. *)
Theorem builder_accepts_exactly (b : ServerBuilderCore) (clustered : bool) :
  match build_with_authority b clustered with
  | Ok c =>
      builder_valid b /\
      (forall t r, Runtime.registrations c !! t = Some r <->
         exists e, e ∈ entries b /\ name e = t /\ r = effective b e) /\
      (forall t r, Runtime.registrations c !! t = Some r ->
         is_dns_label t = true /\ 0 < Runtime.mailbox_capacity r) /\
      Runtime.max_active_actors c = builder_max_active_actors b /\ 0 < Runtime.max_active_actors c
  | Err e => ~ builder_valid b /\ explains b e
  end.
Proof.
  unfold build_with_authority. destruct (validate b) as [[] | e] eqn:Hv; cbn.
  - apply validate_ok in Hv. assert (Hr : forall t r,
      foldl (fun m e => <[name e := effective b e]> m) (∅ : gmap string Runtime.Registration) (entries b) !! t = Some r <->
      exists e, e ∈ entries b /\ name e = t /\ r = effective b e).
    { intros t r. rewrite fold_registrations by apply Hv. rewrite lookup_empty. naive_solver. }
    destruct Hv as (Hm & Hmax & Hd & Hs & Hf & Hdup). split_and!; try done.
    intros t r (e & He & <- & ->)%Hr. rewrite Forall_forall in Hf. destruct (Hf e He) as [Hdns Hcap].
    split; [done |]. cbn. destruct (entry_mailbox_capacity e) as [[| n] |]; cbn; [done | lia | done].
  - split; [intros Hb%validate_ok; congruence | by apply validate_err].
Qed.
