(* ===== verification/Actor.v ===== *)
(** * Actors: the traits, their erasure, and a task that hosts one

    Models [coactor/src/runtime/actor.rs], [message.rs] ([Registration::of]), the
    expansion of [#[actor]] in [coactor-macros/src/expansion.rs], the contexts
    that [ServerInner::make_message_context] and [make_actor_runtime] build, and
    what the task of [spawn_actor] makes of them.  [Runtime] leaves the handlers
    of an Actor open: whatever they do are the replies of its [UserActivate],
    [UserMessage] and [UserDeactivate].  Here a handler is a procedure, [hosted]
    runs the actor task with the handlers of a registration in the place of those
    calls, and the theorems say what this task makes of the handlers, amid the
    other tasks of the Server, and that the type erasure in between changes
    nothing. *)

From S2P Require Import Prelude Text Address Transport Session Runtime.
From S2P Require Config.
From stdpp Require Import pretty.
Import Registry.

(** ** Contexts *)

(** [ActorRuntime]; its [Weak] pointer to the Server is the effect [UpgradeRuntime]. *)
Record ActorRuntime (S : Type) := MkActorRuntime {
  runtime_address : ActorAddress;
  runtime_state : S
}.
Arguments MkActorRuntime {S}.
Arguments runtime_address {S}.
Arguments runtime_state {S}.

(** [SessionHandle]; every handle of a Server points to its one registry. *)
Record SessionHandle := MkSessionHandle {
  handle_address : ActorAddress;
  handle_session_id : SessionId
}.

Record MessageContext := MkMessageContext {
  context_address : ActorAddress;
  context_session : SessionHandle
}.

Definition make_message_context (a : ActorAddress) (sid : SessionId) : MessageContext :=
  MkMessageContext a (MkSessionHandle a sid).

Definition make_actor_runtime {S} (state : S) (a : ActorAddress) : ActorRuntime S := MkActorRuntime a state.

(** [actor_id] of both, [session_id] *)
Definition runtime_actor_id {S} (r : ActorRuntime S) : string := actor_id (runtime_address r).
Definition context_actor_id (ctx : MessageContext) : string := actor_id (context_address ctx).

(** ** Handlers

    What application code may call: the runtime through its contexts, anything
    else ([App]), and the unwinding of a panic. *)
Inductive handlerE (appE : Type -> Type) : Type -> Type :=
| UpgradeRuntime : handlerE appE bool
| BroadcastEvent (a : ActorAddress) (msg : string) : handlerE appE unit
| DeliverEvent (a : ActorAddress) (sid : SessionId) (msg : string) : handlerE appE (result SendError unit)
| Unwind : handlerE appE Empty_set
| App {X : Type} (e : appE X) : handlerE appE X.
Arguments UpgradeRuntime {appE}.
Arguments BroadcastEvent {appE}.
Arguments DeliverEvent {appE}.
Arguments Unwind {appE}.
Arguments App {appE X}.

(** A method with [&mut self]. *)
Abbreviation method appE Self R := (Self -> proc (handlerE appE) (Self * R)).

Definition panic {appE A} : proc (handlerE appE) A := Call Unwind (fun x : Empty_set => match x with end).

(** [ActorRuntime::broadcast] *)
Definition broadcast {appE S} (r : ActorRuntime S) (msg : string) : proc (handlerE appE) unit :=
  call! alive := UpgradeRuntime;
  if (alive : bool) then (exec! BroadcastEvent (runtime_address r) msg; Ret ()) else Ret ().

(** [SessionHandle::send], [MessageContext::send] *)
Definition handle_send {appE} (h : SessionHandle) (msg : string) : proc (handlerE appE) (result SendError unit) :=
  call (DeliverEvent (handle_address h) (handle_session_id h) msg).

Definition context_send {appE} (ctx : MessageContext) (msg : string) : proc (handlerE appE) (result SendError unit) :=
  handle_send (context_session ctx) msg.

Inductive MessageOutcome := Completed | MessagePanicked.

(** [Actor]; the text of an activation error, which is only logged, is left out. *)
Class Actor (appE : Type -> Type) (S A : Type) := {
  new : ActorRuntime S -> A;
  on_message : MessageContext -> string -> method appE A unit;
  on_activate : method appE A (result unit unit);
  on_deactivate : DeactivationReason -> method appE A unit;
  on_session_opened : MessageContext -> method appE A unit;
  on_session_closed : MessageContext -> method appE A unit
}.

(** The provided methods of the trait. *)
Definition provided_on_activate {appE A} : method appE A (result unit unit) := fun self => Ret (self, Ok ()).
Definition provided_on_deactivate {appE A} (_ : DeactivationReason) : method appE A unit := fun self => Ret (self, ()).
Definition provided_on_session {appE A} (_ : MessageContext) : method appE A unit := fun self => Ret (self, ()).

(** The function pointers of a [Registration], on a value of type [A]. *)
Record Handlers (appE : Type -> Type) (A : Type) := MkHandlers {
  activate : method appE A (result unit unit);
  deactivate : DeactivationReason -> method appE A unit;
  handle : MessageContext -> string -> method appE A MessageOutcome;
  session_opened : MessageContext -> method appE A unit;
  session_closed : MessageContext -> method appE A unit
}.
Arguments MkHandlers {appE A}.
Arguments activate {appE A}.
Arguments deactivate {appE A}.
Arguments handle {appE A}.
Arguments session_opened {appE A}.
Arguments session_closed {appE A}.

Section erasure.
(** The concrete types by their [TypeId]s. *)
Context {T : Type} `{EqDecision T} (den : T -> Type).
Context (appE : Type -> Type) (S : Type).

(** [dyn Any] *)
Record Any := MkAny {
  type_id : T;
  any_value : den type_id
}.

(** [downcast_mut] *)
Definition downcast_mut (t : T) (x : Any) : option (den t) :=
  match decide (type_id x = t) with
  | left H => Some (eq_rect (type_id x) den (any_value x) t H)
  | right _ => None
  end.

(** [downcast_mut().expect(...)], a method of the concrete type, and the value it
    leaves behind. *)
Definition on_concrete {R} (t : T) (f : method appE (den t) R) : method appE Any R :=
  fun actor =>
    match downcast_mut t actor with
    | Some x => bind! r := f x; Ret (MkAny t r.1, r.2)
    | None => panic
    end.

(** The [impl ErasedActor] that the macro generates. *)
Definition erased_activate (t : T) `{Actor appE S (den t)} : method appE Any (result unit unit) :=
  on_concrete t on_activate.

Definition erased_deactivate (t : T) `{Actor appE S (den t)} (reason : DeactivationReason) : method appE Any unit :=
  on_concrete t (on_deactivate reason).

Definition erased_handle (t : T) `{Actor appE S (den t)} (ctx : MessageContext) (payload : string)
    : method appE Any MessageOutcome :=
  on_concrete t (fun self => bind! r := on_message ctx payload self; Ret (r.1, Completed)).

Definition erased_session_opened (t : T) `{Actor appE S (den t)} (ctx : MessageContext) : method appE Any unit :=
  on_concrete t (on_session_opened ctx).

Definition erased_session_closed (t : T) `{Actor appE S (den t)} (ctx : MessageContext) : method appE Any unit :=
  on_concrete t (on_session_closed ctx).

Record Registration := MkRegistration {
  registration_name : string;
  create : ActorRuntime S -> Any;
  handlers : Handlers appE Any;
  registration_mailbox_capacity : option nat;
  registration_idle_timeout : option Z
}.

(** The [impl ActorType] that the macro generates. *)
Definition actor_type_create (t : T) `{Actor appE S (den t)} (r : ActorRuntime S) : den t := new r.

(** [Registration::of] *)
Definition registration_of (t : T) `{Actor appE S (den t)} (name : string) : Registration :=
  MkRegistration name (fun r => MkAny t (actor_type_create t r))
    (MkHandlers (erased_activate t) (erased_deactivate t) (erased_handle t)
       (erased_session_opened t) (erased_session_closed t))
    None None.

(** What the builder of [Config] keeps of it. *)
Definition entry_of (r : Registration) : Config.RegistrationEntry :=
  Config.MkRegistrationEntry (registration_name r) (registration_mailbox_capacity r) (registration_idle_timeout r).

(** The same functions without the detour over [dyn Any]. *)
Definition typed_handlers (t : T) `{Actor appE S (den t)} : Handlers appE (den t) :=
  MkHandlers on_activate on_deactivate (fun ctx payload self => bind! r := on_message ctx payload self; Ret (r.1, Completed))
    on_session_opened on_session_closed.
End erasure.

(** ** The task of an Actor with its handlers *)
Inductive hostE (appE : Type -> Type) : Type -> Type :=
| InRuntime {X : Type} (e : runtimeE X) : hostE appE X
| Outside {X : Type} (e : appE X) : hostE appE X
| DeactivationTimedOut : hostE appE bool.
Arguments InRuntime {appE X}.
Arguments Outside {appE X}.
Arguments DeactivationTimedOut {appE}.

Definition in_runtime {appE A} (p : proc runtimeE A) : proc (hostE appE) A := lift (@InRuntime appE) p.

Section hosting.
Context {appE : Type -> Type}.

(** What the runtime does for a call of a handler.  The task itself keeps the
    Server alive, so the [Weak] pointer upgrades; a panic ends the handler. *)
Definition handler_call {X R} (e : handlerE appE X)
    : (X -> proc (hostE appE) (option R)) -> proc (hostE appE) (option R) :=
  match e in handlerE _ X return (X -> proc (hostE appE) (option R)) -> proc (hostE appE) (option R) with
  | UpgradeRuntime => fun k => k true
  | BroadcastEvent a msg => fun k => bind! _ := in_runtime (broadcast_event a msg); k ()
  | DeliverEvent a sid msg => fun k => bind! r := in_runtime (deliver_event a sid msg); k r
  | Unwind => fun _ => Ret None
  | App e => fun k => Call (Outside e) k
  end.

(** [AssertUnwindSafe(handler).catch_unwind()], with [timed] inside the [timeout]
    of an idle deactivation, which can end the handler at every call; [None] when
    it did not return. *)
Fixpoint catch_unwind {R} (timed : bool) (p : proc (handlerE appE) R) : proc (hostE appE) (option R) :=
  match p with
  | Ret r => Ret (Some r)
  | Call e k =>
      let go := handler_call e (fun x => catch_unwind timed (k x)) in
      if timed then (call! out := DeactivationTimedOut; if (out : bool) then Ret None else go) else go
  end.

Context {A : Type} (h : Handlers appE A) (a : ActorAddress).

(** The handler of [execute_message]: did it complete, and the Actor after it. *)
Definition run_message (m : MailboxMessage) (actor : A) : proc (hostE appE) (bool * A) :=
  match m with
  | Action sid payload =>
      bind! r := catch_unwind false (handle h (make_message_context a sid) payload actor);
      Ret match r with
          | Some (actor, Completed) => (true, actor)
          | Some (actor, MessagePanicked) => (false, actor)
          | None => (false, actor)
          end
  | SessionOpened sid _ =>
      bind! r := catch_unwind false (session_opened h (make_message_context a sid) actor);
      Ret match r with Some (actor, _) => (true, actor) | None => (false, actor) end
  | SessionClosed sid =>
      bind! r := catch_unwind false (session_closed h (make_message_context a sid) actor);
      Ret match r with Some (actor, _) => (true, actor) | None => (false, actor) end
  end.

Definition run_activate (actor : A) : proc (hostE appE) (activation * A) :=
  bind! r := catch_unwind false (activate h actor);
  Ret match r with
      | Some (actor, Ok _) => (ActivateOk, actor)
      | Some (actor, Err _) => (ActivateFailed, actor)
      | None => (ActivatePanicked, actor)
      end.

Definition run_deactivate (reason : DeactivationReason) (actor : A) : proc (hostE appE) (unit * A) :=
  bind! r := catch_unwind (match reason with Idle => true | Shutdown => false end) (deactivate h reason actor);
  Ret ((), match r with Some (actor, _) => actor | None => actor end).

(** What the task makes of one of its calls. *)
Definition host_call {X} (e : runtimeE X) : A -> proc (hostE appE) (X * A) :=
  match e in runtimeE X return A -> proc (hostE appE) (X * A) with
  | UserActivate _ => run_activate
  | UserMessage _ m => run_message m
  | UserDeactivate _ reason => run_deactivate reason
  | e => fun actor => call! x := InRuntime e; Ret (x, actor)
  end.

(** The task of [spawn_actor]: a procedure of [Runtime] with the handlers in the
    place of its calls of application code. *)
Fixpoint hosted {R} (p : proc runtimeE R) (actor : A) : proc (hostE appE) R :=
  match p with
  | Ret r => Ret r
  | Call e k => bind! r := host_call e actor; hosted (k r.1) r.2
  end.
End hosting.

(** ** Erasure changes nothing *)
Section erased.
Context {T : Type} `{EqDecision T} (den : T -> Type).
Context {appE : Type -> Type} {S : Type} (t : T) `{!Actor appE S (den t)}.

Lemma downcast_same (x : den t) : downcast_mut den t (MkAny den t x) = Some x.
Proof.
  unfold downcast_mut. destruct (decide _) as [H |]; [| done].
  by rewrite (proof_irrel H eq_refl).
Qed.

Lemma on_concrete_same {R} (f : method appE (den t) R) x :
  on_concrete den appE t f (MkAny den t x) = bind! r := f x; Ret (MkAny den t r.1, r.2).
Proof. unfold on_concrete. cbn. by rewrite downcast_same. Qed.

(** What a handler returns, with its Actor as [dyn Any]. *)
Definition boxed {R} (r : den t * R) : Any den * R := (MkAny den t r.1, r.2).

Lemma handler_call_bind {X R R'} (e : handlerE appE X) (k : X -> proc (hostE appE) (option R)) k' (f : option R -> option R') :
  f None = None -> (forall x, k' x ≡ bind! r := k x; Ret (f r)) ->
  handler_call e k' ≡ bind! r := handler_call e k; Ret (f r).
Proof.
  intros Hf Hk. destruct e; cbn [handler_call].
  - apply Hk.
  - rewrite bind_assoc. apply proc_bind_Proper; [done |]. intros []. apply Hk.
  - rewrite bind_assoc. apply proc_bind_Proper; [done |]. intros r. apply Hk.
  - cbn. by rewrite Hf.
  - by apply call_equiv.
Qed.

Lemma catch_unwind_bind {R R'} timed (p : proc (handlerE appE) R) (f : R -> R') :
  catch_unwind timed (bind! r := p; Ret (f r)) ≡ bind! r := catch_unwind timed p; Ret (f <$> r).
Proof.
  induction p as [r | X e k IH]; [done |]. cbn [proc_bind catch_unwind].
  destruct timed; [| by apply handler_call_bind]. apply call_equiv. intros [|]; [done | by apply handler_call_bind].
Qed.

Lemma catch_concrete {R} timed (f : method appE (den t) R) x :
  catch_unwind timed (on_concrete den appE t f (MkAny den t x)) ≡ bind! r := catch_unwind timed (f x); Ret (boxed <$> r).
Proof. rewrite on_concrete_same. apply (catch_unwind_bind timed (f x) boxed). Qed.

(** One call of the task. *)
Lemma host_call_erased name a {X} (e : runtimeE X) x :
  host_call (handlers _ _ _ (registration_of den appE S t name)) a e (MkAny den t x) ≡
  bind! r := host_call (typed_handlers den appE S t) a e x; Ret (r.1, MkAny den t r.2).
Proof.
  assert (Hc : forall R Y timed (f : method appE (den t) R) (g : option (Any den * R) -> Y * Any den) (g' : option (den t * R) -> Y * den t),
    (forall r, g (boxed <$> r) = ((g' r).1, MkAny den t (g' r).2)) ->
    proc_bind (catch_unwind timed (on_concrete den appE t f (MkAny den t x))) (fun r => Ret (g r)) ≡
    proc_bind (proc_bind (catch_unwind timed (f x)) (fun r => Ret (g' r))) (fun r => Ret (r.1, MkAny den t r.2))).
  { intros R Y timed f g g' Hg. rewrite catch_concrete, !bind_assoc. apply proc_bind_Proper; [done |].
    intros r. cbn. by rewrite Hg. }
  destruct e; try done; cbn [host_call].
  - unfold run_activate. cbn. apply Hc. by intros [[? []] |].
  - destruct m; cbn; apply Hc; [by intros [[? []] |] | by intros [[] |]..].
  - unfold run_deactivate. cbn. apply Hc. by intros [[] |].
Qed.

Lemma hosted_erased name a {R} (p : proc runtimeE R) x :
  hosted (handlers _ _ _ (registration_of den appE S t name)) a p (MkAny den t x) ≡
  hosted (typed_handlers den appE S t) a p x.
Proof.
  revert x. induction p as [r | X e k IH]; intros x; [done |]. cbn [hosted].
  rewrite host_call_erased, bind_assoc. apply proc_bind_Proper; [done |]. intros r. cbn. apply IH.
Qed.
End erased.

(** ** What a handler may do

    The semantics of application code, apart from any task: a handler returns,
    panics, or is given up by the [timeout] around it, which can happen wherever
    it calls something.  [env]: what the other tasks of the Server may do between
    any two calls. *)
Inductive outcome (R : Type) :=
| Returned (r : R)
| Panicked
| TimedOut.
Arguments Returned {R}.
Arguments Panicked {R}.
Arguments TimedOut {R}.

Section semantics.
Context {appE : Type -> Type} (config : ServerConfig) (env : relation ServerState).

(** The Server with its other tasks, and the task that hosts an Actor among
    them; the world outside replies anything. *)
Definition server_observe X (s : ServerState) (e : runtimeE X) (x : X) (s' : ServerState) : Prop :=
  exists s1, exec_effect config X s e x s1 /\ env s1 s'.

Definition server_monitor : monitor runtimeE ServerState := Monitor runtimeE ServerState (fun _ _ _ => True) server_observe.

Definition host_observe X (s : ServerState) (e : hostE appE X) : X -> ServerState -> Prop :=
  match e in hostE _ X return X -> ServerState -> Prop with
  | InRuntime e => server_observe _ s e
  | Outside _ => fun _ s' => env s s'
  | DeactivationTimedOut => fun _ s' => env s s'
  end.

Definition host_monitor : monitor (hostE appE) ServerState := Monitor (hostE appE) ServerState (fun _ _ _ => True) host_observe.

(** What a handler gets for a call that returns. *)
Definition serves X (s : ServerState) (e : handlerE appE X) : X -> ServerState -> Prop :=
  match e in handlerE _ X return X -> ServerState -> Prop with
  | UpgradeRuntime => fun alive s' => alive = true /\ s' = s
  | BroadcastEvent a msg => fun r s' => execs server_monitor s (broadcast_event a msg) r s'
  | DeliverEvent a sid msg => fun r s' => execs server_monitor s (deliver_event a sid msg) r s'
  | Unwind => fun _ _ => False
  | App _ => fun _ s' => env s s'
  end.

Inductive handler_runs {R} (timed : bool) : ServerState -> proc (handlerE appE) R -> outcome R -> ServerState -> Prop :=
| runs_return s r : handler_runs timed s (Ret r) (Returned r) s
| runs_panic s s0 k : (if timed then env s s0 else s0 = s) -> handler_runs timed s (Call Unwind k) Panicked s0
| runs_timeout s s0 X (e : handlerE appE X) k :
    timed = true -> env s s0 -> handler_runs timed s (Call e k) TimedOut s0
| runs_call s s0 s1 X (e : handlerE appE X) x k out s' :
    (if timed then env s s0 else s0 = s) -> serves X s0 e x s1 -> handler_runs timed s1 (k x) out s' ->
    handler_runs timed s (Call e k) out s'.

(** [catch_unwind] runs the handler and tells whether it returned. *)
Definition returned {R} (out : outcome R) : option R := if out is Returned r then Some r else None.

Lemma in_runtime_execs {R} (p : proc runtimeE R) s r s' :
  execs host_monitor s (in_runtime p) r s' -> execs server_monitor s p r s'.
Proof.
  revert s. induction p as [r0 | X e k IH]; intros s Hx; apply execs_inv in Hx; cbn in Hx.
  - destruct Hx as [-> ->]. constructor.
  - destruct Hx as (x & s1 & Ho & Hx). econstructor; [exact Ho | by apply IH].
Qed.

Lemma handler_call_runs {X R} timed (e : handlerE appE X) (k : X -> proc (handlerE appE) R) go s s0 o s' :
  (if timed : bool then env s s0 else s0 = s) ->
  (forall x s o s', execs host_monitor s (go x) o s' ->
    exists out, handler_runs timed s (k x) out s' /\ o = returned out) ->
  execs host_monitor s0 (handler_call e go) o s' ->
  exists out, handler_runs timed s (Call e k) out s' /\ o = returned out.
Proof.
  intros Hs0 Hgo Hx.
  assert (Hcall : forall x s1, serves X s0 e x s1 -> execs host_monitor s1 (go x) o s' ->
    exists out, handler_runs timed s (Call e k) out s' /\ o = returned out).
  { intros x s1 Hs Hk. destruct (Hgo _ _ _ _ Hk) as (out & Ho & ->). exists out. split; [by econstructor | done]. }
  destruct e; cbn [handler_call] in Hx.
  - by apply (Hcall true s0).
  - apply execs_bind in Hx as ([] & s1 & Hb & Hx). eapply Hcall; [by apply in_runtime_execs | done].
  - apply execs_bind in Hx as (r & s1 & Hd & Hx). eapply Hcall; [by apply in_runtime_execs | done].
  - apply execs_inv in Hx as [-> ->]. exists Panicked. split; [by constructor | done].
  - apply execs_inv in Hx as (x & s1 & Ho & Hx). exact (Hcall x s1 Ho Hx).
Qed.

Lemma catch_runs {R} timed (p : proc (handlerE appE) R) s o s' :
  execs host_monitor s (catch_unwind timed p) o s' ->
  exists out, handler_runs timed s p out s' /\ o = returned out.
Proof.
  revert s o s'. induction p as [r | X e k IH]; intros s o s' Hx.
  - apply execs_inv in Hx as [-> ->]. exists (Returned r). split; [constructor | done].
  - cbn [catch_unwind] in Hx. destruct timed; [| exact (handler_call_runs false e k _ s s o s' eq_refl IH Hx)].
    apply execs_inv in Hx as ([] & s0 & Ho & Hx); [| exact (handler_call_runs true e k _ s s0 o s' Ho IH Hx)].
    apply execs_inv in Hx as [-> ->]. exists TimedOut. split; [by constructor | done].
Qed.

(** A handler changes nothing of the Server but what it hands to the transport. *)
Definition amid : relation ServerState :=
  rtc (fun s s' => env s s' \/ exists c e, s' = with_outbox s (outbox s ++ [(c, e)])).

Lemma with_outbox_none s : with_outbox s (outbox s ++ []) = s.
Proof. rewrite app_nil_r. by destruct s. Qed.

Definition sends_on X (e : runtimeE X) : Prop :=
  match e with
  | TrySend _ _ | Sink _ _ | ActorSnapshot _ => True
  | _ => False
  end.

Lemma sends_amid {R} (p : proc runtimeE R) s r s' : calls sends_on p -> execs server_monitor s p r s' -> amid s s'.
Proof.
  intros Hp Hx. induction Hx as [s r | s s1 s2 r X e k x (s0 & Ho & Henv) _ IH]; [constructor |].
  destruct Hp as [He Hk]. transitivity s1; [| by apply IH].
  transitivity s0; [| apply rtc_once; by left].
  destruct e; try done; [destruct Ho as [_ ->]; constructor.. | apply rtc_once; right; cbn in Ho; eauto].
Qed.

Lemma deliver_sends a sid msg : calls sends_on (deliver_event a sid msg).
Proof. split; [done |]. by intros [c |]. Qed.

Lemma broadcast_sends a msg : calls sends_on (broadcast_event a msg).
Proof.
  split; [done |]. intros sids. induction sids as [| sid sids IH]; [done |].
  cbn [deliver_events]. apply calls_bind; [apply deliver_sends | done].
Qed.

Lemma handler_amid {R} timed s (p : proc (handlerE appE) R) out s' : handler_runs timed s p out s' -> amid s s'.
Proof.
  assert (Hpause : forall s s0, (if timed then env s s0 else s0 = s) -> amid s s0).
  { intros s1 s0 Hs0. destruct timed; [apply rtc_once; by left | subst; constructor]. }
  induction 1 as [s r | s s0 k Hs0 | s s0 X e k -> Hs0 | s s0 s1 X e x k out s' Hs0 Hs _ IH];
    [constructor | by apply Hpause | by apply Hpause |].
  transitivity s0; [by apply Hpause |]. transitivity s1; [| exact IH]. destruct e; cbn in Hs.
  - destruct Hs as [_ ->]. constructor.
  - eapply sends_amid; [apply broadcast_sends | done].
  - eapply sends_amid; [apply deliver_sends | done].
  - done.
  - apply rtc_once. by left.
Qed.

(** ** The life of an Actor *)
Context {A : Type} (h : Handlers appE A) (a : ActorAddress).

(** Where the Actor stands: just made, waiting for a message, with a message taken
    out of the mailbox that is still to be handled, with its closed mailbox
    emptied, and done for. *)
Inductive life_phase :=
| Fresh
| Waiting
| Holding (m : MailboxMessage)
| Drained
| Over.

Record life := MkLife {
  life_server : ServerState;
  life_actor : A;
  life_now : life_phase
}.

Definition life_allowed X (ph : life_phase) (e : runtimeE X) : Prop :=
  match e with
  | UserActivate _ => ph = Fresh
  | Select _ => ph = Waiting
  | RecvClosed _ => ph = Waiting \/ ph = Over
  | UserMessage _ m => ph = Holding m
  | UserDeactivate _ reason => ph = match reason with Idle => Waiting | Shutdown => Drained end
  | _ => True
  end.

Definition life_next X (ph : life_phase) (e : runtimeE X) : X -> life_phase :=
  match e in runtimeE X return X -> life_phase with
  | UserActivate _ => fun r => match r with ActivateOk => Waiting | _ => Over end
  | Select _ => fun x => if x is MessageReceived m then Holding m else Waiting
  | RecvClosed _ => fun x =>
      match ph, x with
      | Waiting, Some m => Holding m
      | Waiting, None => Drained
      | _, _ => Over
      end
  | UserMessage _ _ => fun ok => if (ok : bool) then Waiting else Over
  | UserDeactivate _ _ => fun _ => Over
  | _ => fun _ => ph
  end.

Definition life_phases : monitor runtimeE life_phase :=
  Monitor runtimeE life_phase life_allowed (fun X ph e x ph' => ph' = life_next X ph e x).

(** The value a handler leaves; it is not used again when it did not return. *)
Definition left_by {R} (actor : A) (out : outcome (A * R)) : A := if out is Returned r then r.1 else actor.

(** The handler [f] runs on the Actor and leaves it and the Server changed. *)
Definition ran {R} (timed : bool) (f : method appE A R) (l : life) (out : outcome (A * R)) (l' : life) : Prop :=
  handler_runs timed (life_server l) (f (life_actor l)) out (life_server l') /\
  amid (life_server l) (life_server l') /\
  life_actor l' = left_by (life_actor l) out.

(** Each message has its handler, with the context of its own Session; the task is
    told whether the handler returned. *)
Definition message_ran (m : MailboxMessage) (l : life) (ok : bool) (l' : life) : Prop :=
  match m with
  | Action sid payload => exists out, ran false (handle h (make_message_context a sid) payload) l out l' /\
      (ok = true <-> exists x, out = Returned (x, Completed))
  | SessionOpened sid _ => exists out, ran false (session_opened h (make_message_context a sid)) l out l' /\
      (ok = true <-> exists x, out = Returned x)
  | SessionClosed sid => exists out, ran false (session_closed h (make_message_context a sid)) l out l' /\
      (ok = true <-> exists x, out = Returned x)
  end.

Definition activate_ran (l : life) (r : activation) (l' : life) : Prop :=
  exists out, ran false (activate h) l out l' /\
    r = match out with Returned (_, Ok _) => ActivateOk | Returned (_, Err _) => ActivateFailed | _ => ActivatePanicked end.

Definition life_does X (l : life) (e : runtimeE X) : X -> life -> Prop :=
  match e in runtimeE X return X -> life -> Prop with
  | UserActivate _ => activate_ran l
  | UserMessage _ m => message_ran m l
  | UserDeactivate _ reason => fun _ l' =>
      exists out, ran (match reason with Idle => true | Shutdown => false end) (deactivate h reason) l out l'
  | e => fun x l' => life_actor l' = life_actor l /\ server_observe _ (life_server l) e x (life_server l')
  end.

Definition life_monitor : monitor runtimeE life :=
  Monitor runtimeE life (fun _ _ _ => True)
    (fun X l e x l' => life_allowed X (life_now l) e /\ life_now l' = life_next X (life_now l) e x /\ life_does X l e x l').

(** The task keeps to the phases. *)
Ltac life_call := apply (call_wp life_allowed life_next); [try done | intros ?; cbn [life_next]].

Definition phaseless X (e : runtimeE X) : Prop :=
  match e with
  | UserActivate _ | Select _ | RecvClosed _ | UserMessage _ _ | UserDeactivate _ _ => False
  | _ => True
  end.

Lemma phaseless_wp {R} (p : proc runtimeE R) ph : calls phaseless p -> wp life_phases ph p (fun _ ph' => ph' = ph).
Proof. apply calls_wp. intros X e He. by destruct e; (split; [| intros x st' ->]). Qed.

Lemma terminate_all_life addr error ph : wp life_phases ph (terminate_all addr error) (fun _ ph' => ph' = ph).
Proof.
  apply phaseless_wp. split; [done |]. intros sids. induction sids as [| sid sids IH]; [done |]. cbn [terminate_each].
  apply calls_bind; [| done]. split; [done |]. intros bound. split; [done |]. intros _. by destruct bound.
Qed.

Lemma execute_message_life i m :
  wp life_phases (Holding m) (execute_message i m) (fun ok ph => ph = if ok : bool then Waiting else Over).
Proof. unfold execute_message. life_call. by destruct m, x; repeat life_call. Qed.

Lemma drain_life fuel i :
  wp life_phases Waiting (drain fuel i) (fun r ph => match r with Some true => ph = Drained | _ => True end).
Proof.
  induction fuel as [| fuel IH]; [done |]. cbn [drain]. life_call; [by left |]. destruct x as [m |]; [| done].
  apply wp_bind. eapply wp_mono; [| apply execute_message_life]. by intros [] ph ->.
Qed.

Lemma fail_pending_life fuel i error : wp life_phases Over (fail_pending fuel i error) (fun _ _ => True).
Proof.
  induction fuel as [| fuel IH]; [done |]. cbn [fail_pending]. life_call; [by right |].
  destruct x as [[sid p | sid o | sid] |]; [done | by life_call | done..].
Qed.

Lemma fail_activation_life fuel i addr error : wp life_phases Over (fail_activation fuel i addr error) (fun _ _ => True).
Proof.
  unfold fail_activation. life_call. life_call. apply wp_bind. eapply wp_mono; [| apply fail_pending_life].
  intros [] ph' _; [| done]. cbn [negb]. apply wp_bind. eapply wp_mono; [| apply terminate_all_life]. done.
Qed.

Lemma shutdown_branch_life fuel i addr : wp life_phases Waiting (shutdown_branch fuel i addr) (fun _ _ => True).
Proof.
  unfold shutdown_branch. life_call. apply wp_bind. eapply wp_mono; [| apply drain_life].
  intros [[] |] ph' Hph; [subst ph' | done |].
  - apply wp_bind. eapply wp_mono; [| apply terminate_all_life]. intros [] ? ->. by repeat life_call.
  - apply wp_bind. eapply wp_mono; [| apply terminate_all_life]. done.
Qed.

Lemma actor_loop_life fuel i addr : wp life_phases Waiting (actor_loop config fuel i addr) (fun _ _ => True).
Proof.
  induction fuel as [| fuel IH]; [done |]. cbn [actor_loop]. life_call. destruct x as [| | m | |].
  - apply shutdown_branch_life.
  - exact IH.
  - apply wp_bind. eapply wp_mono; [| apply execute_message_life]. intros [] ph' ->; [exact IH |].
    apply wp_bind. eapply wp_mono; [| apply terminate_all_life]. done.
  - by life_call.
  - life_call. destruct x; [exact IH |]. life_call. destruct x; cbn [negb]; [| exact IH].
    unfold passivate. life_call. by destruct (clustered config); repeat life_call.
Qed.

Lemma actor_task_life fuel i addr : wp life_phases Fresh (actor_task config fuel i addr) (fun _ _ => True).
Proof.
  unfold actor_task, actor_body. apply wp_bind. eapply (wp_mono _ _ _ (fun _ _ => True)).
  - intros reason ph _. unfold drop_task. by destruct reason; repeat life_call.
  - life_call. destruct x; [apply actor_loop_life | apply fail_activation_life..].
Qed.

(** One call of the hosted task. *)
Lemma host_call_lives {X} (e : runtimeE X) actor s r s' ph ph' :
  execs host_monitor s (host_call h a e actor) r s' -> life_does X (MkLife s actor ph) e r.1 (MkLife s' r.2 ph').
Proof.
  assert (Hran : forall R Y timed (f : method appE A R) (g : option (A * R) -> Y) r0,
    execs host_monitor s (proc_bind (catch_unwind timed (f actor)) (fun o => Ret (g o))) r0 s' ->
    exists out, r0 = g (returned out) /\ handler_runs timed s (f actor) out s' /\ amid s s').
  { intros R Y timed f g r0 Hx. apply execs_bind in Hx as (o & s1 & Hc & Hx). apply execs_inv in Hx as [-> ->].
    apply catch_runs in Hc as (out & Ho & ->). exists out. split_and!; [done | done | by eapply handler_amid]. }
  intros Hx. destruct e;
    try (apply execs_inv in Hx as (x & s1 & Ho & Hx); apply execs_inv in Hx as [-> ->]; split; [done | exact Ho]).
  - apply Hran in Hx as (out & -> & Ho & Ham). exists out. cbn. destruct out as [[x []] | |]; by repeat split.
  - cbn [life_does]. destruct m; apply Hran in Hx as (out & -> & Ho & Ham); exists out; cbn;
      destruct out as [[x y] | |]; try (destruct y); cbn; repeat split; try done; try (by eexists); by intros [? [=]].
  - apply Hran in Hx as (out & -> & Ho & Ham). exists out. by destruct out as [[x []] | |].
Qed.

Lemma hosted_lives {R} (p : proc runtimeE R) actor s r s' ph Q :
  wp life_phases ph p Q -> execs host_monitor s (hosted h a p actor) r s' ->
  exists actor' ph', execs life_monitor (MkLife s actor ph) p r (MkLife s' actor' ph').
Proof.
  revert actor s ph. induction p as [r0 | X e k IH]; intros actor s ph Hwp Hx.
  - apply execs_inv in Hx as [-> ->]. exists actor, ph. constructor.
  - cbn [hosted] in Hx. apply execs_bind in Hx as (q & s1 & Hq & Hx). destruct Hwp as [Hal Hk].
    destruct (IH _ _ _ _ (Hk q.1 _ eq_refl) Hx) as (actor' & ph' & Hlife). exists actor', ph'.
    econstructor; [| exact Hlife]. split; [exact Hal | split; [done |]]. by apply host_call_lives.
Qed.
End semantics.

(** ** A counter

    [examples/counter_server.rs]: [value] is a [u64], whose addition panics when
    the program checks overflow and wraps when it does not. *)
Record Counter := MkCounter { value : Z }.

#[export] Instance counter_actor (overflow_checks : bool) : Actor (fun _ => Empty_set) unit Counter := {
  new := fun _ => MkCounter 0;
  on_message := fun ctx _ self =>
    if overflow_checks && (value self =? U64_MAX)%Z then panic else
    let v := ((value self + 1) mod (U64_MAX + 1))%Z in
    bind! _ := context_send ctx (pretty v);
    Ret (MkCounter v, ());
  on_activate := provided_on_activate;
  on_deactivate := provided_on_deactivate;
  on_session_opened := provided_on_session;
  on_session_closed := provided_on_session
}.

(** ** Properties *)

(** C20: a handler never meets an Actor of another type.  The task that runs the
    functions of a [Registration] on the [Box<dyn Any>] its [create] made calls and
    does the same as the task that runs the methods of the concrete type on the
    value [new] made: none of the downcasts in the code that [#[actor]] generates
    can fail, whatever the messages, panics, timeouts and replies. *)
Theorem erased_actor_is_typed {T : Type} `{EqDecision T} (den : T -> Type) {appE : Type -> Type} {S : Type}
    (t : T) `{!Actor appE S (den t)} (config : ServerConfig) (name : string) (state : S)
    (a : ActorAddress) (fuel : nat) (i : TaskId) :
  let registration := registration_of den appE S t name in
  let r := make_actor_runtime state a in
  hosted (handlers den appE S registration) a (actor_task config fuel i a) (create den appE S registration r) ≡
  hosted (typed_handlers den appE S t) a (actor_task config fuel i a) (new r).
Proof. apply hosted_erased. Qed.

(** C21: what becomes of the code of an Actor.  Take a run of the task that hosts an
    Actor with its own handlers, where the other tasks of the Server change its
    state as they like between any two calls ([env]) and the world outside replies
    anything.  It is a run of the task of [Runtime] in which every reply of
    application code comes from the handlers, each called for what it is meant for:
    [activate] first and once; for a message taken out of the mailbox the handler
    of its kind, with the Session and the payload of that message, before the next
    one is taken; [deactivate] at most once, when it is idle or after its closed
    mailbox was emptied.  Each handler runs on the value the one before it left, the
    task takes a handler for a success exactly when it returned, and after a failed
    activation, a panic or a deactivation no handler runs any more.  While a handler
    runs, nothing of the Server changes but by the other tasks and by the envelopes
    the handler hands to the transport. *)
Theorem hosted_actor_lifecycle {appE : Type -> Type} {A : Type} (config : ServerConfig) (env : relation ServerState)
    (h : Handlers appE A) (a : ActorAddress) (fuel : nat) (i : TaskId) (actor : A) (s s' : ServerState)
    (Hrun : execs (host_monitor config env) s (hosted h a (actor_task config fuel i a) actor) () s') :
  exists actor' ph,
    execs (life_monitor config env h a) (MkLife s actor Fresh) (actor_task config fuel i a) () (MkLife s' actor' ph).
Proof. eapply hosted_lives; [apply actor_task_life | exact Hrun]. Qed.

(** The counter is asked once and answers "1". *)
Definition counter_address : ActorAddress := MkActorAddress "counter" "counter-7".
Definition counter_session : SessionId := MkSessionId "0123456789abcdef".
Definition counter_config : ServerConfig := MkServerConfig {["counter" := Runtime.MkRegistration 2 60000000000]} 2 true 2.

Definition counter_server (m : list MailboxMessage) (out : list (SenderId * Envelope)) : ServerState :=
  let s := initial_state counter_config in
  with_outbox
    (with_sessions
       (with_actors
          (with_tasks s [MkTask counter_address 1 m 2 false false false false false])
          {[counter_address := MkRoute 1 Active 0]})
       (register_actor (sessions s) counter_address counter_session 7%N).2)
    out.

Definition counter_handlers : Handlers (fun _ => Empty_set) Counter :=
  typed_handlers (fun _ : unit => Counter) (fun _ => Empty_set) unit () (H := counter_actor true).

Lemma counter_answers :
  execs (host_monitor counter_config eq) (counter_server [Action counter_session "increment"] [])
    (hosted counter_handlers counter_address (actor_task counter_config 1 0 counter_address) (MkCounter 0)) ()
    (counter_server [] [(7%N, envelope_event counter_session "1")]).
Proof.
  cbn. eapply (execs_call _ _ _ _ _ _ _ _ (MessageReceived (Action counter_session "increment"))).
  - eexists. split; [| reflexivity]. eexists. split; [reflexivity |]. cbn. split; [by intros [? ?] |]. split; [| by split].
    exists counter_address, (MkRoute 1 Active 0). by vm_compute.
  - cbn. eapply (execs_call _ _ _ _ _ _ _ _ (Some 7%N)); [eexists; split; [by split | reflexivity] |]. cbn.
    eapply (execs_call _ _ _ _ _ _ _ _ true); [eexists; split; reflexivity |]. cbn. constructor.
Qed.

Lemma hosted_actor_lifecycle_witness :
  exists actor' ph,
    execs (life_monitor counter_config eq counter_handlers counter_address)
      (MkLife (counter_server [Action counter_session "increment"] []) (MkCounter 0) Fresh)
      (actor_task counter_config 1 0 counter_address) ()
      (MkLife (counter_server [] [(7%N, envelope_event counter_session "1")]) actor' ph).
Proof.
  apply (hosted_actor_lifecycle counter_config eq counter_handlers counter_address 1 0 (MkCounter 0)).
  exact counter_answers.
Defined.
