(* ===== verification/Chat.v ===== *)
(** * The chat room

    The Actor of [coactor/examples/chat_server.rs] with the protocol of
    [examples/chat/protocol.rs]: a use of the interface of [Actor].  The members
    of a room have distinct, printable names, and what the room announces tells
    exactly who they are. *)

From S2P Require Import Prelude Text Address Transport Session Runtime Actor.
From S2P Require Config.

(** ** The protocol *)
Inductive ChatAction :=
| Join (username : string)
| Send (text : string)
| Leave.

Inductive ChatEvent :=
| Joined (username : string)
| Message (username text : string)
| Left (username : string)
| Error (message : string).

#[export] Instance ChatAction_eq_dec : EqDecision ChatAction.
Proof. solve_decision. Defined.
#[export] Instance ChatEvent_eq_dec : EqDecision ChatEvent.
Proof. solve_decision. Defined.

(** [serde_json] on the two types, which it can always write: what [encode] wrote
    [from_slice] reads. *)
Class ChatCodec := {
  encode_action : ChatAction -> string;
  action_from_slice : string -> option ChatAction;
  encode_event : ChatEvent -> string;
  event_from_slice : string -> option ChatEvent;
  action_round_trip x : action_from_slice (encode_action x) = Some x;
  event_round_trip x : event_from_slice (encode_event x) = Some x
}.

(** [is_empty() || chars().count() > limit || chars().any(char::is_control)] *)
Definition unprintable (limit : nat) (s : string) : bool :=
  bool_decide (s = "") || (limit <? length (chars s))%nat || existsb is_control (chars s).

(** ** The room *)
Record ChatRoom := MkChatRoom {
  room_runtime : ActorRuntime unit;
  members : gmap SessionId string
}.

Definition with_members (m : gmap SessionId string) (self : ChatRoom) : ChatRoom := MkChatRoom (room_runtime self) m.

Definition chatE : Type -> Type := fun _ => Empty_set.

Section room.
Context `{ChatCodec}.

(** [ChatRoom::broadcast], [ChatRoom::reject] *)
Definition room_broadcast (self : ChatRoom) (event : ChatEvent) : proc (handlerE chatE) unit :=
  broadcast (room_runtime self) (encode_event event).

Definition reject (ctx : MessageContext) (message : string) : proc (handlerE chatE) unit :=
  bind! _ := context_send ctx (encode_event (Error message)); Ret ().

Definition room_new (runtime : ActorRuntime unit) : ChatRoom := MkChatRoom runtime ∅.

(** [members.values().any(|member| member == username)] *)
Definition name_taken (username : string) (m : gmap SessionId string) : bool :=
  existsb (fun member => bool_decide (member = username)) (map_to_list m).*2.

Definition on_join (ctx : MessageContext) (username : string) : method chatE ChatRoom unit := fun self =>
  let session_id := handle_session_id (context_session ctx) in
  let username := trim username in
  if unprintable 32 username then
    bind! _ := reject ctx "username must contain 1-32 printable characters"; Ret (self, ())
  else if bool_decide (is_Some (members self !! session_id)) then
    bind! _ := reject ctx "this Session already joined the room"; Ret (self, ())
  else if name_taken username (members self) then
    bind! _ := reject ctx "username is already in use"; Ret (self, ())
  else
    let self := with_members (<[session_id := username]> (members self)) self in
    bind! _ := room_broadcast self (Joined username); Ret (self, ()).

Definition on_send (ctx : MessageContext) (text : string) : method chatE ChatRoom unit := fun self =>
  match members self !! handle_session_id (context_session ctx) with
  | None => bind! _ := reject ctx "join the room before sending messages"; Ret (self, ())
  | Some username =>
      let text := trim text in
      if unprintable 1000 text then
        bind! _ := reject ctx "message must contain 1-1000 printable characters"; Ret (self, ())
      else bind! _ := room_broadcast self (Message username text); Ret (self, ())
  end.

(** [ChatAction::Leave], and [on_session_closed] *)
Definition remove_member (ctx : MessageContext) : method chatE ChatRoom unit := fun self =>
  let session_id := handle_session_id (context_session ctx) in
  match members self !! session_id with
  | Some username =>
      let self := with_members (delete session_id (members self)) self in
      bind! _ := room_broadcast self (Left username); Ret (self, ())
  | None => Ret (self, ())
  end.

Definition room_on_message (ctx : MessageContext) (message : string) : method chatE ChatRoom unit := fun self =>
  match action_from_slice message with
  | None => bind! _ := reject ctx "invalid chat Action"; Ret (self, ())
  | Some (Join username) => on_join ctx username self
  | Some (Send text) => on_send ctx text self
  | Some Leave => remove_member ctx self
  end.

#[export] Instance chat_room : Actor chatE unit ChatRoom := {
  new := room_new;
  on_message := room_on_message;
  on_activate := provided_on_activate;
  on_deactivate := provided_on_deactivate;
  on_session_opened := provided_on_session;
  on_session_closed := remove_member
}.

(** What the actor task makes of its mailbox, panics aside. *)
Definition on_mailbox (a : ActorAddress) (m : MailboxMessage) : method chatE ChatRoom unit :=
  match m with
  | Action sid payload => on_message (make_message_context a sid) payload
  | SessionOpened sid _ => on_session_opened (make_message_context a sid)
  | SessionClosed sid => on_session_closed (make_message_context a sid)
  end.

Definition message_session (m : MailboxMessage) : SessionId :=
  match m with
  | Action sid _ | SessionOpened sid _ | SessionClosed sid => sid
  end.

(** ** Who is there *)

(** A name a member can have. *)
Definition name_ok (username : string) : Prop := trim username = username /\ unprintable 32 username = false.

Record room_wf (a : ActorAddress) (self : ChatRoom) : Prop := {
  rw_address : runtime_address (room_runtime self) = a;
  rw_names sid username : members self !! sid = Some username -> name_ok username;
  rw_distinct sid1 sid2 username :
    members self !! sid1 = Some username -> members self !! sid2 = Some username -> sid1 = sid2
}.

(** Who is in the room after the Events heard so far. *)
Definition hear (view : gset string) (event : ChatEvent) : gset string :=
  match event with
  | Joined username => {[username]} ∪ view
  | Left username => view ∖ {[username]}
  | _ => view
  end.

(** An announcement that makes sense to those who have heard the others. *)
Definition announces (view : gset string) (event : ChatEvent) : Prop :=
  match event with
  | Joined username => name_ok username /\ username ∉ view
  | Message username text => username ∈ view /\ trim text = text /\ unprintable 1000 text = false
  | Left username => username ∈ view
  | Error _ => False
  end.

Definition names (self : ChatRoom) : gset string := map_img (members self).

(** What a handler called for session [sid] may do. *)
Definition room_allowed (a : ActorAddress) (sid : SessionId) X (view : gset string) (e : handlerE chatE X) : Prop :=
  match e with
  | UpgradeRuntime => True
  | BroadcastEvent a' msg => a' = a /\ exists event, msg = encode_event event /\ announces view event
  | DeliverEvent a' sid' msg => a' = a /\ sid' = sid /\ exists message, msg = encode_event (Error message)
  | _ => False
  end.

Definition room_observe X (view : gset string) (e : handlerE chatE X) : X -> gset string -> Prop :=
  match e in handlerE _ X return X -> gset string -> Prop with
  | UpgradeRuntime => fun alive view' => alive = true /\ view' = view
  | BroadcastEvent _ msg => fun _ view' => view' = from_option (hear view) view (event_from_slice msg)
  | _ => fun _ view' => view' = view
  end.

Definition room_monitor (a : ActorAddress) (sid : SessionId) : monitor (handlerE chatE) (gset string) :=
  Monitor (handlerE chatE) (gset string) (room_allowed a sid) room_observe.

(** The rooms of address [a], with what the Events heard from each tell. *)
Inductive room_reachable (a : ActorAddress) : ChatRoom -> gset string -> Prop :=
| room_started : room_reachable a (room_new (make_actor_runtime () a)) ∅
| room_handled self view m self' view' :
    room_reachable a self view ->
    execs (room_monitor a (message_session m)) view (on_mailbox a m self) (self', ()) view' ->
    room_reachable a self' view'.

(** ** Lemmas *)
Lemma names_elem self username : username ∈ names self <-> exists sid, members self !! sid = Some username.
Proof. apply elem_of_map_img. Qed.

Lemma name_taken_spec username self : name_taken username (members self) = true <-> username ∈ names self.
Proof.
  unfold name_taken. rewrite names_elem, existsb_exists. split.
  - intros (u & Hin & ->%bool_decide_eq_true). apply list_elem_of_In, list_elem_of_fmap in Hin as ([sid u'] & -> & Hin).
    exists sid. by apply elem_of_map_to_list.
  - intros [sid Hm]. exists username. rewrite bool_decide_eq_true. split; [| done].
    apply list_elem_of_In, list_elem_of_fmap. exists (sid, username). by rewrite elem_of_map_to_list.
Qed.

Lemma reject_wp a sid view self message (Q : ChatRoom * unit -> gset string -> Prop) :
  Q (self, ()) view ->
  wp (room_monitor a sid) view (bind! _ := reject (make_message_context a sid) message; Ret (self, ())) Q.
Proof. intros HQ. cbn. split; [by eauto |]. intros r view' ->. exact HQ. Qed.

Lemma broadcast_wp a sid view self self' event (Q : ChatRoom * unit -> gset string -> Prop) :
  runtime_address (room_runtime self) = a -> announces view event -> Q (self', ()) (hear view event) ->
  wp (room_monitor a sid) view (bind! _ := room_broadcast self event; Ret (self', ())) Q.
Proof.
  intros Ha Hann HQ. cbn. split; [done |]. intros alive view' [-> ->]. cbn. split; [by eauto |].
  intros [] view' ->. by rewrite event_round_trip.
Qed.

Definition told (a : ActorAddress) (r : ChatRoom * unit) (view : gset string) : Prop := room_wf a r.1 /\ view = names r.1.

Lemma names_insert sid username self :
  members self !! sid = None ->
  names (with_members (<[sid := username]> (members self)) self) = {[username]} ∪ names self.
Proof. intros Hn. unfold names. cbn. by apply map_img_insert_notin_L. Qed.

Lemma names_delete a sid username self :
  room_wf a self -> members self !! sid = Some username ->
  names (with_members (delete sid (members self)) self) = names self ∖ {[username]}.
Proof.
  intros Hwf Hs. apply set_eq. intros u. rewrite elem_of_difference, elem_of_singleton, !names_elem. cbn. split.
  - intros [sid' [Hne Hm]%lookup_delete_Some]. split; [by exists sid' |]. intros ->. destruct Hne. by eapply (rw_distinct _ _ Hwf).
  - intros [[sid' Hm] Hne]. exists sid'. apply lookup_delete_Some. split; [congruence | done].
Qed.

Lemma remove_member_wp a sid self :
  room_wf a self ->
  wp (room_monitor a sid) (names self) (remove_member (make_message_context a sid) self)
    (fun r view => told a r view /\ members r.1 !! sid = None).
Proof.
  intros Hwf. unfold remove_member. cbn [context_session handle_session_id make_message_context].
  destruct (members self !! sid) as [username |] eqn:Hs; [| by split; [split |]].
  apply broadcast_wp; [apply Hwf | apply names_elem; by exists sid |]. cbn [hear].
  split; [| apply lookup_delete_eq]. split; [| cbn; by erewrite names_delete]. split; cbn.
  - apply Hwf.
  - intros sid' u [_ Hm]%lookup_delete_Some. by eapply (rw_names _ _ Hwf).
  - intros sid1 sid2 u [_ H1]%lookup_delete_Some [_ H2]%lookup_delete_Some. by eapply (rw_distinct _ _ Hwf).
Qed.

Lemma on_join_wp a sid username self :
  room_wf a self ->
  wp (room_monitor a sid) (names self) (on_join (make_message_context a sid) username self) (told a).
Proof.
  intros Hwf. unfold on_join. cbn [context_session handle_session_id make_message_context].
  destruct (unprintable 32 (trim username)) eqn:Hp; [by apply reject_wp |].
  case_bool_decide as Hs; [by apply reject_wp |]. apply eq_None_not_Some in Hs.
  destruct (name_taken (trim username) (members self)) eqn:Ht; [by apply reject_wp |].
  assert (Hnew : trim username ∉ names self) by (intros Hin%name_taken_spec; congruence).
  assert (Hok : name_ok (trim username)) by (split; [apply trim_idem | done]).
  apply broadcast_wp; [apply Hwf | done |]. split; [| cbn; by rewrite names_insert]. split; cbn.
  - apply Hwf.
  - intros sid' u [(<- & <-) | [_ Hm]]%lookup_insert_Some; [done | by eapply (rw_names _ _ Hwf)].
  - assert (Hno : forall sid', members self !! sid' <> Some (trim username)) by (intros sid' Hm; apply Hnew, names_elem; eauto).
    intros sid1 sid2 u [(<- & <-) | [_ H1]]%lookup_insert_Some [(<- & Hu) | [_ H2]]%lookup_insert_Some; [done | | |].
    + by destruct (Hno sid2).
    + subst u. by destruct (Hno sid1).
    + by eapply (rw_distinct _ _ Hwf).
Qed.

Lemma on_send_wp a sid text self :
  room_wf a self ->
  wp (room_monitor a sid) (names self) (on_send (make_message_context a sid) text self) (told a).
Proof.
  intros Hwf. unfold on_send. cbn [context_session handle_session_id make_message_context].
  destruct (members self !! sid) as [username |] eqn:Hs; [| by apply reject_wp].
  destruct (unprintable 1000 (trim text)) eqn:Hp; [by apply reject_wp |].
  apply broadcast_wp; [apply Hwf | | done]. split; [apply names_elem; by exists sid |]. split; [apply trim_idem | done].
Qed.

Lemma on_mailbox_wp a m self :
  room_wf a self ->
  wp (room_monitor a (message_session m)) (names self) (on_mailbox a m self) (fun r view =>
    told a r view /\ forall sid, m = SessionClosed sid -> members r.1 !! sid = None).
Proof.
  intros Hwf. destruct m as [sid payload | sid o | sid]; cbn.
  - eapply wp_mono; [intros r view Ht; split; [exact Ht | by intros] |]. unfold room_on_message.
    destruct (action_from_slice payload) as [[username | text |] |]; [by apply on_join_wp | by apply on_send_wp | | by apply reject_wp].
    eapply wp_mono; [| by apply remove_member_wp]. by intros r view [].
  - by split.
  - eapply wp_mono; [| by apply remove_member_wp]. intros r view [Ht Hn]. split; [done |]. by intros sid' [= <-].
Qed.

Lemma room_reachable_wf a self view : room_reachable a self view -> room_wf a self /\ view = names self.
Proof.
  induction 1 as [| self view m self' view' _ [Hwf ->] Hx].
  - split; [split; cbn; by intros; simplify_map_eq |]. apply set_eq. intros u. rewrite names_elem. cbn.
    setoid_rewrite lookup_empty. set_solver.
  - apply (wp_execs _ _ _ _ _ _ (on_mailbox_wp a m self Hwf)) in Hx as [Ht _]. exact Ht.
Qed.
End room.

(** The Server of [main]; the store, the tracing and the signal are its inputs. *)
Definition chat_server : Config.ServerBuilder :=
  Config.actor (Config.actor_config "chat-room")
    (Config.set_node_id "chat-server" (Config.set_advertised_endpoint "127.0.0.1:7000" Config.server_builder)).

Lemma chat_server_starts :
  is_ok (Config.into_starter chat_server "127.0.0.1:7000") = true /\
  is_ok (Config.validate (Config.core chat_server)) = true.
Proof. by vm_compute. Qed.

(** ** Properties *)

(** C32: a chat room announces who is in it.  In every room that handlers have led
    to, from its activation on, the members have distinct names that are trimmed
    and printable, and they are exactly those that someone who heard its Events
    infers from them.  Whatever message comes next, the handler does not panic,
    announces only a member that is new, a member that leaves, or a printable
    message of a member, answers errors to the sender alone, and leaves the room
    in that state; after the close of a Session it is no member. *)
Theorem room_announces_its_members `{ChatCodec} (a : ActorAddress) (self : ChatRoom) (view : gset string)
    (m : MailboxMessage) (Hr : room_reachable a self view) :
  room_wf a self /\ view = names self /\
  wp (room_monitor a (message_session m)) view (on_mailbox a m self) (fun r view' =>
    room_wf a r.1 /\ view' = names r.1 /\ forall sid, m = SessionClosed sid -> members r.1 !! sid = None).
Proof.
  destruct (room_reachable_wf a self view Hr) as [Hwf ->]. split; [done |]. split; [done |].
  eapply wp_mono; [| by apply on_mailbox_wp]. by intros r view' [[] ?].
Qed.

(** A codec for the witnesses: a letter for the case, two strings as marked characters. *)
Fixpoint quote (x y : string) : string :=
  match x with
  | EmptyString => String "." y
  | String c x => String "+" (String c (quote x y))
  end.

Fixpoint unquote (s : string) : option (string * string) :=
  match s with
  | String "." y => Some ("", y)
  | String "+" (String c s) => (fun xy => (String c xy.1, xy.2)) <$> unquote s
  | _ => None
  end.

Lemma unquote_quote x y : unquote (quote x y) = Some (x, y).
Proof. induction x as [| c x IH]; [done |]. cbn. by rewrite IH. Qed.

Definition demo_action (s : string) : option ChatAction :=
  match s with
  | String "J" x => Some (Join x)
  | String "S" x => Some (Send x)
  | String "L" _ => Some Leave
  | _ => None
  end.

Definition demo_event (s : string) : option ChatEvent :=
  match s with
  | String "J" x => Some (Joined x)
  | String "M" x => (fun xy => Message xy.1 xy.2) <$> unquote x
  | String "L" x => Some (Left x)
  | String "E" x => Some (Error x)
  | _ => None
  end.

Definition demo_codec : ChatCodec.
Proof.
  refine {|
    encode_action x := match x with Join u => String "J" u | Send t => String "S" t | Leave => "L" end;
    action_from_slice := demo_action;
    encode_event x :=
      match x with
      | Joined u => String "J" u
      | Message u t => String "M" (quote u t)
      | Left u => String "L" u
      | Error m => String "E" m
      end;
    event_from_slice := demo_event
  |}.
  - by intros [].
  - intros []; try done. cbn. by rewrite unquote_quote.
Defined.

(** "ann" has joined; her message comes next. *)
Definition room_address : ActorAddress := MkActorAddress "chat-room" "lobby".
Definition ann_session : SessionId := MkSessionId "0123456789abcdef".
Definition ann_room : ChatRoom := MkChatRoom (make_actor_runtime () room_address) {[ann_session := "ann"]}.

Lemma execs_ret_eq {E S A} (m : monitor E S) s s' (a : A) : s = s' -> execs m s (Ret a) a s'.
Proof. intros <-. constructor. Qed.

Lemma ann_joins : room_reachable (H := demo_codec) room_address ann_room {["ann"]}.
Proof.
  eapply (room_handled _ _ _ (Action ann_session "J ann ")); [apply room_started |].
  eapply (execs_call _ _ _ _ _ _ _ _ true); [done |].
  eapply (execs_call _ _ _ _ _ _ _ _ ()); [reflexivity |].
  apply execs_ret_eq. cbn. set_solver.
Qed.

Lemma room_announces_its_members_witness :
  room_reachable (H := demo_codec) room_address ann_room {["ann"]} /\
  wp (room_monitor (H := demo_codec) room_address ann_session) {["ann"]}
    (on_mailbox (H := demo_codec) room_address (Action ann_session "Shello") ann_room)
    (fun r view' => room_wf room_address r.1 /\ view' = names r.1 /\
       forall sid, Action ann_session "Shello" = SessionClosed sid -> members r.1 !! sid = None).
Proof.
  split; [exact ann_joins |].
  exact (proj2 (proj2 (room_announces_its_members (H := demo_codec) room_address ann_room {["ann"]}
                         (Action ann_session "Shello") ann_joins))).
Defined.
