(* ===== verification/ChatClient.v ===== *)
(** * The chat client

    [coactor/examples/chat_client.rs] over a Session, the standard input and the
    interrupt signal, all of which reply arbitrarily; with the store of
    [examples/chat/storage.rs].  It says goodbye before it ends well; and it can
    believe that it has joined a room that has turned it away. *)

From S2P Require Import Prelude Text Address Transport Session Runtime Actor Chat.
From S2P Require Client S3Store.

(** [coordination_store], but for the SDK's client. *)
Definition BUCKET : string := "coactor".
Definition PREFIX : string := "coactor/chat".
Definition coordination_store : result S3Store.S3StoreConfigError S3Store.S3CoordinationStore :=
  S3Store.s3_new BUCKET PREFIX.

(** The errors behind the [Box<dyn Error>]. *)
Inductive chat_error :=
| Usage
| StoreFailed (e : S3Store.S3StoreConfigError)
| BuildFailed (e : Client.ClientBuildError)
| BadAddress (e : ActorAddressError)
| OpenFailed (e : OpenError)
| SessionFailed (e : SendError)
| Malformed                     (* [serde_json] rejects an Event *)
| Ended                         (* "the Session ended" *)
| Refused (message : string)
| LeaveTimedOut                 (* "timed out waiting for the leave Event" *)
| InputFailed
| SignalFailed.

(** What the [select!] of [run_chat] woke up with. *)
Inductive wake :=
| WEvent (r : option (result SendError string))
| WSignal (ok : bool)
| WLine (line : option (option string)).       (* the inner [None]: a line that could not be read *)

Inductive talkE : Type -> Type :=
| OpenSession (a : ActorAddress) : talkE (result OpenError unit)
| SessionSend (msg : string) : talkE (result SendError unit)
| SessionRecv : talkE (option (result SendError string))
| Select : talkE wake
| LeaveTimer : talkE bool                      (* the three seconds of [leave] are over *)
| PrintOut (line : string) : talkE unit
| PrintErr (line : string) : talkE unit
| ShutdownClient : talkE unit.

Section client.
Context `{ChatCodec}.

Definition print_event (event : ChatEvent) : proc talkE unit :=
  match event with
  | Joined username => call (PrintOut ("* " +:+ username +:+ " joined"))
  | Message username text => call (PrintOut ("<" +:+ username +:+ "> " +:+ text))
  | Left username => call (PrintOut ("* " +:+ username +:+ " left"))
  | Error message => call (PrintErr ("! " +:+ message))
  end.

(** What a received item is: [receive_event], and the arm of [run_chat]. *)
Definition event_of (r : option (result SendError string)) : result chat_error ChatEvent :=
  match r with
  | Some (Ok payload) => ok_or Malformed (event_from_slice payload)
  | Some (Err error) => Err (SessionFailed error)
  | None => Err Ended
  end.

Definition receive_event : proc talkE (result chat_error ChatEvent) :=
  call! r := SessionRecv;
  Ret (event_of r).

(** The loop of [join]; [None] when [fuel] Events were not enough. *)
Fixpoint join_loop (fuel : nat) (username : string) : proc talkE (option (result chat_error unit)) :=
  match fuel with
  | O => Ret None
  | S fuel =>
      bind! r := receive_event;
      match r with
      | Err e => Ret (Some (Err e))
      | Ok (Joined member) =>
          if bool_decide (member = username) then Ret (Some (Ok ()))
          else (bind! _ := print_event (Joined member); join_loop fuel username)
      | Ok (Error message) => Ret (Some (Err (Refused message)))
      | Ok event => bind! _ := print_event event; join_loop fuel username
      end
  end.

Definition join (fuel : nat) (username : string) : proc talkE (option (result chat_error unit)) :=
  call! sent := SessionSend (encode_action (Join username));
  match sent with
  | Err e => Ret (Some (Err (SessionFailed e)))
  | Ok _ => join_loop fuel username
  end.

(** [wait_for_leave_event] inside the [timeout] of [leave] *)
Fixpoint wait_for_leave_event (fuel : nat) (username : string) : proc talkE (option (result chat_error unit)) :=
  match fuel with
  | O => Ret None
  | S fuel =>
      call! out := LeaveTimer;
      if (out : bool) then Ret (Some (Err LeaveTimedOut)) else
      bind! r := receive_event;
      match r with
      | Err e => Ret (Some (Err e))
      | Ok event =>
          bind! _ := print_event event;
          if bool_decide (event = Left username) then Ret (Some (Ok ())) else wait_for_leave_event fuel username
      end
  end.

Definition leave (fuel : nat) (username : string) : proc talkE (option (result chat_error unit)) :=
  call! sent := SessionSend (encode_action Leave);
  match sent with
  | Err e => Ret (Some (Err (SessionFailed e)))
  | Ok _ => wait_for_leave_event fuel username
  end.

Fixpoint run_chat (fuel : nat) (username : string) : proc talkE (option (result chat_error unit)) :=
  match fuel with
  | O => Ret None
  | S fuel =>
      call! woke := Select;
      match woke with
      | WEvent r =>
          match event_of r with
          | Err e => Ret (Some (Err e))
          | Ok event => bind! _ := print_event event; run_chat fuel username
          end
      | WSignal ok => if (ok : bool) then leave fuel username else Ret (Some (Err SignalFailed))
      | WLine None => leave fuel username
      | WLine (Some None) => Ret (Some (Err InputFailed))
      | WLine (Some (Some line)) =>
          if bool_decide (trim line = "/quit") then leave fuel username
          else if trim_is_empty line then run_chat fuel username
          else
            call! sent := SessionSend (encode_action (Send line));
            match sent with
            | Err e => Ret (Some (Err (SessionFailed e)))
            | Ok _ => run_chat fuel username
            end
      end
  end.

(** The [Client] of [main] is built, the address is valid. *)
Definition prepare (arguments : list string) : result chat_error (ActorAddress * string) :=
  match arguments with
  | [room; username] =>
      try! _ := map_err StoreFailed coordination_store;
      try! _ := map_err BuildFailed (Client.client_build Client.client_builder);
      try! address := map_err BadAddress (actor_address_new "chat-room" room);
      Ok (address, trim username)
  | _ => Err Usage
  end.

Definition main (fuel : nat) (arguments : list string) : proc talkE (option (result chat_error unit)) :=
  match prepare arguments with
  | Err e => Ret (Some (Err e))
  | Ok (address, username) =>
      call! opened := OpenSession address;
      match opened with
      | Err e => Ret (Some (Err (OpenFailed e)))
      | Ok _ =>
          bind! joined := join fuel username;
          match joined with
          | Some (Ok _) =>
              exec! PrintOut ("Connected to " +:+ display_address address +:+ ". Type /quit or press Ctrl+C to leave.");
              bind! result := run_chat fuel username;
              match result with
              | Some r => exec! ShutdownClient; Ret (Some r)
              | None => Ret None
              end
          | r => Ret r
          end
      end
  end.
End client.

(** ** What the client says *)
Inductive phase :=
| PStart
| POpen
| PJoining
| PIn                  (* its name has joined *)
| PLeaving             (* it has said that it leaves *)
| PLeft                (* its name has left *)
| PDown (heard : bool). (* shut down; had its name left? *)

Section says.
Context `{ChatCodec} (username : string).

Definition talk_allowed X (g : phase * option string) (e : talkE X) : Prop :=
  match e with
  | OpenSession _ => g.1 = PStart
  | SessionSend msg =>
      match g.1 with
      | POpen => msg = encode_action (Join username)
      | PIn => msg = encode_action Leave \/
               exists line, g.2 = Some line /\ trim_is_empty line = false /\ msg = encode_action (Send line)
      | _ => False
      end
  | SessionRecv => g.1 = PJoining \/ g.1 = PLeaving
  | Select => g.1 = PIn
  | LeaveTimer => g.1 = PLeaving
  | ShutdownClient => g.1 = PIn \/ g.1 = PLeaving \/ g.1 = PLeft
  | _ => True
  end.

Definition talk_next X (g : phase * option string) (e : talkE X) : X -> phase * option string :=
  match e in talkE X return X -> phase * option string with
  | OpenSession _ => fun x => (if is_ok x then POpen else g.1, None)
  | SessionSend msg => fun x =>
      match g.1 with
      | POpen => (PJoining, None)
      | PIn => (if bool_decide (action_from_slice msg = Some Leave) then PLeaving else PIn, None)
      | p => (p, None)
      end
  | SessionRecv => fun x =>
      match g.1, event_of x with
      | PJoining, Ok (Joined member) => (if bool_decide (member = username) then PIn else PJoining, g.2)
      | PLeaving, Ok (Left member) => (if bool_decide (member = username) then PLeft else PLeaving, g.2)
      | p, _ => (p, g.2)
      end
  | Select => fun x => (g.1, match x with WLine (Some line) => line | _ => None end)
  | ShutdownClient => fun _ => (PDown (match g.1 with PLeft => true | _ => false end), g.2)
  | _ => fun _ => g
  end.

Definition talk_monitor : monitor talkE (phase * option string) :=
  Monitor talkE (phase * option string) talk_allowed (fun X g e x g' => g' = talk_next X g e x).

Lemma print_event_wp event g : wp talk_monitor g (print_event event) (fun _ g' => g' = g).
Proof. destruct event; (split; [done | by intros [] ? ->]). Qed.

Lemma join_loop_wp fuel line :
  wp talk_monitor (PJoining, line) (join_loop fuel username) (fun r g => r = Some (Ok ()) -> g = (PIn, line)).
Proof.
  induction fuel as [| fuel IH]; [done |]. cbn [join_loop]. apply wp_bind. split; [by left |]. intros r g ->. cbn [talk_next fst snd].
  destruct (event_of r) as [[member | u t | u | message] | e]; cbn [wp]; try done.
  - case_bool_decide; [done |]. apply wp_bind. eapply wp_mono; [| apply print_event_wp]. intros _ g ->. exact IH.
  - apply wp_bind. eapply wp_mono; [| apply print_event_wp]. intros _ g ->. exact IH.
  - apply wp_bind. eapply wp_mono; [| apply print_event_wp]. intros _ g ->. exact IH.
Qed.

Lemma wait_leave_wp fuel line :
  wp talk_monitor (PLeaving, line) (wait_for_leave_event fuel username)
    (fun r g => g = (PLeaving, line) /\ r <> Some (Ok ()) \/ g = (PLeft, line) /\ r = Some (Ok ())).
Proof.
  induction fuel as [| fuel IH]; [by left |]. cbn [wait_for_leave_event]. split; [done |]. intros [] g ->; [by left |].
  apply wp_bind. split; [by right |]. intros r g ->. cbn [talk_next fst snd].
  destruct (event_of r) as [event | e]; cbn [wp]; [| by left].
  apply wp_bind. eapply wp_mono; [| apply print_event_wp]. intros _ g ->.
  destruct event as [u | u t | u | message]; try (rewrite bool_decide_eq_false_2 by done; exact IH).
  destruct (decide (u = username)) as [-> | Hne].
  - rewrite !bool_decide_eq_true_2 by done. by right.
  - rewrite !bool_decide_eq_false_2 by congruence. exact IH.
Qed.

(** The end of the conversation. *)
Definition said_goodbye (r : option (result chat_error unit)) (g : phase * option string) : Prop :=
  g.1 = PIn /\ r <> Some (Ok ()) \/ g.1 = PLeaving /\ r <> Some (Ok ()) \/ g.1 = PLeft /\ r = Some (Ok ()).

Lemma leave_wp fuel line : wp talk_monitor (PIn, line) (leave fuel username) said_goodbye.
Proof.
  unfold leave. split; [by left |]. intros x g ->. cbn [talk_next fst]. rewrite action_round_trip, bool_decide_eq_true_2 by done.
  destruct x as [[] | e]; [| by right; left]. eapply wp_mono; [| apply wait_leave_wp].
  intros r g [[-> Hr] | [-> Hr]]; [by right; left | by right; right].
Qed.

Lemma run_chat_wp fuel line : wp talk_monitor (PIn, line) (run_chat fuel username) said_goodbye.
Proof.
  revert line. induction fuel as [| fuel IH]; intros line; [by left |]. cbn [run_chat]. split; [done |]. intros woke g ->.
  destruct woke as [r | [] | [[text |] |]]; cbn [talk_next fst snd]; try (apply leave_wp); try (by left).
  - destruct (event_of r) as [event | e]; [| by left]. apply wp_bind. eapply wp_mono; [| apply print_event_wp].
    intros _ g ->. apply IH.
  - case_bool_decide; [apply leave_wp |]. destruct (trim_is_empty text) eqn:Ht; [apply IH |].
    split; [right; by exists text |]. intros sent g ->. cbn [talk_next fst].
    rewrite action_round_trip, bool_decide_eq_false_2 by done. destruct sent; [apply IH | by left].
Qed.

(** The chat client sends its Join, then the lines it read that are not blank, and
    last its Leave; [main] ends well only when its own name was heard to leave,
    with the Client shut down. *)
Lemma main_says_goodbye fuel room name :
  trim name = username ->
  wp talk_monitor (PStart, None) (main fuel [room; name]) (fun r g => r = Some (Ok ()) -> g.1 = PDown true).
Proof.
  intros Hname. unfold main. destruct (prepare [room; name]) as [[address u] | e] eqn:Hp; [| done].
  assert (u = username) as ->.
  { unfold prepare in Hp. destruct (map_err StoreFailed _); [| done]. destruct (map_err BuildFailed _); [| done].
    cbn in Hp. destruct (actor_address_new _ _); [| done]. cbn in Hp. congruence. }
  split; [done |]. intros opened g ->. destruct opened as [[] | e]; [| done]. apply wp_bind. unfold join.
  split; [done |]. intros sent g ->. cbn [talk_next fst is_ok]. destruct sent as [[] | e]; [| done].
  eapply wp_mono; [| apply join_loop_wp]. intros joined g Hj. destruct joined as [[[] | e] |]; [| done..].
  rewrite (Hj eq_refl). split; [done |]. intros [] g' ->. cbn [talk_next]. apply wp_bind.
  eapply wp_mono; [| apply run_chat_wp]. intros r g' Hg. destruct r as [r |]; [| done].
  cbn [wp allowed observe talk_monitor talk_allowed talk_next fst].
  split; [destruct Hg as [[-> _] | [[-> _] | [-> _]]]; auto |]. intros [] g'' ->. cbn. intros [= ->].
  by destruct Hg as [[_ Hr] | [[_ Hr] | [-> _]]].
Qed.
End says.

(** ** A namesake *)

(** The inboxes of the Sessions of a room. *)
Definition inbox_observe X (s : gmap SessionId (list string)) (e : handlerE chatE X)
    : X -> gmap SessionId (list string) -> Prop :=
  match e in handlerE _ X return X -> gmap SessionId (list string) -> Prop with
  | UpgradeRuntime => fun alive s' => alive = true /\ s' = s
  | BroadcastEvent _ msg => fun _ s' => s' = (fun inbox => inbox ++ [msg]) <$> s
  | DeliverEvent _ sid msg => fun r s' =>
      match s !! sid with
      | Some inbox => r = Ok () /\ s' = <[sid := inbox ++ [msg]]> s
      | None => r = Err ActorStopped /\ s' = s
      end
  | _ => fun _ _ => False
  end.

Definition inbox_monitor : monitor (handlerE chatE) (gmap SessionId (list string)) :=
  Monitor (handlerE chatE) (gmap SessionId (list string)) (fun _ _ _ => True) inbox_observe.

(** A Session that takes what is sent and hands out its inbox. *)
Definition hears X (e : talkE X) (inbox : list string) : X * list string :=
  match e in talkE X return X * list string with
  | OpenSession _ => (Ok (), inbox)
  | SessionSend _ => (Ok (), inbox)
  | SessionRecv =>
      match inbox with
      | payload :: inbox => (Some (Ok payload), inbox)
      | [] => (None, [])
      end
  | Select => (WLine None, inbox)
  | LeaveTimer => (false, inbox)
  | PrintOut _ | PrintErr _ | ShutdownClient => ((), inbox)
  end.

(** Two Sessions of a room ask for the same name, one after the other.  The Joined
    of the first is announced to both, and the second takes it for its own: its
    [join] returns [Ok], though the room refuses it and it is no member. *)
Lemma first_join `{ChatCodec} a sid username inboxes :
  name_ok username ->
  execs inbox_monitor inboxes (on_mailbox a (Action sid (encode_action (Join username))) (room_new (make_actor_runtime () a)))
    (MkChatRoom (make_actor_runtime () a) {[sid := username]}, ()) ((fun inbox => inbox ++ [encode_event (Joined username)]) <$> inboxes).
Proof.
  intros [Htrim Hp]. cbn. unfold room_on_message. rewrite action_round_trip. unfold on_join. cbn [context_session make_message_context handle_session_id].
  rewrite Htrim, Hp. rewrite bool_decide_eq_false_2 by (cbn; rewrite lookup_empty; by intros []).
  eapply (execs_call _ _ _ _ _ _ _ _ true); [done |]. eapply (execs_call _ _ _ _ _ _ _ _ ()); [reflexivity |]. constructor.
Qed.

Lemma second_join `{ChatCodec} a sid1 sid2 username inboxes inbox :
  sid1 <> sid2 -> name_ok username -> inboxes !! sid2 = Some inbox ->
  let room := MkChatRoom (make_actor_runtime () a) {[sid1 := username]} in
  execs inbox_monitor inboxes (on_mailbox a (Action sid2 (encode_action (Join username))) room) (room, ())
    (<[sid2 := inbox ++ [encode_event (Error "username is already in use")]]> inboxes).
Proof.
  intros Hne [Htrim Hp] Hin room. cbn. unfold room_on_message. rewrite action_round_trip. unfold on_join. cbn [context_session make_message_context handle_session_id].
  rewrite Htrim, Hp. rewrite bool_decide_eq_false_2 by (cbn; rewrite lookup_singleton_ne by done; by intros []).
  assert (Ht : name_taken username (members room) = true).
  { apply name_taken_spec, names_elem. exists sid1. apply lookup_singleton_eq. }
  rewrite Ht. eapply (execs_call _ _ _ _ _ _ _ _ (Ok ())); [| constructor]. cbn. by rewrite Hin.
Qed.

Theorem namesake_believes_it_joined `{ChatCodec} (a : ActorAddress) (sid1 sid2 : SessionId) (username : string)
    (Hne : sid1 <> sid2) (Hok : name_ok username) :
  let request sid := on_mailbox a (Action sid (encode_action (Join username))) in
  exists room1 room2 heard1 heard2 inbox,
    execs inbox_monitor {[sid1 := []; sid2 := []]} (request sid1 (room_new (make_actor_runtime () a))) (room1, ()) heard1 /\
    execs inbox_monitor heard1 (request sid2 room1) (room2, ()) heard2 /\
    heard2 !! sid2 = Some inbox /\ members room2 !! sid2 = None /\
    run hears (join (length inbox) username) inbox = (Some (Ok ()), [encode_event (Error "username is already in use")]).
Proof.
  intros request. set (joined := encode_event (Joined username)).
  exists (MkChatRoom (make_actor_runtime () a) {[sid1 := username]}), (MkChatRoom (make_actor_runtime () a) {[sid1 := username]}),
    ((fun inbox => inbox ++ [joined]) <$> {[sid1 := []; sid2 := []]}),
    (<[sid2 := [joined] ++ [encode_event (Error "username is already in use")]]> ((fun inbox => inbox ++ [joined]) <$> {[sid1 := []; sid2 := []]})),
    [joined; encode_event (Error "username is already in use")].
  split; [by apply first_join |]. split; [| split; [apply lookup_insert_eq | split; [by apply lookup_singleton_ne |]]].
  - apply second_join; [done | done |]. rewrite lookup_fmap, lookup_insert_ne by done. by rewrite lookup_singleton_eq.
  - cbn. unfold joined. rewrite event_round_trip. cbn. by rewrite bool_decide_eq_true_2.
Qed.

Lemma namesake_believes_it_joined_witness :
  exists room inbox, members room !! MkSessionId "fedcba9876543210" = None /\
    run hears (join (H := demo_codec) (length inbox) "ann") inbox =
      (Some (Ok ()), [encode_event (ChatCodec := demo_codec) (Error "username is already in use")]).
Proof.
  destruct (namesake_believes_it_joined (H := demo_codec) room_address ann_session (MkSessionId "fedcba9876543210") "ann")
    as (room1 & room2 & heard1 & heard2 & inbox & _ & _ & _ & Hm & Hrun); [done | by split |].
  exists room2, inbox. exact (conj Hm Hrun).
Defined.
