(* ===== verification/Start.v ===== *)
(** * The life of a Server

    Models [ServerStarter::start] and [wall_time_millis] of
    [coactor/src/cluster/authority.rs], [ServerBuilder::serve_with_state],
    [Server::wait], [Server::shutdown] of [coactor/src/runtime.rs] and
    [ClusterTasks::shutdown] of [coactor/src/cluster/node.rs]: the procedure
    behind [serve], from the builder to the result, with its binding of the
    socket, the acquisition of the lease ([Lease.acquire_lease]), the two tasks
    it spawns, waits for and stops.  The tasks are modelled in [Accept] and
    [Lease]; here they move the two watches that [serve] waits on. *)

From S2P Require Import Prelude Text Address Coordination Endpoint Lease.
From S2P Require Transport Grpc Routing Runtime.
From S2P Require Import Config.

(** ** Effects *)

(** What wakes [serve] up: a branch of the [select!] of [wait], in the order it
    polls them ([closed]: the sender of the watch is gone), or the signal. *)
Inductive wake_up :=
| FencedChanged (closed : bool)
| TransportChanged (closed : bool)
| RenewalChanged
| SignalCompleted.

Inductive serveE : Type -> Type :=
| BindListener (a : SocketAddr) : serveE bool
| GenerateSession : serveE NodeSessionId
| SinceEpoch : serveE (option Z)                     (* of the system clock; [None]: before the epoch *)
| LeaseCall (X : Type) (e : leaseE X) : serveE X
| NewSemaphore (permits : Z) : serveE bool           (* [false]: it panics *)
| Listen (endpoint : string) (listener : bool) : serveE (result Transport.TransportError unit)
| SpawnTransport : serveE unit
| SpawnRenewal (n : NodeRecord) (rev : Revision) (timing : RenewalTiming) : serveE unit
| BorrowFenced : serveE bool
| BorrowStopped : serveE bool
| Select (signal : bool) : serveE wake_up
| ShutdownRuntime : serveE (result ServerError unit)
| SignalRenewal : serveE unit
| SignalTransport : serveE unit
| JoinRenewal : serveE (option RenewalExit)          (* [None]: the task panicked *)
| ReleaseNode (id : string) (rev : Revision) : serveE (result CoordinationError (MutationOutcome unit))
| ForceTransport : serveE unit
| JoinTransport : serveE unit.

(** How a call of [serve] ends: it returns, or a library it calls panics. *)
Inductive outcome (A : Type) :=
| Returns (a : A)
| Panics
| Runs.                                               (* the wait ran out of fuel *)
Arguments Returns {A} a.
Arguments Panics {A}.
Arguments Runs {A}.

(** [has_authority]: the Server is not fenced, and its Node Lease, if it has one, is valid. *)
Definition has_authority (status : Runtime.Status) (authority : option NodeAuthority) (now : Z) : bool :=
  match status, authority with
  | Runtime.FENCED, _ => false
  | _, Some authority => is_valid authority now
  | _, None => true
  end.

(** ** Start *)

(** [wall_time_millis], in nanoseconds since the epoch. *)
Definition wall_time_millis (since_epoch : option Z) : Z :=
  Z.min (default 0%Z since_epoch / 1000000) U64_MAX.

(** What a started Server is made of. *)
Record Server := MkServer {
  server_config : Runtime.ServerConfig;
  server_router : Routing.ClusterRouter;
  server_node : NodeRecord
}.

(** The record of a starting node. *)
Definition starting_node (b : ServerBuilderCore) (c : ServerRuntimeConfig) (session : NodeSessionId) (now : Z)
    : NodeRecord :=
  MkNodeRecord (config_node_id c) session (config_endpoint c) Transport.TRANSPORT_PROTOCOL_VERSION
    0 now 0 (Z.of_nat (builder_max_active_actors b)) false false.

Definition start_error (e : lease_start_error) : ServerError :=
  match e with
  | Lease.LeaseConflict => LeaseConflict
  | Lease.LeaseUnconfirmed => LeaseUnconfirmed
  | StartCoordination e => CoordinationUnavailable e
  end.

(** The socket, when an address to bind is configured; whether there is one. *)
Definition bind_listener (c : ServerRuntimeConfig) : proc serveE (result ServerError bool) :=
  match bind_address c with
  | Some address => call! bound := BindListener address; Ret (if (bound : bool) then Ok true else Err BindFailed)
  | None => Ret (Ok false)
  end.

(** [spawn_transport]: the [expect] of its [listen]. *)
Definition spawn_transport (c : ServerRuntimeConfig) (listener : bool) : proc serveE (outcome unit) :=
  call! listening := Listen (config_endpoint c) listener;
  match listening with
  | Ok _ => exec! SpawnTransport; Ret (Returns ())
  | Err _ => Ret Panics
  end.

(** The part of [start] that follows the lease. *)
Definition run_node (b : ServerBuilderCore) (c : ServerRuntimeConfig) (listener : bool) (node : NodeRecord)
    (revision : Revision) : proc serveE (outcome (result ServerError Server)) :=
  let cluster := Routing.MkClusterRouter (config_node_id c) (session_id node) in
  match build_with_authority b true with
  | Err e => Ret (Returns (Err e))
  | Ok config =>
      call! made := NewSemaphore (Z.of_nat (Runtime.max_active_actors config));
      if negb made then Ret Panics else
      bind! transport := spawn_transport c listener;
      match transport with
      | Returns _ =>
          exec! SpawnRenewal node revision
                  (MkTiming (config_node_lease_ttl c) (config_coordination_timeout c) (renewal_interval c));
          Ret (Returns (Ok (MkServer config cluster node)))
      | Panics => Ret Panics
      | Runs => Ret Runs
      end
  end.

(** [ServerStarter::start] *)
Definition start (b : ServerBuilderCore) (c : ServerRuntimeConfig)
    : proc serveE (outcome (result ServerError Server)) :=
  match validate b with
  | Err e => Ret (Returns (Err e))
  | Ok _ =>
      bind! bound := bind_listener c;
      match bound with
      | Err e => Ret (Returns (Err e))
      | Ok listener =>
          call! session := GenerateSession;
          call! since_epoch := SinceEpoch;
          let node := starting_node b c session (wall_time_millis since_epoch) in
          bind! acquired := lift LeaseCall
                              (acquire_lease node (config_node_lease_ttl c) (config_coordination_timeout c));
          match acquired with
          | None => Ret Panics
          | Some (Err e) => Ret (Returns (Err (start_error e)))
          | Some (Ok revision) => run_node b c listener node revision
          end
      end
  end.

(** ** Wait and shutdown *)

(** [Server::wait] of a clustered Server, raced against the shutdown signal if
    there is one; cut after [fuel] rounds of its loop. *)
Fixpoint wait_loop (fuel : nat) (signal : bool) : proc serveE (outcome (result ServerError unit)) :=
  match fuel with
  | O => Ret Runs
  | S fuel =>
      call! fenced := BorrowFenced;
      if (fenced : bool) then Ret (Returns (Err Fenced)) else
      call! stopped := BorrowStopped;
      if (stopped : bool) then Ret (Returns (Err ServiceStopped)) else
      call! event := Select signal;
      match event with
      | FencedChanged closed =>
          if closed then Ret (Returns (Err ServiceStopped)) else wait_loop fuel signal
      | TransportChanged closed =>
          if closed then Ret (Returns (Err ServiceStopped)) else
          call! stopped := BorrowStopped;
          if (stopped : bool) then Ret (Returns (Err ServiceStopped)) else wait_loop fuel signal
      | RenewalChanged => Ret (Returns (Err ServiceStopped))
      | SignalCompleted => Ret (Returns (Ok ()))
      end
  end.

(** The rounds that are enough: see [wait_wp]. *)
Definition WAIT_ROUNDS : nat := 2.

(** [ClusterTasks::shutdown] *)
Definition cluster_shutdown : proc serveE unit :=
  exec! SignalRenewal;
  exec! SignalTransport;
  call! exit := JoinRenewal;
  bind! _ := match exit with
             | Some exit => if release exit then exec! ReleaseNode (exit_node_id exit) (exit_revision exit); Ret ()
                            else Ret ()
             | None => Ret ()
             end;
  exec! ForceTransport;
  exec! JoinTransport;
  Ret ().

(** [Server::shutdown] *)
Definition server_shutdown : proc serveE (result ServerError unit) :=
  call! result := ShutdownRuntime;
  bind! _ := cluster_shutdown;
  Ret result.

(** [Result::and] *)
Definition result_and {E A B} (r : result E A) (r' : result E B) : result E B :=
  match r with
  | Ok _ => r'
  | Err e => Err e
  end.

(** [serve_with_state] *)
Definition serve (b : ServerBuilder) (address : string) (signal : bool)
    : proc serveE (outcome (result ServerError unit)) :=
  match into_starter b address with
  | Err e => Ret (Returns (Err e))
  | Ok config =>
      bind! started := start (core b) config;
      match started with
      | Panics => Ret Panics
      | Runs => Ret Runs
      | Returns (Err e) => Ret (Returns (Err e))
      | Returns (Ok _) =>
          bind! waited := wait_loop WAIT_ROUNDS signal;
          match waited with
          | Panics => Ret Panics
          | Runs => Ret Runs
          | Returns result =>
              bind! shutdown_result := server_shutdown;
              Ret (Returns (result_and result shutdown_result))
          end
      end
  end.

(** ** The discipline of a Server's life *)

(** How far the procedure has come. *)
Inductive phase :=
| Starting
| Sized
| Listening
| Accepting                                           (* the transport task runs *)
| Serving                                             (* and the renewal task *)
| ShutDown (r : result ServerError unit)              (* the runtime is shut down *)
| RenewalAsked (r : result ServerError unit)
| TransportAsked (r : result ServerError unit)
| RenewalJoined (r : result ServerError unit) (exit : option RenewalExit)
| LeaseReleased (r : result ServerError unit)
| TransportForced (r : result ServerError unit)
| Down (r : result ServerError unit).                 (* no task is left *)

Record serve_ghost := MkServeGhost {
  g_bound : option bool;                (* the reply of the bind *)
  g_session : option NodeSessionId;
  g_clock : option (option Z);
  g_lease : lease_ghost;
  g_fenced : bool;                      (* the watches, as far as they are known *)
  g_stopped : bool;
  g_signal : bool;                      (* the signal completed *)
  g_over : bool;                        (* something ended the wait *)
  g_phase : phase
}.

Definition serve_ghost0 : serve_ghost := MkServeGhost None None None lease_ghost0 false false false false Starting.

Definition with_bound (g : serve_ghost) x := MkServeGhost (Some x) (g_session g) (g_clock g) (g_lease g) (g_fenced g) (g_stopped g) (g_signal g) (g_over g) (g_phase g).
Definition with_session (g : serve_ghost) x := MkServeGhost (g_bound g) (Some x) (g_clock g) (g_lease g) (g_fenced g) (g_stopped g) (g_signal g) (g_over g) (g_phase g).
Definition with_clock (g : serve_ghost) x := MkServeGhost (g_bound g) (g_session g) (Some x) (g_lease g) (g_fenced g) (g_stopped g) (g_signal g) (g_over g) (g_phase g).
Definition with_lease (g : serve_ghost) l := MkServeGhost (g_bound g) (g_session g) (g_clock g) l (g_fenced g) (g_stopped g) (g_signal g) (g_over g) (g_phase g).
Definition with_watches (g : serve_ghost) f s over := MkServeGhost (g_bound g) (g_session g) (g_clock g) (g_lease g) f s (g_signal g) over (g_phase g).
Definition with_signal (g : serve_ghost) := MkServeGhost (g_bound g) (g_session g) (g_clock g) (g_lease g) (g_fenced g) (g_stopped g) true true (g_phase g).
Definition with_phase (g : serve_ghost) p := MkServeGhost (g_bound g) (g_session g) (g_clock g) (g_lease g) (g_fenced g) (g_stopped g) (g_signal g) (g_over g) p.

Section serve.
(** [max_permits]: [Semaphore::MAX_PERMITS] of tokio, beyond which
    [Semaphore::new] panics. *)
Context (max_permits : Z) (b : ServerBuilderCore) (c : ServerRuntimeConfig) (signal : bool).

Abbreviation T := (config_node_lease_ttl c).
Abbreviation limit := (Z.of_nat (builder_max_active_actors b)).

(** The record this run of the Server registers. *)
Definition own_node (g : serve_ghost) : option NodeRecord :=
  session ← g_session g; since_epoch ← g_clock g;
  Some (starting_node b c session (wall_time_millis since_epoch)).

(** The lease of this run's session is confirmed, and authority is held. *)
Definition holds_lease (g : serve_ghost) (node : NodeRecord) (rev : Revision) : Prop :=
  own_node g = Some node /\ serving T (g_lease g) /\ carries (g_lease g) node rev.

(** Nothing was asked of the store. *)
Definition untouched (g : serve_ghost) : Prop :=
  g_session g = None /\ g_clock g = None /\ g_lease g = lease_ghost0 /\ g_phase g = Starting /\
  g_signal g = false.

Definition serve_allowed X (g : serve_ghost) (e : serveE X) : Prop :=
  match e with
  | BindListener a => untouched g /\ bind_address c = Some a
  | GenerateSession => untouched g /\ (bind_address c <> None -> g_bound g = Some true)
  | SinceEpoch => g_phase g = Starting /\ g_lease g = lease_ghost0
  | LeaseCall _ e =>
      g_phase g = Starting /\ exists node, own_node g = Some node /\ lease_allowed node T _ (g_lease g) e
  | NewSemaphore permits =>
      g_phase g = Starting /\ permits = limit /\ exists node rev, holds_lease g node rev
  | Listen endpoint listener =>
      g_phase g = Sized /\ endpoint = config_endpoint c /\ listener = bool_decide (bind_address c <> None)
  | SpawnTransport => g_phase g = Listening /\ exists node rev, holds_lease g node rev
  | SpawnRenewal node rev timing =>
      g_phase g = Accepting /\ holds_lease g node rev /\
      timing = MkTiming T (config_coordination_timeout c) (T / 3)
  | BorrowFenced | BorrowStopped => g_phase g = Serving
  | Select s => g_phase g = Serving /\ s = signal
  | ShutdownRuntime => g_phase g = Serving /\ g_over g = true
  | SignalRenewal => exists r, g_phase g = ShutDown r
  | SignalTransport => exists r, g_phase g = RenewalAsked r
  | JoinRenewal => exists r, g_phase g = TransportAsked r
  | ReleaseNode id rev =>
      exists r exit, g_phase g = RenewalJoined r (Some exit) /\ release exit = true /\
                     id = exit_node_id exit /\ rev = exit_revision exit
  | ForceTransport =>
      exists r, g_phase g = LeaseReleased r \/ g_phase g = RenewalJoined r None \/
                exists exit, g_phase g = RenewalJoined r (Some exit) /\ release exit = false
  | JoinTransport => exists r, g_phase g = TransportForced r
  end.

(** The watches only ever become true. *)
Definition rises (g : serve_ghost) (f s : bool) : Prop :=
  (g_fenced g = true -> f = true) /\ (g_stopped g = true -> s = true).

(** The phase after a step of the shutdown. *)
Definition after X (e : serveE X) (x : X) (p : phase) : phase :=
  match e in serveE X return X -> phase with
  | SignalRenewal => fun _ => match p with ShutDown r => RenewalAsked r | p => p end
  | SignalTransport => fun _ => match p with RenewalAsked r => TransportAsked r | p => p end
  | JoinRenewal => fun exit => match p with TransportAsked r => RenewalJoined r exit | p => p end
  | ReleaseNode _ _ => fun _ => match p with RenewalJoined r _ => LeaseReleased r | p => p end
  | ForceTransport => fun _ => match p with RenewalJoined r _ | LeaseReleased r => TransportForced r | p => p end
  | JoinTransport => fun _ => match p with TransportForced r => Down r | p => p end
  | _ => fun _ => p
  end x.

(** Replies are arbitrary, but: the semaphore is made if its size is legal; the
    gRPC transport listens as [Grpc.grpc_listen]; a watch that has changed
    without its sender being gone was set; and [select!] polls the watch of the
    fence first, the signal last. *)
Definition serve_observe X (g : serve_ghost) (e : serveE X) : X -> serve_ghost -> Prop :=
  match e in serveE X return X -> serve_ghost -> Prop with
  | BindListener _ => fun x g' => g' = with_bound g x
  | GenerateSession => fun x g' => g' = with_session g x
  | SinceEpoch => fun x g' => g' = with_clock g x
  | LeaseCall _ e => fun x g' => exists l, lease_observe _ (g_lease g) e x l /\ g' = with_lease g l
  | NewSemaphore permits => fun x g' =>
      x = bool_decide (permits <= max_permits)%Z /\ g' = if x then with_phase g Sized else g
  | Listen _ listener => fun x g' =>
      match server_transport c with
      | GrpcTransport => exists w, is_ok x = is_ok (fst (Grpc.grpc_listen w listener))
      | InmemTransport => True
      end /\ g' = if is_ok x then with_phase g Listening else g
  | SpawnTransport => fun _ g' => g' = with_phase g Accepting
  | SpawnRenewal _ _ _ => fun _ g' => g' = with_phase g Serving
  | BorrowFenced => fun x g' => exists s, rises g x s /\ g' = with_watches g x s (g_over g || x)
  | BorrowStopped => fun x g' => exists f, rises g f x /\ g' = with_watches g f x (g_over g || x)
  | Select signal => fun x g' =>
      exists f s, rises g f s /\
      match x with
      | FencedChanged closed => (closed = false -> f = true) /\ g' = with_watches g f s closed
      | TransportChanged closed => g_fenced g = false /\ (closed = false -> s = true) /\ g' = with_watches g f s closed
      | RenewalChanged => g_fenced g = false /\ g_stopped g = false /\ g' = with_watches g f s true
      | SignalCompleted => signal = true /\ g_fenced g = false /\ g_stopped g = false /\
                           g' = with_signal (with_watches g f s true)
      end
  | ShutdownRuntime => fun r g' => g' = with_phase g (ShutDown r)
  | e => fun x g' => g' = with_phase g (after _ e x (g_phase g))
  end.

Definition serve_monitor : monitor serveE serve_ghost := Monitor serveE serve_ghost serve_allowed serve_observe.

(** A start that is refused, and has no task running. *)
Definition start_refused (e : ServerError) (g : serve_ghost) : Prop :=
  g_phase g = Starting /\
  match e with
  | BindFailed => untouched g /\ g_bound g = Some false
  | LeaseConflict => l_conflict (g_lease g) = true
  | LeaseUnconfirmed => l_conflict (g_lease g) = false
  | CoordinationUnavailable _ => l_conflict (g_lease g) = false /\ l_authority (g_lease g) = None
  | e => untouched g /\ validate b = Err e
  end.

(** A panic: the lease is held, or may be, and nothing will release it. *)
Definition start_panics (g : serve_ghost) : Prop :=
  (exists node rev, holds_lease g node rev) /\
  (g_phase g = Starting /\ (max_permits < limit)%Z \/
   g_phase g = Sized /\ (server_transport c = InmemTransport \/ bind_address c = None)) \/
  g_phase g = Starting /\ is_Some (own_node g) /\ l_authority (g_lease g) = None /\ too_far T (g_lease g).

Definition start_post (r : outcome (result ServerError Server)) (g : serve_ghost) : Prop :=
  match r with
  | Returns (Ok s) =>
      g_phase g = Serving /\ (exists rev, holds_lease g (server_node s) rev) /\
      build_with_authority b true = Ok (server_config s) /\ (limit <= max_permits)%Z /\ g_signal g = false
  | Returns (Err e) => start_refused e g
  | Panics => start_panics g
  | Runs => False
  end.

Definition wait_post (r : outcome (result ServerError unit)) (g : serve_ghost) : Prop :=
  g_phase g = Serving /\ g_over g = true /\
  match r with
  | Returns (Ok _) => g_signal g = true /\ signal = true
  | Returns (Err e) => g_signal g = false /\ (e = Fenced /\ g_fenced g = true \/ e = ServiceStopped)
  | _ => False
  end.

(** What [serve] ends in, once its configuration is accepted. *)
Definition serve_post (r : outcome (result ServerError unit)) (g : serve_ghost) : Prop :=
  match r with
  | Returns r =>
      (exists e, r = Err e /\ start_refused e g) \/
      (exists (waited : result ServerError unit) shut, g_phase g = Down shut /\ r = result_and waited shut /\ (limit <= max_permits)%Z /\
         match waited with
         | Ok _ => g_signal g = true /\ signal = true
         | Err e => g_signal g = false /\ (e = Fenced /\ g_fenced g = true \/ e = ServiceStopped)
         end)
  | Panics => start_panics g
  | Runs => False
  end.
End serve.

(** ** Lemmas *)
Ltac serve_step :=
  cbn [wp serve_monitor allowed observe serve_allowed serve_observe];
  split; [| let x := fresh "x" in let g := fresh "g" in let Hg := fresh "Hg" in
            intros x g Hg; cbn beta in Hg].

Section serve_lemmas.
Context (max_permits : Z) (b : ServerBuilderCore) (c : ServerRuntimeConfig) (signal : bool).
Abbreviation mon := (serve_monitor max_permits b c signal).

Lemma build_after_validate clustered :
  validate b = Ok () -> exists config, build_with_authority b clustered = Ok config /\
                                       Runtime.max_active_actors config = builder_max_active_actors b.
Proof. intros Hv. unfold build_with_authority. rewrite Hv. cbn. by eexists. Qed.

Lemma spawn_transport_wp g listener node rev (Q : outcome unit -> serve_ghost -> Prop) :
  g_phase g = Sized -> holds_lease b c g node rev -> listener = bool_decide (bind_address c <> None) ->
  (server_transport c = InmemTransport \/ bind_address c = None -> Q Panics g) ->
  Q (Returns ()) (with_phase (with_phase g Listening) Accepting) ->
  wp mon g (spawn_transport c listener) Q.
Proof.
  intros Hp Hh -> HP HQ. serve_step; [done |]. destruct Hg as [Hx ->]. destruct x as [[] | e]; cbn [is_ok] in *.
  - serve_step; [split; [done |]; by exists node, rev |]. by subst g0.
  - apply HP. destruct (server_transport c); [| by left]. right. destruct Hx as [w Hw].
    case_bool_decide as Hb; [done |]. by destruct (decide (bind_address c = None)).
Qed.

Lemma run_node_wp g listener node rev :
  validate b = Ok () -> g_phase g = Starting -> g_signal g = false -> holds_lease b c g node rev ->
  listener = bool_decide (bind_address c <> None) ->
  wp mon g (run_node b c listener node rev) (start_post max_permits b c).
Proof.
  intros Hv Hp Hsig Hh Hl. unfold run_node. destruct (build_after_validate true Hv) as (config & Hb & Hm). rewrite Hb.
  serve_step; [rewrite Hm; split_and!; [done | done |]; by exists node, rev |].
  destruct Hg as [Hx ->]. rewrite Hm in Hx. symmetry in Hx. destruct x; cbn [negb]; cycle 1;
    [apply bool_decide_eq_false in Hx | apply bool_decide_eq_true in Hx].
  { change (start_panics max_permits b c g). left. split; [by exists node, rev | left; split; [done | lia]]. }
  apply wp_bind. eapply spawn_transport_wp; [done | exact Hh | done | |].
  - intros Hin. change (start_panics max_permits b c (with_phase g Sized)). left. split; [by exists node, rev | right]. by split.
  - serve_step; [by split_and! |]. subst g0. cbn. split_and!; [done | by exists rev | done | done | done].
Qed.

Lemma bind_listener_wp g (Q : result ServerError bool -> serve_ghost -> Prop) :
  untouched g ->
  (bind_address c <> None -> Q (Err BindFailed) (with_bound g false)) ->
  (forall g', untouched g' -> (bind_address c <> None -> g_bound g' = Some true) ->
     Q (Ok (bool_decide (bind_address c <> None))) g') ->
  wp mon g (bind_listener c) Q.
Proof.
  intros Hu HE HO. unfold bind_listener. destruct (bind_address c) as [a |] eqn:Ha; [| by apply HO].
  serve_step; [done |]. subst g0. destruct x; cbn; [| by apply HE].
  by apply (HO (with_bound g true)).
Qed.

Lemma start_wp : wp mon serve_ghost0 (start b c) (start_post max_permits b c).
Proof.
  unfold start. destruct (validate b) as [[] | e] eqn:Hv; cycle 1.
  { pose proof (validate_err _ _ Hv). split; [done |]. by destruct e. }
  apply wp_bind. apply bind_listener_wp; [done | by intros |]. intros g Hu Hb.
  destruct Hu as (Hs & Hc & Hl & Hp & Hsig).
  serve_step; [done |]. subst g0. rename x into session.
  serve_step; [done |]. subst g0. rename x into since.
  set (g1 := with_clock (with_session g session) since).
  set (node := starting_node b c session (wall_time_millis since)).
  apply wp_bind. eapply wp_mono; [| apply (wp_lift LeaseCall (lease_monitor node (config_node_lease_ttl c)) mon g_lease
    (fun g' => exists l, g' = with_lease g1 l) (acquire_lease node (config_node_lease_ttl c) (config_coordination_timeout c))
    g1 (Lease.start_post node (config_node_lease_ttl c)))].
  - intros r g' ([l ->] & Hpost). destruct r as [[rev | e] |]; cbn in Hpost.
    + apply run_node_wp; [done | done | done | by split | done].
    + cbn. split; [done |]. destruct Hpost as (Hf & Hconf & Hauth).
      destruct e; cbn; rewrite ?Hconf; [done | done |]. split; [done | by apply Hauth].
    + right. split_and!; [done | by eexists | apply Hpost ..].
  - intros X e g' [l ->] Hal. split; [done |]. exists node. by split.
  - intros X e g' x g'' [l ->] (l' & Ho & ->). cbn in *. split; [done |]. by exists l'.
  - exists (g_lease g1). by destruct g.
  - cbn. rewrite Hl. apply acquire_lease_wp.
Qed.

(** Two rounds are enough: a wake-up leaves a watch set that the next round
    reads, or ends the wait. *)
Lemma wait_round fuel g :
  g_phase g = Serving -> g_signal g = false -> g_fenced g = true ->
  wp mon g (wait_loop (S fuel) signal) (wait_post signal).
Proof.
  intros Hp Hs Hf. serve_step; [done |]. destruct Hg as (s & [Hx _] & ->). specialize (Hx Hf). subst x. cbn.
  rewrite orb_true_r. split_and!; [done | done | done |]. by left.
Qed.

Lemma wait_wp g :
  g_phase g = Serving -> g_signal g = false -> wp mon g (wait_loop WAIT_ROUNDS signal) (wait_post signal).
Proof.
  intros Hp Hs. unfold WAIT_ROUNDS. change (wait_loop 2 signal) with
    (ltac:(let t := eval cbn [wait_loop] in (wait_loop 2 signal) in exact t)).
  serve_step; [done |]. destruct Hg as (s1 & _ & ->). destruct x; cbn.
  { rewrite orb_true_r. split_and!; try done. by left. }
  serve_step; [done |]. destruct Hg as (f1 & _ & ->). destruct x; cbn.
  { rewrite orb_true_r. split_and!; try done. by right. }
  serve_step; [done |]. destruct Hg as (f & s & _ & Hg). destruct x as [closed | closed | |].
  - destruct Hg as [Hc ->]. destruct closed; [cbn; split_and!; try done; by right |].
    apply (wait_round 0); [done | done | by apply Hc].
  - destruct Hg as (_ & Hc & ->). destruct closed; [cbn; split_and!; try done; by right |].
    serve_step; [done |]. destruct Hg as (f2 & [_ Hx] & ->). rewrite Hx by (by apply Hc). cbn.
    split_and!; try done. by right.
  - destruct Hg as (_ & _ & ->). cbn. split_and!; try done. by right.
  - destruct Hg as (Hsig & _ & _ & ->). cbn. by split_and!.
Qed.

Lemma cluster_shutdown_wp g r :
  g_phase g = ShutDown r ->
  wp mon g cluster_shutdown (fun _ g' => g' = with_phase g (Down r)).
Proof.
  intros Hp. unfold cluster_shutdown.
  serve_step; [by eexists |]. subst g0. rewrite Hp.
  serve_step; [by eexists |]. subst g0.
  serve_step; [by eexists |]. subst g0. cbn [after g_phase with_phase].
  assert (Htail : forall g', (exists exit, g_phase g' = RenewalJoined r exit /\ default false (release <$> exit) = false) \/
                             g_phase g' = LeaseReleased r ->
    wp mon g' (exec! ForceTransport; exec! JoinTransport; Ret ()) (fun _ g'' => g'' = with_phase g' (Down r))).
  { intros g' Hg'. serve_step.
    { exists r. destruct Hg' as [([exit |] & Hg' & He) | Hg']; [right; right; by exists exit | right; by left | by left]. }
    subst g0. cbn [after].
    destruct Hg' as [(exit & Hph & _) | Hph]; rewrite Hph; (serve_step; [by eexists |]; by subst g0). }
  destruct x1 as [exit |]; [destruct (release exit) eqn:He |]; cbn [proc_bind].
  - split; [by exists r, exit |]. intros rel g' Hg'. cbn in Hg'. subst g'. cbn [after g_phase with_phase].
    eapply wp_mono; [| apply Htail; by right]. by intros [] g' ->.
  - eapply wp_mono; [| apply Htail; left; by exists (Some exit)]. by intros [] g' ->.
  - eapply wp_mono; [| apply Htail; left; by exists None]. by intros [] g' ->.
Qed.

Lemma server_shutdown_wp g :
  g_phase g = Serving -> g_over g = true ->
  wp mon g server_shutdown (fun r g' => g' = with_phase g (Down r)).
Proof.
  intros Hp Ho. unfold server_shutdown. serve_step; [done |]. subst g0.
  apply wp_bind. eapply wp_mono; [| by apply (cluster_shutdown_wp _ x)]. by intros [] g' ->.
Qed.
End serve_lemmas.

(** ** A good environment

    The socket binds, the store grants the lease at once, the tasks run until
    they are asked to stop, and the application's signal completes. *)
Inductive mark :=
| LeaseAsked (n : NodeRecord)
| TransportUp
| RenewalUp (n : NodeRecord) (rev : Revision)
| RuntimeDown
| RenewalDown
| LeaseFreed (id : string) (rev : Revision)
| TransportDown.

Record good_env := MkGoodEnv {
  now : Z;
  new_session : NodeSessionId;
  since_epoch : Z;
  granted : Revision;
  last_exit : RenewalExit;
  graceful : result ServerError unit
}.

Definition good_lease (env : good_env) X (e : leaseE X) (a : option NodeAuthority * list mark)
    : X * (option NodeAuthority * list mark) :=
  match e in leaseE X return X * _ with
  | Now => (now env, a)
  | Rand => (0%Z, a)
  | SleepUntilOrShutdown _ => (true, a)
  | ReadAuthority => (default (MkNodeAuthority false 0 0 false) (fst a), a)
  | WriteAuthority x => ((), (Some x, snd a))
  | FenceRuntime => ((), a)
  | CapacityReadings => (MkReadings 0 0 0 true, a)
  | AcquireNode _ n _ => (Ready (Ok (Applied (granted env))), (fst a, snd a ++ [LeaseAsked n]))
  | RenewNode _ _ _ _ => (Elapsed, a)
  | ReadNodeLease _ _ => (Elapsed, a)
  end.

Definition good_serve (max_permits : Z) (env : good_env) X (e : serveE X) (a : option NodeAuthority * list mark)
    : X * (option NodeAuthority * list mark) :=
  let mark m := (fst a, snd a ++ [m]) in
  match e in serveE X return X * _ with
  | BindListener _ => (true, a)
  | GenerateSession => (new_session env, a)
  | SinceEpoch => (Some (since_epoch env), a)
  | LeaseCall X e => good_lease env X e a
  | NewSemaphore permits => (bool_decide (permits <= max_permits)%Z, a)
  | Listen _ listener => (if listener then Ok () else Err Transport.BindFailed, a)
  | SpawnTransport => ((), mark TransportUp)
  | SpawnRenewal n rev _ => ((), mark (RenewalUp n rev))
  | BorrowFenced | BorrowStopped => (false, a)
  | Select signal => (if signal then SignalCompleted else RenewalChanged, a)
  | ShutdownRuntime => (graceful env, mark RuntimeDown)
  | SignalRenewal | SignalTransport | ForceTransport => ((), a)
  | JoinRenewal => (Some (last_exit env), mark RenewalDown)
  | ReleaseNode id rev => (Ok (Applied ()), mark (LeaseFreed id rev))
  | JoinTransport => ((), mark TransportDown)
  end.

(** ** Properties *)

(** C12: the whole life of a production Server, for any replies of the operating
    system, the store, the tasks and the application's signal.  A configuration
    that is refused costs nothing: nothing is bound and the store is not asked.
    Otherwise the socket is bound before the store is asked for the lease, the
    lease is asked for with exactly the record of this configuration and session,
    the transport serves only while that lease is confirmed and authority held,
    the renewal task carries on with the confirmed record and revision, and the
    runtime is shut down only when something ended the service, before the tasks
    are stopped, the lease being released at the revision the renewal task left
    and only if it says so.  [serve] returns an error with no task running, or
    after both tasks are joined; it returns no error only after the application's
    signal, [Fenced] from the wait only when the Server was fenced; and it panics
    only when the limit of Actors is beyond what a semaphore can hold, in which
    case the lease it acquired is still held, or when the time to live of the
    lease, added to the clock as it was when the lease was asked for, is beyond what
    an [Instant] can hold, in which case the lease may be held. *)
Theorem serve_discipline (max_permits : Z) (b : ServerBuilder) (address : string) (signal : bool) :
  match into_starter b address with
  | Err e => serve b address signal = Ret (Returns (Err e))
  | Ok c =>
      wp (serve_monitor max_permits (core b) c signal) serve_ghost0 (serve b address signal)
        (fun r g => serve_post max_permits (core b) c signal r g /\
                    (r = Panics ->
                     (max_permits < Z.of_nat (builder_max_active_actors (core b)))%Z \/
                     too_far (config_node_lease_ttl c) (g_lease g)))
  end.
Proof.
  unfold serve. destruct (into_starter b address) as [c | e] eqn:Hc; [| done].
  apply wp_bind. eapply wp_mono; [| apply start_wp]. intros [[s | e] | |] g Hpost; cbn in Hpost; [| | | done].
  - destruct Hpost as (Hp & Hh & Hb & Hfit & Hs).
    apply wp_bind. eapply wp_mono; [| by apply wait_wp]. intros [waited | |] g1 (Hp1 & Ho & Hw); [| done | done].
    apply wp_bind. eapply wp_mono; [| by apply server_shutdown_wp]. intros shut g2 ->. cbn.
    split; [| done]. right. by exists waited, shut.
  - cbn. split; [| done]. left. by exists e.
  - cbn. split; [done |]. intros _. destruct Hpost as [(_ & [[_ Hlim] | (_ & Ht)]) | (_ & _ & _ & Hfar)]; [by left | | by right].
    apply into_starter_production in Hc as (? & ? & ? & ? & ? & ->). by destruct Ht.
Qed.

(** C38: in an environment where nothing fails, every Server with a valid
    configuration serves: [serve] gets its lease, runs its two tasks, and when the
    application's signal completes shuts the runtime down, stops the renewal task,
    frees the lease at the revision that task left, stops the transport and
    returns what the shutdown of the runtime returned.  There are two exceptions,
    since the builder accepts every limit of Actors and every time to live but zero:
    a limit beyond what a semaphore holds, and a time to live that takes the clock
    beyond what an [Instant] holds, make [serve] panic after it got the lease, which
    stays held with no task renewing it. *)
Theorem serve_completes (max_permits : Z) (b : ServerBuilder) (address : string) (c : ServerRuntimeConfig)
    (env : good_env) :
  into_starter b address = Ok c -> (0 <= node_lease_ttl b)%Z -> builder_valid (core b) ->
  release (last_exit env) = true ->
  let node := starting_node (core b) c (new_session env) (wall_time_millis (Some (since_epoch env))) in
  run (good_serve max_permits env) (serve b address true) (None, []) =
  match authority_new (now env) (config_node_lease_ttl c) with
  | None => (Panics, (None, [LeaseAsked node]))
  | Some authority =>
      if bool_decide (Z.of_nat (builder_max_active_actors (core b)) <= max_permits)%Z then
        (Returns (graceful env),
         (Some authority,
          [LeaseAsked node; TransportUp; RenewalUp node (granted env); RuntimeDown; RenewalDown;
           LeaseFreed (exit_node_id (last_exit env)) (exit_revision (last_exit env)); TransportDown]))
      else (Panics, (Some authority, [LeaseAsked node]))
  end.
Proof.
  intros Hc Httl Hv%validate_ok Hrel. cbn zeta.
  assert (Hpos : (now env <? now env + config_node_lease_ttl c)%Z = true).
  { apply into_starter_ttl in Hc as [-> Hne]. apply Z.ltb_lt. lia. }
  unfold serve. rewrite Hc. apply into_starter_production in Hc as (id & bind & ep & ttl & timeout & ->).
  unfold start. rewrite Hv. unfold run_node, build_with_authority. rewrite Hv.
  cbn in Hpos |- *. unfold authority_new. destruct (instant_add_spec (now env) ttl) as [[_ ->] | [_ ->]]; [| done].
  cbn. rewrite Hpos. cbn. case_bool_decide; cbn; [| done]. by rewrite Hrel.
Qed.

(** [Duration::MAX] *)
Definition DURATION_MAX : Z := (U64_MAX + 1) * 1000000000 - 1.

Definition serve_builder (ttl : Z) : ServerBuilder :=
  set_node_lease_ttl ttl (actor (actor_config "room") (set_advertised_endpoint "localhost:9000" server_builder)).

Lemma serve_completes_witness :
  exists c c' env, into_starter (serve_builder 10000000000) ":9000" = Ok c /\ into_starter (serve_builder DURATION_MAX) ":9000" = Ok c' /\
    release (last_exit env) = true /\
    fst (run (good_serve 100 env) (serve (serve_builder 10000000000) ":9000" true) (None, [])) = Panics /\
    fst (run (good_serve 20000 env) (serve (serve_builder 10000000000) ":9000" true) (None, [])) = Returns (graceful env) /\
    fst (run (good_serve 20000 env) (serve (serve_builder DURATION_MAX) ":9000" true) (None, [])) = Panics.
Proof.
  set (env := MkGoodEnv 5 "s" 0 "r" (MkExit "n" "r" true) (Ok ())).
  assert (Hb : exists c, into_starter (serve_builder 10000000000) ":9000" = Ok c) by (eexists; vm_compute; reflexivity).
  assert (Hb' : exists c, into_starter (serve_builder DURATION_MAX) ":9000" = Ok c) by (eexists; vm_compute; reflexivity).
  destruct Hb as [c Hb], Hb' as [c' Hb'].
  assert (Hv : forall ttl, builder_valid (core (serve_builder ttl))) by (intros; apply validate_ok; vm_compute; reflexivity).
  exists c, c', env. split_and!; [exact Hb | exact Hb' | reflexivity | | |].
  - rewrite (serve_completes 100 _ ":9000" c env Hb ltac:(vm_compute; discriminate) (Hv _) eq_refl).
    apply into_starter_ttl in Hb as [-> _]. reflexivity.
  - rewrite (serve_completes 20000 _ ":9000" c env Hb ltac:(vm_compute; discriminate) (Hv _) eq_refl).
    apply into_starter_ttl in Hb as [-> _]. reflexivity.
  - rewrite (serve_completes 20000 _ ":9000" c' env Hb' ltac:(vm_compute; discriminate) (Hv _) eq_refl).
    apply into_starter_ttl in Hb' as [-> _]. reflexivity.
Defined.
