(* ===== verification/Builder.v ===== *)
(** * The App State in the builders

    Models the phases of [ServerBuilder] ([coactor/src/runtime.rs]) and
    [TestServerBuilder] ([coactor/src/test_support.rs]): a builder has a phase
    in its type, [MissingState] or [ReadyState], and [serve] and [start] exist
    where the App State is known.  The builder holds it as an [Option] that it
    unwraps: no builder an application can make unwraps [None]. *)

From S2P Require Import Prelude Text Address Coordination Config.
From S2P Require Runtime Start.

Inductive phase := MissingState | ReadyState.

Section builder.
Context {S : Type}.

(** [ServerBuilder<C, S, P>]; [core.state] is [state]. *)
Record builder (P : phase) := MkBuilder {
  config : ServerBuilder;
  state : option S;
  shutdown_signal : bool            (* the application gave a signal *)
}.
#[global] Arguments MkBuilder {P}.
#[global] Arguments config {P}.
#[global] Arguments state {P}.
#[global] Arguments shutdown_signal {P}.

(** [Server::builder] *)
Definition server_builder_missing : builder MissingState := MkBuilder server_builder None false.

Definition map_config {P} (f : ServerBuilder -> ServerBuilder) (b : builder P) : builder P :=
  MkBuilder (f (config b)) (state b) (shutdown_signal b).

Definition with_shutdown_signal {P} (b : builder P) : builder P := MkBuilder (config b) (state b) true.

(** [ServerBuilderCore::with_state], [ready], [with_state] *)
Definition core_with_state {P} (b : builder P) (s : S) : builder P := MkBuilder (config b) (Some s) (shutdown_signal b).
Definition ready {P} (b : builder P) (s : S) : builder ReadyState :=
  let b := core_with_state b s in MkBuilder (config b) (state b) (shutdown_signal b).
Definition with_state (b : builder MissingState) (s : S) : builder ReadyState := ready b s.

(** The methods of every phase. *)
Inductive setter : (ServerBuilder -> ServerBuilder) -> Prop :=
| setter_actor e : setter (actor e)
| setter_mailbox n : setter (set_default_mailbox_capacity n)
| setter_maximum n : setter (set_max_active_actors n)
| setter_idle t : setter (set_default_idle_timeout t)
| setter_deactivation t : setter (set_deactivation_timeout t)
| setter_shutdown t : setter (set_shutdown_timeout t)
| setter_endpoint e : setter (set_advertised_endpoint e)
| setter_node_id i : setter (set_node_id i)
| setter_ttl t : setter (set_node_lease_ttl t)
| setter_timeout t : setter (set_coordination_timeout t).

(** The builders an application can make. *)
Inductive built : forall P, builder P -> Prop :=
| built_new : built MissingState server_builder_missing
| built_set P b f : built P b -> setter f -> built P (map_config f b)
| built_signal P b : built P b -> built P (with_shutdown_signal b)
| built_state b s : built MissingState b -> built ReadyState (with_state b s).

(** [into_starter(state)]: the state the core goes on with. *)
Definition starter_state {P} (b : builder P) (supplied : option S) : option S :=
  state (match supplied with Some s => core_with_state b s | None => b end).

(** [build_with_authority] unwraps the state once the configuration is valid. *)
Definition build_with_state (core : ServerBuilderCore) (state : option S) (clustered : bool)
    : Start.outcome (result ServerError (S * Runtime.ServerConfig)) :=
  match build_with_authority core clustered with
  | Err e => Start.Returns (Err e)
  | Ok c => match state with
            | Some s => Start.Returns (Ok (s, c))
            | None => Start.Panics
            end
  end.

(** [serve] of a builder that is ready, up to the Server it builds. *)
Definition serve_ready (b : builder ReadyState) (clustered : bool) :=
  build_with_state (core (config b)) (starter_state b None) clustered.

Lemma built_ready P b : built P b -> P = ReadyState -> is_Some (state b).
Proof. induction 1; intros HP; [done | by apply IHbuilt | by apply IHbuilt | by eexists]. Qed.

(** The state a ready builder serves with is the one it was given. *)
Theorem ready_never_panics (b : builder ReadyState) (clustered : bool) :
  built ReadyState b ->
  match serve_ready b clustered with
  | Start.Returns (Ok (s, c)) => state b = Some s /\ builder_valid (core (config b))
  | Start.Returns (Err e) => ~ builder_valid (core (config b)) /\ explains (core (config b)) e
  | Start.Panics | Start.Runs => False
  end.
Proof.
  intros [s Hs]%built_ready; [| done]. unfold serve_ready, build_with_state, starter_state. rewrite Hs.
  unfold build_with_authority. destruct (validate (core (config b))) as [[] | e] eqn:Hv; cbn.
  - split; [done | by apply validate_ok].
  - split; [intros Hb%validate_ok; congruence | by apply validate_err].
Qed.
End builder.

(** [serve] without an App State supplies the unit. *)
Definition serve_missing (b : builder (S := unit) MissingState) (clustered : bool) :=
  build_with_state (core (config b)) (starter_state b (Some ())) clustered.

Lemma missing_never_panics (b : builder (S := unit) MissingState) clustered : serve_missing b clustered <> Start.Panics.
Proof. unfold serve_missing, build_with_state, starter_state. cbn. by destruct (build_with_authority _ _). Qed.
