(* ===== verification/Harness.v ===== *)
(** * The test harness

    Models [TestServerBuilder] and [TestServer] of
    [coactor/src/test_support.rs] with its [SingleNodeDirectory], [Client::with_transport]
    and the setters of [ClientBuilder] ([coactor/src/client/mod.rs]): a Server
    without a router behind the in-memory transport, and a Client whose
    Coordination Store is one node record.  The Client of [ClientStep] runs
    against the replies of that directory. *)

From S2P Require Import Prelude Text Address Coordination Placement Transport Session Client ClientStep ClientRace ClientTrace ClientEvents Strategy.
From stdpp Require Import pretty.
From S2P Require Runtime RuntimeWorld RuntimeTrace Inmem Accept Config Start Builder.

(** ** A directory of one node *)

(** The traits [NodeDirectory] and [ActorOwnerReader], of a store that answers from itself. *)
Class NodeDirectory (T : Type) := {
  read_node : T -> string -> result CoordinationError (option NodeRecord);
  list_nodes : T -> result CoordinationError (list NodeRecord)
}.

Class ActorOwnerReader (T : Type) := {
  read_actor_owner : T -> ActorAddress -> result CoordinationError (option VersionedActorOwnerRecord)
}.

Record SingleNodeDirectory := MkSingleNode { single_node : NodeRecord }.

#[export] Instance single_node_directory : NodeDirectory SingleNodeDirectory := {
  read_node d id := Ok (if bool_decide (node_id (single_node d) = id) then Some (single_node d) else None);
  list_nodes d := Ok [single_node d]
}.

#[export] Instance single_node_reader : ActorOwnerReader SingleNodeDirectory := {
  read_actor_owner d a := Ok None
}.

(** ** The builders *)

(** The setters of [ClientBuilder]; a connect timeout comes with a gRPC transport of its own. *)
Definition set_open_timeout (timeout : Z) (c : ClientConfig) : ClientConfig :=
  MkClientConfig timeout (transport_connect_timeout c) (max_open_attempts c) (max_connections_per_endpoint c).
Definition set_transport_connect_timeout (timeout : Z) (c : ClientConfig) : ClientConfig :=
  MkClientConfig (open_timeout c) timeout (max_open_attempts c) (max_connections_per_endpoint c).
Definition set_max_open_attempts (attempts : nat) (c : ClientConfig) : ClientConfig :=
  MkClientConfig (open_timeout c) (transport_connect_timeout c) attempts (max_connections_per_endpoint c).
Definition set_max_connections_per_endpoint (maximum : nat) (c : ClientConfig) : ClientConfig :=
  MkClientConfig (open_timeout c) (transport_connect_timeout c) (max_open_attempts c) maximum.

(** [Client::with_transport]: the defaults, which are not validated. *)
Definition with_transport : ClientConfig := client_builder.

(** [TestServer::builder] and the methods of [TestServerBuilder] *)
Definition test_builder : Config.ServerBuilderCore := Config.builder_base.
Definition test_actor (config : Config.RegistrationEntry) (b : Config.ServerBuilderCore) : Config.ServerBuilderCore :=
  Config.add_actor b config.
Definition test_default_mailbox_capacity (capacity : nat) (b : Config.ServerBuilderCore) : Config.ServerBuilderCore :=
  Config.set_core capacity (Config.builder_max_active_actors b) (Config.default_idle_timeout b)
    (Config.deactivation_timeout b) (Config.shutdown_timeout b) b.
Definition test_max_active_actors (maximum : nat) (b : Config.ServerBuilderCore) : Config.ServerBuilderCore :=
  Config.set_core (Config.default_mailbox_capacity b) maximum (Config.default_idle_timeout b)
    (Config.deactivation_timeout b) (Config.shutdown_timeout b) b.
Definition test_default_idle_timeout (timeout : Z) (b : Config.ServerBuilderCore) : Config.ServerBuilderCore :=
  Config.set_core (Config.default_mailbox_capacity b) (Config.builder_max_active_actors b) timeout
    (Config.deactivation_timeout b) (Config.shutdown_timeout b) b.
Definition test_deactivation_timeout (timeout : Z) (b : Config.ServerBuilderCore) : Config.ServerBuilderCore :=
  Config.set_core (Config.default_mailbox_capacity b) (Config.builder_max_active_actors b)
    (Config.default_idle_timeout b) timeout (Config.shutdown_timeout b) b.
Definition test_shutdown_timeout (timeout : Z) (b : Config.ServerBuilderCore) : Config.ServerBuilderCore :=
  Config.set_core (Config.default_mailbox_capacity b) (Config.builder_max_active_actors b)
    (Config.default_idle_timeout b) (Config.deactivation_timeout b) timeout b.

(** ** Start *)
Record TestServer := MkTestServer {
  test_server : Runtime.ServerConfig;
  test_client : ClientConfig;
  test_directory : SingleNodeDirectory;
  test_registry : Inmem.InmemRegistry;     (* shared by both sides *)
  test_listener : nat                      (* the accept task accepts from it *)
}.

Definition test_endpoint (n : N) : string := "inmem://test-" +:+ pretty n.

Definition test_node (session : NodeSessionId) (key : string) (now : Z) : NodeRecord :=
  MkNodeRecord "test" session key TRANSPORT_PROTOCOL_VERSION 0 now 0 U64_MAX false false.

(** [start_with_state]; [next] is [NEXT_TEST_ENDPOINT]; [None]: it panics. *)
Definition start_with_state (b : Config.ServerBuilderCore) (next : N) (session : NodeSessionId) (since_epoch : option Z)
    : option (result Config.ServerError TestServer) * N :=
  match Config.validate b with
  | Err e => (Some (Err e), next)
  | Ok _ =>
      let key := test_endpoint next in
      let next := ((next + 1) mod 2 ^ 64)%N in
      (match Config.build_with_authority b false with
       | Err e => Some (Err e)
       | Ok server =>
           match Inmem.inmem_listen Inmem.inmem_initial key with
           | (Err _, _) => None
           | (Ok listener, registry) =>
               Some (Ok (MkTestServer server with_transport
                 (MkSingleNode (test_node session key (Start.wall_time_millis since_epoch))) registry listener))
           end
       end, next)
  end.

(** [TestServerBuilder<S, P>], with the phases of [Builder]. *)
Record TestServerBuilder (S : Type) (P : Builder.phase) := MkTestBuilder {
  core_of : Config.ServerBuilderCore;
  test_state : option S
}.
#[global] Arguments MkTestBuilder {S P}.
#[global] Arguments core_of {S P}.
#[global] Arguments test_state {S P}.

(** [with_state] *)
Definition test_with_state {S} (s : S) (b : TestServerBuilder S Builder.MissingState) : TestServerBuilder S Builder.ReadyState :=
  MkTestBuilder (core_of b) (Some s).

(** [start] of a builder without an App State, and of one that has it ([expect]). *)
Definition start_missing (b : TestServerBuilder unit Builder.MissingState) (next : N) (session : NodeSessionId)
    (since_epoch : option Z) : option (result Config.ServerError TestServer) * N :=
  start_with_state (core_of b) next session since_epoch.
Definition start_ready {S} (b : TestServerBuilder S Builder.ReadyState) (next : N) (session : NodeSessionId)
    (since_epoch : option Z) : option (result Config.ServerError TestServer) * N :=
  match test_state b with
  | Some _ => start_with_state (core_of b) next session since_epoch
  | None => (None, next)
  end.

(** [start_cluster_inmem]: a clustered Server behind the in-memory transport;
    [next] is [NEXT_CLUSTER_ENDPOINT]. *)
Definition cluster_endpoint (node_id : string) (next : N) : string := "node-" +:+ node_id +:+ "-" +:+ pretty next.
Definition start_cluster_inmem (b : Config.ServerBuilderCore) (node_id : string) (next : N)
    : proc Start.serveE (Start.outcome Start.Server) * N :=
  (bind! started := Start.start b (Config.inmem node_id (cluster_endpoint node_id next));
   Ret (match started with
        | Start.Returns (Ok server) => Start.Returns server
        | Start.Returns (Err _) => Start.Panics
        | Start.Panics => Start.Panics
        | Start.Runs => Start.Runs
        end),
   ((next + 1) mod 2 ^ 64)%N).

(** A connection task of the harness: as the connection tasks of the accept task
    ([Accept.conn_step]), but it does not close the Sessions of its sender when
    the stream ends. *)
Inductive test_conn_step (config : Runtime.ServerConfig)
    : RuntimeWorld.world -> Accept.connection -> RuntimeTrace.trace -> RuntimeWorld.world -> Accept.connection -> Prop :=
| test_conn_recv s ths c e :
    Accept.c_phase c = Accept.Receiving ->
    test_conn_step config (RuntimeWorld.MkWorld s ths) c
      [(length ths, RuntimeTrace.Entered e (Some (Accept.c_sender c)))]
      (RuntimeWorld.MkWorld s
         (ths ++ [RuntimeWorld.ThOther (Runtime.dispatch_inbound config e (Some (Accept.c_sender c)))]))
      (Accept.MkConnection (Accept.c_sender c) (Accept.Dispatching (length ths))
         (Accept.c_received c ++ [e]) (Accept.c_aborted c))
| test_conn_dispatched w c j u :
    Accept.c_phase c = Accept.Dispatching j ->
    RuntimeWorld.threads w !! j = Some (RuntimeWorld.ThOther (Ret u)) ->
    test_conn_step config w c [] w (Accept.with_phase c Accept.Receiving)
| test_conn_end w c :
    Accept.c_phase c = Accept.Receiving ->
    test_conn_step config w c [] w (Accept.with_phase c Accept.Done).

(** [TestServer::shutdown]; dropping an aborted accept task drops its listener. *)
Inductive harnessE : Type -> Type :=
| AbortAccept : harnessE unit
| OnServer {X} (e : Runtime.runtimeE X) : harnessE X
| OnClient {X} (e : clientE X) : harnessE X.

Definition test_shutdown : proc harnessE unit :=
  exec! AbortAccept;
  bind! _ := lift (@OnServer) Runtime.shutdown;
  lift (@OnClient) client_shutdown.

(** ** The Client against a directory *)
Section coordinated.
Context {T : Type} `{NodeDirectory T} `{ActorOwnerReader T} (config : ClientConfig) (d : T).

(** The reply the directory gives, or the deadline of the call. *)
Definition answers X (e : clientE X) (h : client_hint) : Prop :=
  match e with
  | ReadActorOwner _ a => h = CElapsed \/ h = COwner (read_actor_owner d a)
  | ReadNode _ id => h = CElapsed \/ h = CNode (read_node d id)
  | ListNodes _ => h = CElapsed \/ h = CNodes (list_nodes d)
  | _ => True
  end.

Definition coordinated (w : client_world) (x : client_action) : Prop :=
  match x with
  | CStep j h =>
      match client_proc <$> client_threads w !! j with
      | Some (Call e _) => answers _ e h
      | _ => True
      end
  | _ => True
  end.

Inductive coordinated_world : client_world -> Prop :=
| coordinated_initial : coordinated_world client_initial_world
| coordinated_act w x w' :
    coordinated_world w -> coordinated w x -> client_act config w x = Some w' -> coordinated_world w'.

(** As a function, for a script. *)
Fixpoint coordinated_script (w : client_world) (l : list client_action) : Prop :=
  match l with
  | [] => True
  | x :: l => coordinated w x /\ match client_act config w x with Some w => coordinated_script w l | None => True end
  end.

Lemma coordinated_run w l w' :
  coordinated_world w -> coordinated_script w l -> client_run config w l = Some w' -> coordinated_world w'.
Proof.
  revert w. induction l as [| x l IH]; cbn; intros w Hw; [by intros _ [= <-] |].
  intros [Hx Hl]. destruct (client_act config w x) as [w1 |] eqn:Ha; [| done]. apply IH; [by eapply coordinated_act | done].
Qed.
End coordinated.

(** ** The Client of the harness *)
Section home.
Context (n : NodeRecord).
Abbreviation home := (advertised_endpoint n).

Definition at_home (cs : list PlacementCandidate) : Prop := Forall (fun c => endpoint c = home) cs.

Definition home_allowed X (st : unit) (e : clientE X) : Prop :=
  match e with
  | GetPool e | NewConnection e _ | Connect _ e => e = home
  | CacheSet cs _ => at_home cs
  | _ => True
  end.

Definition home_observe X (st : unit) (e : clientE X) : X -> unit -> Prop :=
  match e in clientE X return X -> unit -> Prop with
  | CacheGet => fun r _ => forall cs t, r = Some (cs, t) -> at_home cs
  | ReadActorOwner _ _ => fun r _ => r = Elapsed \/ r = Ready (Ok None)
  | ListNodes _ => fun r _ => r = Elapsed \/ r = Ready (Ok [n])
  | _ => fun _ _ => True
  end.

Definition home_monitor : monitor clientE unit := Monitor clientE unit home_allowed home_observe.

Definition homely X (e : clientE X) : Prop :=
  match e with
  | GetPool _ | NewConnection _ _ | Connect _ _ | CacheSet _ _ => False
  | _ => True
  end.

Lemma homely_wp {A} (p : proc clientE A) : calls homely p -> wp home_monitor () p (fun _ _ => True).
Proof.
  intros Hp. eapply wp_mono; [| eapply calls_wp; [| exact Hp]]; [done |].
  intros X e He. split; [by destruct e | by intros x []].
Qed.

Lemma homely_bind {A B} (p : proc clientE A) (f : A -> proc clientE B) Q :
  calls homely p -> (forall x, wp home_monitor () (f x) Q) -> wp home_monitor () (proc_bind p f) Q.
Proof. intros Hp Hf. apply wp_bind. eapply wp_mono; [| by apply homely_wp]. intros x [] _. apply Hf. Qed.

Ltac homely_calls :=
  repeat first [ done
               | split; [done | intros ?]
               | progress cbn [calls homely proc_bind]
               | case_match
               | apply calls_bind; [| intros ?] ].

Ltac home_call := split; [try done | intros ? [] ?].

Lemma acquire_home config sid deadline : wp home_monitor () (acquire_connection config home sid deadline) (fun _ _ => True).
Proof.
  unfold acquire_connection. do 2 home_call. destruct x0; [done |]. home_call. destruct (_ <? _)%nat.
  - home_call. destruct x1 as [| [sender | e]]; [by home_call | | by home_call]. do 2 home_call.
    apply homely_bind; [unfold bind; homely_calls |]. intros _.
    apply homely_bind; [unfold spawn_receive_loop; homely_calls |]. intros _. by home_call.
  - home_call. destruct x1; [| by home_call]. apply homely_bind; [unfold bind; homely_calls |]. intros _. by home_call.
Qed.

Lemma open_at_home config a sid ch deadline b lo l :
  wp home_monitor () (open_at config a sid ch deadline home b lo l) (fun _ _ => True).
Proof.
  unfold open_at. apply wp_bind. eapply wp_mono; [| apply acquire_home]. intros [c | error] [] _; apply homely_wp.
  - unfold unbind, report_failed, send_session_open, connection_try_send. homely_calls.
  - homely_calls.
Qed.

Lemma select_home a excluded deadline :
  wp home_monitor () (select_placement_candidate a excluded deadline) (fun r _ => forall e, r = Ok e -> e = home).
Proof.
  unfold select_placement_candidate. apply wp_bind.
  eapply (wp_mono _ _ _ (fun r _ => forall cs, r = Ok cs -> at_home cs)).
  - intros [all | error] [] Hall; [| done]. specialize (Hall all eq_refl).
    destruct (filter _ all) as [| c cs] eqn:Hf; [done |]. home_call. intros e.
    destruct (list_find _ x) as [[i e'] |] eqn:Hfind; [| done]. intros [= ->].
    apply list_find_Some in Hfind as (_ & He & _).
    change (e ∈ list_to_set (C := gset string) (endpoint <$> c :: cs)) in He. rewrite <- Hf in He.
    apply elem_of_list_to_set, list_elem_of_fmap in He as (c' & -> & [_ Hc]%list_elem_of_filter).
    by eapply (proj1 (Forall_forall _ _)) in Hall.
  - unfold placement_candidates. do 2 home_call. cbn in H0.
    destruct (match x0 with Some _ => _ | None => _ end) as [cs |] eqn:Hc.
    + intros cs' [= <-]. destruct x0 as [[cs0 t] |]; [| done]. destruct (_ <? _)%Z; [| done]. injection Hc as ->. by eapply H0.
    + home_call. destruct H1 as [-> | ->]; cbn [timeout_at]; [done |].
      assert (Hh : at_home (eligible_candidates [n])).
      { unfold eligible_candidates. rewrite filter_cons. case_decide; repeat constructor. }
      home_call. by intros cs [= <-].
Qed.

Lemma open_home config fuel a : wp home_monitor () (done_after COpened (open config fuel a)) (fun _ _ => True).
Proof.
  apply wp_bind. eapply (wp_mono _ _ _ (fun _ _ => True)); [by intros ? [] |].
  unfold open. home_call. destruct (negb _); [done |]. do 4 home_call. apply wp_bind.
  assert (Hloop : forall l, wp home_monitor () (open_loop config fuel a x1 x2 (x0 + open_timeout config) l) (fun _ _ => True)).
  { induction fuel as [| m IH]; intros l; [done |]. cbn [open_loop]. apply wp_bind.
    eapply (wp_mono _ _ _ (fun _ _ => True)); [intros [r | l'] [] _; [done | apply IH] |].
    unfold open_iteration, resolve_owner. home_call. destruct H4 as [-> | ->]; cbn [timeout_at proc_bind]; [done |].
    apply wp_bind. eapply wp_mono; [| apply select_home]. intros [e | error] [] He; [| done].
    rewrite (He e eq_refl). apply open_at_home. }
  eapply wp_mono; [| apply Hloop]. intros [[s | e] |] [] _; [done | by do 2 home_call | done].
Qed.

Lemma quiet_home {A} (p : proc clientE A) (f : A -> client_result) :
  calls homely p -> wp home_monitor () (done_after f p) (fun _ _ => True).
Proof. intros Hp. by apply homely_bind. Qed.

Lemma session_send_home alive s msg : wp home_monitor () (done_after CReplied (session_send alive s msg)) (fun _ _ => True).
Proof. apply quiet_home. unfold session_send, connection_try_send. homely_calls. Qed.
Lemma session_drop_home s : wp home_monitor () (done_after (fun _ => CDone) (session_drop s)) (fun _ _ => True).
Proof. apply quiet_home. unfold session_drop, unbind, connection_try_send. homely_calls. Qed.

Lemma for_each_homely {A} (f : A -> proc clientE unit) l : (forall x, calls homely (f x)) -> calls homely (for_each f l).
Proof. intros Hf. induction l as [| x l IH]; [done |]. cbn [for_each]. by apply calls_bind. Qed.

Lemma shutdown_home : wp home_monitor () (done_after (fun _ => CDone) client_shutdown) (fun _ _ => True).
Proof.
  apply quiet_home. unfold client_shutdown. homely_calls; apply for_each_homely; homely_calls.
  apply for_each_homely. intros c. unfold connection_close. homely_calls.
Qed.

Lemma receive_loop_home fuel c e : wp home_monitor () (done_after (fun _ => CDone) (receive_loop fuel c e)) (fun _ _ => True).
Proof.
  apply quiet_home. induction fuel as [| fuel IH]; [done |]. cbn [receive_loop]. split; [done |]. intros [e0 |].
  - apply calls_bind; [| intros _; apply IH]. unfold handle_envelope, deliver. homely_calls.
  - unfold retire_connection. homely_calls; apply for_each_homely; intros sid; unfold end_session; homely_calls.
Qed.

(** What a step does to the pools and the cache. *)
Lemma client_step_home X s (e : clientE X) h x s' :
  client_step X s e h = Some (x, s') -> home_allowed X () e ->
  (forall e' p, pools s' !! e' = Some p -> is_Some (pools s !! e') \/ e' = home) /\
  (placement_cache s' = placement_cache s \/ exists cs t, placement_cache s' = Some (cs, t) /\ at_home cs).
Proof.
  intros Hst Hal.
  assert (Hsame : pools s' = pools s -> placement_cache s' = placement_cache s ->
    (forall e' p, pools s' !! e' = Some p -> is_Some (pools s !! e') \/ e' = home) /\
    (placement_cache s' = placement_cache s \/ exists cs t, placement_cache s' = Some (cs, t) /\ at_home cs)).
  { intros -> ->. split; [by left; eexists | by left]. }
  destruct e; cbn in Hst, Hal;
    repeat match type of Hst with
           | (?o ≫= _) = _ => destruct o; cbn in Hst; [| done]
           | match ?h with _ => _ end = _ => destruct h; try done
           | (if ?b then _ else _) = _ => destruct b; try done
           end;
    try (injection Hst as <- <-); try (by apply Hsame).
  - destruct (receivers s !! sid); by apply Hsame.
  - split; [by left; eexists | right; eauto].
  - injection Hst as Hst. unfold pool in Hst. destruct (pools s !! endpoint) as [p0 |] eqn:Hp; injection Hst as <- <-; [by apply Hsame |].
    split; [| by left]. cbn. intros e' p [[<- <-] | [_ Hp']]%lookup_insert_Some; [by right | by left; eexists].
  - split; [| by left]. cbn. intros e' p Hp. by rewrite lookup_empty in Hp.
  - injection Hst as Hst. unfold take_pending in Hst. repeat case_match; injection Hst as <- <-; by apply Hsame.
Qed.

Record home_inv (w : client_world) : Prop := {
  hi_thread j th : client_threads w !! j = Some th -> wp home_monitor () (client_proc th) (fun _ _ => True);
  hi_endpoints : Forall (fun e => e = home) (conn_endpoints (client w));
  hi_pools e p : pools (client w) !! e = Some p -> e = home;
  hi_cache cs t : placement_cache (client w) = Some (cs, t) -> at_home cs
}.

Lemma start_home w th :
  home_inv w -> wp home_monitor () (client_proc th) (fun _ _ => True) ->
  home_inv (MkClientWorld (client w) (client_threads w ++ [th])).
Proof.
  intros [H1 H2 H3 H4] Hth. split; cbn; try done.
  intros j th' [Hj | [_ Hj]]%lookup_app_Some; [by eapply H1 |]. by apply list_lookup_singleton_Some in Hj as [_ <-].
Qed.

Lemma step_home s ths j th X (e : clientE X) k h x s' :
  home_inv (MkClientWorld s ths) -> ths !! j = Some th -> client_proc th = Call e k ->
  answers (MkSingleNode n) X e h -> client_step X s e h = Some (x, s') ->
  home_inv (MkClientWorld s' (<[j := client_continue th (k x)]> ths)).
Proof.
  intros [H1 H2 H3 H4] Hj Hp Han Hst. pose proof (H1 j th Hj) as Hwp. rewrite Hp in Hwp. destruct Hwp as [Hal Hk].
  assert (Ho : home_observe X () e x ()).
  { destruct e; try done; cbn in Han, Hst |- *.
    - destruct Han as [-> | ->]; injection Hst as <- _; [by left | by right].
    - destruct Han as [-> | ->]; injection Hst as <- _; [by left | by right].
    - injection Hst as <- _. exact H4. }
  destruct (client_step_home _ _ _ _ _ _ Hst Hal) as [Hpools Hcache]. split; cbn [client client_threads].
  - intros j' th' [(-> & <- & _) | [_ Hj']]%list_lookup_insert_Some; [| by eapply H1].
    specialize (Hk x () Ho). by destruct th.
  - rewrite (sf_endpoints _ _ _ _ (client_step_frame _ _ _ _ _ _ Hst)). apply Forall_app. split; [done |].
    destruct e; try constructor; [done | constructor].
  - intros e' p [[p' Hp'] | ?]%Hpools; [by eapply H3 | done].
  - intros cs t Hc. destruct Hcache as [Heq | (cs' & t' & Heq & Hh)]; [apply (H4 cs t); cbn; congruence | congruence].
Qed.

Lemma act_home config w x w' :
  home_inv w -> coordinated (MkSingleNode n) w x -> client_act config w x = Some w' -> home_inv w'.
Proof.
  intros Hinv Hco Hact. destruct x; cbn in Hact.
  - destruct (client_threads w !! j) as [th |] eqn:Hj; [| done].
    destruct (client_proc th) as [| X e k] eqn:Hp; [done |].
    destruct (client_step X (client w) e h) as [[x s'] |] eqn:Hst; [| done]. injection Hact as <-.
    cbn in Hco. rewrite Hj in Hco. cbn in Hco. rewrite Hp in Hco. destruct w as [s ths]. by eapply step_home.
  - injection Hact as <-. apply start_home; [done | apply open_home].
  - destruct (existsb _ _); [| done]. injection Hact as <-. apply start_home; [done | apply session_send_home].
  - destruct (existsb _ _); [| done]. injection Hact as <-. apply start_home; [done | apply session_drop_home].
  - injection Hact as <-. apply start_home; [done | apply shutdown_home].
  - destruct (inbound (client w) !! t) as [task |]; [| done].
    destruct (connections (client w) !! task_connection task) as [conn |]; [| done].
    destruct (existsb _ _); [done |]. injection Hact as <-. apply start_home; [done | apply receive_loop_home].
  - destruct (client_threads w !! j) as [[p | t p] |]; try done.
    destruct (inbound (client w) !! t) as [[c f []] |]; try done. destruct (at_await p); [| done]. injection Hact as <-.
    destruct Hinv as [H1 H2 H3 H4]. split; cbn [client client_threads]; try done.
    intros j' th' [(-> & <- & _) | [_ Hj']]%list_lookup_insert_Some; [done | by eapply H1].
  - destruct (client_threads w !! j) as [th |]; [| done]. cbn in Hact. destruct (returned_session th) as [session |]; [| done].
    cbn in Hact. destruct (session_recv session (client w)) as [[item s'] |] eqn:Hr; [| done]. injection Hact as <-.
    unfold session_recv in Hr. destruct (channels (client w) !! _) as [[] |]; [done | | done]. injection Hr as _ <-.
    by destruct Hinv as [H1 H2 H3 H4].
Qed.

Lemma coordinated_home config w : coordinated_world config (MkSingleNode n) w -> home_inv w.
Proof.
  induction 1 as [| w x w' _ IH Hco Hact]; [| by eapply act_home].
  by split.
Qed.
End home.

(** ** Properties *)

(** [start] never panics, starts exactly the configurations the builder accepts,
    and takes an endpoint only for those. *)
Theorem start_with_state_exact (b : Config.ServerBuilderCore) (next : N) (session : NodeSessionId) (since_epoch : option Z) :
  match start_with_state b next session since_epoch with
  | (Some (Ok server), next') =>
      Config.builder_valid b /\ next' = ((next + 1) mod 2 ^ 64)%N /\
      Config.build_with_authority b false = Ok (test_server server) /\
      advertised_endpoint (single_node (test_directory server)) = test_endpoint next /\
      Inmem.endpoints (test_registry server) !! test_endpoint next = Some (test_listener server)
  | (Some (Err e), next') => ~ Config.builder_valid b /\ Config.explains b e /\ next' = next
  | (None, _) => False
  end.
Proof.
  unfold start_with_state. destruct (Config.validate b) as [[] | e] eqn:Hv.
  - unfold Config.build_with_authority. rewrite Hv. cbn [result_bind]. unfold Inmem.inmem_listen. cbn.
    rewrite lookup_empty. cbn. split_and!; try done; [by apply Config.validate_ok | by rewrite lookup_insert_eq].
  - split; [intros Hb%Config.validate_ok; congruence |]. split; [by apply Config.validate_err | done].
Qed.

(** The Client of a test server connects to that server only: whatever the calls
    of the application and whatever else happens, every connection it makes leads
    to the endpoint at which the harness listens. *)
Theorem test_client_stays_home (b : Config.ServerBuilderCore) (next next' : N) (session : NodeSessionId)
    (since_epoch : option Z) (server : TestServer) (w : client_world) (c : ConnRef) (conn : TransportConnection) :
  start_with_state b next session since_epoch = (Some (Ok server), next') ->
  coordinated_world (test_client server) (test_directory server) w ->
  connections (client w) !! c = Some conn -> conn_endpoint conn = test_endpoint next.
Proof.
  intros Hs Hw Hc. pose proof (start_with_state_exact b next session since_epoch) as Hx. rewrite Hs in Hx.
  destruct Hx as (_ & _ & _ & He & _). destruct (test_directory server) as [n] eqn:Hd. cbn in He. rewrite <- He.
  apply coordinated_home in Hw. apply (proj1 (Forall_forall _ _) (hi_endpoints _ _ Hw)).
  apply list_elem_of_fmap. exists conn. split; [done | by eapply list_elem_of_lookup_2].
Qed.

(** It reaches it: an open is placed there and connects. *)
Definition test_core : Config.ServerBuilderCore := test_actor (Config.actor_config "room") test_builder.

Definition test_open_script (node : NodeRecord) : list client_action :=
  begin_open 0 ++ place 0 0 [node] (advertised_endpoint node) 7.

Definition test_open_connects : option (list string) :=
  match start_with_state test_core 4 "s1" (Some 0%Z) with
  | (Some (Ok server), _) =>
      w ← client_run (test_client server) client_initial_world (test_open_script (single_node (test_directory server)));
      Some (conn_endpoints (client w))
  | _ => None
  end.

Example test_open_connects_home : test_open_connects = Some ["inmem://test-4"].
Proof. vm_compute. reflexivity. Qed.
