(* ===== verification/Counter.v ===== *)
(** * The counter example

    The [main] of [coactor/examples/counter_server.rs] and of
    [coactor/examples/counter_client.rs], over the environment of the process; the
    counter itself is in [Actor].  What the counter answers counts, and the client
    prints what a counter answers. *)

From S2P Require Import Prelude Text Address Transport Session Runtime Actor Chat ChatClient.
From S2P Require Client Config S3Store Start.
From stdpp Require Import pretty.

(** [std::env::var]: a variable that is missing or not Unicode has none. *)
Abbreviation environment := (string -> option string).

(** The errors behind the [Box<dyn Error>]. *)
Inductive counter_error :=
| NoVariable (name : string)
| NoStore (e : S3Store.S3StoreConfigError)
| NotServed (e : Config.ServerError)
| NoClient (e : Client.ClientBuildError)
| NoAddress (e : ActorAddressError)
| NotOpened (e : OpenError)
| SessionError (e : SendError)
| NotUtf8.

Definition var (env : environment) (name : string) : result counter_error string := ok_or (NoVariable name) (env name).

(** ** The Server *)
Definition counter_builder (advertised : string) : Config.ServerBuilder :=
  Config.actor (Config.actor_config "counter")
    (Config.set_node_id "counter-server" (Config.set_advertised_endpoint advertised Config.server_builder)).

(** What [main] reads before it serves: its store, and the addresses. *)
Definition counter_settings (env : environment) : result counter_error (S3Store.S3CoordinationStore * string * string) :=
  try! bucket := var env "COACTOR_S3_BUCKET";
  let prefix := default "" (env "COACTOR_S3_PREFIX") in
  try! bind := var env "COACTOR_BIND";
  try! advertised := var env "COACTOR_ADVERTISED_ENDPOINT";
  try! store := map_err NoStore (S3Store.s3_new bucket prefix);
  Ok (store, bind, advertised).

Definition counter_server_main (env : environment) : proc Start.serveE (Start.outcome (result counter_error unit)) :=
  match counter_settings env with
  | Err e => Ret (Start.Returns (Err e))
  | Ok (_, bind, advertised) =>
      bind! served := Start.serve (counter_builder advertised) bind true;
      Ret match served with
          | Start.Returns r => Start.Returns (map_err NotServed r)
          | Start.Panics => Start.Panics
          | Start.Runs => Start.Runs
          end
  end.

(** ** The client *)

(** The [Client] of [main] is built, the address is valid. *)
Definition counter_prepare (env : environment) : result counter_error ActorAddress :=
  try! bucket := var env "COACTOR_S3_BUCKET";
  let prefix := default "" (env "COACTOR_S3_PREFIX") in
  try! _ := map_err NoStore (S3Store.s3_new bucket prefix);
  try! _ := map_err NoClient (Client.client_build Client.client_builder);
  map_err NoAddress (actor_address_new "counter" "counter-7").

Definition counter_client_main (env : environment) : proc talkE (result counter_error unit) :=
  match counter_prepare env with
  | Err e => Ret (Err e)
  | Ok address =>
      call! opened := OpenSession address;
      match opened with
      | Err e => Ret (Err (NotOpened e))
      | Ok _ =>
          call! sent := SessionSend "increment";
          match sent with
          | Err e => Ret (Err (SessionError e))
          | Ok _ =>
              call! received := SessionRecv;
              match received with
              | Some (Ok event) =>
                  match from_utf8 event with
                  | Some text => exec! PrintOut text; exec! ShutdownClient; Ret (Ok ())
                  | None => Ret (Err NotUtf8)
                  end
              | Some (Err error) => Ret (Err (SessionError error))
              | None => exec! PrintErr "the Session ended before an Event arrived"; exec! ShutdownClient; Ret (Ok ())
              end
          end
      end
  end.

(** ** What the counter answers *)

(** Who hears a counter: the answers in order, none of which it may fail to give. *)
Definition counter_monitor : monitor (handlerE (fun _ => Empty_set)) (list (SessionId * string)) :=
  Monitor (handlerE (fun _ => Empty_set)) (list (SessionId * string))
    (fun _ _ e => match e with Unwind | BroadcastEvent _ _ => False | _ => True end)
    (fun X heard e =>
       match e in handlerE _ X return X -> list (SessionId * string) -> Prop with
       | DeliverEvent _ sid msg => fun _ heard' => heard' = heard ++ [(sid, msg)]
       | UpgradeRuntime => fun alive heard' => alive = true /\ heard' = heard
       | _ => fun _ heard' => heard' = heard
       end).

Section counting.
Context (overflow_checks : bool).
#[local] Existing Instance counter_actor.

Definition count_message (ctx : MessageContext) (payload : string) (self : Counter) :=
  on_message (Actor := counter_actor overflow_checks) ctx payload self.

(** The counter handles one message after another. *)
Fixpoint count_messages (messages : list (MessageContext * string)) (self : Counter)
    : proc (handlerE (fun _ => Empty_set)) Counter :=
  match messages with
  | [] => Ret self
  | (ctx, payload) :: messages => bind! r := count_message ctx payload self; count_messages messages r.1
  end.

(** The answers that count from [v]. *)
Fixpoint counted (v : Z) (messages : list (MessageContext * string)) : list (SessionId * string) :=
  match messages with
  | [] => []
  | (ctx, _) :: messages => (handle_session_id (context_session ctx), pretty (v + 1)%Z) :: counted (v + 1) messages
  end.

Lemma count_message_wp ctx payload v heard :
  (0 <= v < U64_MAX)%Z ->
  wp counter_monitor heard (count_message ctx payload (MkCounter v)) (fun r heard' =>
    r.1 = MkCounter (v + 1) /\ heard' = heard ++ [(handle_session_id (context_session ctx), pretty (v + 1)%Z)]).
Proof.
  intros Hv. unfold count_message. cbn. rewrite (proj2 (Z.eqb_neq _ _)) by lia. rewrite andb_false_r.
  rewrite Z.mod_small by lia. cbn. split; [done |]. by intros r heard' ->.
Qed.

Lemma count_messages_wp messages v heard :
  (0 <= v)%Z -> (v + Z.of_nat (length messages) <= U64_MAX)%Z ->
  wp counter_monitor heard (count_messages messages (MkCounter v)) (fun self heard' =>
    self = MkCounter (v + Z.of_nat (length messages)) /\ heard' = heard ++ counted v messages).
Proof.
  revert v heard. induction messages as [| [ctx payload] messages IH]; intros v heard Hv Hl; cbn [count_messages counted].
  - cbn. by rewrite Z.add_0_r, app_nil_r.
  - cbn [length] in *. apply wp_bind. eapply wp_mono; [| apply count_message_wp; lia]. intros r heard' [-> ->].
    eapply wp_mono; [| apply IH; lia]. intros self heard' [-> ->]. rewrite <- app_assoc. split; [f_equal; lia | done].
Qed.

(** A counter counts: whatever the messages, their Sessions and the replies of the
    transport, it answers the Session of its [n]th message with [n] and nobody
    else, and does not panic before its [u64] is full. *)
Theorem counter_counts messages :
  (Z.of_nat (length messages) <= U64_MAX)%Z ->
  wp counter_monitor [] (count_messages messages (MkCounter 0)) (fun self heard =>
    value self = Z.of_nat (length messages) /\ heard = counted 0 messages).
Proof.
  intros Hl. eapply wp_mono; [| apply count_messages_wp; lia]. by intros self heard [-> ->].
Qed.
End counting.

(** When it is full, the next message panics if the program checks overflow, and
    otherwise starts again at 0. *)
Lemma full_counter ctx payload heard :
  ~ wp counter_monitor heard (count_message true ctx payload (MkCounter U64_MAX)) (fun _ _ => True) /\
  wp counter_monitor heard (count_message false ctx payload (MkCounter U64_MAX)) (fun r heard' =>
    r.1 = MkCounter 0 /\ heard' = heard ++ [(handle_session_id (context_session ctx), "0")]).
Proof.
  split; [by intros [[] _] |]. unfold count_message. cbn. split; [done |]. by intros r heard' ->.
Qed.

(** ** What the client prints *)
Section prints.
Context (n : N).

(** A Session to a counter whose answers, while they come, are [n]. *)
Definition counter_talk : monitor talkE (list string) :=
  Monitor talkE (list string)
    (fun _ _ e => match e with
                  | OpenSession a => a = MkActorAddress "counter" "counter-7"
                  | SessionSend msg => msg = "increment"
                  | _ => True
                  end)
    (fun X printed e =>
       match e in talkE X return X -> list string -> Prop with
       | PrintOut line => fun _ printed' => printed' = printed ++ [line]
       | SessionRecv => fun r printed' => printed' = printed /\ forall event, r = Some (Ok event) -> event = pretty n
       | _ => fun _ printed' => printed' = printed
       end).

Lemma pretty_go_ascii m s :
  Forall (fun b => (b < 128)%N) (byte_code <$> as_bytes s) ->
  Forall (fun b => (b < 128)%N) (byte_code <$> as_bytes (pretty_N_go m s)).
Proof.
  revert s. induction m as [m IH] using (well_founded_induction N.lt_wf_0). intros s Hs.
  destruct (decide (0 < m)%N) as [Hm | Hm].
  - rewrite pretty_N_go_step by done. apply IH; [apply N.div_lt; lia |]. constructor; [| done].
    assert (Hlt : (m `mod` 10 < 10)%N) by (by apply N.mod_lt).
    assert (Hd : Forall (fun d => (byte_code (pretty_N_char d) < 128)%N) (N.of_nat <$> seq 0 10)) by (vm_compute; repeat constructor).
    rewrite Forall_forall in Hd. apply Hd, list_elem_of_fmap. exists (N.to_nat (m `mod` 10)).
    rewrite N2Nat.id. split; [done |]. apply elem_of_seq. clear - Hlt. generalize dependent (m `mod` 10)%N. lia.
  - replace m with 0%N by lia. by rewrite pretty_N_go_0.
Qed.

Lemma from_utf8_pretty : from_utf8 (pretty n) = Some (pretty n).
Proof.
  unfold from_utf8. rewrite utf8_valid_ascii; [done |]. unfold pretty, pretty_N.
  case_decide; [repeat constructor |]. by apply pretty_go_ascii.
Qed.

(** The client asks its counter once and prints nothing but the answer: when it ends
    well it has printed the answer, or nothing because the Session had ended. *)
Theorem counter_client_prints (env : environment) :
  wp counter_talk [] (counter_client_main env) (fun r printed =>
    (r = Ok () -> printed = [pretty n] \/ printed = []) /\ (r <> Ok () -> printed = []) /\ r <> Err NotUtf8).
Proof.
  unfold counter_client_main. destruct (counter_prepare env) as [a | e] eqn:Hp.
  - assert (a = MkActorAddress "counter" "counter-7") as ->.
    { unfold counter_prepare in Hp. repeat (apply result_bind_ok in Hp as (? & _ & Hp)). by vm_compute in Hp; simplify_eq. }
    split; [done |]. intros [[] | e] p ->; [| done]. split; [done |]. intros [[] | e] p ->; [| done]. split; [done |].
    intros [[event | e] |] p [-> Hev]; cbn [wp]; [| done |].
    + rewrite (Hev event eq_refl), from_utf8_pretty. do 2 (split; [done |]; intros [] ? ->). by split; [left |].
    + do 2 (split; [done |]; intros [] ? ->). by split; [right |].
  - cbn. split; [done |]. split; [done |]. intros [= ->]. unfold counter_prepare in Hp.
    repeat (apply result_bind_err in Hp as [Hp | (? & _ & Hp)]);
      unfold var, map_err, ok_or in Hp; repeat case_match; by simplify_eq.
Qed.
End prints.

(** ** The Server *)

(** The Actor Type and the node id are always valid. *)
Lemma counter_server_valid advertised :
  is_ok (Config.validate (Config.core (counter_builder advertised))) = true.
Proof. by vm_compute. Qed.

(** Where the Server reads its settings without an error, the client does. *)
Lemma counter_client_prepares env s bind advertised :
  counter_settings env = Ok (s, bind, advertised) -> is_ok (counter_prepare env) = true.
Proof.
  unfold counter_settings, counter_prepare. intros H. apply result_bind_ok in H as (bucket & -> & H).
  cbn [result_bind]. apply result_bind_ok in H as (? & _ & H). apply result_bind_ok in H as (? & _ & H).
  apply result_bind_ok in H as (store & -> & _). by vm_compute.
Qed.
